(* ===== verification/_CoqProject ===== *)
-Q . S2P
Prelude.v
RustText.v
BTreeMap.v
FamilyName.v
FamilyPath.v
FamilyModel.v
FamilyTransition.v
SessionContract.v
WriteQueue.v
ByteStream.v
InProcess.v
SessionLimits.v
EventLog.v
SessionGate.v
Service.v
ServiceAccount.v
ServiceSystem.v
ServiceSlots.v
RepoContract.v
HistoryCheck.v
HistoryWalk.v
WorkDetector.v
HostPath.v
CopyContract.v
FileSystem.v
FamilyStoreContract.v
TreeCopy.v
TreeCopyProofs.v
TreeCopyWalk.v
BlockClone.v
LocalImport.v
ImportProofs.v
RepoFactory.v
FactoryProofs.v
DemoFamily.v
StoreFormat.v
FamilyStore.v
StoreProofs.v
StoreLock.v
StorePointers.v
WorkspaceInstall.v
InstallProofs.v
LocalDisposal.v
RemoveTree.v
DisposalProofs.v
DisposalAdapter.v
CommitLog.v
CommitMarker.v
LogMerge.v
LogGraph.v
LogMergeProofs.v
LogOrder.v
LogAggregate.v
Utf8.v
LogSpool.v
LogOutput.v
LogOutputProofs.v
SpawnGate.v
