(* ===== verification/Prelude.v ===== *)
(** gwz-core: a verification of its workspace families, sessions, local
    clones, commit log and spawn gate.

    * The program

    gwz-core manages workspaces of many Git repositories.  This development
    models the crates under src/crates that hold its decisions and its
    effects on shared state, and the parts of src/src that bind them:

    - a _family_ of workspaces, one root and its clones, recorded in an index
      (family-model, family-store-contract, family-store);
    - a _session_ between a client and the host of operations, over a byte
      stream or in process (session-contract, session-channel, session-host);
    - the _installation_ of a clone (workspace-install) over a whole-tree copy
      (copy-contract, refcopy), and its _disposal_ (local-disposal), which may
      delete a directory only after the work in it (work-detector) and its
      history (repo-contract, history-check) were accounted for; the core
      adapters that make disposal's ports out of these are in
      src/src/local_clone/adapters;
    - the _exchange_ of commits between members (local-import) and the
      _construction_ of new repositories from a freeze (repo-factory);
    - the _commit log_ of a workspace (src/src/operation/commit_log), which
      merges the histories of its repositories, shows commits made together
      as one entry, by the marker a workspace commit writes into its messages
      (src/src/workspace_ops/handle_commit.rs) or by their likeness, and
      spools the records for its caller;
    - the _spawn gate_ (src/src/git/spawn_gate.rs), which keeps a child process
      from inheriting the handles another launch means for its own child.

    * The files

    Common ground.
    - [Prelude] (this file): record updates, the state and error monad [proc]
      with its notations and inversion lemmas, early-return loops, 64-bit
      arithmetic, lemmas on lists and options, the hint database [gwz].
    - [RustText]: Rust strings as sequences of scalar values, their UTF-8, the
      bytes of integers; [Utf8]: decoding bytes, strictly and with loss.
    - [BTreeMap]: ordered maps as sorted association lists.
    - [HostPath]: std::path, lexically.
    - [FileSystem]: a file tree with directories, files, links and special
      files; the system calls the code makes, each of which may fail at any
      point ([fault] is indexed by the number of the call); walks along
      paths with links, as the kernel makes them.

    Families (src/crates/family-model, family-store-contract, family-store,
    ids).
    - [FamilyName], [FamilyPath], [FamilyModel]: names, recorded paths, rows,
      views and the validation of a view.
    - [FamilyTransition]: validate_transition and, beside it, an abstract
      lifecycle of a clone that it refines.
    - [FamilyStoreContract]: the session trait as a class, its contract as
      [SessionLaws]; [DemoFamily] is an instance used by witnesses.
    - [StoreFormat], [FamilyStore]: the encoding of index, pointer and marker,
      and the store on [FileSystem]; [StoreProofs], [StoreLock],
      [StorePointers]: its theorems.

    Sessions (src/crates/session-contract, session-channel, session-host).
    - [SessionContract], [WriteQueue], [ByteStream], [InProcess]: frames and
      the two channels.
    - [SessionLimits], [EventLog], [SessionGate]: limits, event rings, gates.
    - [Service]: the operation service, its table, its scheduler and its
      close, as functions on one state; [ServiceAccount], [ServiceSystem],
      [ServiceSlots]: the threads that call them as a step relation and the
      invariants of every reachable state.

    Disposal (src/crates/repo-contract, history-check, work-detector,
    local-disposal; src/src/local_clone/adapters).
    - [RepoContract], [HistoryCheck], [HistoryWalk]: object ids, protected
      roots, the walk that verifies history and what its verdict means.
    - [WorkDetector]: the classifier of work only a copy holds.
    - [LocalDisposal], [DisposalProofs]: a disposal run over its ports.
    - [RemoveTree]: the remover on [FileSystem]; [DisposalAdapter]: core's
      history port.

    Installation, copy and exchange (src/crates/copy-contract, refcopy,
    workspace-install, local-import, repo-factory).
    - [CopyContract], [TreeCopy], [TreeCopyProofs], [TreeCopyWalk]: the copier
      of the Linux build; [BlockClone]: the range arithmetic of Windows.
    - [WorkspaceInstall], [InstallProofs]: the installation.
    - [LocalImport], [ImportProofs]: import refs and pushes.
    - [RepoFactory], [FactoryProofs]: the construction of repositories.

    Commit log (src/src/operation/commit_log).
    - [CommitLog]: entries, markers and groups (coalesce.rs); [CommitMarker]:
      the marker written is the marker read.
    - [LogMerge]: the merge of histories (merge.rs); [LogGraph]: which pending
      group waits for which; [LogMergeProofs], [LogOrder]: its theorems.
    - [LogAggregate]: outcomes per repository (aggregate.rs) and the bound on
      concurrent readers.
    - [LogSpool], [LogOutput]: records, spools, their registry and the handler
      (handler.rs); [LogOutputProofs]: their theorems.

    Spawn gate (src/src/git/spawn_gate.rs).
    - [SpawnGate]: the gate's blocks under its lock, the threads over them as a
      step relation, and its theorems.

    * Correspondence

    A struct is a Record and an enum an Inductive with the source's
    constructors, prefixed where two enums share a name; a function or method
    keeps its name.  Code that returns Result is a function to [result] or a
    [proc]; code that mutates shared state is a [proc] over that state.  A
    trait is a class of operations, and what its documentation promises a
    second class of laws: the client's theorems are proved against the laws,
    and where the implementation is modelled ([FamilyStore]) they are
    discharged for it ([StoreProofs]).  Locks held across a block make the
    block one step; what other threads do between blocks is the interleaving
    of a step relation.  Integers are [N] or [Z] with the width written out
    where the code relies on it: saturating and wrapping operations are the
    Prelude's.

    * What the theorems show

    Every theorem marked C1 to C40 is listed in the manifest.  By group:
    - families: validate_transition refines the lifecycle and every reachable
      index is valid; the store keeps the session contract on any tree and
      under any faults, publishes atomically, excludes a second session, and
      its formats round-trip;
    - sessions: every call is answered once on its own lane and, after a
      close, answered at all; conflicting operations never run together; the
      scheduler ends; frames arrive whole and in order;
    - disposal: a directory is removed only after an inspection that cleared
      or waived everything in it, by name; what the history check calls
      preserved is preserved; the remover never leaves its target;
    - installation and copy: the effects reported are the effects there are,
      in order, on every failure; a copy writes only below its destination,
      reports exactly what stands there, and its modes agree; block-clone
      requests tile the file within the limits of the call;
    - exchange: pairing is exact, an import writes its one ref and verifies
      it, a push touches what it names;
    - construction: every outcome of a construction determines the calls it
      made, and which origin URLs survive is exact;
    - commit log: the merge ends, shows each history in order, whole unless
      the limit was reached, and groups only commits that belong together; a
      marker written is read back; outcomes are exact; a record loses nothing
      it does not flag, and a reader that follows the cursors gets every
      record once;
    - spawn gate: two holds never overlap, within a gate or across the gates
      of a kernel object, and launches overtake a waiting hold only so often.

    * Bounds and fuel

    Loops that Rust runs to a condition are fixpoints on a fuel whose
    exhaustion is a value of its own ([None]), and theorems show it is never
    reached: the scheduler with the length of its queues, the copier with the
    cost of traversing its source, a streamed copy with the length of the
    file, the remover with the depth of the tree, the range loop with the
    number of pieces, the history walk with the size of a store without
    cycles, the merge of a log with the number of its entries and the search
    along its pending groups with the number of their edges.  Path
    resolution follows at most 40 links, as Linux does.

    * Assumptions

    Parameters stand for what is not in the repository: the YAML codec
    (round-trip of what it encodes), the object reader and layout inspector
    over libgit2, the transports and repository builders behind the ports,
    random ids and SHA-256, the CBOR codec of a log's records (round-trip),
    texts of the operating system.  Each group of assumptions is a
    class with an instance that satisfies it, used by a witness.

    * Not modelled

    Permission bits, times and extended attributes of files; memory wiping;
    the start of threads and processes, except that it may fail where the
    code handles that; the wrappers around macOS and Windows calls; the Git
    backend and the workspace commands over it (src/src/git, workspace_ops,
    status, diff and the like), whose substance is libgit2's: a history of the
    commit log is the sequence of events its walk yields, and its filters and
    the resolution of its operands are left out; the generated protocol;
    sockets and credential helpers (transport_host, server).  The manifest
    lists every part with its state. *)

From stdpp Require Export prelude gmap strings list pretty sorting.
From Stdlib Require Export ZArith.

#[export] Set Default Proof Using "Type*".

Declare Scope gwz_scope.
Delimit Scope gwz_scope with gwz.
Open Scope gwz_scope.

(** ** Rust's [Result]

    [let? x := r in k] is the source's [let x = r?; k], and [check? r in k]
    its [r?; k], which keeps no value. *)

Inductive result (A E : Type) : Type :=
| Ok (a : A)
| Err (e : E).
Arguments Ok {A E} a.
Arguments Err {A E} e.

Definition rbind {A B E} (r : result A E) (k : A -> result B E) : result B E :=
  match r with
  | Ok a => k a
  | Err e => Err e
  end.

Definition map_err {A E F} (f : E -> F) (r : result A E) : result A F :=
  match r with
  | Ok a => Ok a
  | Err e => Err (f e)
  end.

Definition is_ok {A E} (r : result A E) : bool :=
  match r with
  | Ok _ => true
  | Err _ => false
  end.

Notation "'let?' x := r 'in' k" := (rbind r (fun x => k))
  (at level 10, x name, r at level 100, k at level 200) : gwz_scope.
Notation "'check?' r 'in' k" := (rbind r (fun _ => k))
  (at level 10, r at level 100, k at level 200) : gwz_scope.

#[global] Instance result_eq_dec {A E} `{EqDecision A, EqDecision E} :
  EqDecision (result A E).
Proof. solve_decision. Defined.

(** ** Record update

    [s <| field := v |>] is the record [s] with one field assigned, for a
    record type whose [Settable] instance rebuilds it from its fields. *)

Class Settable (R : Type) : Type := rebuild : R -> R.
Class Setter {R E : Type} (field : R -> E) : Type := set_field : (E -> E) -> R -> R.
Arguments set_field {R E} field {_} _ _ /.

Ltac solve_setter :=
  match goal with
  | |- @Setter ?R ?E ?field =>
      let m := eval hnf in (@rebuild R _) in
      match eval pattern field in m with
      | ?build _ => exact (fun f => build (fun r => f (field r)))
      end
  end.

#[export] Hint Extern 1 (Setter _) => solve_setter : typeclass_instances.

Notation "s <| field := v |>" := (set_field field (fun _ => v) s)
  (at level 1, left associativity, format "s  <| field  :=  v |>") : gwz_scope.

(** ** Fallible procedures

    A procedure over a state [S] that may return early with an error:
    [let! x := m in k] is the source's [let x = m?; k], where [m] acts on the
    state. *)

Definition proc (S A E : Type) : Type := S -> S * result A E.

Definition pret {S A E} (a : A) : proc S A E := fun s => (s, Ok a).
Definition pfail {S A E} (e : E) : proc S A E := fun s => (s, Err e).
Definition plift {S A E} (r : result A E) : proc S A E := fun s => (s, r).
Definition pbind {S A B E} (m : proc S A E) (k : A -> proc S B E) : proc S B E :=
  fun s => let '(s', r) := m s in match r with Ok a => k a s' | Err e => (s', Err e) end.
Definition pmap_err {S A E F} (f : E -> F) (m : proc S A E) : proc S A F :=
  fun s => let '(s', r) := m s in (s', map_err f r).

Notation "'let!' x := m 'in' k" := (pbind m (fun x => k))
  (at level 10, x name, m at level 100, k at level 200) : gwz_scope.
Notation "'do!' m 'in' k" := (pbind m (fun _ => k))
  (at level 10, m at level 100, k at level 200) : gwz_scope.

(** A call whose outcome the caller inspects. *)
Definition pcase {S A B E F} (m : proc S A E) (k : result A E -> proc S B F) : proc S B F :=
  fun s => let '(s', r) := m s in k r s'.

(** ** Early-return loops

    [for x in l { f(x)?; }] of the source. *)

Fixpoint for_each {A E} (f : A -> result unit E) (l : list A) : result unit E :=
  match l with
  | [] => Ok tt
  | a :: l' => check? f a in for_each f l'
  end.

(** ** Machine-width unsigned integers

    A [usize] or [u64] is an [N] below [2^64] (the development takes a 64-bit
    target); a [u32] is below [2^32] and a [u8] below [256]. *)

Definition u64_max : N := 18446744073709551615.
Definition u32_max : N := 4294967295.
Definition usize_max : N := u64_max.

Definition checked_add (a b : N) : option N :=
  if (a + b <=? usize_max)%N then Some (a + b)%N else None.

Definition saturating_add (a b : N) : N := N.min (a + b) usize_max.
Definition saturating_add_u32 (a b : N) : N := N.min (a + b) u32_max.

(** Rust's [saturating_sub] on unsigned integers is [N]'s truncated
    subtraction. *)
Definition saturating_sub (a b : N) : N := (a - b)%N.

(** ** Tactics *)

(** Splits every [Ok]/[Err] scrutinised by a bind in the context. *)
Ltac destruct_result :=
  repeat match goal with
  | H : rbind ?r _ = _ |- _ =>
      let E := fresh "Hr" in destruct r eqn:E; simpl in H; simplify_eq
  | H : map_err _ ?r = _ |- _ =>
      let E := fresh "Hr" in destruct r eqn:E; simpl in H; simplify_eq
  end.

(** Case analysis on the conditions of a straight-line handler. *)
Ltac break_cond :=
  repeat match goal with
  | H : context [decide ?P] |- _ => destruct (decide P); simplify_eq/=
  | |- context [decide ?P] => destruct (decide P); simplify_eq/=
  | H : (if ?b then _ else _) = _ |- _ => destruct b eqn:?; simplify_eq/=
  | |- context [if ?b then _ else _] => destruct b eqn:?; simplify_eq/=
  end.

Create HintDb gwz.
Create Rewrite HintDb gwz.

(** ** Lemmas on results and loops *)

Section results.
Context {A B E F : Type}.

Lemma rbind_ok (r : result A E) (k : A -> result B E) (b : B) :
  rbind r k = Ok b <-> exists a, r = Ok a /\ k a = Ok b.
Proof. destruct r; simpl; naive_solver. Qed.

Lemma rbind_err (r : result A E) (k : A -> result B E) (e : E) :
  rbind r k = Err e <-> r = Err e \/ exists a, r = Ok a /\ k a = Err e.
Proof. destruct r; simpl; naive_solver. Qed.

Lemma map_err_ok (f : E -> F) (r : result A E) (a : A) :
  map_err f r = Ok a <-> r = Ok a.
Proof. destruct r; simpl; naive_solver. Qed.

Lemma map_err_err (f : E -> F) (r : result A E) (e : F) :
  map_err f r = Err e <-> exists e', r = Err e' /\ f e' = e.
Proof. destruct r; simpl; naive_solver. Qed.

Lemma is_ok_true (r : result A E) : is_ok r = true <-> exists a, r = Ok a.
Proof. destruct r; simpl; naive_solver. Qed.

End results.

Section loops.
Context {A E : Type}.

Lemma for_each_ok (f : A -> result unit E) (l : list A) :
  for_each f l = Ok tt <-> Forall (fun a => f a = Ok tt) l.
Proof.
  induction l as [|a l IH]; simpl; [by split|].
  rewrite rbind_ok, Forall_cons, <- IH. split.
  - intros ([] & ? & ?). done.
  - intros [? ?]. by exists tt.
Qed.

(** The loop fails with the error of the first element that fails. *)
Lemma for_each_err (f : A -> result unit E) (l : list A) (e : E) :
  for_each f l = Err e <->
  exists l1 a l2, l = l1 ++ a :: l2 /\ Forall (fun a => f a = Ok tt) l1 /\ f a = Err e.
Proof.
  induction l as [|x l IH]; simpl.
  - split; [done|]. intros (l1 & a & l2 & H & _). by destruct l1.
  - rewrite rbind_err. setoid_rewrite IH. split.
    + intros [H | ([] & Hx & l1 & a & l2 & -> & H1 & H2)].
      * exists [], x, l. by split_and!; [|constructor|].
      * exists (x :: l1), a, l2. split_and!; [done| |done]. by constructor.
    + intros (l1 & a & l2 & H & H1 & H2). destruct l1 as [|y l1]; simplify_eq/=; [by left|].
      inv H1. right. exists tt. naive_solver.
Qed.

End loops.

#[export] Hint Rewrite @rbind_ok @rbind_err @map_err_ok @map_err_err @for_each_ok : gwz.

(** ** Lemmas on lists *)

Section lists.
Context {A : Type}.

(** An element of a list with pairwise related elements splits it. *)
Lemma pairwise_insert (R : A -> A -> Prop) (l1 l2 : list A) (x : A) :
  (forall a b, R a b -> R b a) ->
  ForallOrdPairs R (l1 ++ l2) -> Forall (R x) (l1 ++ l2) ->
  ForallOrdPairs R (l1 ++ x :: l2).
Proof.
  intros Hsym Hl Hx. induction l1 as [|y l1 IH]; simpl in *.
  - by constructor.
  - inversion Hl as [|? ? Hy Hl']; inversion Hx; subst. constructor; [|by apply IH].
    apply Forall_app in Hy as [? ?]. apply Forall_app. split; [done|].
    constructor; [|done]. by apply Hsym.
Qed.

(** For a symmetric relation on a list without duplicates, ordered pairs are
    all pairs of distinct elements. *)
Lemma pairwise_distinct (R : A -> A -> Prop) (l : list A) :
  (forall a b, R a b -> R b a) -> NoDup l ->
  ForallOrdPairs R l <-> (forall a b, a ∈ l -> b ∈ l -> a <> b -> R a b).
Proof.
  intros Hsym Hnd. split.
  - intros H a b Ha%list_elem_of_In Hb%list_elem_of_In Hne.
    destruct (ForallOrdPairs_In H a b Ha Hb) as [|[]]; naive_solver.
  - induction Hnd as [|x l Hx Hnd IH]; intros H; constructor.
    + apply Forall_forall. intros y Hy. apply H; set_solver.
    + apply IH. intros a b Ha Hb. apply H; set_solver.
Qed.

Lemma snoc_inv (l : list A) : l = [] \/ exists l' x, l = l' ++ [x].
Proof.
  destruct l as [|a l] using rev_ind; [by left|]. right. eauto.
Qed.

Lemma removelast_snoc (l : list A) (x : A) : removelast (l ++ [x]) = l.
Proof. apply removelast_last. Qed.

End lists.

(** ** Inverting a procedure *)

Lemma pbind_inv {S A B E} (m : proc S A E) (k : A -> proc S B E) s s' r :
  pbind m k s = (s', r) ->
  (exists e, m s = (s', Err e) /\ r = Err e) \/ (exists a s1, m s = (s1, Ok a) /\ k a s1 = (s', r)).
Proof. unfold pbind. destruct (m s) as [s1 [a|e]]; [|intros [= <- <-]]; eauto. Qed.

Lemma then_ret_inv {S A B E} (m : proc S A E) (b : B) s s' r :
  (do! m in pret b) s = (s', r) -> exists r', m s = (s', r') /\ is_ok r' = is_ok r.
Proof. intros [(e & H1 & ->)|(x & s1 & H1 & [= <- <-])]%pbind_inv; eauto. Qed.

Lemma pmap_err_inv {S A E F} (f : E -> F) (m : proc S A E) s s' r :
  pmap_err f m s = (s', r) -> exists r0, m s = (s', r0) /\ r = map_err f r0.
Proof. unfold pmap_err. destruct (m s) as [s1 r0]. intros [= <- <-]. eauto. Qed.

Lemma pcase_inv {S A B E F} (m : proc S A E) (k : result A E -> proc S B F) s s' r :
  pcase m k s = (s', r) -> exists r0 s1, m s = (s1, r0) /\ k r0 s1 = (s', r).
Proof. unfold pcase. destruct (m s) as [s1 r0]. eauto. Qed.

Lemma existsb_elem {A} (P : A -> bool) l : existsb P l = true <-> exists x, x ∈ l /\ P x = true.
Proof. rewrite existsb_exists. by setoid_rewrite list_elem_of_In. Qed.

Lemma existsb_member `{EqDecision A} (x : A) l : existsb (fun y => bool_decide (y = x)) l = bool_decide (x ∈ l).
Proof.
  apply eq_bool_prop_intro. rewrite Is_true_true, existsb_elem, bool_decide_spec. split.
  - intros (y & Hy & E%bool_decide_eq_true). by subst.
  - intros Hx. exists x. split; [done|by apply bool_decide_eq_true].
Qed.

(** ** Sums over lists *)

Lemma sum_insert {A} (f : A -> nat) (l : list A) i x y : l !! i = Some x -> sum_list_with f (<[i := y]> l) + f x = sum_list_with f l + f y.
Proof.
  intros H. rewrite insert_take_drop by (by eapply lookup_lt_Some). rewrite <- (take_drop_middle l i x H) at 3.
  rewrite !sum_list_with_app. cbn. lia.
Qed.

Lemma sum_delete {A} (f : A -> nat) (l : list A) i x : l !! i = Some x -> sum_list_with f (delete i l) + f x = sum_list_with f l.
Proof.
  intros H. rewrite delete_take_drop. rewrite <- (take_drop_middle l i x H) at 3. rewrite !sum_list_with_app. cbn. lia.
Qed.

Lemma sum_elem {A} (f : A -> nat) (l : list A) i x : l !! i = Some x -> f x <= sum_list_with f l.
Proof. intros H. pose proof (sum_delete f l i x H). lia. Qed.

Lemma sum_two {A} (f : A -> nat) (l : list A) i j x y : l !! i = Some x -> l !! j = Some y -> i <> j -> f x + f y <= sum_list_with f l.
Proof.
  intros Hi Hj Hne. rewrite <- (sum_delete f l i x Hi). enough (f y <= sum_list_with f (delete i l)) by lia.
  destruct (decide (j < i)).
  - apply (sum_elem f _ j). by rewrite list_lookup_delete_lt.
  - apply (sum_elem f _ (j - 1)). rewrite list_lookup_delete_ge by lia. by replace (S (j - 1)) with j by lia.
Qed.

Lemma sum_le {A} (f g : A -> nat) (l : list A) : (forall x, f x <= g x) -> sum_list_with f l <= sum_list_with g l.
Proof. intros H. induction l as [|x l IH]; cbn; [done|]. specialize (H x). lia. Qed.
