(* ===== verification/RustText.v ===== *)
(** Rust text as the sources use it.

    A [str] or [String] is its sequence of Unicode scalar values, each an [N];
    [lit] writes an ASCII literal of the source. The operations are the ones
    the modelled code calls: [split], [join], [replace] of one character,
    [trim], the character classes, and the byte length of the UTF-8 encoding.
    Strings compare as Rust compares them; [utf8_ltb] shows that comparing
    scalar values is comparing the UTF-8 bytes that Rust compares. *)

From Stdlib Require Export Ascii.
From S2P Require Export Prelude.

Abbreviation str := (list N).

Definition lit (s : string) : str := Ascii.N_of_ascii <$> String.list_ascii_of_string s.

(** [{n}] of [format!] for an unsigned integer. *)
Definition show_N (n : N) : str := lit (pretty n).

(** ** Characters *)

(** [char::is_control]: general category Cc. *)
Definition is_control (c : N) : bool :=
  (c <=? 31)%N || ((127 <=? c) && (c <=? 159))%N.

(** [char::is_whitespace]: the White_Space property. *)
Definition is_whitespace (c : N) : bool :=
  ((9 <=? c) && (c <=? 13))%N || (c =? 32)%N || (c =? 133)%N || (c =? 160)%N ||
  (c =? 5760)%N || ((8192 <=? c) && (c <=? 8202))%N || (c =? 8232)%N ||
  (c =? 8233)%N || (c =? 8239)%N || (c =? 8287)%N || (c =? 12288)%N.

Definition is_ascii_alphabetic (c : N) : bool :=
  ((65 <=? c) && (c <=? 90))%N || ((97 <=? c) && (c <=? 122))%N.

Definition is_ascii_digit (c : N) : bool := ((48 <=? c) && (c <=? 57))%N.

Definition is_ascii_alphanumeric (c : N) : bool :=
  is_ascii_alphabetic c || is_ascii_digit c.

Definition to_ascii_lowercase (c : N) : N := if ((65 <=? c) && (c <=? 90))%N then (c + 32)%N else c.

(** A Unicode scalar value: what a Rust [char] holds. *)
Definition is_scalar (c : N) : bool :=
  (c <? 55296)%N || ((57344 <=? c) && (c <=? 1114111))%N.

(** ** UTF-8 *)

(** [char::len_utf8]. *)
Definition char_len (c : N) : nat :=
  if (c <? 128)%N then 1
  else if (c <? 2048)%N then 2
  else if (c <? 65536)%N then 3
  else 4.

(** [str::len]: the length in bytes. *)
Definition str_len (s : str) : nat := sum_list_with char_len s.

Definition utf8_char (c : N) : list N :=
  if (c <? 128)%N then [c]
  else if (c <? 2048)%N then [192 + c / 64; 128 + c mod 64]%N
  else if (c <? 65536)%N then
    [224 + c / 4096; 128 + (c / 64) mod 64; 128 + c mod 64]%N
  else [240 + c / 262144; 128 + (c / 4096) mod 64; 128 + (c / 64) mod 64; 128 + c mod 64]%N.

Definition utf8 (s : str) : list N := mjoin (utf8_char <$> s).

(** ** Order *)

(** Lexicographic order: Rust's on byte slices, and so on strings. *)
Fixpoint lex_ltb (a b : list N) : bool :=
  match a, b with
  | [], [] => false
  | [], _ :: _ => true
  | _ :: _, [] => false
  | x :: a', y :: b' => if (x <? y)%N then true else if (y <? x)%N then false else lex_ltb a' b'
  end.

(** ** Operations *)

(** [str::split(c)]: never empty; a separator at an end gives an empty part. *)
Fixpoint split_on (c : N) (s : str) : list str :=
  match s with
  | [] => [[]]
  | x :: s' =>
      match split_on c s' with
      | [] => [[]]
      | part :: parts => if (x =? c)%N then [] :: part :: parts else (x :: part) :: parts
      end
  end.

(** [\[str\]::join(sep)] for a one-character separator. *)
Fixpoint join_with (c : N) (parts : list str) : str :=
  match parts with
  | [] => []
  | [p] => p
  | p :: rest => p ++ c :: join_with c rest
  end.

(** [str::replace(a, b)] for two one-character strings. *)
Definition replace_char (a b : N) (s : str) : str :=
  (fun x => if (x =? a)%N then b else x) <$> s.

Fixpoint trim_start (s : str) : str :=
  match s with
  | [] => []
  | x :: s' => if is_whitespace x then trim_start s' else s
  end.

Definition trim (s : str) : str := reverse (trim_start (reverse (trim_start s))).

Definition starts_with (P : N -> bool) (s : str) : bool :=
  match s with
  | [] => false
  | x :: _ => P x
  end.

Definition ends_with (P : N -> bool) (s : str) : bool := starts_with P (reverse s).

(** [Iterator::find] on the characters. *)
Fixpoint find_char (P : N -> bool) (s : str) : option N :=
  match s with
  | [] => None
  | x :: s' => if P x then Some x else find_char P s'
  end.

(** [str::strip_prefix]. *)
Fixpoint strip_prefix (p s : str) : option str :=
  match p, s with
  | [], _ => Some s
  | _ :: _, [] => None
  | x :: p', y :: s' => if (x =? y)%N then strip_prefix p' s' else None
  end.

(** ** Bytes of an integer

    [from_le_bytes] and [to_le_bytes] of Rust's unsigned integers, here for any
    number of bytes; [from_be_bytes] and [to_be_bytes] in the other order. *)
Fixpoint from_le_bytes (bytes : list N) : N :=
  match bytes with
  | [] => 0
  | b :: bytes' => b + 256 * from_le_bytes bytes'
  end%N.

Fixpoint to_le_bytes (n : nat) (value : N) : list N :=
  match n with
  | 0 => []
  | S n' => (value mod 256)%N :: to_le_bytes n' (value / 256)%N
  end.

Definition from_be_bytes (bytes : list N) : N := from_le_bytes (reverse bytes).
Definition to_be_bytes (n : nat) (value : N) : list N := reverse (to_le_bytes n value).

(** The characters the sources name. *)
Definition c_slash : N := 47.
Definition c_backslash : N := 92.
Definition c_colon : N := 58.
Definition c_dot : N := 46.

(** ** Lemmas on order *)

Lemma lex_ltb_irrefl a : lex_ltb a a = false.
Proof. induction a as [|x a IH]; simpl; [done|]. by rewrite !N.ltb_irrefl. Qed.

Lemma lex_ltb_trans a b c : lex_ltb a b = true -> lex_ltb b c = true -> lex_ltb a c = true.
Proof.
  revert b c. induction a as [|x a IH]; intros [|y b] [|z c]; simpl; try done.
  intros H1 H2.
  destruct (N.ltb_spec x y), (N.ltb_spec y x), (N.ltb_spec y z), (N.ltb_spec z y),
    (N.ltb_spec x z), (N.ltb_spec z x); try done; try lia; eauto.
Qed.

Lemma lex_ltb_total a b : lex_ltb a b = false -> lex_ltb b a = false -> a = b.
Proof.
  revert b. induction a as [|x a IH]; intros [|y b]; simpl; try done.
  destruct (N.ltb_spec x y), (N.ltb_spec y x); try done; try lia.
  intros. f_equal; [lia|]. eauto.
Qed.

Lemma lex_ltb_app_same p a b : lex_ltb (p ++ a) (p ++ b) = lex_ltb a b.
Proof. induction p as [|x p IH]; simpl; [done|]. by rewrite N.ltb_irrefl. Qed.

Lemma base64_digits x :
  exists q r, (x / 64 = q /\ x mod 64 = r /\ x = 64 * q + r /\ r < 64)%N.
Proof.
  exists (x / 64)%N, (x mod 64)%N. split_and!; [done..| |by apply N.mod_lt].
  by apply N.div_mod.
Qed.

(** Settles one byte comparison; the bounds of the digits are in the context. *)
Ltac compare_bytes :=
  cbn [app lex_ltb];
  repeat match goal with
  | |- context [(?u <? ?v)%N] => destruct (N.ltb_spec u v); try (exfalso; lia); try reflexivity
  end.

Lemma utf8_char_lt x y a b :
  (x < y)%N -> lex_ltb (utf8_char x ++ a) (utf8_char y ++ b) = true.
Proof.
  intros Hlt. unfold utf8_char.
  replace (x / 4096)%N with (x / 64 / 64)%N by by rewrite N.Div0.div_div.
  replace (y / 4096)%N with (y / 64 / 64)%N by by rewrite N.Div0.div_div.
  replace (x / 262144)%N with (x / 64 / 64 / 64)%N by by rewrite !N.Div0.div_div.
  replace (y / 262144)%N with (y / 64 / 64 / 64)%N by by rewrite !N.Div0.div_div.
  destruct (base64_digits x) as (x1 & x0 & -> & -> & ? & ?).
  destruct (base64_digits x1) as (x2 & r1 & -> & -> & ? & ?).
  destruct (base64_digits x2) as (x3 & r2 & -> & -> & ? & ?).
  destruct (base64_digits y) as (y1 & y0 & -> & -> & ? & ?).
  destruct (base64_digits y1) as (y2 & s1 & -> & -> & ? & ?).
  destruct (base64_digits y2) as (y3 & s2 & -> & -> & ? & ?).
  destruct (N.ltb_spec x 128), (N.ltb_spec y 128); try (exfalso; lia);
    try solve [compare_bytes];
    destruct (N.ltb_spec x 2048), (N.ltb_spec y 2048); try (exfalso; lia);
    try solve [compare_bytes];
    destruct (N.ltb_spec x 65536), (N.ltb_spec y 65536); try (exfalso; lia); compare_bytes.
Qed.

(** Comparing scalar values is comparing the UTF-8 bytes. *)
Lemma utf8_ltb a b : lex_ltb (utf8 a) (utf8 b) = lex_ltb a b.
Proof.
  unfold utf8. revert b. induction a as [|x a IH]; intros [|y b]; cbn [fmap list_fmap mjoin list_join].
  - done.
  - simpl. unfold utf8_char. by repeat case_match.
  - simpl. unfold utf8_char. by repeat case_match.
  - cbn [lex_ltb]. destruct (N.ltb_spec x y); [by apply utf8_char_lt|].
    destruct (N.ltb_spec y x) as [Hlt|].
    + apply not_true_is_false. intros H'.
      pose proof (lex_ltb_trans _ _ _ H' (utf8_char_lt y x
        (mjoin (utf8_char <$> b)) (mjoin (utf8_char <$> a)) Hlt)) as Hc.
      by rewrite lex_ltb_irrefl in Hc.
    + assert (x = y) as -> by lia. rewrite lex_ltb_app_same. apply IH.
Qed.

(** *** ASCII *)

Lemma str_len_ascii s : (forall c, c ∈ s -> (c < 128)%N) -> str_len s = length s.
Proof.
  unfold str_len. induction s as [|c s IH]; simpl; intros H; [done|].
  rewrite IH by set_solver. unfold char_len.
  destruct (N.ltb_spec c 128) as [|Hc]; [done|]. specialize (H c). set_solver by lia.
Qed.

Lemma utf8_ascii s : (forall c, c ∈ s -> (c < 128)%N) -> utf8 s = s.
Proof.
  unfold utf8. induction s as [|c s IH]; intros H; [done|]. rewrite fmap_cons. simpl.
  change (mjoin (utf8_char <$> s)) with (utf8 s). unfold utf8 at 1. rewrite IH by set_solver.
  unfold utf8_char. destruct (N.ltb_spec c 128) as [|Hc]; [done|].
  specialize (H c (list_elem_of_here _ _)). lia.
Qed.

Lemma ascii_of_utf8 s : (forall b, b ∈ utf8 s -> (b < 128)%N) -> forall c, c ∈ s -> (c < 128)%N.
Proof.
  induction s as [|c s IH]; intros H c' Hc'; [by apply elem_of_nil in Hc'|].
  unfold utf8 in H. rewrite fmap_cons in H. simpl in H.
  apply elem_of_cons in Hc' as [->|Hc'];
    [|apply IH; [|done]; intros b Hb; apply H, elem_of_app; by right].
  assert (Hin : forall b, b ∈ utf8_char c -> (b < 128)%N) by (intros b Hb; apply H, elem_of_app; by left).
  unfold utf8_char in Hin. destruct (N.ltb_spec c 128) as [|Hge]; [done|].
  destruct (c <? 2048)%N; [|destruct (c <? 65536)%N];
    pose proof (Hin _ (list_elem_of_here _ _)) as Hb;
    match type of Hb with (_ + ?q < _)%N => revert Hb; generalize q; intros q0 Hb end; lia.
Qed.

Lemma length_utf8 s : length (utf8 s) = str_len s.
Proof.
  unfold utf8, str_len. induction s as [|c s IH]; [done|]. rewrite fmap_cons. cbn [mjoin list_join sum_list_with].
  rewrite length_app. f_equal; [|exact IH].
  unfold utf8_char, char_len. by destruct (c <? 128)%N, (c <? 2048)%N, (c <? 65536)%N.
Qed.

(** ** Lemmas on splitting and joining *)

Lemma split_on_cons_eq c s : exists p ps, split_on c s = p :: ps.
Proof.
  induction s as [|x s (p & ps & IH)]; simpl; [eauto|]. rewrite IH.
  destruct (x =? c)%N; eauto.
Qed.

Lemma split_on_parts c s : Forall (fun p => c ∉ p) (split_on c s).
Proof.
  induction s as [|x s IH]; simpl; [by repeat constructor; set_solver|].
  destruct (split_on c s) as [|p ps]; [by repeat constructor; set_solver|].
  inv IH. destruct (N.eqb_spec x c); repeat constructor; set_solver.
Qed.

Lemma join_split c s : join_with c (split_on c s) = s.
Proof.
  induction s as [|x s IH]; simpl; [done|].
  destruct (split_on_cons_eq c s) as (p & ps & E). rewrite E in *.
  destruct (N.eqb_spec x c) as [->|]; destruct ps; simpl in *; by rewrite ?IH.
Qed.

Lemma split_on_clean c p : c ∉ p -> split_on c p = [p].
Proof.
  induction p as [|x p IH]; simpl; [done|]. intros H.
  rewrite IH by set_solver. destruct (N.eqb_spec x c); [set_solver|done].
Qed.

Lemma split_on_app c p s :
  c ∉ p -> split_on c (p ++ c :: s) = p :: split_on c s.
Proof.
  induction p as [|x p IH]; simpl; intros H.
  - destruct (split_on_cons_eq c s) as (q & qs & ->). by rewrite N.eqb_refl.
  - rewrite IH by set_solver. destruct (N.eqb_spec x c); [set_solver|done].
Qed.

Lemma split_join c parts :
  parts <> [] -> Forall (fun p => c ∉ p) parts -> split_on c (join_with c parts) = parts.
Proof.
  intros Hne H. induction H as [|p ps Hp Hps IH]; [done|].
  destruct ps as [|q ps]; [by apply split_on_clean|].
  change (join_with c (p :: q :: ps)) with (p ++ c :: join_with c (q :: ps)).
  rewrite split_on_app by done. by rewrite IH.
Qed.

Lemma elem_of_join c parts x :
  x ∈ join_with c parts -> x = c \/ exists p, p ∈ parts /\ x ∈ p.
Proof.
  induction parts as [|p ps IH]; simpl; [set_solver|].
  destruct ps as [|q ps]; [set_solver|].
  rewrite elem_of_app, elem_of_cons. set_solver.
Qed.

Lemma replace_char_not_in a b s : a <> b -> a ∉ replace_char a b s.
Proof.
  intros Hab. unfold replace_char. rewrite list_elem_of_fmap.
  intros (x & Hx & _). destruct (N.eqb_spec x a); congruence.
Qed.

Lemma replace_char_id a b s : a ∉ s -> replace_char a b s = s.
Proof.
  unfold replace_char. induction s as [|x s IH]; intros H; [done|].
  rewrite fmap_cons, IH by set_solver. destruct (N.eqb_spec x a); [set_solver|done].
Qed.

Lemma find_char_none P s : find_char P s = None <-> Forall (fun x => P x = false) s.
Proof.
  induction s as [|x s IH]; simpl; [by split|]. rewrite Forall_cons, <- IH.
  destruct (P x); naive_solver.
Qed.

Lemma find_char_some P s x : find_char P s = Some x -> x ∈ s /\ P x = true.
Proof.
  induction s as [|y s IH]; simpl; [done|].
  destruct (P y) eqn:?; intros; simplify_eq; set_solver.
Qed.

Lemma from_to_le_bytes n v : (v < 256 ^ N.of_nat n)%N -> from_le_bytes (to_le_bytes n v) = v.
Proof.
  revert v. induction n as [|n IH]; intros v Hv; simpl.
  - simpl in Hv. lia.
  - rewrite Nat2N.inj_succ, N.pow_succ_r' in Hv. rewrite IH by (apply N.Div0.div_lt_upper_bound; lia).
    rewrite N.add_comm. symmetry. apply N.div_mod'.
Qed.

Lemma length_to_le_bytes n v : length (to_le_bytes n v) = n.
Proof. revert v. induction n as [|n IH]; intros v; simpl; [done|]. by rewrite IH. Qed.

Lemma from_to_be_bytes n v : (v < 256 ^ N.of_nat n)%N -> from_be_bytes (to_be_bytes n v) = v.
Proof. intros H. unfold from_be_bytes, to_be_bytes. rewrite reverse_involutive. by apply from_to_le_bytes. Qed.

Lemma length_to_be_bytes n v : length (to_be_bytes n v) = n.
Proof. unfold to_be_bytes. by rewrite length_reverse, length_to_le_bytes. Qed.
