(* ===== verification/BTreeMap.v ===== *)
(** [std::collections::BTreeMap]: entries in strictly increasing key order.

    The sources iterate maps in key order and report the first refusal they
    meet, so the order is part of the behaviour. A map is its list of entries
    with a proof that the keys increase; the proof is a boolean equation kept
    in normal form, so maps compute and two maps with the same entries are
    equal. *)

From S2P Require Export RustText.

(** Keys with a strict total order ([Ord]). *)
Class OrdKey (K : Type) : Type := {
  key_eq_dec :: EqDecision K;
  key_ltb : K -> K -> bool;
  key_ltb_irrefl : forall k, key_ltb k k = false;
  key_ltb_trans : forall a b c, key_ltb a b = true -> key_ltb b c = true -> key_ltb a c = true;
  key_ltb_total : forall a b, key_ltb a b = false -> key_ltb b a = false -> a = b;
}.

#[global] Program Instance str_ord : OrdKey str := {|
  key_ltb := lex_ltb;
  key_ltb_irrefl := lex_ltb_irrefl;
  key_ltb_trans := lex_ltb_trans;
  key_ltb_total := lex_ltb_total;
|}.

#[global] Program Instance N_ord : OrdKey N := {| key_ltb := N.ltb |}.
Next Obligation. apply N.ltb_irrefl. Qed.
Next Obligation. intros a b c. rewrite !N.ltb_lt. lia. Qed.
Next Obligation. intros a b. rewrite !N.ltb_ge. lia. Qed.

Section entries.
Context {K V : Type} `{OrdKey K}.

Fixpoint ent_sorted (l : list (K * V)) : bool :=
  match l with
  | [] => true
  | (k, _) :: l' => forallb (fun p => key_ltb k p.1) l' && ent_sorted l'
  end.

Fixpoint ent_get (k : K) (l : list (K * V)) : option V :=
  match l with
  | [] => None
  | (k', v) :: l' => if decide (k = k') then Some v else ent_get k l'
  end.

Fixpoint ent_insert (k : K) (v : V) (l : list (K * V)) : list (K * V) :=
  match l with
  | [] => [(k, v)]
  | (k', v') :: l' =>
      if key_ltb k k' then (k, v) :: l
      else if key_ltb k' k then (k', v') :: ent_insert k v l'
      else (k, v) :: l'
  end.

Fixpoint ent_remove (k : K) (l : list (K * V)) : list (K * V) :=
  match l with
  | [] => []
  | (k', v') :: l' => if decide (k = k') then l' else (k', v') :: ent_remove k l'
  end.

Lemma ent_sorted_cons k v l :
  ent_sorted ((k, v) :: l) = true <->
  Forall (fun p => key_ltb k p.1 = true) l /\ ent_sorted l = true.
Proof.
  simpl. rewrite andb_true_iff, forallb_forall, Forall_forall.
  setoid_rewrite list_elem_of_In. done.
Qed.

Lemma ent_sorted_app l1 l2 :
  ent_sorted (l1 ++ l2) = true <->
  ent_sorted l1 = true /\ ent_sorted l2 = true /\
  Forall (fun p => Forall (fun q => key_ltb p.1 q.1 = true) l2) l1.
Proof.
  induction l1 as [|[k v] l1 IH]; [naive_solver|].
  change (((k, v) :: l1) ++ l2) with ((k, v) :: (l1 ++ l2)).
  rewrite !ent_sorted_cons, IH, Forall_app, Forall_cons. naive_solver.
Qed.

Lemma ent_get_none_notin k l : ent_get k l = None <-> k ∉ l.*1.
Proof.
  induction l as [|[k' v'] l IH]; simpl; [set_solver|].
  case_decide; simplify_eq; set_solver.
Qed.

Lemma ent_get_split k v l :
  ent_get k l = Some v -> exists l1 l2, l = l1 ++ (k, v) :: l2 /\ k ∉ l1.*1.
Proof.
  induction l as [|[k' v'] l IH]; simpl; [done|]. case_decide; intros; simplify_eq.
  - exists [], l. set_solver.
  - destruct IH as (l1 & l2 & -> & ?); [done|]. exists ((k', v') :: l1), l2. set_solver.
Qed.

Lemma ent_get_app k v l1 l2 : k ∉ l1.*1 -> ent_get k (l1 ++ (k, v) :: l2) = Some v.
Proof.
  induction l1 as [|[k' v'] l1 IH]; simpl; intros.
  - by rewrite decide_True.
  - rewrite decide_False by set_solver. apply IH. set_solver.
Qed.

(** In a sorted list a key stands once. *)
Lemma ent_sorted_notin k v l1 l2 :
  ent_sorted (l1 ++ (k, v) :: l2) = true -> (k ∉ l1.*1) /\ k ∉ l2.*1.
Proof.
  rewrite ent_sorted_app, ent_sorted_cons. intros (_ & [H2 _] & H1).
  rewrite Forall_forall in H1, H2.
  split; rewrite list_elem_of_fmap; intros ([k' v'] & -> & Hin); simpl in *.
  - specialize (H1 _ Hin). rewrite Forall_cons in H1. destruct H1 as [H1 _].
    simpl in H1. by rewrite key_ltb_irrefl in H1.
  - specialize (H2 _ Hin). simpl in H2. by rewrite key_ltb_irrefl in H2.
Qed.

Lemma ent_elem_get l k v : ent_sorted l = true -> ((k, v) ∈ l <-> ent_get k l = Some v).
Proof.
  intros Hs. split.
  - intros (l1 & l2 & ->)%list_elem_of_split. by apply ent_get_app, (ent_sorted_notin k v l1 l2).
  - intros (l1 & l2 & -> & _)%ent_get_split. set_solver.
Qed.

(** Insertion of a new key splits the list; of a present key, it replaces. *)
Lemma ent_insert_fresh k v l :
  ent_get k l = None -> exists l1 l2, l = l1 ++ l2 /\ ent_insert k v l = l1 ++ (k, v) :: l2.
Proof.
  induction l as [|[k' v'] l IH]; simpl; intros Hn.
  - by exists [], [].
  - destruct (key_ltb k k') eqn:E1; [by exists [], ((k', v') :: l)|].
    destruct (key_ltb k' k) eqn:E2.
    + case_decide; [done|]. destruct IH as (l1 & l2 & -> & ->); [done|].
      by exists ((k', v') :: l1), l2.
    + rewrite decide_True in Hn by by apply key_ltb_total. done.
Qed.

Lemma ent_insert_present k v v0 l1 l2 :
  ent_sorted (l1 ++ (k, v0) :: l2) = true ->
  ent_insert k v (l1 ++ (k, v0) :: l2) = l1 ++ (k, v) :: l2.
Proof.
  intros Hs. apply ent_sorted_app in Hs as (_ & _ & H1).
  induction l1 as [|[k' v'] l1 IH]; simpl.
  - by rewrite key_ltb_irrefl.
  - apply Forall_cons in H1 as [H1 H1']. apply Forall_cons in H1 as [H1 _]. simpl in H1.
    destruct (key_ltb k k') eqn:E.
    + pose proof (key_ltb_trans _ _ _ E H1) as Hc. by rewrite key_ltb_irrefl in Hc.
    + rewrite H1. by rewrite IH.
Qed.

Lemma ent_insert_sorted k v l : ent_sorted l = true -> ent_sorted (ent_insert k v l) = true.
Proof.
  induction l as [|[k' v'] l IH]; [done|]. intros Hs. simpl.
  destruct (key_ltb k k') eqn:E1.
  - apply ent_sorted_cons. split; [|done]. apply ent_sorted_cons in Hs as [H1 _].
    constructor; [done|]. eapply Forall_impl; [exact H1|]. intros. by eapply key_ltb_trans.
  - apply ent_sorted_cons in Hs as [H1 Hs].
    destruct (key_ltb k' k) eqn:E2.
    + apply ent_sorted_cons. split; [|by apply IH].
      assert (forall p, p ∈ ent_insert k v l -> p = (k, v) \/ p ∈ l) as Hin.
      { clear -H. induction l as [|[k2 v2] l IH]; simpl; [set_solver|].
        destruct (key_ltb k k2); [set_solver|]. destruct (key_ltb k2 k); set_solver. }
      apply Forall_forall. intros p [->|Hp]%Hin; [done|]. rewrite Forall_forall in H1. eauto.
    + apply ent_sorted_cons. split; [|done]. by rewrite (key_ltb_total k k').
Qed.

Lemma ent_remove_split k l :
  (ent_get k l = None /\ ent_remove k l = l) \/
  exists v l1 l2, ent_get k l = Some v /\ l = l1 ++ (k, v) :: l2 /\ (k ∉ l1.*1) /\
    ent_remove k l = l1 ++ l2.
Proof.
  induction l as [|[k' v'] l IH]; simpl; [by left|]. case_decide; simplify_eq.
  - right. exists v', [], l. set_solver.
  - destruct IH as [[? ->]|(v & l1 & l2 & ? & -> & ? & ->)]; [by left|].
    right. exists v, ((k', v') :: l1), l2. set_solver.
Qed.

Lemma ent_remove_sorted k l : ent_sorted l = true -> ent_sorted (ent_remove k l) = true.
Proof.
  destruct (ent_remove_split k l) as [[_ ->]|(v & l1 & l2 & _ & -> & _ & ->)]; [done|].
  rewrite !ent_sorted_app, ent_sorted_cons. intros (? & [? ?] & Hf). split_and!; [done..|].
  eapply Forall_impl; [exact Hf|]. intros p Hp. by apply Forall_cons in Hp as [_ ?].
Qed.

Lemma ent_get_insert k v l : ent_get k (ent_insert k v l) = Some v.
Proof.
  induction l as [|[k' v'] l IH]; simpl; [by rewrite decide_True|].
  destruct (key_ltb k k') eqn:E1; simpl; [by rewrite decide_True|].
  destruct (key_ltb k' k) eqn:E2; simpl; [|by rewrite decide_True].
  rewrite decide_False; [done|]. intros ->. by rewrite key_ltb_irrefl in E2.
Qed.

Lemma ent_get_insert_ne k k0 v l : k0 <> k -> ent_get k0 (ent_insert k v l) = ent_get k0 l.
Proof.
  intros Hne. induction l as [|[k' v'] l IH]; simpl; [by rewrite decide_False|].
  destruct (key_ltb k k') eqn:E1; simpl; [by rewrite decide_False by done|].
  destruct (key_ltb k' k) eqn:E2; simpl; [by rewrite IH|].
  rewrite (key_ltb_total k k') by done. by rewrite !decide_False by (by rewrite <- (key_ltb_total k k')).
Qed.

Lemma ent_get_remove k l : ent_sorted l = true -> ent_get k (ent_remove k l) = None.
Proof.
  intros Hs. destruct (ent_remove_split k l) as [[? ->]|(v & l1 & l2 & _ & -> & _ & ->)]; [done|].
  apply ent_sorted_notin in Hs. apply ent_get_none_notin. rewrite fmap_app. set_solver.
Qed.

Lemma ent_get_remove_ne k k0 l : k0 <> k -> ent_get k0 (ent_remove k l) = ent_get k0 l.
Proof.
  intros Hne. induction l as [|[k' v'] l IH]; simpl; [done|].
  case_decide; simplify_eq; simpl; [by rewrite decide_False|]. by rewrite IH.
Qed.

(** Sorted lists with the same lookups are equal. *)
Lemma ent_ext l l' :
  ent_sorted l = true -> ent_sorted l' = true ->
  (forall k, ent_get k l = ent_get k l') -> l = l'.
Proof.
  revert l'. induction l as [|[k v] l IH]; intros [|[k' v'] l'] Hs Hs' Hext; [done|..].
  - specialize (Hext k'). simpl in Hext. by rewrite decide_True in Hext.
  - specialize (Hext k). simpl in Hext. by rewrite decide_True in Hext.
  - assert (k = k') as ->.
    { apply ent_sorted_cons in Hs as [H1 _], Hs' as [H2 _].
      pose proof (Hext k) as E1. pose proof (Hext k') as E2. simpl in E1, E2.
      rewrite decide_True in E1 by done. rewrite (decide_True (P := k' = k')) in E2 by done.
      destruct (decide (k = k')) as [?|Hne]; [done|].
      rewrite decide_False in E2 by done.
      symmetry in E1. apply ent_get_split in E1 as (? & ? & -> & _).
      apply ent_get_split in E2 as (? & ? & -> & _).
      apply Forall_app in H1 as [_ H1], H2 as [_ H2]. apply Forall_cons in H1 as [H1 _], H2 as [H2 _].
      pose proof (key_ltb_trans _ _ _ H1 H2) as Hc. by rewrite key_ltb_irrefl in Hc. }
    pose proof (Hext k') as E. simpl in E. rewrite !decide_True in E by done. simplify_eq.
    f_equal. pose proof (ent_sorted_notin k' v' [] l Hs) as [_ N1].
    pose proof (ent_sorted_notin k' v' [] l' Hs') as [_ N2].
    apply ent_sorted_cons in Hs as [_ Hs], Hs' as [_ Hs'].
    apply IH; [done..|]. intros k0. specialize (Hext k0). simpl in Hext.
    destruct (decide (k0 = k')) as [->|]; [|done].
    apply ent_get_none_notin in N1, N2. congruence.
Qed.

End entries.

(** ** The map *)

Record BTreeMap (K V : Type) `{OrdKey K} : Type := BT {
  bt_entries : list (K * V);
  bt_sorted : ent_sorted bt_entries = true;
}.
Arguments BT {K V _} _ _.
Arguments bt_entries {K V _} _.
Arguments bt_sorted {K V _} _.

(** Puts a proof that a boolean is true in normal form, so maps compute. *)
Definition canon_true {b : bool} : b = true -> b = true :=
  match b with
  | true => fun _ => eq_refl
  | false => fun H => H
  end.

(** Two splits of a list at the same key are the same split. *)
Lemma fmap_app_NoDup_inj {K V : Type} (k : K) (v v' : V) (l1 l2 l1' l2' : list (K * V)) :
  l1 ++ (k, v) :: l2 = l1' ++ (k, v') :: l2' -> NoDup (l1 ++ (k, v) :: l2).*1 ->
  l1 = l1' /\ l2 = l2'.
Proof.
  revert l1'. induction l1 as [|[x y] l1 IH]; intros [|[x' y'] l1'] E Hnd; simplify_eq/=.
  - done.
  - apply NoDup_cons in Hnd as [Hk _]. exfalso. apply Hk. rewrite fmap_app. set_solver.
  - apply NoDup_cons in Hnd as [Hk _]. exfalso. apply Hk. rewrite fmap_app. set_solver.
  - apply NoDup_cons in Hnd as [_ Hnd]. destruct (IH l1') as [-> ->]; auto.
Qed.

Section btree.
Context {K V : Type} `{OrdKey K}.

Definition bt_empty : BTreeMap K V := BT [] eq_refl.
Definition bt_get (m : BTreeMap K V) (k : K) : option V := ent_get k (bt_entries m).
Definition bt_contains (m : BTreeMap K V) (k : K) : bool :=
  match bt_get m k with Some _ => true | None => false end.
Definition bt_insert (m : BTreeMap K V) (k : K) (v : V) : BTreeMap K V :=
  BT (ent_insert k v (bt_entries m)) (canon_true (ent_insert_sorted k v _ (bt_sorted m))).
Definition bt_remove (m : BTreeMap K V) (k : K) : BTreeMap K V :=
  BT (ent_remove k (bt_entries m)) (canon_true (ent_remove_sorted k _ (bt_sorted m))).

Lemma bt_eq (m m' : BTreeMap K V) : bt_entries m = bt_entries m' -> m = m'.
Proof.
  destruct m as [l p], m' as [l' p']. simpl. intros <-. f_equal. apply (proof_irrel p p').
Qed.

Lemma bt_ext (m m' : BTreeMap K V) : (forall k, bt_get m k = bt_get m' k) -> m = m'.
Proof. intros Hx. apply bt_eq, ent_ext; [apply bt_sorted..|done]. Qed.

Lemma bt_get_empty k : bt_get bt_empty k = None.
Proof. done. Qed.

Lemma bt_get_insert_eq m k v : bt_get (bt_insert m k v) k = Some v.
Proof. apply ent_get_insert. Qed.

Lemma bt_get_insert_ne m k k0 v : k0 <> k -> bt_get (bt_insert m k v) k0 = bt_get m k0.
Proof. apply ent_get_insert_ne. Qed.

Lemma bt_get_remove_eq m k : bt_get (bt_remove m k) k = None.
Proof. apply ent_get_remove, bt_sorted. Qed.

Lemma bt_get_remove_ne m k k0 : k0 <> k -> bt_get (bt_remove m k) k0 = bt_get m k0.
Proof. apply ent_get_remove_ne. Qed.

Lemma bt_elem_get m k v : (k, v) ∈ bt_entries m <-> bt_get m k = Some v.
Proof. apply ent_elem_get, bt_sorted. Qed.

Lemma bt_insert_fresh m k v :
  bt_get m k = None ->
  exists l1 l2, bt_entries m = l1 ++ l2 /\ bt_entries (bt_insert m k v) = l1 ++ (k, v) :: l2.
Proof. apply ent_insert_fresh. Qed.

Lemma bt_insert_present m k v v0 :
  bt_get m k = Some v0 ->
  exists l1 l2, bt_entries m = l1 ++ (k, v0) :: l2 /\
    bt_entries (bt_insert m k v) = l1 ++ (k, v) :: l2.
Proof.
  intros (l1 & l2 & E & _)%ent_get_split. exists l1, l2. split; [done|].
  simpl. pose proof (bt_sorted m) as Hs. rewrite E in Hs |- *. by apply ent_insert_present.
Qed.

Lemma bt_remove_present m k v :
  bt_get m k = Some v ->
  exists l1 l2, bt_entries m = l1 ++ (k, v) :: l2 /\ bt_entries (bt_remove m k) = l1 ++ l2.
Proof.
  unfold bt_get. simpl. intros Hg.
  destruct (ent_remove_split k (bt_entries m)) as [[Hn _]|(v' & l1 & l2 & Hs & E & _ & ->)].
  - by rewrite Hn in Hg.
  - exists l1, l2. split; [congruence|done].
Qed.

Lemma bt_keys_nodup (m : BTreeMap K V) : NoDup (bt_entries m).*1.
Proof.
  pose proof (bt_sorted m) as Hs. induction (bt_entries m) as [|[k v] l IH]; [constructor|].
  rewrite fmap_cons. pose proof (ent_sorted_notin k v [] l Hs) as [_ ?].
  apply ent_sorted_cons in Hs as [_ Hs]. constructor; auto.
Qed.

(** What each entry contributes, gathered in key order. *)
Definition gather {X} (f : K -> V -> list X) (m : BTreeMap K V) : list X :=
  e ← bt_entries m; f e.1 e.2.

Lemma gather_fresh {X} (f : K -> V -> list X) m k v :
  bt_get m k = None -> gather f (bt_insert m k v) ≡ₚ f k v ++ gather f m.
Proof.
  intros (l1 & l2 & E & E')%(bt_insert_fresh m k v). unfold gather. rewrite E, E', !bind_app, bind_cons.
  simpl. by rewrite Permutation_app_swap_app.
Qed.

(** The contribution of one entry, set apart from the others. *)
Lemma gather_present {X} (f : K -> V -> list X) m k v :
  bt_get m k = Some v ->
  exists rest, gather f m ≡ₚ f k v ++ rest /\
    (forall v', gather f (bt_insert m k v') ≡ₚ f k v' ++ rest) /\
    gather f (bt_remove m k) ≡ₚ rest.
Proof.
  intros Hg. pose proof (bt_keys_nodup m) as Hnd.
  destruct (bt_remove_present m k v Hg) as (l1 & l2 & E & Er).
  exists (gather f (bt_remove m k)). unfold gather. rewrite Er, E, !bind_app, bind_cons. cbn [fst snd].
  split_and!; [by rewrite Permutation_app_swap_app| |done]. intros v'.
  destruct (bt_insert_present m k v' v Hg) as (l1' & l2' & E1 & E2). rewrite E2, bind_app, bind_cons.
  simpl. rewrite E in E1, Hnd. apply fmap_app_NoDup_inj in E1 as [<- <-]; [|done].
  by rewrite Permutation_app_swap_app.
Qed.

End btree.

#[global] Instance btree_eq_dec {K V} `{OrdKey K, EqDecision V} : EqDecision (BTreeMap K V).
Proof.
  intros m m'. destruct (decide (bt_entries m = bt_entries m')) as [E|E].
  - left. by apply bt_eq.
  - right. by intros ->.
Defined.

#[export] Hint Rewrite @bt_get_insert_eq @bt_get_remove_eq @bt_get_empty : gwz.
#[export] Hint Rewrite @bt_get_insert_ne @bt_get_remove_ne using done : gwz.
