(* ===== verification/FamilyName.v ===== *)
(** Clone names, owner tokens and ids of the local clone family
    (src/crates/family-model/src/name.rs, owner.rs and the ids of lib.rs).

    A newtype of the source ([MemberName], [OwnerToken], [FamilyId],
    [AllocationId]) is a one-field record, and its checked constructor the
    function that returns it. [member_name_wf] and [owner_token_wf] say that a
    value came out of its constructor, which is what the private field of the
    Rust type guarantees. *)

From S2P Require Export BTreeMap.

(** ** Names *)

Record MemberName : Type := mkMemberName { name_str : str }.

#[global] Instance MemberName_eq_dec : EqDecision MemberName.
Proof. solve_decision. Defined.

(** [derive(PartialOrd, Ord)] on the one field. *)
#[global] Program Instance MemberName_ord : OrdKey MemberName := {|
  key_ltb a b := lex_ltb (name_str a) (name_str b);
|}.
Next Obligation. intros [s]. apply lex_ltb_irrefl. Qed.
Next Obligation. intros [a] [b] [c]. apply lex_ltb_trans. Qed.
Next Obligation. intros [a] [b] H1 H2. simpl in *. f_equal. by apply lex_ltb_total. Qed.

Definition RESERVED_NAMES : list str :=
  [lit "root"; lit "origin"; lit "HEAD"; lit "FETCH_HEAD"].
Definition RESERVED_DIRECTORY_NAMES : list str := [lit "."; lit ".."].

Inductive NameError : Type :=
| NameEmpty
| NameBlank
| NameSurroundingWhitespace
| NameControl (c : N)
| NameSeparator (c : N)
| NameReserved (name : str).

#[global] Instance NameError_eq_dec : EqDecision NameError.
Proof. solve_decision. Defined.

Definition is_separator (c : N) : bool := (c =? c_slash)%N || (c =? c_colon)%N.

Definition is_reserved (name : str) : bool :=
  bool_decide (name ∈ RESERVED_NAMES) || bool_decide (name ∈ RESERVED_DIRECTORY_NAMES).

(** [MemberName::parse]. *)
Definition parse_name (name : str) : result MemberName NameError :=
  if bool_decide (name = []) then Err NameEmpty
  else if forallb is_whitespace name then Err NameBlank
  else if starts_with is_whitespace name || ends_with is_whitespace name
  then Err NameSurroundingWhitespace
  else match find_char is_control name with
  | Some control => Err (NameControl control)
  | None =>
      match find_char is_separator name with
      | Some separator => Err (NameSeparator separator)
      | None =>
          if is_reserved name then Err (NameReserved name)
          else Ok (mkMemberName name)
      end
  end.

Definition member_name_wf (n : MemberName) : Prop := parse_name (name_str n) = Ok n.

(** ** Git remote collisions *)

Record RemoteNameCollision : Type := mkRemoteNameCollision {
  rnc_name : str;
  rnc_member : str;
}.

(** [check_name_free_of_remotes]: the observed [(member, remote)] pairs in
    the order core supplies them. *)
Fixpoint check_name_free_of_remotes (name : MemberName) (observed_remotes : list (str * str))
    : result unit RemoteNameCollision :=
  match observed_remotes with
  | [] => Ok tt
  | (member, remote) :: rest =>
      if bool_decide (remote = name_str name)
      then Err {| rnc_name := name_str name; rnc_member := member |}
      else check_name_free_of_remotes name rest
  end.

(** ** Dispose targets *)

Definition ROOT_NAME : str := lit "root".
Definition ROOT_PATH : str := lit ".".

Inductive DisposeTarget : Type :=
| DisposeRoot
| DisposeMember (name : MemberName)
| DisposeInvalid (error : NameError).

Definition classify_dispose_target (token : str) : DisposeTarget :=
  if bool_decide (token = ROOT_NAME) then DisposeRoot
  else match parse_name token with
  | Ok name => DisposeMember name
  | Err error => DisposeInvalid error
  end.

(** ** Owner tokens *)

Definition MAX_OWNER_TOKEN_BYTES : nat := 128.

Record OwnerToken : Type := mkOwnerToken { owner_str : str }.

#[global] Instance OwnerToken_eq_dec : EqDecision OwnerToken.
Proof. solve_decision. Defined.

Inductive OwnerError : Type :=
| OwnerEmpty
| OwnerTooLong (bytes : nat)
| OwnerCharacter (character : N).

(** [is_admitted]: an ASCII letter or digit, dot, underscore, colon, hyphen. *)
Definition is_admitted (character : N) : bool :=
  is_ascii_alphanumeric character ||
  (character =? 46)%N || (character =? 95)%N || (character =? 58)%N || (character =? 45)%N.

(** [OwnerToken::parse]. *)
Definition parse_owner (value : str) : result OwnerToken OwnerError :=
  if bool_decide (value = []) then Err OwnerEmpty
  else if MAX_OWNER_TOKEN_BYTES <? str_len value then Err (OwnerTooLong (str_len value))
  else match find_char (fun c => negb (is_admitted c)) value with
  | Some character => Err (OwnerCharacter character)
  | None => Ok (mkOwnerToken value)
  end.

Definition owner_token_wf (t : OwnerToken) : Prop := parse_owner (owner_str t) = Ok t.

(** ** Ids *)

Inductive IdError : Type := IdEmpty.

Record FamilyId : Type := mkFamilyId { family_id_str : str }.
Record AllocationId : Type := mkAllocationId { allocation_str : str }.

#[global] Instance FamilyId_eq_dec : EqDecision FamilyId.
Proof. solve_decision. Defined.
#[global] Instance AllocationId_eq_dec : EqDecision AllocationId.
Proof. solve_decision. Defined.

(** [FamilyId::new] and [AllocationId::new]. *)
Definition new_family_id (id : str) : result FamilyId IdError :=
  if bool_decide (trim id = []) then Err IdEmpty else Ok (mkFamilyId id).
Definition new_allocation_id (id : str) : result AllocationId IdError :=
  if bool_decide (trim id = []) then Err IdEmpty else Ok (mkAllocationId id).

(** ** The name policy *)

(** What the source's type comment promises of a name: non-empty, unpadded,
    free of control characters and separators, and not reserved. *)
Record name_policy (s : str) : Prop := {
  np_nonempty : s <> [];
  np_first : forall c s', s = c :: s' -> is_whitespace c = false;
  np_last : forall c s', s = s' ++ [c] -> is_whitespace c = false;
  np_control : forall c, c ∈ s -> is_control c = false;
  np_slash : c_slash ∉ s;
  np_colon : c_colon ∉ s;
  np_reserved : s ∉ RESERVED_NAMES ++ RESERVED_DIRECTORY_NAMES;
}.

Lemma starts_with_false P s :
  starts_with P s = false <-> forall c s', s = c :: s' -> P c = false.
Proof. destruct s; simpl; split; intros; simplify_eq; eauto. Qed.

Lemma ends_with_false P s :
  ends_with P s = false <-> forall c s', s = s' ++ [c] -> P c = false.
Proof.
  unfold ends_with. rewrite starts_with_false. split; intros H c s' E.
  - apply (H c (reverse s')). by rewrite E, reverse_snoc.
  - apply (H c (reverse s')). by rewrite <- (reverse_involutive s), E, reverse_cons.
Qed.

Lemma not_all_whitespace s :
  s <> [] -> starts_with is_whitespace s = false -> forallb is_whitespace s = false.
Proof. destruct s; simpl; [done|]. by intros _ ->. Qed.

Lemma is_separator_false s :
  Forall (fun x => is_separator x = false) s <-> (c_slash ∉ s) /\ (c_colon ∉ s).
Proof.
  unfold is_separator. rewrite Forall_forall. setoid_rewrite orb_false_iff.
  setoid_rewrite N.eqb_neq. split.
  - intros H. split; intros Hin; by apply H in Hin as [??].
  - intros [? ?] x Hx. split; by intros ->.
Qed.

Lemma is_reserved_false s :
  is_reserved s = false <-> s ∉ RESERVED_NAMES ++ RESERVED_DIRECTORY_NAMES.
Proof.
  unfold is_reserved. rewrite orb_false_iff, !bool_decide_eq_false, elem_of_app. tauto.
Qed.

Lemma parse_name_policy s n : parse_name s = Ok n <-> n = mkMemberName s /\ name_policy s.
Proof.
  unfold parse_name. split.
  - intros H. case_bool_decide as E1; [done|].
    destruct (forallb is_whitespace s) eqn:E2; [done|].
    destruct (starts_with _ s || _) eqn:E3; [done|]. apply orb_false_iff in E3 as [E3 E4].
    destruct (find_char is_control s) eqn:E5; [done|].
    destruct (find_char is_separator s) eqn:E6; [done|].
    destruct (is_reserved s) eqn:E7; [done|].
    apply find_char_none in E5, E6. apply is_separator_false in E6 as [??].
    rewrite Forall_forall in E5. split; [congruence|].
    constructor; [done|by apply starts_with_false|by apply ends_with_false|done..|].
    by apply is_reserved_false.
  - intros [-> [H1 H2 H3 H4 H5 H6 H7]].
    apply starts_with_false in H2. apply ends_with_false in H3.
    rewrite bool_decide_false, not_all_whitespace, H2, H3 by done. simpl.
    destruct (find_char is_control s) eqn:E5.
    { apply find_char_some in E5 as [? E5]. by rewrite H4 in E5. }
    rewrite (proj2 (find_char_none is_separator s)) by by apply is_separator_false.
    by apply is_reserved_false in H7 as ->.
Qed.

(** A reserved word is not a member name, the root's name among them. *)
Lemma member_name_not_root n : member_name_wf n -> name_str n <> ROOT_NAME.
Proof.
  intros [_ [_ _ _ _ _ _ H]]%parse_name_policy E. apply H. rewrite E.
  repeat constructor.
Qed.

Lemma check_name_free_of_remotes_spec name l :
  match check_name_free_of_remotes name l with
  | Ok _ => forall m r, (m, r) ∈ l -> r <> name_str name
  | Err e => rnc_name e = name_str name /\ (rnc_member e, name_str name) ∈ l
  end.
Proof.
  induction l as [|[m r] l IH]; simpl; [set_solver|]. case_bool_decide; simpl.
  - set_solver.
  - destruct (check_name_free_of_remotes name l); set_solver.
Qed.

(** ** Owner tokens: shape *)

Lemma is_admitted_ascii c : is_admitted c = true -> (c < 128)%N.
Proof.
  unfold is_admitted, is_ascii_alphanumeric, is_ascii_alphabetic, is_ascii_digit.
  rewrite !orb_true_iff, !andb_true_iff, !N.leb_le, !N.eqb_eq. lia.
Qed.

Lemma admitted_printable c :
  is_admitted c = true -> is_control c = false /\ is_whitespace c = false.
Proof.
  unfold is_admitted, is_ascii_alphanumeric, is_ascii_alphabetic, is_ascii_digit,
    is_control, is_whitespace.
  rewrite !orb_true_iff, !orb_false_iff, !andb_true_iff, !andb_false_iff, !N.leb_le, !N.leb_gt,
    !N.eqb_eq, !N.eqb_neq. lia.
Qed.

Lemma parse_owner_shape s t :
  parse_owner s = Ok t <->
  t = mkOwnerToken s /\ s <> [] /\ length s <= MAX_OWNER_TOKEN_BYTES /\
  forall c, c ∈ s -> is_admitted c = true.
Proof.
  unfold parse_owner. case_bool_decide as E; [naive_solver|].
  destruct (find_char _ s) as [c|] eqn:Hf.
  - apply find_char_some in Hf as (Hc & Hin). split.
    + by case_match.
    + intros (_ & _ & _ & Hall). apply negb_true_iff in Hin. by rewrite Hall in Hin.
  - assert (Hall : forall c, c ∈ s -> is_admitted c = true).
    { rewrite find_char_none, Forall_forall in Hf. intros c Hc%Hf. by apply negb_false_iff. }
    rewrite (str_len_ascii s) by (intros; by apply is_admitted_ascii, Hall).
    destruct (Nat.ltb_spec MAX_OWNER_TOKEN_BYTES (length s)); split;
      [done|intros (_ & _ & ? & _); lia|intros [= <-]; done|by intros (-> & _)].
Qed.

(** ** Main theorems *)

(** The name policy is exact. A spelling becomes a member name iff it is
    non-empty, has no whitespace at either end, holds no control character,
    no slash and no colon, and is not a reserved name; the name keeps its
    spelling, and so never reads as the root. *)
Theorem member_name_policy (s : str) (n : MemberName) :
  parse_name s = Ok n <-> n = mkMemberName s /\ name_policy s /\ s <> ROOT_NAME.
Proof.
  rewrite parse_name_policy. split; [|naive_solver]. intros [-> Hp]. split_and!; [done..|].
  change s with (name_str (mkMemberName s)). by apply member_name_not_root, parse_name_policy.
Qed.

(** The shape of an owner token is exact. A value is admitted iff it has
    1 to 128 characters, all of them in the admitted alphabet; so its bytes
    are its characters, and it holds no control or whitespace character that
    could forge a line of a listing. *)
Theorem owner_token_shape (s : str) (t : OwnerToken) :
  parse_owner s = Ok t <->
  t = mkOwnerToken s /\ 0 < length s <= MAX_OWNER_TOKEN_BYTES /\ utf8 s = s /\
  forall c, c ∈ s -> is_admitted c = true /\ is_control c = false /\ is_whitespace c = false.
Proof.
  rewrite parse_owner_shape. split.
  - intros (-> & Hne & Hlen & Hall). split_and!; [done|by destruct s; simpl; [|lia]|done| |].
    + apply utf8_ascii. intros c Hc. by apply is_admitted_ascii, Hall.
    + intros c Hc. pose proof (Hall c Hc) as Ha. split; [done|]. by apply admitted_printable.
  - intros (-> & Hlen & _ & Hall). split_and!; [done|by intros ->; simpl in *; lia|lia|].
    intros c Hc. by apply Hall.
Qed.
