(* ===== verification/FamilyPath.v ===== *)
(** Root-relative member paths (src/crates/family-model/src/path.rs).

    [normalize] is the source's loop over the components with its vector and
    its count of leading parent steps. [locate] gives the paths a meaning the
    source never computes: the directory a list of components reaches from a
    root directory, a directory being the list of names from it up to the
    file system's root. The theorems say that normalising keeps that meaning,
    that a path validates exactly when it is spelled the one way the index
    records it, and what [relate] says of the two directories. *)

From S2P Require Export FamilyName.

(** ** Data *)

Record MemberPath : Type := mkMemberPath { path_str : str }.

#[global] Instance MemberPath_eq_dec : EqDecision MemberPath.
Proof. solve_decision. Defined.

(** [MemberPath::components]. *)
Definition components (m : MemberPath) : list str := split_on c_slash (path_str m).

Inductive PathError : Type :=
| PathEmpty
| PathAbsolute (path : str)
| PathControlCharacter (path : str)
| PathRootItself (path : str)
| PathInsideRoot (path normalised : str)
| PathContainsRoot (path normalised : str)
| PathNotNormalised (path normalised : str).

#[global] Instance PathError_eq_dec : EqDecision PathError.
Proof. solve_decision. Defined.

(** [PathError::normalised]. *)
Definition error_normalised (e : PathError) : option str :=
  match e with
  | PathInsideRoot _ normalised
  | PathContainsRoot _ normalised
  | PathNotNormalised _ normalised => Some normalised
  | PathEmpty | PathAbsolute _ | PathControlCharacter _ | PathRootItself _ => None
  end.

(** A path quoted in backticks, as the messages do. *)
Definition quoted (s : str) : str := lit "`" ++ s ++ lit "`".

(** [Display for PathError]. *)
Definition path_error_text (e : PathError) : str :=
  match e with
  | PathEmpty => lit "a member path must not be empty"
  | PathAbsolute path =>
      lit "member path " ++ quoted path ++ lit " must be root-relative, not absolute"
  | PathControlCharacter path =>
      lit "member path " ++ quoted path ++ lit " contains a control character"
  | PathRootItself path => lit "member path " ++ quoted path ++ lit " is the root itself"
  | PathInsideRoot path normalised =>
      lit "member path " ++ quoted path ++ lit " (" ++ quoted normalised ++
      lit ") is inside the root"
  | PathContainsRoot path normalised =>
      lit "member path " ++ quoted path ++ lit " (" ++ quoted normalised ++
      lit ") contains the root"
  | PathNotNormalised path normalised =>
      lit "member path " ++ quoted path ++ lit " is not normalised (" ++ quoted normalised ++
      lit ")"
  end.

Inductive PathRelation : Type := Same | Inside | Contains | Disjoint.

#[global] Instance PathRelation_eq_dec : EqDecision PathRelation.
Proof. solve_decision. Defined.

(** [PathRelation::overlaps]. *)
Definition overlaps (r : PathRelation) : bool :=
  match r with
  | Disjoint => false
  | _ => true
  end.

(** ** Operations *)

(** The loop of [relate] over the two component iterators. *)
Fixpoint relate_components (left right : list str) : PathRelation :=
  match left, right with
  | [], [] => Same
  | _ :: _, [] => Inside
  | [], _ :: _ => Contains
  | one :: left', other :: right' =>
      if bool_decide (one = other) then relate_components left' right' else Disjoint
  end.

Definition relate (a b : MemberPath) : PathRelation :=
  relate_components (components a) (components b).

(** [has_drive_prefix]. *)
Definition has_drive_prefix (path : str) : bool :=
  match path with
  | first :: second :: _ => is_ascii_alphabetic first && (second =? c_colon)%N
  | _ => false
  end.

Definition dot : str := lit ".".
Definition dotdot : str := lit "..".

(** One turn of [normalize]'s loop: the component vector and [leading_up]. *)
Definition normalize_step (st : list str * nat) (component : str) : list str * nat :=
  let '(comps, leading_up) := st in
  if bool_decide (component = []) || bool_decide (component = dot) then (comps, leading_up)
  else if bool_decide (component = dotdot) then
    if leading_up <? length comps then (removelast comps, leading_up)
    else (comps ++ [dotdot], S leading_up)
  else (comps ++ [component], leading_up).

Definition unify (path : str) : str := replace_char c_backslash c_slash path.

Definition normalize (path : str) : result MemberPath PathError :=
  if bool_decide (path = []) then Err PathEmpty
  else if existsb is_control path then Err (PathControlCharacter path)
  else
    let unified := unify path in
    if starts_with (N.eqb c_slash) unified || has_drive_prefix unified
    then Err (PathAbsolute path)
    else
      let '(comps, leading_up) := foldl normalize_step ([], 0) (split_on c_slash unified) in
      if bool_decide (comps = []) then Err (PathRootItself path)
      else
        let normalised := join_with c_slash comps in
        if leading_up =? 0 then Err (PathInsideRoot path normalised)
        else if length comps =? leading_up then Err (PathContainsRoot path normalised)
        else Ok (mkMemberPath normalised).

Definition validate_path (path : str) : result MemberPath PathError :=
  let? member := normalize path in
  if bool_decide (path_str member = path) then Ok member
  else Err (PathNotNormalised path (path_str member)).

(** ** The meaning of a path *)

(** One lexical step from a directory, given as its names up to the file
    system's root; the parent of the file system's root is itself. *)
Definition enter (dir : list str) (component : str) : list str :=
  if bool_decide (component = []) || bool_decide (component = dot) then dir
  else if bool_decide (component = dotdot) then tail dir
  else component :: dir.

Definition locate (root : list str) (comps : list str) : list str := foldl enter root comps.

(** An ordinary directory name. *)
Record ordinary (c : str) : Prop := {
  ord_nonempty : c <> [];
  ord_dot : c <> dot;
  ord_dotdot : c <> dotdot;
  ord_slash : c_slash ∉ c;
  ord_backslash : c_backslash ∉ c;
  ord_control : existsb is_control c = false;
}.

(** The recorded shape: [k] parent steps, at least one, then ordinary names,
    at least one. *)
Definition member_shape (s : str) (k : nat) (ords : list str) : Prop :=
  0 < k /\ ords <> [] /\ Forall ordinary ords /\
  s = join_with c_slash (replicate k dotdot ++ ords).

Definition member_path_wf (m : MemberPath) : Prop :=
  exists k ords, member_shape (path_str m) k ords.

(** ** Lemmas: the loop *)

Lemma dotdot_clean : (c_slash ∉ dotdot) /\ (c_backslash ∉ dotdot).
Proof. split; by apply (bool_decide_unpack _). Qed.

Lemma ordinary_enter c dir : ordinary c -> enter dir c = c :: dir.
Proof.
  intros []. unfold enter. by rewrite !bool_decide_false.
Qed.

Lemma enter_dotdot dir : enter dir dotdot = tail dir.
Proof. done. Qed.

Lemma locate_app root l1 l2 : locate root (l1 ++ l2) = locate (locate root l1) l2.
Proof. apply foldl_app. Qed.

Lemma locate_ordinary root ords : Forall ordinary ords -> locate root ords = reverse ords ++ root.
Proof.
  intros H. revert root. induction H as [|c ords Hc _ IH]; intros root; [done|].
  simpl. rewrite ordinary_enter, IH by done. by rewrite reverse_cons, <- app_assoc.
Qed.

Lemma locate_climb root k : locate root (replicate k dotdot) = drop k root.
Proof.
  revert root. induction k as [|k IH]; intros root; [done|].
  simpl. rewrite enter_dotdot, IH. destruct root; [by destruct k|done].
Qed.

Lemma locate_shape root k ords :
  Forall ordinary ords -> locate root (replicate k dotdot ++ ords) = reverse ords ++ drop k root.
Proof. intros. by rewrite locate_app, locate_climb, locate_ordinary. Qed.

(** The loop's invariant: parent steps, then ordinary names, with the
    meaning of what has been read. *)
Definition norm_inv (seen : list str) (st : list str * nat) : Prop :=
  exists ords, st.1 = replicate st.2 dotdot ++ ords /\ Forall ordinary ords /\
    forall root, locate root seen = locate root st.1.

Lemma normalize_step_inv seen st c :
  norm_inv seen st -> (c_slash ∉ c) -> (c_backslash ∉ c) -> existsb is_control c = false ->
  norm_inv (seen ++ [c]) (normalize_step st c).
Proof.
  destruct st as [comps k]. intros (ords & E & Hords & Hm) H1 H2 H3. simpl in E, Hm.
  assert (forall root, locate root (seen ++ [c]) = enter (locate root comps) c) as Hm'.
  { intros root. by rewrite locate_app, Hm. }
  unfold normalize_step. unfold enter in Hm'.
  destruct (bool_decide (c = []) || bool_decide (c = dot)) eqn:Ed.
  { by exists ords. }
  case_bool_decide as Edd.
  - subst c. destruct (Nat.ltb_spec k (length comps)) as [Hlt|Hge].
    + destruct (snoc_inv ords) as [->|(ords' & x & ->)].
      { subst comps. rewrite app_nil_r, length_replicate in Hlt. lia. }
      apply Forall_app in Hords as [Ho Hx]. apply Forall_cons in Hx as [Hx _].
      exists ords'. simpl. subst comps. rewrite app_assoc, removelast_snoc.
      split_and!; [done..|]. intros root. rewrite Hm', app_assoc, locate_app. simpl.
      by rewrite ordinary_enter.
    + exists []. simpl. assert (ords = []) as ->.
      { subst comps. rewrite length_app, length_replicate in Hge. by apply nil_length_inv; lia. }
      rewrite app_nil_r in *. subst comps. split_and!; [|constructor|].
      * by rewrite <- (replicate_cons_app k dotdot).
      * intros root. by rewrite Hm', locate_app.
  - apply orb_false_iff in Ed as [Ed1%bool_decide_eq_false Ed2%bool_decide_eq_false].
    exists (ords ++ [c]). simpl. subst comps. rewrite app_assoc.
    split_and!; [done| |].
    + apply Forall_app. split; [done|]. repeat constructor; done.
    + intros root. rewrite Hm', (locate_app _ _ [c]). simpl. symmetry. by apply ordinary_enter.
Qed.

Lemma normalize_loop_inv seen st parts :
  norm_inv seen st ->
  Forall (fun c => (c_slash ∉ c) /\ (c_backslash ∉ c) /\ existsb is_control c = false) parts ->
  norm_inv (seen ++ parts) (foldl normalize_step st parts).
Proof.
  intros Hi Hp. revert seen st Hi. induction Hp as [|c parts (H1 & H2 & H3) _ IH]; intros seen st Hi.
  - by rewrite app_nil_r.
  - simpl. rewrite cons_middle, app_assoc. apply IH. by apply normalize_step_inv.
Qed.

(** The parts of a control-free path with its separators unified. *)
Lemma existsb_control_unify p : existsb is_control p = false -> existsb is_control (unify p) = false.
Proof.
  unfold unify, replace_char. induction p as [|x p IH]; [done|].
  rewrite fmap_cons. simpl. intros [H1 H2]%orb_false_iff.
  rewrite IH by done. destruct (x =? c_backslash)%N; [done|]. by rewrite H1.
Qed.

Lemma existsb_false_elem {A} (P : A -> bool) l :
  existsb P l = false <-> forall x, x ∈ l -> P x = false.
Proof.
  induction l as [|y l IH]; simpl.
  - split; [|done]. by intros _ x ?%elem_of_nil.
  - rewrite orb_false_iff, IH. setoid_rewrite elem_of_cons. split.
    + intros [??] x [->|?]; auto.
    + auto.
Qed.

Lemma split_elem c s p x : p ∈ split_on c s -> x ∈ p -> x ∈ s.
Proof.
  revert p. induction s as [|y s IH]; intros p; simpl.
  - rewrite list_elem_of_singleton. by intros ->.
  - destruct (split_on_cons_eq c s) as (q & qs & E). rewrite E in *.
    setoid_rewrite elem_of_cons in IH. rewrite elem_of_cons.
    destruct (y =? c)%N; rewrite !elem_of_cons; intros [->|Hp].
    + by intros ?%elem_of_nil.
    + right. eauto.
    + rewrite elem_of_cons. intros [->|?]; eauto.
    + right. eauto.
Qed.

Lemma unified_parts p :
  existsb is_control p = false ->
  Forall (fun c => (c_slash ∉ c) /\ (c_backslash ∉ c) /\ existsb is_control c = false)
    (split_on c_slash (unify p)).
Proof.
  intros Hc. apply Forall_forall. intros part Hpart. split_and!.
  - pose proof (split_on_parts c_slash (unify p)) as Hs. rewrite Forall_forall in Hs. by apply Hs.
  - intros Hin. eapply split_elem in Hin; [|done]. revert Hin. by apply replace_char_not_in.
  - apply existsb_false_elem. intros x Hx. apply existsb_control_unify in Hc.
    rewrite existsb_false_elem in Hc. apply Hc. by eapply split_elem.
Qed.

Lemma shape_parts_clean k ords :
  Forall ordinary ords -> Forall (fun p => c_slash ∉ p) (replicate k dotdot ++ ords).
Proof.
  intros H. apply Forall_app. split.
  - apply Forall_replicate. apply dotdot_clean.
  - eapply Forall_impl; [exact H|]. by intros ? [].
Qed.

Lemma shape_components m k ords :
  member_shape (path_str m) k ords -> components m = replicate k dotdot ++ ords.
Proof.
  intros (_ & Hne & Hords & E). unfold components. rewrite E. apply split_join.
  - intros [_ ?]%app_nil. done.
  - by apply shape_parts_clean.
Qed.

Lemma loop_result p comps k :
  existsb is_control p = false ->
  foldl normalize_step ([], 0) (split_on c_slash (unify p)) = (comps, k) ->
  exists ords, comps = replicate k dotdot ++ ords /\ Forall ordinary ords /\
    forall root, locate root (split_on c_slash (unify p)) = reverse ords ++ drop k root.
Proof.
  intros Hc E.
  assert (norm_inv [] ([], 0)) as H0 by (exists []; naive_solver).
  pose proof (normalize_loop_inv [] _ _ H0 (unified_parts p Hc)) as (ords & E1 & Ho & Hm).
  rewrite app_nil_l, E in *. simpl in *. exists ords. split_and!; [done..|].
  intros root. rewrite Hm, E1. by apply locate_shape.
Qed.

(** What [normalize] answers, for every input (the case analysis of the
    source's doc comment and of [PathError]). *)
Definition normalize_verdict (p : str) (r : result MemberPath PathError) : Prop :=
  let parts := split_on c_slash (unify p) in
  match r with
  | Ok m => exists k ords, member_shape (path_str m) k ords /\
      forall root, locate root parts = locate root (components m)
  | Err PathEmpty => p = []
  | Err (PathControlCharacter q) => q = p /\ exists c, c ∈ p /\ is_control c = true
  | Err (PathAbsolute q) => q = p /\
      (starts_with (N.eqb c_slash) (unify p) || has_drive_prefix (unify p)) = true
  | Err (PathRootItself q) => q = p /\ forall root, locate root parts = root
  | Err (PathInsideRoot q n) => q = p /\ exists ords, ords <> [] /\ Forall ordinary ords /\
      n = join_with c_slash ords /\ forall root, locate root parts = reverse ords ++ root
  | Err (PathContainsRoot q n) => q = p /\ exists k, 0 < k /\
      n = join_with c_slash (replicate k dotdot) /\ forall root, locate root parts = drop k root
  | Err (PathNotNormalised _ _) => False
  end.

Lemma normalize_verdict_holds p : normalize_verdict p (normalize p).
Proof.
  unfold normalize. case_bool_decide as E0; [done|].
  destruct (existsb is_control p) eqn:Ec.
  { split; [done|]. apply existsb_exists in Ec as (c & Hin & ?).
    exists c. by rewrite list_elem_of_In. }
  destruct (starts_with _ _ || _) eqn:Ea; [done|].
  destruct (foldl _ _ _) as [comps k] eqn:El.
  destruct (loop_result _ _ _ Ec El) as (ords & -> & Ho & Hm).
  case_bool_decide as En.
  { apply app_nil in En as [En ->]. destruct k; [|done]. split; [done|].
    intros root. by rewrite Hm. }
  destruct (Nat.eqb_spec k 0) as [->|Hk].
  { split; [done|]. exists ords. split_and!; [done..|]. intros root. by rewrite Hm, drop_0. }
  destruct (Nat.eqb_spec (length (replicate k dotdot ++ ords)) k) as [Hl|Hl];
    rewrite length_app, length_replicate in Hl.
  { assert (ords = []) as -> by (apply nil_length_inv; lia). split; [done|].
    exists k. rewrite app_nil_r. split_and!; [lia|done|]. intros root. by rewrite Hm. }
  assert (member_shape (join_with c_slash (replicate k dotdot ++ ords)) k ords) as Hs.
  { split_and!; [lia| |done..]. intros ->. simpl in Hl. lia. }
  exists k, ords. split; [done|]. intros root.
  by rewrite Hm, (shape_components (mkMemberPath _) k ords Hs), locate_shape.
Qed.

(** ** Lemmas: validation *)

Lemma shape_first k ords :
  0 < k -> exists s, join_with c_slash (replicate k dotdot ++ ords) = c_dot :: c_dot :: s.
Proof.
  intros Hk. destruct k as [|k]; [lia|]. simpl.
  destruct (replicate k dotdot ++ ords); simpl; eauto.
Qed.

Lemma shape_chars s k ords :
  member_shape s k ords -> existsb is_control s = false /\ unify s = s.
Proof.
  intros (Hk & Hne & Hords & ->). rewrite Forall_forall in Hords.
  assert (forall x, x ∈ join_with c_slash (replicate k dotdot ++ ords) ->
    is_control x = false /\ x <> c_backslash) as H.
  { intros x [->|(p & Hp & Hx)]%elem_of_join; [done|].
    apply elem_of_app in Hp as [[-> _]%elem_of_replicate|Hp].
    - change dotdot with [c_dot; c_dot] in Hx. rewrite !elem_of_cons, elem_of_nil in Hx.
      by destruct Hx as [->|[->|[]]].
    - destruct (Hords _ Hp) as [_ _ _ _ Hb Hctl]. split.
      + rewrite existsb_false_elem in Hctl. by apply Hctl.
      + by intros ->. }
  split.
  - apply existsb_false_elem. intros x Hx. by apply H.
  - apply replace_char_id. intros Hin. by apply H in Hin as [_ ?].
Qed.

Lemma loop_ordinary comps k ords :
  Forall ordinary ords -> foldl normalize_step (comps, k) ords = (comps ++ ords, k).
Proof.
  intros H. revert comps. induction H as [|c ords [] _ IH]; intros comps; cbn [foldl].
  - by rewrite app_nil_r.
  - assert (normalize_step (comps, k) c = (comps ++ [c], k)) as ->.
    { unfold normalize_step. by rewrite !bool_decide_false by done. }
    by rewrite IH, <- app_assoc.
Qed.

Lemma loop_climb j k :
  foldl normalize_step (replicate j dotdot, j) (replicate k dotdot) =
  (replicate (j + k) dotdot, j + k).
Proof.
  revert j. induction k as [|k IH]; intros j; cbn [foldl replicate]; [by rewrite Nat.add_0_r|].
  assert (normalize_step (replicate j dotdot, j) dotdot = (replicate (S j) dotdot, S j)) as ->.
  { unfold normalize_step. rewrite length_replicate, Nat.ltb_irrefl. simpl.
    by rewrite <- (replicate_cons_app j dotdot). }
  rewrite IH. by rewrite Nat.add_succ_comm.
Qed.

(** A path of the recorded shape normalises to itself. *)
Lemma normalize_shape s k ords : member_shape s k ords -> normalize s = Ok (mkMemberPath s).
Proof.
  intros Hs. pose proof (shape_chars _ _ _ Hs) as [Hc Hu].
  pose proof (shape_components (mkMemberPath s) k ords Hs) as Hcomp.
  destruct Hs as (Hk & Hne & Hords & E). destruct (shape_first k ords Hk) as [s' E'].
  unfold normalize. rewrite bool_decide_false by (rewrite E, E'; done).
  rewrite Hc, Hu. cbv zeta.
  assert (starts_with (N.eqb c_slash) s || has_drive_prefix s = false) as -> by by rewrite E, E'.
  unfold components in Hcomp. simpl in Hcomp.
  rewrite Hcomp, foldl_app. pose proof (loop_climb 0 k) as Hl. simpl in Hl. rewrite Hl.
  rewrite loop_ordinary by done.
  rewrite bool_decide_false by by (intros [_ ?]%app_nil).
  destruct (Nat.eqb_spec k 0); [lia|].
  destruct (Nat.eqb_spec (length (replicate k dotdot ++ ords)) k) as [Hlen|_].
  { rewrite length_app, length_replicate in Hlen. destruct ords; [done|simpl in Hlen; lia]. }
  by rewrite <- E.
Qed.

Lemma validate_path_shape p m :
  validate_path p = Ok m <-> m = mkMemberPath p /\ exists k ords, member_shape p k ords.
Proof.
  unfold validate_path. rewrite rbind_ok. split.
  - intros (m' & Hn & H). case_bool_decide as E; [|done]. simplify_eq.
    pose proof (normalize_verdict_holds (path_str m)) as Hv. rewrite Hn in Hv.
    destruct Hv as (k & ords & Hs & _). destruct m; eauto.
  - intros (-> & k & ords & Hs). eexists. split; [by eapply normalize_shape|].
    by rewrite bool_decide_true.
Qed.

Lemma validate_path_wf p m : validate_path p = Ok m -> path_str m = p /\ member_path_wf m.
Proof. by intros [-> ?]%validate_path_shape. Qed.

(** ** Lemmas: relations *)

Lemma relate_components_flip a b :
  relate_components b a =
  match relate_components a b with
  | Same => Same | Inside => Contains | Contains => Inside | Disjoint => Disjoint
  end.
Proof.
  revert b. induction a as [|x a IH]; intros [|y b]; simpl; try done.
  repeat case_bool_decide; subst; done.
Qed.

Lemma relate_components_spec a b :
  match relate_components a b with
  | Same => a = b
  | Inside => exists rest, rest <> [] /\ a = b ++ rest
  | Contains => exists rest, rest <> [] /\ b = a ++ rest
  | Disjoint => ~ a `prefix_of` b /\ ~ b `prefix_of` a
  end.
Proof.
  revert b. induction a as [|x a IH]; intros [|y b]; simpl;
    [done|by exists (y :: b)|by exists (x :: a)|].
  case_bool_decide as E.
  - subst y. specialize (IH b). destruct (relate_components a b).
    + congruence.
    + destruct IH as (rest & ? & ->). by exists rest.
    + destruct IH as (rest & ? & ->). by exists rest.
    + destruct IH as [H1 H2]. split; intros H; [apply H1|apply H2]; by eapply prefix_cons_inv_2.
  - split; intros H; apply E; [|symmetry]; by eapply prefix_cons_inv_1.
Qed.

Lemma join_components m : join_with c_slash (components m) = path_str m.
Proof. apply join_split. Qed.


(** The parent steps a component list starts with. *)
Fixpoint parent_steps (comps : list str) : nat :=
  match comps with
  | c :: rest => if bool_decide (c = dotdot) then S (parent_steps rest) else 0
  | [] => 0
  end.

Lemma parent_steps_shape k o l : o <> dotdot -> parent_steps (replicate k dotdot ++ o :: l) = k.
Proof.
  intros Ho. induction k as [|k IH]; simpl.
  - by rewrite bool_decide_false.
  - by rewrite IH.
Qed.

Lemma member_path_split m :
  member_path_wf m ->
  exists ords, components m = replicate (parent_steps (components m)) dotdot ++ ords /\
    ords <> [] /\ Forall ordinary ords /\
    forall root, locate root (components m) = reverse ords ++ drop (parent_steps (components m)) root.
Proof.
  intros (k & ords & Hs). rewrite (shape_components m k ords Hs).
  destruct Hs as (_ & Hne & Hords & _). exists ords.
  assert (parent_steps (replicate k dotdot ++ ords) = k) as ->.
  { destruct ords as [|o ords]; [done|]. apply parent_steps_shape.
    by apply Forall_cons in Hords as [[] _]. }
  split_and!; [done..|]. intros root. by apply locate_shape.
Qed.

Lemma inside_locations a b rest :
  member_path_wf a -> member_path_wf b -> components a = components b ++ rest ->
  forall root, locate root (components a) = reverse rest ++ locate root (components b).
Proof.
  intros (ka & oa & Ha) (kb & ob & Hb) E root.
  rewrite E, locate_app. apply locate_ordinary.
  rewrite (shape_components a ka oa Ha), (shape_components b kb ob Hb), <- app_assoc in E.
  destruct Ha as (_ & Hane & Hoa & _), Hb as (_ & Hbne & Hob & _).
  destruct oa as [|x oa]; [done|]. destruct ob as [|y ob]; [done|].
  rewrite <- app_comm_cons in E.
  apply Forall_cons in Hoa as [Hx Hoa]. apply Forall_cons in Hob as [Hy Hob].
  pose proof (f_equal parent_steps E) as Ek.
  rewrite !parent_steps_shape in Ek by (apply (ord_dotdot _ Hx) || apply (ord_dotdot _ Hy)).
  subst kb. apply app_inv_head in E. simplify_eq/=.
  by apply Forall_app in Hoa as [_ ?].
Qed.

Lemma disjoint_locations a b root :
  member_path_wf a -> member_path_wf b ->
  ~ components a `prefix_of` components b /\ ~ components b `prefix_of` components a ->
  parent_steps (components a) = parent_steps (components b) ->
  ~ locate root (components a) `suffix_of` locate root (components b) /\
  ~ locate root (components b) `suffix_of` locate root (components a).
Proof.
  intros Ha Hb [H1 H2] Ek.
  destruct (member_path_split a Ha) as (oa & Ea & _ & _ & La).
  destruct (member_path_split b Hb) as (ob & Eb & _ & _ & Lb).
  rewrite La, Lb, Ek. rewrite Ea, Eb, Ek in H1, H2.
  split; intros [z E]; rewrite app_assoc in E; apply app_inv_tail in E;
    apply (f_equal reverse) in E; rewrite reverse_app, !reverse_involutive in E;
    [apply H1|apply H2]; rewrite E; apply prefix_app, prefix_app_r; reflexivity.
Qed.

(** ** Properties *)

(** [normalize] classifies every input by the directory it means. An
    accepted path is spelled as parent steps then ordinary names, at least one
    of each, and reaches from every root the directory the input reaches; each
    refusal says exactly why: empty, a control character, absolute, the root
    itself, inside the root, or an ancestor of it. *)
Theorem normalize_classifies (p : str) : normalize_verdict p (normalize p).
Proof. apply normalize_verdict_holds. Qed.

(** The recorded spelling is canonical: the normal form of any accepted
    spelling is accepted by [normalize] and [validate] unchanged, and it is the
    only spelling that validates to that member path. *)
Theorem recorded_form_canonical (p : str) (m : MemberPath) (H : normalize p = Ok m) :
  normalize (path_str m) = Ok m /\
  (forall q, validate_path q = Ok m <-> q = path_str m).
Proof.
  pose proof (normalize_verdict_holds p) as Hv. rewrite H in Hv.
  destruct Hv as (k & ords & Hs & _). destruct m as [s]. split.
  - by eapply normalize_shape.
  - intros q. rewrite validate_path_shape. split; [naive_solver|].
    intros ->. split; [done|]. by exists k, ords.
Qed.

Lemma recorded_form_canonical_witness :
  normalize (lit "..\x/../ws-A/.//") = Ok (mkMemberPath (lit "../ws-A")) /\
  validate_path (lit "../ws-A") = Ok (mkMemberPath (lit "../ws-A")).
Proof.
  assert (H : normalize (lit "..\x/../ws-A/.//") = Ok (mkMemberPath (lit "../ws-A")))
    by (vm_compute; reflexivity).
  split; [exact H|]. apply (proj2 (recorded_form_canonical _ _ H) (lit "../ws-A")). reflexivity.
Defined.

(** What [relate] says of two member paths is true of the directories they
    reach, from every root: the same directory, a proper descendant, a proper
    ancestor; and disjoint paths with equally many parent steps reach
    directories of which neither is, or is inside, the other. *)
Theorem relate_locations (a b : MemberPath) (Ha : member_path_wf a) (Hb : member_path_wf b) :
  let at_ m root := locate root (components m) in
  match relate a b with
  | Same => a = b
  | Inside => exists sub, sub <> [] /\ forall root, at_ a root = sub ++ at_ b root
  | Contains => exists sub, sub <> [] /\ forall root, at_ b root = sub ++ at_ a root
  | Disjoint => parent_steps (components a) = parent_steps (components b) ->
      forall root, ~ at_ a root `suffix_of` at_ b root /\ ~ at_ b root `suffix_of` at_ a root
  end.
Proof.
  cbv zeta. unfold relate. pose proof (relate_components_spec (components a) (components b)) as H.
  destruct (relate_components _ _).
  - pose proof (join_components a) as Ja. rewrite H, join_components in Ja.
    destruct a, b. simpl in Ja. congruence.
  - destruct H as (rest & Hne & E). exists (reverse rest). split.
    { by intros ?%(f_equal length)%symmetry; destruct rest; rewrite ?length_reverse in *. }
    by apply inside_locations.
  - destruct H as (rest & Hne & E). exists (reverse rest). split.
    { by intros ?%(f_equal length)%symmetry; destruct rest; rewrite ?length_reverse in *. }
    by apply inside_locations.
  - intros Ek root. by apply disjoint_locations.
Qed.

Lemma relate_locations_witness :
  exists sub, sub <> [] /\ forall root,
    locate root (components (mkMemberPath (lit "../ws-A/inner"))) =
    sub ++ locate root (components (mkMemberPath (lit "../ws-A"))).
Proof.
  assert (Ha : member_path_wf (mkMemberPath (lit "../ws-A/inner"))).
  { apply (validate_path_wf (lit "../ws-A/inner")). vm_compute. reflexivity. }
  assert (Hb : member_path_wf (mkMemberPath (lit "../ws-A"))).
  { apply (validate_path_wf (lit "../ws-A")). vm_compute. reflexivity. }
  exact (relate_locations _ _ Ha Hb).
Defined.
