(* ===== verification/FamilyModel.v ===== *)
(** The family index's values, the listing and the remote-token resolver
    (src/crates/family-model/src/lib.rs and resolve.rs).

    A [FamilyView] is the decoded index: the family's id, the root's
    allocation and the clone rows in name order. [classify_target] and
    [project_list] report rows against what was observed on disk, and
    [resolve_remote_token] is the resolver shared by merge, pull and push. *)

From S2P Require Export FamilyPath.

(** ** Format constants and the size limit *)

Definition INDEX_SCHEMA : str := lit "gwz.local-family/v2".
Definition INDEX_SCHEMA_V1 : str := lit "gwz.local-family/v1".
Definition INDEX_SCHEMAS_READ : list str := [INDEX_SCHEMA_V1; INDEX_SCHEMA].
Definition INDEX_MIN_GWZ_VERSION : str := lit "1.0.14".
Definition INDEX_V1_MIN_GWZ_VERSION : str := lit "1.0.0".

Definition index_schema_min_gwz_version (schema : str) : option str :=
  if bool_decide (schema = INDEX_SCHEMA_V1) then Some INDEX_V1_MIN_GWZ_VERSION
  else if bool_decide (schema = INDEX_SCHEMA) then Some INDEX_MIN_GWZ_VERSION
  else None.

Definition MAX_ENCODED_INDEX_BYTES : N := 1024 * 1024.

Record IndexOversize : Type := mkIndexOversize { oversize_bytes : N; oversize_limit : N }.

Definition check_encoded_size (bytes : N) : result unit IndexOversize :=
  if (MAX_ENCODED_INDEX_BYTES <? bytes)%N
  then Err {| oversize_bytes := bytes; oversize_limit := MAX_ENCODED_INDEX_BYTES |}
  else Ok tt.

(** ** Rows *)

Inductive MemberKind : Type := Checkout | Bare.
Inductive MemberState : Type := Creating | Ready | Disposing.
Inductive CloneMode : Type := Verbatim | Clean | BareMode.

#[global] Instance MemberKind_eq_dec : EqDecision MemberKind.
Proof. solve_decision. Defined.
#[global] Instance MemberState_eq_dec : EqDecision MemberState.
Proof. solve_decision. Defined.
#[global] Instance CloneMode_eq_dec : EqDecision CloneMode.
Proof. solve_decision. Defined.

Definition kind_as_str (k : MemberKind) : str :=
  match k with Checkout => lit "checkout" | Bare => lit "bare" end.
Definition kind_parse (value : str) : option MemberKind :=
  if bool_decide (value = lit "checkout") then Some Checkout
  else if bool_decide (value = lit "bare") then Some Bare
  else None.

Definition state_as_str (s : MemberState) : str :=
  match s with
  | Creating => lit "creating" | Ready => lit "ready" | Disposing => lit "disposing"
  end.
Definition state_parse (value : str) : option MemberState :=
  if bool_decide (value = lit "creating") then Some Creating
  else if bool_decide (value = lit "ready") then Some Ready
  else if bool_decide (value = lit "disposing") then Some Disposing
  else None.

Definition mode_as_str (m : CloneMode) : str :=
  match m with
  | Verbatim => lit "verbatim" | Clean => lit "clean" | BareMode => lit "bare"
  end.
Definition mode_parse (value : str) : option CloneMode :=
  if bool_decide (value = lit "verbatim") then Some Verbatim
  else if bool_decide (value = lit "clean") then Some Clean
  else if bool_decide (value = lit "bare") then Some BareMode
  else None.

Record MemberRow : Type := mkMemberRow {
  row_path : str;
  row_kind : MemberKind;
  row_state : MemberState;
  row_allocation : AllocationId;
  row_source : str;
  row_mode : CloneMode;
  row_last_error : option str;
  row_owner : option OwnerToken;
}.

#[global] Instance MemberRow_eq_dec : EqDecision MemberRow.
Proof. solve_decision. Defined.

Record RootEntry : Type := mkRootEntry { root_allocation : AllocationId }.

#[global] Instance RootEntry_eq_dec : EqDecision RootEntry.
Proof. solve_decision. Defined.

Record FamilyView : Type := mkFamilyView {
  view_family_id : FamilyId;
  view_root : RootEntry;
  view_members : BTreeMap MemberName MemberRow;
}.

#[global] Instance FamilyView_eq_dec : EqDecision FamilyView.
Proof. solve_decision. Defined.

(** [FamilyView::founded]. *)
Definition founded (family_id : FamilyId) (root_alloc : AllocationId) : FamilyView :=
  {| view_family_id := family_id;
     view_root := {| root_allocation := root_alloc |};
     view_members := bt_empty |}.

(** [FamilyView::member]: the first entry, in name order, spelled [name]. *)
Fixpoint find_member (name : str) (l : list (MemberName * MemberRow))
    : option (MemberName * MemberRow) :=
  match l with
  | [] => None
  | (key, row) :: l' =>
      if bool_decide (name_str key = name) then Some (key, row) else find_member name l'
  end.

Definition view_member (view : FamilyView) (name : str) : option (MemberName * MemberRow) :=
  find_member name (bt_entries (view_members view)).

(** ** Observations and the listing *)

Inductive PointerObservation : Type :=
| PtrMatches | PtrAbsent | PtrOtherFamily | PtrIsIndex | PtrMalformed.

(** Its derived [Debug] text. *)
Definition pointer_debug (p : PointerObservation) : str :=
  match p with
  | PtrMatches => lit "Matches"
  | PtrAbsent => lit "Absent"
  | PtrOtherFamily => lit "OtherFamily"
  | PtrIsIndex => lit "IsIndex"
  | PtrMalformed => lit "Malformed"
  end.

Inductive MarkerObservation : Type :=
| MarkMatches | MarkAbsent | MarkMismatch | MarkMalformed.

Inductive TargetObservation : Type :=
| TargetPresent (pointer : PointerObservation) (marker : MarkerObservation)
| TargetMissing
| TargetMalformed (detail : str).

Inductive ListState : Type :=
| LReady | LIncomplete | LInterruptedDisposal | LMissing
| LPointerRemoved | LMismatched | LMalformed | LUnobserved.

#[global] Instance ListState_eq_dec : EqDecision ListState.
Proof. solve_decision. Defined.

(** [ListState::is_family_endpoint]. *)
Definition is_family_endpoint (s : ListState) : bool :=
  match s with LReady => true | _ => false end.

Definition classify_target (row : MemberRow) (target : option TargetObservation) : ListState :=
  match target with
  | None => LUnobserved
  | Some TargetMissing => LMissing
  | Some (TargetMalformed _) => LMalformed
  | Some (TargetPresent pointer marker) =>
      match row_state row with
      | Creating => LIncomplete
      | Disposing => LInterruptedDisposal
      | Ready =>
          match pointer, marker with
          | PtrMatches, MarkMatches => LReady
          | PtrAbsent, (MarkMatches | MarkAbsent) => LPointerRemoved
          | _, _ => LMismatched
          end
      end
  end.

Record ListRow : Type := mkListRow {
  list_name : str;
  list_kind : MemberKind;
  list_recorded : MemberState;
  list_observed : ListState;
  list_path : str;
  list_last_error : option str;
  list_owner : option OwnerToken;
}.

Definition list_row (observations : BTreeMap MemberName TargetObservation)
    (entry : MemberName * MemberRow) : ListRow :=
  let '(name, row) := entry in
  {| list_name := name_str name;
     list_kind := row_kind row;
     list_recorded := row_state row;
     list_observed := classify_target row (bt_get observations name);
     list_path := row_path row;
     list_last_error := row_last_error row;
     list_owner := row_owner row |}.

Definition root_list_row : ListRow :=
  {| list_name := ROOT_NAME;
     list_kind := Checkout;
     list_recorded := Ready;
     list_observed := LReady;
     list_path := ROOT_PATH;
     list_last_error := None;
     list_owner := None |}.

Definition project_list (view : FamilyView)
    (observations : BTreeMap MemberName TargetObservation) : list ListRow :=
  root_list_row :: (list_row observations <$> bt_entries (view_members view)).

(** ** The resolver *)

Inductive Verb : Type := Merge | Pull | Push.

Record RemoteToken : Type := mkRemoteToken { token_str : str }.

Record BoundMember : Type := mkBoundMember {
  bound_name : str;
  bound_path : str;
  bound_kind : MemberKind;
  bound_is_root : bool;
}.

Inductive Resolution : Type :=
| Bound (member : BoundMember)
| UnknownLocal (token : str) (state : option MemberState)
| LifecycleRefusal (name : str) (state : MemberState)
| GitRemoteCandidate (name : str)
| NoToken.

Definition not_a_member (token : str) (state : option MemberState) (verb : Verb) : Resolution :=
  match verb, state with
  | Merge, state => UnknownLocal token state
  | (Pull | Push), Some state => LifecycleRefusal token state
  | (Pull | Push), None => GitRemoteCandidate token
  end.

Definition resolve_remote_token (view : option FamilyView) (token : option RemoteToken)
    (verb : Verb) : Resolution :=
  match token with
  | None => NoToken
  | Some token =>
      let token := token_str token in
      match view with
      | None => not_a_member token None verb
      | Some view =>
          if bool_decide (token = ROOT_NAME) then
            Bound {| bound_name := ROOT_NAME; bound_path := ROOT_PATH;
                     bound_kind := Checkout; bound_is_root := true |}
          else
            match view_member view token with
            | Some (name, row) =>
                if bool_decide (row_state row = Ready) then
                  Bound {| bound_name := name_str name; bound_path := row_path row;
                           bound_kind := row_kind row; bound_is_root := false |}
                else not_a_member token (Some (row_state row)) verb
            | None => not_a_member token None verb
            end
      end
  end.

(** ** Lemmas *)

Lemma find_member_spec name l :
  match find_member name l with
  | Some (key, row) => (key, row) ∈ l /\ name_str key = name
  | None => forall key row, (key, row) ∈ l -> name_str key <> name
  end.
Proof.
  induction l as [|[k r] l IH]; simpl.
  - by intros key row ?%elem_of_nil.
  - case_bool_decide; [split; [by left|done]|].
    destruct (find_member name l) as [[key row]|].
    + destruct IH. split; [by right|done].
    + intros key row [?|?]%elem_of_cons; [by simplify_eq|eauto].
Qed.

(** Looking a name up by its spelling is looking up the key. *)
Lemma view_member_get view name :
  view_member view name =
  (fun row => (mkMemberName name, row)) <$> bt_get (view_members view) (mkMemberName name).
Proof.
  unfold view_member. pose proof (find_member_spec name (bt_entries (view_members view))) as H.
  destruct (find_member name _) as [[[key] row]|].
  - destruct H as [H%bt_elem_get E]. simpl in E. subst key. by rewrite H.
  - destruct (bt_get _ _) as [row|] eqn:E; [|done]. apply bt_elem_get in E. by apply H in E.
Qed.

Lemma kind_parse_spec v k : kind_parse v = Some k <-> v = kind_as_str k.
Proof.
  unfold kind_parse. repeat case_bool_decide; destruct k; simpl; subst; split;
    intros; simplify_eq; try done; exfalso; eauto.
Qed.

Lemma state_parse_spec v s : state_parse v = Some s <-> v = state_as_str s.
Proof.
  unfold state_parse. repeat case_bool_decide; destruct s; simpl; subst; split;
    intros; simplify_eq; try done; exfalso; eauto.
Qed.

Lemma mode_parse_spec v m : mode_parse v = Some m <-> v = mode_as_str m.
Proof.
  unfold mode_parse. repeat case_bool_decide; destruct m; simpl; subst; split;
    intros; simplify_eq; try done; exfalso; eauto.
Qed.

Lemma classify_target_ready row target :
  classify_target row target = LReady <->
  row_state row = Ready /\ target = Some (TargetPresent PtrMatches MarkMatches).
Proof.
  unfold classify_target. split.
  - intros H. repeat case_match; simplify_eq; done.
  - intros [-> ->]. done.
Qed.

(** ** Main theorems *)

(** The recorded spellings round trip. A value decodes to a kind, state or
    mode iff it is the spelling that kind, state or mode is written as. *)
Theorem spellings_roundtrip :
  (forall v k, kind_parse v = Some k <-> v = kind_as_str k) /\
  (forall v s, state_parse v = Some s <-> v = state_as_str s) /\
  (forall v m, mode_parse v = Some m <-> v = mode_as_str m).
Proof. split_and!; [apply kind_parse_spec|apply state_parse_spec|apply mode_parse_spec]. Qed.

(** The resolver is exact on a family. A token binds iff it is the root's
    name or names a ready row, and binds to that row; a row in another state
    refuses and is never taken for a git remote; only a name the index does
    not hold is a git-remote candidate, and never for a merge. *)
Theorem resolver_exact (view : FamilyView) (tok : str) (verb : Verb) :
  let recorded := bt_get (view_members view) (mkMemberName tok) in
  match resolve_remote_token (Some view) (Some (mkRemoteToken tok)) verb with
  | Bound m =>
      (tok = ROOT_NAME /\ bound_path m = ROOT_PATH /\ bound_is_root m = true) \/
      (tok <> ROOT_NAME /\ exists row, recorded = Some row /\ row_state row = Ready /\
         m = {| bound_name := tok; bound_path := row_path row;
                bound_kind := row_kind row; bound_is_root := false |})
  | UnknownLocal t st =>
      verb = Merge /\ t = tok /\ tok <> ROOT_NAME /\ st = row_state <$> recorded /\ st <> Some Ready
  | LifecycleRefusal n st =>
      verb <> Merge /\ n = tok /\ tok <> ROOT_NAME /\ row_state <$> recorded = Some st /\ st <> Ready
  | GitRemoteCandidate n => verb <> Merge /\ n = tok /\ tok <> ROOT_NAME /\ recorded = None
  | NoToken => False
  end.
Proof.
  cbv zeta. unfold resolve_remote_token. simpl. case_bool_decide as E; [by left|].
  rewrite view_member_get. destruct (bt_get _ _) as [row|]; simpl.
  - case_bool_decide as Hr.
    + right. eauto.
    + destruct verb; simpl; split_and!; try done; congruence.
  - by destruct verb.
Qed.

(** The listing is the root, then one row per member in strictly
    ascending name order; and a listed member is a usable endpoint iff it is
    recorded ready and was observed with a matching pointer and a matching
    marker. *)
Theorem listing_exact (view : FamilyView) (obs : BTreeMap MemberName TargetObservation) :
  exists rows, project_list view obs = root_list_row :: rows /\
    list_name <$> rows = (fun e => name_str e.1) <$> bt_entries (view_members view) /\
    ent_sorted (bt_entries (view_members view)) = true /\
    forall i name row, bt_entries (view_members view) !! i = Some (name, row) ->
      exists r, rows !! i = Some r /\ list_path r = row_path row /\ list_owner r = row_owner row /\
        (is_family_endpoint (list_observed r) = true <->
         row_state row = Ready /\ bt_get obs name = Some (TargetPresent PtrMatches MarkMatches)).
Proof.
  eexists. split; [done|]. split_and!.
  - rewrite <- list_fmap_compose. apply list_fmap_ext. by intros i [].
  - apply bt_sorted.
  - intros i name row Hi. exists (list_row obs (name, row)).
    rewrite list_lookup_fmap, Hi. split_and!; [done..|]. simpl.
    rewrite <- classify_target_ready. by destruct (classify_target _ _).
Qed.
