(* ===== verification/FamilyTransition.v ===== *)
(** Index transitions (src/crates/family-model/src/transition.rs).

    [validate_transition] takes the current view and a change and gives the
    next view or a typed refusal; [validate_view] checks a decoded index. The
    early returns of the source are the error monad's, in the source's order,
    so the refusal reported is the first one the source meets. *)

From S2P Require Export FamilyModel.

(** ** Data *)

Inductive RemovalReason : Type := Disposed | Keep | Stale.

#[global] Instance RemovalReason_eq_dec : EqDecision RemovalReason.
Proof. solve_decision. Defined.

Inductive FamilyChange : Type :=
| Allocate (name : MemberName) (row : MemberRow)
| RecordError (name : MemberName) (last_error : str)
| MarkReady (name : MemberName) (expected_allocation : AllocationId)
| MarkDisposing (name : MemberName) (expected_allocation : AllocationId)
| RemoveRow (name : MemberName) (reason : RemovalReason)
| Disband.

#[global] Instance FamilyChange_eq_dec : EqDecision FamilyChange.
Proof. solve_decision. Defined.

Inductive Refusal : Type :=
| NameCollision (name : MemberName) (holder_path : str) (holder_owner : option OwnerToken)
| RefPathNotNormalised (name : MemberName) (path normalised : str)
| AllocationCollision (name : MemberName) (holder : str)
| PathCollision (path holder : str)
| NestedPath (path other : str)
| InvalidRow (name : MemberName) (detail : str)
| NotFound (name : MemberName)
| WrongState (name : MemberName) (expected actual : MemberState)
| AllocationMismatch (name : MemberName) (expected actual : AllocationId)
| NotDisposing (name : MemberName) (actual : MemberState).

#[global] Instance Refusal_eq_dec : EqDecision Refusal.
Proof. solve_decision. Defined.

Record ValidatedChange : Type := mkValidatedChange {
  vc_change : FamilyChange;
  vc_next : FamilyView;
}.

#[global] Instance ValidatedChange_eq_dec : EqDecision ValidatedChange.
Proof. solve_decision. Defined.

Definition set_members (view : FamilyView) (members : BTreeMap MemberName MemberRow) : FamilyView :=
  {| view_family_id := view_family_id view; view_root := view_root view; view_members := members |}.

Definition set_state (row : MemberRow) (s : MemberState) : MemberRow :=
  {| row_path := row_path row; row_kind := row_kind row; row_state := s;
     row_allocation := row_allocation row; row_source := row_source row;
     row_mode := row_mode row; row_last_error := row_last_error row; row_owner := row_owner row |}.

Definition set_last_error (row : MemberRow) (e : option str) : MemberRow :=
  {| row_path := row_path row; row_kind := row_kind row; row_state := row_state row;
     row_allocation := row_allocation row; row_source := row_source row;
     row_mode := row_mode row; row_last_error := e; row_owner := row_owner row |}.

(** ** Checks *)

Definition path_refusal (name : MemberName) (path : str) (error : PathError) : Refusal :=
  match error with
  | PathRootItself _ | PathInsideRoot _ _ | PathContainsRoot _ _ => NestedPath path ROOT_PATH
  | PathNotNormalised _ normalised => RefPathNotNormalised name path normalised
  | other => InvalidRow name (path_error_text other)
  end.

Definition validate_row_path (name : MemberName) (path : str) : result MemberPath Refusal :=
  map_err (path_refusal name path) (validate_path path).

Definition validate_source_path (name : MemberName) (row : MemberRow) (path : MemberPath)
    : result unit Refusal :=
  if bool_decide (row_source row = ROOT_PATH) then Ok tt
  else
    let? source := map_err (fun error => InvalidRow name (lit "source " ++ path_error_text error))
                     (validate_path (row_source row)) in
    if bool_decide (relate source path = Same)
    then Err (InvalidRow name
      (lit "member path " ++ quoted (path_str path) ++ lit " is also its own source path"))
    else Ok tt.

(** [require]: the row to change. The source returns a mutable borrow into
    the next view; the caller here puts the changed row back. *)
Definition require (view : FamilyView) (name : MemberName) : result MemberRow Refusal :=
  match bt_get (view_members view) name with
  | Some row => Ok row
  | None => Err (NotFound name)
  end.

Definition expect_state (name : MemberName) (row : MemberRow) (expected : MemberState)
    : result unit Refusal :=
  if bool_decide (row_state row = expected) then Ok tt
  else Err (WrongState name expected (row_state row)).

Definition expect_allocation (name : MemberName) (row : MemberRow) (expected : AllocationId)
    : result unit Refusal :=
  if bool_decide (row_allocation row = expected) then Ok tt
  else Err (AllocationMismatch name expected (row_allocation row)).

Definition check_name_available (view : FamilyView) (name : MemberName) : result unit Refusal :=
  match bt_get (view_members view) name with
  | Some holder => Err (NameCollision name (row_path holder) (row_owner holder))
  | None => Ok tt
  end.

(** The refusal for two related paths, shared by the two path loops. *)
Definition overlap_refusal (path : MemberPath) (other_name : MemberName) (other : MemberPath)
    : result unit Refusal :=
  match relate path other with
  | Same => Err (PathCollision (path_str path) (name_str other_name))
  | Inside | Contains => Err (NestedPath (path_str path) (path_str other))
  | Disjoint => Ok tt
  end.

Definition check_path_available (view : FamilyView) (path : MemberPath) : result unit Refusal :=
  for_each (fun entry =>
    let '(other_name, other) := entry in
    let? recorded := validate_row_path other_name (row_path other) in
    overlap_refusal path other_name recorded)
    (bt_entries (view_members view)).

Definition check_allocation_available (view : FamilyView) (name : MemberName)
    (allocation : AllocationId) : result unit Refusal :=
  if bool_decide (root_allocation (view_root view) = allocation)
  then Err (AllocationCollision name ROOT_NAME)
  else
    for_each (fun entry =>
      let '(other_name, other) := entry in
      if bool_decide (other_name <> name) && bool_decide (row_allocation other = allocation)
      then Err (AllocationCollision name (name_str other_name))
      else Ok tt)
      (bt_entries (view_members view)).

(** The loop of [validate_view] with its vector of admitted paths. *)
Fixpoint validate_rows (view : FamilyView) (admitted : list (MemberName * MemberPath))
    (rows : list (MemberName * MemberRow)) : result unit Refusal :=
  match rows with
  | [] => Ok tt
  | (name, row) :: rows' =>
      let? path := validate_row_path name (row_path row) in
      check? validate_source_path name row path in
      check? check_allocation_available view name (row_allocation row) in
      check? for_each (fun entry => let '(other_name, other) := entry in
                                    overlap_refusal path other_name other) admitted in
      validate_rows view (admitted ++ [(name, path)]) rows'
  end.

Definition validate_view (view : FamilyView) : result unit Refusal :=
  validate_rows view [] (bt_entries (view_members view)).

(** ** The transition *)

Definition validate_transition (view : FamilyView) (change : FamilyChange)
    : result ValidatedChange Refusal :=
  let? next :=
    match change with
    | Allocate name row =>
        if negb (bool_decide (row_state row = Creating)) then
          Err (InvalidRow name
            (lit "an allocation must be creating, not " ++ state_as_str (row_state row)))
        else
          let? path := validate_row_path name (row_path row) in
          check? validate_source_path name row path in
          check? check_name_available view name in
          check? check_path_available view path in
          check? check_allocation_available view name (row_allocation row) in
          Ok (set_members view (bt_insert (view_members view) name row))
    | RecordError name last_error =>
        let? row := require view name in
        check? expect_state name row Creating in
        Ok (set_members view
          (bt_insert (view_members view) name (set_last_error row (Some last_error))))
    | MarkReady name expected_allocation =>
        let? row := require view name in
        check? expect_state name row Creating in
        check? expect_allocation name row expected_allocation in
        Ok (set_members view
          (bt_insert (view_members view) name (set_last_error (set_state row Ready) None)))
    | MarkDisposing name expected_allocation =>
        let? row := require view name in
        check? expect_state name row Ready in
        check? expect_allocation name row expected_allocation in
        Ok (set_members view (bt_insert (view_members view) name (set_state row Disposing)))
    | RemoveRow name reason =>
        let? row := require view name in
        if bool_decide (reason = Disposed) && negb (bool_decide (row_state row = Disposing))
        then Err (NotDisposing name (row_state row))
        else Ok (set_members view (bt_remove (view_members view) name))
    | Disband => Ok (set_members view bt_empty)
    end in
  Ok {| vc_change := change; vc_next := next |}.

(** ** What a valid index is *)

Definition row_at (row : MemberRow) : MemberPath := mkMemberPath (row_path row).

(** A row on its own: its path and its source are recorded forms, and the
    source is the root or some other path. *)
Record row_wf (row : MemberRow) : Prop := {
  rw_path : member_path_wf (row_at row);
  rw_source : row_source row = ROOT_PATH \/
    (member_path_wf (mkMemberPath (row_source row)) /\ row_source row <> row_path row);
}.

(** The whole index: [validate_view]'s contract, stated without its loops. *)
Record view_wf (view : FamilyView) : Prop := {
  vw_rows : forall name row, bt_get (view_members view) name = Some row -> row_wf row;
  vw_root : forall name row, bt_get (view_members view) name = Some row ->
    row_allocation row <> root_allocation (view_root view);
  vw_allocations : forall n1 r1 n2 r2, n1 <> n2 ->
    bt_get (view_members view) n1 = Some r1 -> bt_get (view_members view) n2 = Some r2 ->
    row_allocation r1 <> row_allocation r2;
  vw_disjoint : forall n1 r1 n2 r2, n1 <> n2 ->
    bt_get (view_members view) n1 = Some r1 -> bt_get (view_members view) n2 = Some r2 ->
    relate (row_at r1) (row_at r2) = Disjoint;
}.

(** ** Lemmas: the checks *)

Lemma relate_sym_disjoint a b : relate a b = Disjoint <-> relate b a = Disjoint.
Proof.
  unfold relate. rewrite (relate_components_flip (components a) (components b)).
  by destruct (relate_components _ _).
Qed.

Lemma relate_same a b : relate a b = Same <-> a = b.
Proof.
  unfold relate. pose proof (relate_components_spec (components a) (components b)) as H. split.
  - intros E. rewrite E in H. pose proof (join_components a) as Ja.
    rewrite H, join_components in Ja. destruct a, b; simpl in *; congruence.
  - intros ->. clear H. induction (components b); simpl; [done|]. by rewrite bool_decide_true.
Qed.

Lemma validate_row_path_ok name p m :
  validate_row_path name p = Ok m <-> m = mkMemberPath p /\ member_path_wf m.
Proof.
  unfold validate_row_path. rewrite map_err_ok, validate_path_shape.
  split; intros [-> ?]; (split; [done|]); done.
Qed.

Lemma validate_source_path_ok name row path :
  path = row_at row ->
  validate_source_path name row path = Ok tt <->
  row_source row = ROOT_PATH \/
  (member_path_wf (mkMemberPath (row_source row)) /\ row_source row <> row_path row).
Proof.
  intros ->. unfold validate_source_path. case_bool_decide as E; [naive_solver|].
  rewrite rbind_ok. split.
  - intros (m & Hm & H). apply map_err_ok, validate_path_shape in Hm as [-> Hwf].
    case_bool_decide as Hr; [done|]. right. split; [done|].
    intros Heq. apply Hr, relate_same. unfold row_at. by rewrite Heq.
  - intros [?|[Hwf Hne]]; [done|]. eexists. split; [by apply map_err_ok, validate_path_shape|].
    rewrite bool_decide_false; [done|]. intros Hr%relate_same. unfold row_at in Hr. congruence.
Qed.

Lemma overlap_refusal_ok path n other :
  overlap_refusal path n other = Ok tt <-> relate path other = Disjoint.
Proof. unfold overlap_refusal. destruct (relate path other); naive_solver. Qed.

Lemma check_path_available_ok view path :
  check_path_available view path = Ok tt <->
  forall n r, bt_get (view_members view) n = Some r ->
    member_path_wf (row_at r) /\ relate path (row_at r) = Disjoint.
Proof.
  unfold check_path_available. rewrite for_each_ok, Forall_forall. split.
  - intros H n r Hg%bt_elem_get. specialize (H _ Hg). simpl in H.
    apply rbind_ok in H as (m & [-> Hm]%validate_row_path_ok & Ho%overlap_refusal_ok). done.
  - intros H [n r] Hg%bt_elem_get. destruct (H _ _ Hg) as [Hw Hr].
    apply rbind_ok. exists (row_at r).
    by rewrite validate_row_path_ok, overlap_refusal_ok.
Qed.

Lemma check_allocation_available_ok view name a :
  check_allocation_available view name a = Ok tt <->
  a <> root_allocation (view_root view) /\
  forall n r, n <> name -> bt_get (view_members view) n = Some r -> row_allocation r <> a.
Proof.
  unfold check_allocation_available. case_bool_decide as E; [naive_solver|].
  rewrite for_each_ok, Forall_forall. split.
  - intros H. split; [congruence|]. intros n r Hn Hg%bt_elem_get Ha.
    specialize (H _ Hg). simpl in H. rewrite !bool_decide_true in H by done. done.
  - intros [_ H] [n r] Hg%bt_elem_get. do 2 case_bool_decide; simpl; naive_solver.
Qed.

(** What the row loop of [validate_view] checks of one row, its overlap with
    the admitted paths apart. *)
Definition row_admitted (view : FamilyView) (e : MemberName * MemberRow) : Prop :=
  row_wf e.2 /\ check_allocation_available view e.1 (row_allocation e.2) = Ok tt.

Definition rows_disjoint (e1 e2 : MemberName * MemberRow) : Prop :=
  relate (row_at e1.2) (row_at e2.2) = Disjoint.

Lemma rows_disjoint_sym e1 e2 : rows_disjoint e1 e2 -> rows_disjoint e2 e1.
Proof. apply relate_sym_disjoint. Qed.

Lemma validate_rows_ok view admitted rows :
  validate_rows view admitted rows = Ok tt <->
  Forall (row_admitted view) rows /\
  Forall (fun e => Forall (fun a => relate (row_at e.2) a.2 = Disjoint) admitted) rows /\
  ForallOrdPairs rows_disjoint rows.
Proof.
  revert admitted. induction rows as [|[name row] rows IH]; intros admitted; simpl.
  { split; [intros _; split_and!; constructor|done]. }
  rewrite !Forall_cons, rbind_ok. setoid_rewrite rbind_ok. setoid_rewrite rbind_ok.
  setoid_rewrite rbind_ok. setoid_rewrite IH. split.
  - intros (p & [-> Hp]%validate_row_path_ok & [] & Hs & [] & Ha & [] & Ho & Hadm & Hprev & Hpairs).
    apply validate_source_path_ok in Hs; [|done].
    split_and!; try done.
    + by apply for_each_ok in Ho; eapply Forall_impl; [exact Ho|]; intros [] ?%overlap_refusal_ok.
    + eapply Forall_impl; [exact Hprev|]. intros e He. by apply Forall_app in He as [He _].
    + constructor; [|done]. eapply Forall_impl; [exact Hprev|]. intros e He.
      apply Forall_app in He as [_ He]. apply Forall_cons in He as [He _].
      by apply rows_disjoint_sym.
  - intros ((([Hp Hs] & Ha) & Hadm) & (Ho & Hprev) & Hpairs).
    inversion Hpairs as [|? ? Hhd Htl]; subst.
    exists (row_at row). split; [by apply validate_row_path_ok|]. exists tt.
    split; [by apply validate_source_path_ok|]. exists tt. split; [done|]. exists tt.
    split_and!; try done.
    + apply for_each_ok. eapply Forall_impl; [exact Ho|]. intros [] ?. by apply overlap_refusal_ok.
    + apply Forall_forall. intros e He. apply Forall_app. rewrite Forall_forall in Hprev.
      split; [by apply Hprev|]. constructor; [|constructor]. rewrite Forall_forall in Hhd.
      by apply (rows_disjoint_sym (name, row) e), Hhd.
Qed.

Lemma bt_entries_nodup (view : FamilyView) : NoDup (bt_entries (view_members view)).
Proof. eapply NoDup_fmap_1, bt_keys_nodup. Qed.

(** Distinct entries of a map have distinct keys. *)
Lemma entries_distinct (view : FamilyView) (e1 e2 : MemberName * MemberRow) :
  e1 ∈ bt_entries (view_members view) -> e2 ∈ bt_entries (view_members view) ->
  e1 <> e2 -> e1.1 <> e2.1.
Proof.
  destruct e1 as [n1 r1], e2 as [n2 r2]. rewrite !bt_elem_get. simpl. intros H1 H2 Hne ->.
  congruence.
Qed.

Lemma validate_view_wf view : validate_view view = Ok tt <-> view_wf view.
Proof.
  unfold validate_view. rewrite validate_rows_ok.
  rewrite (pairwise_distinct rows_disjoint) by (apply rows_disjoint_sym || apply bt_entries_nodup).
  rewrite Forall_forall. split.
  - intros (Hrow & _ & Hdis). split.
    + by intros n r Hg%bt_elem_get%Hrow%proj1.
    + intros n r Hg%bt_elem_get%Hrow%proj2. by apply check_allocation_available_ok in Hg as [? _].
    + intros n1 r1 n2 r2 Hne H1 H2. apply bt_elem_get, Hrow, proj2 in H2.
      apply check_allocation_available_ok in H2 as [_ H2]. eauto.
    + intros n1 r1 n2 r2 Hne H1%bt_elem_get H2%bt_elem_get. apply (Hdis _ _ H1 H2). congruence.
  - intros [Hrow Hroot Hal Hdis]. split_and!.
    + intros [n r] Hg%bt_elem_get. split; [by eapply Hrow|]. apply check_allocation_available_ok.
      split; [by eapply Hroot|]. intros. by eapply Hal.
    + apply Forall_forall. intros e _. constructor.
    + intros [n1 r1] [n2 r2] H1 H2 Hne. pose proof (entries_distinct _ _ _ H1 H2 Hne).
      apply bt_elem_get in H1, H2. by eapply Hdis.
Qed.

(** ** The abstract lifecycle

    The lifecycle as a relation on what the index says of each name, with no
    check order, no loops and no map representation. *)

Definition updates (v v' : FamilyView) (name : MemberName) (o : option MemberRow) : Prop :=
  view_family_id v' = view_family_id v /\ view_root v' = view_root v /\
  bt_get (view_members v') name = o /\
  forall n, n <> name -> bt_get (view_members v') n = bt_get (view_members v) n.

(** A row that can join the index under a name. *)
Record admissible (v : FamilyView) (name : MemberName) (row : MemberRow) : Prop := {
  ad_state : row_state row = Creating;
  ad_row : row_wf row;
  ad_name : bt_get (view_members v) name = None;
  ad_root : row_allocation row <> root_allocation (view_root v);
  ad_others : forall n r, bt_get (view_members v) n = Some r ->
    relate (row_at row) (row_at r) = Disjoint /\ row_allocation r <> row_allocation row;
}.

Inductive family_step (v : FamilyView) : FamilyChange -> FamilyView -> Prop :=
| step_allocate name row v' :
    admissible v name row ->
    updates v v' name (Some row) -> family_step v (Allocate name row) v'
| step_record_error name row e v' :
    bt_get (view_members v) name = Some row -> row_state row = Creating ->
    updates v v' name (Some (set_last_error row (Some e))) ->
    family_step v (RecordError name e) v'
| step_mark_ready name row v' :
    bt_get (view_members v) name = Some row -> row_state row = Creating ->
    updates v v' name (Some (set_last_error (set_state row Ready) None)) ->
    family_step v (MarkReady name (row_allocation row)) v'
| step_mark_disposing name row v' :
    bt_get (view_members v) name = Some row -> row_state row = Ready ->
    updates v v' name (Some (set_state row Disposing)) ->
    family_step v (MarkDisposing name (row_allocation row)) v'
| step_remove name row reason v' :
    bt_get (view_members v) name = Some row ->
    (reason = Disposed -> row_state row = Disposing) ->
    updates v v' name None -> family_step v (RemoveRow name reason) v'
| step_disband v' :
    view_family_id v' = view_family_id v -> view_root v' = view_root v ->
    (forall n, bt_get (view_members v') n = None) -> family_step v Disband v'.

Lemma view_ext (v v' : FamilyView) :
  view_family_id v = view_family_id v' -> view_root v = view_root v' ->
  (forall n, bt_get (view_members v) n = bt_get (view_members v') n) -> v = v'.
Proof. destruct v, v'. simpl. intros -> -> H. f_equal. by apply bt_ext. Qed.

Lemma updates_insert v v' name row :
  updates v v' name (Some row) <-> v' = set_members v (bt_insert (view_members v) name row).
Proof.
  split.
  - intros (Hf & Hr & Hg & Ho). apply view_ext; [done..|]. intros n. simpl.
    destruct (decide (n = name)) as [->|Hn]; [by rewrite bt_get_insert_eq|].
    rewrite bt_get_insert_ne by done. by apply Ho.
  - intros ->. split_and!; [done..|simpl; apply bt_get_insert_eq|]. intros n Hn. simpl.
    by apply bt_get_insert_ne.
Qed.

Lemma updates_remove v v' name :
  updates v v' name None <-> v' = set_members v (bt_remove (view_members v) name).
Proof.
  split.
  - intros (Hf & Hr & Hg & Ho). apply view_ext; [done..|]. intros n. simpl.
    destruct (decide (n = name)) as [->|Hn]; [by rewrite bt_get_remove_eq|].
    rewrite bt_get_remove_ne by done. by apply Ho.
  - intros ->. split_and!; [done..|simpl; apply bt_get_remove_eq|]. intros n Hn. simpl.
    by apply bt_get_remove_ne.
Qed.

Lemma require_ok v name row : require v name = Ok row <-> bt_get (view_members v) name = Some row.
Proof. unfold require. destruct (bt_get _ _); naive_solver. Qed.

Lemma expect_state_ok name row s : expect_state name row s = Ok tt <-> row_state row = s.
Proof. unfold expect_state. case_bool_decide; naive_solver. Qed.

Lemma expect_allocation_ok name row a :
  expect_allocation name row a = Ok tt <-> row_allocation row = a.
Proof. unfold expect_allocation. case_bool_decide; naive_solver. Qed.

Lemma check_name_available_ok v name :
  check_name_available v name = Ok tt <-> bt_get (view_members v) name = None.
Proof. unfold check_name_available. destruct (bt_get _ _); naive_solver. Qed.

(** The chain of checks of an allocation, in any order. *)
Lemma allocate_checks v name row :
  view_wf v -> row_state row = Creating ->
  (exists p, validate_row_path name (row_path row) = Ok p /\
     validate_source_path name row p = Ok tt /\ check_name_available v name = Ok tt /\
     check_path_available v p = Ok tt /\
     check_allocation_available v name (row_allocation row) = Ok tt) <->
  admissible v name row.
Proof.
  intros Hwf Hst. setoid_rewrite validate_row_path_ok. setoid_rewrite check_name_available_ok. split.
  - intros (p & (-> & Hp) & Hs & Hn & Hpath & [Hr Ha]%check_allocation_available_ok).
    apply validate_source_path_ok in Hs; [|done]. rewrite check_path_available_ok in Hpath.
    split; [done|by split|done..|]. intros n r Hg. split; [by eapply Hpath|].
    eapply Ha; [|done]. congruence.
  - intros [_ [Hp Hs] Hn Hr Ho]. exists (row_at row). split_and!; try done.
    + by apply validate_source_path_ok.
    + apply check_path_available_ok. intros n r Hg. split; [by eapply vw_rows|by eapply Ho].
    + apply check_allocation_available_ok. split; [done|]. intros n r _ Hg. by eapply Ho.
Qed.

(** Reads an accepted chain of checks back as the facts it checked. *)
Ltac accepted :=
  repeat match goal with
  | H : rbind _ _ = Ok _ |- _ => apply rbind_ok in H as (? & ? & ?)
  | u : unit |- _ => destruct u
  | H : require _ _ = Ok _ |- _ => apply require_ok in H
  | H : expect_state _ _ _ = Ok _ |- _ => apply expect_state_ok in H
  | H : expect_allocation _ _ _ = Ok _ |- _ => apply expect_allocation_ok in H; subst
  | H : Ok _ = Ok _ |- _ => simplify_eq/=
  end.

Lemma accepted_step v c vc :
  view_wf v -> validate_transition v c = Ok vc ->
  vc_change vc = c /\ family_step v c (vc_next vc).
Proof.
  intros Hwf H. unfold validate_transition in H. apply rbind_ok in H as (next & H & [= <-]).
  split; [done|]. simpl. destruct c as [name row|name e|name a|name a|name reason|].
  - case_bool_decide as Hst; [|done]. simpl in H. accepted.
    apply step_allocate; [apply allocate_checks; eauto 10|by apply updates_insert].
  - accepted. eapply step_record_error; [done..|]. by apply updates_insert.
  - accepted. eapply step_mark_ready; [done..|]. by apply updates_insert.
  - accepted. eapply step_mark_disposing; [done..|]. by apply updates_insert.
  - apply rbind_ok in H as (row & Hrow%require_ok & H).
    destruct (bool_decide _ && _) eqn:E; [done|]. simplify_eq.
    eapply step_remove; [done| |by apply updates_remove]. intros ->.
    rewrite bool_decide_true in E by done. simpl in E.
    by apply negb_false_iff, bool_decide_eq_true in E.
  - accepted. by apply step_disband.
Qed.

Lemma step_accepted v c v' :
  view_wf v -> family_step v c v' ->
  validate_transition v c = Ok {| vc_change := c; vc_next := v' |}.
Proof.
  intros Hwf H. unfold validate_transition.
  destruct H as [name row v' Had Hu|name row e v' Hg Hs Hu|name row v' Hg Hs Hu
    |name row v' Hg Hs Hu|name row reason v' Hg Hs Hu|v' Hf Hr Hn].
  - rewrite bool_decide_true by apply Had. simpl.
    apply updates_insert in Hu as ->. apply (allocate_checks v name row Hwf (ad_state _ _ _ Had)) in Had
      as (p & -> & ? & ? & ? & ?). simpl.
    by repeat match goal with H : _ = Ok _ |- _ => rewrite H; simpl; clear H end.
  - apply updates_insert in Hu as ->. unfold require, expect_state. rewrite Hg. simpl.
    by rewrite bool_decide_true by done.
  - apply updates_insert in Hu as ->. unfold require, expect_state, expect_allocation. rewrite Hg.
    simpl. by rewrite !bool_decide_true by done.
  - apply updates_insert in Hu as ->. unfold require, expect_state, expect_allocation. rewrite Hg.
    simpl. by rewrite !bool_decide_true by done.
  - apply updates_remove in Hu as ->. unfold require. rewrite Hg. simpl.
    destruct (bool_decide _ && _) eqn:E; [|done]. apply andb_true_iff in E as [E1 E2].
    apply bool_decide_eq_true in E1. apply negb_true_iff, bool_decide_eq_false in E2. naive_solver.
  - simpl. do 2 f_equal. apply view_ext; [done..|]. intros n. by rewrite Hn.
Qed.

(** ** Preservation *)

(** Replacing a row by one with the same path, source and allocation keeps
    an index well formed, whatever else the row says. *)
Lemma updates_row_wf v v' name row row' :
  view_wf v -> bt_get (view_members v) name = Some row ->
  row_path row' = row_path row -> row_source row' = row_source row ->
  row_allocation row' = row_allocation row ->
  updates v v' name (Some row') -> view_wf v'.
Proof.
  intros Hwf Hg Hp Hs Ha (_ & Hroot & Hn & Ho).
  assert (Hback : forall n r', bt_get (view_members v') n = Some r' ->
    exists r, bt_get (view_members v) n = Some r /\ row_path r' = row_path r /\
      row_source r' = row_source r /\ row_allocation r' = row_allocation r).
  { intros n r' Hg'. destruct (decide (n = name)) as [->|Hne]; [|rewrite Ho in Hg' by done]; naive_solver. }
  destruct Hwf as [Hw Hr Hal Hd]. split.
  - intros n r' (r & Hr0 & E1 & E2 & E3)%Hback. destruct (Hw _ _ Hr0) as [Hwp Hws].
    split; unfold row_at in *; by rewrite ?E1, ?E2.
  - intros n r' (r & Hr0 & E1 & E2 & E3)%Hback. rewrite Hroot, E3. eauto.
  - intros n1 r1 n2 r2 Hne (? & ? & _ & _ & ->)%Hback (? & ? & _ & _ & ->)%Hback. eauto.
  - intros n1 r1 n2 r2 Hne (? & ? & E1 & _ & _)%Hback (? & ? & E2 & _ & _)%Hback.
    unfold row_at. rewrite E1, E2. by eapply Hd.
Qed.

(** Losing rows keeps an index well formed. *)
Lemma fewer_rows_wf v v' :
  view_wf v -> view_root v' = view_root v ->
  (forall n r, bt_get (view_members v') n = Some r -> bt_get (view_members v) n = Some r) ->
  view_wf v'.
Proof.
  intros [Hw Hr Hal Hd] Hroot Hsub. split; [|rewrite Hroot|..]; eauto.
Qed.

Lemma admissible_wf v v' name row :
  view_wf v -> admissible v name row -> updates v v' name (Some row) -> view_wf v'.
Proof.
  intros [Hw Hr Hal Hd] [Hst Hrow Hn Hra Hoth] (_ & Hroot & Hg & Ho).
  assert (Hcase : forall n r, bt_get (view_members v') n = Some r ->
    (n = name /\ r = row) \/ (n <> name /\ bt_get (view_members v) n = Some r)).
  { intros n r Hg'. destruct (decide (n = name)) as [->|Hne].
    - left. split; congruence.
    - right. by rewrite Ho in Hg'. }
  split.
  - intros n r [[-> ->]|[_ ?]]%Hcase; eauto.
  - rewrite Hroot. intros n r [[-> ->]|[_ ?]]%Hcase; eauto.
  - intros n1 r1 n2 r2 Hne [[-> ->]|[_ H1]]%Hcase [[-> ->]|[_ H2]]%Hcase; [done| | |by eauto].
    + destruct (Hoth _ _ H2). congruence.
    + by destruct (Hoth _ _ H1).
  - intros n1 r1 n2 r2 Hne [[-> ->]|[_ H1]]%Hcase [[-> ->]|[_ H2]]%Hcase; [done| | |by eauto].
    + by eapply Hoth.
    + apply relate_sym_disjoint. by eapply Hoth.
Qed.

Lemma family_step_wf v c v' : view_wf v -> family_step v c v' -> view_wf v'.
Proof.
  intros Hwf [name row ? Had Hu|name row e ? Hg Hs Hu|name row ? Hg Hs Hu
    |name row ? Hg Hs Hu|name row reason ? Hg Hs Hu|? Hf Hr Hn].
  - by eapply admissible_wf.
  - by refine (updates_row_wf _ _ _ _ _ Hwf Hg _ _ _ Hu).
  - by refine (updates_row_wf _ _ _ _ _ Hwf Hg _ _ _ Hu).
  - by refine (updates_row_wf _ _ _ _ _ Hwf Hg _ _ _ Hu).
  - destruct Hu as (_ & Hroot & Hnone & Ho). eapply fewer_rows_wf; [done..|]. intros n r Hg'.
    destruct (decide (n = name)) as [->|Hne]; [congruence|]. by rewrite <- Ho.
  - eapply fewer_rows_wf; [done..|]. intros n r Hg'. by rewrite Hn in Hg'.
Qed.

(** ** Histories

    The index a family has after a list of accepted changes; a refused change
    leaves it as it was, as the store writes nothing then. *)
Definition apply_change (v : FamilyView) (c : FamilyChange) : FamilyView :=
  match validate_transition v c with
  | Ok vc => vc_next vc
  | Err _ => v
  end.

Definition history (family_id : FamilyId) (root_alloc : AllocationId) (cs : list FamilyChange)
    : FamilyView :=
  foldl apply_change (founded family_id root_alloc) cs.

Lemma apply_change_wf v c : view_wf v -> view_wf (apply_change v c).
Proof.
  intros Hwf. unfold apply_change. destruct (validate_transition v c) as [vc|] eqn:E; [|done].
  eapply family_step_wf; [done|]. by apply accepted_step.
Qed.

Lemma founded_wf f a : view_wf (founded f a).
Proof. by split. Qed.

Lemma history_wf f a cs : view_wf (history f a cs).
Proof.
  unfold history. generalize (founded_wf f a). generalize (founded f a).
  induction cs as [|c cs IH]; intros v Hv; [done|]. simpl. by apply IH, apply_change_wf.
Qed.

(** ** Refusals *)

(** The state a change needs its row to be in. *)
Definition needs_state (c : FamilyChange) : option (MemberName * MemberState) :=
  match c with
  | RecordError n _ | MarkReady n _ => Some (n, Creating)
  | MarkDisposing n _ => Some (n, Ready)
  | _ => None
  end.

(** What a refusal says is so of the index and of the change it refuses. *)
Definition refusal_fact (v : FamilyView) (c : FamilyChange) (r : Refusal) : Prop :=
  match r with
  | NameCollision name p o => exists row holder, c = Allocate name row /\
      bt_get (view_members v) name = Some holder /\ p = row_path holder /\ o = row_owner holder
  | RefPathNotNormalised name p norm => exists row, c = Allocate name row /\
      p = row_path row /\ normalize p = Ok (mkMemberPath norm) /\ norm <> p
  | AllocationCollision name holder => exists row, c = Allocate name row /\
      ((holder = ROOT_NAME /\ row_allocation row = root_allocation (view_root v)) \/
       exists n other, holder = name_str n /\ n <> name /\
         bt_get (view_members v) n = Some other /\ row_allocation other = row_allocation row)
  | PathCollision p holder => exists name row n other, c = Allocate name row /\
      p = row_path row /\ holder = name_str n /\
      bt_get (view_members v) n = Some other /\ row_path other = p
  | NestedPath p other => exists name row, c = Allocate name row /\ p = row_path row /\
      ((other = ROOT_PATH /\ is_ok (normalize p) = false) \/
       exists n r, bt_get (view_members v) n = Some r /\ other = row_path r /\ other <> p /\
         overlaps (relate (mkMemberPath p) (mkMemberPath other)) = true)
  | InvalidRow name _ => exists row, c = Allocate name row /\
      (row_state row <> Creating \/ ~ row_wf row)
  | NotFound name => bt_get (view_members v) name = None /\
      (fst <$> needs_state c = Some name \/ exists reason, c = RemoveRow name reason)
  | WrongState name expected actual => needs_state c = Some (name, expected) /\
      actual <> expected /\ row_state <$> bt_get (view_members v) name = Some actual
  | AllocationMismatch name expected actual =>
      (c = MarkReady name expected \/ c = MarkDisposing name expected) /\
      actual <> expected /\ row_allocation <$> bt_get (view_members v) name = Some actual
  | NotDisposing name actual => c = RemoveRow name Disposed /\
      actual <> Disposing /\ row_state <$> bt_get (view_members v) name = Some actual
  end.

Lemma require_err v name r :
  require v name = Err r -> r = NotFound name /\ bt_get (view_members v) name = None.
Proof. unfold require. destruct (bt_get _ _); naive_solver. Qed.

Lemma expect_state_err name row s r :
  expect_state name row s = Err r -> r = WrongState name s (row_state row) /\ row_state row <> s.
Proof. unfold expect_state. case_bool_decide; naive_solver. Qed.

Lemma expect_allocation_err name row a r :
  expect_allocation name row a = Err r ->
  r = AllocationMismatch name a (row_allocation row) /\ row_allocation row <> a.
Proof. unfold expect_allocation. case_bool_decide; naive_solver. Qed.

Lemma row_wf_no_path row : is_ok (validate_path (row_path row)) = false -> ~ row_wf row.
Proof.
  intros H [Hp _]. assert (validate_path (row_path row) = Ok (row_at row)) as E.
  { by apply validate_path_shape. }
  by rewrite E in H.
Qed.

(** A refused row path is not the recorded form; [validate] adds only the
    not-normalised refusal to [normalize]'s. *)
Lemma row_path_refused v name row r :
  validate_row_path name (row_path row) = Err r -> refusal_fact v (Allocate name row) r.
Proof.
  intros (e & He & <-)%map_err_err.
  assert (Hno : ~ row_wf row) by (apply row_wf_no_path; by rewrite He).
  unfold validate_path in He. apply rbind_err in He as [He|(m & Hm & He)].
  - destruct e; simpl; eauto; try (exists name, row; split_and!; [done..|left]; split; [done|];
      by rewrite He).
    pose proof (normalize_verdict_holds (row_path row)) as Hv. rewrite He in Hv. by destruct Hv.
  - case_bool_decide as E; [done|]. simplify_eq. simpl. exists row. split_and!; [done..| |done].
    rewrite Hm. by destruct m.
Qed.

Lemma source_path_refused name row r :
  validate_source_path name row (row_at row) = Err r ->
  exists d, r = InvalidRow name d /\ ~ row_wf row.
Proof.
  intros H. assert (Hno : ~ row_wf row).
  { intros [_ Hs]. apply (validate_source_path_ok name row (row_at row)) in Hs; [|done]. congruence. }
  unfold validate_source_path in H. case_bool_decide; [done|].
  apply rbind_err in H as [(e & _ & <-)%map_err_err|(m & _ & H)]; [eauto|].
  case_bool_decide; [|done]. simplify_eq. eauto.
Qed.

Lemma path_refused v name row r :
  view_wf v -> member_path_wf (row_at row) ->
  check_path_available v (row_at row) = Err r -> refusal_fact v (Allocate name row) r.
Proof.
  intros Hv Hp (l1 & [n other] & l2 & Hl & _ & H)%for_each_err.
  assert (Hg : bt_get (view_members v) n = Some other) by (apply bt_elem_get; rewrite Hl; set_solver).
  apply rbind_err in H as [H|(m & [-> Hm]%validate_row_path_ok & H)].
  - destruct (vw_rows v Hv _ _ Hg) as [Hp' _].
    by rewrite (proj2 (validate_row_path_ok n (row_path other) _) (conj eq_refl Hp')) in H.
  - pose proof (relate_same (row_at row) (row_at other)) as Hs.
    unfold overlap_refusal, row_at in *.
    destruct (relate _ _) eqn:E; simplify_eq; simpl.
    + exists name, row, n, other. split_and!; try done.
      pose proof (proj1 Hs eq_refl) as Eq. congruence.
    + exists name, row. split_and!; [done..|]. right. exists n, other. rewrite E. split_and!; try done.
      intros E'. rewrite E' in Hs. by pose proof (proj2 Hs eq_refl).
    + exists name, row. split_and!; [done..|]. right. exists n, other. rewrite E. split_and!; try done.
      intros E'. rewrite E' in Hs. by pose proof (proj2 Hs eq_refl).
Qed.

Lemma allocation_refused v name row r :
  check_allocation_available v name (row_allocation row) = Err r ->
  refusal_fact v (Allocate name row) r.
Proof.
  unfold check_allocation_available. case_bool_decide as E.
  - intros [= <-]. simpl. eauto 6.
  - intros (l1 & [n other] & l2 & Hl & _ & H)%for_each_err.
    assert (Hg : bt_get (view_members v) n = Some other) by (apply bt_elem_get; rewrite Hl; set_solver).
    do 2 case_bool_decide; simplify_eq/=. eauto 12.
Qed.

Lemma refusals_truthful v c r :
  view_wf v -> validate_transition v c = Err r -> refusal_fact v c r.
Proof.
  intros Hwf H. unfold validate_transition in H. apply rbind_err in H as [H|(? & _ & [=])].
  destruct c as [name row|name e|name a|name a|name reason|]; [| | | | |done].
  - case_bool_decide as Hst; simpl in H; [|simplify_eq; simpl; eauto].
    apply rbind_err in H as [H|(p & [-> Hp]%validate_row_path_ok & H)]; [by apply row_path_refused|].
    apply rbind_err in H as [(d & -> & Hno)%source_path_refused|([] & _ & H)]; [simpl; eauto|].
    apply rbind_err in H as [H|([] & _ & H)].
    { unfold check_name_available in H. case_match; simplify_eq. simpl. eauto 8. }
    apply rbind_err in H as [H|([] & _ & H)]; [by apply path_refused|].
    apply rbind_err in H as [H|([] & _ & [=])]. by apply allocation_refused.
  - apply rbind_err in H as [[-> ?]%require_err|(row & Hg%require_ok & H)]; [simpl; eauto|].
    apply rbind_err in H as [[-> ?]%expect_state_err|([] & _ & [=])]. simpl. by rewrite Hg.
  - apply rbind_err in H as [[-> ?]%require_err|(row & Hg%require_ok & H)]; [simpl; eauto|].
    apply rbind_err in H as [[-> ?]%expect_state_err|([] & _ & H)]; [simpl; by rewrite Hg|].
    apply rbind_err in H as [[-> ?]%expect_allocation_err|([] & _ & [=])]. simpl. rewrite Hg. eauto.
  - apply rbind_err in H as [[-> ?]%require_err|(row & Hg%require_ok & H)]; [simpl; eauto|].
    apply rbind_err in H as [[-> ?]%expect_state_err|([] & _ & H)]; [simpl; by rewrite Hg|].
    apply rbind_err in H as [[-> ?]%expect_allocation_err|([] & _ & [=])]. simpl. rewrite Hg. eauto.
  - apply rbind_err in H as [[-> ?]%require_err|(row & Hg%require_ok & H)]; [simpl; eauto|].
    do 2 case_bool_decide; simplify_eq/=. by rewrite Hg.
Qed.

(** ** One step, seen from one name *)

(** The identity of a row: all it says that no change may alter. *)
Definition row_identity (row : MemberRow) :=
  (row_path row, row_kind row, row_allocation row, row_source row, row_mode row, row_owner row).

(** The moves of one surviving row. *)
Inductive row_move : MemberRow -> MemberRow -> Prop :=
| move_stay row : row_move row row
| move_error row e : row_state row = Creating -> row_move row (set_last_error row (Some e))
| move_ready row : row_state row = Creating ->
    row_move row (set_last_error (set_state row Ready) None)
| move_disposing row : row_state row = Ready -> row_move row (set_state row Disposing).

(** What one change may do to what the index says of one name. *)
Definition name_move (c : FamilyChange) (name : MemberName) (before after : option MemberRow) : Prop :=
  match before, after with
  | None, None => True
  | None, Some row => c = Allocate name row /\ row_state row = Creating
  | Some row, None =>
      c = Disband \/ exists reason, c = RemoveRow name reason /\
        (reason = Disposed -> row_state row = Disposing)
  | Some row, Some row' => row_identity row' = row_identity row /\ row_move row row'
  end.

Lemma name_move_stay c name o : name_move c name o o.
Proof. destruct o; simpl; [|done]. split; [done|constructor]. Qed.

Lemma updates_move v v' c name o :
  updates v v' name o -> name_move c name (bt_get (view_members v) name) o ->
  forall n, name_move c n (bt_get (view_members v) n) (bt_get (view_members v') n).
Proof.
  intros (_ & _ & Hg & Ho) Hm n. destruct (decide (n = name)) as [->|Hne]; [by rewrite Hg|].
  rewrite Ho by done. apply name_move_stay.
Qed.

Lemma family_step_moves v c v' :
  family_step v c v' ->
  forall n, name_move c n (bt_get (view_members v) n) (bt_get (view_members v') n).
Proof.
  intros [name row ? Had Hu|name row e ? Hg Hs Hu|name row ? Hg Hs Hu
    |name row ? Hg Hs Hu|name row reason ? Hg Hs Hu|? Hf Hr Hn] n;
    try (eapply updates_move; [done|]; rewrite ?Hg; simpl; (split; [done|by constructor])).
  - eapply updates_move; [done|]. destruct Had as [? ? -> _ _]. done.
  - eapply updates_move; [done|]. rewrite Hg. simpl. eauto.
  - rewrite Hn. destruct (bt_get _ n); simpl; auto.
Qed.

Lemma family_step_same_family v c v' :
  family_step v c v' -> view_family_id v' = view_family_id v /\ view_root v' = view_root v.
Proof.
  intros [? ? ? ? (? & ? & _)|? ? ? ? ? ? (? & ? & _)|? ? ? ? ? (? & ? & _)|? ? ? ? ? (? & ? & _)
    |? ? ? ? ? ? (? & ? & _)|]; done.
Qed.

(** ** Main theorems *)

(** A small family, for the instances below. *)
Definition demo_row (path source : string) (alloc : string) (st : MemberState) : MemberRow :=
  {| row_path := lit path; row_kind := Checkout; row_state := st;
     row_allocation := mkAllocationId (lit alloc); row_source := lit source;
     row_mode := Verbatim; row_last_error := None; row_owner := None |}.

Definition demo_name (s : string) : MemberName := mkMemberName (lit s).

Definition demo_view : FamilyView :=
  history (mkFamilyId (lit "fam")) (mkAllocationId (lit "r"))
    [Allocate (demo_name "A") (demo_row "../ws-A" "." "a1" Creating);
     MarkReady (demo_name "A") (mkAllocationId (lit "a1"));
     Allocate (demo_name "B") (demo_row "../ws-B" "../ws-A" "b1" Creating)].

(** Validating a decoded index is exact. [validate_view] accepts an index
    iff every row has a recorded-form path and a source that is the root or
    another recorded-form path, every allocation id is used once and is not
    the root's, and no two member paths are equal or nested. *)
Theorem validate_view_exact (v : FamilyView) : validate_view v = Ok tt <-> view_wf v.
Proof. apply validate_view_wf. Qed.

(** C24: every index reachable from a freshly founded family by any sequence
    of requested changes, refused ones included, passes [validate_view]; so
    two members never share an allocation id and never have equal or nested
    paths. *)
Theorem history_stays_valid (f : FamilyId) (a : AllocationId) (cs : list FamilyChange) :
  validate_view (history f a cs) = Ok tt /\
  forall n1 r1 n2 r2,
    bt_get (view_members (history f a cs)) n1 = Some r1 ->
    bt_get (view_members (history f a cs)) n2 = Some r2 ->
    row_allocation r1 = row_allocation r2 \/ overlaps (relate (row_at r1) (row_at r2)) = true ->
    n1 = n2.
Proof.
  pose proof (history_wf f a cs) as Hwf. split; [by apply validate_view_wf|].
  intros n1 r1 n2 r2 H1 H2 Hor. destruct (decide (n1 = n2)) as [|Hne]; [done|exfalso].
  destruct Hor as [Ha|Ho]; [by eapply vw_allocations|].
  by erewrite vw_disjoint in Ho by done.
Qed.

(** C1: refinement. On an index that [validate_view] accepts,
    [validate_transition] accepts a change with a next view iff the abstract
    lifecycle has that step, and it reports the change it was given. *)
Theorem transition_refines_lifecycle (v : FamilyView) (c : FamilyChange) (vc : ValidatedChange)
    (Hv : validate_view v = Ok tt) :
  validate_transition v c = Ok vc <-> vc_change vc = c /\ family_step v c (vc_next vc).
Proof.
  apply validate_view_wf in Hv. split; [by apply accepted_step|].
  intros [Hc Hs]. apply step_accepted in Hs; [|done]. destruct vc; simpl in *; congruence.
Qed.

Lemma transition_refines_lifecycle_witness :
  family_step demo_view
    (MarkReady (demo_name "B") (mkAllocationId (lit "b1")))
    (apply_change demo_view (MarkReady (demo_name "B") (mkAllocationId (lit "b1")))).
Proof.
  refine (proj2 (proj1 (transition_refines_lifecycle demo_view
    (MarkReady (demo_name "B") (mkAllocationId (lit "b1")))
    {| vc_change := MarkReady (demo_name "B") (mkAllocationId (lit "b1"));
       vc_next := apply_change demo_view
         (MarkReady (demo_name "B") (mkAllocationId (lit "b1"))) |} _) _));
    vm_compute; reflexivity.
Defined.

(** The frame of a transition. An accepted change keeps the family id and
    the root entry. For every name, the row it leaves behind keeps its path,
    kind, mode, source, allocation and owner, and moves only creating to
    ready to disposing, an error being recorded only while creating; a new row
    is the allocated one and is creating; a row goes only by its own removal
    or by disbanding, and as disposed only from disposing. *)
Theorem transition_moves (v : FamilyView) (c : FamilyChange) (vc : ValidatedChange)
    (Hv : validate_view v = Ok tt) (Hc : validate_transition v c = Ok vc) :
  view_family_id (vc_next vc) = view_family_id v /\ view_root (vc_next vc) = view_root v /\
  forall name, name_move c name
    (bt_get (view_members v) name) (bt_get (view_members (vc_next vc)) name).
Proof.
  apply validate_view_wf in Hv. apply accepted_step in Hc as [_ Hs]; [|done].
  destruct (family_step_same_family _ _ _ Hs). split_and!; [done..|]. by apply family_step_moves.
Qed.

Lemma transition_moves_witness :
  name_move (RemoveRow (demo_name "A") Keep) (demo_name "B")
    (bt_get (view_members demo_view) (demo_name "B"))
    (bt_get (view_members (apply_change demo_view (RemoveRow (demo_name "A") Keep))) (demo_name "B")).
Proof.
  refine (proj2 (proj2 (transition_moves demo_view (RemoveRow (demo_name "A") Keep)
    {| vc_change := RemoveRow (demo_name "A") Keep;
       vc_next := apply_change demo_view (RemoveRow (demo_name "A") Keep) |} _ _)) _);
    vm_compute; reflexivity.
Defined.

(** Refusals are truthful. On a valid index, what a refusal names is so:
    the holder of a taken name, path or allocation exists and holds it, a
    nesting refusal names the root or an overlapping row, the reported
    normal form is the path's, and a missing row, a wrong state or a wrong
    allocation is the row's. *)
Theorem refusal_truthful (v : FamilyView) (c : FamilyChange) (r : Refusal)
    (Hv : validate_view v = Ok tt) (Hr : validate_transition v c = Err r) :
  refusal_fact v c r.
Proof. apply validate_view_wf in Hv. by apply refusals_truthful. Qed.

Lemma refusal_truthful_witness :
  refusal_fact demo_view
    (Allocate (demo_name "C") (demo_row "../ws-A/sub" "." "c1" Creating))
    (NestedPath (lit "../ws-A/sub") (lit "../ws-A")).
Proof. apply refusal_truthful; vm_compute; reflexivity. Defined.
