(* ===== verification/SessionContract.v ===== *)
(** The session channel's contract (src/crates/session-contract/src/):
    frames, the tag registry and the frame checks (frame.rs), lanes, keys,
    endings and the sink trait (channel.rs), the channel's limits
    (limits.rs). Bytes are numbers below 256, a body is a list of bytes. *)

From S2P Require Export RustText.

(** ** Frames and tags *)

Definition MAX_FRAME_BYTES : N := 64 * 1024 * 1024.

Inductive Tag : Type :=
| SessionCall | SessionReply | SessionError | SessionOpen | SessionOpened
| SessionHello | ServerControl | ServerState | TransportData | TransportControl.

#[global] Instance Tag_eq_dec : EqDecision Tag.
Proof. solve_decision. Defined.

Inductive FrameError : Type :=
| UnknownTag (tag : N)
| ReservedTag (tag : N)
| ByteStreamOnly (tag : N)
| TooLarge (size : N)
| FrameEmpty.

#[global] Instance FrameError_eq_dec : EqDecision FrameError.
Proof. solve_decision. Defined.

Inductive Carrier : Type := CarrierInProcess | CarrierByteStream.

#[global] Instance Carrier_eq_dec : EqDecision Carrier.
Proof. solve_decision. Defined.

Record Frame : Type := mkFrame { frame_tag : N; frame_body : list N }.

#[global] Instance Frame_eq_dec : EqDecision Frame.
Proof. solve_decision. Defined.

(** [Tag::ALL] and [Tag::byte]. *)
Definition tag_all : list Tag :=
  [SessionCall; SessionReply; SessionError; SessionOpen; SessionOpened;
   SessionHello; ServerControl; ServerState; TransportData; TransportControl].

Definition tag_byte (t : Tag) : N :=
  match t with
  | SessionCall => 1 | SessionReply => 2 | SessionError => 3 | SessionOpen => 4
  | SessionOpened => 5 | SessionHello => 6 | ServerControl => 7 | ServerState => 8
  | TransportData => 16 | TransportControl => 17
  end%N.

(** [RESERVED_TAGS]: 18 to 31. *)
Definition reserved_tag (byte : N) : bool := ((18 <=? byte) && (byte <=? 31))%N.

Definition tag_from_byte (byte : N) : result Tag FrameError :=
  if (byte =? 1)%N then Ok SessionCall
  else if (byte =? 2)%N then Ok SessionReply
  else if (byte =? 3)%N then Ok SessionError
  else if (byte =? 4)%N then Ok SessionOpen
  else if (byte =? 5)%N then Ok SessionOpened
  else if (byte =? 6)%N then Ok SessionHello
  else if (byte =? 7)%N then Ok ServerControl
  else if (byte =? 8)%N then Ok ServerState
  else if (byte =? 16)%N then Ok TransportData
  else if (byte =? 17)%N then Ok TransportControl
  else if reserved_tag byte then Err (ReservedTag byte)
  else Err (UnknownTag byte).

Definition byte_stream_only (t : Tag) : bool :=
  match t with
  | SessionOpen | SessionOpened | SessionHello | ServerControl | ServerState => true
  | _ => false
  end.

(** [Carrier::tag]. *)
Definition carrier_tag (carrier : Carrier) (byte : N) : result Tag FrameError :=
  match tag_from_byte byte with
  | Ok tag =>
      if byte_stream_only tag && bool_decide (carrier = CarrierInProcess)
      then Err (ByteStreamOnly byte) else Ok tag
  | answer => answer
  end.

(** [Frame::new], [Frame::size], [Frame::check_size], [Frame::check]. *)
Definition new_frame (tag : Tag) (body : list N) : Frame :=
  {| frame_tag := tag_byte tag; frame_body := body |}.

Definition frame_size (f : Frame) : N := saturating_add (N.of_nat (length (frame_body f))) 1.

Definition check_size (size : N) : result unit FrameError :=
  if (size =? 0)%N then Err FrameEmpty
  else if (MAX_FRAME_BYTES <? size)%N then Err (TooLarge size)
  else Ok tt.

Definition frame_check (f : Frame) (carrier : Carrier) : result Tag FrameError :=
  check? check_size (frame_size f) in carrier_tag carrier (frame_tag f).

(** ** Lanes, keys and endings *)

Inductive Lane : Type := LaneCall | LaneControl.
Inductive Class_ : Type := ClassControl | ClassOrdinary.

#[global] Instance Lane_eq_dec : EqDecision Lane.
Proof. solve_decision. Defined.
#[global] Instance Class_eq_dec : EqDecision Class_.
Proof. solve_decision. Defined.

(** [Target] is the opaque [u64] that orders are kept for. *)
Record FrameKey : Type := mkFrameKey { key_class : Class_; key_target : N }.

#[global] Instance FrameKey_eq_dec : EqDecision FrameKey.
Proof. solve_decision. Defined.

Definition control_key (target : N) : FrameKey := mkFrameKey ClassControl target.
Definition ordinary_key (target : N) : FrameKey := mkFrameKey ClassOrdinary target.

(** The I/O error kinds the sources name, and every other one by a code. *)
Inductive ErrorKind : Type :=
| BrokenPipe | ConnectionReset | ConnectionAborted | NotConnected | UnexpectedEof
| Interrupted | InvalidInput | WriteZero | OtherKind | KindCode (code : N).

#[global] Instance ErrorKind_eq_dec : EqDecision ErrorKind.
Proof. solve_decision. Defined.

Inductive Closed : Type :=
| ClosedLocal
| ClosedPeer
| ClosedProtocol (error : FrameError)
| ClosedStream (kind : ErrorKind).

#[global] Instance Closed_eq_dec : EqDecision Closed.
Proof. solve_decision. Defined.

Inductive SendError : Type :=
| SendFull (frame : Frame)
| SendClosed (frame : Frame) (closed : Closed).

#[global] Instance SendError_eq_dec : EqDecision SendError.
Proof. solve_decision. Defined.

(** [SendError::into_frame] and [SendError::closed]. *)
Definition into_frame (e : SendError) : Frame :=
  match e with SendFull frame | SendClosed frame _ => frame end.

Definition send_closed (e : SendError) : option Closed :=
  match e with SendFull _ => None | SendClosed _ closed => Some closed end.

(** ** Channel limits *)

Record Limits : Type := mkLimits { outstanding_calls : N; control_reserve : N }.

Inductive LimitsError : Type := NoOutstandingCalls | NoControlReserve | LimitsOverflow.

Definition DEFAULT_OUTSTANDING_CALLS : N := 1024.
Definition DEFAULT_CONTROL_RESERVE : N := 64.

(** [Limits::new], [Limits::lane_capacity], [Limits::queue_capacity] (whose
    sum wraps at the width of [usize]) and [Limits::default]. *)
Definition new_limits (calls reserve : N) : result Limits LimitsError :=
  if (calls =? 0)%N then Err NoOutstandingCalls
  else if (reserve =? 0)%N then Err NoControlReserve
  else match checked_add calls reserve with
  | None => Err LimitsOverflow
  | Some _ => Ok {| outstanding_calls := calls; control_reserve := reserve |}
  end.

Definition lane_capacity (l : Limits) (lane : Lane) : N :=
  match lane with
  | LaneCall => outstanding_calls l
  | LaneControl => control_reserve l
  end.

Definition queue_capacity (l : Limits) : N :=
  ((outstanding_calls l + control_reserve l) mod (usize_max + 1))%N.

Definition default_limits : Limits :=
  {| outstanding_calls := DEFAULT_OUTSTANDING_CALLS; control_reserve := DEFAULT_CONTROL_RESERVE |}.

Definition limits_wf (l : Limits) : Prop :=
  new_limits (outstanding_calls l) (control_reserve l) = Ok l.

(** ** The sink interface

    [FrameSink] as a class of state-passing operations, and what the trait's
    documentation promises of every adapter as laws: the frame of a failed
    send comes back, a full lane changes nothing, an ended end stays ended
    for the reason that stands and every send then fails with that reason. *)
Class FrameSink (S : Type) : Type := {
  sink_ended : S -> option Closed;
  sink_send : S -> Frame -> Lane -> FrameKey -> S * result unit SendError;
  sink_close : S -> S;
}.

Class FrameSinkLaws (S : Type) `{FrameSink S} : Prop := {
  send_returns_frame s s' f lane key e :
    sink_send s f lane key = (s', Err e) -> into_frame e = f;
  send_full_unchanged s s' f f' lane key :
    sink_send s f lane key = (s', Err (SendFull f')) -> s' = s;
  send_after_end s f lane key c :
    sink_ended s = Some c ->
    exists s', sink_send s f lane key = (s', Err (SendClosed f c)) /\ sink_ended s' = Some c;
  close_ends s : exists c, sink_ended (sink_close s) = Some c;
  close_keeps_reason s c : sink_ended s = Some c -> sink_ended (sink_close s) = Some c;
}.

(** A caller's use of one end: a list of sends and closes, with the results
    of the sends. *)
Inductive SinkOp : Type :=
| OpSend (frame : Frame) (lane : Lane) (key : FrameKey)
| OpClose.

Section sink_clients.
Context {S : Type} `{FrameSinkLaws S}.

Fixpoint run_sink (s : S) (ops : list SinkOp) : S * list (result unit SendError) :=
  match ops with
  | [] => (s, [])
  | OpSend f lane key :: ops' =>
      let '(s1, r) := sink_send s f lane key in
      let '(s2, rs) := run_sink s1 ops' in (s2, r :: rs)
  | OpClose :: ops' => run_sink (sink_close s) ops'
  end.

Fixpoint sent_frames (ops : list SinkOp) : list Frame :=
  match ops with
  | [] => []
  | OpSend f _ _ :: ops' => f :: sent_frames ops'
  | OpClose :: ops' => sent_frames ops'
  end.

Lemma run_sink_ended s ops c :
  sink_ended s = Some c ->
  sink_ended (run_sink s ops).1 = Some c /\
  (run_sink s ops).2 = (fun f => Err (SendClosed f c)) <$> sent_frames ops.
Proof.
  revert s. induction ops as [|[f lane key|] ops IH]; intros s Hs; [done| |]; simpl.
  - destruct (send_after_end s f lane key c Hs) as (s' & -> & Hs').
    destruct (IH s' Hs') as [He Hr]. destruct (run_sink s' ops). simpl in *. by rewrite Hr.
  - apply IH. by apply close_keeps_reason.
Qed.

Lemma run_sink_frames_back s ops i e f :
  (run_sink s ops).2 !! i = Some (Err e) -> sent_frames ops !! i = Some f -> into_frame e = f.
Proof.
  revert s i. induction ops as [|[f' lane key|] ops IH]; intros s i; simpl; [done| |].
  - destruct (sink_send s f' lane key) as [s1 r] eqn:E.
    specialize (IH s1). destruct (run_sink s1 ops) as [s2 rs]. simpl in *.
    destruct i as [|i]; simpl; [|by apply IH]. intros; simplify_eq. by eapply send_returns_frame.
  - apply IH.
Qed.

End sink_clients.

(** ** Lemmas *)

Lemma tag_from_byte_ok b t : tag_from_byte b = Ok t <-> b = tag_byte t.
Proof.
  split.
  - unfold tag_from_byte. intros H.
    repeat match type of H with
    | (if ?c then _ else _) = _ => destruct c eqn:E; [try apply N.eqb_eq in E; simplify_eq; done|clear E]
    end. done.
  - intros ->. by destruct t.
Qed.

Lemma carrier_tag_ok carrier b t :
  carrier_tag carrier b = Ok t <->
  b = tag_byte t /\ (byte_stream_only t = true -> carrier = CarrierByteStream).
Proof.
  unfold carrier_tag. rewrite <- tag_from_byte_ok. destruct (tag_from_byte b) as [t'|]; [|split; [done|by intros [? _]]].
  destruct (byte_stream_only t' && _) eqn:E.
  - apply andb_true_iff in E as [E1 E2%bool_decide_eq_true]. split; [done|].
    intros [[= ->] Hc]. by rewrite Hc in E2.
  - split; [|by intros [[= ->] _]]. intros [= ->]. split; [done|]. intros Ht.
    rewrite Ht in E. simpl in E. apply bool_decide_eq_false in E. by destruct carrier.
Qed.

Lemma check_size_ok n : check_size n = Ok tt <-> (0 < n <= MAX_FRAME_BYTES)%N.
Proof.
  unfold check_size. destruct (N.eqb_spec n 0) as [->|]; [split; [done|lia]|].
  destruct (N.ltb_spec MAX_FRAME_BYTES n); split; try done; lia.
Qed.

Lemma frame_limits_fit :
  MAX_FRAME_BYTES = 67108864%N /\ u32_max = 4294967295%N /\ usize_max = 18446744073709551615%N.
Proof. done. Qed.

Lemma frame_size_small f :
  (frame_size f <= MAX_FRAME_BYTES)%N <-> (N.of_nat (length (frame_body f)) + 1 <= MAX_FRAME_BYTES)%N.
Proof. unfold frame_size, saturating_add, usize_max, u64_max, MAX_FRAME_BYTES. lia. Qed.

Lemma frame_check_ok f carrier t :
  frame_check f carrier = Ok t <->
  (N.of_nat (length (frame_body f)) < MAX_FRAME_BYTES)%N /\ frame_tag f = tag_byte t /\
  (byte_stream_only t = true -> carrier = CarrierByteStream).
Proof.
  unfold frame_check. rewrite rbind_ok. setoid_rewrite carrier_tag_ok.
  pose proof (frame_size_small f) as Hs. split.
  - intros ([] & ?%check_size_ok & ? & ?). split_and!; try done. lia.
  - intros (Hl & ? & ?). exists tt. split_and!; try done. apply check_size_ok.
    split; [|apply Hs; lia]. unfold frame_size, saturating_add, usize_max, u64_max. lia.
Qed.

(** ** Main theorems *)

(** The frame check is exact. A carrier carries a frame iff its body and
    tag byte fit 64 MiB, its tag byte is a registry tag's, and a handshake or
    control tag travels on a byte stream; the tag it answers is that tag. *)
Theorem frame_check_exact (f : Frame) (carrier : Carrier) (t : Tag) :
  frame_check f carrier = Ok t <->
  (N.of_nat (length (frame_body f)) < MAX_FRAME_BYTES)%N /\ frame_tag f = tag_byte t /\
  (byte_stream_only t = true -> carrier = CarrierByteStream).
Proof. apply frame_check_ok. Qed.

(** Channel limits are exact: they are accepted iff both are at least one
    and their sum fits a [usize], and then the sum a queue's capacity is
    computed with does not wrap and each lane has its own room. *)
Theorem channel_limits_exact (calls reserve : N) (l : Limits) :
  new_limits calls reserve = Ok l <->
  (0 < calls)%N /\ (0 < reserve)%N /\ (calls + reserve <= usize_max)%N /\
  l = mkLimits calls reserve /\
  queue_capacity l = (lane_capacity l LaneCall + lane_capacity l LaneControl)%N.
Proof.
  unfold new_limits, checked_add. destruct (N.eqb_spec calls 0); [split; [done|lia]|].
  destruct (N.eqb_spec reserve 0); [split; [done|lia]|].
  destruct (N.leb_spec (calls + reserve) usize_max) as [Hs|Hs]; [|split; [done|lia]].
  split.
  - intros [= <-]. split_and!; try done; try lia. unfold queue_capacity. simpl.
    apply N.mod_small. lia.
  - by intros (_ & _ & _ & -> & _).
Qed.
