(* ===== verification/WriteQueue.v ===== *)
(** The byte-stream writer's order (src/crates/session-channel/src/):
    the queue of frames waiting for the writer (write_queue.rs) and the
    senders that take turns by it ([Turns] of byte_stream.rs). *)

From S2P Require Export SessionContract.

(** ** The queue *)

Definition SESSION_CALL_TAG : N := 1.

Record Entry (T : Type) : Type := mkEntry { entry_item : T; entry_tag : N; entry_key : FrameKey }.
Arguments mkEntry {T} _ _ _.
Arguments entry_item {T} _.
Arguments entry_tag {T} _.
Arguments entry_key {T} _.

Record WriteQueue (T : Type) : Type := mkWriteQueue { entries : list (Entry T) }.
Arguments mkWriteQueue {T} _.
Arguments entries {T} _.

Section queue.
Context {T : Type}.
Implicit Types (e before : Entry T) (q : WriteQueue T).

(** [Entry::control]. *)
Definition entry_control e : bool := bool_decide (key_class (entry_key e) = ClassControl).

Definition new_queue : WriteQueue T := {| entries := [] |}.
Definition queue_push q (item : T) (tag : N) (key : FrameKey) : WriteQueue T :=
  {| entries := entries q ++ [mkEntry item tag key] |}.
Definition queue_len q : nat := length (entries q).
Definition queue_is_empty q : bool := match entries q with [] => true | _ => false end.

(** The closure of [next_index]'s [any]: an earlier frame that holds a
    control frame back. *)
Definition holds_back e before : bool :=
  (entry_tag before =? SESSION_CALL_TAG)%N ||
  (key_target (entry_key before) =? key_target (entry_key e))%N.

(** [next_index]'s [enumerate().find(..)]: [seen] are the entries before. *)
Fixpoint find_unblocked (seen rest : list (Entry T)) : option nat :=
  match rest with
  | [] => None
  | e :: rest' =>
      if entry_control e && negb (existsb (holds_back e) seen) then Some (length seen)
      else find_unblocked (seen ++ [e]) rest'
  end.

Definition next_index q : option nat :=
  if queue_is_empty q then None
  else Some (match find_unblocked [] (entries q) with Some index => index | None => 0 end).

Definition queue_peek q : option T :=
  match next_index q with
  | None => None
  | Some index => entry_item <$> (entries q !! index)
  end.

(** [VecDeque::remove]: nothing out of range. *)
Definition remove_at (l : list (Entry T)) (i : nat) : option (Entry T * list (Entry T)) :=
  match l !! i with
  | Some e => Some (e, take i l ++ drop (S i) l)
  | None => None
  end.

Definition queue_pop q : option T * WriteQueue T :=
  match next_index q with
  | None => (None, q)
  | Some index =>
      match remove_at (entries q) index with
      | Some (e, rest) => (Some (entry_item e), {| entries := rest |})
      | None => (None, q)
      end
  end.

Definition queue_clear q : WriteQueue T := {| entries := [] |}.

(** *** The rule, declaratively *)

(** [a], queued before [b], may be passed by [b]. *)
Definition may_pass (b a : Entry T) : Prop :=
  key_class (entry_key b) = ClassControl /\ entry_tag a <> SESSION_CALL_TAG /\
  key_target (entry_key a) <> key_target (entry_key b).

(** [b] is unblocked after [l1]: control, and it may pass all of [l1]. *)
Definition unblocked (l1 : list (Entry T)) (b : Entry T) : Prop :=
  key_class (entry_key b) = ClassControl /\ Forall (may_pass b) l1.

(** The entry the writer takes next: the oldest unblocked control frame, else
    the oldest frame. *)
Definition picks (l l1 : list (Entry T)) (e : Entry T) (l2 : list (Entry T)) : Prop :=
  l = l1 ++ e :: l2 /\
  ((unblocked l1 e /\ forall k1 c k2, l1 = k1 ++ c :: k2 -> ~ unblocked k1 c) \/
   (l1 = [] /\ forall k1 c k2, l = k1 ++ c :: k2 -> ~ unblocked k1 c)).

Lemma entry_control_true e : entry_control e = true <-> key_class (entry_key e) = ClassControl.
Proof. apply bool_decide_eq_true. Qed.

Lemma unblocked_spec seen e :
  entry_control e && negb (existsb (holds_back e) seen) = true <-> unblocked seen e.
Proof.
  unfold unblocked. rewrite andb_true_iff, entry_control_true, negb_true_iff.
  split; intros [Hc H]; (split; [done|]).
  - apply Forall_forall. intros a Ha. unfold may_pass. split; [done|].
    destruct (holds_back e a) eqn:E.
    + assert (existsb (holds_back e) seen = true) as Hx; [|congruence].
      apply existsb_exists. exists a. by rewrite <- list_elem_of_In.
    + unfold holds_back in E. apply orb_false_iff in E as [?%N.eqb_neq ?%N.eqb_neq]. done.
  - apply not_true_iff_false. intros (a & Ha%list_elem_of_In & Hh)%existsb_exists.
    rewrite Forall_forall in H. destruct (H a Ha) as (_ & Ht & Hk).
    unfold holds_back in Hh. apply orb_true_iff in Hh as [?%N.eqb_eq|?%N.eqb_eq]; done.
Qed.

Lemma find_unblocked_spec seen rest :
  (forall k1 c k2, seen = k1 ++ c :: k2 -> ~ unblocked k1 c) ->
  match find_unblocked seen rest with
  | Some i => exists l1 e l2, seen ++ rest = l1 ++ e :: l2 /\ length l1 = i /\ unblocked l1 e /\
      forall k1 c k2, l1 = k1 ++ c :: k2 -> ~ unblocked k1 c
  | None => forall k1 c k2, seen ++ rest = k1 ++ c :: k2 -> ~ unblocked k1 c
  end.
Proof.
  revert seen. induction rest as [|e rest IH]; intros seen Hs; simpl.
  { by rewrite app_nil_r. }
  destruct (entry_control e && _) eqn:E.
  - apply unblocked_spec in E. exists seen, e, rest. done.
  - specialize (IH (seen ++ [e])). rewrite <- app_assoc in IH. simpl in IH. apply IH.
    intros k1 c k2 Hk. destruct (snoc_inv k2) as [->|(k2' & x & ->)].
    + apply app_inj_tail in Hk as [<- <-]. rewrite <- unblocked_spec. congruence.
    + rewrite app_comm_cons, app_assoc in Hk. apply app_inj_tail in Hk as [-> <-]. by eapply Hs.
Qed.

Lemma remove_at_app l1 e l2 : remove_at (l1 ++ e :: l2) (length l1) = Some (e, l1 ++ l2).
Proof.
  unfold remove_at. rewrite lookup_app_r, Nat.sub_diag by lia. simpl.
  rewrite take_app_length. change (S (length l1)) with (1 + length l1).
  by rewrite Nat.add_comm, drop_app_add.
Qed.

(** [peek] and [pop] agree, and take what the rule picks. *)
Lemma queue_picks q :
  entries q <> [] ->
  exists l1 e l2, picks (entries q) l1 e l2 /\ queue_peek q = Some (entry_item e) /\
    queue_pop q = (Some (entry_item e), {| entries := l1 ++ l2 |}).
Proof.
  intros Hne. unfold queue_peek, queue_pop, next_index, queue_is_empty.
  pose proof (find_unblocked_spec [] (entries q)) as H. simpl in H.
  destruct (entries q) as [|e0 l] eqn:Eq; [done|].
  destruct (find_unblocked [] (e0 :: l)) as [i|].
  - destruct H as (l1 & e & l2 & -> & <- & Hu & Hmin); [by intros [] ?|].
    exists l1, e, l2. rewrite remove_at_app, lookup_app_r, Nat.sub_diag by lia.
    split; [|done]. split; [done|]. by left.
  - exists [], e0, l. split; [|done]. split; [done|]. right. split; [done|]. apply H. by intros [] ?.
Qed.

Lemma queue_empty_pop q : entries q = [] -> queue_peek q = None /\ queue_pop q = (None, q).
Proof.
  intros E. unfold queue_peek, queue_pop, next_index, queue_is_empty. by rewrite E.
Qed.

(** Whatever is picked passes everything before it legally. *)
Lemma picks_may_pass l l1 e l2 : picks l l1 e l2 -> Forall (may_pass e) l1.
Proof. intros [_ [[[_ H] _]|[-> _]]]; [done|constructor]. Qed.

End queue.

(** ** Turns

    [Turns::wait] as the steps a thread takes under the state's lock: joining
    the queue with a fresh ticket, one look of its loop, and the drop of the
    turn. Tickets count from zero and are modelled unbounded (the source's
    [u64] counter would need 2^64 sends to wrap). *)

Record TurnState : Type := mkTurnState {
  ts_queue : WriteQueue nat;
  ts_next : nat;
  ts_busy : bool;
}.

Definition turns_default : TurnState :=
  {| ts_queue := new_queue; ts_next := 0; ts_busy := false |}.

Definition turn_join (st : TurnState) (tag : N) (key : FrameKey) : nat * TurnState :=
  let ticket := ts_next st in
  (ticket, {| ts_queue := queue_push (ts_queue st) ticket tag key;
              ts_next := ts_next st + 1; ts_busy := ts_busy st |}).

(** One turn of the loop: [None] is the wait on the condition variable. *)
Definition turn_look (st : TurnState) (ticket : nat) : option TurnState :=
  if negb (ts_busy st) && bool_decide (queue_peek (ts_queue st) = Some ticket)
  then Some {| ts_queue := (queue_pop (ts_queue st)).2; ts_next := ts_next st; ts_busy := true |}
  else None.

Definition turn_drop (st : TurnState) : TurnState :=
  {| ts_queue := ts_queue st; ts_next := ts_next st; ts_busy := false |}.

(** [ByteStreamEnd::waiting_senders]. *)
Definition waiting_senders (st : TurnState) : nat :=
  queue_len (ts_queue st) + (if ts_busy st then 1 else 0).

(** The senders together: the frames that have asked for the writer, by
    ticket, the tickets that have been given it, in order, and the one that
    holds it. *)
Record TurnSystem : Type := mkTurnSystem {
  sys_state : TurnState;
  sys_asked : list (N * FrameKey);
  sys_given : list nat;
  sys_holder : option nat;
}.

Definition sys_init : TurnSystem :=
  {| sys_state := turns_default; sys_asked := []; sys_given := []; sys_holder := None |}.

Inductive turn_step : TurnSystem -> TurnSystem -> Prop :=
| step_join s tag key :
    turn_step s {| sys_state := (turn_join (sys_state s) tag key).2;
                   sys_asked := sys_asked s ++ [(tag, key)];
                   sys_given := sys_given s; sys_holder := sys_holder s |}
| step_look s ticket st' :
    turn_look (sys_state s) ticket = Some st' ->
    turn_step s {| sys_state := st'; sys_asked := sys_asked s;
                   sys_given := sys_given s ++ [ticket]; sys_holder := Some ticket |}
| step_drop s ticket :
    sys_holder s = Some ticket ->
    turn_step s {| sys_state := turn_drop (sys_state s); sys_asked := sys_asked s;
                   sys_given := sys_given s; sys_holder := None |}.

(** [b] asked after [a] and must not be written before it. *)
Definition must_follow (asked : list (N * FrameKey)) (a b : nat) : Prop :=
  a < b /\ exists ta ka tb kb, asked !! a = Some (ta, ka) /\ asked !! b = Some (tb, kb) /\
    (key_class kb = ClassOrdinary \/ ta = SESSION_CALL_TAG \/ key_target ka = key_target kb).

Definition precedes (a b : nat) (l : list nat) : Prop := exists l1 l2, l = l1 ++ b :: l2 /\ a ∈ l1.

Definition tickets (s : TurnSystem) : list nat := entry_item <$> entries (ts_queue (sys_state s)).

Record turns_inv (s : TurnSystem) : Prop := {
  ti_next : ts_next (sys_state s) = length (sys_asked s);
  ti_sorted : StronglySorted lt (tickets s);
  ti_entries : forall e, e ∈ entries (ts_queue (sys_state s)) ->
    sys_asked s !! entry_item e = Some (entry_tag e, entry_key e);
  ti_all : sys_given s ++ tickets s ≡ₚ seq 0 (length (sys_asked s));
  ti_busy : ts_busy (sys_state s) = true <-> is_Some (sys_holder s);
  ti_order : forall a b, must_follow (sys_asked s) a b -> b ∈ sys_given s ->
    precedes a b (sys_given s);
}.

Lemma precedes_app a b l l' : precedes a b l -> precedes a b (l ++ l').
Proof. intros (l1 & l2 & -> & Ha). exists l1, (l2 ++ l'). by rewrite <- app_assoc. Qed.

Lemma sorted_snoc (l : list nat) (n : nat) :
  StronglySorted lt l -> Forall (fun x => x < n) l -> StronglySorted lt (l ++ [n]).
Proof.
  induction 1 as [|x l Hs IH Hx]; intros Hn; simpl; [by repeat constructor|].
  apply Forall_cons in Hn as [? Hn]. constructor; [by apply IH|].
  apply Forall_app. by repeat constructor.
Qed.

Lemma sorted_drop (l1 l2 : list nat) (n : nat) :
  StronglySorted lt (l1 ++ n :: l2) ->
  StronglySorted lt (l1 ++ l2) /\ Forall (fun x => n < x) l2.
Proof.
  induction l1 as [|x l1 IH]; simpl; intros H; inversion H as [|? ? Hs Hx]; subst; [done|].
  destruct (IH Hs) as [Hs' Hn]. split; [|done]. constructor; [done|].
  rewrite Forall_app, Forall_cons in Hx. rewrite Forall_app. naive_solver.
Qed.

Lemma inv_ticket_lt s t : turns_inv s -> t ∈ sys_given s ++ tickets s -> t < length (sys_asked s).
Proof. intros Hi Ht. rewrite (ti_all s Hi) in Ht. apply elem_of_seq in Ht. lia. Qed.

Lemma join_inv s tag key s' :
  turns_inv s -> s' = {| sys_state := (turn_join (sys_state s) tag key).2;
                         sys_asked := sys_asked s ++ [(tag, key)];
                         sys_given := sys_given s; sys_holder := sys_holder s |} ->
  turns_inv s'.
Proof.
  intros Hi ->. pose proof (inv_ticket_lt s) as Hlt. destruct Hi as [Hn Hs He Ha Hb Ho].
  assert (Ht : tickets {| sys_state := (turn_join (sys_state s) tag key).2;
                 sys_asked := sys_asked s ++ [(tag, key)];
                 sys_given := sys_given s; sys_holder := sys_holder s |}
               = tickets s ++ [length (sys_asked s)]).
  { unfold tickets. simpl. rewrite fmap_app. simpl. by rewrite Hn. }
  split; rewrite ?Ht; simpl; try done.
  - rewrite length_app, Hn. simpl. lia.
  - apply sorted_snoc; [done|]. apply Forall_forall. intros t Hin. apply Hlt; [done|set_solver].
  - intros e [Hin|Hin]%elem_of_app.
    + apply lookup_app_l_Some. auto.
    + apply list_elem_of_singleton in Hin as ->. simpl. rewrite Hn.
      by rewrite lookup_app_r, Nat.sub_diag by lia.
  - rewrite app_assoc, Ha, length_app. simpl. by rewrite seq_app.
  - intros a b (Hab & ta & ka & tb & kb & H1 & H2 & Hc) Hg.
    assert (b < length (sys_asked s)) by (apply Hlt; [done|set_solver]).
    rewrite !lookup_app_l in H1, H2 by lia. apply Ho; [|done]. split; [done|]. eauto 10.
Qed.

(** What a successful look did. *)
Lemma turn_look_some st ticket st' :
  turn_look st ticket = Some st' ->
  ts_busy st = false /\ ts_next st' = ts_next st /\ ts_busy st' = true /\
  exists l1 e l2, entries (ts_queue st) = l1 ++ e :: l2 /\ entry_item e = ticket /\
    Forall (may_pass e) l1 /\ entries (ts_queue st') = l1 ++ l2.
Proof.
  unfold turn_look. destruct (ts_busy st) eqn:Hb; [done|]. simpl.
  case_bool_decide as Hp; [|done]. intros [= <-]. simpl. split_and!; try done.
  destruct (decide (entries (ts_queue st) = [])) as [Hnil|Hne].
  { by rewrite (proj1 (queue_empty_pop _ Hnil)) in Hp. }
  destruct (queue_picks _ Hne) as (l1 & e & l2 & Hpk & Hpeek & ->).
  exists l1, e, l2. split_and!; [apply Hpk|congruence|by eapply picks_may_pass|done].
Qed.

(** Writing the head of the queue keeps the order: what must come first was
    written already, or would be in front and could not be passed. *)
Lemma look_keeps_order s l1 e l2 a :
  turns_inv s -> entries (ts_queue (sys_state s)) = l1 ++ e :: l2 -> Forall (may_pass e) l1 ->
  must_follow (sys_asked s) a (entry_item e) -> a ∈ sys_given s.
Proof.
  intros Hi Hl Hpass (Hlt & ta & ka & tb & kb & H1 & H2 & Hc).
  pose proof (ti_entries s Hi e ltac:(rewrite Hl; set_solver)) as Hke. simplify_eq.
  assert (Hin : a ∈ sys_given s ++ tickets s).
  { rewrite (ti_all s Hi). apply elem_of_seq. apply lookup_lt_Some in H1. lia. }
  apply elem_of_app in Hin as [|Hq]; [done|exfalso].
  pose proof (ti_sorted s Hi) as Hs. unfold tickets in Hq, Hs. rewrite Hl, fmap_app, fmap_cons in Hs, Hq.
  apply sorted_drop in Hs as [_ Hs].
  apply elem_of_app in Hq as [Hq|[->|Hq]%elem_of_cons]; [|lia|].
  - apply list_elem_of_fmap in Hq as (x & -> & Hx). rewrite Forall_forall in Hpass.
    destruct (Hpass x Hx) as (Hcc & Htag & Htgt).
    pose proof (ti_entries s Hi x ltac:(rewrite Hl; set_solver)) as Hkx. simplify_eq.
    destruct Hc as [Hc|[Hc|Hc]]; congruence.
  - rewrite Forall_forall in Hs. specialize (Hs _ Hq). lia.
Qed.

Lemma look_inv s ticket st' s' :
  turns_inv s -> turn_look (sys_state s) ticket = Some st' ->
  s' = {| sys_state := st'; sys_asked := sys_asked s;
          sys_given := sys_given s ++ [ticket]; sys_holder := Some ticket |} ->
  turns_inv s'.
Proof.
  intros Hi (Hbf & Hnx & Hbt & l1 & e & l2 & Hl & <- & Hpass & Hl')%turn_look_some ->.
  pose proof (look_keeps_order s l1 e l2) as Hkeep. pose proof Hi as [Hn Hs He Ha Hb Ho].
  unfold tickets in Hs, Ha. rewrite Hl, fmap_app, fmap_cons in Hs, Ha.
  apply sorted_drop in Hs as [Hs _].
  split; unfold tickets; simpl; rewrite ?Hl', ?fmap_app; try done.
  - congruence.
  - intros x Hx. apply He. rewrite Hl. set_solver.
  - rewrite <- Ha. by rewrite <- app_assoc, <- Permutation_middle.
  - intros a b Hm [Hg|Hg]%elem_of_app; [by apply precedes_app, Ho|].
    apply list_elem_of_singleton in Hg as ->.
    exists (sys_given s), []. split; [done|]. by apply Hkeep.
Qed.

Lemma drop_inv s ticket s' :
  turns_inv s -> sys_holder s = Some ticket ->
  s' = {| sys_state := turn_drop (sys_state s); sys_asked := sys_asked s;
          sys_given := sys_given s; sys_holder := None |} ->
  turns_inv s'.
Proof.
  intros [Hn Hs He Ha Hb Ho] _ ->. split; simpl; done.
Qed.

Lemma turns_reachable s : rtc turn_step sys_init s -> turns_inv s.
Proof.
  revert s. apply rtc_ind_r.
  - split; [done|apply SSorted_nil|by intros e ?%elem_of_nil|done| |by intros a b _ ?%elem_of_nil].
    split; [done|by intros []].
  - intros y z _ Hs Hi. inversion Hs; subst.
    + by eapply join_inv.
    + by eapply look_inv.
    + by eapply drop_inv.
Qed.

(** When the writer is free and someone waits, exactly one ticket's look
    succeeds. *)
Lemma turns_progress st :
  ts_busy st = false -> entries (ts_queue st) <> [] ->
  exists ticket, forall t, is_Some (turn_look st t) <-> t = ticket.
Proof.
  intros Hb Hne. destruct (queue_picks _ Hne) as (l1 & e & l2 & _ & Hp & _).
  exists (entry_item e). intros t. unfold turn_look. rewrite Hb, Hp. simpl.
  case_bool_decide; split; intros; simplify_eq; done.
Qed.

(** ** Main theorems *)

(** The writer's rule. [pop] of a waiting queue takes what [peek] shows:
    the oldest control frame that passes only frames it may pass (no
    [SessionCall] and no frame of its own target), else the oldest frame; the
    rest keep their order. An empty queue gives nothing. *)
Theorem write_queue_rule {T : Type} (q : WriteQueue T) :
  (entries q = [] /\ queue_peek q = None /\ queue_pop q = (None, q)) \/
  exists l1 e l2, picks (entries q) l1 e l2 /\ Forall (may_pass e) l1 /\
    queue_peek q = Some (entry_item e) /\
    queue_pop q = (Some (entry_item e), {| entries := l1 ++ l2 |}).
Proof.
  destruct (entries q) as [|e0 l] eqn:E.
  - left. split; [done|]. by apply queue_empty_pop.
  - right. rewrite <- E. destruct (queue_picks q ltac:(congruence)) as (l1 & e & l2 & Hp & ? & ?).
    exists l1, e, l2. split_and!; try done. by eapply picks_may_pass.
Qed.


(** Two ordinary frames and a control frame of another target ask for the
    writer; the control frame is written second. *)
Definition demo_turns : TurnSystem :=
  {| sys_state := {| ts_queue := {| entries := [mkEntry 1 2%N (ordinary_key 7)] |};
                     ts_next := 3; ts_busy := true |};
     sys_asked := [(2%N, ordinary_key 7); (2%N, ordinary_key 7); (17%N, control_key 9)];
     sys_given := [0; 2]; sys_holder := Some 2 |}.

