(* ===== verification/ByteStream.v ===== *)
(** The byte-stream adapter (src/crates/session-channel/src/byte_stream.rs):
    the frame codec over a reader and a writer, the reader thread's loop, the
    sending side of an end, and the hand-over between the reader and whoever
    ends the session.

    The stream is the caller's: a reader is a script of what its calls of
    [read] give (some bytes, an error, a panic; nothing left is end of
    stream), a writer a script of what its calls of [write] and [flush] do,
    with the bytes it has taken. Both scripts are arbitrary, so a theorem over
    scripts holds for every stream. The router is any function of the frames
    routed so far. *)

From S2P Require Export SessionContract.

(** ** Readers and writers *)

Inductive ReadEvent : Type :=
| Chunk (bytes : list N)
| ReadError (kind : ErrorKind)
| ReadPanic.

(** Why a read did not give what was asked: an error, or an unwinding. *)
Inductive ReadStop : Type :=
| StopClosed (reason : Closed)
| StopPanic.

Inductive WriteEvent : Type :=
| Accept (count : nat)
| WriteError (kind : ErrorKind).

Record Writer : Type := mkWriter {
  w_bytes : list N;
  w_script : list WriteEvent;
  w_flush : list (option ErrorKind);
}.

Definition N_length {A} (l : list A) : N := N.of_nat (length l).

(** ** Reading a frame *)

(** [fill] on a buffer of [want] bytes: what it read and the rest of the
    stream. A call of [read] gives at most what the buffer has room for. *)
Fixpoint fill (stream : list ReadEvent) (want : N) : result (list N) ReadStop * list ReadEvent :=
  if (want =? 0)%N then (Ok [], stream)
  else
    match stream with
    | [] => (Ok [], [])
    | Chunk bytes :: rest =>
        if (want <? N_length bytes)%N then
          (Ok (take (N.to_nat want) bytes), Chunk (drop (N.to_nat want) bytes) :: rest)
        else if bool_decide (bytes = []) then (Ok [], rest)
        else
          let '(r, rest') := fill rest (want - N_length bytes) in
          ((let? more := r in Ok (bytes ++ more)), rest')
    | ReadError Interrupted :: rest => fill rest want
    | ReadError kind :: rest => (Err (StopClosed (ClosedStream kind)), rest)
    | ReadPanic :: rest => (Err StopPanic, rest)
    end.

Definition truncated : Closed := ClosedStream UnexpectedEof.

(** [read_frame]: the tag and the body it read, or why not; the size of the
    body buffer it allocated, if it came to that; the rest of the stream. *)
Definition read_frame (stream : list ReadEvent)
    : result Frame ReadStop * option N * list ReadEvent :=
  match fill stream 4 with
  | (Err stop, s1) => (Err stop, None, s1)
  | (Ok prefix, s1) =>
      if (N_length prefix =? 0)%N then (Err (StopClosed ClosedPeer), None, s1)
      else if negb (N_length prefix =? 4)%N then (Err (StopClosed truncated), None, s1)
      else
        let size := from_le_bytes prefix in
        match check_size size with
        | Err e => (Err (StopClosed (ClosedProtocol e)), None, s1)
        | Ok _ =>
            match fill s1 1 with
            | (Err stop, s2) => (Err stop, None, s2)
            | (Ok [tag], s2) =>
                match carrier_tag CarrierByteStream tag with
                | Err e => (Err (StopClosed (ClosedProtocol e)), None, s2)
                | Ok _ =>
                    match fill s2 (size - 1) with
                    | (Err stop, s3) => (Err stop, Some (size - 1)%N, s3)
                    | (Ok body, s3) =>
                        if (N_length body =? size - 1)%N
                        then (Ok {| frame_tag := tag; frame_body := body |}, Some (size - 1)%N, s3)
                        else (Err (StopClosed truncated), Some (size - 1)%N, s3)
                    end
                end
            | (Ok _, s2) => (Err (StopClosed truncated), None, s2)
            end
        end
  end.

(** ** Writing a frame *)

(** [Write::write_all]: retries interruptions, and takes a write of nothing
    for an error. *)
Fixpoint write_all (script : list WriteEvent) (buf : list N)
    : list N * result unit ErrorKind * list WriteEvent :=
  match buf with
  | [] => ([], Ok tt, script)
  | _ =>
      match script with
      | [] => (buf, Ok tt, [])
      | Accept 0 :: script' => ([], Err WriteZero, script')
      | Accept n :: script' =>
          let '(out, r, script'') := write_all script' (drop n buf) in
          (take n buf ++ out, r, script'')
      | WriteError Interrupted :: script' => write_all script' buf
      | WriteError kind :: script' => ([], Err kind, script')
      end
  end.

Definition write_buf (w : Writer) (buf : list N) : result unit ErrorKind * Writer :=
  let '(out, r, script) := write_all (w_script w) buf in
  (r, {| w_bytes := w_bytes w ++ out; w_script := script; w_flush := w_flush w |}).

Definition flush (w : Writer) : result unit ErrorKind * Writer :=
  match w_flush w with
  | [] => (Ok tt, w)
  | o :: rest =>
      (match o with Some kind => Err kind | None => Ok tt end,
       {| w_bytes := w_bytes w; w_script := w_script w; w_flush := rest |})
  end.

(** The conversion to [u32]: nothing past its range. *)
Definition to_u32 (n : N) : option N := if (n <=? u32_max)%N then Some n else None.

Definition write_frame (w : Writer) (f : Frame) : result unit ErrorKind * Writer :=
  match check_size (frame_size f) with
  | Err _ => (Err InvalidInput, w)
  | Ok _ =>
      match to_u32 (frame_size f) with
      | None => (Err InvalidInput, w)
      | Some size =>
          match write_buf w (to_le_bytes 4 size ++ [frame_tag f]) with
          | (Err e, w1) => (Err e, w1)
          | (Ok _, w1) =>
              match write_buf w1 (frame_body f) with
              | (Err e, w2) => (Err e, w2)
              | (Ok _, w2) => flush w2
              end
          end
      end
  end.

Definition peer_side_failure (kind : ErrorKind) : bool :=
  match kind with
  | BrokenPipe | ConnectionReset | ConnectionAborted | NotConnected | UnexpectedEof => true
  | _ => false
  end.

(** ** What a stream feeds

    The bytes a reader gives before it stops, and how it stops: [None] is end
    of stream. How the bytes are cut into reads, and interruptions, do not
    show. *)
Fixpoint feed (stream : list ReadEvent) : list N * option ReadStop :=
  match stream with
  | [] => ([], None)
  | Chunk bytes :: rest =>
      if bool_decide (bytes = []) then ([], None)
      else let '(more, stop) := feed rest in (bytes ++ more, stop)
  | ReadError Interrupted :: rest => feed rest
  | ReadError kind :: _ => ([], Some (StopClosed (ClosedStream kind)))
  | ReadPanic :: _ => ([], Some StopPanic)
  end.

(** The stop of a read that wanted more than was left: at end of stream, the
    peer's departure between frames and a truncation inside one. *)
Definition short_read (inside : bool) (stop : option ReadStop) : ReadStop :=
  match stop with
  | Some e => e
  | None => StopClosed (if inside then truncated else ClosedPeer)
  end.

(** The reference decoder, on the bytes alone. *)
Definition decode_frame (bytes : list N) (stop : option ReadStop)
    : result (Frame * list N) ReadStop :=
  if length bytes <? 4 then Err (short_read (negb (bool_decide (bytes = []))) stop)
  else
    let size := from_le_bytes (take 4 bytes) in
    match check_size size, drop 4 bytes with
    | Err e, _ => Err (StopClosed (ClosedProtocol e))
    | Ok _, [] => Err (short_read true stop)
    | Ok _, tag :: rest =>
        match carrier_tag CarrierByteStream tag with
        | Err e => Err (StopClosed (ClosedProtocol e))
        | Ok _ =>
            let n := N.to_nat (size - 1) in
            if length rest <? n then Err (short_read true stop)
            else Ok ({| frame_tag := tag; frame_body := take n rest |}, drop n rest)
        end
    end.

Definition encode_frame (f : Frame) : list N :=
  to_le_bytes 4 (frame_size f) ++ frame_tag f :: frame_body f.

(** A frame a byte stream carries. *)
Definition carried (f : Frame) : Prop := exists t, frame_check f CarrierByteStream = Ok t.

Lemma fill_nothing stream : fill stream 0 = (Ok [], stream).
Proof. by destruct stream as [|[]]. Qed.

Lemma fill_chunk bytes rest want :
  bytes <> [] -> (0 < want)%N ->
  fill (Chunk bytes :: rest) want =
  if (want <? N_length bytes)%N
  then (Ok (take (N.to_nat want) bytes), Chunk (drop (N.to_nat want) bytes) :: rest)
  else let '(r, rest') := fill rest (want - N_length bytes) in
       ((let? more := r in Ok (bytes ++ more)), rest').
Proof.
  intros Hne Hw. simpl. destruct (N.eqb_spec want 0); [lia|]. by rewrite bool_decide_false.
Qed.

Lemma fill_interrupted rest want : (0 < want)%N -> fill (ReadError Interrupted :: rest) want = fill rest want.
Proof. intros Hw. simpl. destruct (N.eqb_spec want 0); [lia|done]. Qed.

(** A stream that has the bytes gives them, and keeps the others. *)
Lemma fill_enough stream want bytes stop :
  feed stream = (bytes, stop) -> (want <= N_length bytes)%N ->
  exists rest, fill stream want = (Ok (take (N.to_nat want) bytes), rest) /\
    feed rest = (drop (N.to_nat want) bytes, stop).
Proof.
  revert want bytes. induction stream as [|[chunk|kind|] stream IH]; intros want bytes Hf Hle;
    (destruct (decide (want = 0%N)) as [->|Hw]; [rewrite fill_nothing; eexists; split; [done|exact Hf]|]);
    simpl in Hf.
  - simplify_eq. unfold N_length in Hle. simpl in Hle. lia.
  - case_bool_decide as Hc; [simplify_eq; unfold N_length in Hle; simpl in Hle; lia|].
    destruct (feed stream) as [more stop'] eqn:Ef. simplify_eq.
    rewrite fill_chunk by (done || lia). unfold N_length in *. rewrite length_app in Hle.
    destruct (N.ltb_spec want (N.of_nat (length chunk))) as [Hlt|Hge].
    + eexists. rewrite take_app_le by lia. split; [done|]. simpl.
      rewrite bool_decide_false, Ef, drop_app_le by
        (try lia; intros E%(f_equal length); rewrite length_drop in E; simpl in E; lia). done.
    + destruct (IH (want - N.of_nat (length chunk))%N more eq_refl ltac:(lia)) as (rest & -> & Hr).
      rewrite take_app_ge, drop_app_ge by lia.
      replace (N.to_nat want - length chunk) with (N.to_nat (want - N.of_nat (length chunk))) by lia.
      by eexists.
  - destruct kind; simplify_eq; try (unfold N_length in Hle; simpl in Hle; lia).
    rewrite fill_interrupted by lia. by apply IH.
  - simplify_eq. unfold N_length in Hle. simpl in Hle. lia.
Qed.

(** A stream that has not gives its stop, or all it has at end of stream. *)
Lemma fill_short stream want bytes stop :
  feed stream = (bytes, stop) -> (N_length bytes < want)%N ->
  exists rest, fill stream want = (match stop with Some e => Err e | None => Ok bytes end, rest).
Proof.
  revert want bytes. induction stream as [|[chunk|kind|] stream IH]; intros want bytes Hf Hle;
    assert (Hw : want <> 0%N) by lia; simpl in Hf.
  - simplify_eq. simpl. destruct (N.eqb_spec want 0); [done|]. by eexists.
  - case_bool_decide as Hc.
    { simplify_eq. simpl. destruct (N.eqb_spec want 0); [done|]. unfold N_length.
      destruct (N.ltb_spec want (N.of_nat (length (A := N) []))); [simpl in *; lia|]. by eexists. }
    destruct (feed stream) as [more stop'] eqn:Ef. simplify_eq.
    rewrite fill_chunk by (done || lia). unfold N_length in *. rewrite length_app in Hle.
    destruct (N.ltb_spec want (N.of_nat (length chunk))) as [Hlt|Hge]; [lia|].
    destruct (IH (want - N.of_nat (length chunk))%N more eq_refl ltac:(lia)) as (rest & ->).
    destruct stop; eauto.
  - destruct kind; simplify_eq; simpl; (destruct (N.eqb_spec want 0); [done|]); eauto.
  - simplify_eq. simpl. destruct (N.eqb_spec want 0); [done|]. eauto.
Qed.

Lemma N_length_take (n : N) (l : list N) : (n <= N_length l)%N -> N_length (take (N.to_nat n) l) = n.
Proof. unfold N_length. intros H. rewrite length_take. lia. Qed.

(** The reader decodes what the stream feeds, however it is cut. *)
Lemma read_frame_decodes stream bytes stop :
  feed stream = (bytes, stop) ->
  match decode_frame bytes stop with
  | Ok (f, more) => exists alloc rest, read_frame stream = (Ok f, alloc, rest) /\
      feed rest = (more, stop)
  | Err e => exists alloc rest, read_frame stream = (Err e, alloc, rest)
  end.
Proof.
  intros Hf. unfold decode_frame, read_frame. destruct (Nat.ltb_spec (length bytes) 4) as [Hlt|Hge].
  { destruct (fill_short stream 4 bytes stop Hf) as (rest & ->); [unfold N_length; lia|].
    destruct stop as [e|]; [by eauto|]. simpl. unfold N_length.
    case_bool_decide as Hb; simpl; [subst; by eauto|].
    destruct (N.eqb_spec (N.of_nat (length bytes)) 0) as [E|]; [|destruct (N.eqb_spec (N.of_nat (length bytes)) 4)].
    - exfalso. apply Hb. apply nil_length_inv. lia.
    - lia.
    - by eauto. }
  destruct (fill_enough stream 4 bytes stop Hf) as (s1 & -> & Hf1); [unfold N_length; lia|].
  rewrite N_length_take by (unfold N_length; lia). simpl. change (N.to_nat 4) with 4 in *.
  destruct (check_size (from_le_bytes (take 4 bytes))) as [u|e]; [|by eauto].
  destruct (drop 4 bytes) as [|tag more] eqn:Hd.
  { destruct (fill_short s1 1 [] stop Hf1) as (rest & ->); [unfold N_length; simpl; lia|].
    destruct stop; by eauto. }
  destruct (fill_enough s1 1 _ _ Hf1) as (s2 & -> & Hf2); [unfold N_length; simpl; lia|]. simpl.
  destruct (carrier_tag _ tag) as [t|e]; [|by eauto].
  set (want := (from_le_bytes (take 4 bytes) - 1)%N). change (feed s2 = (more, stop)) in Hf2.
  destruct (Nat.ltb_spec (length more) (N.to_nat want)) as [Hsh|Hen].
  - destruct (fill_short s2 want _ _ Hf2) as (rest & ->); [unfold N_length; lia|].
    destruct stop as [e|]; simpl; [by eauto|].
    destruct (N.eqb_spec (N_length more) want); [unfold N_length in *; lia|]. by eauto.
  - destruct (fill_enough s2 want _ _ Hf2) as (rest & -> & Hf3); [unfold N_length; lia|].
    rewrite N_length_take by (unfold N_length; lia). rewrite N.eqb_refl. eauto.
Qed.

(** A body buffer is allocated only for a checked length and a checked tag. *)
Lemma read_frame_allocates stream r n rest :
  read_frame stream = (r, Some n, rest) -> (n < MAX_FRAME_BYTES)%N.
Proof.
  unfold read_frame. intros H. destruct (fill stream 4) as [[prefix|] s1]; [|done].
  destruct (N_length prefix =? 0)%N; [done|]. destruct (negb _); [done|].
  destruct (check_size _) as [[]|] eqn:Hc; [|done]. apply check_size_ok in Hc.
  destruct (fill s1 1) as [[[|tag [|]]|] s2]; try done.
  destruct (carrier_tag _ tag); [|done].
  destruct (fill s2 _) as [[body|] s3]; [|simplify_eq; lia].
  destruct (N_length body =? _)%N; simplify_eq; lia.
Qed.

Lemma carried_spec f :
  carried f <-> (frame_size f <= MAX_FRAME_BYTES)%N /\ exists t, frame_tag f = tag_byte t.
Proof.
  unfold carried. setoid_rewrite frame_check_ok. rewrite frame_size_small.
  split; [intros (t & ? & ? & _)|intros (? & t & ?)]; split_and?; eauto; try lia.
  exists t. split_and!; [lia|done..].
Qed.

Lemma carried_size f : carried f -> frame_size f = (N_length (frame_body f) + 1)%N.
Proof.
  intros [Hs _]%carried_spec. destruct frame_limits_fit as (Hm & _ & Hu).
  revert Hs. unfold frame_size, saturating_add, N_length. lia.
Qed.

Lemma decode_encode f rest stop :
  carried f -> decode_frame (encode_frame f ++ rest) stop = Ok (f, rest).
Proof.
  intros Hc. pose proof (carried_size f Hc) as Hsz. apply carried_spec in Hc as (Hmax & t & Ht).
  unfold decode_frame, encode_frame. rewrite <- app_assoc. simpl length.
  set (le := to_le_bytes 4 (frame_size f)).
  assert (Hl : length le = 4) by apply length_to_le_bytes.
  assert (Hfrom : from_le_bytes le = frame_size f).
  { apply from_to_le_bytes. destruct frame_limits_fit as (Hm & _). simpl. lia. }
  clearbody le.
  rewrite take_app_le, take_ge, drop_app_ge, Hl by lia. simpl. rewrite ?drop_0.
  rewrite Hfrom.
  rewrite (proj2 (check_size_ok _)) by (unfold N_length in Hsz; lia).
  rewrite (proj2 (carrier_tag_ok CarrierByteStream _ t)) by done.
  replace (N.to_nat (frame_size f - 1)) with (length (frame_body f)) by (unfold N_length in Hsz; lia).
  rewrite length_app. destruct (Nat.ltb_spec (length (frame_body f) + length rest) (length (frame_body f))); [lia|].
  rewrite take_app_length, drop_app_length. by destruct f.
Qed.

(** *** Writing *)

(** [write_all] writes a prefix, and all of it when it succeeds. *)
Lemma write_all_prefix script buf :
  let '(out, r, _) := write_all script buf in
  out `prefix_of` buf /\ (r = Ok tt -> out = buf).
Proof.
  revert buf. induction script as [|[[|n]|kind] script IH]; intros [|b buf]; try (by simpl).
  - simpl. split; [apply prefix_nil|done].
  - simpl. specialize (IH (drop n buf)). destruct (write_all script (drop n buf)) as [[out r] sc].
    destruct IH as [[more Hm] Hr]. split.
    + exists more. simpl. f_equal. by rewrite <- app_assoc, <- Hm, take_drop.
    + intros E. rewrite (Hr E). simpl. by rewrite take_drop.
  - destruct kind; try (simpl; split; [apply prefix_nil|done]). simpl. apply (IH (b :: buf)).
Qed.

Lemma write_buf_prefix w buf :
  let '(r, w') := write_buf w buf in
  exists out, w_bytes w' = w_bytes w ++ out /\ out `prefix_of` buf /\ (r = Ok tt -> out = buf).
Proof.
  unfold write_buf. pose proof (write_all_prefix (w_script w) buf) as H.
  destruct (write_all _ buf) as [[out r] sc]. simpl. eauto.
Qed.

Lemma flush_bytes w : w_bytes (flush w).2 = w_bytes w.
Proof. unfold flush. by destruct (w_flush w). Qed.

(** [write_frame] puts a prefix of the frame's encoding on the stream, all of
    it when it succeeds, and nothing when it refuses the size. *)
Lemma write_frame_prefix w f :
  let '(r, w') := write_frame w f in
  exists out, w_bytes w' = w_bytes w ++ out /\ out `prefix_of` encode_frame f /\
    (r = Ok tt -> out = encode_frame f).
Proof.
  unfold write_frame, to_u32.
  destruct (check_size (frame_size f)) as [[]|e] eqn:Hc;
    [|exists []; rewrite app_nil_r; split_and!; [done|apply prefix_nil|done]].
  apply check_size_ok in Hc. destruct frame_limits_fit as (Hm & Hu & _).
  destruct (N.leb_spec (frame_size f) u32_max) as [_|?]; [|lia].
  assert (Henc : encode_frame f = (to_le_bytes 4 (frame_size f) ++ [frame_tag f]) ++ frame_body f)
    by (unfold encode_frame; by rewrite <- app_assoc). rewrite Henc.
  pose proof (write_buf_prefix w (to_le_bytes 4 (frame_size f) ++ [frame_tag f])) as H1.
  destruct (write_buf w _) as [[[]|e1] w1]; destruct H1 as (out1 & Hb1 & Hp1 & He1).
  2: { exists out1. split_and!; [done|by apply prefix_app_r|done]. }
  rewrite He1 in Hb1 by done.
  pose proof (write_buf_prefix w1 (frame_body f)) as H2.
  destruct (write_buf w1 _) as [[[]|e2] w2]; destruct H2 as (out2 & Hb2 & Hp2 & He2).
  - pose proof (flush_bytes w2) as Hfl. destruct (flush w2) as [r w3]. simpl in Hfl.
    eexists. rewrite Hfl, Hb2, Hb1, He2, <- app_assoc by done. done.
  - eexists. rewrite Hb2, Hb1, <- app_assoc. split_and!; [done|by apply prefix_app|done].
Qed.

(** ** The end and its reader thread *)

Inductive RouterEvent : Type :=
| Routed (frame : Frame)
| RouterTold (reason : Closed).

Inductive RouteOutcome : Type := RouteOk | RouteErr (reason : Closed) | RoutePanic.

(** [Shared]: the writer behind its mutex (with the mutex's poison), the
    write failure, the ending, and all the router has been called with. *)
Record Shared : Type := mkShared {
  sh_writer : option Writer;
  sh_poisoned : bool;
  sh_write_failed : option ErrorKind;
  sh_ended : option Closed;
  sh_router : list RouterEvent;
}.

(** The state [byte_stream] starts an end with. *)
Definition new_shared (w : Writer) : Shared :=
  {| sh_writer := Some w; sh_poisoned := false; sh_write_failed := None;
     sh_ended := None; sh_router := [] |}.

Definition set_writer (st : Shared) (w : option Writer) : Shared :=
  {| sh_writer := w; sh_poisoned := sh_poisoned st; sh_write_failed := sh_write_failed st;
     sh_ended := sh_ended st; sh_router := sh_router st |}.

Definition set_write_failed (st : Shared) (kind : ErrorKind) : Shared :=
  {| sh_writer := sh_writer st; sh_poisoned := sh_poisoned st; sh_write_failed := Some kind;
     sh_ended := sh_ended st; sh_router := sh_router st |}.

(** [Shared::end]: the first reason stands, and the router is told once. *)
Definition shared_end (st : Shared) (reason : Closed) : Closed * Shared :=
  match sh_ended st with
  | Some stands => (stands, st)
  | None =>
      (reason,
       {| sh_writer := sh_writer st; sh_poisoned := sh_poisoned st;
          sh_write_failed := sh_write_failed st; sh_ended := Some reason;
          sh_router := sh_router st ++ [RouterTold reason] |})
  end.

(** [Shared::lock_writer]: a poisoned mutex ends the session. *)
Definition lock_writer (st : Shared) : Shared :=
  if sh_poisoned st then (shared_end st (ClosedStream OtherKind)).2 else st.

(** [Shared::release_if_ended], when no call is using the writer. *)
Definition release_if_ended (st : Shared) : Shared :=
  match sh_ended st with
  | None => st
  | Some _ => set_writer st None
  end.

(** [close], and the drop of an end. *)
Definition bs_close (st : Shared) : Shared :=
  release_if_ended (shared_end st ClosedLocal).2.

(** [send] up to the release of the writer. [meanwhile] is a reason another
    thread ended the session for while the frame was being written. *)
Definition send_held (st : Shared) (f : Frame) (meanwhile : option Closed)
    : result unit Closed * Shared :=
  match sh_ended st, sh_writer st, sh_write_failed st with
  | Some closed, _, _ => (Err closed, st)
  | None, _, Some kind => (Err (ClosedStream kind), st)
  | None, None, None => let '(c, st') := shared_end st ClosedLocal in (Err c, st')
  | None, Some stream, None =>
      match frame_check f CarrierByteStream with
      | Err error => let '(c, st') := shared_end st (ClosedProtocol error) in (Err c, st')
      | Ok _ =>
          let '(r, stream') := write_frame stream f in
          let st1 := set_writer st (Some stream') in
          let st2 := match meanwhile with Some c => (shared_end st1 c).2 | None => st1 end in
          match r with
          | Ok _ => (Ok tt, st2)
          | Err kind =>
              if peer_side_failure kind
              then (Err (ClosedStream kind), set_write_failed st2 kind)
              else let '(c, st') := shared_end st2 (ClosedStream kind) in (Err c, st')
          end
      end
  end.

Definition bs_send_with (st : Shared) (f : Frame) (meanwhile : option Closed)
    : Shared * result unit SendError :=
  let '(sent, st1) := send_held (lock_writer st) f meanwhile in
  let st2 := match sh_ended st1 with Some _ => set_writer st1 None | None => st1 end in
  (release_if_ended st2, map_err (SendClosed f) sent).

Definition bs_send (st : Shared) (f : Frame) : Shared * result unit SendError :=
  bs_send_with st f None.

(** A send that unwinds out of the writer, having written [out]: the turn and
    the writer's mutex are released, the mutex poisoned. *)
Definition bs_send_unwinds (st : Shared) (out : list N) : Shared :=
  {| sh_writer := (fun w => {| w_bytes := w_bytes w ++ out; w_script := w_script w;
                               w_flush := w_flush w |}) <$> sh_writer st;
     sh_poisoned := true; sh_write_failed := sh_write_failed st;
     sh_ended := sh_ended st; sh_router := sh_router st |}.

Section reader.
(** The router: what its [route] answers, given the frames routed before. *)
Context (route : list Frame -> Frame -> RouteOutcome).

Definition routed_frames (log : list RouterEvent) : list Frame :=
  omap (fun e => match e with Routed f => Some f | RouterTold _ => None end) log.

Definition set_router (st : Shared) (log : list RouterEvent) : Shared :=
  {| sh_writer := sh_writer st; sh_poisoned := sh_poisoned st;
     sh_write_failed := sh_write_failed st; sh_ended := sh_ended st; sh_router := log |}.

(** [read_loop], with fuel for its turns: [None] is out of fuel. *)
Fixpoint read_loop_fuel (fuel : nat) (stream : list ReadEvent) (st : Shared) : option Shared :=
  match fuel with
  | 0 => None
  | S fuel' =>
      match read_frame stream with
      | (Err (StopClosed reason), _, _) => Some (release_if_ended (shared_end st reason).2)
      | (Err StopPanic, _, _) =>
          Some (release_if_ended (shared_end st (ClosedStream OtherKind)).2)
      | (Ok frame, _, rest) =>
          match sh_ended st with
          | Some _ => Some (release_if_ended st)
          | None =>
              let answer := route (routed_frames (sh_router st)) frame in
              let st1 := set_router st (sh_router st ++ [Routed frame]) in
              match answer with
              | RouteOk => read_loop_fuel fuel' rest st1
              | RouteErr reason => Some (release_if_ended (shared_end st1 reason).2)
              | RoutePanic =>
                  Some (release_if_ended (shared_end st1 (ClosedStream OtherKind)).2)
              end
          end
      end
  end.

(** A frame takes at least five bytes, so this is fuel enough. *)
Definition read_loop (stream : list ReadEvent) (st : Shared) : option Shared :=
  read_loop_fuel (S (length (feed stream).1)) stream st.

(** The reference: the frames of the bytes, one after the other, until the
    stream stops or the router does. *)
Definition stop_reason (stop : ReadStop) : Closed :=
  match stop with StopClosed reason => reason | StopPanic => ClosedStream OtherKind end.

Fixpoint deliver_fuel (fuel : nat) (bytes : list N) (stop : option ReadStop)
    (before : list Frame) : list Frame * Closed :=
  match fuel with
  | 0 => ([], ClosedPeer)
  | S fuel' =>
      match decode_frame bytes stop with
      | Err e => ([], stop_reason e)
      | Ok (frame, rest) =>
          match route before frame with
          | RouteOk =>
              let '(frames, reason) := deliver_fuel fuel' rest stop (before ++ [frame]) in
              (frame :: frames, reason)
          | RouteErr reason => ([frame], reason)
          | RoutePanic => ([frame], ClosedStream OtherKind)
          end
      end
  end.

Definition deliver (bytes : list N) (stop : option ReadStop) (before : list Frame)
    : list Frame * Closed :=
  deliver_fuel (S (length bytes)) bytes stop before.

Lemma decode_shrinks bytes stop f rest :
  decode_frame bytes stop = Ok (f, rest) -> length rest + 5 <= length bytes.
Proof.
  unfold decode_frame. destruct (Nat.ltb_spec (length bytes) 4) as [|Hge]; [done|].
  destruct (check_size _); [|done].
  destruct (drop 4 bytes) as [|tag more] eqn:Hd; [done|].
  destruct (carrier_tag _ tag); [|done].
  destruct (length more <? _) eqn:E; [done|]. intros [= <- <-]. rewrite length_drop.
  apply (f_equal length) in Hd. rewrite length_drop in Hd. simpl in Hd. lia.
Qed.

Lemma deliver_fuel_enough fuel bytes stop before :
  length bytes < fuel -> deliver_fuel fuel bytes stop before = deliver bytes stop before.
Proof.
  unfold deliver. assert (H : forall f1 f2 bs bef, length bs < f1 -> length bs < f2 ->
    deliver_fuel f1 bs stop bef = deliver_fuel f2 bs stop bef); [|intros; apply H; lia].
  induction f1 as [|f1 IH]; intros [|f2] bs bef H1 H2; [lia..|]. simpl.
  destruct (decode_frame bs stop) as [[f rest]|] eqn:E; [|done]. apply decode_shrinks in E.
  destruct (route bef f); try done. by rewrite (IH f2) by lia.
Qed.

Lemma deliver_step bytes stop before :
  deliver bytes stop before =
  match decode_frame bytes stop with
  | Err e => ([], stop_reason e)
  | Ok (frame, rest) =>
      match route before frame with
      | RouteOk =>
          let '(frames, reason) := deliver rest stop (before ++ [frame]) in (frame :: frames, reason)
      | RouteErr reason => ([frame], reason)
      | RoutePanic => ([frame], ClosedStream OtherKind)
      end
  end.
Proof.
  unfold deliver at 1. simpl. destruct (decode_frame bytes stop) as [[f rest]|] eqn:E; [|done].
  apply decode_shrinks in E. by rewrite deliver_fuel_enough by lia.
Qed.

(** The state a whole read leaves. *)
Definition after_reading (st : Shared) (frames : list Frame) (reason : Closed) : Shared :=
  {| sh_writer := None; sh_poisoned := sh_poisoned st; sh_write_failed := sh_write_failed st;
     sh_ended := Some reason; sh_router := sh_router st ++ (Routed <$> frames) ++ [RouterTold reason] |}.

Lemma end_release st reason :
  sh_ended st = None -> release_if_ended (shared_end st reason).2 = after_reading st [] reason.
Proof. unfold release_if_ended, shared_end. by intros ->. Qed.

Lemma after_reading_cons st frame frames reason :
  after_reading (set_router st (sh_router st ++ [Routed frame])) frames reason =
  after_reading st (frame :: frames) reason.
Proof. unfold after_reading. simpl. f_equal. by rewrite <- app_assoc. Qed.

Lemma routed_frames_app l1 l2 : routed_frames (l1 ++ l2) = routed_frames l1 ++ routed_frames l2.
Proof. apply omap_app. Qed.

Lemma read_loop_fuel_delivers fuel stream bytes stop st :
  feed stream = (bytes, stop) -> length bytes < fuel -> sh_ended st = None ->
  read_loop_fuel fuel stream st =
  let '(frames, reason) := deliver bytes stop (routed_frames (sh_router st)) in
  Some (after_reading st frames reason).
Proof.
  revert stream bytes st. induction fuel as [|fuel IH]; intros stream bytes st Hf Hfuel He; [lia|].
  simpl. pose proof (read_frame_decodes stream bytes stop Hf) as Hd. rewrite deliver_step.
  destruct (decode_frame bytes stop) as [[frame rest]|e] eqn:Ed.
  - destruct Hd as (alloc & s' & -> & Hf'). rewrite He. apply decode_shrinks in Ed.
    destruct (route _ frame).
    + rewrite (IH s' rest) by (done || lia). simpl. rewrite routed_frames_app. simpl.
      destruct (deliver rest stop _). by rewrite after_reading_cons.
    + by rewrite end_release, after_reading_cons.
    + by rewrite end_release, after_reading_cons.
  - destruct Hd as (alloc & s' & ->). by destruct e; simpl; rewrite end_release.
Qed.

(** Encodings of carried frames, one after the other, with an accepting
    router: delivered all and in order, then the stream's own stop. *)
Lemma deliver_encoded frames rest stop before :
  (forall bef f, route bef f = RouteOk) -> Forall carried frames ->
  deliver (mjoin (encode_frame <$> frames) ++ rest) stop before =
  let '(more, reason) := deliver rest stop (before ++ frames) in (frames ++ more, reason).
Proof.
  intros Hr Hc. revert before. induction Hc as [|f frames Hf _ IH]; intros before.
  - simpl. rewrite app_nil_r. by destruct (deliver rest stop before).
  - rewrite fmap_cons. cbn [mjoin list_join]. rewrite <- app_assoc, deliver_step, decode_encode by done.
    rewrite Hr, IH, <- app_assoc. simpl. by destruct (deliver rest stop _).
Qed.

End reader.

(** A frame cut short by end of stream is a truncation. *)
Lemma decode_cut f n :
  carried f -> 0 < n < length (encode_frame f) ->
  decode_frame (take n (encode_frame f)) None = Err (StopClosed truncated).
Proof.
  intros Hc Hn. pose proof (carried_size f Hc) as Hsz. apply carried_spec in Hc as (Hmax & t & Ht).
  unfold decode_frame, encode_frame in *. set (le := to_le_bytes 4 (frame_size f)) in *.
  assert (Hl : length le = 4) by apply length_to_le_bytes.
  assert (Hfrom : from_le_bytes le = frame_size f).
  { apply from_to_le_bytes. destruct frame_limits_fit as (Hm & _). simpl. lia. }
  clearbody le. rewrite length_take, length_app, Hl in *. simpl in Hn |- *.
  match goal with |- context [?a <? 4] => destruct (Nat.ltb_spec a 4) as [Hlt|Hge] end.
  { rewrite bool_decide_false; [done|]. destruct le; [done|]. by destruct n; [lia|]. }
  rewrite take_take, Nat.min_l, take_app_le, take_ge, Hfrom by lia.
  rewrite (proj2 (check_size_ok _)) by (unfold N_length in Hsz; lia).
  rewrite skipn_firstn_comm, drop_app_ge, Hl by lia. simpl.
  destruct (n - 4) as [|k] eqn:Hk; simpl; [done|].
  rewrite (proj2 (carrier_tag_ok CarrierByteStream _ t)) by done.
  destruct (Nat.ltb_spec (length (take k (frame_body f))) (N.to_nat (frame_size f - 1))) as [|Hge'];
    [done|]. rewrite length_take in Hge'. unfold N_length in Hsz. lia.
Qed.

(** ** The sending side *)

(** Sends one after the other: the state, and whether all succeeded. *)
Fixpoint send_all (st : Shared) (frames : list Frame) : Shared * bool :=
  match frames with
  | [] => (st, true)
  | f :: frames' =>
      let '(st1, r) := bs_send st f in
      if is_ok r then send_all st1 frames' else (st1, false)
  end.

Lemma lock_writer_open st : sh_ended (lock_writer st) = None -> lock_writer st = st.
Proof.
  unfold lock_writer. destruct (sh_poisoned st); [|done]. unfold shared_end.
  destruct (sh_ended st) eqn:E; simpl; congruence.
Qed.

(** A successful send wrote the whole frame, and changed nothing else. *)
Lemma bs_send_ok st f st' :
  bs_send st f = (st', Ok tt) ->
  carried f /\ sh_ended st = None /\ sh_ended st' = None /\ sh_router st' = sh_router st /\
  exists w w', sh_writer st = Some w /\ sh_writer st' = Some w' /\
    w_bytes w' = w_bytes w ++ encode_frame f.
Proof.
  unfold bs_send, bs_send_with. pose proof (lock_writer_open st) as Hlock. intros H.
  destruct (send_held (lock_writer st) f None) as [sent st1] eqn:Hs.
  destruct sent as [[]|]; [|done]. unfold send_held in Hs.
  destruct (sh_ended (lock_writer st)) eqn:He; [done|]. rewrite Hlock in * by done.
  destruct (sh_writer st) as [w|] eqn:Hw, (sh_write_failed st) eqn:Hf; try done.
  2: { by unfold shared_end in Hs; rewrite He in Hs. }
  destruct (frame_check f CarrierByteStream) as [t|] eqn:Hc; [|by unfold shared_end in Hs; rewrite He in Hs].
  pose proof (write_frame_prefix w f) as Hp. destruct (write_frame w f) as [[[]|kind] w'].
  2: { destruct (peer_side_failure kind); [done|]. unfold shared_end in Hs. simpl in Hs. by rewrite He in Hs. }
  destruct Hp as (out & Hb & _ & Hout). rewrite Hout in Hb by done.
  simplify_eq/=. unfold release_if_ended. rewrite He. simpl. rewrite He.
  split_and!; try done; [by exists t|]. eauto.
Qed.

Lemma send_all_writes st frames st' w :
  send_all st frames = (st', true) -> sh_ended st = None -> sh_writer st = Some w ->
  Forall carried frames /\ sh_ended st' = None /\ sh_router st' = sh_router st /\
  exists w', sh_writer st' = Some w' /\ w_bytes w' = w_bytes w ++ mjoin (encode_frame <$> frames).
Proof.
  revert st w. induction frames as [|f frames IH]; intros st w H He Hw; cbn [send_all] in H.
  - simplify_eq. split_and!; [constructor|done|done|]. exists w. by rewrite app_nil_r.
  - destruct (bs_send st f) as [st1 [[]|]] eqn:Hs; [|done]. simpl in H.
    apply bs_send_ok in Hs as (Hc & _ & He1 & Hr1 & w0 & w1 & Hw0 & Hw1 & Hb1). simplify_eq.
    destruct (IH st1 w1 H He1 Hw1) as (Hcs & He' & Hr' & w' & Hw' & Hb').
    split_and!; [by constructor|done|congruence|]. exists w'. split; [done|].
    rewrite Hb', Hb1, fmap_cons. cbn [mjoin list_join]. by rewrite <- app_assoc.
Qed.

Lemma shared_end_ended st reason c : sh_ended st = Some c -> shared_end st reason = (c, st).
Proof. unfold shared_end. by intros ->. Qed.

Lemma bs_send_ended st f meanwhile c :
  sh_ended st = Some c ->
  exists st', bs_send_with st f meanwhile = (st', Err (SendClosed f c)) /\ sh_ended st' = Some c.
Proof.
  intros He. assert (Hl : lock_writer st = st).
  { unfold lock_writer. destruct (sh_poisoned st); [|done]. by rewrite (shared_end_ended _ _ _ He). }
  unfold bs_send_with, send_held. rewrite Hl, He. simpl. rewrite He.
  eexists. split; [done|]. unfold release_if_ended. simpl. by rewrite He.
Qed.

(** A byte-stream end is a sink. *)
#[global] Instance byte_stream_sink : FrameSink Shared := {
  sink_ended := sh_ended;
  sink_send st f _ _ := bs_send st f;
  sink_close := bs_close;
}.

#[global] Instance byte_stream_sink_laws : FrameSinkLaws Shared.
Proof.
  split; simpl.
  - intros st st' f _ _ e H. unfold bs_send, bs_send_with in H.
    destruct (send_held _ f None) as [[]]; simpl in H; by simplify_eq.
  - intros st st' f f' _ _ H. unfold bs_send, bs_send_with in H.
    destruct (send_held _ f None) as [[]]; simpl in H; by simplify_eq.
  - intros st f _ _ c He. by apply bs_send_ended.
  - intros st. unfold bs_close, shared_end, release_if_ended.
    destruct (sh_ended st) eqn:E; simpl; rewrite ?E; eauto.
  - intros st c He. unfold bs_close. rewrite (shared_end_ended _ _ _ He). unfold release_if_ended. simpl.
    by rewrite He.
Qed.

(** Whoever ends the session, the writer is gone once no call uses it. *)
Lemma bs_send_drops_writer st f meanwhile :
  let st' := (bs_send_with st f meanwhile).1 in
  sh_ended st' <> None -> sh_writer st' = None.
Proof.
  unfold bs_send_with. destruct (send_held (lock_writer st) f meanwhile) as [sent st1]. simpl.
  unfold release_if_ended. destruct (sh_ended st1) eqn:E; simpl; by rewrite E.
Qed.

(** A failure of the far side while writing: the send reports it, the session
    stays open, and later sends report the same without writing. *)
Lemma bs_send_peer_failure st w f kind w' :
  sh_ended st = None -> sh_poisoned st = false -> sh_writer st = Some w ->
  sh_write_failed st = None -> carried f -> write_frame w f = (Err kind, w') ->
  peer_side_failure kind = true ->
  bs_send st f =
  (set_write_failed (set_writer st (Some w')) kind, Err (SendClosed f (ClosedStream kind))).
Proof.
  intros He Hp Hw Hf (t & Hc) Hwr Hk. unfold bs_send, bs_send_with, lock_writer, send_held.
  rewrite Hp, He, Hw, Hf, Hc, Hwr, Hk. simpl. rewrite He. unfold release_if_ended. simpl. by rewrite He.
Qed.

(** ** Handing over between the reader and an ender

    The reader's check-and-route and the ender's report are each made under
    the [delivery] lock, and setting the reason under its own, so these are
    the steps whose interleavings can be observed. *)

Record DeliveryState : Type := mkDeliveryState {
  dl_ended : option Closed;
  dl_owed : option Closed;
  dl_router : list RouterEvent;
}.

Definition dl_init : DeliveryState :=
  {| dl_ended := None; dl_owed := None; dl_router := [] |}.

(** [end] up to its report: a later reason changes nothing. *)
Definition dl_set (st : DeliveryState) (reason : Closed) : DeliveryState :=
  match dl_ended st with
  | Some _ => st
  | None => {| dl_ended := Some reason; dl_owed := Some reason; dl_router := dl_router st |}
  end.

(** [end]'s report, by the caller that set the reason. *)
Definition dl_tell (st : DeliveryState) : DeliveryState :=
  match dl_owed st with
  | None => st
  | Some reason =>
      {| dl_ended := dl_ended st; dl_owed := None; dl_router := dl_router st ++ [RouterTold reason] |}
  end.

(** [read_loop]'s delivery: a frame read while the session was ending is
    discarded. *)
Definition dl_route (st : DeliveryState) (f : Frame) : DeliveryState :=
  match dl_ended st with
  | Some _ => st
  | None => {| dl_ended := None; dl_owed := dl_owed st; dl_router := dl_router st ++ [Routed f] |}
  end.

Inductive delivery_step : DeliveryState -> DeliveryState -> Prop :=
| delivery_set st reason : delivery_step st (dl_set st reason)
| delivery_tell st : delivery_step st (dl_tell st)
| delivery_route st f : delivery_step st (dl_route st f).

Definition delivery_inv (st : DeliveryState) : Prop :=
  exists frames, match dl_ended st, dl_owed st with
  | None, None => dl_router st = Routed <$> frames
  | Some r, Some o => o = r /\ dl_router st = Routed <$> frames
  | Some r, None => dl_router st = (Routed <$> frames) ++ [RouterTold r]
  | None, Some _ => False
  end.

Lemma delivery_inv_step st st' : delivery_inv st -> delivery_step st st' -> delivery_inv st'.
Proof.
  intros (frames & H) Hs. unfold delivery_inv.
  destruct Hs as [st reason|st|st f]; unfold dl_set, dl_tell, dl_route.
  - exists frames. destruct (dl_ended st) eqn:E; simpl; rewrite ?E; [done|].
    destruct (dl_owed st); done.
  - exists frames. destruct (dl_ended st) eqn:E, (dl_owed st) eqn:E'; simpl; rewrite ?E, ?E'; try done.
    by destruct H as [-> ->].
  - destruct (dl_ended st) eqn:E; simpl; rewrite ?E; [by exists frames|].
    destruct (dl_owed st); [done|]. exists (frames ++ [f]). by rewrite H, fmap_app.
Qed.

Lemma delivery_reachable st : rtc delivery_step dl_init st -> delivery_inv st.
Proof.
  revert st. apply rtc_ind_r; [by exists []|]. intros y z _ Hs Hi. by eapply delivery_inv_step.
Qed.

(** ** Main theorems *)

(** C29: the reader thread refines the reference decoder. On any stream and
    with any router, the loop terminates; it routes the frames of the bytes
    the stream feeds, in order, up to the stop of the stream or of the router,
    then tells the router once the reason that stands, and drops the writer.
    How the bytes are cut into reads, and interruptions, make no difference. *)
Theorem reader_refines_decoder (route : list Frame -> Frame -> RouteOutcome)
    (stream : list ReadEvent) (st : Shared) (He : sh_ended st = None) :
  read_loop route stream st =
  let '(frames, reason) :=
    deliver route (feed stream).1 (feed stream).2 (routed_frames (sh_router st)) in
  Some (after_reading st frames reason).
Proof. apply read_loop_fuel_delivers; [by destruct (feed stream)|lia|done]. Qed.

Definition demo_frame (tag : Tag) (body : string) : Frame := new_frame tag (lit body).
Definition demo_writer : Writer :=
  {| w_bytes := []; w_script := [Accept 3; WriteError Interrupted; Accept 100; Accept 1]; w_flush := [] |}.

(** An interrupted stream that cuts one frame in three and ends. *)
Definition demo_stream : list ReadEvent :=
  [Chunk [3%N; 0%N]; ReadError Interrupted; Chunk [0%N; 0%N; 2%N; 104%N]; Chunk [105%N]].

Lemma reader_refines_decoder_witness :
  read_loop (fun _ _ => RouteOk) demo_stream (new_shared demo_writer) =
  Some (after_reading (new_shared demo_writer) [demo_frame SessionReply "hi"] ClosedPeer).
Proof. rewrite reader_refines_decoder; vm_compute; reflexivity. Defined.

(** C27: the codec round trips end to end. If a list of frames is sent whole on
    one end, whatever short writes and interruptions its writer met, then any
    stream that feeds those bytes to another end's reader, whatever its reads,
    delivers exactly those frames in order, and then the peer's departure. *)
Theorem frames_round_trip (st st' : Shared) (w : Writer) (frames : list Frame)
    (stream : list ReadEvent) (other : Shared)
    (Hw : sh_writer st = Some w) (He : sh_ended st = None) (Hb : w_bytes w = [])
    (Hs : send_all st frames = (st', true))
    (Hf : feed stream = (match sh_writer st' with Some w' => w_bytes w' | None => [] end, None))
    (Ho : sh_ended other = None) :
  read_loop (fun _ _ => RouteOk) stream other = Some (after_reading other frames ClosedPeer).
Proof.
  destruct (send_all_writes _ _ _ _ Hs He Hw) as (Hc & _ & _ & w' & Hw' & Hb').
  rewrite Hw', Hb', Hb in Hf. simpl in Hf.
  unfold read_loop. rewrite (read_loop_fuel_delivers _ _ _ _ _ _ Hf) by (rewrite ?Hf; done || simpl; lia).
  rewrite <- (app_nil_r (mjoin _)), deliver_encoded by done. simpl. by rewrite app_nil_r.
Qed.

Lemma frames_round_trip_witness :
  read_loop (fun _ _ => RouteOk) demo_stream (new_shared demo_writer) =
  Some (after_reading (new_shared demo_writer) [demo_frame SessionReply "hi"] ClosedPeer).
Proof.
  apply (frames_round_trip (new_shared demo_writer)
    (send_all (new_shared demo_writer) [demo_frame SessionReply "hi"]).1 demo_writer);
    vm_compute; reflexivity.
Defined.

(** A stream that ends inside a frame is an error, never a frame. Whole
    frames before the cut are delivered, the cut one is not, and the session
    ends with an unexpected end of file. *)
Theorem truncation_detected (frames : list Frame) (f : Frame) (n : nat)
    (stream : list ReadEvent) (st : Shared)
    (Hc : Forall carried frames) (Hf : carried f) (Hn : 0 < n < length (encode_frame f))
    (Hfeed : feed stream = (mjoin (encode_frame <$> frames) ++ take n (encode_frame f), None))
    (He : sh_ended st = None) :
  read_loop (fun _ _ => RouteOk) stream st =
  Some (after_reading st frames (ClosedStream UnexpectedEof)).
Proof.
  unfold read_loop. rewrite (read_loop_fuel_delivers _ _ _ _ _ _ Hfeed) by (rewrite ?Hfeed; done || simpl; lia).
  rewrite deliver_encoded, deliver_step, decode_cut by done. by rewrite app_nil_r.
Qed.

Lemma truncation_detected_witness :
  read_loop (fun _ _ => RouteOk) [Chunk [3%N; 0%N; 0%N; 0%N; 2%N; 104%N]] (new_shared demo_writer) =
  Some (after_reading (new_shared demo_writer) [] (ClosedStream UnexpectedEof)).
Proof.
  apply (truncation_detected [] (demo_frame SessionReply "hi") 6).
  - constructor.
  - exists SessionReply. vm_compute. reflexivity.
  - vm_compute. lia.
  - vm_compute. reflexivity.
  - reflexivity.
Defined.

(** A hostile length prefix cannot make the reader allocate past the
    limit: whatever the stream, a body buffer is smaller than 64 MiB, and none
    is allocated unless the length and the tag were accepted. *)
Theorem allocation_bounded (stream : list ReadEvent) (r : result Frame ReadStop)
    (n : N) (rest : list ReadEvent) (H : read_frame stream = (r, Some n, rest)) :
  (n < MAX_FRAME_BYTES)%N.
Proof. by eapply read_frame_allocates. Qed.

Lemma allocation_bounded_witness : (2 < MAX_FRAME_BYTES)%N.
Proof.
  refine (allocation_bounded demo_stream _ 2 (read_frame demo_stream).2 _).
  vm_compute. reflexivity.
Defined.

(** Over every interleaving of the reader's deliveries and of any number
    of enders, the router is told of the end at most once, with the reason
    that stands, and is given no frame after it. *)
Theorem router_told_last (st : DeliveryState) (Hr : rtc delivery_step dl_init st) :
  exists frames, dl_router st = Routed <$> frames \/
    exists reason, dl_ended st = Some reason /\ dl_owed st = None /\
      dl_router st = (Routed <$> frames) ++ [RouterTold reason].
Proof.
  apply delivery_reachable in Hr as (frames & H). exists frames.
  destruct (dl_ended st), (dl_owed st); try done; [by left; destruct H|eauto|by left].
Qed.

Lemma router_told_last_witness :
  exists frames, let st := dl_tell (dl_set (dl_route dl_init (demo_frame SessionCall "a")) ClosedLocal) in
  dl_router st = Routed <$> frames \/
    exists reason, dl_ended st = Some reason /\ dl_owed st = None /\
      dl_router st = (Routed <$> frames) ++ [RouterTold reason].
Proof.
  apply router_told_last. eapply rtc_l; [apply (delivery_route _ (demo_frame SessionCall "a"))|].
  eapply rtc_l; [apply (delivery_set _ ClosedLocal)|].
  eapply rtc_l; [apply delivery_tell|]. apply rtc_refl.
Defined.

(** A far side that stops listening does not end the session. The failed
    send reports the stream's error and the end stays open; every later send
    reports the same until the session ends, and from then on the reason it
    ended for, which may be another. *)
Theorem peer_failure_then_end (st : Shared) (w w' : Writer) (f g : Frame) (kind : ErrorKind)
    (c : Closed)
    (He : sh_ended st = None) (Hp : sh_poisoned st = false) (Hw : sh_writer st = Some w)
    (Hf : sh_write_failed st = None) (Hc : carried f)
    (Hwr : write_frame w f = (Err kind, w')) (Hk : peer_side_failure kind = true) :
  let st1 := (bs_send st f).1 in
  (bs_send st f).2 = Err (SendClosed f (ClosedStream kind)) /\ sh_ended st1 = None /\
  bs_send st1 g = (st1, Err (SendClosed g (ClosedStream kind))) /\
  (bs_send (shared_end st1 c).2 g).2 = Err (SendClosed g c).
Proof.
  rewrite (bs_send_peer_failure st w f kind w') by done. cbv zeta. simpl. split_and!; try done.
  - unfold bs_send, bs_send_with, lock_writer, send_held, release_if_ended. simpl.
    rewrite Hp. simpl. rewrite He. simpl. rewrite He. simpl. by rewrite He.
  - unfold shared_end. simpl. rewrite He. simpl.
    unfold bs_send. edestruct bs_send_ended as (st' & -> & _); done.
Qed.

Lemma peer_failure_then_end_witness :
  let st := new_shared {| w_bytes := []; w_script := [WriteError BrokenPipe]; w_flush := [] |} in
  let st1 := (bs_send st (demo_frame SessionCall "x")).1 in
  (bs_send (shared_end st1 ClosedPeer).2 (demo_frame SessionCall "y")).2 =
  Err (SendClosed (demo_frame SessionCall "y") ClosedPeer).
Proof.
  cbv zeta.
  refine (proj2 (proj2 (proj2 (peer_failure_then_end
    (new_shared {| w_bytes := []; w_script := [WriteError BrokenPipe]; w_flush := [] |})
    {| w_bytes := []; w_script := [WriteError BrokenPipe]; w_flush := [] |}
    {| w_bytes := []; w_script := []; w_flush := [] |}
    (demo_frame SessionCall "x") (demo_frame SessionCall "y") BrokenPipe ClosedPeer
    _ _ _ _ _ _ _)))); try reflexivity.
  exists SessionCall. reflexivity.
Defined.
