(* ===== verification/InProcess.v ===== *)
(** The in-process adapter (src/crates/session-channel/src/in_process.rs):
    two bounded queues of frames inside one process.

    Every operation of an end runs under the channel's one lock, so an
    operation is a function of the state and concurrent use is any order of
    operations. A wait of [recv] is an answer of its own. *)

From S2P Require Export SessionContract ByteStream.

(** ** The channel *)

Inductive Side : Type := Client | Host.

#[global] Instance Side_eq_dec : EqDecision Side.
Proof. solve_decision. Defined.

(** [Side::peer]. *)
Definition peer (s : Side) : Side := match s with Client => Host | Host => Client end.

Record Inbox : Type := mkInbox {
  inbox_frames : list (Frame * Lane);
  inbox_calls : N;
  inbox_controls : N;
}.

Definition inbox_default : Inbox := {| inbox_frames := []; inbox_calls := 0; inbox_controls := 0 |}.

(** [Inbox::count], as a reader and a writer of the lane's counter. *)
Definition inbox_count (i : Inbox) (lane : Lane) : N :=
  match lane with LaneCall => inbox_calls i | LaneControl => inbox_controls i end.

Definition set_count (i : Inbox) (lane : Lane) (n : N) : Inbox :=
  match lane with
  | LaneCall => {| inbox_frames := inbox_frames i; inbox_calls := n; inbox_controls := inbox_controls i |}
  | LaneControl => {| inbox_frames := inbox_frames i; inbox_calls := inbox_calls i; inbox_controls := n |}
  end.

Definition set_frames (i : Inbox) (frames : list (Frame * Lane)) : Inbox :=
  {| inbox_frames := frames; inbox_calls := inbox_calls i; inbox_controls := inbox_controls i |}.

Record Ending : Type := mkEnding { ending_by : Side; ending_protocol : option FrameError }.

(** [Ending::seen_by]. *)
Definition seen_by (e : Ending) (side : Side) : Closed :=
  match ending_protocol e with
  | Some error => ClosedProtocol error
  | None => if bool_decide (ending_by e = side) then ClosedLocal else ClosedPeer
  end.

(** A pair indexed by side, as the source's arrays of two. *)
Record BySide (A : Type) : Type := mkBySide { at_client : A; at_host : A }.
Arguments mkBySide {A} _ _.
Arguments at_client {A} _.
Arguments at_host {A} _.

Definition side_get {A} (p : BySide A) (s : Side) : A :=
  match s with Client => at_client p | Host => at_host p end.
Definition side_set {A} (p : BySide A) (s : Side) (a : A) : BySide A :=
  match s with
  | Client => {| at_client := a; at_host := at_host p |}
  | Host => {| at_client := at_client p; at_host := a |}
  end.

Record State : Type := mkState {
  inboxes : BySide Inbox;
  ended : option Ending;
  stopped : BySide bool;
}.

Definition state_default : State :=
  {| inboxes := mkBySide inbox_default inbox_default; ended := None; stopped := mkBySide false false |}.

(** One end: the shared state as this end's operations find and leave it. *)
Record InProcessEnd : Type := mkInProcessEnd {
  end_capacity : Limits;
  end_side : Side;
  end_state : State;
}.

(** [pair]: both ends of a new channel. *)
Definition pair (capacity : Limits) : InProcessEnd * InProcessEnd :=
  ({| end_capacity := capacity; end_side := Client; end_state := state_default |},
   {| end_capacity := capacity; end_side := Host; end_state := state_default |}).

(** [InProcessEnd::stop]: the reason this side reports, and the state. *)
Definition stop (side : Side) (st : State) (protocol : option FrameError) : Closed * State :=
  let ending := match ended st with
                | Some e => e
                | None => {| ending_by := side; ending_protocol := protocol |}
                end in
  (seen_by ending side,
   {| inboxes := side_set (inboxes st) side inbox_default;
      ended := Some ending;
      stopped := side_set (stopped st) side true |}).

(** [send]. *)
Definition ip_send (capacity : Limits) (side : Side) (st : State) (frame : Frame) (lane : Lane)
    : State * result unit SendError :=
  match ended st with
  | Some ending => (st, Err (SendClosed frame (seen_by ending side)))
  | None =>
      match frame_check frame CarrierInProcess with
      | Err error =>
          let '(closed, st') := stop side st (Some error) in (st', Err (SendClosed frame closed))
      | Ok _ =>
          let inbox := side_get (inboxes st) (peer side) in
          let count := inbox_count inbox lane in
          if (lane_capacity capacity lane <=? count)%N then (st, Err (SendFull frame))
          else
            let inbox1 := set_count inbox lane (count + 1)%N in
            let inbox2 := set_frames inbox1 (inbox_frames inbox1 ++ [(frame, lane)]) in
            ({| inboxes := side_set (inboxes st) (peer side) inbox2;
                ended := ended st; stopped := stopped st |}, Ok tt)
      end
  end.

(** [close]. *)
Definition ip_close (side : Side) (st : State) : State := (stop side st None).2.

(** One look of [recv]'s loop: a frame, the ending, or a wait. *)
Inductive RecvAnswer : Type :=
| RecvFrame (frame : Frame)
| RecvClosed (closed : Closed)
| RecvWaits.

Definition ip_recv (side : Side) (st : State) : State * RecvAnswer :=
  let inbox := side_get (inboxes st) side in
  match negb (side_get (stopped st) side), inbox_frames inbox with
  | true, (frame, lane) :: rest =>
      let inbox1 := set_frames inbox rest in
      let inbox2 := set_count inbox1 lane (inbox_count inbox1 lane - 1)%N in
      ({| inboxes := side_set (inboxes st) side inbox2; ended := ended st; stopped := stopped st |},
       RecvFrame frame)
  | _, _ =>
      match ended st with
      | Some ending => (st, RecvClosed (seen_by ending side))
      | None => (st, RecvWaits)
      end
  end.

(** ** An end is a sink *)

Definition with_state (e : InProcessEnd) (st : State) : InProcessEnd :=
  {| end_capacity := end_capacity e; end_side := end_side e; end_state := st |}.

#[global] Instance in_process_sink : FrameSink InProcessEnd := {
  sink_ended e := (fun ending => seen_by ending (end_side e)) <$> ended (end_state e);
  sink_send e f lane _ :=
    let '(st, r) := ip_send (end_capacity e) (end_side e) (end_state e) f lane in
    (with_state e st, r);
  sink_close e := with_state e (ip_close (end_side e) (end_state e));
}.

#[global] Instance in_process_sink_laws : FrameSinkLaws InProcessEnd.
Proof.
  split; simpl; unfold ip_send.
  - intros e e' f lane _ err. destruct (ended _); [intros; by simplify_eq/=|].
    destruct (frame_check f _); [|intros; by simplify_eq/=].
    destruct (_ <=? _)%N; intros; by simplify_eq/=.
  - intros e e' f f' lane _. destruct (ended _); [intros; by simplify_eq/=|].
    destruct (frame_check f _); [|intros; by simplify_eq/=].
    destruct (_ <=? _)%N; intros; simplify_eq/=; by destruct e.
  - intros e f lane _ c. destruct (ended (end_state e)) as [ending|] eqn:E; [|done].
    intros [= <-]. eexists. split; [done|]. simpl. by rewrite E.
  - intros e. unfold ip_close, stop. destruct (ended (end_state e)); eauto.
  - intros e c. unfold ip_close, stop. by destruct (ended (end_state e)) as [ending|].
Qed.

(** ** Histories of one channel *)

Inductive ChannelOp : Type :=
| ChSend (side : Side) (frame : Frame) (lane : Lane)
| ChRecv (side : Side)
| ChClose (side : Side).

(** The channel with the frames its sends accepted for each side, and the
    frames each side has received. *)
Record Channel : Type := mkChannel {
  ch_state : State;
  ch_sent : BySide (list Frame);
  ch_received : BySide (list Frame);
}.

Definition ch_init : Channel :=
  {| ch_state := state_default; ch_sent := mkBySide [] []; ch_received := mkBySide [] [] |}.

Definition ch_step (capacity : Limits) (c : Channel) (op : ChannelOp) : Channel :=
  match op with
  | ChSend side frame lane =>
      let '(st, r) := ip_send capacity side (ch_state c) frame lane in
      {| ch_state := st;
         ch_sent := if is_ok r
                    then side_set (ch_sent c) (peer side)
                           (side_get (ch_sent c) (peer side) ++ [frame])
                    else ch_sent c;
         ch_received := ch_received c |}
  | ChRecv side =>
      let '(st, r) := ip_recv side (ch_state c) in
      {| ch_state := st; ch_sent := ch_sent c;
         ch_received := match r with
                        | RecvFrame frame =>
                            side_set (ch_received c) side
                              (side_get (ch_received c) side ++ [frame])
                        | _ => ch_received c
                        end |}
  | ChClose side =>
      {| ch_state := ip_close side (ch_state c); ch_sent := ch_sent c;
         ch_received := ch_received c |}
  end.

Definition ch_run (capacity : Limits) (ops : list ChannelOp) : Channel :=
  foldl (ch_step capacity) ch_init ops.

Definition on_lane (lane : Lane) (l : list (Frame * Lane)) : nat :=
  length (filter (fun p => p.2 = lane) l).

(** What holds of one inbox: the counters are the lanes' frames, within the
    lanes' room, and every waiting frame is one the carrier carries. *)
Record inbox_wf (capacity : Limits) (i : Inbox) : Prop := {
  iw_count : forall lane, inbox_count i lane = N.of_nat (on_lane lane (inbox_frames i));
  iw_room : forall lane, (inbox_count i lane <= lane_capacity capacity lane)%N;
  iw_carried : Forall (fun p => is_ok (frame_check p.1 CarrierInProcess) = true) (inbox_frames i);
}.

Record channel_wf (capacity : Limits) (c : Channel) : Prop := {
  cw_inbox : forall side, inbox_wf capacity (side_get (inboxes (ch_state c)) side);
  cw_stopped : forall side, side_get (stopped (ch_state c)) side = true ->
    inbox_frames (side_get (inboxes (ch_state c)) side) = [] /\ ended (ch_state c) <> None;
  cw_fifo : forall side, if side_get (stopped (ch_state c)) side
    then side_get (ch_received c) side `prefix_of` side_get (ch_sent c) side
    else side_get (ch_sent c) side =
         side_get (ch_received c) side ++ (inbox_frames (side_get (inboxes (ch_state c)) side)).*1;
}.

Lemma side_get_set {A} (p : BySide A) s a : side_get (side_set p s a) s = a.
Proof. by destruct s. Qed.
Lemma side_get_set_ne {A} (p : BySide A) s s' a : s <> s' -> side_get (side_set p s a) s' = side_get p s'.
Proof. by destruct s, s'. Qed.
Lemma peer_ne s : peer s <> s.
Proof. by destruct s. Qed.

Ltac by_side s s' :=
  destruct (decide (s = s')) as [<-|?];
  [rewrite ?side_get_set|rewrite ?side_get_set_ne by done].

Lemma inbox_default_wf capacity : inbox_wf capacity inbox_default.
Proof. split; intros; [by destruct lane|destruct lane; simpl; lia|constructor]. Qed.

Lemma on_lane_cons f l lane rest :
  on_lane lane ((f, l) :: rest) = (if decide (l = lane) then 1 else 0) + on_lane lane rest.
Proof. unfold on_lane. rewrite filter_cons. simpl. by case_decide. Qed.

Lemma on_lane_snoc f l lane rest :
  on_lane lane (rest ++ [(f, l)]) = (if decide (l = lane) then 1 else 0) + on_lane lane rest.
Proof.
  unfold on_lane. rewrite filter_app, length_app, filter_cons, filter_nil. simpl.
  case_decide; simpl; lia.
Qed.

Lemma set_count_get i lane lane' n :
  inbox_count (set_count i lane n) lane' = if decide (lane = lane') then n else inbox_count i lane'.
Proof. by destruct lane, lane'. Qed.

Lemma set_count_frames i lane n : inbox_frames (set_count i lane n) = inbox_frames i.
Proof. by destruct lane. Qed.

Lemma inbox_accept_wf capacity i f lane t :
  inbox_wf capacity i -> frame_check f CarrierInProcess = Ok t ->
  (inbox_count i lane < lane_capacity capacity lane)%N ->
  inbox_wf capacity (set_frames (set_count i lane (inbox_count i lane + 1)) (inbox_frames i ++ [(f, lane)])).
Proof.
  intros [Hc Hr Hk] Hf Hlt.
  assert (Hcount : forall l, inbox_count (set_frames (set_count i lane (inbox_count i lane + 1))
    (inbox_frames i ++ [(f, lane)])) l = inbox_count (set_count i lane (inbox_count i lane + 1)) l)
    by (by destruct l).
  split; simpl; intros.
  - rewrite Hcount, set_count_get, on_lane_snoc, !Hc. case_decide; subst; lia.
  - rewrite Hcount, set_count_get. case_decide; subst; [lia|apply Hr].
  - apply Forall_app. split; [done|]. constructor; [|constructor]. simpl. by rewrite Hf.
Qed.

Lemma inbox_take_wf capacity i f lane rest :
  inbox_wf capacity i -> inbox_frames i = (f, lane) :: rest ->
  inbox_wf capacity (set_count (set_frames i rest) lane (inbox_count (set_frames i rest) lane - 1)).
Proof.
  intros [Hc Hr Hk] Hf. rewrite Hf in Hk. apply Forall_cons in Hk as [_ Hk].
  assert (Hsame : forall l, inbox_count (set_frames i rest) l = inbox_count i l) by (by destruct l).
  assert (Hl : forall l, inbox_count i l = N.of_nat ((if decide (lane = l) then 1 else 0) + on_lane l rest))
    by (intros; by rewrite Hc, Hf, on_lane_cons).
  split; simpl; intros; rewrite ?set_count_get, ?set_count_frames, ?Hsame; simpl; try done.
  - case_decide as Hd; subst; rewrite Hl; [rewrite decide_True by done; lia|].
    rewrite decide_False by done. lia.
  - specialize (Hr lane0). case_decide; subst; lia.
Qed.

(** Stopping a side keeps the channel well formed: what it had not received
    is discarded, the other side keeps what it has. *)
Lemma stop_wf capacity c side protocol :
  channel_wf capacity c ->
  channel_wf capacity {| ch_state := (stop side (ch_state c) protocol).2;
                         ch_sent := ch_sent c; ch_received := ch_received c |}.
Proof.
  intros [Hi Hs Hf]. split; simpl; intros s'.
  - by_side side s'; [apply inbox_default_wf|apply Hi].
  - by_side side s'; intros Hst; [done|]. split; [by apply Hs|done].
  - specialize (Hf s'). by_side side s'; [|done].
    destruct (side_get (stopped (ch_state c)) side); [done|]. rewrite Hf. by eexists.
Qed.

Lemma send_wf capacity c side f lane :
  channel_wf capacity c -> channel_wf capacity (ch_step capacity c (ChSend side f lane)).
Proof.
  intros Hwf. simpl. unfold ip_send. destruct (ended (ch_state c)) eqn:He; [by destruct c|].
  destruct (frame_check f CarrierInProcess) as [t|e] eqn:Hc; [|simpl; by apply stop_wf].
  destruct (N.leb_spec (lane_capacity capacity lane)
    (inbox_count (side_get (inboxes (ch_state c)) (peer side)) lane)) as [|Hlt]; [by destruct c|].
  destruct Hwf as [Hi Hs Hf]. split; simpl; intros s'.
  - by_side (peer side) s'; [|apply Hi]. rewrite set_count_frames.
    eapply inbox_accept_wf; [apply Hi|done..].
  - intros Hst. destruct (Hs s' Hst) as [_ Hx]. by rewrite He in Hx.
  - specialize (Hf s'). destruct (side_get (stopped (ch_state c)) s') eqn:Hst.
    { destruct (Hs s' Hst) as [_ Hx]. by rewrite He in Hx. }
    by_side (peer side) s'; [|done]. simpl. rewrite Hf, set_count_frames, fmap_app. simpl.
    by rewrite <- app_assoc.
Qed.

Lemma recv_wf capacity c side :
  channel_wf capacity c -> channel_wf capacity (ch_step capacity c (ChRecv side)).
Proof.
  intros Hwf. simpl. unfold ip_recv.
  destruct (side_get (stopped (ch_state c)) side) eqn:Hst; simpl;
    [by destruct (ended (ch_state c)), c|].
  destruct (inbox_frames (side_get (inboxes (ch_state c)) side)) as [|[f lane] rest] eqn:Hfr;
    [by destruct (ended (ch_state c)), c|].
  destruct Hwf as [Hi Hs Hf]. split; simpl; intros s'.
  - by_side side s'; [|apply Hi]. by eapply inbox_take_wf.
  - by_side side s'; intros Hst'; [by rewrite Hst in Hst'|by apply Hs].
  - specialize (Hf s'). by_side side s'; [|done]. rewrite Hst in *. rewrite Hf, Hfr, set_count_frames.
    simpl. by rewrite <- app_assoc.
Qed.

Lemma ch_step_wf capacity c op : channel_wf capacity c -> channel_wf capacity (ch_step capacity c op).
Proof. destruct op; [apply send_wf|apply recv_wf|apply stop_wf]. Qed.

Lemma ch_run_wf capacity ops : channel_wf capacity (ch_run capacity ops).
Proof.
  unfold ch_run. assert (H : channel_wf capacity ch_init).
  { split; simpl; intros side; [destruct side; apply inbox_default_wf|by destruct side|by destruct side]. }
  revert H. generalize ch_init. induction ops as [|op ops IH]; intros c Hc; [done|].
  simpl. by apply IH, ch_step_wf.
Qed.

(** ** Main theorems *)

(** The in-process channel delivers in order, once and whole, within its
    bounds. After any sequence of sends, receives and closes by both ends:
    each lane of each queue holds exactly as many frames as its counter says
    and never more than its room; what a side that has not stopped was sent is
    what it received followed by what waits for it; and a side that stopped
    received a prefix of what it was sent. *)
Theorem channel_in_order (capacity : Limits) (ops : list ChannelOp) (side : Side) :
  let c := ch_run capacity ops in
  let inbox := side_get (inboxes (ch_state c)) side in
  (forall lane, N.of_nat (on_lane lane (inbox_frames inbox)) = inbox_count inbox lane /\
     (inbox_count inbox lane <= lane_capacity capacity lane)%N) /\
  (if side_get (stopped (ch_state c)) side
   then side_get (ch_received c) side `prefix_of` side_get (ch_sent c) side
   else side_get (ch_sent c) side = side_get (ch_received c) side ++ (inbox_frames inbox).*1).
Proof.
  cbv zeta. destruct (ch_run_wf capacity ops) as [Hi _ Hf]. split; [|apply Hf].
  intros lane. destruct (Hi side) as [Hc Hr _]. by rewrite <- Hc.
Qed.

(** Closure comes last. On any reachable channel, an end that has not
    stopped is told the ending only when it has received every frame sent to
    it, and is told to wait only when nothing waits and nothing has ended. *)
Theorem closure_comes_last (capacity : Limits) (ops : list ChannelOp) (side : Side) :
  let c := ch_run capacity ops in
  match (ip_recv side (ch_state c)).2 with
  | RecvFrame f => exists rest,
      side_get (ch_sent c) side = side_get (ch_received c) side ++ f :: rest
  | RecvClosed reason =>
      (exists ending, ended (ch_state c) = Some ending /\ reason = seen_by ending side) /\
      (side_get (stopped (ch_state c)) side = false ->
       side_get (ch_received c) side = side_get (ch_sent c) side)
  | RecvWaits => ended (ch_state c) = None /\
      side_get (ch_received c) side = side_get (ch_sent c) side
  end.
Proof.
  cbv zeta. destruct (ch_run_wf capacity ops) as [_ Hs Hf]. unfold ip_recv.
  specialize (Hs side). specialize (Hf side).
  set (c := ch_run capacity ops) in *.
  destruct (side_get (stopped (ch_state c)) side) eqn:Hst; simpl.
  - destruct Hs as [_ He]; [done|]. destruct (ended (ch_state c)) as [ending|]; [|done]. simpl. split; [eauto|done].
  - destruct (inbox_frames _) as [|[f lane] rest] eqn:Hfr; simpl.
    + rewrite app_nil_r in Hf. destruct (ended (ch_state c)) as [ending|]; simpl; [|done].
      split; [eauto|done].
    + rewrite Hf. eauto.
Qed.

(** An ending is final at every end that keeps the sink's laws, as both
    adapters do. Once it has ended for a reason, every send of any later
    sequence of sends and closes fails with that reason and gives its own
    frame back. *)
Theorem sink_ending_final (S : Type) (sink : FrameSink S) (laws : FrameSinkLaws S)
    (s : S) (ops : list SinkOp) (c : Closed) (He : sink_ended s = Some c) :
  sink_ended (run_sink s ops).1 = Some c /\
  (run_sink s ops).2 = (fun f => Err (SendClosed f c)) <$> sent_frames ops.
Proof. by apply run_sink_ended. Qed.

Lemma sink_ending_final_witness :
  (run_sink (sink_close (pair default_limits).1)
     [OpSend (demo_frame SessionCall "x") LaneCall (ordinary_key 0); OpClose]).2 =
  [Err (SendClosed (demo_frame SessionCall "x") ClosedLocal)] /\
  (run_sink (sink_close (new_shared demo_writer))
     [OpSend (demo_frame SessionCall "x") LaneCall (ordinary_key 0); OpClose]).2 =
  [Err (SendClosed (demo_frame SessionCall "x") ClosedLocal)].
Proof.
  split.
  - exact (proj2 (sink_ending_final InProcessEnd in_process_sink in_process_sink_laws
      (sink_close (pair default_limits).1)
      [OpSend (demo_frame SessionCall "x") LaneCall (ordinary_key 0); OpClose] ClosedLocal eq_refl)).
  - exact (proj2 (sink_ending_final Shared byte_stream_sink byte_stream_sink_laws
      (sink_close (new_shared demo_writer))
      [OpSend (demo_frame SessionCall "x") LaneCall (ordinary_key 0); OpClose] ClosedLocal eq_refl)).
Defined.
