(* ===== verification/SessionLimits.v ===== *)
(** The session host's limits and its record of detached workers
    (src/crates/session-host/src/limits.rs and detached.rs).

    Counts are [usize] numbers, durations are numbers of nanoseconds. A
    worker's liveness marker is an [Arc] whose strong count decides whether
    the worker still runs: it is modelled by the set of markers still held. *)

From S2P Require Export SessionContract.

(** ** Limits *)

Definition secs (n : N) : N := (n * 1000000000)%N.

Definition MAX_READ_WAIT : N := secs 30.
Definition MAX_CLOSE_WAIT : N := secs (60 * 60).

Record HostLimits : Type := mkHostLimits {
  running_operations : N;
  queued_operations : N;
  operation_table : N;
  direct_workers : N;
  event_log : N;
  open_logs : N;
  host_outstanding_calls : N;
  host_control_reserve : N;
  read_bytes : N;
  close_wait : N;
}.

Definition default_host_limits : HostLimits :=
  {| running_operations := 8; queued_operations := 64; operation_table := 128;
     direct_workers := 8; event_log := 4096; open_logs := 64;
     host_outstanding_calls := 1024; host_control_reserve := 64;
     read_bytes := 1024 * 1024; close_wait := secs 60 |}.

Inductive InvalidLimits : Type :=
| TooSmall (limit : str) (minimum : N)
| TableTooSmall
| ReadTooLarge
| QueueOverflow
| CloseWaitTooLong.

(** [Display for InvalidLimits]. *)
Definition invalid_limits_text (e : InvalidLimits) : str :=
  match e with
  | TooSmall limit minimum =>
      lit "session limit " ++ limit ++ lit " must be at least " ++ show_N minimum
  | TableTooSmall =>
      lit "session limit operation_table must hold at least running_operations plus queued_operations"
  | ReadTooLarge => lit "session limit read_bytes must be at most half the 64 MiB frame size"
  | QueueOverflow =>
      lit "session limits outstanding_calls plus control_reserve overflow a channel queue"
  | CloseWaitTooLong => lit "session limit close_wait must be at most one hour"
  end.

(** The table of minimums, in the order they are checked. *)
Definition minimums (l : HostLimits) : list (str * N * N) :=
  [(lit "running_operations", running_operations l, 1%N);
   (lit "queued_operations", queued_operations l, 1%N);
   (lit "direct_workers", direct_workers l, 1%N);
   (lit "event_log", event_log l, 2%N);
   (lit "open_logs", open_logs l, 1%N);
   (lit "outstanding_calls", host_outstanding_calls l, 1%N);
   (lit "control_reserve", host_control_reserve l, 1%N);
   (lit "read_bytes", read_bytes l, 1%N)].

Definition validate_limits (l : HostLimits) : result Limits InvalidLimits :=
  check? for_each (fun entry =>
    let '(limit, value, minimum) := entry in
    if (value <? minimum)%N then Err (TooSmall limit minimum) else Ok tt) (minimums l) in
  let live := checked_add (running_operations l) (queued_operations l) in
  if match live with None => true | Some live => (operation_table l <? live)%N end
  then Err TableTooSmall
  else if (MAX_FRAME_BYTES / 2 <? read_bytes l)%N then Err ReadTooLarge
  else
    let? channel := map_err (fun error =>
        match error with
        | NoOutstandingCalls => TooSmall (lit "outstanding_calls") 1
        | NoControlReserve => TooSmall (lit "control_reserve") 1
        | LimitsOverflow => QueueOverflow
        end)
      (new_limits (host_outstanding_calls l) (host_control_reserve l)) in
    if (MAX_CLOSE_WAIT <? close_wait l)%N then Err CloseWaitTooLong
    else Ok channel.

(** The rules [validate_limits] states. *)
Record limits_ok (l : HostLimits) : Prop := {
  lo_running : (1 <= running_operations l)%N;
  lo_queued : (1 <= queued_operations l)%N;
  lo_direct : (1 <= direct_workers l)%N;
  lo_events : (2 <= event_log l)%N;
  lo_logs : (1 <= open_logs l)%N;
  lo_outstanding : (1 <= host_outstanding_calls l)%N;
  lo_control : (1 <= host_control_reserve l)%N;
  lo_read : (1 <= read_bytes l <= MAX_FRAME_BYTES / 2)%N;
  lo_live : (running_operations l + queued_operations l <= usize_max)%N;
  lo_table : (running_operations l + queued_operations l <= operation_table l)%N;
  lo_queue : (host_outstanding_calls l + host_control_reserve l <= usize_max)%N;
  lo_close : (close_wait l <= MAX_CLOSE_WAIT)%N;
}.

Lemma minimums_ok l :
  for_each (fun entry : str * N * N =>
    let '(limit, value, minimum) := entry in
    if (value <? minimum)%N then Err (TooSmall limit minimum) else Ok tt) (minimums l) = Ok tt <->
  Forall (fun entry : str * N * N => (entry.2 <= entry.1.2)%N) (minimums l).
Proof.
  rewrite for_each_ok. apply Forall_proper; [|done]. intros [[limit value] minimum]. simpl.
  destruct (N.ltb_spec value minimum); split; intros; done || lia.
Qed.

Lemma new_limits_ok calls reserve l :
  new_limits calls reserve = Ok l <->
  l = mkLimits calls reserve /\ (1 <= calls)%N /\ (1 <= reserve)%N /\ (calls + reserve <= usize_max)%N.
Proof.
  unfold new_limits, checked_add. destruct (N.eqb_spec calls 0); [split; [done|lia]|].
  destruct (N.eqb_spec reserve 0); [split; [done|lia]|].
  destruct (N.leb_spec (calls + reserve) usize_max); [|split; [done|lia]].
  split; [intros [= <-]; split_and!; done || lia|by intros (-> & _)].
Qed.

Lemma validate_limits_ok l channel :
  validate_limits l = Ok channel <->
  limits_ok l /\ channel = mkLimits (host_outstanding_calls l) (host_control_reserve l).
Proof.
  unfold validate_limits. rewrite rbind_ok. unfold checked_add. split.
  - intros ([] & Hm%minimums_ok & Hrest). unfold minimums in Hm.
    repeat (apply Forall_cons in Hm as [? Hm]). simpl in *.
    destruct (N.leb_spec (running_operations l + queued_operations l) usize_max); [|done].
    destruct (N.ltb_spec (operation_table l) (running_operations l + queued_operations l)); [done|].
    destruct (N.ltb_spec (MAX_FRAME_BYTES / 2) (read_bytes l)); [done|].
    apply rbind_ok in Hrest as (c & Hc & Hrest). apply map_err_ok, new_limits_ok in Hc as (-> & _ & _ & ?).
    destruct (N.ltb_spec MAX_CLOSE_WAIT (close_wait l)); simplify_eq. done.
  - intros [[] ->]. exists tt. split.
    { apply minimums_ok. unfold minimums. repeat constructor; simpl; lia. }
    destruct (N.leb_spec (running_operations l + queued_operations l) usize_max); [|lia].
    destruct (N.ltb_spec (operation_table l) (running_operations l + queued_operations l)); [lia|].
    destruct (N.ltb_spec (MAX_FRAME_BYTES / 2) (read_bytes l)); [lia|].
    apply rbind_ok. eexists. split; [by apply map_err_ok, new_limits_ok|].
    destruct (N.ltb_spec MAX_CLOSE_WAIT (close_wait l)); [lia|done].
Qed.

(** ** Detached workers *)

(** The record: the workspaces of detached workers with their markers. *)
Definition Detached : Type := list (str * nat).

(** [retain(strong_count > 0)]. *)
Definition retain_alive (alive : gset nat) (entries : Detached) : Detached :=
  filter (fun e => e.2 ∈ alive) entries.

Definition detached_record (alive : gset nat) (entries : Detached) (workspace : str) (worker : nat)
    : Detached :=
  retain_alive alive entries ++ [(workspace, worker)].

Definition running_on (alive : gset nat) (entries : Detached) (workspace : str) : bool * Detached :=
  let entries := retain_alive alive entries in
  (existsb (fun e => bool_decide (e.1 = workspace)) entries, entries).

Definition detached_count (alive : gset nat) (entries : Detached) : nat * Detached :=
  let entries := retain_alive alive entries in (length entries, entries).

Lemma running_on_spec alive entries workspace :
  (running_on alive entries workspace).1 = true <->
  exists w, (workspace, w) ∈ entries /\ w ∈ alive.
Proof.
  unfold running_on, retain_alive. simpl. rewrite existsb_exists. split.
  - intros ([ws w] & Hin%list_elem_of_In & E%bool_decide_eq_true). simpl in E. subst.
    apply list_elem_of_filter in Hin. naive_solver.
  - intros (w & Hin & Ha). exists (workspace, w). split; [|by apply bool_decide_eq_true].
    apply list_elem_of_In, list_elem_of_filter. done.
Qed.

(** ** Main theorems *)

(** Session limits are validated exactly. They are accepted iff every
    stated rule holds: each count at its minimum, the operation table holds
    the running plus the queued operations, a read fits half a frame, a
    queue's capacity does not overflow and the close wait is at most an hour;
    and the channel is handed its own two limits. *)
Theorem host_limits_exact (l : HostLimits) (channel : Limits) :
  validate_limits l = Ok channel <->
  limits_ok l /\ channel = mkLimits (host_outstanding_calls l) (host_control_reserve l).
Proof. apply validate_limits_ok. Qed.
