(* ===== verification/EventLog.v ===== *)
(** An operation's event log (src/crates/session-host/src/service/events.rs):
    a ring of numbered records whose dropped history one reset record stands
    for, and the reads of [events.subscribe]. Payloads are byte lists;
    sequence numbers are modelled unbounded. *)

From S2P Require Export SessionLimits.

(** ** The ring *)

Record LogEntry : Type := mkLogEntry { le_seq : N; le_payload : list N; le_reset : bool }.

Record Ring : Type := mkRing {
  ring_capacity : nat;
  ring_next_seq : N;
  ring_entries : list LogEntry;
  ring_reset : list N;
  ring_complete : bool;
}.

(** [EventLog::new]: at least two records. *)
Definition new_ring (capacity : nat) (reset : list N) : Ring :=
  {| ring_capacity := Nat.max capacity 2; ring_next_seq := 1; ring_entries := [];
     ring_reset := reset; ring_complete := false |}.

(** The [while] of [push]: drops from the front until [room] records are
    left, with the number of the last dropped. *)
Fixpoint drop_oldest (room : nat) (last : N) (entries : list LogEntry) : N * list LogEntry :=
  if room <? length entries then
    match entries with
    | [] => (last, entries)
    | e :: entries' => drop_oldest room (le_seq e) entries'
    end
  else (last, entries).

(** [EventLog::push]. *)
Definition ring_push (r : Ring) (payload : list N) : Ring :=
  if ring_complete r then r
  else
    let seq := ring_next_seq r in
    let entries := ring_entries r ++ [{| le_seq := seq; le_payload := payload; le_reset := false |}] in
    let entries :=
      if ring_capacity r <? length entries then
        let '(last, entries) :=
          match entries with
          | e :: entries' => if le_reset e then (le_seq e, entries') else (0%N, entries)
          | [] => (0%N, entries)
          end in
        let '(last, entries) := drop_oldest (ring_capacity r - 1) last entries in
        {| le_seq := last; le_payload := ring_reset r; le_reset := true |} :: entries
      else entries in
    {| ring_capacity := ring_capacity r; ring_next_seq := (ring_next_seq r + 1)%N;
       ring_entries := entries; ring_reset := ring_reset r; ring_complete := false |}.

(** [EventLog::complete]. *)
Definition complete_ring (r : Ring) : Ring :=
  {| ring_capacity := ring_capacity r; ring_next_seq := ring_next_seq r;
     ring_entries := ring_entries r; ring_reset := ring_reset r; ring_complete := true |}.

(** ** Reads *)

Record EventsRead : Type := mkEventsRead {
  er_operation : str;
  er_stream : str;
  er_cursor : option N;
  er_max_records : option N;
  er_max_bytes : option N;
  er_wait : N;
}.

Record EventsBatch : Type := mkEventsBatch {
  eb_records : list (N * list N);
  eb_next_cursor : N;
  eb_complete : bool;
}.

(** The loop of [read]: the records taken, the last one's number, the bytes
    used. *)
Fixpoint take_records (max_records max_bytes : N) (records : list (N * list N)) (used : N)
    (next_cursor : N) (entries : list LogEntry) : list (N * list N) * N :=
  match entries with
  | [] => (records, next_cursor)
  | e :: entries' =>
      let size := N.of_nat (length (le_payload e)) in
      let over := (max_records <=? N.of_nat (length records))%N ||
                  (max_bytes <? saturating_add used size)%N in
      if over && negb (bool_decide (records = [])) then (records, next_cursor)
      else
        let records' := records ++ [(le_seq e, le_payload e)] in
        if over then (records', le_seq e)
        else take_records max_records max_bytes records' (saturating_add used size) (le_seq e) entries'
  end.

(** The limits of one read. *)
Definition max_records_of (read : EventsRead) : N :=
  N.max (match er_max_records read with Some n => n | None => usize_max end) 1.
Definition max_bytes_of (read : EventsRead) (bytes : N) : N :=
  N.min (match er_max_bytes read with Some n => n | None => bytes end) bytes.

(** [EventLog::read]. *)
Definition ring_read (r : Ring) (read : EventsRead) (bytes : N) : EventsBatch :=
  let after := match er_cursor read with Some c => c | None => 0%N end in
  let '(records, next_cursor) :=
    take_records (max_records_of read) (max_bytes_of read bytes) [] 0 after
      (filter (fun e => (after < le_seq e)%N) (ring_entries r)) in
  let rest := existsb (fun e => (next_cursor <? le_seq e)%N) (ring_entries r) in
  {| eb_records := records; eb_next_cursor := next_cursor;
     eb_complete := ring_complete r && negb rest |}.

(** ** What a ring stands for

    A log of payloads, numbered from one, of which the first [k] have been
    dropped. *)
Fixpoint numbered (from : N) (payloads : list (list N)) : list LogEntry :=
  match payloads with
  | [] => []
  | p :: payloads' =>
      {| le_seq := from; le_payload := p; le_reset := false |} :: numbered (from + 1) payloads'
  end.

Definition reset_entry (reset : list N) (k : nat) : list LogEntry :=
  if k =? 0 then [] else [{| le_seq := N.of_nat k; le_payload := reset; le_reset := true |}].

Definition log_view (reset : list N) (history : list (list N)) (k : nat) : list LogEntry :=
  reset_entry reset k ++ numbered (N.of_nat k + 1) (drop k history).

(** How much of a history a ring of a capacity has dropped. *)
Definition dropped (capacity : nat) (history : list (list N)) : nat :=
  if length history <=? capacity then 0 else length history - (capacity - 1).

Record ring_holds (r : Ring) (history : list (list N)) : Prop := {
  rh_capacity : 2 <= ring_capacity r;
  rh_next : ring_next_seq r = (N.of_nat (length history) + 1)%N;
  rh_entries : ring_entries r =
    log_view (ring_reset r) history (dropped (ring_capacity r) history);
}.

Lemma length_numbered from l : length (numbered from l) = length l.
Proof. revert from. induction l as [|p l IH]; intros; simpl; [done|]. by rewrite IH. Qed.

Lemma numbered_app from l1 l2 :
  numbered from (l1 ++ l2) = numbered from l1 ++ numbered (from + N.of_nat (length l1)) l2.
Proof.
  revert from. induction l1 as [|p l1 IH]; intros from; cbn [numbered app length].
  - f_equal. lia.
  - rewrite IH. repeat (lia || f_equal).
Qed.

Lemma drop_oldest_numbered room last from l :
  drop_oldest room last (numbered from l) =
  let d := length l - room in
  (if d =? 0 then last else (from + N.of_nat d - 1)%N, numbered (from + N.of_nat d) (drop d l)).
Proof.
  cbv zeta. revert last from. induction l as [|p l IH]; intros last from;
    cbn [numbered drop_oldest length].
  - simpl. repeat (lia || f_equal).
  - rewrite length_numbered. destruct (Nat.ltb_spec room (S (length l))) as [Hlt|Hge].
    + rewrite IH. replace (S (length l) - room) with (S (length l - room)) by lia. simpl.
      destruct (Nat.eqb_spec (length l - room) 0) as [->|]; repeat (lia || f_equal).
    + replace (S (length l) - room) with 0 by lia. simpl. repeat (lia || f_equal).
Qed.

Lemma log_view_snoc reset history p k :
  k <= length history ->
  log_view reset (history ++ [p]) k =
  log_view reset history k ++
    [{| le_seq := (N.of_nat (length history) + 1)%N; le_payload := p; le_reset := false |}].
Proof.
  intros Hk. unfold log_view. rewrite drop_app_le, numbered_app, <- app_assoc by done.
  do 2 f_equal. simpl. do 2 f_equal. rewrite length_drop. lia.
Qed.

Lemma length_log_view reset history k :
  k <= length history ->
  length (log_view reset history k) = (if k =? 0 then 0 else 1) + (length history - k).
Proof.
  intros Hk. unfold log_view, reset_entry. rewrite length_app, length_numbered, length_drop.
  by destruct (k =? 0).
Qed.

Lemma dropped_le capacity history : 1 <= capacity -> dropped capacity history <= length history.
Proof. unfold dropped. destruct (Nat.leb_spec (length history) capacity); lia. Qed.

Lemma numbered_head {A} from l (a : LogEntry -> list LogEntry -> A) (b : A) :
  match numbered from l with e :: es => if le_reset e then a e es else b | [] => b end = b.
Proof. by destruct l. Qed.

(** Overflowing: the front that goes is the reset record, if there is one,
    and the oldest payloads. *)
Lemma shrink_view reset history p capacity k :
  2 <= capacity -> capacity < length (history ++ [p]) -> k = dropped capacity history ->
  (let '(last, entries) :=
     match log_view reset (history ++ [p]) k with
     | e :: entries' => if le_reset e then (le_seq e, entries')
                        else (0%N, log_view reset (history ++ [p]) k)
     | [] => (0%N, log_view reset (history ++ [p]) k)
     end in
   let '(last, entries) := drop_oldest (capacity - 1) last entries in
   {| le_seq := last; le_payload := reset; le_reset := true |} :: entries) =
  log_view reset (history ++ [p]) (dropped capacity (history ++ [p])).
Proof.
  intros Hcap Hlen ->. rewrite length_app in Hlen. simpl in Hlen.
  set (l := history ++ [p]). assert (Hl : length l = length history + 1) by apply length_app.
  unfold dropped at 1. unfold dropped. rewrite Hl.
  destruct (Nat.leb_spec (length history + 1) capacity) as [|_]; [lia|].
  unfold log_view. destruct (Nat.leb_spec (length history) capacity) as [Hle|Hgt].
  - assert (Hc : length history = capacity) by lia. unfold reset_entry. cbn [Nat.eqb app].
    rewrite numbered_head, drop_oldest_numbered. cbv zeta. rewrite drop_0, Hl.
    replace (length history + 1 - (capacity - 1)) with 2 by lia. done.
  - set (k := length history - (capacity - 1)).
    unfold reset_entry at 1 2 3. destruct (Nat.eqb_spec k 0) as [|Hk]; [lia|]. simpl.
    rewrite drop_oldest_numbered, length_drop, Hl.
    replace (length history + 1 - k - (capacity - 1)) with 1 by lia. simpl.
    replace (length history + 1 - (capacity - 1)) with (S k) by lia.
    rewrite drop_drop. replace (k + 1) with (S k) by lia. unfold reset_entry. simpl.
    repeat (lia || f_equal).
Qed.

Lemma ring_push_holds r history p :
  ring_complete r = false -> ring_holds r history ->
  ring_holds (ring_push r p) (history ++ [p]).
Proof.
  intros Hc [Hcap Hn He]. unfold ring_push. rewrite Hc.
  pose proof (dropped_le (ring_capacity r) history ltac:(lia)) as Hd.
  rewrite Hn, He, <- log_view_snoc by done.
  split; simpl; [done| |].
  - rewrite length_app. simpl. lia.
  - rewrite length_log_view by (rewrite length_app; lia).
    destruct (Nat.ltb_spec (ring_capacity r)
      ((if dropped (ring_capacity r) history =? 0 then 0 else 1) +
       (length (history ++ [p]) - dropped (ring_capacity r) history))) as [Hlt|Hge].
    + apply shrink_view; [done| |done]. revert Hlt. unfold dropped. rewrite length_app. simpl.
      destruct (Nat.leb_spec (length history) (ring_capacity r)); simpl; [lia|].
      intros _. lia.
    + f_equal. revert Hge. unfold dropped. rewrite length_app. simpl.
      destruct (Nat.leb_spec (length history) (ring_capacity r)) as [|Hgt]; simpl.
      * destruct (Nat.leb_spec (length history + 1) (ring_capacity r)); lia.
      * destruct (Nat.eqb_spec (length history - (ring_capacity r - 1)) 0); lia.
Qed.

Lemma new_ring_holds capacity reset : ring_holds (new_ring capacity reset) [].
Proof. split; simpl; [lia|done|]. unfold dropped. simpl. done. Qed.

Lemma pushes_hold r history ps :
  ring_complete r = false -> ring_holds r history ->
  ring_complete (foldl ring_push r ps) = false /\ ring_holds (foldl ring_push r ps) (history ++ ps).
Proof.
  revert r history. induction ps as [|p ps IH]; intros r history Hc Hh; simpl.
  - by rewrite app_nil_r.
  - rewrite cons_middle, app_assoc. apply IH; [|by apply ring_push_holds].
    unfold ring_push. by rewrite Hc.
Qed.

(** ** Reads of a ring *)

Definition increasing (l : list LogEntry) : Prop := StronglySorted (fun a b => (le_seq a < le_seq b)%N) l.

Lemma numbered_increasing from l :
  increasing (numbered from l) /\ Forall (fun e => (from <= le_seq e)%N) (numbered from l).
Proof.
  revert from. induction l as [|p l IH]; intros from; simpl; [split; constructor|].
  destruct (IH (from + 1)%N) as [Hs Hf]. split; constructor; simpl; try done; try lia.
  - eapply Forall_impl; [exact Hf|]. simpl. lia.
  - eapply Forall_impl; [exact Hf|]. simpl. lia.
Qed.

Lemma log_view_increasing reset history k : increasing (log_view reset history k).
Proof.
  unfold log_view, reset_entry.
  destruct (numbered_increasing (N.of_nat k + 1) (drop k history)) as [Hs Hf].
  destruct (k =? 0); [done|]. constructor; [done|]. simpl.
  eapply Forall_impl; [exact Hf|]. simpl. lia.
Qed.

Definition record_of (e : LogEntry) : N * list N := (le_seq e, le_payload e).

Definition last_seq (default : N) (l : list LogEntry) : N :=
  match last l with Some e => le_seq e | None => default end.

Definition payload_bytes (l : list LogEntry) : N :=
  foldr (fun e n => (N.of_nat (length (le_payload e)) + n)%N) 0%N l.

Lemma payload_bytes_app l1 l2 : payload_bytes (l1 ++ l2) = (payload_bytes l1 + payload_bytes l2)%N.
Proof. induction l1 as [|e l1 IH]; simpl; [done|]. rewrite IH. lia. Qed.

(** A read's loop takes a prefix, at least one record if there is one, within
    its limits. [p0] are the entries of the records already taken. *)
Lemma take_records_spec max_records max_bytes p0 cursor entries :
  (1 <= max_records)%N -> (max_bytes < usize_max)%N ->
  (N.of_nat (length p0) <= max_records)%N ->
  (payload_bytes p0 <= max_bytes)%N ->
  exists p q, entries = p ++ q /\
    take_records max_records max_bytes (record_of <$> p0) (payload_bytes p0) (last_seq cursor p0) entries =
      (record_of <$> (p0 ++ p), last_seq cursor (p0 ++ p)) /\
    (p0 = [] -> entries <> [] -> p <> []) /\
    (N.of_nat (length (p0 ++ p)) <= max_records)%N /\
    ((payload_bytes (p0 ++ p) <= max_bytes)%N \/ length (p0 ++ p) = 1).
Proof.
  intros Hmr Hmb. revert p0. induction entries as [|e entries IH]; intros p0 Hl Hb; cbn [take_records].
  { exists [], []. rewrite (app_nil_r p0). split_and!; [done..|done|by left]. }
  rewrite length_fmap. set (size := N.of_nat (length (le_payload e))).
  destruct ((max_records <=? N.of_nat (length p0))%N || (max_bytes <? saturating_add (payload_bytes p0) size)%N)
    eqn:Hover.
  - destruct (decide (p0 = [])) as [->|Hne].
    + simpl. exists [e], entries. simpl. split_and!; [done..|lia|by right].
    + rewrite bool_decide_false by (by destruct p0). simpl.
      exists [], (e :: entries). rewrite (app_nil_r p0). split_and!; [done..|done|by left].
  - apply orb_false_iff in Hover as [Hr%N.leb_gt Hs%N.ltb_ge].
    assert (Hsum : saturating_add (payload_bytes p0) size = payload_bytes (p0 ++ [e])).
    { rewrite payload_bytes_app. simpl. fold size. revert Hs. unfold saturating_add. lia. }
    rewrite Hsum in *. simpl.
    destruct (IH (p0 ++ [e])) as (p & q & -> & Ht & _ & Hl' & Hb'); [rewrite length_app; simpl; lia|done|].
    exists (e :: p), q. rewrite <- app_assoc in Ht, Hl', Hb'. simpl in Ht, Hl', Hb'.
    split_and!; try done. rewrite <- Ht, fmap_app.
    f_equal. unfold last_seq. by rewrite last_snoc.
Qed.

(** The entries past a cursor. *)
Definition past (cursor : N) (l : list LogEntry) : list LogEntry :=
  filter (fun e => (cursor < le_seq e)%N) l.

Lemma past_all cursor l : Forall (fun e => (cursor < le_seq e)%N) l -> past cursor l = l.
Proof.
  unfold past. induction 1 as [|e l He _ IH]; [done|]. rewrite filter_cons_True by done. by rewrite IH.
Qed.

Lemma past_none cursor l : Forall (fun e => (le_seq e <= cursor)%N) l -> past cursor l = [].
Proof.
  unfold past. induction 1 as [|e l He _ IH]; [done|]. rewrite filter_cons_False by lia. done.
Qed.

Lemma past_app cursor l1 l2 : past cursor (l1 ++ l2) = past cursor l1 ++ past cursor l2.
Proof. apply filter_app. Qed.

Lemma increasing_app l1 l2 :
  increasing (l1 ++ l2) ->
  increasing l1 /\ increasing l2 /\ Forall (fun a => Forall (fun b => (le_seq a < le_seq b)%N) l2) l1.
Proof.
  unfold increasing. induction l1 as [|a l1 IH]; simpl; intros H; [split_and!; [constructor|done|constructor]|].
  inversion H as [|? ? Hs Hf]; subst. destruct (IH Hs) as (H1 & H2 & H3).
  apply Forall_app in Hf as [Hf1 Hf2]. split_and!; [by constructor|done|by constructor].
Qed.

Lemma last_seq_bound cursor p :
  increasing p -> Forall (fun e => (cursor < le_seq e)%N) p ->
  Forall (fun e => (le_seq e <= last_seq cursor p)%N) p /\ (cursor <= last_seq cursor p)%N.
Proof.
  intros Hi Hf. destruct (snoc_inv p) as [->|(p' & x & ->)]; [split; [by apply Forall_nil_2|unfold last_seq; simpl; lia]|].
  unfold last_seq. rewrite last_snoc. apply increasing_app in Hi as (_ & _ & Hx).
  apply Forall_app in Hf as [_ Hf]. apply Forall_cons in Hf as [Hx' _]. split; [|lia].
  apply Forall_app. split; [|by repeat constructor].
  eapply Forall_impl; [exact Hx|]. intros e He. apply Forall_cons in He as [He _]. lia.
Qed.

(** Reading on from where a read stopped finds exactly what it left. *)
Lemma past_next cursor l p q :
  increasing l -> past cursor l = p ++ q -> past (last_seq cursor p) l = q.
Proof.
  intros Hi Hpq. assert (Hsplit : exists l0, l = l0 ++ p ++ q /\
      Forall (fun e => (le_seq e <= cursor)%N) l0 /\ Forall (fun e => (cursor < le_seq e)%N) (p ++ q)).
  { rewrite <- Hpq. clear Hpq p q. induction l as [|e l IH]; [exists []; split_and!; constructor|].
    inversion Hi as [|? ? Hs Hf]; subst. destruct (decide (cursor < le_seq e)%N) as [Hlt|Hge].
    - exists []. assert (Hall : Forall (fun x => (cursor < le_seq x)%N) (e :: l)).
      { constructor; [done|]. eapply Forall_impl; [exact Hf|]. simpl. lia. }
      rewrite past_all by done. split_and!; [done|constructor|done].
    - destruct (IH Hs) as (l0 & Hl0 & Hle & Hgt). exists (e :: l0).
      unfold past. rewrite filter_cons_False by done. fold (past cursor l).
      split_and!; [simpl; congruence|constructor; [lia|done]|done]. }
  destruct Hsplit as (l0 & -> & Hle & Hgt).
  apply increasing_app in Hi as (_ & Hi & _). apply increasing_app in Hi as (Hp & Hq & Hpq').
  apply Forall_app in Hgt as [Hgp Hgq]. destruct (last_seq_bound cursor p Hp Hgp) as [Hb Hc].
  rewrite !past_app, (past_none _ l0), (past_none _ p) by
    (done || (eapply Forall_impl; [exact Hle|]; simpl; lia)). simpl. apply past_all.
  destruct (snoc_inv p) as [->|(p' & x & ->)]; [done|]. unfold last_seq. rewrite last_snoc.
  apply Forall_app in Hpq' as [_ Hx]. by apply Forall_cons in Hx as [Hx _].
Qed.

Lemma existsb_past cursor l : existsb (fun e => (cursor <? le_seq e)%N) l = negb (bool_decide (past cursor l = [])).
Proof.
  unfold past. induction l as [|e l IH]; simpl; [done|]. rewrite filter_cons.
  destruct (N.ltb_spec cursor (le_seq e)).
  - by rewrite decide_True.
  - rewrite decide_False by lia. apply IH.
Qed.

Lemma max_bytes_small read bytes : (bytes < usize_max)%N -> (max_bytes_of read bytes < usize_max)%N.
Proof. unfold max_bytes_of. lia. Qed.

Lemma ring_read_spec r read bytes :
  increasing (ring_entries r) -> (bytes < usize_max)%N ->
  let cursor := match er_cursor read with Some c => c | None => 0%N end in
  let batch := ring_read r read bytes in
  exists p q, past cursor (ring_entries r) = p ++ q /\
    eb_records batch = record_of <$> p /\ eb_next_cursor batch = last_seq cursor p /\
    past (eb_next_cursor batch) (ring_entries r) = q /\
    (past cursor (ring_entries r) <> [] -> p <> []) /\
    eb_complete batch = ring_complete r && bool_decide (q = []) /\
    (N.of_nat (length p) <= max_records_of read)%N /\
    ((payload_bytes p <= max_bytes_of read bytes)%N \/ length p = 1).
Proof.
  intros Hi Hb. cbv zeta. unfold ring_read.
  set (cursor := match er_cursor read with Some c => c | None => 0%N end).
  change (filter (fun e => (cursor < le_seq e)%N) (ring_entries r)) with (past cursor (ring_entries r)).
  destruct (take_records_spec (max_records_of read) (max_bytes_of read bytes) [] cursor
    (past cursor (ring_entries r))) as (p & q & Hpq & Ht & Hne & Hl & Hbytes);
    [unfold max_records_of; lia|by apply max_bytes_small|simpl; unfold max_records_of; lia|simpl; lia|].
  simpl in Ht, Hl, Hbytes. unfold last_seq at 1 in Ht. simpl in Ht. rewrite Ht.
  exists p, q. pose proof (past_next _ _ _ _ Hi Hpq) as Hnext. cbn [eb_records eb_next_cursor eb_complete].
  rewrite existsb_past, Hnext, negb_involutive. split_and!; try done. intros. by apply Hne.
Qed.

Lemma past_numbered c from l :
  past c (numbered from l) =
  numbered (from + (c + 1 - from)) (drop (N.to_nat (c + 1 - from)) l).
Proof.
  revert from. induction l as [|p l IH]; intros from; cbn [numbered].
  - by rewrite drop_nil.
  - unfold past. destruct (decide (c < from)%N) as [Hlt|Hge].
    + rewrite filter_cons_True by done. fold (past c (numbered (from + 1) l)).
      destruct (numbered_increasing (from + 1) l) as [_ Hf].
      rewrite past_all by (eapply Forall_impl; [exact Hf|]; simpl; lia).
      replace (c + 1 - from)%N with 0%N by lia. simpl. f_equal; [f_equal; lia|f_equal; lia].
    + rewrite filter_cons_False by (simpl; lia). fold (past c (numbered (from + 1) l)). rewrite IH.
      replace (N.to_nat (c + 1 - from)) with (S (N.to_nat (c + 1 - (from + 1)))) by lia. simpl.
      f_equal. lia.
Qed.

(** What a reader at a cursor is owed: the reset record if history past its
    cursor was dropped, then every later payload, under its own number. *)
Definition owed (reset : list N) (history : list (list N)) (k : nat) (cursor : nat) : list LogEntry :=
  (if cursor <? k then [{| le_seq := N.of_nat k; le_payload := reset; le_reset := true |}] else []) ++
  numbered (N.of_nat (Nat.max cursor k) + 1) (drop (Nat.max cursor k) history).

Lemma past_log_view reset history k cursor :
  past (N.of_nat cursor) (log_view reset history k) = owed reset history k cursor.
Proof.
  unfold log_view, owed. rewrite past_app, past_numbered, drop_drop. f_equal.
  - unfold reset_entry, past. destruct (Nat.eqb_spec k 0) as [->|].
    + by destruct (Nat.ltb_spec cursor 0); [lia|].
    + destruct (Nat.ltb_spec cursor k).
      * by rewrite filter_cons_True, filter_nil by (simpl; lia).
      * by rewrite filter_cons_False, filter_nil by (simpl; lia).
  - f_equal; [lia|]. f_equal. lia.
Qed.

(** A reader that reads on from each batch's cursor until one is empty. *)
Definition at_cursor (read : EventsRead) (cursor : N) : EventsRead :=
  {| er_operation := er_operation read; er_stream := er_stream read; er_cursor := Some cursor;
     er_max_records := er_max_records read; er_max_bytes := er_max_bytes read;
     er_wait := er_wait read |}.

Fixpoint read_on (fuel : nat) (r : Ring) (read : EventsRead) (bytes : N) (cursor : N)
    : list (N * list N) :=
  match fuel with
  | 0 => []
  | S fuel' =>
      let batch := ring_read r (at_cursor read cursor) bytes in
      if bool_decide (eb_records batch = []) then []
      else eb_records batch ++ read_on fuel' r read bytes (eb_next_cursor batch)
  end.

Lemma read_on_past fuel r read bytes cursor :
  increasing (ring_entries r) -> (bytes < usize_max)%N ->
  length (past cursor (ring_entries r)) <= fuel ->
  read_on fuel r read bytes cursor = record_of <$> past cursor (ring_entries r).
Proof.
  intros Hi Hb. revert cursor. induction fuel as [|fuel IH]; intros cursor Hlen; simpl.
  { by rewrite (nil_length_inv (past cursor (ring_entries r))) by lia. }
  destruct (ring_read_spec r (at_cursor read cursor) bytes Hi Hb)
    as (p & q & Hpq & Hrec & Hcur & Hnext & Hne & _). simpl in *.
  rewrite Hrec. case_bool_decide as Hp.
  - destruct (past cursor (ring_entries r)) as [|x l] eqn:E; [done|]. by destruct p; [destruct Hne|].
  - rewrite Hpq, fmap_app, IH, Hnext; [done|]. rewrite Hnext. rewrite Hpq, length_app in Hlen.
    destruct p; simpl in *; [done|lia].
Qed.

(** ** Main theorems *)

(** The log of one operation: its appends, then perhaps its completion. *)
Definition log_of (capacity : nat) (reset : list N) (history : list (list N)) (done_ : bool) : Ring :=
  let r := foldl ring_push (new_ring capacity reset) history in
  if done_ then complete_ring r else r.

Lemma log_of_holds capacity reset history done_ :
  ring_holds (log_of capacity reset history done_) history /\
  ring_reset (log_of capacity reset history done_) = reset /\
  ring_capacity (log_of capacity reset history done_) = Nat.max capacity 2.
Proof.
  destruct (pushes_hold (new_ring capacity reset) [] history) as [_ Hh];
    [done|apply new_ring_holds|]. simpl in Hh.
  assert (Hsame : forall l r, ring_reset (foldl ring_push r l) = ring_reset r /\
    ring_capacity (foldl ring_push r l) = ring_capacity r).
  { induction l as [|p l IH]; intros r; simpl; [done|]. rewrite !(proj1 (IH _)), !(proj2 (IH _)).
    unfold ring_push. by destruct (ring_complete r). }
  destruct (Hsame history (new_ring capacity reset)) as [Hr Hc].
  unfold log_of. destruct done_; [|by split_and!]. split_and!; [|done..].
  destruct Hh as [H1 H2 H3]. by split.
Qed.


Definition demo_read : EventsRead :=
  {| er_operation := lit "op-1"; er_stream := lit "s"; er_cursor := None;
     er_max_records := Some 1%N; er_max_bytes := None; er_wait := 0 |}.


(** One read of an event log returns a prefix of what is past its cursor,
    at least one record when there is one, within its record limit and within
    its byte limit unless a single record exceeds it; the cursor it gives
    reads on exactly at the rest; and it says complete exactly when the
    operation is terminal and nothing is left. *)
Theorem event_read_bounds (capacity : nat) (reset : list N) (history : list (list N))
    (done_ : bool) (read : EventsRead) (bytes : N) (Hb : (bytes < usize_max)%N) :
  let r := log_of capacity reset history done_ in
  let cursor := match er_cursor read with Some c => c | None => 0%N end in
  let batch := ring_read r read bytes in
  exists p q, past cursor (ring_entries r) = p ++ q /\
    eb_records batch = record_of <$> p /\
    past (eb_next_cursor batch) (ring_entries r) = q /\
    (past cursor (ring_entries r) <> [] -> p <> []) /\
    eb_complete batch = done_ && bool_decide (q = []) /\
    (N.of_nat (length p) <= max_records_of read)%N /\
    ((payload_bytes p <= max_bytes_of read bytes)%N \/ length p = 1).
Proof.
  cbv zeta. destruct (log_of_holds capacity reset history done_) as ([_ _ He] & _ & _).
  destruct (ring_read_spec (log_of capacity reset history done_) read bytes)
    as (p & q & H1 & H2 & _ & H3 & H4 & H5 & H6); [rewrite He; apply log_view_increasing|done|].
  exists p, q. split_and!; try done; [|apply H6..].
  rewrite H5. f_equal. unfold log_of.
  destruct done_; [done|]. destruct (pushes_hold (new_ring capacity reset) [] history) as [Hc _];
    [done|apply new_ring_holds|done].
Qed.

Lemma event_read_bounds_witness :
  let r := log_of 2 [0%N] [[1%N]; [2%N]; [3%N]] true in
  exists p q, past 0 (ring_entries r) = p ++ q /\
    eb_records (ring_read r demo_read 100) = record_of <$> p /\
    past (eb_next_cursor (ring_read r demo_read 100)) (ring_entries r) = q /\
    (past 0 (ring_entries r) <> [] -> p <> []) /\
    eb_complete (ring_read r demo_read 100) = true && bool_decide (q = []) /\
    (N.of_nat (length p) <= max_records_of demo_read)%N /\
    ((payload_bytes p <= max_bytes_of demo_read 100)%N \/ length p = 1).
Proof. exact (event_read_bounds 2 [0%N] [[1%N]; [2%N]; [3%N]] true demo_read 100 eq_refl). Defined.
