(* ===== verification/SessionGate.v ===== *)
(** Cancellation tokens and operation gates
    (src/crates/session-host/src/token.rs and gate.rs).

    A token's callbacks are numbered as they register; what a callback does is
    its owner's. The steps are those whose interleavings can be observed: the
    flag is an atomic, the list of callbacks is behind a lock, and a crossing's
    closure runs while its gate's lock is held. *)

From S2P Require Export Prelude.

(** ** Tokens *)

Inductive Refused : Type := RefusedCancelled | RefusedRevoked.

#[global] Instance Refused_eq_dec : EqDecision Refused.
Proof. solve_decision. Defined.

(** Where the one cancelling call is. *)
Inductive Cancelling : Type :=
| NotCancelled
| Swapped
| Running (left_ : list nat).

Record Token : Type := mkToken {
  tk_cancelling : Cancelling;
  tk_next : nat;
  tk_pending : list nat;
  tk_registering : bool;
  tk_ran : list nat;
  tk_detached : list nat;
}.

Definition new_token : Token :=
  {| tk_cancelling := NotCancelled; tk_next := 0; tk_pending := []; tk_registering := false;
     tk_ran := []; tk_detached := [] |}.

Definition is_cancelled (t : Token) : bool :=
  match tk_cancelling t with NotCancelled => false | _ => true end.

(** [Vec::swap_remove]: the last element takes the removed one's place. *)
Definition swap_remove (i : nat) (l : list nat) : list nat :=
  match last l with
  | Some x => if S i =? length l then removelast l else <[i:=x]> (removelast l)
  | None => l
  end.

Fixpoint position (id : nat) (l : list nat) : option nat :=
  match l with
  | [] => None
  | x :: l' => if x =? id then Some 0 else S <$> position id l'
  end.

(** [on_cancel], under the callbacks' lock: the check, then the push. *)
Definition on_cancel_check (t : Token) : result Token Refused :=
  if is_cancelled t then Err RefusedCancelled
  else Ok {| tk_cancelling := tk_cancelling t; tk_next := tk_next t; tk_pending := tk_pending t;
             tk_registering := true; tk_ran := tk_ran t; tk_detached := tk_detached t |}.

Definition on_cancel_push (t : Token) : nat * Token :=
  (tk_next t,
   {| tk_cancelling := tk_cancelling t; tk_next := tk_next t + 1;
      tk_pending := tk_pending t ++ [tk_next t]; tk_registering := false;
      tk_ran := tk_ran t; tk_detached := tk_detached t |}).

(** [CancelRegistration::drop], under the callbacks' lock. *)
Definition drop_registration (t : Token) (id : nat) : Token :=
  match position id (tk_pending t) with
  | None => t
  | Some i =>
      {| tk_cancelling := tk_cancelling t; tk_next := tk_next t;
         tk_pending := swap_remove i (tk_pending t); tk_registering := tk_registering t;
         tk_ran := tk_ran t; tk_detached := tk_detached t ++ [id] |}
  end.

(** [TokenInner::cancel]: the swap of the flag, the taking of the callbacks
    under their lock, and the run of each. *)
Definition cancel_swap (t : Token) : option Token :=
  if is_cancelled t then None
  else Some {| tk_cancelling := Swapped; tk_next := tk_next t; tk_pending := tk_pending t;
               tk_registering := tk_registering t; tk_ran := tk_ran t; tk_detached := tk_detached t |}.

Definition cancel_take (t : Token) : Token :=
  {| tk_cancelling := Running (tk_pending t); tk_next := tk_next t; tk_pending := [];
     tk_registering := tk_registering t; tk_ran := tk_ran t; tk_detached := tk_detached t |}.

Definition cancel_run (t : Token) : Token :=
  match tk_cancelling t with
  | Running (id :: left_) =>
      {| tk_cancelling := Running left_; tk_next := tk_next t; tk_pending := tk_pending t;
         tk_registering := tk_registering t; tk_ran := tk_ran t ++ [id]; tk_detached := tk_detached t |}
  | _ => t
  end.

(** [tk_registering] is the lock held by a registration past its check. *)
Inductive token_step : Token -> Token -> Prop :=
| token_check t t' :
    tk_registering t = false -> on_cancel_check t = Ok t' -> token_step t t'
| token_push t :
    tk_registering t = true -> token_step t (on_cancel_push t).2
| token_drop t id :
    tk_registering t = false -> token_step t (drop_registration t id)
| token_swap t t' : cancel_swap t = Some t' -> token_step t t'
| token_take t :
    tk_registering t = false -> tk_cancelling t = Swapped -> token_step t (cancel_take t)
| token_run t : token_step t (cancel_run t).

Definition to_run (t : Token) : list nat :=
  match tk_cancelling t with Running left_ => left_ | _ => [] end.

Definition taken (t : Token) : bool :=
  match tk_cancelling t with Running _ => true | _ => false end.

Record token_inv (t : Token) : Prop := {
  ti_accounted : tk_ran t ++ to_run t ++ tk_pending t ++ tk_detached t ≡ₚ seq 0 (tk_next t);
  ti_taken : taken t = true -> tk_pending t = [] /\ tk_registering t = false;
  ti_early : taken t = false -> tk_ran t = [];
}.

Lemma position_split id l i :
  position id l = Some i -> exists l1 l2, l = l1 ++ id :: l2 /\ length l1 = i.
Proof.
  revert i. induction l as [|x l IH]; intros i; simpl; [done|].
  destruct (Nat.eqb_spec x id) as [->|].
  - intros [= <-]. by exists [], l.
  - destruct (position id l) as [j|]; simpl; [|done]. intros [= <-].
    destruct (IH j eq_refl) as (l1 & l2 & -> & <-). by exists (x :: l1), l2.
Qed.

Lemma swap_remove_split l1 id l2 : id :: swap_remove (length l1) (l1 ++ id :: l2) ≡ₚ l1 ++ id :: l2.
Proof.
  unfold swap_remove. destruct (snoc_inv l2) as [->|(l2' & x & ->)].
  - rewrite last_snoc, length_app, (proj2 (Nat.eqb_eq _ _)), removelast_snoc by (simpl; lia).
    apply Permutation_cons_append.
  - rewrite app_comm_cons, app_assoc, last_snoc, removelast_snoc, !length_app.
    rewrite (proj2 (Nat.eqb_neq _ _)) by (simpl; rewrite ?length_app; simpl; lia).
    rewrite insert_app_r_alt, Nat.sub_diag by lia. simpl.
    rewrite <- app_assoc. simpl. rewrite <- !Permutation_middle. by rewrite app_nil_r.
Qed.

Lemma push_accounted (a b c d : list nat) (n : nat) :
  a ++ b ++ (c ++ [n]) ++ d ≡ₚ (a ++ b ++ c ++ d) ++ [n].
Proof. rewrite <- !app_assoc. do 3 apply Permutation_app_head. apply Permutation_cons_append. Qed.

Lemma token_inv_step t t' : token_inv t -> token_step t t' -> token_inv t'.
Proof.
  intros [Ha Ht He] Hs.
  destruct Hs as [t t' Hl Hc|t Hl|t id Hl|t t' Hc|t Hl Hc|t]; unfold to_run, taken in *.
  - unfold on_cancel_check, is_cancelled in Hc. destruct (tk_cancelling t) eqn:E; [|done..].
    simplify_eq. split; unfold to_run, taken; simpl; rewrite ?E; done.
  - destruct (tk_cancelling t) eqn:E;
      (split; unfold to_run, taken; simpl; rewrite ?E; [|try done..]);
      try (by destruct (Ht eq_refl); congruence);
      rewrite Nat.add_1_r, seq_S, <- Ha; apply (push_accounted _ []).
  - unfold drop_registration. destruct (position id (tk_pending t)) as [i|] eqn:Hp; [|by split].
    apply position_split in Hp as (l1 & l2 & Hpl & <-).
    assert (Hperm : swap_remove (length l1) (tk_pending t) ++ tk_detached t ++ [id] ≡ₚ
      tk_pending t ++ tk_detached t).
    { pose proof (swap_remove_split l1 id l2) as Hsw. rewrite <- Hpl in Hsw.
      revert Hsw. generalize (swap_remove (length l1) (tk_pending t)). intros l <-.
      rewrite app_assoc. symmetry. apply Permutation_cons_append. }
    split; unfold to_run, taken; simpl; [by rewrite Hperm| |done].
    intros Hx. destruct (Ht Hx) as [Hnil _]. rewrite Hnil in Hpl. by destruct l1.
  - unfold cancel_swap, is_cancelled in Hc. destruct (tk_cancelling t) eqn:E; [|done..].
    simplify_eq. split; unfold to_run, taken; simpl; done.
  - rewrite Hc in *. split; unfold to_run, taken; simpl; [|done|done].
    rewrite <- Ha. done.
  - unfold cancel_run. destruct (tk_cancelling t) as [| |[|id left_]] eqn:E; try (split; unfold to_run, taken; by rewrite E).
    split; unfold to_run, taken; simpl; [|done|done]. rewrite <- Ha. by rewrite <- app_assoc.
Qed.

Lemma token_reachable t : rtc token_step new_token t -> token_inv t.
Proof.
  revert t. apply rtc_ind_r; [by split|]. intros y z _ Hs Hi. by eapply token_inv_step.
Qed.

(** ** Gates *)

Inductive GateState : Type := GateLive | GateCancelled | GateRevoked.

#[global] Instance GateState_eq_dec : EqDecision GateState.
Proof. solve_decision. Defined.

(** [GateInner]: the token's flag, the session's lifetime, the revocation
    flag, and the thread running a crossing's closure, which holds the
    crossing lock while it does. *)
Record Gate : Type := mkGate {
  g_cancelled : bool;
  g_session : bool;
  g_revoked : bool;
  g_crosser : option nat;
}.

(** [CallControls::new], for a session that is alive. *)
Definition new_gate : Gate :=
  {| g_cancelled := false; g_session := true; g_revoked := false; g_crosser := None |}.

(** [GateInner::state]. *)
Definition gate_state (g : Gate) : GateState :=
  if g_revoked g || negb (g_session g) then GateRevoked
  else if g_cancelled g then GateCancelled
  else GateLive.

Definition set_crosser (g : Gate) (t : option nat) : Gate :=
  {| g_cancelled := g_cancelled g; g_session := g_session g; g_revoked := g_revoked g; g_crosser := t |}.

(** [CallControls::cancel]. *)
Definition gate_cancel (g : Gate) : Gate :=
  {| g_cancelled := true; g_session := g_session g; g_revoked := g_revoked g; g_crosser := g_crosser g |}.

(** What a call of [cross] or [revoke] meets: the backstop's panic, a wait
    for the crossing lock, a refusal, or its run. *)
Inductive Crossed : Type := CrossPanics | CrossWaits | CrossRevoked | CrossCancelled | CrossRuns.

#[global] Instance Crossed_eq_dec : EqDecision Crossed.
Proof. solve_decision. Defined.

(** [GateInner::forbid_reentry]. *)
Definition reenters (g : Gate) (thread : nat) : bool := bool_decide (g_crosser g = Some thread).

(** [OperationGate::cross], up to the start of its closure. *)
Definition cross (g : Gate) (thread : nat) (refuse_if_cancelled : bool) : Crossed * Gate :=
  if reenters g thread then (CrossPanics, g)
  else match g_crosser g with
  | Some _ => (CrossWaits, g)
  | None =>
      if g_revoked g then (CrossRevoked, g)
      else if negb (g_session g) then (CrossRevoked, g)
      else if refuse_if_cancelled && g_cancelled g then (CrossCancelled, g)
      else (CrossRuns, set_crosser g (Some thread))
  end.

(** [effect], [append] and [report], by what becomes of their closure. *)
Definition effect (g : Gate) (thread : nat) : Crossed * Gate := cross g thread true.
Definition append (g : Gate) (thread : nat) : Crossed * Gate := cross g thread true.
Definition report (g : Gate) (thread : nat) : Crossed * Gate := cross g thread false.

(** The end of a closure, its unwinding included. *)
Definition crossing_ends (g : Gate) : Gate := set_crosser g None.

(** [CallControls::revoke]: the backstop and the cancel, then the flag under
    the crossing lock. *)
Definition revoke_begin (g : Gate) (thread : nat) : option Gate :=
  if reenters g thread then None else Some (gate_cancel g).

Definition revoke_end (g : Gate) : option Gate :=
  match g_crosser g with
  | Some _ => None
  | None => Some {| g_cancelled := g_cancelled g; g_session := g_session g; g_revoked := true;
                    g_crosser := None |}
  end.

(** The session's last strong reference goes; a crossing holds one. *)
Definition session_ends (g : Gate) : option Gate :=
  match g_crosser g with
  | Some _ => None
  | None => Some {| g_cancelled := g_cancelled g; g_session := false; g_revoked := g_revoked g;
                    g_crosser := None |}
  end.

(** A gate with the threads inside [revoke], past its cancel. *)
Record GateSystem : Type := mkGateSystem { gs_gate : Gate; gs_revoking : nat }.

Inductive gate_step : GateSystem -> GateSystem -> Prop :=
| gstep_cross s thread refuse :
    gate_step s {| gs_gate := (cross (gs_gate s) thread refuse).2; gs_revoking := gs_revoking s |}
| gstep_end s : gate_step s {| gs_gate := crossing_ends (gs_gate s); gs_revoking := gs_revoking s |}
| gstep_cancel s : gate_step s {| gs_gate := gate_cancel (gs_gate s); gs_revoking := gs_revoking s |}
| gstep_revoke s thread g' :
    revoke_begin (gs_gate s) thread = Some g' ->
    gate_step s {| gs_gate := g'; gs_revoking := S (gs_revoking s) |}
| gstep_revoked s g' n :
    gs_revoking s = S n -> revoke_end (gs_gate s) = Some g' ->
    gate_step s {| gs_gate := g'; gs_revoking := n |}
| gstep_session s g' :
    session_ends (gs_gate s) = Some g' ->
    gate_step s {| gs_gate := g'; gs_revoking := gs_revoking s |}.

Definition gate_init : GateSystem := {| gs_gate := new_gate; gs_revoking := 0 |}.

(** The order in which a gate's states come. *)
Definition gate_rank (s : GateState) : nat :=
  match s with GateLive => 0 | GateCancelled => 1 | GateRevoked => 2 end.

Record gate_inv (s : GateSystem) : Prop := {
  gi_revoked : gate_state (gs_gate s) = GateRevoked -> g_crosser (gs_gate s) = None;
  gi_cancelled : g_revoked (gs_gate s) = true \/ gs_revoking s <> 0 -> g_cancelled (gs_gate s) = true;
}.

Lemma cross_cases g thread refuse :
  (exists c, c <> CrossRuns /\ cross g thread refuse = (c, g)) \/
  (cross g thread refuse = (CrossRuns, set_crosser g (Some thread)) /\ g_crosser g = None /\
   g_revoked g = false /\ g_session g = true /\ (refuse = true -> g_cancelled g = false)).
Proof.
  unfold cross. destruct (reenters g thread); [left; by exists CrossPanics|].
  destruct (g_crosser g); [left; by exists CrossWaits|].
  destruct (g_revoked g) eqn:Hr; [left; by exists CrossRevoked|].
  destruct (g_session g) eqn:Hs; simpl; [|left; by exists CrossRevoked].
  destruct (refuse && g_cancelled g) eqn:Hc; [left; by exists CrossCancelled|].
  right. split_and!; try done. intros ->. done.
Qed.

Lemma revoke_end_some g g' :
  revoke_end g = Some g' ->
  g_crosser g = None /\ g' = {| g_cancelled := g_cancelled g; g_session := g_session g;
                               g_revoked := true; g_crosser := None |}.
Proof. unfold revoke_end. destruct (g_crosser g); naive_solver. Qed.

Lemma session_ends_some g g' :
  session_ends g = Some g' ->
  g_crosser g = None /\ g' = {| g_cancelled := g_cancelled g; g_session := false;
                               g_revoked := g_revoked g; g_crosser := None |}.
Proof. unfold session_ends. destruct (g_crosser g); naive_solver. Qed.

Lemma revoke_begin_some g thread g' :
  revoke_begin g thread = Some g' -> g' = gate_cancel g /\ g_crosser g <> Some thread.
Proof. unfold revoke_begin, reenters. case_bool_decide; naive_solver. Qed.

Lemma gate_cancel_revoked g : gate_state (gate_cancel g) = GateRevoked -> gate_state g = GateRevoked.
Proof. unfold gate_state, gate_cancel. simpl. by destruct (g_revoked g || _). Qed.

Lemma gate_inv_step s s' : gate_inv s -> gate_step s s' -> gate_inv s'.
Proof.
  intros [Hr Hc] Hs. destruct Hs as [s thread refuse|s|s|s thread g' H|s g' n Hn H|s g' H].
  - destruct (cross_cases (gs_gate s) thread refuse) as [(c & _ & ->)|(-> & _ & Hnr & Hsess & _)]; [by split|].
    split; simpl; [|done]. unfold gate_state. simpl. rewrite Hnr, Hsess. simpl. by destruct (g_cancelled (gs_gate s)).
  - split; simpl; done.
  - split; simpl; [|done]. intros Hst. by apply Hr, gate_cancel_revoked.
  - apply revoke_begin_some in H as [-> _]. split; simpl; [|done]. intros Hst. by apply Hr, gate_cancel_revoked.
  - apply revoke_end_some in H as [_ ->]. split; simpl; [done|]. intros _. apply Hc. right. lia.
  - apply session_ends_some in H as [_ ->]. split; simpl; done.
Qed.

Lemma gate_reachable s : rtc gate_step gate_init s -> gate_inv s.
Proof.
  revert s. apply rtc_ind_r; [by split; simpl; [|intros []]|]. intros y z _ Hs Hi.
  by eapply gate_inv_step.
Qed.

Lemma gate_step_monotone s s' :
  gate_step s s' -> gate_rank (gate_state (gs_gate s)) <= gate_rank (gate_state (gs_gate s')).
Proof.
  intros Hs. destruct Hs as [s thread refuse|s|s|s thread g' H|s g' n Hn H|s g' H]; simpl.
  - by destruct (cross_cases (gs_gate s) thread refuse) as [(c & _ & ->)|(-> & _)].
  - done.
  - unfold gate_state. simpl. destruct (g_revoked (gs_gate s)), (g_session (gs_gate s)), (g_cancelled (gs_gate s)); simpl; lia.
  - apply revoke_begin_some in H as [-> _]. unfold gate_state. simpl.
    destruct (g_revoked (gs_gate s)), (g_session (gs_gate s)), (g_cancelled (gs_gate s)); simpl; lia.
  - apply revoke_end_some in H as [_ ->]. unfold gate_state. simpl.
    destruct (g_revoked (gs_gate s)), (g_session (gs_gate s)), (g_cancelled (gs_gate s)); simpl; lia.
  - apply session_ends_some in H as [_ ->]. unfold gate_state. simpl.
    destruct (g_revoked (gs_gate s)), (g_session (gs_gate s)), (g_cancelled (gs_gate s)); simpl; lia.
Qed.

Lemma gate_steps_monotone s s' :
  rtc gate_step s s' -> gate_rank (gate_state (gs_gate s)) <= gate_rank (gate_state (gs_gate s')).
Proof. induction 1 as [|x y z Hs _ IH]; [lia|]. pose proof (gate_step_monotone _ _ Hs). lia. Qed.

(** ** Main theorems *)

(** A token's callbacks run once. Over every interleaving of
    registrations, detachments and cancels, each registered callback is in
    exactly one place: run, about to run, attached or detached; none runs
    before the token is cancelled; and once the cancelling call has taken
    them, none is left attached and none can attach, so when it is done every
    callback not detached has run. *)
Theorem callbacks_run_once (t : Token) (Hr : rtc token_step new_token t) :
  NoDup (tk_ran t ++ to_run t ++ tk_pending t ++ tk_detached t) /\
  (forall id, id < tk_next t ->
     id ∈ tk_ran t \/ id ∈ to_run t \/ id ∈ tk_pending t \/ id ∈ tk_detached t) /\
  (is_cancelled t = false -> tk_ran t = [] /\ to_run t = []) /\
  (taken t = true -> tk_pending t = [] /\ on_cancel_check t = Err RefusedCancelled).
Proof.
  apply token_reachable in Hr as [Ha Ht He]. split_and!.
  - rewrite Ha. apply NoDup_seq.
  - intros id Hid. assert (Hin : id ∈ tk_ran t ++ to_run t ++ tk_pending t ++ tk_detached t).
    { rewrite Ha. apply elem_of_seq. lia. }
    rewrite !elem_of_app in Hin. tauto.
  - unfold is_cancelled, taken, to_run in *. destruct (tk_cancelling t); [|done..].
    intros _. split; [by apply He|done].
  - intros H. split; [by apply Ht|]. unfold on_cancel_check, is_cancelled. unfold taken in H.
    by destruct (tk_cancelling t).
Qed.

(** Two callbacks register, one detaches, the token is cancelled and the
    other runs. *)
Definition demo_token : Token :=
  cancel_run (cancel_take
    {| tk_cancelling := Swapped; tk_next := 2; tk_pending := [1]; tk_registering := false;
       tk_ran := []; tk_detached := [0] |}).

Lemma callbacks_run_once_witness :
  tk_pending demo_token = [] /\ on_cancel_check demo_token = Err RefusedCancelled.
Proof.
  refine (proj2 (proj2 (proj2 (callbacks_run_once demo_token _))) eq_refl).
  eapply rtc_l; [eapply token_check; reflexivity|]. eapply rtc_l; [apply token_push; reflexivity|].
  eapply rtc_l; [eapply token_check; reflexivity|]. eapply rtc_l; [apply token_push; reflexivity|].
  eapply rtc_l; [apply (token_drop _ 0); reflexivity|].
  eapply rtc_l; [eapply token_swap; reflexivity|].
  eapply rtc_l; [apply token_take; reflexivity|].
  eapply rtc_l; [apply token_run|]. apply rtc_refl.
Defined.

(** Revocation is final. Over every interleaving of crossings, cancels,
    revokes and the session's end, once a gate is revoked no crossing is in
    flight and in every later state every crossing is refused as revoked,
    without waiting; a revoked gate's token is cancelled; and a gate's state
    only ever moves from live through cancelled to revoked. *)
Theorem revocation_final (s s' : GateSystem)
    (Hr : rtc gate_step gate_init s) (Hl : rtc gate_step s s')
    (Hs : gate_state (gs_gate s) = GateRevoked) :
  gate_state (gs_gate s') = GateRevoked /\ g_crosser (gs_gate s') = None /\
  (forall thread refuse, cross (gs_gate s') thread refuse = (CrossRevoked, gs_gate s')) /\
  (g_revoked (gs_gate s') = true -> g_cancelled (gs_gate s') = true).
Proof.
  assert (Hs' : gate_state (gs_gate s') = GateRevoked).
  { pose proof (gate_steps_monotone _ _ Hl) as Hm. rewrite Hs in Hm. simpl in Hm.
    destruct (gate_state (gs_gate s')); simpl in Hm; done || lia. }
  destruct (gate_reachable s') as [Hi Hc]; [by etrans|]. pose proof (Hi Hs') as Hn.
  split_and!; try done; [|by auto]. intros thread refuse. unfold cross, reenters.
  rewrite Hn, bool_decide_false by done. unfold gate_state in Hs'.
  destruct (g_revoked (gs_gate s')), (g_session (gs_gate s')); simpl in *; try done.
  by destruct (g_cancelled (gs_gate s')).
Qed.

Definition demo_gate : GateSystem :=
  {| gs_gate := {| g_cancelled := true; g_session := true; g_revoked := true; g_crosser := None |};
     gs_revoking := 0 |}.

Lemma revocation_final_witness :
  cross (gs_gate demo_gate) 3 false = (CrossRevoked, gs_gate demo_gate).
Proof.
  refine (proj1 (proj2 (proj2 (revocation_final demo_gate demo_gate _ _ eq_refl))) 3 false).
  - eapply rtc_l; [apply (gstep_cross _ 3 true)|]. eapply rtc_l; [eapply (gstep_revoke _ 1); reflexivity|].
    eapply rtc_l; [apply gstep_end|]. eapply rtc_l; [eapply gstep_revoked; reflexivity|]. apply rtc_refl.
  - apply rtc_refl.
Defined.

(** What a gate lets through. An effect or an append runs exactly when
    the gate is live and free, a report when it is not revoked and free; a
    refusal says which of the two it was; and a thread inside its own
    crossing is stopped by the backstop instead of waiting for itself, for a
    revoke before it cancels anything. *)
Theorem gate_crossings (g : Gate) (thread : nat) :
  ((effect g thread).1 = CrossRuns <-> gate_state g = GateLive /\ g_crosser g = None) /\
  ((report g thread).1 = CrossRuns <-> gate_state g <> GateRevoked /\ g_crosser g = None) /\
  ((effect g thread).1 = CrossCancelled <-> gate_state g = GateCancelled /\ g_crosser g = None) /\
  ((report g thread).1 = CrossRevoked <-> gate_state g = GateRevoked /\ g_crosser g = None) /\
  (g_crosser g = Some thread ->
   effect g thread = (CrossPanics, g) /\ report g thread = (CrossPanics, g) /\
   revoke_begin g thread = None) /\
  ((report g thread).1 = CrossWaits <-> exists other, other <> thread /\ g_crosser g = Some other).
Proof.
  unfold effect, report, cross, revoke_begin, reenters, gate_state.
  destruct (g_crosser g) as [other|].
  - case_bool_decide as E; simplify_eq; simpl; naive_solver.
  - rewrite bool_decide_false by done.
    destruct (g_revoked g), (g_session g), (g_cancelled g); simpl; naive_solver.
Qed.
