(* ===== verification/Service.v ===== *)
(** The session host's operation service
    (src/crates/session-host/src/service.rs, service/table/*.rs and
    service/workers.rs): the table one lock guards, and every operation on it.

    What core supplies ([HostPorts]) is a record of functions; what resolution
    finds and what a handler's run gives are inputs of the steps that receive
    them; whether a thread could be started, and whether a detached worker
    still runs on a workspace, are answers of an environment. An operation
    builds its replies under the lock and hands them back, as the source
    does. *)

From S2P Require Export SessionGate BTreeMap EventLog.

#[local] Set Implicit Arguments.
#[local] Set Maximal Implicit Insertion.

(** ** Calls and requests *)

Inductive Mode : Type := Unary | Submit.
Inductive LogVerb : Type := VerbRead | VerbEndStream.
Inductive OpClass : Type := Fetch | Push | Write.

#[global] Instance Mode_eq_dec : EqDecision Mode.
Proof. solve_decision. Defined.
#[global] Instance OpClass_eq_dec : EqDecision OpClass.
Proof. solve_decision. Defined.

Record Call : Type := mkCall {
  call_id : N;
  call_method : str;
  call_mode : Mode;
  call_request : list N;
  call_verb : option LogVerb;
}.

Inductive CancelTarget : Type :=
| TargetCall (call : N)
| TargetOperation (operation : str).

Inductive EventsCall : Type :=
| EventsReadCall (read : EventsRead)
| EventsEnd (operation stream : str).

Inductive Request : Type :=
| RqDirect
| RqOperation (class : OpClass) (response_view : bool)
| RqEvents (call : EventsCall)
| RqSpool
| RqResult (operation : str)
| RqResponse (operation : str)
| RqCancel (target : CancelTarget)
| RqRelease (operation : str)
| RqClose.

Record Resolved : Type := mkResolved { workspace : str; request_id : str }.

Record Cleanup : Type := mkCleanup { pending_local_work : N; peer_cleanup_confirmed : bool }.
Definition default_cleanup : Cleanup :=
  {| pending_local_work := 0; peer_cleanup_confirmed := false |}.

Inductive Code : Type :=
| InvalidRequest | OperationNotFound | OpenOperation | OperationExpired
| SessionFull | CodeCancelled | Internal | WorkspaceBusy.

Record HostError : Type := mkHostError { error_code : Code; error_message : str }.

Inductive View : Type := ViewResult | ViewResponse.

#[global] Instance View_eq_dec : EqDecision View.
Proof. solve_decision. Defined.

(** A reply to send once the table lock is released. *)
Record Outgoing : Type := mkOutgoing {
  out_frame : Frame;
  out_lane : Lane;
  out_target : N;
  out_control : bool;
  out_delivers : option (N * View);
}.

Inductive Terminal (Failure : Type) : Type :=
| Completed (response : list N)
| TerminalCancelled (failure : Failure)
| TerminalFailed (failure : Failure).
Arguments Completed {Failure} _.

Record Outcome (Failure : Type) : Type := mkOutcome {
  oc_terminal : Terminal Failure;
  oc_result : list N;
  oc_cleanup : Cleanup;
}.

(** [HostPorts], resolution and running apart. *)
Record HostPorts (Failure : Type) : Type := mkHostPorts {
  ports_decode : list N -> result Call str;
  ports_lane : str -> Lane;
  ports_classify : Call -> result Request HostError;
  ports_spool : Call -> result (list N) Failure;
  ports_failure : HostError -> Failure;
  ports_settled_result : Call -> str -> Failure -> list N;
  ports_detached : Call -> option str -> Failure * list N;
  ports_accepted : Call -> Resolved -> str -> list N;
  ports_reset_event : str -> list N;
  ports_events : EventsRead -> EventsBatch -> list N;
  ports_events_ended : str -> str -> list N;
  ports_cleanup : Cleanup -> list N;
  ports_released : list N;
  ports_reply : N -> list N -> Frame;
  ports_error : N -> Failure -> Frame;
}.

(** ** The table *)

Inductive Phase : Type := Received | Queued | DirectWaiting | PhRunning | PhTerminal.

#[global] Instance Phase_eq_dec : EqDecision Phase.
Proof. solve_decision. Defined.

(** [controls] and [gate] share the call's gate; [rec_gate] says whether the
    record still holds its own. [rec_events] is the operation's log in the
    session's store of logs, which a held read shares. *)
Record CallRecord (Failure : Type) : Type := mkCallRecord {
  rec_call : Call;
  rec_lane : Lane;
  rec_operation : option (str * OpClass);
  rec_controls : Gate;
  rec_gate : bool;
  rec_resolved : option Resolved;
  rec_phase : Phase;
  rec_events : option N;
  rec_outcome : option (Outcome Failure);
  rec_cancels : list N;
  rec_results : list N;
  rec_responses : list N;
  rec_accepted : bool;
  rec_response_view : bool;
  rec_result_delivered : bool;
  rec_response_delivered : bool;
  rec_in_table : bool;
  rec_alive : bool;
}.

(** [Record::delivered]. *)
Definition delivered Failure (r : CallRecord Failure) : bool :=
  rec_result_delivered r && (negb (rec_response_view r) || rec_response_delivered r).

Record Busy : Type := mkBusy { fetches : N; pushes : N; writes : N }.
Definition default_busy : Busy := {| fetches := 0; pushes := 0; writes := 0 |}.

(** [Busy::admits] and [Busy::change]. *)
Definition admits (b : Busy) (class : OpClass) : bool :=
  match class with
  | Fetch => (writes b =? 0)%N
  | Push => (writes b =? 0)%N && (pushes b =? 0)%N
  | Write => (writes b =? 0)%N && (pushes b =? 0)%N && (fetches b =? 0)%N
  end.

Definition busy_count (b : Busy) (class : OpClass) : N :=
  match class with Fetch => fetches b | Push => pushes b | Write => writes b end.

Definition set_busy_count (b : Busy) (class : OpClass) (n : N) : Busy :=
  match class with
  | Fetch => {| fetches := n; pushes := pushes b; writes := writes b |}
  | Push => {| fetches := fetches b; pushes := n; writes := writes b |}
  | Write => {| fetches := fetches b; pushes := pushes b; writes := n |}
  end.

Definition busy_change (b : Busy) (class : OpClass) (up : bool) : Busy :=
  set_busy_count b class
    (if up then (busy_count b class + 1)%N else saturating_sub (busy_count b class) 1).

(** A read held until it has something to return. *)
Record Held : Type := mkHeld {
  held_call : N;
  held_read : EventsRead;
  held_log : N;
  held_deadline : N;
}.

Record State (Failure : Type) : Type := mkState {
  highest_call : N;
  next_operation : N;
  closing : bool;
  ended : bool;
  outstanding : N;
  controls : N;
  records : BTreeMap N (CallRecord Failure);
  operations : gmap str N;
  requests : gmap str N;
  others : gset N;
  pending : list N;
  queue : list N;
  direct_queue : list N;
  direct_running : N;
  running : N;
  busy : gmap str Busy;
  table_entries : N;
  retained : list N;
  held : list Held;
  closers : list N;
  close_report_ : option Cleanup;
  close_started : bool;
  cleanup_pending : N;
  cleanup_confirmed : bool;
  detached_workers : N;
  unflushed : N;
  logs : gmap N Ring;
}.

Definition default_state Failure : State Failure :=
  {| highest_call := 0; next_operation := 1; closing := false; ended := false;
     outstanding := 0; controls := 0; records := bt_empty; operations := ∅; requests := ∅;
     others := ∅; pending := []; queue := []; direct_queue := []; direct_running := 0;
     running := 0; busy := ∅; table_entries := 0; retained := []; held := []; closers := [];
     close_report_ := None; close_started := false; cleanup_pending := 0;
     cleanup_confirmed := false; detached_workers := 0; unflushed := 0; logs := ∅ |}.

#[global] Instance CallRecord_set Failure : Settable (CallRecord Failure) := fun r =>
  mkCallRecord (rec_call r) (rec_lane r) (rec_operation r) (rec_controls r) (rec_gate r)
    (rec_resolved r) (rec_phase r) (rec_events r) (rec_outcome r) (rec_cancels r) (rec_results r)
    (rec_responses r) (rec_accepted r) (rec_response_view r) (rec_result_delivered r)
    (rec_response_delivered r) (rec_in_table r) (rec_alive r).

#[global] Instance State_set Failure : Settable (State Failure) := fun s =>
  mkState (highest_call s) (next_operation s) (closing s) (ended s) (outstanding s) (controls s)
    (records s) (operations s) (requests s) (others s) (pending s) (queue s) (direct_queue s)
    (direct_running s) (running s) (busy s) (table_entries s) (retained s) (held s) (closers s)
    (close_report_ s) (close_started s) (cleanup_pending s) (cleanup_confirmed s)
    (detached_workers s) (unflushed s) (logs s).

#[global] Instance Outgoing_set : Settable Outgoing := fun o =>
  mkOutgoing (out_frame o) (out_lane o) (out_target o) (out_control o) (out_delivers o).

(** Parsing a [u64] as [str::parse] does: an optional plus sign, then digits
    that do not overflow. *)
Fixpoint parse_digits (acc : N) (s : str) : option N :=
  match s with
  | [] => Some acc
  | c :: s' =>
      if is_ascii_digit c then
        let acc' := (acc * 10 + (c - 48))%N in
        if (acc' <=? u64_max)%N then parse_digits acc' s' else None
      else None
  end.

Definition parse_u64 (s : str) : option N :=
  let digits := match s with
                | c :: ((_ :: _) as rest) => if (c =? 43)%N then rest else s
                | _ => s
                end in
  match digits with
  | [] => None
  | _ => parse_digits 0 digits
  end.

Section table.
Context {Failure : Type} (ports : HostPorts Failure) (limits : HostLimits).
Implicit Types (st : State Failure) (outcome : Outcome Failure).

(** *** Replies *)

Definition reply (id : N) (lane : Lane) (body : list N) : Outgoing :=
  {| out_frame := ports_reply ports id body; out_lane := lane; out_target := id;
     out_control := bool_decide (lane = LaneControl); out_delivers := None |}.

Definition error_reply (id : N) (lane : Lane) (failure : Failure) : Outgoing :=
  {| out_frame := ports_error ports id failure; out_lane := lane; out_target := id;
     out_control := bool_decide (lane = LaneControl); out_delivers := None |}.

Definition refuse (id : N) (lane : Lane) (code : Code) (message : str) : Outgoing :=
  error_reply id lane (ports_failure ports {| error_code := code; error_message := message |}).

Definition close_report (id : N) (report : Cleanup) : Outgoing :=
  {| out_frame := ports_reply ports id (ports_cleanup ports report); out_lane := LaneControl;
     out_target := id; out_control := false; out_delivers := None |}.

(** [view_reply]. *)
Definition view_reply (owner id : N) outcome (result_ : bool) : Outgoing :=
  if result_ then
    (reply id LaneCall (oc_result outcome)) <| out_delivers := Some (owner, ViewResult) |>
  else
    (match oc_terminal outcome with
     | Completed response => reply id LaneCall response
     | TerminalCancelled failure | TerminalFailed failure => error_reply id LaneCall failure
     end) <| out_delivers := Some (owner, ViewResponse) |>.

(** *** The table's own operations *)

Definition get_record st (id : N) : option (CallRecord Failure) := bt_get (records st) id.
Definition set_record st (id : N) (r : CallRecord Failure) : State Failure :=
  st <| records := bt_insert (records st) id r |>.

(** [is_live]. *)
Definition is_live st (request : str) : bool :=
  match requests st !! request with Some _ => true | None => false end.

(** [State::answered_on]. *)
Definition answered_on (id : N) (lane : Lane) st : State Failure :=
  let st := st <| others := others st ∖ {[id]} |> in
  match lane with
  | LaneCall => st <| outstanding := saturating_sub (outstanding st) 1 |>
  | LaneControl => st <| controls := saturating_sub (controls st) 1 |>
  end.

(** [State::issued] and [State::operation]. *)
Definition issued st (operation : str) : bool :=
  match strip_prefix (lit "op-") operation with
  | None => false
  | Some serial =>
      match parse_u64 serial with
      | None => false
      | Some serial => (1 <=? serial)%N && (serial <? next_operation st)%N
      end
  end.

Definition find_operation st (operation : str) : result N (Code * str) :=
  match operations st !! operation with
  | Some id => Ok id
  | None =>
      if issued st operation
      then Err (OperationExpired, lit "operation " ++ operation ++ lit " was released or evicted")
      else Err (OperationNotFound, lit "this session issued no operation " ++ operation)
  end.

(** [State::running] and [State::not_started], in call order. *)
Definition running_calls st : list N :=
  (filter (fun e => rec_phase e.2 = PhRunning) (bt_entries (records st))).*1.

Definition not_started st : list N :=
  (filter (fun e => rec_phase e.2 = Received \/ rec_phase e.2 = Queued \/
                    rec_phase e.2 = DirectWaiting) (bt_entries (records st))).*1.

(** [State::close_report]. *)
Definition make_report st : Cleanup :=
  {| pending_local_work := saturating_add_u32 (cleanup_pending st) (detached_workers st);
     peer_cleanup_confirmed := cleanup_confirmed st && (detached_workers st =? 0)%N |}.

(** [State::discard]. *)
Definition discard st (id : N) : State Failure :=
  match get_record st id with
  | None => st
  | Some r =>
      let st := st <| records := bt_remove (records st) id |> in
      let st := match rec_operation r with
                | Some (operation, _) => st <| operations := delete operation (operations st) |>
                | None => st
                end in
      let st := if rec_in_table r
                then st <| table_entries := saturating_sub (table_entries st) 1 |> else st in
      st <| retained := filter (fun i => i <> id) (retained st) |>
  end.

(** [State::evict]: the oldest retained record that is delivered. *)
Fixpoint find_delivered st (ids : list N) : option N :=
  match ids with
  | [] => None
  | id :: ids' =>
      match get_record st id with
      | Some r => if delivered r then Some id else find_delivered st ids'
      | None => find_delivered st ids'
      end
  end.

Fixpoint remove_first (id : N) (ids : list N) : list N :=
  match ids with
  | [] => []
  | x :: ids' => if (x =? id)%N then ids' else x :: remove_first id ids'
  end.

Definition evict st : State Failure * bool :=
  match find_delivered st (retained st) with
  | None => (st, false)
  | Some id => (discard (st <| retained := remove_first id (retained st) |>) id, true)
  end.

(** [mark_delivered]. *)
Definition mark_delivered (marks : list (N * View)) st : State Failure :=
  foldl (fun st mark =>
    match get_record st mark.1 with
    | None => st
    | Some r =>
        set_record st mark.1
          (match mark.2 with
           | ViewResult => r <| rec_result_delivered := true |>
           | ViewResponse => r <| rec_response_delivered := true |>
           end)
    end) st marks.

(** *** Settlement *)

Definition complete_log (log : option N) st : State Failure :=
  match log with
  | None => st
  | Some l => st <| logs := alter complete_ring l (logs st) |>
  end.

(** What settling answers: the call's waiters, and the call itself unless it
    was a submit whose acceptance already answered it. *)
Definition own_reply (r : CallRecord Failure) (id : N) outcome : option Outgoing :=
  let submitted := bool_decide (call_mode (rec_call r) = Submit) &&
                   match rec_operation r with Some _ => true | None => false end in
  if submitted && rec_accepted r then None
  else Some (match oc_terminal outcome with
             | Completed response => reply id (rec_lane r) response
             | TerminalCancelled failure | TerminalFailed failure =>
                 error_reply id (rec_lane r) failure
             end).

(** The counters of a workspace and of the session, as a running operation
    leaves them. *)
Definition release_slot (was_running : bool) (r : CallRecord Failure) (id : N) st : State Failure :=
  match rec_resolved r with
  | None => st
  | Some resolved =>
      let st := if bool_decide (requests st !! request_id resolved = Some id)
                then st <| requests := delete (request_id resolved) (requests st) |> else st in
      match was_running, rec_operation r with
      | true, Some (_, class) =>
          let b := default default_busy (busy st !! workspace resolved) in
          st <| running := saturating_sub (running st) 1 |>
             <| busy := <[workspace resolved := busy_change b class false]> (busy st) |>
      | _, _ => st
      end
  end.

Definition settle (id : N) outcome st : State Failure * list Outgoing :=
  match get_record st id with
  | None => (st, [])
  | Some r =>
      if bool_decide (rec_phase r = PhTerminal) then (st, [])
      else
        let was_running := bool_decide (rec_phase r = PhRunning) in
        let waiters :=
          ((fun c => reply c LaneControl (ports_cleanup ports (oc_cleanup outcome))) <$> rec_cancels r) ++
          ((fun c => view_reply id c outcome true) <$> rec_results r) ++
          ((fun c => view_reply id c outcome false) <$> rec_responses r) in
        let own := own_reply r id outcome in
        let r' := r <| rec_phase := PhTerminal |> <| rec_gate := false |> <| rec_alive := false |>
                    <| rec_cancels := [] |> <| rec_results := [] |> <| rec_responses := [] |>
                    <| rec_outcome := Some outcome |> in
        let st := complete_log (rec_events r) (set_record st id r') in
        let st := st <| cleanup_pending := saturating_add_u32 (cleanup_pending st)
                          (pending_local_work (oc_cleanup outcome)) |>
                     <| cleanup_confirmed := cleanup_confirmed st ||
                          peer_cleanup_confirmed (oc_cleanup outcome) |> in
        let st := foldl (fun st c => answered_on c LaneControl st) st (rec_cancels r) in
        let st := foldl (fun st c => answered_on c LaneCall st) st (rec_results r ++ rec_responses r) in
        let st := release_slot was_running r id st in
        match own with
        | Some o => (discard (answered_on id (rec_lane r) st) id, waiters ++ [o])
        | None => (st <| retained := retained st ++ [id] |>, waiters)
        end
  end.

(** [failed_before_start] and [cancelled_before_start]. *)
Definition settled_result (call : Call) (operation : option (str * OpClass)) (failure : Failure)
    : list N :=
  match operation with
  | None => []
  | Some (operation, _) => ports_settled_result ports call operation failure
  end.

Definition failed_before_start (call : Call) (operation : option (str * OpClass)) (failure : Failure)
    : Outcome Failure :=
  {| oc_terminal := TerminalFailed failure; oc_result := settled_result call operation failure;
     oc_cleanup := default_cleanup |}.

Definition cancelled_before_start (call : Call) (operation : option (str * OpClass)) : Outcome Failure :=
  let failure := ports_failure ports {| error_code := CodeCancelled;
                                        error_message := lit "cancelled before it started" |} in
  {| oc_terminal := TerminalCancelled failure; oc_result := settled_result call operation failure;
     oc_cleanup := default_cleanup |}.

End table.

(** ** Scheduling and workers *)

(** What the environment answers during one step: whether a detached worker
    still runs on a workspace, and why a worker thread could not be created
    for a call, if it could not. *)
Record Env : Type := mkEnv {
  env_detached : str -> bool;
  env_spawn : N -> option str;
}.

Section schedule.
Context {Failure : Type} (ports : HostPorts Failure) (limits : HostLimits) (env : Env).
Implicit Types (st : State Failure) (outcome : Outcome Failure).

(** [workers::take]: the record's gate goes to its worker. *)
Definition take_record (id : N) st : State Failure * bool :=
  match get_record st id with
  | None => (st, false)
  | Some r =>
      if negb (rec_gate r) then (st, false)
      else
        let r := r <| rec_gate := false |> in
        match rec_resolved r with
        | None => (set_record st id r, false)
        | Some _ => (set_record st id (r <| rec_phase := PhRunning |> <| rec_alive := true |>), true)
        end
  end.

Definition spawn_failed (id : N) (error : str) st : State Failure * list Outgoing :=
  let failure := ports_failure ports
    {| error_code := Internal;
       error_message := lit "no worker thread could be created: " ++ error |} in
  let result_ := match get_record st id with
                 | None => []
                 | Some r => settled_result ports (rec_call r) (rec_operation r) failure
                 end in
  settle ports id {| oc_terminal := TerminalFailed failure; oc_result := result_;
                     oc_cleanup := default_cleanup |} st.

Definition start_operation (id : N) st : State Failure * list Outgoing :=
  let '(st, taken_) := take_record id st in
  if negb taken_ then (st, [])
  else match env_spawn env id with
       | None => (st, [])
       | Some error => spawn_failed id error st
       end.

(** [next_direct]: pops waiting direct calls until one can start. *)
Fixpoint next_direct_from (ids : list N) st : State Failure * option N :=
  match ids with
  | [] => (st <| direct_queue := [] |>, None)
  | id :: ids' =>
      let '(st, taken_) := take_record id st in
      if taken_ then (st <| direct_queue := ids' |>, Some id) else next_direct_from ids' st
  end.

Definition next_direct st : State Failure * option N := next_direct_from (direct_queue st) st.

Definition direct_down st : State Failure :=
  st <| direct_running := saturating_sub (direct_running st) 1 |>.

Definition start_direct st : State Failure * list Outgoing :=
  match next_direct st with
  | (st, None) => (direct_down st, [])
  | (st, Some id) =>
      match env_spawn env id with
      | None => (st, [])
      | Some error => spawn_failed id error (direct_down st)
      end
  end.

Definition busy_message : str :=
  lit "a worker detached at a session's close bound still runs on this workspace".

Definition exclusive (class : OpClass) : bool :=
  match class with Write | Push => true | Fetch => false end.

Definition remove_index (i : nat) (l : list N) : list N := take i l ++ drop (S i) l.

(** The first loop of [schedule], with fuel for its turns. *)
Fixpoint schedule_operations (fuel : nat) (index : nat) (blocked : gset str) st
    : State Failure * list Outgoing :=
  match fuel with
  | 0 => (st, [])
  | S fuel' =>
      if (running st <? running_operations limits)%N then
        match queue st !! index with
        | None => (st, [])
        | Some id =>
            let removed := st <| queue := remove_index index (queue st) |> in
            match get_record st id with
            | None => schedule_operations fuel' index blocked removed
            | Some r =>
                match rec_operation r, rec_resolved r with
                | Some (_, class), Some resolved =>
                    let ws := workspace resolved in
                    if exclusive class && env_detached env ws then
                      let failure := ports_failure ports
                        {| error_code := WorkspaceBusy; error_message := busy_message |} in
                      let '(st1, out1) :=
                        settle ports id (failed_before_start ports (rec_call r) (rec_operation r) failure)
                          removed in
                      let '(st2, out2) := schedule_operations fuel' index blocked st1 in
                      (st2, out1 ++ out2)
                    else if bool_decide (ws ∈ blocked) ||
                            negb (admits (default default_busy (busy st !! ws)) class) then
                      schedule_operations fuel' (S index) ({[ws]} ∪ blocked) st
                    else
                      let b := default default_busy (busy removed !! ws) in
                      let started :=
                        removed <| running := (running removed + 1)%N |>
                                <| busy := <[ws := busy_change b class true]> (busy removed) |> in
                      let '(st1, out1) := start_operation id started in
                      let '(st2, out2) := schedule_operations fuel' index blocked st1 in
                      (st2, out1 ++ out2)
                | _, _ => schedule_operations fuel' index blocked removed
                end
            end
        end
      else (st, [])
  end.

(** The second loop. *)
Fixpoint schedule_direct (fuel : nat) st : State Failure * list Outgoing :=
  match fuel with
  | 0 => (st, [])
  | S fuel' =>
      if (direct_running st <? direct_workers limits)%N &&
         negb (bool_decide (direct_queue st = [])) then
        let '(st1, out1) := start_direct (st <| direct_running := (direct_running st + 1)%N |>) in
        let '(st2, out2) := schedule_direct fuel' st1 in
        (st2, out1 ++ out2)
      else (st, [])
  end.

(** [schedule]. Each turn of the first loop removes an entry of the queue or
    passes one, each turn of the second removes at least one, so the queues'
    lengths are fuel enough. *)
Definition schedule st : State Failure * list Outgoing :=
  let '(st1, out1) := schedule_operations (S (length (queue st))) 0 ∅ st in
  let '(st2, out2) := schedule_direct (S (length (direct_queue st1))) st1 in
  (st2, out1 ++ out2).

(** *** Admission *)

(** The refusals of an operation, with the eviction the last one tries. *)
Definition admission_refusal (class : OpClass) (resolved : Resolved) st
    : State Failure * option HostError :=
  if is_live st (request_id resolved) then
    (st, Some {| error_code := InvalidRequest;
                 error_message := lit "request_id " ++ request_id resolved ++
                                  lit " matches a live operation's" |})
  else if exclusive class && env_detached env (workspace resolved) then
    (st, Some {| error_code := WorkspaceBusy; error_message := busy_message |})
  else if (queued_operations limits <=? N.of_nat (length (queue st)))%N then
    (st, Some {| error_code := SessionFull;
                 error_message := lit "the session's operation queue is full" |})
  else if (operation_table limits <=? table_entries st)%N then
    let '(st, evicted) := evict st in
    if evicted then (st, None)
    else (st, Some {| error_code := SessionFull;
                      error_message :=
                        lit "the session's operation table holds no record it can evict" |})
  else (st, None).

(** [admit]: [None] is a call cancelled before it was resolved. *)
Definition admit_call (id : N) (found : option (result Resolved Failure)) st
    : State Failure * list Outgoing :=
  match get_record st id with
  | None => (st, [])
  | Some r =>
      if negb (bool_decide (rec_phase r = Received)) then (st, [])
      else
        let cancelled := g_cancelled (rec_controls r) in
        match found, cancelled with
        | Some (Err failure), false =>
            settle ports id (failed_before_start ports (rec_call r) (rec_operation r) failure) st
        | Some (Ok resolved), false =>
            match rec_operation r with
            | None =>
                let st := set_record st id (r <| rec_resolved := Some resolved |>
                                              <| rec_phase := DirectWaiting |>) in
                schedule (st <| direct_queue := direct_queue st ++ [id] |>)
            | Some (operation, class) =>
                match admission_refusal class resolved st with
                | (st, Some error) =>
                    settle ports id (failed_before_start ports (rec_call r) (Some (operation, class))
                                       (ports_failure ports error)) st
                | (st, None) =>
                    let submit := bool_decide (call_mode (rec_call r) = Submit) in
                    let st := st <| table_entries := (table_entries st + 1)%N |>
                                 <| requests := <[request_id resolved := id]> (requests st) |> in
                    let st := match get_record st id with
                              | None => st
                              | Some r => set_record st id
                                  (r <| rec_in_table := true |> <| rec_resolved := Some resolved |>
                                     <| rec_phase := Queued |> <| rec_accepted := submit |>)
                              end in
                    let '(st, out1) :=
                      if submit
                      then (answered_on id LaneCall st,
                            [reply ports id LaneCall
                               (ports_accepted ports (rec_call r) resolved operation)])
                      else (st, []) in
                    let '(st, out2) := schedule (st <| queue := queue st ++ [id] |>) in
                    (st, out1 ++ out2)
                end
            end
        | _, _ =>
            settle ports id (cancelled_before_start ports (rec_call r) (rec_operation r)) st
        end
  end.

(** *** A worker ends *)

(** [run] once the handler has returned and its report crossed the gate. *)
Definition worker_reports (id : N) outcome st : State Failure * list Outgoing :=
  let '(st1, out1) := settle ports id outcome (st <| unflushed := (unflushed st + 1)%N |>) in
  let '(st2, out2) := schedule st1 in
  (st2, out1 ++ out2).

(** A handler that panicked. *)
Definition panicked (call : Call) (operation : option (str * OpClass)) : Outcome Failure :=
  let failure := ports_failure ports
    {| error_code := Internal;
       error_message := lit "the handler panicked; its cleanup is unconfirmed" |} in
  {| oc_terminal := TerminalFailed failure; oc_result := settled_result ports call operation failure;
     oc_cleanup := default_cleanup |}.

(** A direct worker that has finished a call takes the next, or ends. *)
Definition direct_worker_next st : State Failure * option N :=
  match next_direct st with
  | (st, None) => (direct_down st, None)
  | (st, Some id) => (st, Some id)
  end.

End schedule.

(** ** Receipt, views, cancellation and closure *)

Section receipt.
Context {Failure : Type} (ports : HostPorts Failure) (limits : HostLimits) (env : Env).
Implicit Types (st : State Failure) (outcome : Outcome Failure).

(** [Service::route] and the head of [Service::receive]: the call a frame
    carries, or the protocol error that ends the session. *)
Definition receive_body (opened : bool) (body : list N) : result Call str :=
  if negb opened then Err (lit "a call before the session opened")
  else ports_decode ports body.

Definition route (opened : bool) (frame : Frame) : result Call str :=
  if negb opened then
    Err (lit "a frame of tag " ++ show_N (frame_tag frame) ++ lit " before the session opened")
  else if negb (frame_tag frame =? tag_byte SessionCall)%N then
    Err (lit "the host takes no frame of tag " ++ show_N (frame_tag frame) ++
         lit " once the session is open")
  else receive_body opened (frame_body frame).

(** [create]: the record, its log and its place among the pending calls. *)
Definition create (call : Call) (class : option (OpClass * bool)) st : State Failure :=
  let id := call_id call in
  let '(st, operation) :=
    match class with
    | None => (st, None)
    | Some (class, _) =>
        (st <| next_operation := (next_operation st + 1)%N |>,
         Some (lit "op-" ++ show_N (next_operation st), class))
    end in
  let st := match operation with
            | None => st
            | Some (operation, _) =>
                st <| logs := <[id := new_ring (N.to_nat (event_log limits))
                                        (ports_reset_event ports operation)]> (logs st) |>
                   <| operations := <[operation := id]> (operations st) |>
            end in
  let st := set_record st id
    {| rec_call := call; rec_lane := LaneCall; rec_operation := operation;
       rec_controls := new_gate; rec_gate := true; rec_resolved := None;
       rec_phase := Received;
       rec_events := match operation with Some _ => Some id | None => None end;
       rec_outcome := None; rec_cancels := []; rec_results := []; rec_responses := [];
       rec_accepted := false;
       rec_response_view := match class with Some (_, view) => view | None => false end;
       rec_result_delivered := false; rec_response_delivered := false; rec_in_table := false;
       rec_alive := false |} in
  st <| pending := pending st ++ [id] |>.

(** A log's read, whatever holds it. *)
Definition log_read st (log : N) (read : EventsRead) : EventsBatch :=
  ring_read (default (complete_ring (new_ring 0 [])) (logs st !! log)) read (read_bytes limits).

Definition read_wait (asked : N) : N := N.min asked MAX_READ_WAIT.

(** [read_events], at the instant [now]. *)
Definition events_operation (events : EventsCall) : str :=
  match events with
  | EventsReadCall read => er_operation read
  | EventsEnd operation _ => operation
  end.

Definition read_events (now : N) (id : N) (events : EventsCall) st : State Failure * list Outgoing :=
  match find_operation st (events_operation events) with
  | Err (code, message) => (answered_on id LaneCall st, [refuse ports id LaneCall code message])
  | Ok owner =>
      match get_record st owner ≫= rec_events with
      | None => (answered_on id LaneCall st,
                 [refuse ports id LaneCall InvalidRequest (lit "the call has no event log")])
      | Some log =>
          match events with
          | EventsEnd operation stream =>
              (answered_on id LaneCall st,
               [reply ports id LaneCall (ports_events_ended ports operation stream)])
          | EventsReadCall read =>
              let batch := log_read st log read in
              let wait := read_wait (er_wait read) in
              if negb (bool_decide (eb_records batch = [])) || eb_complete batch || (wait =? 0)%N then
                (answered_on id LaneCall st,
                 [reply ports id LaneCall (ports_events ports read batch)])
              else
                (st <| others := {[id]} ∪ others st |>
                    <| held := held st ++ [{| held_call := id; held_read := read; held_log := log;
                                              held_deadline := (now + wait)%N |}] |>, [])
          end
      end
  end.

(** [view]: [operation.result] and [operation.response]. *)
Definition view (id : N) (operation : str) (result_ : bool) st : State Failure * list Outgoing :=
  match find_operation st operation with
  | Err (code, message) => (answered_on id LaneCall st, [refuse ports id LaneCall code message])
  | Ok owner =>
      match get_record st owner with
      | None => (answered_on id LaneCall st,
                 [refuse ports id LaneCall OperationExpired (lit "the operation's record is gone")])
      | Some r =>
          match rec_outcome r with
          | Some outcome =>
              (answered_on id LaneCall st, [view_reply ports owner id outcome result_])
          | None =>
              let r := if result_ then r <| rec_results := rec_results r ++ [id] |>
                       else r <| rec_responses := rec_responses r ++ [id] |> in
              let st := set_record st owner r in
              (st <| others := {[id]} ∪ others st |>, [])
          end
      end
  end.

(** [release]. *)
Definition release (id : N) (operation : str) st : State Failure * list Outgoing :=
  let st := answered_on id LaneCall st in
  match find_operation st operation with
  | Err (code, message) => (st, [refuse ports id LaneCall code message])
  | Ok owner =>
      let live := match get_record st owner with
                  | None => true
                  | Some r => negb (bool_decide (rec_phase r = PhTerminal))
                  end in
      if live then
        (st, [refuse ports id LaneCall OpenOperation
                (lit "operation " ++ operation ++ lit " is still live")])
      else (discard st owner, [reply ports id LaneCall (ports_released ports)])
  end.

(** [cancel]. *)
Definition cancel_target (id : N) (target : CancelTarget) st : result N (Code * str) :=
  match target with
  | TargetCall target =>
      if (id <=? target)%N then
        Err (OperationNotFound, lit "this session received no call " ++ show_N target)
      else if bool_decide (target ∈ others st) then
        Err (InvalidRequest, lit "call " ++ show_N target ++ lit " is a read, result or control call")
      else match get_record st target with
           | Some _ => Ok target
           | None => Err (OperationExpired,
                          lit "call " ++ show_N target ++ lit " has already been answered or released")
           end
  | TargetOperation operation => find_operation st operation
  end.

Definition cancel_record (r : CallRecord Failure) (id : N) : CallRecord Failure :=
  r <| rec_cancels := rec_cancels r ++ [id] |> <| rec_controls := gate_cancel (rec_controls r) |>.

Definition cancel (id : N) (target : CancelTarget) st : State Failure * list Outgoing :=
  match cancel_target id target st with
  | Err (code, message) => (answered_on id LaneControl st, [refuse ports id LaneControl code message])
  | Ok target =>
      let st := st <| others := {[id]} ∪ others st |> in
      match get_record st target with
      | None => (st, [])
      | Some r =>
          match rec_phase r with
          | PhTerminal =>
              let cleanup := match rec_outcome r with
                             | Some outcome => oc_cleanup outcome
                             | None => default_cleanup
                             end in
              (answered_on id LaneControl st, [reply ports id LaneControl (ports_cleanup ports cleanup)])
          | Received | PhRunning => (set_record st target (cancel_record r id), [])
          | Queued | DirectWaiting =>
              let st := set_record st target (cancel_record r id) in
              let st := st <| queue := filter (fun q => q <> target) (queue st) |>
                           <| direct_queue := filter (fun q => q <> target) (direct_queue st) |> in
              let '(st1, out1) :=
                settle ports target (cancelled_before_start ports (rec_call r) (rec_operation r)) st in
              let '(st2, out2) := schedule ports limits env st1 in
              (st2, out1 ++ out2)
          end
      end
  end.

(** *** Receipt *)

(** Where [receive] leaves the reading thread: with replies to send, or with
    the table's lock dropped and a spool to ask or a close to begin. *)
Inductive Receipt : Type :=
| RxReplies (replies : list Outgoing)
| RxSpool (lane : Lane)
| RxClose.

Definition is_close (request : Request) : bool :=
  match request with RqClose => true | _ => false end.

Definition lane_full (lane : Lane) st : bool :=
  match lane with
  | LaneCall => (host_outstanding_calls limits <=? outstanding st)%N
  | LaneControl => (host_control_reserve limits <=? controls st)%N
  end.

Definition count_call (lane : Lane) st : State Failure :=
  match lane with
  | LaneCall => st <| outstanding := (outstanding st + 1)%N |>
  | LaneControl => st <| controls := (controls st + 1)%N |>
  end.

Definition replies_only (p : State Failure * list Outgoing) : State Failure * Receipt :=
  (p.1, RxReplies p.2).

(** What a counted call does. *)
Definition dispatch (now : N) (call : Call) (lane : Lane) (request : Request) st
    : State Failure * Receipt :=
  let id := call_id call in
  match request with
  | RqDirect => (create call None st, RxReplies [])
  | RqOperation class response_view => (create call (Some (class, response_view)) st, RxReplies [])
  | RqEvents events => replies_only (read_events now id events st)
  | RqSpool => (st, RxSpool lane)
  | RqResult operation => replies_only (view id operation true st)
  | RqResponse operation => replies_only (view id operation false st)
  | RqCancel target => replies_only (cancel id target st)
  | RqRelease operation => replies_only (release id operation st)
  | RqClose =>
      let st := st <| others := {[id]} ∪ others st |> in
      match close_report_ st with
      | Some report => (answered_on id LaneControl st, RxReplies [close_report ports id report])
      | None =>
          let st := st <| closers := closers st ++ [id] |> in
          (st, if close_started st then RxReplies [] else RxClose)
      end
  end.

(** [table::receive]. *)
Definition receive (now : N) (call : Call) st : State Failure * result Receipt str :=
  let id := call_id call in
  if (id <=? highest_call st)%N then
    (st, Err (lit "call_id " ++ show_N id ++ lit " is not greater than " ++
              show_N (highest_call st) ++ lit ", the highest received"))
  else
    let st := st <| highest_call := id |> in
    if ended st then (st, Ok (RxReplies []))
    else
      let lane := ports_lane ports (call_method call) in
      match ports_classify ports call with
      | Err error =>
          (st, Ok (RxReplies [refuse ports id lane (error_code error) (error_message error)]))
      | Ok request =>
          if closing st && negb (is_close request) then
            (st, Ok (RxReplies [refuse ports id lane InvalidRequest (lit "session closing")]))
          else if lane_full lane st then
            (st, Ok (RxReplies [refuse ports id lane SessionFull
                      (lit "the session's outstanding calls are at their limit")]))
          else
            let '(st, rx) := dispatch now call lane request (count_call lane st) in
            (st, Ok rx)
      end.

(** The second half of a spool call. *)
Definition spool_answer (call : Call) (lane : Lane) st : State Failure * list Outgoing :=
  let id := call_id call in
  (answered_on id lane st,
   [match ports_spool ports call with
    | Ok body => reply ports id lane body
    | Err failure => error_reply ports id lane failure
    end]).

(** *** Held reads *)

(** One turn of [read_loop] at the instant [now]: the reads it answers and
    those it keeps. *)
Definition read_ready (now : N) st (h : Held) : bool :=
  let batch := log_read st (held_log h) (held_read h) in
  negb (bool_decide (eb_records batch = [])) || eb_complete batch ||
  (closing st || ended st) || (held_deadline h <=? now)%N.

Definition answer_held st (h : Held) : Outgoing :=
  reply ports (held_call h) LaneCall
    (ports_events ports (held_read h) (log_read st (held_log h) (held_read h))).

Definition read_turn (now : N) st : State Failure * list Outgoing :=
  let ready := filter (fun h => read_ready now st h = true) (held st) in
  let kept := filter (fun h => read_ready now st h = false) (held st) in
  ((foldl (fun st h => answered_on (held_call h) LaneCall st) st ready) <| held := kept |>,
   answer_held st <$> ready).

(** A worker's event, where its gate lets it through. *)
Definition worker_event (thread : nat) (id : N) (payload : list N) st : State Failure :=
  match get_record st id with
  | None => st
  | Some r =>
      match append (rec_controls r) thread, rec_events r with
      | (CrossRuns, _), Some log => st <| logs := alter (fun ring => ring_push ring payload) log (logs st) |>
      | _, _ => st
      end
  end.

(** *** Closure *)

(** [close], up to its thread: whether this call began the close. *)
Definition close_begin st : State Failure * bool :=
  if close_started st then (st, false)
  else (st <| close_started := true |> <| closing := true |>, true).

Definition cancel_controls (id : N) st : State Failure :=
  match get_record st id with
  | None => st
  | Some r => set_record st id (r <| rec_controls := gate_cancel (rec_controls r) |>)
  end.

Fixpoint settle_cancelled (ids : list N) st : State Failure * list Outgoing :=
  match ids with
  | [] => (st, [])
  | id :: ids' =>
      match get_record st id with
      | None => settle_cancelled ids' st
      | Some r =>
          let '(st1, out1) :=
            settle ports id (cancelled_before_start ports (rec_call r) (rec_operation r))
              (cancel_controls id st) in
          let '(st2, out2) := settle_cancelled ids' st1 in
          (st2, out1 ++ out2)
      end
  end.

(** Steps 2 and 3 of [run_close]. *)
Definition close_settle st : State Failure * list Outgoing :=
  let st := st <| unflushed := (unflushed st + 1)%N |> <| pending := [] |> in
  let '(st, out) := settle_cancelled (not_started st) st in
  let st := st <| direct_queue := [] |> in
  (foldl (fun st id => cancel_controls id st) st (running_calls st), out).

(** Step 5: [revoke], which waits for a crossing to end. *)
Definition gate_revoke (thread : nat) (g : Gate) : Gate :=
  default g (revoke_begin g thread ≫= revoke_end).

Fixpoint settle_detached (thread : nat) (ids : list N) st : State Failure * list Outgoing :=
  match ids with
  | [] => (st, [])
  | id :: ids' =>
      match get_record st id with
      | None => settle_detached thread ids' st
      | Some r =>
          let st := set_record st id (r <| rec_controls := gate_revoke thread (rec_controls r) |>) in
          let '(failure, result_) := ports_detached ports (rec_call r) (fst <$> rec_operation r) in
          let st := st <| detached_workers := saturating_add_u32 (detached_workers st) 1 |> in
          let '(st1, out1) :=
            settle ports id {| oc_terminal := TerminalCancelled failure; oc_result := result_;
                               oc_cleanup := default_cleanup |} st in
          let '(st2, out2) := settle_detached thread ids' st1 in
          (st2, out1 ++ out2)
      end
  end.

(** The workers step 5 records as detached. *)
Definition detaching st : list (N * str) :=
  omap (fun id => r ← get_record st id; resolved ← rec_resolved r;
                  if rec_alive r then Some (id, workspace resolved) else None) (running_calls st).

(** Steps 5 and 6: [run_close]'s batch, and then its count. *)
Definition detach_all (thread : nat) st : State Failure * list Outgoing :=
  let '(st, out) := settle_detached thread (running_calls st) st in
  let reads := held st in
  let answers := answer_held st <$> reads in
  let st := foldl (fun st h => answered_on (held_call h) LaneCall st) st reads in
  (st <| held := [] |>, out ++ answers).

Definition count_batch (p : State Failure * list Outgoing) : State Failure * list Outgoing :=
  (p.1 <| unflushed := (unflushed p.1 + 1)%N |>, p.2).

Definition close_detach (thread : nat) st : State Failure * list Outgoing :=
  count_batch (detach_all thread st).

(** Step 8, once no batch is unflushed. *)
Definition report_all (replies : bool) st : State Failure * list Outgoing :=
  let report := make_report st in
  let ids := closers st in
  let st := st <| close_report_ := Some report |> <| closers := [] |> in
  if replies
  then (foldl (fun st id => answered_on id LaneControl st) st ids,
        (fun id => close_report ports id report) <$> ids)
  else (st, []).

Definition close_reports (replies : bool) st : State Failure * list Outgoing :=
  count_batch (report_all replies st).

(** Step 9, once no batch is unflushed. *)
Definition close_end st : State Failure := st <| ended := true |>.

End receipt.
