(* ===== verification/ServiceAccount.v ===== *)
(** The accounts of the operation service
    (src/crates/session-host/src/service.rs and service/table/*.rs): which
    calls wait for a reply, on which lane, and that every operation of the
    table answers exactly the calls that stop waiting. *)

From S2P Require Export Service.

#[local] Set Default Proof Using "Type".

Lemma bt_remove_insert {K V : Type} `{OrdKey K} (m : BTreeMap K V) (k : K) (v : V) :
  bt_remove (bt_insert m k v) k = bt_remove m k.
Proof.
  apply bt_ext. intros k0. destruct (decide (k0 = k)) as [->|]; autorewrite with gwz; done.
Qed.

(** ** What waits *)

(** Calls with the lane their reply takes. *)
Abbreviation calls := (list (N * Lane)).

Definition count_lane (lane : Lane) (l : calls) : N :=
  N.of_nat (length (filter (fun e => e.2 = lane) l)).

Definition keys (out : list Outgoing) : calls := (fun o => (out_target o, out_lane o)) <$> out.

Definition on_lane (lane : Lane) (ids : list N) : calls := (fun id => (id, lane)) <$> ids.

Section waiting.
Context {Failure : Type}.
Implicit Types (st : State Failure) (r : CallRecord Failure).

(** A record whose own call has been answered: an accepted submit. *)
Definition replied r : bool :=
  bool_decide (call_mode (rec_call r) = Submit) &&
  match rec_operation r with Some _ => true | None => false end && rec_accepted r.

Definition rec_waiting (id : N) r : calls :=
  (if replied r then [] else [(id, rec_lane r)]) ++
  on_lane LaneControl (rec_cancels r) ++ on_lane LaneCall (rec_results r ++ rec_responses r).

Definition waiting st : calls :=
  gather rec_waiting (records st) ++
  on_lane LaneCall (held_call <$> held st) ++ on_lane LaneControl (closers st).

Definition counter (lane : Lane) st : N :=
  match lane with LaneCall => outstanding st | LaneControl => controls st end.

(** ** The table's invariant *)

Definition started (p : Phase) : bool :=
  match p with PhRunning | PhTerminal => true | _ => false end.

Record rec_ok r : Prop := {
  rok_lane : rec_lane r = LaneCall;
  rok_done : rec_phase r = PhTerminal ->
    replied r = true /\ rec_cancels r = [] /\ rec_results r = [] /\ rec_responses r = [] /\
    rec_in_table r = true;
  rok_outcome : rec_outcome r = None <-> rec_phase r <> PhTerminal;
  rok_received : rec_phase r = Received -> rec_accepted r = false;
  rok_fresh : rec_phase r = Received -> rec_in_table r = false;
  rok_gate : rec_gate r = true -> started (rec_phase r) = false;
  rok_table : rec_accepted r = true -> rec_in_table r = true;
}.

Record table_ok st : Prop := {
  tok_rec id r : get_record st id = Some r -> rec_ok r /\ (id <= highest_call st)%N;
  tok_ops op id : operations st !! op = Some id ->
    exists r class, get_record st id = Some r /\ rec_operation r = Some (op, class);
  tok_retained id : id ∈ retained st ->
    exists r, get_record st id = Some r /\ rec_phase r = PhTerminal;
}.

(** The fields the accounts depend on. *)
Definition table_part st :=
  (records st, operations st, retained st, highest_call st, held st, closers st).

Definition flags st := (closing st, ended st, close_started st, close_report_ st, unflushed st).

Definition same_table st st' : Prop :=
  table_part st = table_part st' /\ flags st = flags st' /\
  outstanding st = outstanding st' /\ controls st = controls st'.

(** ** How the table moves *)

Definition rank (p : Phase) : nat :=
  match p with Received => 0 | Queued | DirectWaiting => 1 | PhRunning => 2 | PhTerminal => 3 end.

(** No call appears, and none goes back. *)
Definition progress st st' : Prop :=
  forall id r', get_record st' id = Some r' ->
    exists r, get_record st id = Some r /\ rank (rec_phase r) <= rank (rec_phase r').

(** What an operation other than closure's own leaves of the session. *)
Record evolves st st' : Prop := {
  ev_flags : flags st' = flags st;
  ev_highest : (highest_call st <= highest_call st')%N;
  ev_progress : closing st = true -> progress st st';
  ev_held : closing st = true -> forall h, h ∈ held st' -> h ∈ held st;
  ev_closers : close_report_ st <> None -> closers st' = closers st;
}.

Lemma progress_refl st : progress st st.
Proof. intros id r Hg. eauto. Qed.

Lemma progress_trans st1 st2 st3 : progress st1 st2 -> progress st2 st3 -> progress st1 st3.
Proof.
  intros H1 H2 id r3 (r2 & Hg2 & Hr2)%H2. destruct (H1 _ _ Hg2) as (r1 & ? & ?).
  exists r1. split; [done|lia].
Qed.

Lemma flags_eq st st' :
  flags st' = flags st ->
  closing st' = closing st /\ ended st' = ended st /\ close_started st' = close_started st /\
  close_report_ st' = close_report_ st /\ unflushed st' = unflushed st.
Proof. by intros [= -> -> -> -> ->]. Qed.

Lemma evolves_trans st1 st2 st3 : evolves st1 st2 -> evolves st2 st3 -> evolves st1 st3.
Proof.
  intros [F1 L1 P1 H1 C1] [F2 L2 P2 H2 C2]. destruct (flags_eq _ _ F1) as (E & _ & _ & E' & _).
  rewrite E, E' in *. split; [congruence|lia|..].
  - intros Hc. eapply progress_trans; eauto.
  - eauto.
  - intros Hr. rewrite C2, C1; eauto.
Qed.

(** An operation that leaves the held reads and the closers. *)
Lemma evolves_of st st' :
  flags st' = flags st -> highest_call st' = highest_call st ->
  held st' = held st -> closers st' = closers st -> progress st st' ->
  evolves st st'.
Proof. intros F Hn Hh Hc Hp. split; [done|by rewrite Hn|done| |done]. by rewrite Hh. Qed.

Lemma evolves_same st st' :
  table_part st' = table_part st -> flags st' = flags st -> evolves st st'.
Proof.
  intros [= E1 _ _ E4 E5 E6] F. apply evolves_of; [done..|]. intros id r. unfold get_record. rewrite E1.
  eauto.
Qed.

Lemma waiting_part st st' : table_part st = table_part st' -> waiting st = waiting st'.
Proof. unfold waiting. intros [= -> _ _ _ -> ->]. done. Qed.

Lemma table_ok_part st st' : table_part st = table_part st' -> table_ok st -> table_ok st'.
Proof.
  intros [= E1 E2 E3 E4 _ _] [H1 H2 H3].
  unfold get_record in *. rewrite E1, ?E2, ?E3, ?E4 in *. split; unfold get_record; eauto.
Qed.

Lemma count_lane_app lane l l' : count_lane lane (l ++ l') = (count_lane lane l + count_lane lane l')%N.
Proof. unfold count_lane. rewrite filter_app, length_app. lia. Qed.

Lemma count_lane_perm lane l l' : l ≡ₚ l' -> count_lane lane l = count_lane lane l'.
Proof. unfold count_lane. by intros ->. Qed.

Lemma count_lane_on lane lane' ids :
  count_lane lane (on_lane lane' ids) = if decide (lane' = lane) then N.of_nat (length ids) else 0%N.
Proof.
  unfold count_lane, on_lane. induction ids as [|id ids IH]; [by case_decide|].
  rewrite fmap_cons, filter_cons. cbn [snd]. destruct (decide (lane' = lane)); simpl length; lia.
Qed.

Lemma keys_app out out' : keys (out ++ out') = keys out ++ keys out'.
Proof. apply fmap_app. Qed.

(** ** The specification of an operation *)

(** The operation takes the waiting calls and [new] ones, answers some, each
    once and on its lane, leaves the others waiting, and counts down each
    lane by what it answered. *)
Definition accounts (new : calls) st (p : State Failure * list Outgoing) : Prop :=
  table_ok st -> (forall lane, (count_lane lane (waiting st ++ new) <= counter lane st)%N) ->
  table_ok p.1 /\ evolves st p.1 /\ waiting st ++ new ≡ₚ keys p.2 ++ waiting p.1 /\
  (forall lane, counter lane st = counter lane p.1 + count_lane lane (keys p.2))%N.

Lemma accounts_same st st' : same_table st st' -> accounts [] st (st', []).
Proof.
  intros (E & F & E1 & E2) Hok _.
  split_and!; [by eapply table_ok_part|by apply evolves_same| |].
  - by rewrite app_nil_r, (waiting_part _ _ E).
  - intros lane. change (count_lane lane (keys _)) with 0%N. destruct lane; cbn [counter fst]; lia.
Qed.

Lemma accounts_frame new st st' p : same_table st st' -> accounts new st' p -> accounts new st p.
Proof.
  intros (E & F & E1 & E2) H Hok Hc. destruct H as (H1 & Hev & H2 & H3).
  - by eapply table_ok_part.
  - intros lane. rewrite <- (waiting_part _ _ E). specialize (Hc lane). destruct lane; cbn [counter] in *; lia.
  - split_and!; [done|by eapply evolves_trans; [apply evolves_same|]| |].
    + by rewrite (waiting_part _ _ E).
    + intros lane. specialize (H3 lane). destruct lane; cbn [counter] in *; lia.
Qed.

Lemma accounts_then new st p q :
  accounts new st p -> accounts [] p.1 q -> accounts new st (q.1, p.2 ++ q.2).
Proof.
  intros Hp Hq Hok Hc. destruct (Hp Hok Hc) as (Hok1 & Hev & Hw & Hn).
  destruct (Hq Hok1) as (Hok2 & Hev2 & Hw2 & Hn2).
  - intros lane. rewrite app_nil_r. specialize (Hc lane). specialize (Hn lane).
    rewrite (count_lane_perm lane _ _ Hw), count_lane_app in Hc. lia.
  - simpl. split_and!; [done|by eapply evolves_trans| |].
    + rewrite Hw, keys_app, <- app_assoc. f_equiv. by rewrite app_nil_r in Hw2.
    + intros lane. rewrite keys_app, count_lane_app, Hn, Hn2. lia.
Qed.

Lemma accounts_eq new st p st' out : accounts new st p -> p = (st', out) -> accounts new st (st', out).
Proof. by intros H <-. Qed.

(** ** Records *)

Lemma get_set_eq st id r : get_record (set_record st id r) id = Some r.
Proof. apply bt_get_insert_eq. Qed.

Lemma get_set_ne st id id' r : id' <> id -> get_record (set_record st id r) id' = get_record st id'.
Proof. apply bt_get_insert_ne. Qed.

Lemma table_ok_set st id r r' :
  table_ok st -> get_record st id = Some r -> rec_ok r' ->
  rec_operation r' = rec_operation r -> rank (rec_phase r) <= rank (rec_phase r') ->
  table_ok (set_record st id r').
Proof.
  intros [H1 H2 H3] Hg Hr' Hop Hph. split.
  - intros id0 r0 Hg0. destruct (decide (id0 = id)) as [->|].
    + rewrite get_set_eq in Hg0. simplify_eq. split; [done|]. by eapply H1.
    + rewrite get_set_ne in Hg0 by done. by eapply H1.
  - intros op id0 (r0 & class & Hg0 & Hop0)%H2. destruct (decide (id0 = id)) as [->|].
    + exists r', class. rewrite get_set_eq. split; [done|]. congruence.
    + exists r0, class. by rewrite get_set_ne.
  - intros id0 (r0 & Hg0 & Hp0)%H3. destruct (decide (id0 = id)) as [->|].
    + exists r'. rewrite get_set_eq. split; [done|]. simplify_eq. rewrite Hp0 in Hph.
      by destruct (rec_phase r'); simpl in Hph; try lia.
    + exists r0. by rewrite get_set_ne.
Qed.

Lemma progress_set st id r r' :
  get_record st id = Some r -> rank (rec_phase r) <= rank (rec_phase r') ->
  progress st (set_record st id r').
Proof.
  intros Hg Hr i r0 Hi. destruct (decide (i = id)) as [->|].
  - rewrite get_set_eq in Hi. simplify_eq. eauto.
  - rewrite get_set_ne in Hi by done. eauto.
Qed.

(** One record's waiting calls, set apart from the others'. *)
Lemma waiting_focus st id r :
  get_record st id = Some r ->
  exists rest, waiting st ≡ₚ rec_waiting id r ++ rest /\
    (forall r', waiting (set_record st id r') ≡ₚ rec_waiting id r' ++ rest) /\
    (forall st', records st' = bt_remove (records st) id -> held st' = held st ->
       closers st' = closers st -> waiting st' ≡ₚ rest).
Proof.
  intros (rest & H1 & H2 & H3)%(gather_present rec_waiting (records st)).
  exists (rest ++ on_lane LaneCall (held_call <$> held st) ++ on_lane LaneControl (closers st)).
  unfold waiting. split_and!.
  - by rewrite H1, <- app_assoc.
  - intros r'. change (records (set_record st id r')) with (bt_insert (records st) id r').
    by rewrite H2, <- app_assoc.
  - intros st' -> -> ->. by rewrite H3.
Qed.

(** An update of one record that takes on the [new] calls. *)
Lemma accounts_set new st id r r' :
  get_record st id = Some r -> (rec_ok r -> rec_ok r') ->
  rec_operation r' = rec_operation r -> rank (rec_phase r) <= rank (rec_phase r') ->
  rec_waiting id r' ≡ₚ rec_waiting id r ++ new ->
  accounts new st (set_record st id r', []).
Proof.
  intros Hg Hr' Hop Hph Hw Hok _. split_and!.
  - eapply table_ok_set; eauto. eapply Hr', (tok_rec _ Hok), Hg.
  - apply evolves_of; [done..|]. by eapply progress_set.
  - destruct (waiting_focus _ _ _ Hg) as (rest & -> & H2 & _). simpl. rewrite H2, Hw, <- !app_assoc.
    apply Permutation_app_head, Permutation_app_comm.
  - intros lane. change (count_lane lane (keys _)) with 0%N. destruct lane; cbn [counter fst]; simpl; lia.
Qed.

Lemma discard_part st id r :
  get_record st id = Some r ->
  table_part (discard st id) =
  (bt_remove (records st) id,
   match rec_operation r with Some (op, _) => delete op (operations st) | None => operations st end,
   filter (fun i => i <> id) (retained st), highest_call st, held st, closers st).
Proof.
  unfold discard. intros ->. unfold table_part.
  by destruct (rec_operation r) as [[]|], (rec_in_table r).
Qed.

Lemma discard_counter st id lane : counter lane (discard st id) = counter lane st.
Proof.
  unfold discard. destruct (get_record st id) as [r|]; [|done].
  by destruct (rec_operation r) as [[]|], (rec_in_table r), lane.
Qed.

Lemma table_ok_discard st id : table_ok st -> table_ok (discard st id).
Proof.
  intros Hok. destruct (get_record st id) as [r|] eqn:Hg; [|unfold discard; by rewrite Hg].
  pose proof (discard_part _ _ _ Hg) as Hp. unfold table_part in Hp. injection Hp as E1 E2 E3 E4 _ _.
  destruct Hok as [H1 H2 H3].
  assert (Hget : forall i, i <> id -> get_record (discard st id) i = get_record st i).
  { intros i Hi. unfold get_record. rewrite E1. by apply bt_get_remove_ne. }
  assert (Hnone : get_record (discard st id) id = None).
  { unfold get_record. rewrite E1. apply bt_get_remove_eq. }
  split.
  - intros i r0 Hi. destruct (decide (i = id)) as [->|]; [congruence|].
    rewrite Hget in Hi by done. rewrite E4. eauto.
  - intros op i Hi. rewrite E2 in Hi. assert (Ho : operations st !! op = Some i).
    { destruct (rec_operation r) as [[op' ?]|]; [|done]. by apply lookup_delete_Some in Hi as [_ ?]. }
    destruct (H2 _ _ Ho) as (r0 & class & Hg0 & Hop). exists r0, class. split; [|done].
    rewrite Hget; [done|]. intros ->. simplify_eq. rewrite Hop in Hi.
    by rewrite lookup_delete_eq in Hi.
  - intros i Hi. rewrite E3 in Hi. apply list_elem_of_filter in Hi as [Hne Hi].
    rewrite Hget by done. eauto.
Qed.

Lemma discard_flags st id : flags (discard st id) = flags st.
Proof.
  unfold discard. destruct (get_record st id) as [r|]; [|done].
  by destruct (rec_operation r) as [[]|], (rec_in_table r).
Qed.

Lemma evolves_discard st id : evolves st (discard st id).
Proof.
  destruct (get_record st id) as [r|] eqn:Hg; cycle 1.
  { unfold discard. rewrite Hg. apply evolves_of; [done..|apply progress_refl]. }
  pose proof (discard_part _ _ _ Hg) as Hp. unfold table_part in Hp. injection Hp as E1 _ _ E4 E5 E6.
  apply evolves_of; [apply discard_flags|done..|]. intros i r'. unfold get_record. rewrite E1.
  destruct (decide (i = id)) as [->|]; autorewrite with gwz; [done|]. eauto.
Qed.

(** Discarding a record nothing waits on. *)
Lemma accounts_discard st id r :
  get_record st id = Some r -> rec_phase r = PhTerminal -> accounts [] st (discard st id, []).
Proof.
  intros Hg Hph Hok _. split_and!.
  - by apply table_ok_discard.
  - apply evolves_discard.
  - rewrite app_nil_r. simpl. destruct (waiting_focus _ _ _ Hg) as (rest & -> & _ & H3).
    pose proof (discard_part _ _ _ Hg) as Hp. unfold table_part in Hp. injection Hp as E1 _ _ _ E5 E6.
    rewrite (H3 _ E1 E5 E6).
    destruct (rok_done _ (proj1 (tok_rec _ Hok _ _ Hg)) Hph) as (Hr & Hc & Hr1 & Hr2 & _).
    unfold rec_waiting. by rewrite Hr, Hc, Hr1, Hr2.
  - intros lane. simpl fst. rewrite discard_counter. change (count_lane lane (keys _)) with 0%N. lia.
Qed.

(** ** Retention *)

Lemma table_ok_retain st id r :
  table_ok st -> get_record st id = Some r -> rec_phase r = PhTerminal ->
  table_ok (st <| retained := retained st ++ [id] |>).
Proof.
  intros [K1 K2 K3] Hg Hph. split; [done..|]. intros i.
  change (i ∈ retained st ++ [id] -> exists r0, get_record st i = Some r0 /\ rec_phase r0 = PhTerminal).
  intros [Hi|Hi]%elem_of_app; [eauto|]. apply list_elem_of_singleton in Hi as ->. eauto.
Qed.

Lemma waiting_retained st l : waiting (st <| retained := l |>) = waiting st.
Proof. done. Qed.

Lemma counter_retained st l lane : counter lane (st <| retained := l |>) = counter lane st.
Proof. by destruct lane. Qed.

(** ** Answering *)

Lemma answered_part id lane st : table_part (answered_on id lane st) = table_part st.
Proof. by destruct lane. Qed.

Lemma answered_flags id lane st : flags (answered_on id lane st) = flags st.
Proof. by destruct lane. Qed.

Lemma answered_all_flags ids lane st :
  flags (foldl (fun st c => answered_on c lane st) st ids) = flags st.
Proof. revert st. induction ids as [|c ids IH]; intros st; simpl; [done|]. by rewrite IH, answered_flags. Qed.

Lemma answered_all_part ids lane st :
  table_part (foldl (fun st c => answered_on c lane st) st ids) = table_part st.
Proof. revert st. induction ids as [|c ids IH]; intros st; simpl; [done|]. by rewrite IH, answered_part. Qed.

Lemma answered_counter id lane lane' st :
  counter lane' (answered_on id lane st) = (counter lane' st - count_lane lane' [(id, lane)])%N.
Proof.
  change [(id, lane)] with (on_lane lane [id]). rewrite count_lane_on.
  destruct lane, lane'; cbn -[N.sub saturating_sub]; unfold saturating_sub; case_decide; lia || done.
Qed.

Lemma answered_all_counter ids lane lane' st :
  counter lane' (foldl (fun st c => answered_on c lane st) st ids) =
  (counter lane' st - count_lane lane' (on_lane lane ids))%N.
Proof.
  revert st. induction ids as [|c ids IH]; intros st; cbn [foldl].
  - change (count_lane lane' _) with 0%N. lia.
  - change (on_lane lane (c :: ids)) with ([(c, lane)] ++ on_lane lane ids).
    rewrite IH, answered_counter, count_lane_app. lia.
Qed.

(** A call answered at once, which changes nothing else. *)
Lemma accounts_answer id lane st o :
  out_target o = id -> out_lane o = lane ->
  accounts [(id, lane)] st (answered_on id lane st, [o]).
Proof.
  intros <- <- Hok Hc. simpl. split_and!.
  - eapply table_ok_part, Hok. by rewrite answered_part.
  - apply evolves_same; [apply answered_part|apply answered_flags].
  - rewrite (waiting_part _ _ (answered_part _ _ st)). unfold keys. simpl. by rewrite Permutation_app_comm.
  - intros lane. rewrite answered_counter. specialize (Hc lane). rewrite count_lane_app in Hc.
    unfold keys. simpl. lia.
Qed.

(** ** Composing operations *)

Lemma accounts_bind new st p (q : State Failure -> State Failure * list Outgoing) :
  accounts new st p -> (forall st', accounts [] st' (q st')) ->
  accounts new st (let '(st1, out1) := p in let '(st2, out2) := q st1 in (st2, out1 ++ out2)).
Proof.
  intros Hp Hq. destruct p as [st1 out1]. specialize (Hq st1).
  pose proof (accounts_then _ _ _ _ Hp Hq) as H. by destruct (q st1).
Qed.

Lemma accounts_seq new st st1 q :
  accounts new st (st1, []) -> accounts [] st1 q -> accounts new st q.
Proof. intros Hp Hq. pose proof (accounts_then _ _ _ _ Hp Hq) as H. by destruct q. Qed.

Lemma accounts_quiet new st st1 st2 out :
  accounts new st (st1, out) -> same_table st1 st2 -> accounts new st (st2, out).
Proof.
  intros Hp Hs. pose proof (accounts_then _ _ _ _ Hp (accounts_same _ _ Hs)) as H.
  simpl in H. by rewrite app_nil_r in H.
Qed.

(** An update of one record that leaves its waiting calls. *)
Lemma accounts_upd st id r r' :
  get_record st id = Some r -> (rec_ok r -> rec_ok r') ->
  rec_operation r' = rec_operation r -> rank (rec_phase r) <= rank (rec_phase r') ->
  rec_waiting id r' = rec_waiting id r ->
  accounts [] st (set_record st id r', []).
Proof. intros. eapply accounts_set; eauto. by rewrite app_nil_r, H3. Qed.

Lemma accounts_guard new st p : (table_ok st -> accounts new st p) -> accounts new st p.
Proof. intros H Hok. by apply H. Qed.

End waiting.

(** ** Settlement *)

Section settling.
Context {Failure : Type} (ports : HostPorts Failure).
Implicit Types (st : State Failure) (r : CallRecord Failure) (outcome : Outcome Failure).

Definition settled r outcome : CallRecord Failure :=
  r <| rec_phase := PhTerminal |> <| rec_gate := false |> <| rec_alive := false |>
    <| rec_cancels := [] |> <| rec_results := [] |> <| rec_responses := [] |>
    <| rec_outcome := Some outcome |>.

Lemma release_slot_part b r id st : table_part (release_slot b r id st) = table_part st.
Proof.
  unfold release_slot. destruct (rec_resolved r); [|done].
  destruct (bool_decide _), b, (rec_operation r) as [[]|]; done.
Qed.

Lemma release_slot_counter b r id st lane : counter lane (release_slot b r id st) = counter lane st.
Proof.
  unfold release_slot. destruct (rec_resolved r); [|done].
  destruct (bool_decide _), b, (rec_operation r) as [[]|], lane; done.
Qed.

Lemma release_slot_flags b r id st : flags (release_slot b r id st) = flags st.
Proof.
  unfold release_slot. destruct (rec_resolved r); [|done].
  destruct (bool_decide _), b, (rec_operation r) as [[]|]; done.
Qed.

Lemma complete_log_part log st : table_part (complete_log log st) = table_part st.
Proof. by destruct log. Qed.

Lemma complete_log_counter log st lane : counter lane (complete_log log st) = counter lane st.
Proof. by destruct log, lane. Qed.

(** The table once its waiters are answered and its slot is free, before the
    record goes or is retained. *)
Definition settling id r outcome st : State Failure :=
  let st := complete_log (rec_events r) (set_record st id (settled r outcome)) in
  let st := st <| cleanup_pending := saturating_add_u32 (cleanup_pending st)
                    (pending_local_work (oc_cleanup outcome)) |>
               <| cleanup_confirmed := cleanup_confirmed st ||
                    peer_cleanup_confirmed (oc_cleanup outcome) |> in
  let st := foldl (fun st c => answered_on c LaneControl st) st (rec_cancels r) in
  let st := foldl (fun st c => answered_on c LaneCall st) st (rec_results r ++ rec_responses r) in
  release_slot (bool_decide (rec_phase r = PhRunning)) r id st.

Lemma settling_part id r outcome st :
  table_part (settling id r outcome st) = table_part (set_record st id (settled r outcome)).
Proof.
  unfold settling. rewrite release_slot_part, !answered_all_part.
  etransitivity; [|apply (complete_log_part (rec_events r))]. done.
Qed.

Lemma settling_flags id r outcome st : flags (settling id r outcome st) = flags st.
Proof.
  unfold settling. rewrite release_slot_flags, !answered_all_flags. by destruct (rec_events r).
Qed.

Lemma settling_counter id r outcome st lane :
  counter lane (settling id r outcome st) =
  (counter lane st - count_lane lane (on_lane LaneControl (rec_cancels r))
   - count_lane lane (on_lane LaneCall (rec_results r ++ rec_responses r)))%N.
Proof.
  unfold settling. rewrite release_slot_counter, !answered_all_counter. f_equal. f_equal.
  etransitivity; [|apply (complete_log_counter (rec_events r) (set_record st id (settled r outcome)))].
  - by destruct lane.
Qed.

Definition waiter_replies id r outcome : list Outgoing :=
  ((fun c => reply ports c LaneControl (ports_cleanup ports (oc_cleanup outcome))) <$> rec_cancels r) ++
  ((fun c => view_reply ports id c outcome true) <$> rec_results r) ++
  ((fun c => view_reply ports id c outcome false) <$> rec_responses r).

Lemma view_reply_key owner id outcome b :
  out_target (view_reply ports owner id outcome b) = id /\
  out_lane (view_reply ports owner id outcome b) = LaneCall.
Proof. destruct b; [done|]. simpl. by destruct (oc_terminal outcome). Qed.

Lemma waiter_replies_keys id r outcome :
  keys (waiter_replies id r outcome) =
  on_lane LaneControl (rec_cancels r) ++ on_lane LaneCall (rec_results r ++ rec_responses r).
Proof.
  unfold waiter_replies, keys, on_lane. rewrite !fmap_app, <- !list_fmap_compose. f_equal. f_equal.
  apply list_fmap_ext. intros _ c _. unfold compose.
  by destruct (view_reply_key id c outcome false) as [-> ->].
Qed.

(** [settle] on a record that is still open, by whether its own call has
    been answered. *)
Lemma settle_open id r outcome st :
  get_record st id = Some r -> rec_phase r <> PhTerminal ->
  settle ports id outcome st =
  if replied r
  then ((settling id r outcome st) <| retained := retained (settling id r outcome st) ++ [id] |>,
        waiter_replies id r outcome)
  else (discard (answered_on id (rec_lane r) (settling id r outcome st)) id,
        waiter_replies id r outcome ++
        [match oc_terminal outcome with
         | Completed response => reply ports id (rec_lane r) response
         | TerminalCancelled failure | TerminalFailed failure =>
             error_reply ports id (rec_lane r) failure
         end]).
Proof.
  intros Hg Hph. unfold settle. rewrite Hg, (bool_decide_false _ Hph). unfold own_reply.
  fold (replied r). destruct (replied r); reflexivity.
Qed.

Lemma settled_ok r outcome : rec_ok r -> replied r = true -> rec_ok (settled r outcome).
Proof.
  intros [H1 H2 H3 H4 _ H5 H6] Hr. split; try done.
  - intros _. split_and!; try done. apply H6. unfold replied in Hr.
    by apply andb_true_iff in Hr as [_ ?].
Qed.

(** Once its own call is answered, the table is the one without the record. *)
Lemma settled_discard_part id r outcome st lane :
  get_record st id = Some r ->
  table_part (discard (answered_on id lane (settling id r outcome st)) id) = table_part (discard st id).
Proof.
  intros Hg. pose proof (settling_part id r outcome st) as Hp.
  rewrite <- (answered_part id lane) in Hp. revert Hp.
  generalize (answered_on id lane (settling id r outcome st)). intros st' Hp.
  unfold table_part in Hp. injection Hp as E1 E2 E3 E4 E5 E6.
  assert (Hg' : get_record st' id = Some (settled r outcome)).
  { unfold get_record. rewrite E1. apply bt_get_insert_eq. }
  rewrite (discard_part _ _ _ Hg), (discard_part _ _ _ Hg'), E1, E2, E3, E4, E5, E6.
  simpl. by rewrite bt_remove_insert.
Qed.

(** The two ways an open record is settled: kept for its views, or answered
    and discarded. *)
Lemma settle_kept_accounts id r outcome st st' :
  get_record st id = Some r -> replied r = true ->
  table_part st' = table_part (set_record st id (settled r outcome)) -> flags st' = flags st ->
  (forall lane, counter lane st' =
    counter lane st - count_lane lane (on_lane LaneControl (rec_cancels r))
    - count_lane lane (on_lane LaneCall (rec_results r ++ rec_responses r)))%N ->
  accounts [] st (st' <| retained := retained st' ++ [id] |>, waiter_replies id r outcome).
Proof.
  intros Hg Hrep Hp Hf Hs Hok Hc. destruct (tok_rec _ Hok _ _ Hg) as [Hr _].
  destruct (waiting_focus _ _ _ Hg) as (rest & Hw & Hset & _).
  rewrite app_nil_r, Hw. cbn [fst snd]. split_and!.
  - apply (table_ok_retain _ _ (settled r outcome)); [|unfold table_part in Hp|done].
    + eapply table_ok_part; [by symmetry|]. eapply table_ok_set; eauto using settled_ok.
      simpl. by destruct (rec_phase r); simpl; lia.
    + injection Hp as E1 _ _ _ _ _. unfold get_record. rewrite E1. apply bt_get_insert_eq.
  - eapply evolves_trans; [apply (evolves_of _ (set_record st id (settled r outcome)))|]; [done..| |].
    + eapply progress_set; [done|]. simpl. by destruct (rec_phase r); simpl; lia.
    + unfold table_part in Hp. injection Hp as E1 _ _ E4 E5 E6. apply evolves_of; [done..|].
      intros i r0. unfold get_record. change (records (st' <| retained := ?l |>)) with (records st').
      rewrite E1. eauto.
  - rewrite waiting_retained, (waiting_part _ _ Hp), Hset, waiter_replies_keys.
    unfold rec_waiting, replied in *. simpl. by rewrite Hrep.
  - intros lane. rewrite counter_retained, waiter_replies_keys, Hs, count_lane_app.
    specialize (Hc lane). rewrite app_nil_r, (count_lane_perm _ _ _ Hw) in Hc.
    unfold rec_waiting in Hc. rewrite Hrep, !count_lane_app in Hc.
    change (count_lane lane []) with 0%N in Hc. lia.
Qed.

Lemma settle_gone_accounts id r out st st' :
  get_record st id = Some r -> table_part st' = table_part (discard st id) -> flags st' = flags st ->
  keys out ≡ₚ rec_waiting id r ->
  (forall lane, counter lane st' = counter lane st - count_lane lane (rec_waiting id r))%N ->
  accounts [] st (st', out).
Proof.
  intros Hg Hp Hf Hk Hs Hok Hc. destruct (waiting_focus _ _ _ Hg) as (rest & Hw & _ & Hrem).
  rewrite app_nil_r, Hw. cbn [fst snd]. split_and!.
  - eapply table_ok_part; [by symmetry|]. by apply table_ok_discard.
  - eapply evolves_trans; [apply evolves_discard|]. apply evolves_same; [done|].
    by rewrite discard_flags.
  - rewrite (waiting_part _ _ Hp), Hk. pose proof (discard_part _ _ _ Hg) as Hd.
    unfold table_part in Hd. injection Hd as D1 _ _ _ D5 D6. by rewrite (Hrem _ D1 D5 D6).
  - intros lane. rewrite (count_lane_perm _ _ _ Hk), Hs. specialize (Hc lane).
    rewrite app_nil_r, (count_lane_perm _ _ _ Hw), count_lane_app in Hc. lia.
Qed.

Lemma accounts_settle id outcome st : accounts [] st (settle ports id outcome st).
Proof.
  destruct (get_record st id) as [r|] eqn:Hg; cycle 1.
  { unfold settle. rewrite Hg. by apply accounts_same. }
  destruct (decide (rec_phase r = PhTerminal)) as [Hph|Hph].
  { unfold settle. rewrite Hg, bool_decide_true by done. by apply accounts_same. }
  rewrite (settle_open id r outcome st Hg Hph). destruct (replied r) eqn:Hrep.
  - apply settle_kept_accounts; [done..|apply settling_part|apply settling_flags|]. intros lane. apply settling_counter.
  - apply (settle_gone_accounts id r); [done|by apply settled_discard_part|..].
    + by rewrite discard_flags, answered_flags, settling_flags.
    + rewrite keys_app, waiter_replies_keys. unfold rec_waiting. rewrite Hrep.
      rewrite Permutation_app_comm. apply Permutation_app_tail. by destruct (oc_terminal outcome).
    + intros lane. rewrite discard_counter, answered_counter, settling_counter.
      unfold rec_waiting. rewrite Hrep, !count_lane_app. lia.
Qed.

End settling.

(** ** Scheduling and admission *)

Section scheduling.
Context {Failure : Type} (ports : HostPorts Failure) (limits : HostLimits) (env : Env).
Implicit Types (st : State Failure) (r : CallRecord Failure) (outcome : Outcome Failure).

Lemma accounts_take id st : accounts [] st ((take_record id st).1, []).
Proof.
  unfold take_record. destruct (get_record st id) as [r|] eqn:Hg; [|by apply accounts_same].
  destruct (rec_gate r) eqn:Hgate; [|by apply accounts_same]. simpl.
  assert (Hs : rec_ok r -> started (rec_phase r) = false) by (intros []; auto).
  destruct (rec_resolved r) as [w|] eqn:Hw; simpl.
  - intros Hok. assert (Hph := Hs (proj1 (tok_rec _ Hok _ _ Hg))). revert Hok.
    eapply accounts_upd; [done| |done| |done]; [|simpl; by destruct (rec_phase r); simpl in *; lia].
    intros []. split; try done. simpl. split; [done|]. intros _.
    apply rok_outcome0. intros E. by rewrite E in Hph.
  - eapply accounts_upd; [done| |done..]. intros []. by split.
Qed.

Lemma accounts_spawn_failed id error st : accounts [] st (spawn_failed ports id error st).
Proof. apply accounts_settle. Qed.

Lemma accounts_start_operation id st : accounts [] st (start_operation ports env id st).
Proof.
  unfold start_operation. pose proof (accounts_take id st) as H.
  destruct (take_record id st) as [st' []]; simpl in *; [|done].
  destruct (env_spawn env id); [|done]. apply (accounts_seq _ _ _ _ H), accounts_spawn_failed.
Qed.

Lemma accounts_next_direct ids st : accounts [] st ((next_direct_from ids st).1, []).
Proof.
  revert st. induction ids as [|id ids IH]; intros st; simpl; [by apply accounts_same|].
  pose proof (accounts_take id st) as H. destruct (take_record id st) as [st' []]; simpl in *.
  - by eapply accounts_quiet.
  - apply (accounts_seq _ _ _ _ H), IH.
Qed.

Lemma accounts_start_direct st : accounts [] st (start_direct ports env st).
Proof.
  unfold start_direct, next_direct. pose proof (accounts_next_direct (direct_queue st) st) as H.
  destruct (next_direct_from (direct_queue st) st) as [st' [id|]]; simpl in *.
  - destruct (env_spawn env id); [|done]. apply (accounts_seq _ _ _ _ H).
    eapply accounts_frame; [|apply accounts_spawn_failed]. done.
  - by eapply accounts_quiet.
Qed.

Lemma accounts_schedule_operations fuel index blocked st :
  accounts [] st (schedule_operations ports limits env fuel index blocked st).
Proof.
  revert index blocked st. induction fuel as [|fuel IH]; intros index blocked st; simpl;
    [by apply accounts_same|].
  destruct (_ <? _)%N; [|by apply accounts_same].
  destruct (queue st !! index) as [id|]; [|by apply accounts_same].
  destruct (get_record st id) as [r|]; [|by eapply accounts_frame; [|apply IH]].
  destruct (rec_operation r) as [[op class]|]; [|by eapply accounts_frame; [|apply IH]].
  destruct (rec_resolved r) as [resolved|]; [|by eapply accounts_frame; [|apply IH]].
  destruct (exclusive class && _).
  { eapply accounts_frame; [|apply accounts_bind; [apply accounts_settle|apply IH]]. done. }
  destruct (_ || _); [apply IH|].
  eapply accounts_frame; [|apply accounts_bind; [apply accounts_start_operation|apply IH]]. done.
Qed.

Lemma accounts_schedule_direct fuel st : accounts [] st (schedule_direct ports limits env fuel st).
Proof.
  revert st. induction fuel as [|fuel IH]; intros st; simpl; [by apply accounts_same|].
  destruct (_ && _); [|by apply accounts_same].
  eapply accounts_frame; [|apply accounts_bind; [apply accounts_start_direct|apply IH]]. done.
Qed.

Lemma accounts_schedule st : accounts [] st (schedule ports limits env st).
Proof.
  unfold schedule. apply accounts_bind; [apply accounts_schedule_operations|].
  intros st'. apply accounts_schedule_direct.
Qed.

Lemma find_delivered_in st ids id : find_delivered st ids = Some id -> id ∈ ids /\ is_Some (get_record st id).
Proof.
  induction ids as [|i ids IH]; simpl; [done|].
  destruct (get_record st i) as [r|] eqn:Hg; [destruct (delivered r)|]; intros H; simplify_eq.
  - split; [left|]. eauto.
  - destruct (IH H). split; [by right|done].
  - destruct (IH H). split; [by right|done].
Qed.

Lemma remove_first_in i id ids : i ∈ remove_first id ids -> i ∈ ids.
Proof.
  induction ids as [|x ids IH]; simpl; [done|]. destruct (x =? id)%N; [by right|].
  rewrite !elem_of_cons. naive_solver.
Qed.

Lemma accounts_retained l st :
  (forall i, i ∈ l -> i ∈ retained st) -> accounts [] st (st <| retained := l |>, []).
Proof.
  intros Hl [K1 K2 K3] _. cbn [fst snd]. split_and!.
  - split; [done..|]. intros i Hi. by apply K3, Hl.
  - apply evolves_of; [done..|]. exact (progress_refl st).
  - by rewrite app_nil_r, waiting_retained.
  - intros lane. rewrite counter_retained. change (count_lane lane (keys _)) with 0%N. lia.
Qed.

Lemma accounts_evict st : accounts [] st ((evict st).1, []).
Proof.
  unfold evict. destruct (find_delivered st (retained st)) as [id|] eqn:Hf; [|by apply accounts_same].
  apply find_delivered_in in Hf as [Hin [r Hg]]. intros Hok.
  assert (Hph : rec_phase r = PhTerminal) by (destruct (tok_retained _ Hok _ Hin); naive_solver).
  revert Hok.
  eapply accounts_seq; [apply (accounts_retained (remove_first id (retained st)))|].
  - intros i. apply remove_first_in.
  - simpl. by apply (accounts_discard _ _ r).
Qed.

Lemma evict_keeps st id r :
  table_ok st -> get_record st id = Some r -> rec_phase r <> PhTerminal ->
  get_record (evict st).1 id = Some r.
Proof.
  intros Hok Hg Hph. unfold evict.
  destruct (find_delivered st (retained st)) as [i|] eqn:Hf; [|done].
  apply find_delivered_in in Hf as [Hin [r0 Hg0]].
  assert (Hne : id <> i).
  { intros ->. simplify_eq. apply Hph. destruct (tok_retained _ Hok _ Hin). naive_solver. }
  cbn [fst]. set (st' := st <| retained := _ |>).
  pose proof (discard_part st' i r0 Hg0) as Hp. unfold table_part in Hp. injection Hp as E1 _ _ _ _ _.
  unfold get_record. rewrite E1. change (records st') with (records st).
  by rewrite bt_get_remove_ne.
Qed.

(** The refusals change the table only by an eviction. *)
Lemma admission_refusal_state class resolved st :
  let p := admission_refusal limits env class resolved st in p.1 = st \/ p.1 = (evict st).1.
Proof.
  unfold admission_refusal. destruct (is_live _ _); [by left|].
  destruct (_ && _); [by left|]. destruct (_ <=? _)%N; [by left|].
  destruct (_ <=? _)%N; [|by left]. destruct (evict st) as [st' []]; by right.
Qed.

Lemma accounts_admission_refusal class resolved st :
  accounts [] st ((admission_refusal limits env class resolved st).1, []).
Proof.
  destruct (admission_refusal_state class resolved st) as [-> | ->];
    [by apply accounts_same|apply accounts_evict].
Qed.

Lemma admission_refusal_keeps class resolved st id r :
  table_ok st -> get_record st id = Some r -> rec_phase r <> PhTerminal ->
  get_record (admission_refusal limits env class resolved st).1 id = Some r.
Proof.
  intros. destruct (admission_refusal_state class resolved st) as [-> | ->]; [done|].
  by apply evict_keeps.
Qed.

(** An update that answers the record's own call. *)
Lemma accounts_set_answer st id r r' lane o :
  get_record st id = Some r -> (rec_ok r -> rec_ok r') ->
  rec_operation r' = rec_operation r -> rank (rec_phase r) <= rank (rec_phase r') ->
  rec_waiting id r ≡ₚ (id, lane) :: rec_waiting id r' ->
  out_target o = id -> out_lane o = lane ->
  accounts [] st (answered_on id lane (set_record st id r'), [o]).
Proof.
  intros Hg Hr' Hop Hph Hw Ho1 Ho2 Hok Hc. unfold keys. cbn [fst snd fmap list_fmap].
  rewrite Ho1, Ho2. destruct (waiting_focus _ _ _ Hg) as (rest & Hw0 & H2 & _). split_and!.
  - eapply table_ok_part; [symmetry; apply answered_part|]. eapply table_ok_set; eauto.
    eapply Hr', (tok_rec _ Hok), Hg.
  - eapply evolves_trans; [|apply evolves_same; [apply answered_part|apply answered_flags]].
    apply evolves_of; [done..|]. by eapply progress_set.
  - rewrite app_nil_r, (waiting_part _ _ (answered_part _ _ _)), H2, Hw0, Hw. done.
  - intros lane'. rewrite answered_counter. specialize (Hc lane').
    rewrite app_nil_r, (count_lane_perm _ _ _ Hw0), count_lane_app, (count_lane_perm _ _ _ Hw) in Hc.
    change ((id, lane) :: rec_waiting id r') with ([(id, lane)] ++ rec_waiting id r') in Hc.
    rewrite count_lane_app in Hc.
    change (counter lane' (set_record st id r')) with (counter lane' st). lia.
Qed.

(** The record of an admitted operation, and what admitting it changes of
    the accounts. *)
Definition admitted (resolved : Resolved) r : CallRecord Failure :=
  r <| rec_in_table := true |> <| rec_resolved := Some resolved |> <| rec_phase := Queued |>
    <| rec_accepted := bool_decide (call_mode (rec_call r) = Submit) |>.

Lemma admitted_ok resolved r : rec_phase r = Received -> rec_ok r -> rec_ok (admitted resolved r).
Proof.
  intros Hph []. split; try done. simpl. split; [done|]. intros _. apply rok_outcome0. by rewrite Hph.
Qed.

Lemma accounts_admitted id r op class resolved st o :
  get_record st id = Some r -> rec_ok r -> rec_phase r = Received ->
  rec_operation r = Some (op, class) -> out_target o = id -> out_lane o = LaneCall ->
  accounts [] st
    (if bool_decide (call_mode (rec_call r) = Submit)
     then (answered_on id LaneCall (set_record st id (admitted resolved r)), [o])
     else (set_record st id (admitted resolved r), [])).
Proof.
  intros Hg Hr Hph Hop Ho1 Ho2. destruct (bool_decide _) eqn:Hm.
  - eapply accounts_set_answer; try done; [by apply admitted_ok|rewrite Hph; simpl; lia|].
    unfold rec_waiting, replied. simpl. rewrite Hop, Hm, (rok_received _ Hr Hph). simpl.
    by rewrite (rok_lane _ Hr).
  - eapply accounts_upd; [exact Hg|by apply admitted_ok|done|rewrite Hph; simpl; lia|].
    unfold rec_waiting, replied. simpl. by rewrite Hop, Hm, (rok_received _ Hr Hph).
Qed.

Lemma accounts_admit id found st : accounts [] st (admit_call ports limits env id found st).
Proof.
  unfold admit_call. destruct (get_record st id) as [r|] eqn:Hg; [|by apply accounts_same].
  destruct (bool_decide (rec_phase r = Received)) eqn:Hph; [|by apply accounts_same].
  apply bool_decide_eq_true in Hph. cbn [negb].
  destruct found as [[resolved|failure]|], (g_cancelled (rec_controls r)); try apply accounts_settle.
  apply accounts_guard. intros Hok. pose proof (proj1 (tok_rec _ Hok _ _ Hg)) as Hr.
  destruct (rec_operation r) as [[op class]|] eqn:Hop; cycle 1.
  { eapply accounts_seq; [eapply accounts_quiet|apply accounts_schedule].
    - apply (accounts_upd st id r
        (r <| rec_resolved := Some resolved |> <| rec_phase := DirectWaiting |>));
        [exact Hg| |done| |done]; [|rewrite Hph; simpl; lia].
      intros []. split; try done. simpl. split; [done|]. intros _. apply rok_outcome0. by rewrite Hph.
    - done. }
  pose proof (accounts_admission_refusal class resolved st) as Ha.
  pose proof (admission_refusal_keeps class resolved st id r Hok Hg) as Hk.
  rewrite Hph in Hk. specialize (Hk ltac:(done)).
  destruct (admission_refusal limits env class resolved st) as [st1 [error|]]; cbn [fst] in *.
  { eapply accounts_seq; [exact Ha|apply accounts_settle]. }
  cbv zeta. unfold get_record in Hk |- *. cbn [records]. eapply accounts_seq; [exact Ha|].
  set (st2 := st1 <| table_entries := _ |> <| requests := _ |>).
  change (bt_get (records st2) id) with (get_record st2 id).
  rewrite (Hk : get_record st2 id = Some r). fold (admitted resolved r).
  eapply accounts_frame; [by instantiate (1 := st2)|].
  apply (accounts_bind _ _ (if bool_decide (call_mode (rec_call r) = Submit) then _ else _)
    (fun st => schedule ports limits env (st <| queue := queue st ++ [id] |>))).
  - by eapply accounts_admitted.
  - intros st'. eapply accounts_frame; [|apply accounts_schedule]. done.
Qed.

Lemma accounts_worker_reports id outcome st :
  accounts [] (st <| unflushed := (unflushed st + 1)%N |>) (worker_reports ports limits env id outcome st).
Proof.
  unfold worker_reports. apply accounts_bind; [apply accounts_settle|].
  intros st'. apply accounts_schedule.
Qed.

Lemma accounts_direct_next st : accounts [] st ((direct_worker_next st).1, []).
Proof.
  unfold direct_worker_next, next_direct. pose proof (accounts_next_direct (direct_queue st) st) as H.
  destruct (next_direct_from (direct_queue st) st) as [st' [id|]]; [done|]. by eapply accounts_quiet.
Qed.

End scheduling.

(** ** Receipt *)

Section receiving.
Context {Failure : Type} (ports : HostPorts Failure) (limits : HostLimits) (env : Env).
Implicit Types (st : State Failure) (r : CallRecord Failure) (outcome : Outcome Failure).

Lemma waiting_held st h :
  waiting (st <| held := held st ++ [h] |>) ≡ₚ waiting st ++ [(held_call h, LaneCall)].
Proof.
  unfold waiting. change (records (st <| held := ?l |>)) with (records st).
  change (held (st <| held := ?l |>)) with (held st ++ [h]).
  change (closers (st <| held := ?l |>)) with (closers st). unfold on_lane. rewrite !fmap_app, <- !app_assoc.
  do 2 apply Permutation_app_head. apply Permutation_app_comm.
Qed.

Lemma waiting_closers st id :
  waiting (st <| closers := closers st ++ [id] |>) = waiting st ++ [(id, LaneControl)].
Proof.
  unfold waiting. change (records (st <| closers := ?l |>)) with (records st).
  change (held (st <| closers := ?l |>)) with (held st).
  change (closers (st <| closers := ?l |>)) with (closers st ++ [id]). unfold on_lane.
  by rewrite !fmap_app, <- !app_assoc.
Qed.

(** A call that joins the waiting ones without a record of its own. *)
Lemma accounts_join st st' id lane :
  table_ok st' -> evolves st st' -> waiting st' ≡ₚ waiting st ++ [(id, lane)] ->
  (forall l, counter l st' = counter l st) -> accounts [(id, lane)] st (st', []).
Proof.
  intros Hok' Hev Hw Hn _ _. cbn [fst snd]. split_and!; [done|done|by rewrite Hw|].
  intros l. rewrite Hn. change (count_lane l (keys [])) with 0%N. lia.
Qed.

(** What [create] adds: one open record, and its operation's name. *)
Lemma create_record call class st :
  let id := call_id call in let st' := create ports limits call class st in
  exists r, records st' = bt_insert (records st) id r /\ rec_ok r /\
    rec_waiting id r = [(id, LaneCall)] /\
    (operations st' = operations st \/
     exists op c, rec_operation r = Some (op, c) /\ operations st' = <[op := id]> (operations st)).
Proof.
  destruct class as [[c v]|]; (eexists; split; [reflexivity|]); (split; [by split|]); split.
  - unfold rec_waiting, replied. simpl. by rewrite andb_false_r.
  - right. do 2 eexists. split; reflexivity.
  - unfold rec_waiting, replied. simpl. by rewrite andb_false_r.
  - by left.
Qed.

Lemma create_frame call class st :
  let st' := create ports limits call class st in
  flags st' = flags st /\ held st' = held st /\ closers st' = closers st /\
  retained st' = retained st /\ highest_call st' = highest_call st /\
  (forall l, counter l st' = counter l st).
Proof. destruct class as [[c v]|]; split_and!; first [reflexivity | by intros []]. Qed.

Lemma table_ok_insert st st' id r :
  table_ok st -> get_record st id = None -> records st' = bt_insert (records st) id r -> rec_ok r ->
  (id <= highest_call st)%N -> retained st' = retained st -> highest_call st' = highest_call st ->
  (operations st' = operations st \/
   exists op c, rec_operation r = Some (op, c) /\ operations st' = <[op := id]> (operations st)) ->
  table_ok st'.
Proof.
  intros [K1 K2 K3] Hg Er Hr Hid Hret Hhi Hops.
  assert (Hget : forall i, i <> id -> get_record st' i = get_record st i).
  { intros i Hi. unfold get_record. rewrite Er. by apply bt_get_insert_ne. }
  assert (Hget' : get_record st' id = Some r) by (unfold get_record; rewrite Er; apply bt_get_insert_eq).
  assert (Hkeep : forall i r0, get_record st i = Some r0 -> get_record st' i = Some r0).
  { intros i r0 Hi. rewrite Hget; [done|]. by intros ->; simplify_eq. }
  split.
  - intros i r0 Hi. rewrite Hhi. destruct (decide (i = id)) as [->|]; [by simplify_eq|].
    rewrite Hget in Hi by done. eauto.
  - intros op i Hi. assert (operations st !! op = Some i -> exists r0 c0,
      get_record st' i = Some r0 /\ rec_operation r0 = Some (op, c0)) as Hold.
    { intros (r0 & c0 & Hg0 & Ho0)%K2. eauto. }
    destruct Hops as [Eo | (op' & c' & Ho' & Eo)]; rewrite Eo in Hi; [by apply Hold|].
    apply lookup_insert_Some in Hi as [[<- <-]|[_ Hi]]; [eauto|by apply Hold].
  - intros i. rewrite Hret. intros (r0 & Hg0 & Hp0)%K3. eauto.
Qed.

Lemma accounts_create call class st :
  get_record st (call_id call) = None -> (call_id call <= highest_call st)%N -> closing st = false ->
  accounts [(call_id call, LaneCall)] st (create ports limits call class st, []).
Proof.
  intros Hg Hid Hcl. apply accounts_guard. intros Hok.
  pose proof (create_record call class st) as H1. pose proof (create_frame call class st) as H2.
  cbv zeta in H1, H2. destruct H1 as (r & Er & Hr & Hw & Hops), H2 as (Hf & Hh & Hc & Hret & Hhi & Hn).
  apply accounts_join; [by eapply table_ok_insert|split; try done; by rewrite ?Hcl, ?Hhi| |done].
  unfold waiting. rewrite Er, Hh, Hc, gather_fresh, Hw by done.
  rewrite <- app_assoc. apply Permutation_app_comm.
Qed.

Lemma accounts_read_events now id events st :
  closing st = false -> accounts [(id, LaneCall)] st (read_events ports limits now id events st).
Proof.
  intros Hcl. unfold read_events.
  destruct (find_operation st (events_operation events)) as [owner|[code message]];
    [|by apply accounts_answer].
  destruct (get_record st owner ≫= rec_events) as [log|]; [|by apply accounts_answer].
  destruct events as [read|operation stream]; [|by apply accounts_answer].
  destruct (_ || _ || _); [by apply accounts_answer|]. apply accounts_guard. intros Hok.
  set (st1 := st <| others := _ |>). apply accounts_join.
  - by destruct Hok; split.
  - split; try done; by rewrite Hcl.
  - apply (waiting_held st1).
  - by intros [].
Qed.

Lemma accounts_view id operation b st : accounts [(id, LaneCall)] st (view ports id operation b st).
Proof.
  unfold view. destruct (find_operation st operation) as [owner|[code message]];
    [|by apply accounts_answer].
  destruct (get_record st owner) as [r|] eqn:Hg; [|by apply accounts_answer].
  destruct (rec_outcome r) as [outcome|] eqn:Ho.
  { apply accounts_answer; apply view_reply_key. }
  apply (accounts_quiet _ _ (set_record st owner
    (if b then r <| rec_results := rec_results r ++ [id] |>
     else r <| rec_responses := rec_responses r ++ [id] |>))); [|done].
  apply (accounts_set _ _ owner r); [done|..].
  - intros []. split; try (by destruct b). intros Hph. apply rok_outcome0 in Ho. by destruct b.
  - by destruct b.
  - by destruct b.
  - unfold rec_waiting, replied, on_lane. destruct b; simpl; rewrite !fmap_app, <- !app_assoc; simpl;
      do 2 apply Permutation_app_head; [|done].
    apply Permutation_app_head, Permutation_cons_append.
Qed.

Lemma accounts_release id operation st : accounts [(id, LaneCall)] st (release ports id operation st).
Proof.
  unfold release. cbv zeta.
  destruct (find_operation _ operation) as [owner|[code message]]; [|by apply accounts_answer].
  destruct (get_record (answered_on id LaneCall st) owner) as [r|] eqn:Hg; [|by apply accounts_answer].
  destruct (bool_decide (rec_phase r = PhTerminal)) eqn:Hph; [|by apply accounts_answer].
  apply bool_decide_eq_true in Hph. cbn [negb].
  apply (accounts_then _ _ (answered_on id LaneCall st, [_]) (_, [])); [by apply accounts_answer|].
  by eapply accounts_discard.
Qed.

(** A target [cancel] finds has a record. *)
Lemma cancel_target_record id target st owner :
  table_ok st -> cancel_target id target st = Ok owner -> is_Some (get_record st owner).
Proof.
  intros Hok. unfold cancel_target. destruct target as [target|operation].
  - destruct (_ <=? _)%N; [done|]. destruct (bool_decide _); [done|].
    destruct (get_record st target) eqn:Hg; [|done]. intros [= <-]. eauto.
  - unfold find_operation. destruct (operations st !! operation) as [i|] eqn:Ho.
    + intros [= <-]. destruct (tok_ops _ Hok _ _ Ho) as (r & c & -> & _). eauto.
    + by destruct (issued st operation).
Qed.

Lemma accounts_cancel_record id target r st :
  get_record st target = Some r -> rec_phase r <> PhTerminal ->
  accounts [(id, LaneControl)] st (set_record st target (cancel_record r id), []).
Proof.
  intros Hg Hph. eapply accounts_set; [exact Hg| |done|done|].
  - intros []. by split.
  - unfold rec_waiting, replied, on_lane, cancel_record. simpl. rewrite !fmap_app, <- !app_assoc.
    do 2 apply Permutation_app_head. simpl. rewrite (app_assoc _ _ [_]). apply Permutation_cons_append.
Qed.

Lemma accounts_cancel id target st :
  accounts [(id, LaneControl)] st (cancel ports limits env id target st).
Proof.
  unfold cancel. apply accounts_guard. intros Hok.
  destruct (cancel_target id target st) as [owner|[code message]] eqn:Ht; [|by apply accounts_answer].
  destruct (cancel_target_record _ _ _ _ Hok Ht) as [r Hg]. cbv zeta.
  set (st1 := st <| others := _ |>). eapply (accounts_frame _ _ st1); [done|].
  change (get_record st owner = Some r) with (get_record st1 owner = Some r) in Hg. clearbody st1.
  rewrite Hg.
  assert (Hq : forall ph, rec_phase r = ph -> ph <> PhTerminal ->
    accounts [(id, LaneControl)] st1 (set_record st1 owner (cancel_record r id), [])).
  { intros ph <- Hph. by apply accounts_cancel_record. }
  destruct (rec_phase r) eqn:Hph; try (by apply (Hq _ eq_refl)); [..|by apply accounts_answer].
  all: eapply accounts_seq; [eapply accounts_quiet; [by apply (Hq _ eq_refl)|]|apply accounts_bind;
    [apply accounts_settle|intros; apply accounts_schedule]]; done.
Qed.

(** ** The balance of a session *)

Definition covered st : Prop := forall lane, (count_lane lane (waiting st) <= counter lane st)%N.

(** What the counters hold beyond the waiting calls. *)
Definition slack (lane : Lane) st : N := (counter lane st - count_lane lane (waiting st))%N.

(** The step takes the [new] calls, answers [out] and leaves [open] to be
    answered outside the table. *)
Record balanced (new : calls) st st' (out : list Outgoing) (open : calls) : Prop := {
  bal_ok : table_ok st';
  bal_covered : covered st';
  bal_evolves : evolves st st';
  bal_calls : waiting st ++ new ≡ₚ keys out ++ waiting st' ++ open;
  bal_slack lane : slack lane st' = (slack lane st + count_lane lane open)%N;
}.

Lemma accounts_balanced st p :
  accounts [] st p -> table_ok st -> covered st -> balanced [] st p.1 p.2 [].
Proof.
  intros H Hok Hc. destruct H as (H1 & H2 & H3 & H4); [done|intros; rewrite app_nil_r; apply Hc|].
  rewrite app_nil_r in H3.
  assert (Hl : forall lane, count_lane lane (waiting st) =
    (count_lane lane (keys p.2) + count_lane lane (waiting p.1))%N).
  { intros lane. by rewrite (count_lane_perm _ _ _ H3), count_lane_app. }
  split; [done| |done|by rewrite !app_nil_r|].
  - intros lane. specialize (Hl lane). specialize (H4 lane). specialize (Hc lane). lia.
  - intros lane. specialize (Hl lane). specialize (H4 lane). unfold slack.
    change (count_lane lane []) with 0%N. lia.
Qed.

Lemma counted_balanced id lane st p :
  accounts [(id, lane)] (count_call lane st) p -> table_ok st -> covered st ->
  balanced [(id, lane)] st p.1 p.2 [].
Proof.
  intros H Hok Hc.
  assert (Hp : table_part (count_call lane st) = table_part st) by (by destruct lane).
  assert (Hf : flags (count_call lane st) = flags st) by (by destruct lane).
  assert (Hn : forall l, counter l (count_call lane st) = (counter l st + count_lane l [(id, lane)])%N).
  { intros l. change [(id, lane)] with (on_lane lane [id]). rewrite count_lane_on.
    destruct lane, l; cbn -[N.add]; case_decide; lia || done. }
  destruct H as (H1 & H2 & H3 & H4).
  { by eapply table_ok_part. }
  { intros l. rewrite count_lane_app, (waiting_part _ _ Hp), Hn. specialize (Hc l). lia. }
  rewrite (waiting_part _ _ Hp) in H3.
  assert (Hl : forall l, (count_lane l (waiting st) + count_lane l [(id, lane)])%N =
    (count_lane l (keys p.2) + count_lane l (waiting p.1))%N).
  { intros l. by rewrite <- !count_lane_app, (count_lane_perm _ _ _ H3). }
  split; [done| | |by rewrite app_nil_r|].
  - intros l. specialize (Hl l). specialize (H4 l). specialize (Hn l). specialize (Hc l). lia.
  - eapply evolves_trans; [by apply evolves_same|done].
  - intros l. specialize (Hl l). specialize (H4 l). specialize (Hn l). specialize (Hc l). unfold slack.
    change (count_lane l []) with 0%N. lia.
Qed.

(** The documented agreement of the ports: cancel and close calls, and no
    others, travel on the control lane. *)
Definition request_lane (request : Request) : Lane :=
  match request with RqCancel _ | RqClose => LaneControl | _ => LaneCall end.

Definition lanes_agree : Prop :=
  forall call request, ports_classify ports call = Ok request ->
    ports_lane ports (call_method call) = request_lane request.

Definition receipt_out (rx : Receipt) : list Outgoing :=
  match rx with RxReplies out => out | _ => [] end.

Definition receipt_open (call : Call) (rx : Receipt) : calls :=
  match rx with RxSpool lane => [(call_id call, lane)] | _ => [] end.

Lemma accounts_closer id st :
  close_report_ st = None -> accounts [(id, LaneControl)] st (st <| closers := closers st ++ [id] |>, []).
Proof.
  intros Hr. apply accounts_guard. intros Hok. apply accounts_join.
  - by destruct Hok; split.
  - split; try done. intros _. exact (progress_refl st).
  - by rewrite waiting_closers.
  - by intros [].
Qed.

Lemma accounts_dispatch now call request st :
  get_record st (call_id call) = None -> (call_id call <= highest_call st)%N ->
  (closing st = false \/ is_close request = true) -> request <> RqSpool ->
  let p := dispatch ports limits env now call (request_lane request) request st in
  accounts [(call_id call, request_lane request)] st (p.1, receipt_out p.2) /\
  receipt_open call p.2 = [].
Proof.
  intros Hg Hid Hcl Hsp. destruct request as [| | events | | | | target | |]; simpl in Hcl;
    (try (destruct Hcl as [Hcl|]; [|done]));
    cbn [dispatch request_lane fst snd replies_only receipt_out receipt_open].
  - split; [|done]. by apply accounts_create.
  - split; [|done]. by apply accounts_create.
  - split; [|done]. by apply (accounts_read_events now).
  - done.
  - split; [|done]. apply accounts_view.
  - split; [|done]. apply accounts_view.
  - split; [|done]. apply accounts_cancel.
  - split; [|done]. apply accounts_release.
  - cbv zeta. set (st1 := st <| others := _ |>).
    destruct (close_report_ st1) as [report|] eqn:Hr; cbn [fst snd].
    + split; [|done]. apply (accounts_frame _ _ st1); [done|]. by apply accounts_answer.
    + split; [|by destruct (close_started _)].
      destruct (close_started _); (apply (accounts_frame _ _ st1); [done|]; by apply accounts_closer).
Qed.

(** A call refused before it was counted. *)
Lemma refused_balanced id lane o st :
  out_target o = id -> out_lane o = lane -> table_ok st -> covered st ->
  balanced [(id, lane)] st st [o] [].
Proof.
  intros <- <- Hok Hc. split; [done|done| | |].
  - apply evolves_of; [done..|apply progress_refl].
  - rewrite app_nil_r. unfold keys. simpl. by rewrite Permutation_app_comm.
  - intros lane. change (count_lane lane []) with 0%N. lia.
Qed.

(** ** The receipt of a call *)

Lemma balanced_from new st st1 st' out open :
  balanced new st1 st' out open -> evolves st st1 -> waiting st = waiting st1 ->
  (forall lane, counter lane st = counter lane st1) -> balanced new st st' out open.
Proof.
  intros [] Hev Hw Hn. split; [done|done|by eapply evolves_trans|by rewrite Hw|].
  intros lane. rewrite bal_slack0. unfold slack. by rewrite Hw, Hn.
Qed.

Lemma dispatch_balanced now call request st :
  get_record st (call_id call) = None -> (call_id call <= highest_call st)%N ->
  (closing st = false \/ is_close request = true) -> table_ok st -> covered st ->
  let lane := request_lane request in
  let p := dispatch ports limits env now call lane request (count_call lane st) in
  balanced [(call_id call, lane)] st p.1 (receipt_out p.2) (receipt_open call p.2).
Proof.
  intros Hg Hid Hcl Hok Hc. cbv zeta.
  assert (request = RqSpool \/ request <> RqSpool) as [->|Hsp] by (destruct request; auto).
  - cbn [dispatch request_lane fst snd receipt_out receipt_open]. split.
    + by eapply table_ok_part, Hok.
    + intros l. specialize (Hc l). destruct l; cbn [counter] in *; [|done].
      change (waiting (count_call LaneCall st)) with (waiting st). simpl. lia.
    + by apply evolves_same.
    + done.
    + intros l. unfold slack. change (waiting (count_call LaneCall st)) with (waiting st).
      specialize (Hc l). change [(call_id call, LaneCall)] with (on_lane LaneCall [call_id call]).
      rewrite count_lane_on. destruct l; cbn [counter] in *; case_decide; try done; simpl; lia.
  - assert (Hg' : get_record (count_call (request_lane request) st) (call_id call) = None)
      by (by destruct (request_lane request)).
    assert (Hid' : (call_id call <= highest_call (count_call (request_lane request) st))%N)
      by (by destruct (request_lane request)).
    assert (Hcl' : closing (count_call (request_lane request) st) = false \/ is_close request = true)
      by (by destruct (request_lane request)).
    destruct (accounts_dispatch now call request _ Hg' Hid' Hcl' Hsp) as [Ha ->].
    by apply (counted_balanced _ _ _ _ Ha).
Qed.

Lemma receive_balanced now call st st' rx :
  lanes_agree -> table_ok st -> covered st ->
  receive ports limits env now call st = (st', Ok rx) -> ended st = false ->
  (highest_call st < call_id call)%N /\ (call_id call <= highest_call st')%N /\
  balanced [(call_id call, ports_lane ports (call_method call))] st st'
    (receipt_out rx) (receipt_open call rx).
Proof.
  intros Hl Hok Hc. unfold receive. cbv zeta. destruct (_ <=? _)%N eqn:Hid; [done|].
  apply N.leb_gt in Hid. set (st1 := st <| highest_call := _ |>).
  assert (Hok1 : table_ok st1).
  { destruct Hok as [K1 K2 K3]. split; [|done..]. intros i r (? & ?)%K1. split; [done|].
    change (highest_call st1) with (call_id call). lia. }
  assert (Hnone : get_record st1 (call_id call) = None).
  { destruct (get_record st1 (call_id call)) as [r|] eqn:Hg; [|done].
    destruct (tok_rec _ Hok _ _ Hg) as [_ ?]. lia. }
  assert (Hc1 : covered st1) by (intros lane; specialize (Hc lane); by destruct lane).
  intros E He. change (ended st1) with (ended st) in E. rewrite He in E. split; [done|].
  enough (Hb : balanced [(call_id call, ports_lane ports (call_method call))] st1 st'
    (receipt_out rx) (receipt_open call rx)).
  { split; [exact (ev_highest _ _ (bal_evolves _ _ _ _ _ Hb))|].
    eapply (balanced_from _ _ st1); [done|split; try done; [exact (N.lt_le_incl _ _ Hid)|intros _; exact (progress_refl st)]|done|by intros []]. }
  assert (Hid1 : (call_id call <= highest_call st1)%N) by done. clearbody st1.
  destruct (ports_classify ports call) as [request|error] eqn:Hcls; [|simplify_eq; by apply refused_balanced].
  destruct (closing st1 && negb (is_close request)) eqn:Hclose; [simplify_eq; by apply refused_balanced|].
  destruct (lane_full limits _ st1); [simplify_eq; by apply refused_balanced|].
  rewrite (Hl _ _ Hcls) in *.
  pose proof (dispatch_balanced now call request st1 Hnone) as Hd. cbv zeta in Hd.
  destruct (dispatch _ _ _ _ _ _ _ _) as [st2 rx2]. simplify_eq.
  apply Hd; [done| |done..]. by destruct (closing st1), (is_close request); auto.
Qed.

(** The second half of a spool call. *)
Lemma spool_answer_balanced call lane st :
  table_ok st -> covered st -> (1 <= slack lane st)%N ->
  let p := spool_answer ports call lane st in
  table_ok p.1 /\ covered p.1 /\ evolves st p.1 /\ waiting p.1 = waiting st /\
  keys p.2 = [(call_id call, lane)] /\
  (forall l, slack l st = slack l p.1 + count_lane l [(call_id call, lane)])%N.
Proof.
  intros Hok Hc Hs. cbv zeta. unfold spool_answer. cbn [fst snd].
  pose proof (answered_part (call_id call) lane st) as Hp.
  assert (Hcount : forall l, (count_lane l [(call_id call, lane)] <= slack l st)%N).
  { intros l. change [(call_id call, lane)] with (on_lane lane [call_id call]).
    rewrite count_lane_on. case_decide; subst; simpl length; lia. }
  split_and!.
  - by eapply table_ok_part.
  - intros l. rewrite answered_counter, (waiting_part _ _ Hp). specialize (Hcount l). specialize (Hc l).
    unfold slack in *. lia.
  - apply evolves_same; [done|apply answered_flags].
  - by apply waiting_part.
  - by destruct (ports_spool ports call).
  - intros l. unfold slack in *. rewrite answered_counter, (waiting_part _ _ Hp). specialize (Hcount l). lia.
Qed.

(** *** Held reads *)

Lemma filter_bool_perm {A} (f : A -> bool) (l : list A) :
  l ≡ₚ filter (fun a => f a = true) l ++ filter (fun a => f a = false) l.
Proof.
  induction l as [|a l IH]; [done|]. rewrite !filter_cons. destruct (f a) eqn:E; simpl.
  - by rewrite <- IH.
  - rewrite IH at 1. apply Permutation_middle.
Qed.

(** Reads answered together: those that go, and those that stay. *)
Lemma accounts_reads (ready kept : list Held) st :
  held st ≡ₚ ready ++ kept ->
  accounts [] st ((foldl (fun st h => answered_on (held_call h) LaneCall st) st ready) <| held := kept |>,
                  answer_held ports limits st <$> ready).
Proof.
  intros Hh Hok Hc.
  assert (E : foldl (fun st h => answered_on (held_call h) LaneCall st) st ready =
    foldl (fun st c => answered_on c LaneCall st) st (held_call <$> ready)).
  { clear. revert st. induction ready; intros st; simpl; auto. }
  rewrite E. clear E. cbn [fst snd].
  pose proof (answered_all_part (held_call <$> ready) LaneCall st) as Hp.
  pose proof (answered_all_flags (held_call <$> ready) LaneCall st) as Hf.
  pose proof (fun l => answered_all_counter (held_call <$> ready) LaneCall l st) as Hn.
  revert Hp Hf Hn. generalize (foldl (fun st c => answered_on c LaneCall st) st (held_call <$> ready)).
  intros st1 Hp Hf Hn. unfold table_part in Hp. injection Hp as E1 E2 E3 E4 E5 E6.
  assert (Hk : keys (answer_held ports limits st <$> ready) = on_lane LaneCall (held_call <$> ready)).
  { unfold keys, on_lane. by rewrite <- !list_fmap_compose. }
  assert (Hw : waiting st ≡ₚ on_lane LaneCall (held_call <$> ready) ++ waiting (st1 <| held := kept |>)).
  { unfold waiting. change (records (st1 <| held := ?l |>)) with (records st1).
    change (held (st1 <| held := ?l |>)) with kept.
    change (closers (st1 <| held := ?l |>)) with (closers st1). rewrite E1, E6.
    assert (Hh' : on_lane LaneCall (held_call <$> held st) ≡ₚ
      on_lane LaneCall (held_call <$> ready) ++ on_lane LaneCall (held_call <$> kept)).
    { unfold on_lane. by rewrite Hh, !fmap_app. }
    rewrite Hh', <- app_assoc. apply Permutation_app_swap_app. }
  rewrite app_nil_r, Hk. split_and!; [| |done|].
  - apply table_ok_part with (st <| held := kept |>); [|by destruct Hok; split].
    unfold table_part. simpl. by rewrite E1, E2, E3, E4, E6.
  - split.
    + exact Hf.
    + change (highest_call (st1 <| held := kept |>)) with (highest_call st1). by rewrite E4.
    + intros _ i r. change (get_record (st1 <| held := kept |>) i) with (get_record st1 i).
      unfold get_record. rewrite E1. eauto.
    + intros _ h Hin. change (held (st1 <| held := kept |>)) with kept in Hin. rewrite Hh. set_solver.
    + intros _. exact E6.
  - intros l. change (counter l (st1 <| held := kept |>)) with (counter l st1). rewrite Hn.
    specialize (Hc l). rewrite app_nil_r, (count_lane_perm _ _ _ Hw), count_lane_app in Hc. lia.
Qed.

Lemma accounts_read_turn now st : accounts [] st (read_turn ports limits now st).
Proof. apply accounts_reads, filter_bool_perm. Qed.

Lemma accounts_mark_delivered marks st : accounts [] st (mark_delivered marks st, []).
Proof.
  unfold mark_delivered. revert st. induction marks as [|[i v] marks IH]; intros st; simpl;
    [by apply accounts_same|].
  eapply accounts_seq; [|apply IH]. destruct (get_record st i) as [r|] eqn:Hg; [|by apply accounts_same].
  destruct v; (eapply accounts_upd; [exact Hg| |done..]); intros []; by split.
Qed.

Lemma accounts_worker_event thread id payload st :
  accounts [] st (worker_event thread id payload st, []).
Proof.
  apply accounts_same. unfold worker_event. destruct (get_record st id) as [r|]; [|done].
  destruct (append (rec_controls r) thread) as [[] ?], (rec_events r); done.
Qed.

(** *** Closure *)

Lemma accounts_cancel_controls id st : accounts [] st (cancel_controls id st, []).
Proof.
  unfold cancel_controls. destruct (get_record st id) as [r|] eqn:Hg; [|by apply accounts_same].
  eapply accounts_upd; [exact Hg| |done..]. intros []. by split.
Qed.

Lemma accounts_settle_cancelled ids st : accounts [] st (settle_cancelled ports ids st).
Proof.
  revert st. induction ids as [|id ids IH]; intros st; simpl; [by apply accounts_same|].
  destruct (get_record st id) as [r|]; [|apply IH].
  eapply accounts_seq; [apply (accounts_cancel_controls id)|].
  apply accounts_bind; [apply accounts_settle|apply IH].
Qed.

Lemma accounts_close_settle st :
  accounts [] (st <| unflushed := (unflushed st + 1)%N |>) (close_settle ports st).
Proof.
  unfold close_settle. cbv zeta. set (st1 := st <| unflushed := _ |> <| pending := _ |>).
  eapply (accounts_frame _ _ st1); [done|].
  pose proof (accounts_settle_cancelled (not_started st1) st1) as H.
  destruct (settle_cancelled ports (not_started st1) st1) as [st2 out].
  assert (Hf : forall ids st, accounts [] st (foldl (fun st id => cancel_controls id st) st ids, [])).
  { intros ids. induction ids as [|id ids IH]; intros st0; simpl; [by apply accounts_same|].
    eapply accounts_seq; [apply (accounts_cancel_controls id)|apply IH]. }
  pose proof (accounts_then _ _ (_, out) _ (accounts_quiet _ _ _ (st2 <| direct_queue := [] |>) _ H ltac:(done))
    (Hf (running_calls (st2 <| direct_queue := [] |>)) _)) as H'.
  cbn [fst snd] in H'. by rewrite app_nil_r in H'.
Qed.

Lemma accounts_settle_detached thread ids st : accounts [] st (settle_detached ports thread ids st).
Proof.
  revert st. induction ids as [|id ids IH]; intros st; cbn [settle_detached]; [by apply accounts_same|].
  destruct (get_record st id) as [r|] eqn:Hg; [|apply IH].
  destruct (ports_detached ports (rec_call r) (fst <$> rec_operation r)) as [failure result_].
  eapply accounts_seq; [|apply accounts_bind; [apply accounts_settle|apply IH]].
  apply (accounts_quiet _ _
    (set_record st id (r <| rec_controls := gate_revoke thread (rec_controls r) |>))); [|done].
  apply (accounts_upd st id r (r <| rec_controls := gate_revoke thread (rec_controls r) |>)); [done| |done..].
  intros []. by split.
Qed.

Lemma accounts_detach_all thread st : accounts [] st (detach_all ports limits thread st).
Proof.
  unfold detach_all. pose proof (accounts_settle_detached thread (running_calls st) st) as H.
  destruct (settle_detached ports thread (running_calls st) st) as [st1 out]. cbv zeta.
  refine (accounts_then _ _ _ (_, _) H (accounts_reads (held st1) [] st1 _)). by rewrite app_nil_r.
Qed.

(** Step 8: the closers are answered, or left without an answer when the
    channel has ended. *)
Lemma report_all_balanced replies st :
  table_ok st -> covered st ->
  let p := report_all ports replies st in
  let left := if replies then [] else on_lane LaneControl (closers st) in
  table_ok p.1 /\ covered p.1 /\ waiting st ≡ₚ keys p.2 ++ waiting p.1 ++ left /\
  (forall l, slack l p.1 = slack l st + count_lane l left)%N /\
  records p.1 = records st /\ held p.1 = held st /\ closers p.1 = [] /\
  highest_call p.1 = highest_call st /\
  flags p.1 = (closing st, ended st, close_started st, Some (make_report st), unflushed st).
Proof.
  intros Hok Hc. cbv zeta. unfold report_all. cbv zeta.
  set (st1 := st <| close_report_ := _ |> <| closers := _ |>).
  assert (Hok1 : table_ok st1) by (by destruct Hok; split).
  assert (Hw : waiting st ≡ₚ on_lane LaneControl (closers st) ++ waiting st1).
  { unfold waiting. change (records st1) with (records st). change (held st1) with (held st).
    change (closers st1) with (@nil N). change (on_lane LaneControl []) with (@nil (N * Lane)).
    rewrite app_nil_r, app_assoc. apply Permutation_app_comm. }
  assert (Hn : forall l, counter l st1 = counter l st) by (by intros []).
  assert (Hcl : forall l, count_lane l (waiting st) =
    (count_lane l (on_lane LaneControl (closers st)) + count_lane l (waiting st1))%N).
  { intros l. by rewrite (count_lane_perm _ _ _ Hw), count_lane_app. }
  destruct replies; cbn [fst snd].
  - pose proof (answered_all_part (closers st) LaneControl st1) as Hp.
    pose proof (fun l => answered_all_counter (closers st) LaneControl l st1) as Hn1.
    pose proof (answered_all_flags (closers st) LaneControl st1) as Hf. revert Hp Hn1 Hf.
    generalize (foldl (fun st id => answered_on id LaneControl st) st1 (closers st)).
    intros st2 Hp Hn1 Hf. pose proof (waiting_part _ _ Hp) as Hw2.
    pose proof (table_ok_part _ _ (eq_sym Hp) Hok1) as Hok2.
    unfold table_part in Hp. injection Hp as E1 _ _ E4 E5 E6. split_and!.
    + done.
    + intros l. rewrite Hw2, Hn1, Hn. specialize (Hcl l). specialize (Hc l). lia.
    + rewrite app_nil_r, Hw2, Hw. apply Permutation_app_tail. unfold keys, on_lane.
      by rewrite <- !list_fmap_compose.
    + intros l. unfold slack. rewrite Hw2, Hn1, Hn, Hcl. change (count_lane l []) with 0%N. lia.
    + by rewrite E1.
    + by rewrite E5.
    + by rewrite E6.
    + by rewrite E4.
    + by rewrite Hf.
  - split_and!; try done.
    + intros l. rewrite Hn. specialize (Hcl l). specialize (Hc l). lia.
    + rewrite Hw. simpl. apply Permutation_app_comm.
    + intros l. unfold slack. rewrite Hn, Hcl. specialize (Hcl l). specialize (Hc l). lia.
Qed.

(** Only a call identifier that does not grow is a protocol error. *)
Lemma receive_refused now call st st' e :
  receive ports limits env now call st = (st', Err e) ->
  st' = st /\ (call_id call <= highest_call st)%N.
Proof.
  unfold receive. cbv zeta. destruct (_ <=? _)%N eqn:Hid.
  - intros [= <- <-]. split; [done|]. by apply N.leb_le.
  - destruct (ended _); [done|]. destruct (ports_classify ports call); [|done].
    destruct (_ && _); [done|]. destruct (lane_full _ _ _); [done|].
    by destruct (dispatch _ _ _ _ _ _ _ _).
Qed.

(** A call read after the session ended is dropped. *)
Lemma receive_ended now call st st' rx :
  ended st = true -> receive ports limits env now call st = (st', Ok rx) ->
  rx = RxReplies [] /\ st' = st <| highest_call := call_id call |> /\
  (highest_call st < call_id call)%N.
Proof.
  intros He. unfold receive. cbv zeta. destruct (_ <=? _)%N eqn:Hid; [done|].
  apply N.leb_gt in Hid. change (ended (st <| highest_call := ?n |>)) with (ended st). rewrite He.
  by intros [= <- <-].
Qed.

Lemma accounts_highest n st :
  (highest_call st <= n)%N -> accounts [] st (st <| highest_call := n |>, []).
Proof.
  intros Hn [K1 K2 K3] _. split_and!.
  - split; [|done..]. intros i r (? & ?)%K1. split; [done|].
    change (i <= n)%N. lia.
  - split; try done. intros _. exact (progress_refl st).
  - by rewrite app_nil_r.
  - intros lane. change (count_lane lane (keys _)) with 0%N.
    change (counter lane (st <| highest_call := n |>, []).1) with (counter lane st). lia.
Qed.

Lemma accounts_count_batch st p :
  accounts [] st p -> accounts [] (st <| unflushed := (unflushed st + 1)%N |>) (count_batch p).
Proof.
  intros H Hok Hc. destruct H as (H1 & H2 & H3 & H4); [by destruct Hok; split|intros l; specialize (Hc l); by destruct l|].
  split_and!; [by destruct H1; split| |done|intros l; specialize (H4 l); by destruct l].
  destruct H2 as [F Hh Hp Hhe Hcl]. split; try done.
  destruct (flags_eq _ _ F) as (E1 & E2 & E3 & E4 & E5). unfold flags, count_batch. simpl.
  by rewrite E1, E2, E3, E4, E5.
Qed.

(** ** What settling leaves *)

Lemma discard_get st id : get_record (discard st id) id = None.
Proof.
  destruct (get_record st id) as [r|] eqn:Hg; [|unfold discard; by rewrite Hg].
  pose proof (discard_part _ _ _ Hg) as Hp. unfold table_part in Hp. injection Hp as E1 _ _ _ _ _.
  unfold get_record. rewrite E1. apply bt_get_remove_eq.
Qed.

Definition done_at st (id : N) : Prop :=
  forall r, get_record st id = Some r -> rec_phase r = PhTerminal.

Lemma settle_done id outcome st : done_at (settle ports id outcome st).1 id.
Proof.
  intros r'. destruct (get_record st id) as [r|] eqn:Hg; cycle 1.
  { unfold settle. rewrite Hg. simpl. by rewrite Hg. }
  destruct (decide (rec_phase r = PhTerminal)) as [Hph|Hph].
  { unfold settle. rewrite Hg, bool_decide_true by done. simpl. rewrite Hg. by intros [= <-]. }
  rewrite (settle_open ports id r outcome st Hg Hph). destruct (replied r); cbn [fst].
  - pose proof (settling_part id r outcome st) as Hp. unfold table_part in Hp.
    injection Hp as E1 _ _ _ _ _.
    change (get_record ((settling id r outcome st) <| retained := ?l |>) id)
      with (get_record (settling id r outcome st) id).
    unfold get_record. rewrite E1. change (records (set_record st id ?x)) with (bt_insert (records st) id x).
    rewrite bt_get_insert_eq. by intros [= <-].
  - by rewrite discard_get.
Qed.

Lemma done_at_progress st st' id : progress st st' -> done_at st id -> done_at st' id.
Proof.
  intros Hp Hd r' (r & Hg & Hr)%Hp. rewrite (Hd _ Hg) in Hr.
  by destruct (rec_phase r'); simpl in Hr; try lia.
Qed.

(** Settling a call and then the calls of a list leaves none of them open. *)
Lemma settle_then_done id ids st p q :
  accounts [] st p -> accounts [] p.1 q -> done_at p.1 id ->
  (forall i, table_ok p.1 -> covered p.1 -> closing p.1 = true -> i ∈ ids -> done_at q.1 i) ->
  table_ok st -> covered st -> closing st = true ->
  forall i, i ∈ id :: ids -> done_at q.1 i.
Proof.
  intros Hp Hq Hd IH Hok Hc Hcl i Hi.
  destruct (accounts_balanced _ _ Hp Hok Hc) as [B1 B2 B3 _ _].
  destruct (flags_eq _ _ (ev_flags _ _ B3)) as (E & _). rewrite Hcl in E.
  apply elem_of_cons in Hi as [->|Hi]; [|by apply IH].
  eapply done_at_progress; [|exact Hd].
  destruct (accounts_balanced _ _ Hq B1 B2) as [_ _ B3' _ _]. by apply (ev_progress _ _ B3').
Qed.

Lemma settle_cancelled_done ids st i :
  table_ok st -> covered st -> closing st = true -> i ∈ ids ->
  done_at (settle_cancelled ports ids st).1 i.
Proof.
  revert st i. induction ids as [|id ids IH]; intros st i Hok Hc Hcl Hi; [set_solver|].
  cbn [settle_cancelled]. destruct (get_record st id) as [r|] eqn:Hg.
  - pose proof (accounts_seq _ _ _ _ (accounts_cancel_controls id st)
      (accounts_settle ports id (cancelled_before_start ports (rec_call r) (rec_operation r))
         (cancel_controls id st))) as Ha.
    pose proof (settle_done id (cancelled_before_start ports (rec_call r) (rec_operation r))
      (cancel_controls id st)) as Hd.
    destruct (settle ports id _ _) as [st1 out1]. pose proof (accounts_settle_cancelled ids st1) as Ha2.
    specialize (IH st1). destruct (settle_cancelled ports ids st1) as [st2 out2].
    by apply (settle_then_done id ids st (st1, out1) (st2, out2) Ha Ha2 Hd (fun i => IH i) Hok Hc Hcl).
  - apply elem_of_cons in Hi as [->|Hi]; [|by apply IH].
    destruct (accounts_balanced _ _ (accounts_settle_cancelled ids st) Hok Hc) as [_ _ B3 _ _].
    eapply done_at_progress; [by apply (ev_progress _ _ B3)|]. intros r. by rewrite Hg.
Qed.

Lemma settle_detached_done thread ids st i :
  table_ok st -> covered st -> closing st = true -> i ∈ ids ->
  done_at (settle_detached ports thread ids st).1 i.
Proof.
  revert st i. induction ids as [|id ids IH]; intros st i Hok Hc Hcl Hi; [set_solver|].
  cbn [settle_detached]. destruct (get_record st id) as [r|] eqn:Hg.
  - destruct (ports_detached ports (rec_call r) (fst <$> rec_operation r)) as [failure result_].
    cbv zeta. set (st0 := set_record st id _). set (st3 := st0 <| detached_workers := _ |>).
    assert (Ha0 : accounts [] st (st3, [])).
    { apply (accounts_quiet _ _ st0); [|done]. apply (accounts_upd st id r); [done| |done..].
      intros []. by split. }
    clearbody st3. set (outcome := {| oc_terminal := _ |}).
    pose proof (accounts_seq _ _ _ _ Ha0 (accounts_settle ports id outcome st3)) as Ha.
    pose proof (settle_done id outcome st3) as Hd.
    destruct (settle ports id outcome st3) as [st1 out1].
    pose proof (accounts_settle_detached thread ids st1) as Ha2.
    specialize (IH st1). destruct (settle_detached ports thread ids st1) as [st2 out2].
    by apply (settle_then_done id ids st (st1, out1) (st2, out2) Ha Ha2 Hd (fun i => IH i) Hok Hc Hcl).
  - apply elem_of_cons in Hi as [->|Hi]; [|by apply IH].
    destruct (accounts_balanced _ _ (accounts_settle_detached thread ids st) Hok Hc) as [_ _ B3 _ _].
    eapply done_at_progress; [by apply (ev_progress _ _ B3)|]. intros r. by rewrite Hg.
Qed.

Lemma not_started_elem st id r :
  get_record st id = Some r -> rank (rec_phase r) < 2 -> id ∈ not_started st.
Proof.
  intros Hg%bt_elem_get Hr. apply list_elem_of_fmap. exists (id, r). split; [done|].
  apply list_elem_of_filter. split; [|done]. simpl.
  destruct (rec_phase r); simpl in Hr; try lia; auto.
Qed.

Lemma running_calls_elem st id r :
  get_record st id = Some r -> rank (rec_phase r) = 2 -> id ∈ running_calls st.
Proof.
  intros Hg%bt_elem_get Hr. apply list_elem_of_fmap. exists (id, r). split; [done|].
  apply list_elem_of_filter. split; [|done]. simpl. by destruct (rec_phase r).
Qed.

(** Once the loops of the close have run, nothing waits to start, and then
    nothing runs. *)
Lemma close_settle_started st id r :
  table_ok st -> covered st -> closing st = true ->
  get_record (close_settle ports st).1 id = Some r -> 2 <= rank (rec_phase r).
Proof.
  intros Hok Hc Hcl. unfold close_settle. cbv zeta.
  set (st1 := st <| unflushed := _ |> <| pending := _ |>).
  assert (Hok1 : table_ok st1) by (by destruct Hok; split).
  assert (Hc1 : covered st1) by (intros l; specialize (Hc l); by destruct l).
  pose proof (settle_cancelled_done (not_started st1) st1) as Hd.
  destruct (accounts_balanced _ _ (accounts_settle_cancelled (not_started st1) st1) Hok1 Hc1) as [B1 B2 B3 _ _].
  destruct (settle_cancelled ports (not_started st1) st1) as [st2 out]. cbn [fst snd] in *.
  assert (Hf : forall ids st, progress st (foldl (fun st id => cancel_controls id st) st ids)).
  { clear. induction ids as [|id ids IH]; intros st; simpl; [apply progress_refl|].
    eapply progress_trans; [|apply IH]. unfold cancel_controls.
    destruct (get_record st id) as [r|] eqn:Hg; [|apply progress_refl]. by eapply progress_set. }
  intros (r2 & Hg2 & Hr2)%Hf. change (get_record st2 id = Some r2) in Hg2.
  destruct (ev_progress _ _ B3 Hcl _ _ Hg2) as (r1 & Hg1 & Hr1).
  destruct (decide (rank (rec_phase r1) < 2)) as [Hlt|]; [|lia].
  rewrite (Hd id Hok1 Hc1 Hcl (not_started_elem _ _ _ Hg1 Hlt) _ Hg2) in Hr2. simpl in Hr2. lia.
Qed.

Lemma detach_all_done thread st id r :
  table_ok st -> covered st -> closing st = true ->
  (forall id r, get_record st id = Some r -> 2 <= rank (rec_phase r)) ->
  get_record (detach_all ports limits thread st).1 id = Some r -> 3 <= rank (rec_phase r).
Proof.
  intros Hok Hc Hcl Hall. unfold detach_all.
  pose proof (settle_detached_done thread (running_calls st) st) as Hd.
  destruct (accounts_balanced _ _ (accounts_settle_detached thread (running_calls st) st) Hok Hc)
    as [B1 B2 B3 _ _].
  destruct (settle_detached ports thread (running_calls st) st) as [st2 out]. cbn [fst snd] in *.
  destruct (accounts_balanced _ _ (accounts_reads (held st2) [] st2 ltac:(by rewrite app_nil_r)) B1 B2)
    as [_ _ B3' _ _]. cbn [fst] in B3'.
  destruct (flags_eq _ _ (ev_flags _ _ B3)) as (E & _). rewrite Hcl in E.
  intros (r2 & Hg2 & Hr2)%(ev_progress _ _ B3' E).
  destruct (ev_progress _ _ B3 Hcl _ _ Hg2) as (r1 & Hg1 & Hr1). specialize (Hall _ _ Hg1).
  destruct (decide (rank (rec_phase r1) = 2)) as [Heq|]; [|lia].
  rewrite (Hd id Hok Hc Hcl (running_calls_elem _ _ _ Hg1 Heq) _ Hg2) in Hr2. simpl in Hr2. lia.
Qed.

End receiving.
