(* ===== verification/ServiceSystem.v ===== *)
(** One session of the host as a whole
    (src/crates/session-host/src/service.rs, service/workers.rs): the reading
    thread, the admission thread, the read thread, the workers and the close
    thread interleave on the table of [Service], each step one section under
    the table's lock or one reply handed to the sink.

    The invariant of this file holds of every reachable state; its corollaries
    are the service's promises to its client: no call is answered twice, each
    reply takes its call's lane, the close report follows every other reply,
    and a session closed by [session.close] ends with every call answered. *)

From S2P Require Export ServiceAccount.

#[local] Set Default Proof Using "Type".

(** What is counted in [unflushed]: a received call before the table's lock,
    a spool call between its two locks, a [session.close] about to begin the
    close, a close that runs on its caller's thread because no thread could be
    started, and a batch of replies before and after its views are marked. *)
Inductive Thread : Type :=
| Counted (call : Call)
| Spooling (call : Call) (lane : Lane)
| BeginsClose
| InlineClose
| Batch (out : list Outgoing)
| Sending (out : list Outgoing).

Inductive ClosePhase : Type :=
| CloseIdle | CloseBegun | CloseSettled | CloseDetached | CloseReported | CloseEnded.

#[global] Instance ClosePhase_eq_dec : EqDecision ClosePhase.
Proof. solve_decision. Defined.

(** [sys_replies] says that a [session.close] began the close; the last two
    fields record the calls received and those left without an answer. *)
#[local] Set Implicit Arguments.
#[local] Set Maximal Implicit Insertion.

Record Sys (Failure : Type) : Type := mkSys {
  sys_state : State Failure;
  sys_threads : list Thread;
  sys_close : ClosePhase;
  sys_replies : bool;
  sys_resolving : option N;
  sys_sent : list Outgoing;
  sys_received : calls;
  sys_lost : calls;
}.

#[global] Instance Sys_set Failure : Settable (Sys Failure) := fun s =>
  mkSys (sys_state s) (sys_threads s) (sys_close s) (sys_replies s) (sys_resolving s)
    (sys_sent s) (sys_received s) (sys_lost s).

#[local] Unset Maximal Implicit Insertion.
#[local] Unset Implicit Arguments.

(** Permutations of appended calls, by counting. *)
Lemma calls_perm (l l' : calls) :
  l ≡ₚ l' <-> forall x, count_occ (fun a b : N * Lane => decide (a = b)) l x =
                       count_occ (fun a b : N * Lane => decide (a = b)) l' x.
Proof. apply Permutation_count_occ. Qed.

Ltac solve_perm :=
  apply calls_perm;
  let x := fresh "x" in intros x;
  repeat match goal with
  | H : @Permutation (N * Lane) _ _ |- _ => apply calls_perm with (x := x) in H
  end;
  rewrite ?count_occ_app, ?count_occ_nil in *; lia.

Section system.
Context {Failure : Type} (ports : HostPorts Failure) (limits : HostLimits).
Implicit Types (s : Sys Failure) (st : State Failure).

Definition sys_init : Sys Failure :=
  {| sys_state := default_state Failure; sys_threads := []; sys_close := CloseIdle;
     sys_replies := false; sys_resolving := None; sys_sent := []; sys_received := [];
     sys_lost := [] |}.

Definition count_up st : State Failure := st <| unflushed := (unflushed st + 1)%N |>.

Definition count_down st : State Failure := st <| unflushed := saturating_sub (unflushed st) 1 |>.

(** Where a received call leaves its thread, and whether it was taken in. *)
Definition after_receive (call : Call) (res : result Receipt str) : Thread :=
  match res with
  | Err _ => Batch []
  | Ok (RxReplies out) => Batch out
  | Ok (RxSpool lane) => Spooling call lane
  | Ok RxClose => BeginsClose
  end.

Definition taken_in st (call : Call) (res : result Receipt str) : calls :=
  match res with
  | Err _ => []
  | Ok _ => if ended st then [] else [(call_id call, ports_lane ports (call_method call))]
  end.

(** The views a batch delivers. *)
Definition delivers (out : list Outgoing) : list (N * View) := omap out_delivers out.

(** A call whose worker may report: it started, or its record is gone. *)
Definition reportable st (id : N) : bool :=
  match get_record st id with None => true | Some r => started (rec_phase r) end.

Definition is_received st (id : N) : bool :=
  match get_record st id with Some r => bool_decide (rec_phase r = Received) | None => false end.

(** The table moves and a new batch is to be flushed. *)
Definition with_batch s (p : State Failure * list Outgoing) : Sys Failure :=
  s <| sys_state := p.1 |> <| sys_threads := sys_threads s ++ [Batch p.2] |>.

Inductive sys_step s : Sys Failure -> Prop :=
| step_count call :
    sys_step s (s <| sys_state := count_up (sys_state s) |>
                  <| sys_threads := sys_threads s ++ [Counted call] |>)
| step_receive l1 call l2 env now st' res :
    sys_threads s = l1 ++ Counted call :: l2 ->
    receive ports limits env now call (sys_state s) = (st', res) ->
    sys_step s (s <| sys_state := st' |>
                  <| sys_threads := l1 ++ after_receive call res :: l2 |>
                  <| sys_received := sys_received s ++ taken_in (sys_state s) call res |>)
| step_spool l1 call lane l2 :
    sys_threads s = l1 ++ Spooling call lane :: l2 ->
    let p := spool_answer ports call lane (sys_state s) in
    sys_step s (s <| sys_state := p.1 |> <| sys_threads := l1 ++ Batch p.2 :: l2 |>)
| step_close_call l1 l2 (inline : bool) :
    sys_threads s = l1 ++ BeginsClose :: l2 ->
    let p := close_begin (sys_state s) in
    sys_step s (s <| sys_state := p.1 |>
                  <| sys_threads := l1 ++ (if p.2 && inline then InlineClose else Batch []) :: l2 |>
                  <| sys_close := if p.2 then CloseBegun else sys_close s |>
                  <| sys_replies := if p.2 then true else sys_replies s |>)
| step_channel_closed :
    let p := close_begin (sys_state s) in
    sys_step s (s <| sys_state := p.1 |>
                  <| sys_close := if p.2 then CloseBegun else sys_close s |>
                  <| sys_replies := if p.2 then false else sys_replies s |>)
| step_pop id rest :
    sys_resolving s = None -> pending (sys_state s) = id :: rest -> ended (sys_state s) = false ->
    sys_step s (s <| sys_state := (sys_state s) <| pending := rest |> |>
                  <| sys_resolving := if is_received (sys_state s) id then Some id else None |>)
| step_admit id found env :
    sys_resolving s = Some id ->
    sys_step s ((with_batch s (admit_call ports limits env id found (count_up (sys_state s))))
                  <| sys_resolving := None |>)
| step_worker id outcome env :
    reportable (sys_state s) id = true ->
    sys_step s (with_batch s (worker_reports ports limits env id outcome (sys_state s)))
| step_direct :
    (0 < direct_running (sys_state s))%N ->
    sys_step s (s <| sys_state := (direct_worker_next (sys_state s)).1 |>)
| step_event thread id payload :
    sys_step s (s <| sys_state := worker_event thread id payload (sys_state s) |>)
| step_read_turn now :
    sys_step s (with_batch s (read_turn ports limits now (count_up (sys_state s))))
| step_mark l1 out l2 :
    sys_threads s = l1 ++ Batch out :: l2 ->
    sys_step s (s <| sys_state := mark_delivered (delivers out) (sys_state s) |>
                  <| sys_threads := l1 ++ Sending out :: l2 |>)
| step_send l1 o out l2 :
    sys_threads s = l1 ++ Sending (o :: out) :: l2 ->
    sys_step s (s <| sys_threads := l1 ++ Sending out :: l2 |> <| sys_sent := sys_sent s ++ [o] |>)
| step_flushed l1 l2 :
    sys_threads s = l1 ++ Sending [] :: l2 ->
    sys_step s (s <| sys_state := count_down (sys_state s) |> <| sys_threads := l1 ++ l2 |>)
| step_close_settle :
    sys_close s = CloseBegun ->
    sys_step s ((with_batch s (close_settle ports (sys_state s))) <| sys_close := CloseSettled |>)
| step_close_detach thread :
    sys_close s = CloseSettled ->
    sys_step s ((with_batch s (close_detach ports limits thread (sys_state s)))
                  <| sys_close := CloseDetached |>)
| step_close_report :
    sys_close s = CloseDetached -> unflushed (sys_state s) = 0%N ->
    sys_step s ((with_batch s (close_reports ports (sys_replies s) (sys_state s)))
                  <| sys_close := CloseReported |>
                  <| sys_lost := if sys_replies s then []
                                 else on_lane LaneControl (closers (sys_state s)) |>)
| step_close_end :
    sys_close s = CloseReported -> unflushed (sys_state s) = 0%N ->
    sys_step s (s <| sys_state := close_end (sys_state s) |> <| sys_close := CloseEnded |>).

(** ** The invariant *)

Definition thread_out (t : Thread) : list Outgoing :=
  match t with Batch out | Sending out => out | _ => [] end.

Definition thread_open (t : Thread) : calls :=
  match t with Spooling call lane => [(call_id call, lane)] | _ => [] end.

Definition outs (ts : list Thread) : list Outgoing := ts ≫= thread_out.
Definition opens (ts : list Thread) : calls := ts ≫= thread_open.

(** Every reply made so far, handed over or on its way. *)
Definition replies_of s : list Outgoing := sys_sent s ++ outs (sys_threads s).

Definition phase_rank (c : ClosePhase) : nat :=
  match c with
  | CloseIdle => 0 | CloseBegun => 1 | CloseSettled => 2 | CloseDetached => 3
  | CloseReported => 4 | CloseEnded => 5
  end.

(** What the table has reached, by the close's phase. *)
Record phase_ok (n : nat) st : Prop := {
  ph_closing : closing st = (0 <? n)%nat;
  ph_started : close_started st = (0 <? n)%nat;
  ph_settled : 2 <= n -> forall id r, get_record st id = Some r -> 2 <= rank (rec_phase r);
  ph_detached : 3 <= n -> (forall id r, get_record st id = Some r -> 3 <= rank (rec_phase r)) /\ held st = [];
  ph_report : close_report_ st <> None <-> 4 <= n;
  ph_closers : 4 <= n -> closers st = [];
  ph_ended : ended st = (n =? 5)%nat;
}.

Record sys_inv s : Prop := {
  si_ok : table_ok (sys_state s);
  si_covered : covered (sys_state s);
  si_calls : sys_received s ≡ₚ
    keys (replies_of s) ++ waiting (sys_state s) ++ opens (sys_threads s) ++ sys_lost s;
  si_slack lane : slack lane (sys_state s) = count_lane lane (opens (sys_threads s) ++ sys_lost s);
  si_nodup : NoDup (sys_received s).*1;
  si_known id : id ∈ (sys_received s).*1 -> (id <= highest_call (sys_state s))%N;
  si_unflushed : unflushed (sys_state s) = N.of_nat (length (sys_threads s));
  si_phase : phase_ok (phase_rank (sys_close s)) (sys_state s);
  si_lost : sys_lost s = [] \/ sys_replies s = false /\ 4 <= phase_rank (sys_close s);
  si_end : sys_close s = CloseEnded -> outs (sys_threads s) = [] /\ opens (sys_threads s) = [];
}.

Lemma phase_ok_evolves n st st' : phase_ok n st -> evolves st st' -> phase_ok n st'.
Proof.
  intros [P1 P2 P3 P4 P5 P6 P7] [F _ Hp Hh Hc].
  destruct (flags_eq _ _ F) as (E1 & E2 & E3 & E4 & _).
  assert (Hcl : 1 <= n -> closing st = true) by (intros; rewrite P1; by apply Nat.ltb_lt).
  split; rewrite ?E1, ?E2, ?E3, ?E4; try done.
  - intros Hn id r (r0 & Hg & Hr)%(Hp ltac:(apply Hcl; lia)). specialize (P3 Hn _ _ Hg). lia.
  - intros Hn. destruct (P4 Hn) as [Hr Hheld]. split.
    + intros id r (r0 & Hg & Hr0)%(Hp ltac:(apply Hcl; lia)). specialize (Hr _ _ Hg). lia.
    + destruct (held st') as [|h l]; [done|]. exfalso.
      assert (h ∈ held st) as Hin by (apply Hh; [apply Hcl; lia|left]). rewrite Hheld in Hin. set_solver.
  - intros Hn. rewrite Hc; [by apply P6|]. by apply P5.
Qed.

(** Past the detachment only the closers wait, and past the report nothing. *)
Lemma waiting_detached n st :
  table_ok st -> phase_ok n st -> 3 <= n -> waiting st = on_lane LaneControl (closers st).
Proof.
  intros Hok [] Hn. destruct (ph_detached0 Hn) as [Hr Hh]. unfold waiting. rewrite Hh.
  assert (E : gather rec_waiting (records st) = []); [|by rewrite E].
  unfold gather. assert (Hall : Forall (fun e => rec_waiting e.1 e.2 = []) (bt_entries (records st))).
  { apply Forall_forall. intros [id r] Hin. apply bt_elem_get in Hin.
    assert (Hph : rec_phase r = PhTerminal).
    { specialize (Hr _ _ Hin). by destruct (rec_phase r); simpl in Hr; try lia. }
    destruct (rok_done _ (proj1 (tok_rec _ Hok _ _ Hin)) Hph) as (E1 & E2 & E3 & E4 & _).
    unfold rec_waiting. simpl. by rewrite E1, E2, E3, E4. }
  induction Hall as [|e l He _ IH]; [done|]. rewrite bind_cons, IH, He. done.
Qed.

Lemma waiting_reported n st : table_ok st -> phase_ok n st -> 4 <= n -> waiting st = [].
Proof.
  intros Hok Hp Hn. rewrite (waiting_detached n) by (done || lia). by rewrite (ph_closers _ _ Hp).
Qed.

Lemma outs_app l1 l2 : outs (l1 ++ l2) = outs l1 ++ outs l2.
Proof. apply bind_app. Qed.

Lemma opens_app l1 l2 : opens (l1 ++ l2) = opens l1 ++ opens l2.
Proof. apply bind_app. Qed.

Lemma outs_cons t l : outs (t :: l) = thread_out t ++ outs l.
Proof. done. Qed.

Lemma opens_cons t l : opens (t :: l) = thread_open t ++ opens l.
Proof. done. Qed.

(** A step of the table that takes no call, with the threads it leaves. *)
Lemma inv_move s n st' out ts' :
  sys_inv s -> accounts [] ((sys_state s) <| unflushed := n |>) (st', out) ->
  N.of_nat (length ts') = n ->
  keys (outs ts') ≡ₚ keys (outs (sys_threads s)) ++ keys out ->
  opens ts' ≡ₚ opens (sys_threads s) ->
  sys_inv (s <| sys_state := st' |> <| sys_threads := ts' |>).
Proof.
  intros [I1 I2 I3 I4 I5 I6 I7 I8 I9 I10] Ha Hn Ho Hopen. set (st0 := _ <| unflushed := n |>) in *.
  assert (Hok0 : table_ok st0) by (by destruct I1; split).
  assert (Hc0 : covered st0) by (intros l; specialize (I2 l); by destruct l).
  assert (Hp0 : phase_ok (phase_rank (sys_close s)) st0) by (by destruct I8; split).
  destruct (accounts_balanced _ _ Ha Hok0 Hc0) as [B1 B2 B3 B4 B5]. cbn [fst snd] in *.
  rewrite !app_nil_r in B4. change (waiting st0) with (waiting (sys_state s)) in B4.
  pose proof (phase_ok_evolves _ _ _ Hp0 B3) as Hp. split.
  - exact B1.
  - exact B2.
  - change (sys_received s ≡ₚ keys (sys_sent s ++ outs ts') ++ waiting st' ++ opens ts' ++ sys_lost s).
    unfold replies_of in I3. rewrite keys_app, Ho, Hopen, I3, B4, keys_app, !app_assoc. done.
  - intros l. change (slack l st' = count_lane l (opens ts' ++ sys_lost s)).
    rewrite B5. change (slack l st0) with (slack l (sys_state s)).
    change (count_lane l []) with 0%N. rewrite I4, !count_lane_app, (count_lane_perm _ _ _ Hopen). lia.
  - exact I5.
  - intros id Hid. pose proof (ev_highest _ _ B3) as Hhi. specialize (I6 _ Hid).
    change (highest_call st0) with (highest_call (sys_state s)) in Hhi.
    change (id <= highest_call st')%N. lia.
  - destruct (flags_eq _ _ (ev_flags _ _ B3)) as (_ & _ & _ & _ & Hu).
    change (unflushed st' = N.of_nat (length ts')). rewrite Hu. by subst n.
  - exact Hp.
  - exact I9.
  - intros He. change (sys_close s = CloseEnded) in He. destruct (I10 He) as [E1 E2]. change (outs ts' = [] /\ opens ts' = []).
    assert (Hw : waiting st0 = []).
    { apply (waiting_reported 5); [done|by rewrite He in Hp0|lia]. }
    change (waiting st0) with (waiting (sys_state s)) in Hw. rewrite Hw in B4.
    apply Permutation_nil_l, symmetry, app_eq_nil in B4 as [B4 _].
    rewrite E1, B4 in Ho. rewrite E2 in Hopen. apply Permutation_nil_r in Ho, Hopen.
    split; [|done]. by apply fmap_nil_inv in Ho.
Qed.

Lemma inv_resolving s o : sys_inv s -> sys_inv (s <| sys_resolving := o |>).
Proof. intros []. by split. Qed.

Lemma inv_with_batch s p :
  sys_inv s -> accounts [] (count_up (sys_state s)) p -> sys_inv (with_batch s p).
Proof.
  intros Hi Ha. destruct p as [st' out]. eapply inv_move; [done|exact Ha|..].
  - rewrite length_app, (si_unflushed _ Hi). simpl. lia.
  - rewrite outs_app, outs_cons, keys_app. simpl. by rewrite app_nil_r.
  - rewrite opens_app. simpl. by rewrite app_nil_r.
Qed.

(** A thread that changes its shape but not what it carries. *)
Lemma split_threads l1 t t' l2 :
  thread_out t' = thread_out t -> thread_open t' = thread_open t ->
  outs (l1 ++ t' :: l2) = outs (l1 ++ t :: l2) /\ opens (l1 ++ t' :: l2) = opens (l1 ++ t :: l2).
Proof. intros E1 E2. by rewrite !outs_app, !opens_app, !outs_cons, !opens_cons, E1, E2. Qed.

Lemma inv_same_threads s st' ts' :
  sys_inv s -> accounts [] (sys_state s) (st', []) -> length ts' = length (sys_threads s) ->
  outs ts' = outs (sys_threads s) -> opens ts' = opens (sys_threads s) ->
  sys_inv (s <| sys_state := st' |> <| sys_threads := ts' |>).
Proof.
  intros Hi Ha Hl Ho Hop. eapply (inv_move s (unflushed (sys_state s)) st' []); [done| |..].
  - eapply accounts_frame; [|exact Ha]. done.
  - by rewrite Hl, (si_unflushed _ Hi).
  - by rewrite Ho, app_nil_r.
  - by rewrite Hop.
Qed.

Lemma inv_count s call :
  sys_inv s ->
  sys_inv (s <| sys_state := count_up (sys_state s) |> <| sys_threads := sys_threads s ++ [Counted call] |>).
Proof.
  intros Hi. eapply (inv_move s _ _ []); [done|by apply (accounts_same (count_up (sys_state s)))|..].
  - rewrite length_app, (si_unflushed _ Hi). simpl. lia.
  - by rewrite outs_app, !app_nil_r.
  - by rewrite opens_app, app_nil_r.
Qed.

Lemma inv_receive s l1 call l2 env now st' rx :
  lanes_agree ports -> sys_inv s -> sys_threads s = l1 ++ Counted call :: l2 ->
  receive ports limits env now call (sys_state s) = (st', Ok rx) -> ended (sys_state s) = false ->
  sys_inv (s <| sys_state := st' |>
             <| sys_threads := l1 ++ after_receive call (Ok rx) :: l2 |>
             <| sys_received := sys_received s ++
                  [(call_id call, ports_lane ports (call_method call))] |>).
Proof.
  intros Hl [I1 I2 I3 I4 I5 I6 I7 I8 I9 I10] Hts Hr He.
  destruct (receive_balanced ports limits env now call _ _ _ Hl I1 I2 Hr He) as (Hid & Hid' & [B1 B2 B3 B4 B5]).
  set (lane := ports_lane ports (call_method call)) in *. set (id := call_id call) in *.
  set (ts' := l1 ++ after_receive call (Ok rx) :: l2).
  assert (Ho : keys (outs ts') ≡ₚ keys (receipt_out rx) ++ keys (outs (sys_threads s))).
  { rewrite Hts. unfold ts'. rewrite !outs_app, !outs_cons, !keys_app.
    replace (thread_out (after_receive call (Ok rx))) with (receipt_out rx) by (by destruct rx).
    etransitivity; [apply Permutation_app_swap_app|done]. }
  assert (Hop : opens ts' ≡ₚ receipt_open call rx ++ opens (sys_threads s)).
  { rewrite Hts. unfold ts'. rewrite !opens_app, !opens_cons.
    replace (thread_open (after_receive call (Ok rx))) with (receipt_open call rx) by (by destruct rx).
    etransitivity; [apply Permutation_app_swap_app|done]. }
  split.
  - exact B1.
  - exact B2.
  - change (sys_received s ++ [(id, lane)] ≡ₚ
      keys (sys_sent s ++ outs ts') ++ waiting st' ++ opens ts' ++ sys_lost s).
    unfold replies_of in I3. rewrite keys_app in I3 |- *. rewrite Ho, Hop, I3. clear -B4.
    revert B4. generalize (keys (sys_sent s)) (keys (receipt_out rx)) (keys (outs (sys_threads s)))
      (waiting (sys_state s)) (waiting st') (receipt_open call rx) (opens (sys_threads s)) (sys_lost s).
    intros a b c w w' o op l Hw. solve_perm.
  - intros l. change (slack l st' = count_lane l (opens ts' ++ sys_lost s)).
    rewrite B5, I4, !count_lane_app, (count_lane_perm _ _ _ Hop), count_lane_app. lia.
  - change (NoDup (sys_received s ++ [(id, lane)]).*1). rewrite fmap_app. apply NoDup_app.
    split_and!; [done| |apply NoDup_singleton]. intros x Hx ->%list_elem_of_singleton.
    specialize (I6 _ Hx). simpl in I6. lia.
  - intros x Hx. change (x ∈ (sys_received s ++ [(id, lane)]).*1) in Hx. rewrite fmap_app in Hx.
    change (x <= highest_call st')%N. apply elem_of_app in Hx as [Hx|Hx].
    + specialize (I6 _ Hx). pose proof (ev_highest _ _ B3). lia.
    + apply list_elem_of_singleton in Hx as ->. done.
  - destruct (flags_eq _ _ (ev_flags _ _ B3)) as (_ & _ & _ & _ & Hu).
    change (unflushed st' = N.of_nat (length ts')). rewrite Hu, I7, Hts. unfold ts'.
    by rewrite !length_app.
  - exact (phase_ok_evolves _ _ _ I8 B3).
  - exact I9.
  - intros Hend. change (sys_close s = CloseEnded) in Hend. rewrite Hend in I8.
    rewrite (ph_ended _ _ I8) in He. done.
Qed.

Lemma inv_spool s l1 call lane l2 :
  sys_inv s -> sys_threads s = l1 ++ Spooling call lane :: l2 ->
  let p := spool_answer ports call lane (sys_state s) in
  sys_inv (s <| sys_state := p.1 |> <| sys_threads := l1 ++ Batch p.2 :: l2 |>).
Proof.
  intros [I1 I2 I3 I4 I5 I6 I7 I8 I9 I10] Hts. cbv zeta.
  set (c := (call_id call, lane)).
  assert (Hop : opens (sys_threads s) ≡ₚ c :: opens (l1 ++ l2)).
  { rewrite Hts, !opens_app, opens_cons. cbn [thread_open]. by rewrite Permutation_app_swap_app. }
  assert (Hs : (1 <= slack lane (sys_state s))%N).
  { rewrite I4, count_lane_app, (count_lane_perm _ _ _ Hop). unfold count_lane.
    rewrite filter_cons_True by done. simpl length. lia. }
  pose proof (spool_answer_balanced ports call lane (sys_state s) I1 I2 Hs) as H. cbv zeta in H.
  destruct (spool_answer ports call lane (sys_state s)) as [st' out]. cbn [fst snd] in *.
  destruct H as (B1 & B2 & B3 & B4 & B5 & B6).
  assert (Ho : keys (outs (l1 ++ Batch out :: l2)) ≡ₚ c :: keys (outs (sys_threads s))).
  { rewrite Hts, !outs_app, !outs_cons, !keys_app. cbn [thread_out]. rewrite B5.
    rewrite Permutation_app_swap_app. done. }
  assert (Hop' : opens (l1 ++ Batch out :: l2) = opens (l1 ++ l2)) by (by rewrite !opens_app).
  split.
  - exact B1.
  - exact B2.
  - change (sys_received s ≡ₚ keys (sys_sent s ++ outs (l1 ++ Batch out :: l2)) ++ waiting st' ++
      opens (l1 ++ Batch out :: l2) ++ sys_lost s).
    unfold replies_of in I3. rewrite keys_app in I3 |- *. rewrite Ho, B4, Hop', I3, Hop.
    generalize (keys (sys_sent s)) (keys (outs (sys_threads s))) (waiting (sys_state s))
      (opens (l1 ++ l2)) (sys_lost s). intros. change (?x :: ?l) with ([x] ++ l). solve_perm.
  - intros l. change (slack l st' = count_lane l (opens (l1 ++ Batch out :: l2) ++ sys_lost s)).
    specialize (B6 l). rewrite I4, !count_lane_app, (count_lane_perm _ _ _ Hop) in B6.
    change (c :: opens (l1 ++ l2)) with ([c] ++ opens (l1 ++ l2)) in B6.
    fold c in B6. rewrite count_lane_app in B6. rewrite Hop', count_lane_app. lia.
  - exact I5.
  - intros id Hid. pose proof (ev_highest _ _ B3). specialize (I6 _ Hid).
    change (id <= highest_call st')%N. lia.
  - destruct (flags_eq _ _ (ev_flags _ _ B3)) as (_ & _ & _ & _ & Hu).
    change (unflushed st' = N.of_nat (length (l1 ++ Batch out :: l2))). rewrite Hu, I7, Hts.
    by rewrite !length_app.
  - exact (phase_ok_evolves _ _ _ I8 B3).
  - exact I9.
  - intros He. destruct (I10 He) as [_ E]. rewrite E in Hop. by apply Permutation_nil_cons in Hop.
Qed.

(** The close's phase changes with no call moved. *)
Lemma inv_phase s st' c rep :
  sys_inv s -> table_part st' = table_part (sys_state s) ->
  (forall l, counter l st' = counter l (sys_state s)) -> unflushed st' = unflushed (sys_state s) ->
  phase_ok (phase_rank c) st' ->
  (sys_lost s = [] \/ rep = false /\ 4 <= phase_rank c) ->
  (c = CloseEnded -> outs (sys_threads s) = [] /\ opens (sys_threads s) = []) ->
  sys_inv (s <| sys_state := st' |> <| sys_close := c |> <| sys_replies := rep |>).
Proof.
  intros [I1 I2 I3 I4 I5 I6 I7 I8 I9 I10] Hp Hn Hu Hph Hlost Hend.
  pose proof (waiting_part _ _ Hp) as Hw. split; try done.
  - by eapply table_ok_part.
  - intros l. change (count_lane l (waiting st') <= counter l st')%N. by rewrite Hw, Hn.
  - etransitivity; [exact I3|]. by rewrite <- Hw.
  - intros l. specialize (I4 l). unfold slack in *. rewrite <- Hw, <- Hn in I4. exact I4.
  - intros id Hid. unfold table_part in Hp. injection Hp as _ _ _ E _ _. specialize (I6 _ Hid).
    change (id <= highest_call st')%N. by rewrite E.
  - change (unflushed st' = N.of_nat (length (sys_threads s))). by rewrite Hu.
Qed.

Lemma idle_unless_started s :
  sys_inv s -> close_started (sys_state s) = false -> sys_close s = CloseIdle /\ sys_lost s = [].
Proof.
  intros Hi Hst. rewrite (ph_started _ _ (si_phase _ Hi)) in Hst.
  assert (sys_close s = CloseIdle) as E by (by destruct (sys_close s)). split; [done|].
  destruct (si_lost _ Hi) as [|[_ H]]; [done|]. rewrite E in H. simpl in H. lia.
Qed.

(** [close] moves no call. *)
Lemma inv_close_begin s ts' rep :
  sys_inv s -> length ts' = length (sys_threads s) ->
  outs ts' = outs (sys_threads s) -> opens ts' = opens (sys_threads s) ->
  let p := close_begin (sys_state s) in
  sys_inv (s <| sys_state := p.1 |> <| sys_threads := ts' |>
             <| sys_close := if p.2 then CloseBegun else sys_close s |>
             <| sys_replies := if p.2 then rep else sys_replies s |>).
Proof.
  intros Hi Hl Ho Hop. cbv zeta. unfold close_begin.
  assert (Hi' : sys_inv (s <| sys_state := sys_state s |> <| sys_threads := ts' |>)).
  { apply inv_same_threads; try done. by apply accounts_same. }
  destruct (close_started (sys_state s)) eqn:Hst; [exact Hi'|]. cbn [fst snd].
  destruct (idle_unless_started _ Hi Hst) as [Hc Hlost].
  pose proof (si_phase _ Hi) as Hph. rewrite Hc in Hph. destruct Hph.
  refine (inv_phase _ ((sys_state s) <| close_started := true |> <| closing := true |>)
    CloseBegun rep Hi' _ _ _ _ _ _); [done|by intros []|done| |by left|done].
  - split; try done; simpl; try lia. split; [|lia]. intros H. apply ph_report0 in H. simpl in H. lia.
Qed.

(** The close's own batches. *)
Lemma inv_next_phase s c :
  sys_inv s -> phase_ok (phase_rank c) (sys_state s) ->
  phase_rank (sys_close s) <= phase_rank c -> c <> CloseEnded -> sys_inv (s <| sys_close := c |>).
Proof.
  intros Hi Hph Hle Hc.
  refine (inv_phase s (sys_state s) c (sys_replies s) Hi _ _ _ Hph _ _); try done.
  destruct (si_lost _ Hi) as [|[? ?]]; [by left|right]. split; [done|lia].
Qed.

Lemma inv_close_settle s :
  sys_inv s -> sys_close s = CloseBegun ->
  sys_inv ((with_batch s (close_settle ports (sys_state s))) <| sys_close := CloseSettled |>).
Proof.
  intros Hi Hc. pose proof (si_phase _ Hi) as Hph. rewrite Hc in Hph.
  assert (Hi' : sys_inv (with_batch s (close_settle ports (sys_state s)))).
  { apply inv_with_batch; [done|]. apply accounts_close_settle. }
  apply inv_next_phase; [done| |by change (sys_close (with_batch s ?p)) with (sys_close s); rewrite Hc; simpl; lia|done].
  pose proof (si_phase _ Hi') as Hph'. change (sys_close (with_batch s ?p)) with (sys_close s) in Hph'.
  rewrite Hc in Hph'. destruct Hph'. split; try done; try (simpl; lia).
  - intros _ id r. apply close_settle_started; [apply Hi|apply Hi|apply (ph_closing _ _ Hph)].
  - rewrite ph_report0. simpl. lia.
Qed.

Lemma inv_close_detach s thread :
  sys_inv s -> sys_close s = CloseSettled ->
  sys_inv ((with_batch s (close_detach ports limits thread (sys_state s))) <| sys_close := CloseDetached |>).
Proof.
  intros Hi Hc. pose proof (si_phase _ Hi) as Hph. rewrite Hc in Hph.
  assert (Hi' : sys_inv (with_batch s (close_detach ports limits thread (sys_state s)))).
  { apply inv_with_batch; [done|]. apply accounts_count_batch, accounts_detach_all. }
  apply inv_next_phase; [done| |by change (sys_close (with_batch s ?p)) with (sys_close s); rewrite Hc; simpl; lia|done].
  pose proof (si_phase _ Hi') as Hph'. change (sys_close (with_batch s ?p)) with (sys_close s) in Hph'.
  rewrite Hc in Hph'. destruct Hph'. split; try done; try (simpl; lia).
  - intros _. apply ph_settled0. simpl. lia.
  - intros _. split.
    + intros id r. change (get_record (sys_state (with_batch s (close_detach ports limits thread ?st))) id)
        with (get_record (detach_all ports limits thread st).1 id).
      apply detach_all_done; [apply Hi|apply Hi|apply (ph_closing _ _ Hph)|]. apply (ph_settled _ _ Hph).
      simpl. lia.
    + change (held (detach_all ports limits thread (sys_state s)).1 = []). unfold detach_all.
      by destruct (settle_detached ports thread (running_calls (sys_state s)) (sys_state s)).
  - rewrite ph_report0. simpl. lia.
Qed.

Lemma no_threads s : sys_inv s -> unflushed (sys_state s) = 0%N -> sys_threads s = [].
Proof. intros Hi Hu. rewrite (si_unflushed _ Hi) in Hu. destruct (sys_threads s); [done|]. simpl in Hu. lia. Qed.

Lemma inv_close_report s :
  sys_inv s -> sys_close s = CloseDetached -> unflushed (sys_state s) = 0%N ->
  sys_inv ((with_batch s (close_reports ports (sys_replies s) (sys_state s)))
             <| sys_close := CloseReported |>
             <| sys_lost := if sys_replies s then [] else on_lane LaneControl (closers (sys_state s)) |>).
Proof.
  intros Hi Hc Hu. pose proof (no_threads _ Hi Hu) as Hts.
  destruct Hi as [I1 I2 I3 I4 I5 I6 I7 I8 I9 I10]. rewrite Hc in *.
  assert (Hlost : sys_lost s = []) by (destruct I9 as [|[_ H]]; [done|simpl in H; lia]).
  rewrite Hts, Hlost in *. unfold replies_of in I3. rewrite Hts in I3.
  pose proof (report_all_balanced ports (sys_replies s) (sys_state s) I1 I2) as H. cbv zeta in H.
  unfold close_reports. destruct (report_all ports (sys_replies s) (sys_state s)) as [st' out].
  cbn [fst snd] in H. destruct H as (B1 & B2 & B3 & B4 & B5 & B6 & B7 & Bh & B8).
  set (lost := if sys_replies s then _ else _) in *.
  assert (F : closing st' = closing (sys_state s) /\ ended st' = ended (sys_state s) /\
    close_started st' = close_started (sys_state s) /\ close_report_ st' = Some (make_report (sys_state s)) /\
    unflushed st' = unflushed (sys_state s)) by (by injection B8 as -> -> -> -> ->).
  destruct F as (F1 & F2 & F3 & F4 & F5).
  split.
  - by destruct B1; split.
  - intros l. specialize (B2 l). by destruct l.
  - change (sys_received s ≡ₚ keys (sys_sent s ++ outs (sys_threads s ++ [Batch out])) ++
      waiting st' ++ opens (sys_threads s ++ [Batch out]) ++ lost).
    rewrite Hts. change (outs ([] ++ [Batch out])) with (out ++ []).
    change (opens ([] ++ [Batch out])) with (@nil (N * Lane)). change (opens []) with (@nil (N * Lane)) in I3.
    change (outs []) with (@nil Outgoing) in I3. rewrite !app_nil_r in *. rewrite I3, B3, keys_app.
    clear. solve_perm.
  - intros l. change (slack l st' = count_lane l (opens (sys_threads s ++ [Batch out]) ++ lost)).
    rewrite B4, I4, Hts. done.
  - exact I5.
  - intros id Hid. specialize (I6 _ Hid). change (id <= highest_call st')%N. by rewrite Bh.
  - change (unflushed st' + 1 = N.of_nat (length (sys_threads s ++ [Batch out])))%N.
    by rewrite F5, Hu, Hts.
  - destruct I8. split.
    + exact (eq_trans F1 ph_closing0).
    + exact (eq_trans F3 ph_started0).
    + intros _ id r Hg. apply (ph_settled0 ltac:(simpl; lia) id). unfold get_record. by rewrite <- B5.
    + intros _. destruct (ph_detached0 ltac:(simpl; lia)) as [P1 P2]. split; [|by rewrite <- P2, <- B6].
      intros id r Hg. apply (P1 id). unfold get_record. by rewrite <- B5.
    + change (close_report_ st' <> None <-> 4 <= 4). rewrite F4. by split.
    + intros _. exact B7.
    + exact (eq_trans F2 ph_ended0).
  - unfold lost. destruct (sys_replies s) eqn:Hrep; [by left|right].
    split; [exact Hrep|simpl; lia].
  - done.
Qed.

Lemma inv_close_end s :
  sys_inv s -> sys_close s = CloseReported -> unflushed (sys_state s) = 0%N ->
  sys_inv (s <| sys_state := close_end (sys_state s) |> <| sys_close := CloseEnded |>).
Proof.
  intros Hi Hc Hu. pose proof (si_phase _ Hi) as Hph. rewrite Hc in Hph. destruct Hph.
  refine (inv_phase s (close_end (sys_state s)) CloseEnded (sys_replies s) Hi _ _ _ _ _ _).
  - done.
  - by intros [].
  - done.
  - split; try done.
    + intros _. apply ph_settled0. simpl. lia.
    + intros _. apply ph_detached0. simpl. lia.
    + change (close_report_ (sys_state s) <> None <-> 4 <= 5). rewrite ph_report0. simpl. lia.
    + intros _. apply ph_closers0. simpl. lia.
  - destruct (si_lost _ Hi) as [|[? ?]]; [by left|right]. split; [done|simpl; lia].
  - intros _. by rewrite (no_threads _ Hi Hu).
Qed.

(** ** Every reachable state *)

Lemma inv_init : sys_inv sys_init.
Proof.
  split; try done.
  - split; [done|..].
    + intros op id. simpl. by rewrite lookup_empty.
    + intros id Hid. by apply elem_of_nil in Hid.
  - by intros [].
  - by intros [].
  - constructor.
  - intros id Hid. by apply elem_of_nil in Hid.
  - split; try done; simpl; try lia. split; [done|lia].
  - by left.
Qed.

(** A reply handed to the sink stays a reply. *)
Lemma inv_send s l1 o out l2 :
  sys_inv s -> sys_threads s = l1 ++ Sending (o :: out) :: l2 ->
  sys_inv (s <| sys_threads := l1 ++ Sending out :: l2 |> <| sys_sent := sys_sent s ++ [o] |>).
Proof.
  intros [I1 I2 I3 I4 I5 I6 I7 I8 I9 I10] Hts.
  assert (Hop : opens (l1 ++ Sending out :: l2) = opens (sys_threads s)) by (by rewrite Hts, !opens_app).
  split; try done.
  - etransitivity; [exact I3|].
    change (keys (replies_of s) ++ waiting (sys_state s) ++ opens (sys_threads s) ++ sys_lost s ≡ₚ
      keys ((sys_sent s ++ [o]) ++ outs (l1 ++ Sending out :: l2)) ++ waiting (sys_state s) ++
      opens (l1 ++ Sending out :: l2) ++ sys_lost s).
    rewrite Hop. apply Permutation_app_tail. unfold replies_of. rewrite Hts, !outs_app, !outs_cons.
    cbn [thread_out]. change (o :: out) with ([o] ++ out). rewrite !keys_app. solve_perm.
  - intros l. change (slack l (sys_state s) = count_lane l (opens (l1 ++ Sending out :: l2) ++ sys_lost s)).
    by rewrite Hop.
  - change (unflushed (sys_state s) = N.of_nat (length (l1 ++ Sending out :: l2))).
    by rewrite I7, Hts, !length_app.
  - intros He. destruct (I10 He) as [E _]. exfalso. rewrite Hts, outs_app, outs_cons in E.
    cbn [thread_out] in E. by destruct (outs l1).
Qed.

Lemma inv_flushed s l1 l2 :
  sys_inv s -> sys_threads s = l1 ++ Sending [] :: l2 ->
  sys_inv (s <| sys_state := count_down (sys_state s) |> <| sys_threads := l1 ++ l2 |>).
Proof.
  intros Hi Hts. pose proof (si_unflushed _ Hi) as Hu. rewrite Hts in Hu.
  eapply (inv_move s _ _ []); [done|by apply (accounts_same (count_down (sys_state s)))|..].
  - rewrite length_app in Hu |- *. simpl length in Hu. unfold saturating_sub. lia.
  - rewrite Hts, !outs_app, outs_cons, app_nil_r. done.
  - by rewrite Hts, !opens_app.
Qed.

Lemma inv_receive_any s l1 call l2 env now st' res :
  lanes_agree ports -> sys_inv s -> sys_threads s = l1 ++ Counted call :: l2 ->
  receive ports limits env now call (sys_state s) = (st', res) ->
  sys_inv (s <| sys_state := st' |>
             <| sys_threads := l1 ++ after_receive call res :: l2 |>
             <| sys_received := sys_received s ++ taken_in (sys_state s) call res |>).
Proof.
  intros Hl Hi Hts Hr. unfold taken_in.
  assert (Hquiet : accounts [] (sys_state s) (st', []) -> after_receive call res = Batch [] ->
    sys_inv (s <| sys_state := st' |> <| sys_threads := l1 ++ after_receive call res :: l2 |>
               <| sys_received := sys_received s ++ [] |>)).
  { intros Ha E. rewrite app_nil_r, E. destruct (split_threads l1 (Counted call) (Batch []) l2) as [E1 E2]; [done..|].
    refine (inv_same_threads s st' (l1 ++ Batch [] :: l2) Hi Ha _ _ _); rewrite Hts; [|done..].
    by rewrite !length_app. }
  destruct res as [rx|e].
  - destruct (ended (sys_state s)) eqn:He; [|by eapply inv_receive].
    destruct (receive_ended _ _ _ _ _ _ _ _ He Hr) as (-> & -> & Hlt). apply Hquiet; [|done].
    apply accounts_highest. lia.
  - destruct (receive_refused _ _ _ _ _ _ _ _ Hr) as [-> _]. apply Hquiet; [|done]. by apply accounts_same.
Qed.

Lemma inv_step s s' : lanes_agree ports -> sys_inv s -> sys_step s s' -> sys_inv s'.
Proof.
  intros Hl Hi Hstep. destruct Hstep.
  - by apply inv_count.
  - by eapply inv_receive_any.
  - by apply inv_spool.
  - destruct (split_threads l1 BeginsClose
      (if p.2 && inline then InlineClose else Batch []) l2) as [E1 E2]; [by destruct (_ && _)..|].
    apply inv_close_begin; rewrite ?H; [done| |done..]. by rewrite !length_app.
  - by apply (inv_close_begin s (sys_threads s) false).
  - apply inv_resolving.
    apply (inv_same_threads s ((sys_state s) <| pending := rest |>) (sys_threads s)); try done.
    by apply accounts_same.
  - apply inv_resolving, inv_with_batch; [done|]. apply accounts_admit.
  - apply inv_with_batch; [done|]. apply accounts_worker_reports.
  - apply (inv_same_threads s _ (sys_threads s)); try done. apply accounts_direct_next.
  - apply (inv_same_threads s _ (sys_threads s)); try done. apply accounts_worker_event.
  - apply inv_with_batch; [done|]. apply accounts_read_turn.
  - destruct (split_threads l1 (Batch out) (Sending out) l2) as [E1 E2]; [done..|].
    apply inv_same_threads; rewrite ?H; [done|apply accounts_mark_delivered| |done..].
    by rewrite !length_app.
  - by apply inv_send.
  - by apply inv_flushed.
  - by apply inv_close_settle.
  - by apply inv_close_detach.
  - by apply inv_close_report.
  - by apply inv_close_end.
Qed.

Definition reachable s : Prop := rtc sys_step sys_init s.

Lemma reachable_inv s : lanes_agree ports -> reachable s -> sys_inv s.
Proof.
  intros Hl Hr. unfold reachable in Hr. revert s Hr. apply rtc_ind_r; [apply inv_init|].
  intros s s' _ Hstep Hi. by eapply inv_step.
Qed.

(** ** The lanes' counters *)

Definition lane_limit (lane : Lane) : N :=
  match lane with
  | LaneCall => host_outstanding_calls limits
  | LaneControl => host_control_reserve limits
  end.

(** A counter is the number of calls of its lane that have no reply yet. *)
Lemma counter_exact s lane :
  sys_inv s ->
  (counter lane (sys_state s) + count_lane lane (keys (replies_of s)) =
   count_lane lane (sys_received s))%N.
Proof.
  intros Hi. rewrite (count_lane_perm _ _ _ (si_calls _ Hi)), !count_lane_app.
  pose proof (si_slack _ Hi lane) as Hs. rewrite count_lane_app in Hs. unfold slack in Hs.
  pose proof (si_covered _ Hi lane). lia.
Qed.

Lemma receive_full env now call st st' rx :
  receive ports limits env now call st = (st', Ok rx) -> ended st = false ->
  lane_full limits (ports_lane ports (call_method call)) st = true ->
  forall l, counter l st' = counter l st.
Proof.
  unfold receive. cbv zeta. destruct (_ <=? _)%N; [done|].
  set (st1 := st <| highest_call := _ |>). intros Hr He Hf l.
  assert (Hn : counter l st1 = counter l st) by (by destruct l).
  change (ended st1) with (ended st) in Hr. rewrite He in Hr.
  assert (Hf1 : lane_full limits (ports_lane ports (call_method call)) st1 = true)
    by (by destruct (ports_lane ports (call_method call))).
  rewrite Hf1 in Hr. clearbody st1.
  destruct (ports_classify ports call); [|by simplify_eq].
  destruct (_ && _); by simplify_eq.
Qed.

Lemma lane_full_spec lane st : lane_full limits lane st = (lane_limit lane <=? counter lane st)%N.
Proof. by destruct lane. Qed.

Lemma batch_replies s p : keys (replies_of s) ⊆+ keys (replies_of (with_batch s p)).
Proof.
  unfold replies_of. change (sys_threads (with_batch s p)) with (sys_threads s ++ [Batch p.2]).
  change (sys_sent (with_batch s p)) with (sys_sent s).
  rewrite outs_app, !keys_app, app_assoc. apply submseteq_inserts_r. done.
Qed.

Lemma threads_replies s l1 t t' l2 sent :
  sys_threads s = l1 ++ t :: l2 -> keys (sys_sent s ++ thread_out t) ⊆+ keys (sent ++ thread_out t') ->
  keys (replies_of s) ⊆+ keys (sent ++ outs (l1 ++ t' :: l2)).
Proof.
  intros Hts Hk. unfold replies_of. rewrite Hts, !outs_app, !outs_cons, !keys_app in *.
  rewrite !(Permutation_app_swap_app (keys (outs l1))), !app_assoc.
  by repeat (apply submseteq_app; [|done]).
Qed.

(** No step takes a reply back, and only [receive] takes a call in. *)
Lemma step_replies s s' :
  sys_step s s' ->
  keys (replies_of s) ⊆+ keys (replies_of s') /\
  (sys_received s' = sys_received s \/
   exists l1 call l2 env now st' res,
     sys_threads s = l1 ++ Counted call :: l2 /\
     receive ports limits env now call (sys_state s) = (st', res) /\ sys_state s' = st' /\
     sys_received s' = sys_received s ++ taken_in (sys_state s) call res).
Proof.
  intros Hstep. split; [|destruct Hstep; try (by left); right; by exists l1, call, l2, env, now, st', res].
  destruct Hstep; try done; try apply batch_replies.
  - change (keys (replies_of s) ⊆+ keys (sys_sent s ++ outs (sys_threads s ++ [Counted call]))).
    by rewrite outs_app, app_nil_r.
  - apply (threads_replies s l1 (Counted call) (after_receive call res) l2 (sys_sent s) H).
    rewrite app_nil_r, keys_app. by apply submseteq_inserts_r.
  - apply (threads_replies s l1 (Spooling call lane) (Batch p.2) l2 (sys_sent s) H).
    rewrite app_nil_r, keys_app. by apply submseteq_inserts_r.
  - apply (threads_replies s l1 BeginsClose _ l2 (sys_sent s) H).
    rewrite app_nil_r, keys_app. by apply submseteq_inserts_r.
  - by apply (threads_replies s l1 (Batch out) (Sending out) l2 (sys_sent s) H).
  - apply (threads_replies s l1 (Sending (o :: out)) (Sending out) l2 (sys_sent s ++ [o]) H).
    cbn [thread_out]. by rewrite <- app_assoc.
  - change (keys (replies_of s) ⊆+ keys (sys_sent s ++ outs (l1 ++ l2))). unfold replies_of.
    by rewrite H, !outs_app, outs_cons.
Qed.

Lemma count_lane_submseteq lane (l l' : calls) : l ⊆+ l' -> (count_lane lane l <= count_lane lane l')%N.
Proof.
  intros [k Hk]%submseteq_Permutation. rewrite (count_lane_perm _ _ _ Hk), count_lane_app. lia.
Qed.

Lemma counters_bounded s lane :
  lanes_agree ports -> reachable s -> (counter lane (sys_state s) <= lane_limit lane)%N.
Proof.
  intros Hl Hr. revert s Hr. refine (rtc_ind_r _ _ _ _); [by destruct lane; apply N.le_0_l|].
  intros s s' Hr Hstep IH.
  pose proof (reachable_inv _ Hl Hr) as Hi. pose proof (inv_step _ _ Hl Hi Hstep) as Hi'.
  pose proof (counter_exact _ lane Hi) as E. pose proof (counter_exact _ lane Hi') as E'.
  destruct (step_replies _ _ Hstep) as [Hk%(count_lane_submseteq lane) Hrec].
  destruct Hrec as [Hsame | (l1 & call & l2 & env & now & st' & res & _ & Hrx & Est & Hsame)];
    rewrite Hsame in E'; [lia|].
  destruct res as [rx|e]; simpl in E'; [|rewrite app_nil_r in E'; lia].
  destruct (ended (sys_state s)) eqn:He; [rewrite app_nil_r in E'; lia|].
  rewrite count_lane_app in E'. set (ln := ports_lane ports (call_method call)) in *.
  destruct (decide (ln = lane)) as [<-|Hne].
  - destruct (lane_full limits ln (sys_state s)) eqn:Hf.
    + rewrite Est, (receive_full _ _ _ _ _ _ Hrx He Hf ln). done.
    + rewrite lane_full_spec in Hf. apply N.leb_gt in Hf.
      assert (count_lane ln [(call_id call, ln)] = 1%N) as H1.
      { change [(call_id call, ln)] with (on_lane ln [call_id call]). rewrite count_lane_on.
        by rewrite decide_True. }
      lia.
  - assert (count_lane lane [(call_id call, ln)] = 0%N) as H1.
    { change [(call_id call, ln)] with (on_lane ln [call_id call]). rewrite count_lane_on.
      by rewrite decide_False. }
    lia.
Qed.

End system.

(** ** Runs *)

(** The steps as an executable machine, threads by their place. *)
Inductive SysEvent (Failure : Type) : Type :=
| EvCount (call : Call)
| EvReceive (i : nat) (env : Env) (now : N)
| EvSpool (i : nat)
| EvCloseCall (i : nat) (inline : bool)
| EvChannelClosed
| EvPop
| EvAdmit (found : option (result Resolved Failure)) (env : Env)
| EvWorker (id : N) (outcome : Outcome Failure) (env : Env)
| EvDirect
| EvEvent (thread : nat) (id : N) (payload : list N)
| EvReadTurn (now : N)
| EvMark (i : nat)
| EvSend (i : nat)
| EvFlushed (i : nat)
| EvCloseSettle
| EvCloseDetach (thread : nat)
| EvCloseReport
| EvCloseEnd.
Arguments EvCount {Failure} _.
Arguments EvReceive {Failure} _ _ _.
Arguments EvSpool {Failure} _.
Arguments EvCloseCall {Failure} _ _.
Arguments EvChannelClosed {Failure}.
Arguments EvPop {Failure}.
Arguments EvAdmit {Failure} _ _.
Arguments EvWorker {Failure} _ _ _.
Arguments EvDirect {Failure}.
Arguments EvEvent {Failure} _ _ _.
Arguments EvReadTurn {Failure} _.
Arguments EvMark {Failure} _.
Arguments EvSend {Failure} _.
Arguments EvFlushed {Failure} _.
Arguments EvCloseSettle {Failure}.
Arguments EvCloseDetach {Failure} _.
Arguments EvCloseReport {Failure}.
Arguments EvCloseEnd {Failure}.

Section run.
Context {Failure : Type} (ports : HostPorts Failure) (limits : HostLimits).
Implicit Types (s : Sys Failure).

Definition put (i : nat) (ts : list Thread) (t : list Thread) : list Thread :=
  take i ts ++ t ++ drop (S i) ts.

Definition exec s (e : SysEvent Failure) : option (Sys Failure) :=
  let st := sys_state s in let ts := sys_threads s in
  match e with
  | EvCount call => Some (s <| sys_state := count_up st |> <| sys_threads := ts ++ [Counted call] |>)
  | EvReceive i env now =>
      match ts !! i with
      | Some (Counted call) =>
          let p := receive ports limits env now call st in
          Some (s <| sys_state := p.1 |> <| sys_threads := put i ts [after_receive call p.2] |>
                  <| sys_received := sys_received s ++ taken_in ports st call p.2 |>)
      | _ => None
      end
  | EvSpool i =>
      match ts !! i with
      | Some (Spooling call lane) =>
          let p := spool_answer ports call lane st in
          Some (s <| sys_state := p.1 |> <| sys_threads := put i ts [Batch p.2] |>)
      | _ => None
      end
  | EvCloseCall i inline =>
      match ts !! i with
      | Some BeginsClose =>
          let p := close_begin st in
          Some (s <| sys_state := p.1 |>
                  <| sys_threads := put i ts [if p.2 && inline then InlineClose else Batch []] |>
                  <| sys_close := if p.2 then CloseBegun else sys_close s |>
                  <| sys_replies := if p.2 then true else sys_replies s |>)
      | _ => None
      end
  | EvChannelClosed =>
      let p := close_begin st in
      Some (s <| sys_state := p.1 |> <| sys_close := if p.2 then CloseBegun else sys_close s |>
              <| sys_replies := if p.2 then false else sys_replies s |>)
  | EvPop =>
      match sys_resolving s, pending st, ended st with
      | None, id :: rest, false =>
          Some (s <| sys_state := st <| pending := rest |> |>
                  <| sys_resolving := if is_received st id then Some id else None |>)
      | _, _, _ => None
      end
  | EvAdmit found env =>
      match sys_resolving s with
      | Some id => Some ((with_batch s (admit_call ports limits env id found (count_up st)))
                           <| sys_resolving := None |>)
      | None => None
      end
  | EvWorker id outcome env =>
      if reportable st id then Some (with_batch s (worker_reports ports limits env id outcome st)) else None
  | EvDirect =>
      if (0 <? direct_running st)%N then Some (s <| sys_state := (direct_worker_next st).1 |>) else None
  | EvEvent thread id payload => Some (s <| sys_state := worker_event thread id payload st |>)
  | EvReadTurn now => Some (with_batch s (read_turn ports limits now (count_up st)))
  | EvMark i =>
      match ts !! i with
      | Some (Batch out) => Some (s <| sys_state := mark_delivered (delivers out) st |>
                                    <| sys_threads := put i ts [Sending out] |>)
      | _ => None
      end
  | EvSend i =>
      match ts !! i with
      | Some (Sending (o :: out)) =>
          Some (s <| sys_threads := put i ts [Sending out] |> <| sys_sent := sys_sent s ++ [o] |>)
      | _ => None
      end
  | EvFlushed i =>
      match ts !! i with
      | Some (Sending []) => Some (s <| sys_state := count_down st |> <| sys_threads := put i ts [] |>)
      | _ => None
      end
  | EvCloseSettle =>
      match sys_close s with
      | CloseBegun => Some ((with_batch s (close_settle ports st)) <| sys_close := CloseSettled |>)
      | _ => None
      end
  | EvCloseDetach thread =>
      match sys_close s with
      | CloseSettled => Some ((with_batch s (close_detach ports limits thread st))
                                <| sys_close := CloseDetached |>)
      | _ => None
      end
  | EvCloseReport =>
      match sys_close s, unflushed st with
      | CloseDetached, 0%N =>
          Some ((with_batch s (close_reports ports (sys_replies s) st)) <| sys_close := CloseReported |>
                  <| sys_lost := if sys_replies s then [] else on_lane LaneControl (closers st) |>)
      | _, _ => None
      end
  | EvCloseEnd =>
      match sys_close s, unflushed st with
      | CloseReported, 0%N => Some (s <| sys_state := close_end st |> <| sys_close := CloseEnded |>)
      | _, _ => None
      end
  end.

Fixpoint run s (es : list (SysEvent Failure)) : option (Sys Failure) :=
  match es with
  | [] => Some s
  | e :: es' => match exec s e with Some s' => run s' es' | None => None end
  end.

Lemma thread_at s i t :
  sys_threads s !! i = Some t ->
  sys_threads s = take i (sys_threads s) ++ t :: drop (S i) (sys_threads s).
Proof. intros Ht. symmetry. by apply take_drop_middle. Qed.

Lemma exec_sound s e s' : exec s e = Some s' -> sys_step ports limits s s'.
Proof.
  destruct e as [call|i env now|i|i inline| | |found env|id outcome env| |thread id payload|now
                |i|i|i| |thread| |]; cbv beta delta [exec] iota zeta; intros H.
  - injection H as <-. apply step_count.
  - destruct (sys_threads s !! i) as [[]|] eqn:Ht; try done. injection H as <-.
    eapply (step_receive _ _ _ (take i (sys_threads s)) call (drop (S i) (sys_threads s)) env now);
      [by apply thread_at|apply surjective_pairing].
  - destruct (sys_threads s !! i) as [[]|] eqn:Ht; try done. injection H as <-.
    eapply (step_spool _ _ _ (take i (sys_threads s)) call lane); by apply thread_at.
  - destruct (sys_threads s !! i) as [[]|] eqn:Ht; try done. injection H as <-.
    eapply (step_close_call _ _ _ (take i (sys_threads s)) _ inline); by apply thread_at.
  - injection H as <-. apply step_channel_closed.
  - destruct (sys_resolving s) eqn:Hr; [done|]. destruct (pending (sys_state s)) eqn:Hp; [done|].
    destruct (ended (sys_state s)) eqn:He; [done|]. injection H as <-. by apply step_pop.
  - destruct (sys_resolving s) eqn:Hr; [|done]. injection H as <-. by apply step_admit.
  - destruct (reportable (sys_state s) id) eqn:Hr; [|done]. injection H as <-. by apply step_worker.
  - destruct (0 <? direct_running (sys_state s))%N eqn:Hr; [|done]. injection H as <-.
    apply step_direct. by apply N.ltb_lt.
  - injection H as <-. apply step_event.
  - injection H as <-. apply step_read_turn.
  - destruct (sys_threads s !! i) as [[]|] eqn:Ht; try done. injection H as <-.
    eapply (step_mark _ _ _ (take i (sys_threads s)) out); by apply thread_at.
  - destruct (sys_threads s !! i) as [[| | | | |[|o out]]|] eqn:Ht; try done. injection H as <-.
    eapply (step_send _ _ _ (take i (sys_threads s)) o out); by apply thread_at.
  - destruct (sys_threads s !! i) as [[| | | | |[|o out]]|] eqn:Ht; try done. injection H as <-.
    eapply (step_flushed _ _ _ (take i (sys_threads s))); by apply thread_at.
  - destruct (sys_close s) eqn:Hc; try done. injection H as <-. by apply step_close_settle.
  - destruct (sys_close s) eqn:Hc; try done. injection H as <-. by apply step_close_detach.
  - destruct (sys_close s) eqn:Hc; try done. destruct (unflushed (sys_state s)) eqn:Hu; [|done].
    injection H as <-. by apply step_close_report.
  - destruct (sys_close s) eqn:Hc; try done. destruct (unflushed (sys_state s)) eqn:Hu; [|done].
    injection H as <-. by apply step_close_end.
Qed.

Lemma run_reachable es s : run sys_init es = Some s -> reachable ports limits s.
Proof.
  unfold reachable. generalize (@sys_init Failure) as s0. revert s.
  induction es as [|e es IH]; intros s s0; simpl; [by intros [= <-]|].
  destruct (exec s0 e) as [s1|] eqn:E; [|done]. intros H.
  eapply rtc_l; [by eapply exec_sound|by apply IH].
Qed.

End run.

(** ** A close on its caller's thread *)

Section inline.
Context {Failure : Type} (ports : HostPorts Failure) (limits : HostLimits).
Implicit Types (s : Sys Failure).

(** The thread of an inline close never leaves, and its count keeps the
    close from its report. *)
Definition stalled s : Prop := InlineClose ∈ sys_threads s -> phase_rank (sys_close s) <= 3.

Lemma inline_stays l1 t t' l2 :
  t <> InlineClose -> InlineClose ∈ l1 ++ t :: l2 -> InlineClose ∈ l1 ++ t' :: l2.
Proof. intros Hne. rewrite !elem_of_app, !elem_of_cons. intros [?|[?|?]]; [by left|congruence|by right; right]. Qed.

Lemma inline_was l1 t t' l2 :
  t' <> InlineClose -> InlineClose ∈ l1 ++ t' :: l2 -> InlineClose ∈ l1 ++ t :: l2.
Proof. apply inline_stays. Qed.

Lemma inline_kept s s' :
  sys_step ports limits s s' -> InlineClose ∈ sys_threads s -> InlineClose ∈ sys_threads s'.
Proof.
  destruct 1; try done; try (intros Hin; apply elem_of_app; by left).
  all: rewrite H; try (by apply inline_stays).
  change (InlineClose ∈ l1 ++ Sending [] :: l2 -> InlineClose ∈ l1 ++ l2).
  rewrite !elem_of_app, elem_of_cons. naive_solver.
Qed.

Lemma batch_stalled s p : stalled s -> InlineClose ∈ sys_threads (with_batch s p) -> phase_rank (sys_close s) <= 3.
Proof.
  intros Hs. change (sys_threads (with_batch s p)) with (sys_threads s ++ [Batch p.2]).
  rewrite elem_of_app, list_elem_of_singleton. intros [?|?]; [by apply Hs|done].
Qed.

Lemma stalled_step s s' : sys_inv s -> stalled s -> sys_step ports limits s s' -> stalled s'.
Proof.
  intros Hi Hs Hstep. unfold stalled in Hs. destruct Hstep; intros Hin; try (by apply Hs).
  - apply Hs. change (InlineClose ∈ sys_threads s ++ [Counted call]) in Hin. set_solver.
  - apply Hs. rewrite H. eapply (inline_was l1 _ _ l2); [|exact Hin]. by destruct res as [[]|].
  - apply Hs. rewrite H. by eapply (inline_was l1 _ _ l2); [|exact Hin].
  - change (phase_rank (if p.2 then CloseBegun else sys_close s) <= 3). destruct p as [st b] eqn:Hp.
    destruct b; [simpl; lia|]. apply Hs. rewrite H. by eapply (inline_was l1 _ _ l2); [|exact Hin].
  - change (phase_rank (if p.2 then CloseBegun else sys_close s) <= 3). destruct p as [st b].
    destruct b; [simpl; lia|]. by apply Hs.
  - exact (batch_stalled _ _ Hs Hin).
  - exact (batch_stalled _ _ Hs Hin).
  - exact (batch_stalled _ _ Hs Hin).
  - apply Hs. rewrite H. by eapply (inline_was l1 _ _ l2); [|exact Hin].
  - apply Hs. rewrite H. by eapply (inline_was l1 _ _ l2); [|exact Hin].
  - apply Hs. rewrite H. change (InlineClose ∈ l1 ++ l2) in Hin. set_solver.
  - simpl. lia.
  - simpl. lia.
  - change (InlineClose ∈ sys_threads s ++ [Batch (close_reports ports (sys_replies s) (sys_state s)).2]) in Hin.
    rewrite (no_threads _ Hi H0) in Hin. set_solver.
  - change (InlineClose ∈ sys_threads s) in Hin. rewrite (no_threads _ Hi H0) in Hin. set_solver.
Qed.

Lemma reachable_stalled s : lanes_agree ports -> reachable ports limits s -> stalled s.
Proof.
  intros Hl Hr. revert s Hr. refine (rtc_ind_r _ _ _ _); [by intros Hin%elem_of_nil|].
  intros s s' Hr Hstep IH. eapply stalled_step; [by eapply reachable_inv|done|done].
Qed.

Lemma inline_never_reports s s' :
  lanes_agree ports -> reachable ports limits s -> InlineClose ∈ sys_threads s ->
  rtc (sys_step ports limits) s s' ->
  InlineClose ∈ sys_threads s' /\ phase_rank (sys_close s') <= 3 /\ ended (sys_state s') = false.
Proof.
  intros Hl Hr Hin Hrun. assert (Hr' : reachable ports limits s') by (unfold reachable in *; by etransitivity).
  assert (Hin' : InlineClose ∈ sys_threads s').
  { clear Hr'. revert Hin. induction Hrun as [|s1 s2 s3 Hst Hrun IH]; intros Hin; [done|].
    apply IH; [eapply rtc_r; [exact Hr|done]|by eapply inline_kept]. }
  pose proof (reachable_stalled _ Hl Hr' Hin') as Hph. split_and!; [done|done|].
  rewrite (ph_ended _ _ (si_phase _ (reachable_inv _ _ _ Hl Hr'))). apply Nat.eqb_neq. lia.
Qed.

End inline.

(** ** A session to run *)

(** Ports of a small host: the method names the request. *)
Definition demo_classify (call : Call) : result Request HostError :=
  match call_method call with
  | [1%N] => Ok RqClose
  | [2%N] => Ok (RqCancel (TargetCall 1))
  | [3%N] => Ok RqDirect
  | [4%N] => Ok RqSpool
  | [5%N] => Ok (RqOperation Fetch true)
  | [6%N] => Ok (RqOperation Push true)
  | _ => Ok (RqOperation Write true)
  end.

Definition demo_ports : HostPorts unit :=
  {| ports_decode := fun _ => Err []; ports_lane := fun m =>
       match m with [1%N] | [2%N] => LaneControl | _ => LaneCall end;
     ports_classify := demo_classify; ports_spool := fun _ => Ok []; ports_failure := fun _ => tt;
     ports_settled_result := fun _ _ _ => []; ports_detached := fun _ _ => (tt, []);
     ports_accepted := fun _ _ _ => []; ports_reset_event := fun _ => []; ports_events := fun _ _ => [];
     ports_events_ended := fun _ _ => []; ports_cleanup := fun _ => []; ports_released := [];
     ports_reply := fun _ body => new_frame SessionReply body;
     ports_error := fun _ _ => new_frame SessionError [] |}.

Lemma demo_lanes_agree : lanes_agree demo_ports.
Proof.
  intros call request. simpl. unfold demo_classify.
  repeat (case_match; try (intros [= <-]; done)).
Qed.

Definition demo_env : Env := {| env_detached := fun _ => false; env_spawn := fun _ => None |}.

Definition demo_call (id : N) (method : N) : Call :=
  {| call_id := id; call_method := [method]; call_mode := Submit; call_request := []; call_verb := None |}.

Definition demo_resolved : Resolved := {| workspace := lit "w"; request_id := lit "r" |}.

(** A batch flushed whole, and the batches of a list of replies. *)
Definition flush_of (n : nat) : list (SysEvent unit) :=
  EvMark 0 :: replicate n (EvSend 0) ++ [EvFlushed 0].

(** An operation is submitted, admitted and started, its worker is cancelled,
    and the session closes while it runs. *)
Definition demo_events : list (SysEvent unit) :=
  [EvCount (demo_call 1 9); EvReceive 0 demo_env 0] ++ flush_of 0 ++
  [EvPop; EvAdmit (Some (Ok demo_resolved)) demo_env] ++ flush_of 1 ++
  [EvCount (demo_call 2 2); EvReceive 0 demo_env 0] ++ flush_of 0 ++
  [EvCount (demo_call 3 1); EvReceive 0 demo_env 0; EvCloseCall 0 false] ++ flush_of 0 ++
  [EvCloseSettle] ++ flush_of 0 ++ [EvCloseDetach 0] ++ flush_of 1.

Definition demo_detached : Sys unit := default sys_init (run demo_ports default_host_limits sys_init demo_events).

Definition demo_ended : Sys unit :=
  default sys_init (run demo_ports default_host_limits sys_init
    (demo_events ++ [EvCloseReport] ++ flush_of 1 ++ [EvCloseEnd])).

(** A [session.close] whose close runs on its own thread. *)
Definition demo_inline : Sys unit :=
  default sys_init (run demo_ports default_host_limits sys_init
    [EvCount (demo_call 1 1); EvReceive 0 demo_env 0; EvCloseCall 0 true]).

Lemma demo_reachable es s :
  run demo_ports default_host_limits sys_init es = Some s ->
  reachable demo_ports default_host_limits (default sys_init (run demo_ports default_host_limits sys_init es)).
Proof. intros E. rewrite E. by apply (run_reachable _ _ es). Qed.

(** ** The service's promises *)

(** C2: however the host's threads interleave, no call is ever answered
    twice, and each reply, whether handed to the sink or still on its way, is
    to a call the session received and travels on that call's lane. *)
Theorem calls_answered_once {Failure : Type} (ports : HostPorts Failure) (limits : HostLimits)
    (s : Sys Failure) :
  lanes_agree ports -> reachable ports limits s ->
  NoDup (out_target <$> replies_of s) /\
  (forall o, o ∈ replies_of s -> (out_target o, out_lane o) ∈ sys_received s).
Proof.
  intros Hl Hr. pose proof (reachable_inv _ _ _ Hl Hr) as Hi. pose proof (si_calls _ Hi) as Hc. split.
  - pose proof (si_nodup _ Hi) as Hnd. rewrite Hc, fmap_app in Hnd. apply NoDup_app in Hnd as [Hnd _].
    unfold keys in Hnd. by rewrite <- list_fmap_compose in Hnd.
  - intros o Ho. rewrite Hc. apply elem_of_app. left. apply list_elem_of_fmap. by exists o.
Qed.

Lemma calls_answered_once_witness :
  NoDup (out_target <$> replies_of demo_ended) /\
  (forall o, o ∈ replies_of demo_ended -> (out_target o, out_lane o) ∈ sys_received demo_ended).
Proof.
  apply (calls_answered_once demo_ports default_host_limits demo_ended demo_lanes_agree).
  eapply demo_reachable. vm_compute. reflexivity.
Defined.

(** C3: a session that a [session.close] closed ends with every call it
    received answered exactly once, on its lane, and every answer handed to
    the sink. *)
Theorem close_answers_every_call {Failure : Type} (ports : HostPorts Failure) (limits : HostLimits)
    (s : Sys Failure) :
  lanes_agree ports -> reachable ports limits s ->
  sys_close s = CloseEnded -> sys_replies s = true ->
  keys (sys_sent s) ≡ₚ sys_received s.
Proof.
  intros Hl Hr Hc Hrep. pose proof (reachable_inv _ _ _ Hl Hr) as Hi.
  destruct (si_end _ Hi Hc) as [Ho Hop]. destruct (si_lost _ Hi) as [Hlost|[Hf _]]; [|congruence].
  pose proof (si_phase _ Hi) as Hph. rewrite Hc in Hph. rewrite (si_calls _ Hi). unfold replies_of.
  rewrite Ho, Hop, Hlost, (waiting_reported _ _ (si_ok _ Hi) Hph) by (simpl; lia).
  by rewrite !app_nil_r.
Qed.

Lemma close_answers_every_call_witness :
  keys (sys_sent demo_ended) ≡ₚ sys_received demo_ended /\ length (sys_received demo_ended) = 3.
Proof.
  split; [|vm_compute; reflexivity].
  apply (close_answers_every_call demo_ports default_host_limits demo_ended demo_lanes_agree);
    [|vm_compute; reflexivity..]. eapply demo_reachable. vm_compute. reflexivity.
Defined.

(** When the close writes its report, every call received has its reply
    at the sink already, the calls that wait for the report excepted: the
    report follows every other reply. *)
Theorem close_report_last {Failure : Type} (ports : HostPorts Failure) (limits : HostLimits)
    (s : Sys Failure) :
  lanes_agree ports -> reachable ports limits s ->
  sys_close s = CloseDetached -> unflushed (sys_state s) = 0%N ->
  sys_received s ≡ₚ keys (sys_sent s) ++ on_lane LaneControl (closers (sys_state s)).
Proof.
  intros Hl Hr Hc Hu. pose proof (reachable_inv _ _ _ Hl Hr) as Hi.
  pose proof (si_phase _ Hi) as Hph. rewrite Hc in Hph.
  destruct (si_lost _ Hi) as [Hlost|[_ H4]]; [|rewrite Hc in H4; simpl in H4; lia].
  rewrite (si_calls _ Hi). unfold replies_of. rewrite (no_threads _ Hi Hu), Hlost.
  rewrite (waiting_detached _ _ (si_ok _ Hi) Hph) by (simpl; lia). simpl. by rewrite !app_nil_r.
Qed.

Lemma close_report_last_witness :
  sys_received demo_detached ≡ₚ
  keys (sys_sent demo_detached) ++ on_lane LaneControl (closers (sys_state demo_detached)).
Proof.
  apply (close_report_last demo_ports default_host_limits demo_detached demo_lanes_agree);
    [|vm_compute; reflexivity..]. eapply demo_reachable. vm_compute. reflexivity.
Defined.

(** Each lane's counter is exactly the number of its calls that have no
    reply yet, and never exceeds the limit the host gives the lane, so the
    replies a client owes room for are bounded as the channel assumes. *)
Theorem lane_counters_exact {Failure : Type} (ports : HostPorts Failure) (limits : HostLimits)
    (s : Sys Failure) (lane : Lane) :
  lanes_agree ports -> reachable ports limits s ->
  (counter lane (sys_state s) + count_lane lane (keys (replies_of s)) =
   count_lane lane (sys_received s))%N /\
  (counter lane (sys_state s) <= lane_limit limits lane)%N.
Proof.
  intros Hl Hr. split; [apply counter_exact; by eapply reachable_inv|by eapply counters_bounded].
Qed.

Lemma lane_counters_exact_witness :
  (counter LaneControl (sys_state demo_detached) +
   count_lane LaneControl (keys (replies_of demo_detached)) =
   count_lane LaneControl (sys_received demo_detached))%N /\
  (counter LaneControl (sys_state demo_detached) <= 64)%N.
Proof.
  apply (lane_counters_exact demo_ports default_host_limits demo_detached LaneControl demo_lanes_agree).
  eapply demo_reachable. vm_compute. reflexivity.
Defined.

(** C40: where no thread can be started for a [session.close], the close runs
    on the thread that read the call, whose own count is one of those the
    close waits for: it never reports, and the session never ends. *)
Theorem inline_close_stalls {Failure : Type} (ports : HostPorts Failure) (limits : HostLimits)
    (s s' : Sys Failure) :
  lanes_agree ports -> reachable ports limits s -> InlineClose ∈ sys_threads s ->
  rtc (sys_step ports limits) s s' ->
  phase_rank (sys_close s') <= 3 /\ ended (sys_state s') = false.
Proof. intros Hl Hr Hin Hrun. by destruct (inline_never_reports _ _ _ _ Hl Hr Hin Hrun) as (_ & ? & ?). Qed.

Lemma inline_close_stalls_witness :
  phase_rank (sys_close demo_inline) <= 3 /\ ended (sys_state demo_inline) = false.
Proof.
  apply (inline_close_stalls demo_ports default_host_limits demo_inline demo_inline demo_lanes_agree).
  - eapply demo_reachable. vm_compute. reflexivity.
  - vm_compute. left.
  - apply rtc_refl.
Defined.
