(* ===== verification/ServiceSlots.v ===== *)
(** The slots of the operation service
    (src/crates/session-host/src/service/table/state.rs, admit.rs and
    settle.rs): what runs, in which workspace and class, against the busy
    counts and the limits of the session.

    The counts never understate what runs, so the class rules hold of the
    running operations themselves: one write alone, one push at most, in each
    workspace; and the queue, the table and the workers stay within the
    host's limits. *)

From S2P Require Export ServiceSystem.

#[local] Set Default Proof Using "Type".

Section slots.
Context {Failure : Type} (limits : HostLimits).
Implicit Types (st : State Failure) (r : CallRecord Failure).

(** The slot of a running operation: its workspace and class. *)
Definition slot (id : N) r : list (str * OpClass) :=
  match rec_phase r, rec_operation r, rec_resolved r with
  | PhRunning, Some (_, class), Some resolved => [(workspace resolved, class)]
  | _, _, _ => []
  end.

Definition slots st : list (str * OpClass) := gather slot (records st).

Definition tabled st : list N :=
  gather (fun id r => if rec_in_table r then [id] else []) (records st).

Definition busy_of st (ws : str) : Busy := default default_busy (busy st !! ws).

(** The classes of a workspace that may run together. *)
Record busy_ok (b : Busy) : Prop := {
  bo_writes : (writes b <= 1)%N;
  bo_pushes : (pushes b <= 1)%N;
  bo_alone : writes b <> 0%N -> pushes b = 0%N /\ fetches b = 0%N;
}.

Definition slot_count (ws : str) (class : OpClass) (l : list (str * OpClass)) : N :=
  N.of_nat (length (filter (fun e => e = (ws, class)) l)).

(** The invariant, with [extra] slots counted that nothing occupies yet or
    any more. *)
Record slots_room (extra : list (str * OpClass)) st : Prop := {
  so_busy ws class : (slot_count ws class (extra ++ slots st) <= busy_count (busy_of st ws) class)%N;
  so_compat ws : busy_ok (busy_of st ws);
  so_total : (N.of_nat (length (extra ++ slots st)) <= running st)%N;
  so_running : (running st <= running_operations limits)%N;
  so_queue : (N.of_nat (length (queue st)) <= queued_operations limits)%N;
  so_table : table_entries st = N.of_nat (length (tabled st));
  so_entries : (table_entries st <= operation_table limits)%N;
  so_direct : (direct_running st <= direct_workers limits)%N;
  so_waiting id : id ∈ direct_queue st ->
    (id <= highest_call st)%N /\ forall r, get_record st id = Some r -> rec_operation r = None;
}.

Definition slot_part st :=
  (records st, busy st, running st, queue st, direct_queue st, direct_running st, table_entries st,
   highest_call st).

Definition slots_ok : State Failure -> Prop := slots_room [].

Lemma slots_room_part extra st st' :
  slot_part st' = slot_part st -> slots_room extra st -> slots_room extra st'.
Proof.
  intros [= E1 E2 E3 E4 E5 E6 E7 E8] []. unfold slots, tabled, busy_of, get_record in *.
  split; unfold slots, tabled, busy_of, get_record; rewrite ?E1, ?E2, ?E3, ?E4, ?E5, ?E6, ?E7, ?E8; auto.
Qed.

Lemma slot_count_app ws class l l' :
  slot_count ws class (l ++ l') = (slot_count ws class l + slot_count ws class l')%N.
Proof. unfold slot_count. rewrite filter_app, length_app. lia. Qed.

Lemma slot_count_perm ws class l l' : l ≡ₚ l' -> slot_count ws class l = slot_count ws class l'.
Proof. unfold slot_count. by intros ->. Qed.

Lemma slot_count_one ws class e :
  slot_count ws class [e] = if decide (e = (ws, class)) then 1%N else 0%N.
Proof. unfold slot_count. rewrite filter_cons. by destruct (decide (e = (ws, class))). Qed.

(** *** The busy counts *)

Lemma busy_change_count b class class' up :
  busy_count (busy_change b class up) class' =
  if decide (class' = class)
  then (if up then (busy_count b class + 1)%N else (busy_count b class - 1)%N)
  else busy_count b class'.
Proof. by destruct class, class', up. Qed.

(** Starting an admitted class keeps the rules, and ending any does. *)
Lemma busy_ok_start b class : busy_ok b -> admits b class = true -> busy_ok (busy_change b class true).
Proof.
  intros [] Ha. destruct class; simpl in Ha; rewrite ?andb_true_iff, ?N.eqb_eq in Ha;
    split; unfold busy_change, set_busy_count, busy_count; simpl; lia.
Qed.

Lemma busy_ok_end b class : busy_ok b -> busy_ok (busy_change b class false).
Proof.
  intros []. destruct class; split; unfold busy_change, set_busy_count, busy_count, saturating_sub; simpl;
    lia.
Qed.

Lemma busy_of_insert st ws b ws' :
  busy_of (st <| busy := <[ws := b]> (busy st) |>) ws' = if decide (ws' = ws) then b else busy_of st ws'.
Proof.
  unfold busy_of. change (busy (st <| busy := ?m |>)) with (<[ws := b]> (busy st)).
  destruct (decide (ws' = ws)) as [->|Hne]; [by rewrite lookup_insert_eq|by rewrite lookup_insert_ne].
Qed.

(** *** Records *)

Lemma room_less extra st : slots_room extra st -> slots_ok st.
Proof.
  intros []. split; try done.
  - intros ws class. specialize (so_busy0 ws class). rewrite slot_count_app in so_busy0. simpl. lia.
  - rewrite length_app in so_total0. simpl. lia.
Qed.

Lemma tabled_set st id r r' :
  get_record st id = Some r -> rec_in_table r' = rec_in_table r ->
  tabled (set_record st id r') ≡ₚ tabled st.
Proof.
  intros Hg Ht.
  destruct (gather_present (fun id r => if rec_in_table r then [id] else []) (records st) id r Hg)
    as (rest & H1 & H2 & _).
  unfold tabled. change (records (set_record st id r')) with (bt_insert (records st) id r').
  by rewrite H2, H1, Ht.
Qed.

(** A record that moves between the slots and the extra ones. *)
Lemma room_set extra extra' st id r r' :
  slots_room extra st -> get_record st id = Some r ->
  rec_in_table r' = rec_in_table r -> rec_operation r' = rec_operation r ->
  slot id r' ++ extra' ≡ₚ slot id r ++ extra -> slots_room extra' (set_record st id r').
Proof.
  intros [] Hg Ht Hop Hs.
  destruct (gather_present slot (records st) id r Hg) as (rest & H1 & H2 & _).
  assert (Hp : extra' ++ slots (set_record st id r') ≡ₚ extra ++ slots st).
  { unfold slots. change (records (set_record st id r')) with (bt_insert (records st) id r').
    rewrite H2, H1, !app_assoc, (Permutation_app_comm extra'), (Permutation_app_comm extra), Hs. done. }
  split; try done.
  - intros ws class. by rewrite (slot_count_perm _ _ _ _ Hp).
  - by rewrite Hp.
  - change (table_entries st = N.of_nat (length (tabled (set_record st id r')))).
    by rewrite (tabled_set _ _ _ _ Hg Ht).
  - intros i Hi. destruct (so_waiting0 i Hi) as [Hle Hr]. split; [done|]. intros r0 Hg0.
    destruct (decide (i = id)) as [->|].
    + rewrite get_set_eq in Hg0. simplify_eq. rewrite Hop. by apply Hr.
    + rewrite get_set_ne in Hg0 by done. by apply Hr.
Qed.

(** An update that leaves the slot. *)
Lemma slots_upd st id r r' :
  slots_ok st -> get_record st id = Some r -> rec_in_table r' = rec_in_table r ->
  rec_operation r' = rec_operation r -> slot id r' = slot id r -> slots_ok (set_record st id r').
Proof. intros H Hg Ht Hop Hs. eapply (room_set []); try done. by rewrite Hs. Qed.

Lemma discard_slot_part st id r :
  get_record st id = Some r ->
  slot_part (discard st id) =
  (bt_remove (records st) id, busy st, running st, queue st, direct_queue st, direct_running st,
   if rec_in_table r then saturating_sub (table_entries st) 1 else table_entries st, highest_call st).
Proof.
  unfold discard. intros ->. unfold slot_part.
  by destruct (rec_operation r) as [[]|], (rec_in_table r).
Qed.

Lemma slots_discard st id r :
  slots_ok st -> get_record st id = Some r -> slot id r = [] -> slots_ok (discard st id).
Proof.
  intros [] Hg Hs. pose proof (discard_slot_part _ _ _ Hg) as Hp. unfold slot_part in Hp.
  injection Hp as E1 E2 E3 E4 E5 E6 E7 E8.
  destruct (gather_present slot (records st) id r Hg) as (rest & H1 & _ & H3).
  destruct (gather_present (fun id r => if rec_in_table r then [id] else []) (records st) id r Hg)
    as (rest' & T1 & _ & T3).
  assert (Hsl : slots (discard st id) ≡ₚ slots st).
  { unfold slots. by rewrite E1, H3, H1, Hs. }
  assert (Htb : tabled st ≡ₚ (if rec_in_table r then [id] else []) ++ tabled (discard st id)).
  { unfold tabled. by rewrite E1, T1, T3. }
  assert (Hle : table_entries (discard st id) = N.of_nat (length (tabled (discard st id)))).
  { apply Permutation_length in Htb. rewrite length_app in Htb. rewrite E7, so_table0.
    unfold saturating_sub. destruct (rec_in_table r); simpl in Htb; lia. }
  split; unfold busy_of; rewrite ?E2, ?E3, ?E4, ?E5, ?E6, ?E8; try done.
  - intros ws class. simpl. rewrite (slot_count_perm _ _ _ _ Hsl). apply so_busy0.
  - simpl. rewrite Hsl. apply so_total0.
  - rewrite E7. unfold saturating_sub. destruct (rec_in_table r); lia.
  - intros i Hi. destruct (so_waiting0 i Hi) as [Hhi Hr]. split; [done|]. intros r0.
    unfold get_record. rewrite E1. destruct (decide (i = id)) as [->|]; autorewrite with gwz; [done|].
    apply Hr.
Qed.

End slots.

(** ** The operations keep the slots *)

Section keeping.
Context {Failure : Type} (ports : HostPorts Failure) (limits : HostLimits) (env : Env).
Implicit Types (st : State Failure) (r : CallRecord Failure) (outcome : Outcome Failure).
Abbreviation room := (slots_room (Failure:=Failure) limits).
Abbreviation ok := (slots_ok (Failure:=Failure) limits).

(** Freeing the slot of an operation that no longer runs. *)
Lemma slots_free st ws class :
  room [(ws, class)] st ->
  ok (st <| running := saturating_sub (running st) 1 |>
         <| busy := <[ws := busy_change (busy_of st ws) class false]> (busy st) |>).
Proof.
  intros [H1 H2 H3 H4 H5 H6 H7 H8 H9]. unfold saturating_sub in *.
  set (st' := st <| running := _ |> <| busy := _ |>).
  assert (Hb : forall ws', busy_of st' ws' =
    if decide (ws' = ws) then busy_change (busy_of st ws) class false else busy_of st ws').
  { intros ws'. apply (busy_of_insert st). }
  split; try done.
  - intros ws' class'. rewrite Hb. specialize (H1 ws' class').
    change (slots st') with (slots st). rewrite slot_count_app, slot_count_one in H1. simpl app.
    destruct (decide (ws' = ws)) as [->|Hw]; [rewrite busy_change_count|];
      repeat case_decide; simplify_eq; lia.
  - intros ws'. rewrite Hb. case_decide; [by apply busy_ok_end|done].
  - change (running st') with (running st - 1)%N. change (slots st') with (slots st).
    rewrite length_app in H3. simpl length in *. lia.
  - change (running st') with (running st - 1)%N. lia.
Qed.

Lemma slots_release_slot id r st :
  room (slot id r) st -> ok (release_slot (bool_decide (rec_phase r = PhRunning)) r id st).
Proof.
  intros H. unfold release_slot. destruct (rec_resolved r) as [w|] eqn:Hw; [|by eapply room_less].
  set (st1 := if bool_decide (requests st !! _ = _) then _ else _).
  assert (H1 : room (slot id r) st1).
  { unfold st1. destruct (bool_decide (requests st !! _ = _)); [|exact H].
    by eapply slots_room_part; [|exact H]. }
  clearbody st1. destruct (bool_decide (rec_phase r = PhRunning)) eqn:Hr; [|by eapply room_less].
  apply bool_decide_eq_true in Hr. destruct (rec_operation r) as [[op class]|] eqn:Ho; [|by eapply room_less].
  apply slots_free. unfold slot in H1. by rewrite Hr, Ho, Hw in H1.
Qed.

Lemma slot_done id r outcome : slot id (settled r outcome) = [].
Proof. done. Qed.

Lemma answered_all_slot ids lane st :
  slot_part (foldl (fun st c => answered_on c lane st) st ids) = slot_part st.
Proof.
  revert st. induction ids as [|c ids IH]; intros st; simpl; [done|]. rewrite IH. by destruct lane.
Qed.

Lemma slots_settling id r outcome st :
  ok st -> get_record st id = Some r -> ok (settling id r outcome st).
Proof.
  intros H Hg. unfold settling. apply slots_release_slot.
  apply (slots_room_part _ _ (set_record st id (settled r outcome))).
  { rewrite !answered_all_slot. by destruct (rec_events r). }
  apply (room_set _ [] _ _ _ r); [done..|]. by rewrite slot_done, app_nil_r.
Qed.

Lemma settling_record id r outcome st :
  get_record (settling id r outcome st) id = Some (settled r outcome).
Proof.
  pose proof (settling_part id r outcome st) as Hp. unfold table_part in Hp. injection Hp as E1 _ _ _ _ _.
  unfold get_record. rewrite E1. apply bt_get_insert_eq.
Qed.

Lemma slots_settle id outcome st : ok st -> ok (settle ports id outcome st).1.
Proof.
  intros H. destruct (get_record st id) as [r|] eqn:Hg; [|unfold settle; by rewrite Hg].
  destruct (decide (rec_phase r = PhTerminal)) as [Hph|Hph].
  { unfold settle. by rewrite Hg, bool_decide_true. }
  rewrite (settle_open ports id r outcome st Hg Hph).
  pose proof (slots_settling id r outcome st H Hg) as Hs.
  pose proof (settling_record id r outcome st) as Hr. destruct (replied r); cbn [fst].
  - by eapply slots_room_part; [|exact Hs].
  - apply (slots_discard _ _ _ (settled r outcome)); [|by destruct (rec_lane r)|done].
    eapply slots_room_part; [|exact Hs]. by destruct (rec_lane r).
Qed.

(** Taking a record whose slot has been counted. *)
Lemma take_record_started id st st' :
  take_record id st = (st', true) ->
  exists r w, get_record st id = Some r /\ rec_gate r = true /\ rec_resolved r = Some w /\
    st' = set_record st id (r <| rec_gate := false |> <| rec_phase := PhRunning |> <| rec_alive := true |>).
Proof.
  unfold take_record. destruct (get_record st id) as [r|]; [|done].
  destruct (rec_gate r) eqn:Hg; [|done]. cbn [negb]. cbv zeta.
  change (rec_resolved (r <| rec_gate := false |>)) with (rec_resolved r).
  destruct (rec_resolved r) as [w|] eqn:Hw; [|done]. intros [= <-]. by exists r, w.
Qed.

Lemma slots_take_none id st st' : ok st -> take_record id st = (st', false) -> ok st'.
Proof.
  intros H. unfold take_record. destruct (get_record st id) as [r|] eqn:Hg; [|by intros [= <-]].
  destruct (rec_gate r); [|by intros [= <-]]. cbn [negb]. cbv zeta.
  destruct (rec_resolved _) as [w|]; [done|]. intros [= <-].
  by refine (slots_upd limits st id r (r <| rec_gate := false |>) H Hg _ _ _).
Qed.

Lemma unstarted_slot id r : rec_ok r -> rec_gate r = true -> slot id r = [].
Proof. intros Hr Hg. pose proof (rok_gate _ Hr Hg) as Hs. unfold slot. by destruct (rec_phase r). Qed.

Lemma slots_start_operation id ws class st :
  table_ok st -> room [(ws, class)] st ->
  (forall r, get_record st id = Some r -> exists op w, rec_operation r = Some (op, class) /\
    rec_resolved r = Some w /\ workspace w = ws) ->
  ok (start_operation ports env id st).1.
Proof.
  intros Hok H Hr. unfold start_operation. destruct (take_record id st) as [st' []] eqn:Ht; simpl.
  - apply take_record_started in Ht as (r & w & Hg & Hgate & Hw & ->).
    destruct (Hr _ Hg) as (op & w' & Ho & Hw' & Hws). simplify_eq.
    set (st' := set_record _ _ _). assert (Hst : ok st').
    { eapply (room_set _ [(workspace w, class)]); try done.
      rewrite (unstarted_slot id r (proj1 (tok_rec _ Hok _ _ Hg)) Hgate). unfold slot. simpl.
      by rewrite Ho, Hw. }
    destruct (env_spawn env id); [|done]. by apply slots_settle.
  - eapply slots_take_none; [|exact Ht]. by eapply room_less.
Qed.

(** The table's invariants together. *)
Definition fine st : Prop := table_ok st /\ covered st /\ ok st.

Lemma fine_step st p : fine st -> accounts [] st p -> ok p.1 -> fine p.1.
Proof.
  intros (H1 & H2 & _) Ha Hs. destruct (accounts_balanced _ _ Ha H1 H2) as [B1 B2 _ _ _]. by split_and!.
Qed.

Lemma fine_quiet st st' : fine st -> same_table st st' -> ok st' -> fine st'.
Proof. intros Hf Hs Ho. exact (fine_step st (st', []) Hf (accounts_same _ _ Hs) Ho). Qed.

Lemma fine_same st st' :
  same_table st st' -> slot_part st' = slot_part st -> fine st -> fine st'.
Proof.
  intros Hs Hp Hf. apply (fine_quiet st); [done|done|].
  eapply slots_room_part; [exact Hp|apply Hf].
Qed.

Lemma fine_settle id outcome st : fine st -> fine (settle ports id outcome st).1.
Proof.
  intros Hf. apply (fine_step st); [done|apply accounts_settle|]. apply slots_settle, Hf.
Qed.

(** *** Direct calls *)

Lemma fine_direct_queue ids st :
  fine st -> (forall i, i ∈ ids -> i ∈ direct_queue st) -> fine (st <| direct_queue := ids |>).
Proof.
  intros Hf Hids. apply (fine_quiet st); [done|done|].
  destruct Hf as (_ & _ & []). split; try done. intros i Hi. by apply so_waiting0, Hids.
Qed.

Lemma fine_take_direct id st :
  fine st -> id ∈ direct_queue st -> fine (take_record id st).1.
Proof.
  intros Hf Hin. refine (fine_step st ((take_record id st).1, []) Hf (accounts_take id st) _). cbn [fst].
  destruct Hf as (Hok & _ & Hs). destruct (take_record id st) as [st' []] eqn:Ht; [|by eapply slots_take_none].
  apply take_record_started in Ht as (r & w & Hg & Hgate & Hw & ->).
  pose proof (proj2 (so_waiting _ _ _ Hs id Hin) _ Hg) as Ho.
  refine (slots_upd limits st id r _ Hs Hg _ _ _); [done..|].
  rewrite (unstarted_slot id r (proj1 (tok_rec _ Hok _ _ Hg)) Hgate). unfold slot. simpl. by rewrite Ho.
Qed.

Lemma take_direct_queue id st : direct_queue (take_record id st).1 = direct_queue st.
Proof.
  unfold take_record. destruct (get_record st id); [|done]. destruct (rec_gate _); [|done].
  cbn [negb]. cbv zeta. by destruct (rec_resolved _).
Qed.

Lemma fine_next_direct ids st :
  fine st -> (forall i, i ∈ ids -> i ∈ direct_queue st) -> fine (next_direct_from ids st).1.
Proof.
  revert st. induction ids as [|id ids IH]; intros st Hf Hin; cbn [next_direct_from].
  - apply fine_direct_queue; [done|]. intros i Hi. by apply elem_of_nil in Hi.
  - pose proof (fine_take_direct id st Hf (Hin _ ltac:(left))) as Ht.
    pose proof (take_direct_queue id st) as Hq.
    destruct (take_record id st) as [st' []]; cbn [fst] in *.
    + apply fine_direct_queue; [done|]. rewrite Hq. intros i Hi. apply Hin. by right.
    + apply IH; [done|]. rewrite Hq. intros i Hi. apply Hin. by right.
Qed.

Lemma fine_direct_down st : fine st -> fine (direct_down st).
Proof.
  intros Hf. apply (fine_quiet st); [done|done|].
  destruct Hf as (_ & _ & []). split; try done.
  change (direct_running (direct_down st)) with (direct_running st - 1)%N. lia.
Qed.

Lemma fine_start_direct st : fine st -> fine (start_direct ports env st).1.
Proof.
  intros Hf. unfold start_direct, next_direct.
  pose proof (fine_next_direct (direct_queue st) st Hf ltac:(done)) as Hn.
  destruct (next_direct_from (direct_queue st) st) as [st' [id|]]; cbn [fst] in *;
    [|by apply fine_direct_down].
  destruct (env_spawn env id); [|done]. by apply fine_settle, fine_direct_down.
Qed.

Lemma fine_schedule_direct fuel st : fine st -> fine (schedule_direct ports limits env fuel st).1.
Proof.
  revert st. induction fuel as [|fuel IH]; intros st Hf; cbn [schedule_direct]; [done|].
  destruct (_ && _) eqn:Hc; [|done]. apply andb_true_iff in Hc as [Hc%N.ltb_lt _].
  set (st1 := st <| direct_running := _ |>). assert (Hf1 : fine st1).
  { apply (fine_quiet st); [done|done|]. destruct Hf as (_ & _ & []).
    split; try done. change (direct_running st1) with (direct_running st + 1)%N. lia. }
  pose proof (fine_start_direct st1 Hf1) as H1. destruct (start_direct ports env st1) as [st2 out].
  pose proof (IH st2 H1) as H2. by destruct (schedule_direct _ _ _ _ _).
Qed.

(** *** Queued operations *)

Lemma length_remove_index i (l : list N) : length (remove_index i l) <= length l.
Proof. unfold remove_index. rewrite length_app, length_take, length_drop. lia. Qed.

Lemma fine_queue l st :
  fine st -> length l <= length (queue st) -> fine (st <| queue := l |>).
Proof.
  intros Hf Hl. apply (fine_quiet st); [done|done|].
  destruct Hf as (_ & _ & []). split; try done.
  change (queue (st <| queue := l |>)) with l. lia.
Qed.

(** The counts of an operation about to start. *)
Lemma room_start ws class st :
  ok st -> (running st < running_operations limits)%N -> admits (busy_of st ws) class = true ->
  room [(ws, class)] (st <| running := (running st + 1)%N |>
                         <| busy := <[ws := busy_change (busy_of st ws) class true]> (busy st) |>).
Proof.
  intros [] Hr Ha. set (st' := st <| running := _ |> <| busy := _ |>).
  assert (Hb : forall ws', busy_of st' ws' =
    if decide (ws' = ws) then busy_change (busy_of st ws) class true else busy_of st ws').
  { intros ws'. apply (busy_of_insert st). }
  split; try done.
  - intros ws' class'. rewrite Hb. specialize (so_busy0 ws' class').
    change (slots st') with (slots st). rewrite slot_count_app, slot_count_one. simpl app in so_busy0.
    destruct (decide (ws' = ws)) as [->|Hw]; [rewrite busy_change_count|];
      repeat case_decide; simplify_eq; lia.
  - intros ws'. rewrite Hb. case_decide; [by apply busy_ok_start|done].
  - change (running st') with (running st + 1)%N. change (slots st') with (slots st).
    rewrite length_app. simpl length in *. lia.
  - change (running st') with (running st + 1)%N. lia.
Qed.

Lemma fine_schedule_operations fuel index blocked st :
  fine st -> fine (schedule_operations ports limits env fuel index blocked st).1.
Proof.
  revert index blocked st. induction fuel as [|fuel IH]; intros index blocked st Hf;
    cbn [schedule_operations]; [done|].
  destruct (running st <? running_operations limits)%N eqn:Hr; [apply N.ltb_lt in Hr|done].
  destruct (queue st !! index) as [id|]; [|done]. cbv zeta.
  pose proof (fine_queue (remove_index index (queue st)) st Hf (length_remove_index _ _)) as Hq.
  destruct (get_record st id) as [r|] eqn:Hg; [|by apply IH].
  destruct (rec_operation r) as [[op class]|] eqn:Ho; [|by apply IH].
  destruct (rec_resolved r) as [w|] eqn:Hw; [|by apply IH].
  destruct (exclusive class && _).
  { set (oc := failed_before_start _ _ _ _). pose proof (fine_settle id oc _ Hq) as H1.
    destruct (settle ports id oc _) as [st1 out1]. pose proof (IH index blocked st1 H1) as H2.
    by destruct (schedule_operations _ _ _ _ _ _ st1). }
  destruct (_ || _) eqn:Hb; [by apply IH|]. apply orb_false_iff in Hb as [_ Hb%negb_false_iff].
  set (removed := st <| queue := _ |>) in *. set (started := removed <| running := _ |> <| busy := _ |>).
  assert (Hroom : room [(workspace w, class)] started).
  { apply (room_start (workspace w) class removed); [apply Hq|done|done]. }
  assert (Hst : fine started).
  { apply (fine_quiet removed); [done|done|]. by eapply room_less. }
  assert (H1 : fine (start_operation ports env id started).1).
  { apply (fine_step started); [done|apply accounts_start_operation|].
    apply (slots_start_operation id (workspace w) class); [apply Hst|done|].
    intros r0 Hg0. change (get_record st id = Some r0) in Hg0. simplify_eq. eauto. }
  destruct (start_operation ports env id started) as [st1 out1]. pose proof (IH index blocked st1 H1) as H2.
  by destruct (schedule_operations _ _ _ _ _ _ st1).
Qed.

Lemma fine_schedule st : fine st -> fine (schedule ports limits env st).1.
Proof.
  intros Hf. unfold schedule.
  pose proof (fine_schedule_operations (S (length (queue st))) 0 ∅ st Hf) as H1.
  destruct (schedule_operations _ _ _ _ _ _ _) as [st1 out1].
  pose proof (fine_schedule_direct (S (length (direct_queue st1))) st1 H1) as H2.
  by destruct (schedule_direct _ _ _ _ _).
Qed.

(** *** Admission *)

(** A step that takes in the [new] calls. *)
Definition fine_new (new : calls) st : Prop :=
  table_ok st /\ (forall lane, (count_lane lane (waiting st ++ new) <= counter lane st)%N) /\ ok st.

Lemma fine_take new st p : fine_new new st -> accounts new st p -> ok p.1 -> fine p.1.
Proof.
  intros (H1 & H2 & _) Ha Hs. destruct (Ha H1 H2) as (B1 & _ & B3 & B4). split_and!; [done| |done].
  intros lane. specialize (H2 lane). specialize (B4 lane).
  rewrite (count_lane_perm _ _ _ B3), count_lane_app in H2. lia.
Qed.

Lemma ok_same st st' : slot_part st' = slot_part st -> ok st -> ok st'.
Proof. apply slots_room_part. Qed.

Lemma evict_slots st :
  table_ok st -> ok st -> ok (evict st).1 /\
  ((evict st).2 = true -> (table_entries (evict st).1 + 1 = table_entries st)%N) /\
  queue (evict st).1 = queue st.
Proof.
  intros Hok Hs. unfold evict.
  destruct (find_delivered st (retained st)) as [id|] eqn:Hf; [|by split_and!].
  apply find_delivered_in in Hf as [Hin [r Hg]].
  assert (Hph : rec_phase r = PhTerminal) by (destruct (tok_retained _ Hok _ Hin); naive_solver).
  set (st1 := st <| retained := _ |>). cbn [fst snd].
  assert (Hs1 : ok st1) by (by eapply ok_same; [|exact Hs]).
  assert (Hsl : slot id r = []) by (unfold slot; by rewrite Hph).
  destruct (rok_done _ (proj1 (tok_rec _ Hok _ _ Hg)) Hph) as (_ & _ & _ & _ & Ht).
  pose proof (discard_slot_part st1 id r Hg) as Hp. unfold slot_part in Hp.
  injection Hp as _ _ _ E4 _ _ E7 _. rewrite Ht in E7. split_and!.
  - by apply (slots_discard _ _ _ r).
  - intros _. rewrite E7. change (table_entries st1) with (table_entries st). unfold saturating_sub.
    assert (1 <= table_entries st)%N; [|lia]. rewrite (so_table _ _ _ Hs).
    destruct (gather_present (fun id r => if rec_in_table r then [id] else []) (records st) id r Hg)
      as (rest & T1 & _). unfold tabled. rewrite T1, Ht. simpl. lia.
  - exact E4.
Qed.

(** An operation passes the refusals only with room in queue and table. *)
Lemma admission_room class resolved st :
  table_ok st -> ok st ->
  let p := admission_refusal limits env class resolved st in
  ok p.1 /\ (p.2 = None -> (N.of_nat (length (queue p.1)) < queued_operations limits)%N /\
                          (table_entries p.1 < operation_table limits)%N).
Proof.
  intros Hok Hs. cbv zeta. unfold admission_refusal.
  destruct (is_live _ _); [done|]. destruct (exclusive class && _); [done|].
  destruct (_ <=? _)%N eqn:Hq; [done|]. apply N.leb_gt in Hq.
  destruct (operation_table limits <=? table_entries st)%N eqn:Ht; [|by apply N.leb_gt in Ht].
  destruct (evict_slots st Hok Hs) as (H1 & H2 & H3). pose proof (so_entries _ _ _ Hs) as He.
  destruct (evict st) as [st' []]; cbn [fst snd] in *; [|done]. split; [done|]. intros _.
  rewrite H3. specialize (H2 eq_refl). split; [done|lia].
Qed.

(** The admitted record joins the table. *)
Lemma slots_admitted id r op class resolved st st' :
  table_ok st -> ok st -> get_record st id = Some r -> rec_phase r = Received ->
  rec_operation r = Some (op, class) ->
  (N.of_nat (length (queue st)) < queued_operations limits)%N ->
  (table_entries st < operation_table limits)%N ->
  slot_part st' = (bt_insert (records st) id (admitted resolved r), busy st, running st,
    queue st ++ [id], direct_queue st, direct_running st, (table_entries st + 1)%N, highest_call st) ->
  ok st'.
Proof.
  intros Hok [] Hg Hph Hop Hq Ht Hp. unfold slot_part in Hp. injection Hp as E1 E2 E3 E4 E5 E6 E7 E8.
  pose proof (proj1 (tok_rec _ Hok _ _ Hg)) as Hr.
  destruct (gather_present slot (records st) id r Hg) as (rest & S1 & S2 & _).
  destruct (gather_present (fun id r => if rec_in_table r then [id] else []) (records st) id r Hg)
    as (rest' & T1 & T2 & _).
  assert (Hsl : slots st' ≡ₚ slots st).
  { unfold slots. rewrite E1, S2, S1. unfold slot. by rewrite Hph. }
  assert (Htb : length (tabled st') = S (length (tabled st))).
  { unfold tabled. rewrite E1, T2, T1, (rok_fresh _ Hr Hph). done. }
  split; unfold busy_of; rewrite ?E2, ?E3, ?E4, ?E5, ?E6, ?E7, ?E8; try done.
  - intros ws c. simpl. rewrite (slot_count_perm _ _ _ _ Hsl). apply so_busy0.
  - simpl. rewrite Hsl. apply so_total0.
  - rewrite length_app. simpl. lia.
  - rewrite Htb, so_table0. lia.
  - lia.
  - intros i Hi. destruct (so_waiting0 i Hi) as [Hhi Hri]. split; [done|]. intros r0.
    unfold get_record. rewrite E1. destruct (decide (i = id)) as [->|Hne].
    + specialize (Hri _ Hg). congruence.
    + rewrite bt_get_insert_ne by done. apply Hri.
Qed.

Lemma fine_admitted id r op class resolved st o :
  fine st -> get_record st id = Some r -> rec_phase r = Received ->
  rec_operation r = Some (op, class) -> out_target o = id -> out_lane o = LaneCall ->
  (N.of_nat (length (queue st)) < queued_operations limits)%N ->
  (table_entries st < operation_table limits)%N ->
  let st2 := st <| table_entries := (table_entries st + 1)%N |>
                <| requests := <[request_id resolved := id]> (requests st) |> in
  let p := if bool_decide (call_mode (rec_call r) = Submit)
           then (answered_on id LaneCall (set_record st2 id (admitted resolved r)), [o])
           else (set_record st2 id (admitted resolved r), []) in
  fine (p.1 <| queue := queue p.1 ++ [id] |>).
Proof.
  intros Hf Hg Hph Hop Ho1 Ho2 Hq Ht. cbv zeta. set (st2 := st <| table_entries := _ |> <| requests := _ |>).
  pose proof (proj1 (tok_rec _ (proj1 Hf) _ _ Hg)) as Hr.
  pose proof (accounts_frame [] st st2 _ ltac:(done)
    (accounts_admitted id r op class resolved st2 o Hg Hr Hph Hop Ho1 Ho2)) as Ha.
  destruct Hf as (Hok & Hc & Hs). set (p := if bool_decide _ then _ else _) in *.
  assert (Hsp : slot_part (p.1 <| queue := queue p.1 ++ [id] |>) =
    (bt_insert (records st) id (admitted resolved r), busy st, running st,
     queue st ++ [id], direct_queue st, direct_running st, (table_entries st + 1)%N, highest_call st)).
  { unfold p. by destruct (bool_decide _). }
  destruct p as [st3 out]. cbn [fst] in *.
  refine (fine_step st (st3 <| queue := _ |>, out) (conj Hok (conj Hc Hs)) (accounts_quiet _ _ _ _ _ Ha _) _);
    [done|]. by eapply slots_admitted.
Qed.

Lemma fine_admit id found st : fine st -> fine (admit_call ports limits env id found st).1.
Proof.
  intros Hf. unfold admit_call. destruct (get_record st id) as [r|] eqn:Hg; [|done].
  destruct (bool_decide (rec_phase r = Received)) eqn:Hph; [|done].
  apply bool_decide_eq_true in Hph. cbn [negb].
  destruct found as [[resolved|failure]|], (g_cancelled (rec_controls r)); try by apply fine_settle.
  destruct (rec_operation r) as [[op class]|] eqn:Hop; cycle 1.
  - apply fine_schedule. set (r' := r <| rec_resolved := _ |> <| rec_phase := _ |>).
    pose proof (tok_rec _ (proj1 Hf) _ _ Hg) as [Hr Hid].
    assert (Hok : ok (set_record st id r')).
    { apply (slots_upd _ _ _ r); [apply Hf|done|done|done|]. unfold slot, r'. simpl. by rewrite Hph. }
    apply (fine_step st (_, [])); [done|eapply accounts_quiet; [apply (accounts_upd st id r r')|]|].
    + done.
    + intros [K1 K2 K3 K4 K5 K6 K7]. split; try done. unfold r'. simpl. split; [done|]. intros _.
      apply K3. by rewrite Hph.
    + done.
    + rewrite Hph. simpl. lia.
    + done.
    + done.
    + cbn [fst]. destruct Hok as [H1 H2 H3 H4 H5 H6 H7 H8 H9]. split; try done.
      intros i. change (i ∈ direct_queue st ++ [id] -> (i <= highest_call st)%N /\
        forall r0, get_record (set_record st id r') i = Some r0 -> rec_operation r0 = None).
      intros [Hi|Hi]%elem_of_app; [by apply H9|]. apply list_elem_of_singleton in Hi as ->.
      split; [done|]. intros r0. rewrite get_set_eq. intros [= <-]. exact Hop.
  - pose proof (accounts_admission_refusal limits env class resolved st) as Ha.
    pose proof (admission_refusal_keeps limits env class resolved st id r (proj1 Hf) Hg) as Hk.
    rewrite Hph in Hk. specialize (Hk ltac:(done)).
    pose proof (admission_room class resolved st (proj1 Hf) (proj2 (proj2 Hf))) as Hroom. cbv zeta in Hroom.
    destruct (admission_refusal limits env class resolved st) as [st1 [error|]]; cbn [fst snd] in *.
    { apply fine_settle. exact (fine_step st (st1, []) Hf Ha (proj1 Hroom)). }
    destruct Hroom as [Hok1 Hroom]. destruct (Hroom eq_refl) as [Hq Ht].
    pose proof (fine_step st (st1, []) Hf Ha Hok1) as Hf1. cbn [fst] in Hf1. cbv zeta.
    pose proof (fine_admitted id r op class resolved st1
      (reply ports id LaneCall (ports_accepted ports (rec_call r) resolved op)) Hf1 Hk Hph Hop
      eq_refl eq_refl Hq Ht) as Hf2. cbv zeta in Hf2. revert Hf2.
    set (st2 := st1 <| table_entries := _ |> <| requests := _ |>).
    rewrite (Hk : get_record st2 id = Some r). fold (admitted resolved r).
    destruct (bool_decide _); cbn [fst snd]; intros Hf2; apply fine_schedule in Hf2;
      by destruct (schedule _ _ _ _).
Qed.

Lemma fine_settle_schedule id outcome st :
  fine st ->
  fine (let '(st1, out1) := settle ports id outcome st in
        let '(st2, out2) := schedule ports limits env st1 in (st2, out1 ++ out2)).1.
Proof.
  intros Hf. apply (fine_settle id outcome) in Hf. destruct (settle ports id outcome st) as [st1 out1].
  apply fine_schedule in Hf. by destruct (schedule _ _ _ _).
Qed.

Lemma fine_worker_reports id outcome st :
  fine st -> fine (worker_reports ports limits env id outcome st).1.
Proof.
  intros Hf. unfold worker_reports. set (st0 := st <| unflushed := _ |>).
  assert (Hf0 : fine st0).
  { destruct Hf as (H1 & H2 & H3). split_and!; [by destruct H1; split| |by eapply ok_same; [|exact H3]].
    intros l. specialize (H2 l). by destruct l. }
  by apply fine_settle_schedule.
Qed.

(** *** Receipt *)

Lemma ok_create call class st :
  ok st -> get_record st (call_id call) = None -> call_id call ∉ direct_queue st ->
  ok (create ports limits call class st).
Proof.
  intros [] Hg Hnq. set (st' := create ports limits call class st). set (id := call_id call) in *.
  assert (Hsp : exists r, slot_part st' = (bt_insert (records st) id r, busy st, running st, queue st,
    direct_queue st, direct_running st, table_entries st, highest_call st) /\
    slot id r = [] /\ rec_in_table r = false).
  { destruct class as [[]|]; eexists; (split; [reflexivity|done]). }
  destruct Hsp as (r & Hp & Hsl & Htb). unfold slot_part in Hp. injection Hp as E1 E2 E3 E4 E5 E6 E7 E8.
  assert (Hs : slots st' ≡ₚ slots st) by (unfold slots; by rewrite E1, gather_fresh, Hsl).
  assert (Ht : tabled st' ≡ₚ tabled st) by (unfold tabled; by rewrite E1, gather_fresh, Htb).
  split; unfold busy_of; rewrite ?E2, ?E3, ?E4, ?E5, ?E6, ?E7, ?E8; try done.
  - intros ws c. simpl. rewrite (slot_count_perm _ _ _ _ Hs). apply so_busy0.
  - simpl. rewrite Hs. apply so_total0.
  - by rewrite Ht.
  - intros i Hi. destruct (so_waiting0 i Hi) as [Hhi Hri]. split; [done|]. intros r0.
    unfold get_record. rewrite E1, bt_get_insert_ne; [apply Hri|]. by intros ->.
Qed.

Lemma ok_read_events now id events st : ok st -> ok (read_events ports limits now id events st).1.
Proof.
  intros Hs. unfold read_events.
  destruct (find_operation _ _) as [owner|[code message]]; [|by eapply ok_same; [|exact Hs]].
  destruct (_ ≫= _); [|by eapply ok_same; [|exact Hs]].
  destruct events; [|by eapply ok_same; [|exact Hs]].
  destruct (_ || _ || _); by eapply ok_same; [|exact Hs].
Qed.

Lemma ok_view id operation b st : ok st -> ok (view ports id operation b st).1.
Proof.
  intros Hs. unfold view.
  destruct (find_operation _ _) as [owner|[code message]]; [|by eapply ok_same; [|exact Hs]].
  destruct (get_record st owner) as [r|] eqn:Hg; [|by eapply ok_same; [|exact Hs]].
  destruct (rec_outcome r); [by eapply ok_same; [|exact Hs]|]. cbv zeta. cbn [fst].
  set (r' := if b then _ else _). apply (ok_same (set_record st owner r')); [done|].
  apply (slots_upd _ _ _ r); try done; unfold r'; by destruct b.
Qed.

Lemma ok_release id operation st :
  ok st -> ok (release ports id operation st).1.
Proof.
  intros Hs. unfold release. cbv zeta.
  assert (H1 : ok (answered_on id LaneCall st)) by (by eapply ok_same; [|exact Hs]).
  destruct (find_operation _ _) as [owner|[code message]]; [|done].
  destruct (get_record (answered_on id LaneCall st) owner) as [r|] eqn:Hg; [|done].
  destruct (bool_decide _) eqn:Hph; [|done]. apply bool_decide_eq_true in Hph. cbn [negb fst].
  apply (slots_discard _ _ _ r); try done. unfold slot. by rewrite Hph.
Qed.

Lemma length_filter_le (P : N -> Prop) `{!forall x, Decision (P x)} (l : list N) :
  length (filter P l) <= length l.
Proof. induction l as [|x l IH]; [done|]. rewrite filter_cons. case_decide; simpl; lia. Qed.

(** A queued record that is cancelled leaves the queues. *)
Lemma fine_cancel_queued id owner r st :
  fine_new [(id, LaneControl)] st -> get_record st owner = Some r -> rec_phase r <> PhTerminal ->
  let st1 := set_record st owner (cancel_record r id) in
  fine (st1 <| queue := filter (fun q => q <> owner) (queue st1) |>
            <| direct_queue := filter (fun q => q <> owner) (direct_queue st1) |>).
Proof.
  intros Hf Hg Hph. cbv zeta. set (r' := cancel_record r id).
  set (st2 := _ <| queue := _ |> <| direct_queue := _ |>).
  assert (Hset : ok (set_record st owner r')) by (by apply (slots_upd _ _ _ r); [apply Hf|..]).
  refine (fine_take _ _ (st2, []) Hf (accounts_quiet _ _ (set_record st owner r') _ _
    (accounts_cancel_record id owner r st Hg Hph) _) _); [done|]. cbn [fst].
  destruct Hset. split; try done.
  - assert (Hl : length (queue st2) <= length (queue st)) by apply length_filter_le.
    change (queue (set_record st owner r')) with (queue st) in so_queue0. lia.
  - intros i. change (direct_queue st2) with (filter (fun q => q <> owner) (direct_queue st)).
    intros [_ Hi]%list_elem_of_filter. by apply so_waiting0.
Qed.

Lemma fine_cancel id target st :
  fine_new [(id, LaneControl)] st -> fine (cancel ports limits env id target st).1.
Proof.
  intros Hf. pose proof (accounts_cancel ports limits env id target st) as Hacc. unfold cancel in *.
  destruct (cancel_target id target st) as [owner|[code message]] eqn:Ht; cycle 1.
  { apply (fine_take _ _ _ Hf Hacc). eapply ok_same; [|apply Hf]. done. }
  destruct (cancel_target_record _ _ _ _ (proj1 Hf) Ht) as [r Hg]. cbv zeta in *.
  set (st1 := st <| others := _ |>) in *. change (get_record st owner) with (get_record st1 owner) in Hg.
  assert (Hf1 : fine_new [(id, LaneControl)] st1).
  { destruct Hf as (H1 & H2 & H3). split_and!; [by destruct H1; split| |by eapply ok_same; [|exact H3]].
    intros l. specialize (H2 l). by destruct l. }
  rewrite Hg in *. assert (Hset : ok (set_record st1 owner (cancel_record r id))).
  { by apply (slots_upd _ _ _ r); [apply Hf1|..]. }
  destruct (rec_phase r) eqn:Hph.
  - exact (fine_take _ _ _ Hf Hacc Hset).
  - apply fine_settle_schedule, (fine_cancel_queued id owner r st1); [done..|by rewrite Hph].
  - apply fine_settle_schedule, (fine_cancel_queued id owner r st1); [done..|by rewrite Hph].
  - exact (fine_take _ _ _ Hf Hacc Hset).
  - apply (fine_take _ _ _ Hf Hacc). eapply ok_same; [|apply Hf1]. done.
Qed.

Lemma ok_dispatch now call request st :
  fine_new [(call_id call, request_lane request)] st ->
  get_record st (call_id call) = None -> call_id call ∉ direct_queue st ->
  ok (dispatch ports limits env now call (request_lane request) request st).1.
Proof.
  intros Hf Hg Hnq. pose proof (proj2 (proj2 Hf)) as Hs.
  destruct request; cbn [dispatch replies_only fst]; try done.
  - by apply ok_create.
  - by apply ok_create.
  - by apply ok_read_events.
  - by apply ok_view.
  - by apply ok_view.
  - by apply fine_cancel.
  - by apply ok_release.
  - cbv zeta. destruct (close_report_ _); (eapply ok_same; [|exact Hs]; done).
Qed.

Lemma ok_receive now call st st' res :
  lanes_agree ports -> fine st -> receive ports limits env now call st = (st', res) -> ok st'.
Proof.
  intros Hl (Hok & Hc & Hs). unfold receive. cbv zeta. destruct (_ <=? _)%N eqn:Hid; [by intros [= <- _]|].
  apply N.leb_gt in Hid. set (st1 := st <| highest_call := _ |>).
  assert (Hs1 : ok st1).
  { destruct Hs. split; try done. intros i Hi. destruct (so_waiting0 i Hi) as [Hhi Hri]. split; [|done].
    change (highest_call st1) with (call_id call). lia. }
  assert (Hnq : call_id call ∉ direct_queue st1).
  { intros Hin. destruct (so_waiting _ _ _ Hs _ Hin). lia. }
  assert (Hg : get_record st1 (call_id call) = None).
  { destruct (get_record st1 (call_id call)) as [r|] eqn:Hg; [|done].
    destruct (tok_rec _ Hok _ _ Hg) as [_ ?]. lia. }
  assert (Hok1 : table_ok st1).
  { destruct Hok as [K1 K2 K3]. split; [|done..]. intros i r (? & ?)%K1. split; [done|].
    change (highest_call st1) with (call_id call). lia. }
  assert (Hc1 : covered st1) by (intros lane; specialize (Hc lane); by destruct lane).
  clearbody st1. destruct (ended st1); [by intros [= <- _]|].
  destruct (ports_classify ports call) as [request|error] eqn:Hcls; [|by intros [= <- _]].
  destruct (closing st1 && _); [by intros [= <- _]|].
  destruct (lane_full _ _ _); [by intros [= <- _]|]. rewrite (Hl _ _ Hcls).
  set (st2 := count_call (request_lane request) st1).
  assert (Hf2 : fine_new [(call_id call, request_lane request)] st2).
  { split_and!.
    - eapply table_ok_part, Hok1. unfold st2. by destruct (request_lane request).
    - intros l. specialize (Hc1 l). rewrite count_lane_app.
      change [(call_id call, request_lane request)] with (on_lane (request_lane request) [call_id call]).
      rewrite count_lane_on. replace (waiting st2) with (waiting st1) by (unfold st2; by destruct (request_lane request)).
      unfold st2. destruct l, (request_lane request); cbn -[N.add count_lane] in *; case_decide; try done; lia.
    - eapply ok_same, Hs1. unfold st2. by destruct (request_lane request). }
  pose proof (ok_dispatch now call request st2 Hf2) as Hd.
  destruct (dispatch _ _ _ _ _ _ _ _) as [st3 rx]. intros [= <- _]. apply Hd; unfold st2;
    by destruct (request_lane request).
Qed.

(** *** Views, reads and closure *)

Lemma ok_mark_delivered marks st : ok st -> ok (mark_delivered marks st).
Proof.
  unfold mark_delivered. revert st. induction marks as [|[i v] marks IH]; intros st Hs; [done|].
  cbn [foldl]. apply IH. cbn [fst snd]. destruct (get_record st i) as [r|] eqn:Hg; [|done].
  apply (slots_upd _ _ _ r); try done; by destruct v.
Qed.

Lemma reads_slot_part (ready kept : list Held) st :
  slot_part ((foldl (fun st h => answered_on (held_call h) LaneCall st) st ready) <| held := kept |>) =
  slot_part st.
Proof.
  etransitivity; [|apply (answered_all_slot (held_call <$> ready) LaneCall st)].
  replace (foldl _ st ready) with (foldl (fun st c => answered_on c LaneCall st) st (held_call <$> ready));
    [done|].
  revert st. induction ready; intros st; simpl; auto.
Qed.

Lemma ok_cancel_controls id st : ok st -> ok (cancel_controls id st).
Proof.
  intros Hs. unfold cancel_controls. destruct (get_record st id) as [r|] eqn:Hg; [|done].
  by apply (slots_upd _ _ _ r).
Qed.

Lemma ok_cancel_all ids st : ok st -> ok (foldl (fun st id => cancel_controls id st) st ids).
Proof.
  revert st. induction ids as [|i ids IH]; intros st Hs; [done|]. cbn [foldl].
  by apply IH, ok_cancel_controls.
Qed.

Lemma ok_settle_cancelled ids st : ok st -> ok (settle_cancelled ports ids st).1.
Proof.
  revert st. induction ids as [|id ids IH]; intros st Hs; cbn [settle_cancelled]; [done|].
  destruct (get_record st id) as [r|]; [|by apply IH]. set (oc := cancelled_before_start _ _ _).
  pose proof (slots_settle id oc _ (ok_cancel_controls id st Hs)) as H1.
  destruct (settle ports id oc _) as [st1 out1]. specialize (IH st1 H1).
  by destruct (settle_cancelled ports ids st1).
Qed.

Lemma ok_close_settle st : ok st -> ok (close_settle ports st).1.
Proof.
  intros Hs. unfold close_settle. cbv zeta. set (st1 := st <| unflushed := _ |> <| pending := _ |>).
  assert (H1 : ok st1) by (by eapply ok_same; [|exact Hs]).
  pose proof (ok_settle_cancelled (not_started st1) st1 H1) as H2.
  destruct (settle_cancelled ports (not_started st1) st1) as [st2 out]. cbn [fst] in *.
  assert (H3 : ok (st2 <| direct_queue := [] |>)).
  { destruct H2. split; try done. intros i Hi. by apply elem_of_nil in Hi. }
  by apply ok_cancel_all.
Qed.

Lemma ok_settle_detached thread ids st : ok st -> ok (settle_detached ports thread ids st).1.
Proof.
  revert st. induction ids as [|id ids IH]; intros st Hs; cbn [settle_detached]; [done|].
  destruct (get_record st id) as [r|] eqn:Hg; [|by apply IH].
  destruct (ports_detached _ _ _) as [failure result_]. cbv zeta.
  set (st0 := set_record st id _). set (st1 := st0 <| detached_workers := _ |>).
  assert (H1 : ok st1).
  { apply (ok_same st0); [done|]. by apply (slots_upd _ _ _ r). }
  set (oc := {| oc_terminal := _ |}). pose proof (slots_settle id oc st1 H1) as H2.
  destruct (settle ports id oc st1) as [st2 out2]. specialize (IH st2 H2).
  by destruct (settle_detached ports thread ids st2).
Qed.

Lemma ok_detach_all thread st : ok st -> ok (detach_all ports limits thread st).1.
Proof.
  intros Hs. unfold detach_all. pose proof (ok_settle_detached thread (running_calls st) st Hs) as H1.
  destruct (settle_detached ports thread (running_calls st) st) as [st1 out]. cbv zeta. cbn [fst] in *.
  eapply ok_same, H1. apply reads_slot_part.
Qed.

Lemma ok_report_all replies st : ok st -> ok (report_all ports replies st).1.
Proof.
  intros Hs. unfold report_all. cbv zeta. destruct replies; cbn [fst].
  - eapply ok_same, Hs. by rewrite answered_all_slot.
  - by eapply ok_same; [|exact Hs].
Qed.

End keeping.

(** ** Every reachable state *)

Section reached.
Context {Failure : Type} (ports : HostPorts Failure) (limits : HostLimits).
Implicit Types (s : Sys Failure).

Lemma init_slots : slots_ok limits (default_state Failure).
Proof.
  assert (Hb : forall ws, busy_of (default_state Failure) ws = default_busy).
  { intros ws. unfold busy_of. simpl. by rewrite lookup_empty. }
  split; [|intros ws; rewrite Hb; split; simpl; lia|simpl; lia..| |simpl; lia|simpl; lia|].
  - intros ws class. rewrite Hb. by destruct class.
  - done.
  - intros id Hid. by apply elem_of_nil in Hid.
Qed.

Lemma fine_count_up (st : State Failure) : fine limits st -> fine limits (count_up st).
Proof.
  intros (H1 & H2 & H3). split_and!; [by destruct H1; split| |by eapply ok_same; [|exact H3]].
  intros l. specialize (H2 l). by destruct l.
Qed.

Lemma slots_step s s' :
  lanes_agree ports -> sys_inv s -> slots_ok limits (sys_state s) -> sys_step ports limits s s' ->
  slots_ok limits (sys_state s').
Proof.
  intros Hl Hi Hs Hstep.
  assert (Hf : fine limits (sys_state s)) by (split_and!; [apply Hi|apply Hi|done]).
  assert (Hbegin : slots_ok limits (close_begin (sys_state s)).1).
  { unfold close_begin. destruct (close_started (sys_state s)); [done|]. by eapply ok_same; [|exact Hs]. }
  destruct Hstep as [|? ? ? ? ? ? ? ? Hr|? ? lane| | | |id found env|id outcome env| |thread id payload
    |now| | | | |thread| |].
  - by eapply ok_same; [|exact Hs].
  - by eapply ok_receive.
  - eapply ok_same, Hs. by destruct lane.
  - exact Hbegin.
  - exact Hbegin.
  - by eapply ok_same; [|exact Hs].
  - by apply fine_admit, fine_count_up.
  - by apply fine_worker_reports.
  - change (slots_ok limits (direct_worker_next (sys_state s)).1). unfold direct_worker_next, next_direct.
    pose proof (fine_next_direct limits (direct_queue (sys_state s)) _ Hf ltac:(done)) as Hn.
    destruct (next_direct_from _ _) as [st' [id|]]; [apply Hn|]. by apply fine_direct_down.
  - change (slots_ok limits (worker_event thread id payload (sys_state s))). unfold worker_event.
    destruct (get_record _ _) as [r|]; [|done].
    destruct (append _ _) as [[] ?], (rec_events r); try done. by eapply ok_same; [|exact Hs].
  - eapply ok_same, Hs. etransitivity; [apply reads_slot_part|done].
  - by apply ok_mark_delivered.
  - done.
  - by eapply ok_same; [|exact Hs].
  - by apply ok_close_settle.
  - eapply ok_same; [|by apply (ok_detach_all ports limits thread), Hs]. done.
  - eapply ok_same; [|by apply (ok_report_all ports limits (sys_replies s)), Hs]. done.
  - by eapply ok_same; [|exact Hs].
Qed.

Lemma reachable_slots s :
  lanes_agree ports -> reachable ports limits s -> slots_ok limits (sys_state s).
Proof.
  intros Hl Hr. revert s Hr. refine (rtc_ind_r _ _ _ _); [apply init_slots|].
  intros s s' Hr Hstep IH. eapply slots_step; [done|by eapply reachable_inv|done..].
Qed.

(** Two records, set apart from the others. *)
Lemma slots_two (st : State Failure) id1 id2 r1 r2 :
  id1 <> id2 -> get_record st id1 = Some r1 -> get_record st id2 = Some r2 ->
  exists rest, slots st ≡ₚ slot id1 r1 ++ slot id2 r2 ++ rest.
Proof.
  intros Hne H1 H2. destruct (gather_present slot (records st) id1 r1 H1) as (rest & E1 & _ & E2).
  assert (H2' : bt_get (bt_remove (records st) id1) id2 = Some r2) by (by rewrite bt_get_remove_ne).
  destruct (gather_present slot _ id2 r2 H2') as (rest' & E3 & _ & _).
  exists rest'. unfold slots. by rewrite E1, <- E2, E3.
Qed.

(** The classes that may run in one workspace at a time. *)
Definition together (c1 c2 : OpClass) : bool :=
  match c1, c2 with
  | Fetch, Fetch | Fetch, Push | Push, Fetch => true
  | _, _ => false
  end.

Lemma classes_together (st : State Failure) id1 id2 r1 r2 ws c1 c2 :
  slots_ok limits st -> id1 <> id2 ->
  get_record st id1 = Some r1 -> get_record st id2 = Some r2 ->
  slot id1 r1 = [(ws, c1)] -> slot id2 r2 = [(ws, c2)] -> together c1 c2 = true.
Proof.
  intros Hs Hne H1 H2 S1 S2. destruct (slots_two st id1 id2 r1 r2 Hne H1 H2) as (rest & Hp).
  rewrite S1, S2 in Hp. destruct (so_compat _ _ _ Hs ws) as [B1 B2 B3].
  assert (Hc : forall c, ((if decide (c1 = c) then 1 else 0) + (if decide (c2 = c) then 1 else 0) <=
    busy_count (busy_of st ws) c)%N).
  { intros c. pose proof (so_busy _ _ _ Hs ws c) as Hb. simpl app in Hb.
    rewrite (slot_count_perm _ _ _ _ Hp), !slot_count_app, !slot_count_one in Hb.
    repeat case_decide; simplify_eq; lia. }
  pose proof (Hc Fetch) as HF. pose proof (Hc Push) as HP. pose proof (Hc Write) as HW.
  destruct c1, c2; try done; repeat case_decide; try done; simpl in *; lia.
Qed.

End reached.

(** ** The scheduler *)

Section scheduler.
Context {Failure : Type} (ports : HostPorts Failure) (limits : HostLimits) (env : Env).
Implicit Types (st : State Failure) (r : CallRecord Failure) (outcome : Outcome Failure).

(** What settling and starting change of the queue, of the other records
    and of the busy counts. *)
Definition freed (slots : list (str * OpClass)) st (ws : str) : Busy :=
  match slots with
  | [(ws', class)] => if decide (ws = ws') then busy_change (busy_of st ws) class false else busy_of st ws
  | _ => busy_of st ws
  end.

Record leaves (id : N) st st' : Prop := {
  lv_queue : queue st' = queue st;
  lv_records i : i <> id -> get_record st' i = get_record st i;
}.

Lemma leaves_trans id st1 st2 st3 : leaves id st1 st2 -> leaves id st2 st3 -> leaves id st1 st3.
Proof.
  intros [Q1 R1] [Q2 R2]. split; [congruence|]. intros i Hi. by rewrite R2, R1.
Qed.

Lemma release_slot_busy id r st ws :
  busy_of (release_slot (bool_decide (rec_phase r = PhRunning)) r id st) ws = freed (slot id r) st ws.
Proof.
  unfold release_slot, slot. destruct (rec_resolved r) as [w|]; [|by destruct (rec_phase r), (rec_operation r) as [[]|]].
  set (st1 := if bool_decide (requests st !! _ = _) then _ else _).
  assert (E : forall ws, busy_of st1 ws = busy_of st ws) by (intros; unfold st1; by destruct (bool_decide (requests st !! _ = _))).
  destruct (rec_phase r), (rec_operation r) as [[op class]|]; try apply E.
  etransitivity; [apply (busy_of_insert st1)|]. unfold freed.
  destruct (decide (ws = workspace w)) as [->|]; [|apply E]. f_equal. apply E.
Qed.

Lemma settling_leaves id r outcome st :
  leaves id st (settling id r outcome st) /\
  forall ws, busy_of (settling id r outcome st) ws = freed (slot id r) st ws.
Proof.
  unfold settling. set (st1 := foldl _ (foldl _ _ _) _).
  assert (Hp : slot_part st1 = slot_part (set_record st id (settled r outcome))).
  { unfold st1. rewrite !answered_all_slot. by destruct (rec_events r). }
  unfold slot_part in Hp. injection Hp as E1 E2 _ E4 _ _ _ _. clearbody st1. split.
  - split.
    + transitivity (queue st1); [|by rewrite E4]. unfold release_slot.
      destruct (rec_resolved r); [|done]. destruct (bool_decide (requests _ !! _ = _)), (bool_decide _),
        (rec_operation r) as [[]|]; done.
    + intros i Hi. pose proof (release_slot_part (bool_decide (rec_phase r = PhRunning)) r id st1) as Hp.
      unfold table_part in Hp. injection Hp as R1 _ _ _ _ _. unfold get_record. rewrite R1, E1.
      change (records (set_record st id ?x)) with (bt_insert (records st) id x).
      by rewrite bt_get_insert_ne.
  - intros ws. rewrite release_slot_busy. unfold freed, busy_of. by rewrite E2.
Qed.

Lemma settle_leaves id outcome st :
  leaves id st (settle ports id outcome st).1 /\
  forall ws, busy_of (settle ports id outcome st).1 ws =
    match get_record st id with
    | Some r => if bool_decide (rec_phase r = PhTerminal) then busy_of st ws else freed (slot id r) st ws
    | None => busy_of st ws
    end.
Proof.
  destruct (get_record st id) as [r|] eqn:Hg; [|unfold settle; by rewrite Hg].
  destruct (bool_decide (rec_phase r = PhTerminal)) eqn:Hph.
  { unfold settle. by rewrite Hg, Hph. }
  apply bool_decide_eq_false in Hph. rewrite (settle_open ports id r outcome st Hg Hph).
  destruct (settling_leaves id r outcome st) as [HL HB]. destruct (replied r); cbn [fst].
  { split; [|exact HB]. by destruct HL; split. }
  set (st1 := answered_on id (rec_lane r) (settling id r outcome st)).
  assert (Hg1 : get_record st1 id = Some (settled r outcome)).
  { unfold st1. pose proof (settling_record id r outcome st). by destruct (rec_lane r). }
  pose proof (discard_slot_part st1 id _ Hg1) as Hp. unfold slot_part in Hp.
  injection Hp as E1 E2 _ E4 _ _ _ _. split.
  - destruct HL as [Q R]. split.
    + rewrite E4, <- Q. unfold st1. by destruct (rec_lane r).
    + intros i Hi. unfold get_record. rewrite E1, bt_get_remove_ne by done.
      etransitivity; [|apply (R i Hi)]. unfold st1. by destruct (rec_lane r).
  - intros ws. rewrite <- HB. unfold busy_of. rewrite E2. unfold st1. by destruct (rec_lane r).
Qed.

Lemma set_leaves id r st : leaves id st (set_record st id r).
Proof. split; [done|]. intros i Hi. by apply get_set_ne. Qed.

Lemma start_leaves id r w st :
  get_record st id = Some r -> rec_resolved r = Some w ->
  leaves id st (start_operation ports env id st).1 /\
  forall ws, ws <> workspace w -> busy_of (start_operation ports env id st).1 ws = busy_of st ws.
Proof.
  intros Hg Hw. unfold start_operation, take_record. rewrite Hg.
  destruct (rec_gate r); cbn [negb]; [|by split]. cbv zeta.
  change (rec_resolved (r <| rec_gate := false |>)) with (rec_resolved r). rewrite Hw. cbn [negb].
  set (r' := r <| rec_gate := _ |> <| rec_phase := _ |> <| rec_alive := _ |>).
  destruct (env_spawn env id) as [error|]; [|split; [apply set_leaves|done]].
  unfold spawn_failed. set (oc := {| oc_terminal := _ |}).
  destruct (settle_leaves id oc (set_record st id r')) as [HL HB]. split.
  - eapply leaves_trans; [apply set_leaves|exact HL].
  - intros ws Hne. rewrite HB, get_set_eq. cbn. unfold freed, slot. cbn.
    destruct (rec_operation r) as [[op class]|]; [|done]. rewrite Hw. by rewrite decide_False.
Qed.

(** *** Termination *)

Lemma length_remove_index_eq i (l : list N) x :
  l !! i = Some x -> length (remove_index i l) = length l - 1.
Proof.
  intros Hl%lookup_lt_Some. unfold remove_index. rewrite length_app, length_take, length_drop. lia.
Qed.

Lemma schedule_operations_fuel fuel fuel' index blocked st :
  length (queue st) - index < fuel -> length (queue st) - index < fuel' ->
  schedule_operations ports limits env fuel index blocked st =
  schedule_operations ports limits env fuel' index blocked st.
Proof.
  revert fuel' index blocked st. induction fuel as [|fuel IH]; intros [|fuel'] index blocked st H1 H2;
    try lia. cbn [schedule_operations].
  destruct (running st <? running_operations limits)%N; [|done].
  destruct (queue st !! index) as [id|] eqn:Hq; [|done]. cbv zeta.
  pose proof (length_remove_index_eq _ _ _ Hq) as Hlen. apply lookup_lt_Some in Hq.
  set (removed := st <| queue := _ |>). assert (Hrm : length (queue removed) = length (queue st) - 1) by done.
  destruct (get_record st id) as [r|] eqn:Hg; [|apply IH; rewrite Hrm; lia].
  destruct (rec_operation r) as [[op class]|] eqn:Ho; [|apply IH; rewrite Hrm; lia].
  destruct (rec_resolved r) as [w|] eqn:Hw; [|apply IH; rewrite Hrm; lia].
  destruct (exclusive class && _).
  { set (oc := failed_before_start _ _ _ _). destruct (settle_leaves id oc removed) as [[HL _] _].
    destruct (settle ports id oc removed) as [st1 out1]. cbn [fst] in HL.
    rewrite (IH fuel' index blocked st1); [done|rewrite HL, Hrm; lia..]. }
  destruct (_ || _); [apply IH; lia|]. set (started := removed <| running := _ |> <| busy := _ |>).
  destruct (start_leaves id r w started Hg Hw) as [[HL _] _].
  destruct (start_operation ports env id started) as [st1 out1]. cbn [fst] in HL.
  rewrite (IH fuel' index blocked st1); [done|rewrite HL; change (queue started) with (queue removed);
    rewrite Hrm; lia..].
Qed.

Lemma next_direct_length ids st :
  ids <> [] -> length (direct_queue (next_direct_from ids st).1) < length ids.
Proof.
  revert st. induction ids as [|id ids IH]; intros st Hne; [done|]. cbn [next_direct_from].
  destruct (take_record id st) as [st' []]; [simpl; lia|].
  destruct ids as [|i ids]; [simpl; lia|]. specialize (IH st' ltac:(done)). simpl in *. lia.
Qed.

Lemma settle_direct_queue id outcome st :
  direct_queue (settle ports id outcome st).1 = direct_queue st.
Proof.
  destruct (get_record st id) as [r|] eqn:Hg; [|unfold settle; by rewrite Hg].
  destruct (decide (rec_phase r = PhTerminal)) as [Hph|Hph].
  { unfold settle. by rewrite Hg, bool_decide_true. }
  assert (Hst : direct_queue (settling id r outcome st) = direct_queue st).
  { unfold settling. set (st1 := foldl _ (foldl _ _ _) _).
    assert (Hp : slot_part st1 = slot_part (set_record st id (settled r outcome))).
    { unfold st1. rewrite !answered_all_slot. by destruct (rec_events r). }
    unfold slot_part in Hp. injection Hp as _ _ _ _ E5 _ _ _. clearbody st1.
    transitivity (direct_queue st1); [|by rewrite E5]. unfold release_slot.
    destruct (rec_resolved r); [|done]. destruct (bool_decide (requests _ !! _ = _)), (bool_decide _),
      (rec_operation r) as [[]|]; done. }
  rewrite (settle_open ports id r outcome st Hg Hph). destruct (replied r); cbn [fst]; [done|].
  set (st1 := answered_on id (rec_lane r) (settling id r outcome st)).
  assert (Hg1 : get_record st1 id = Some (settled r outcome)).
  { unfold st1. pose proof (settling_record id r outcome st). by destruct (rec_lane r). }
  pose proof (discard_slot_part st1 id _ Hg1) as Hp. unfold slot_part in Hp.
  injection Hp as _ _ _ _ E5 _ _ _. rewrite E5. unfold st1. by destruct (rec_lane r).
Qed.

Lemma schedule_direct_fuel fuel fuel' st :
  length (direct_queue st) < fuel -> length (direct_queue st) < fuel' ->
  schedule_direct ports limits env fuel st = schedule_direct ports limits env fuel' st.
Proof.
  revert fuel' st. induction fuel as [|fuel IH]; intros [|fuel'] st H1 H2; try lia.
  cbn [schedule_direct]. destruct (_ && _) eqn:Hc; [|done].
  apply andb_true_iff in Hc as [_ Hne%negb_true_iff%bool_decide_eq_false].
  set (st1 := st <| direct_running := _ |>).
  assert (Hlen : length (direct_queue (start_direct ports env st1).1) < length (direct_queue st)).
  { unfold start_direct, next_direct. change (direct_queue st1) with (direct_queue st).
    pose proof (next_direct_length (direct_queue st) st1 Hne) as Hn.
    destruct (next_direct_from (direct_queue st) st1) as [st2 [id|]]; cbn [fst] in *; [|done].
    destruct (env_spawn env id); [|done]. unfold spawn_failed. by rewrite settle_direct_queue. }
  destruct (start_direct ports env st1) as [st2 out2]. cbn [fst] in Hlen.
  rewrite (IH fuel' st2); [done|lia..].
Qed.

(** *** What stays queued *)

(** A queued call with the workspace and class it waits for. *)
Definition queued_op st (id : N) (ws : str) (class : OpClass) : Prop :=
  exists r op w, get_record st id = Some r /\ rec_operation r = Some (op, class) /\
    rec_resolved r = Some w /\ workspace w = ws.

(** The oldest call queued for [ws] is one its busy counts do not admit. *)
Definition held_back st (n : nat) (ws : str) : Prop :=
  exists j id class, j < n /\ queue st !! j = Some id /\ queued_op st id ws class /\
    admits (busy_of st ws) class = false /\
    forall j' id' class', j' < j -> queue st !! j' = Some id' -> ~ queued_op st id' ws class'.

(** The loop has passed the first [index] entries: each waits for a blocked
    workspace, and each blocked workspace is held back. *)
Record passed (index : nat) (blocked : gset str) st : Prop := {
  ps_entry j id : j < index -> queue st !! j = Some id ->
    exists ws class, queued_op st id ws class /\ ws ∈ blocked /\
      exclusive class && env_detached env ws = false;
  ps_blocked ws : ws ∈ blocked -> held_back st index ws;
}.

Lemma queued_op_fun st id ws class ws' class' :
  queued_op st id ws class -> queued_op st id ws' class' -> ws = ws' /\ class = class'.
Proof. intros (r & op & w & ? & ? & ? & ?) (r' & op' & w' & ? & ? & ? & ?). by simplify_eq. Qed.

Lemma lookup_remove_index i j (l : list N) : j < i -> remove_index i l !! j = l !! j.
Proof.
  intros Hj. unfold remove_index. destruct (decide (i <= length l)).
  - rewrite lookup_app_l by (rewrite length_take; lia). by rewrite lookup_take_lt.
  - rewrite take_ge, drop_ge by lia. by rewrite app_nil_r.
Qed.

(** A turn that takes the entry at [index] out, and touches no passed call
    and no blocked workspace. *)
Lemma passed_removed index blocked st st' id :
  passed index blocked st -> queue st' = remove_index index (queue st) ->
  (forall j i, j < index -> queue st !! j = Some i -> i <> id) ->
  (forall i, i <> id -> get_record st' i = get_record st i) ->
  (forall ws, ws ∈ blocked -> busy_of st' ws = busy_of st ws) ->
  passed index blocked st'.
Proof.
  intros [P1 P2] Hq Hne Hr Hb.
  assert (Hlook : forall j, j < index -> queue st' !! j = queue st !! j).
  { intros j Hj. rewrite Hq. by apply lookup_remove_index. }
  assert (Hop : forall j i ws c, j < index -> queue st !! j = Some i ->
    queued_op st' i ws c <-> queued_op st i ws c).
  { intros j i ws c Hj Hi. unfold queued_op. by rewrite (Hr i (Hne j i Hj Hi)). }
  split.
  - intros j i Hj Hi. rewrite Hlook in Hi by done. destruct (P1 j i Hj Hi) as (ws & c & Hop' & ? & ?).
    exists ws, c. split; [|done]. by eapply Hop.
  - intros ws Hws. destruct (P2 ws Hws) as (j & i & c & Hj & Hi & Hop' & Ha & Hfirst).
    exists j, i, c. split_and!; [done|by rewrite Hlook|by eapply Hop|by rewrite Hb|].
    intros j' i' c' Hj' Hi'. rewrite Hlook in Hi' by lia. rewrite (Hop j') by (done || lia). eauto.
Qed.

Lemma passed_skip index blocked st id ws class :
  passed index blocked st -> queue st !! index = Some id -> queued_op st id ws class ->
  exclusive class && env_detached env ws = false ->
  (ws ∈ blocked \/ admits (busy_of st ws) class = false) ->
  passed (S index) ({[ws]} ∪ blocked) st.
Proof.
  intros [P1 P2] Hi Hop Hd Hb. split.
  - intros j i Hj Hji. destruct (decide (j = index)) as [->|].
    + simplify_eq. exists ws, class. split_and!; [done|set_solver|done].
    + destruct (P1 j i ltac:(lia) Hji) as (ws' & c' & ? & ? & ?). exists ws', c'.
      split_and!; [done|set_solver|done].
  - intros ws' Hws'. destruct (decide (ws' ∈ blocked)) as [Hin|Hnin].
    + destruct (P2 ws' Hin) as (j & i & c & ? & ?). exists j, i, c. split; [lia|done].
    + assert (ws' = ws) as -> by set_solver. exists index, id, class.
      destruct Hb as [Hb|Hb]; [done|]. split_and!; [lia|done|done|done|].
      intros j' i' c' Hj' Hi' Hop'. destruct (P1 j' i' Hj' Hi') as (ws2 & c2 & Hop2 & Hin2 & _).
      destruct (queued_op_fun _ _ _ _ _ _ Hop' Hop2) as [-> _]. done.
Qed.

(** The scheduler's outcome: the running limit is reached, or each workspace
    with a queued call is held back at its oldest. *)
Definition conserved st : Prop :=
  (running_operations limits <= running st)%N \/
  forall j id ws class, queue st !! j = Some id -> queued_op st id ws class ->
    held_back st (length (queue st)) ws.

Lemma passed_conserved index blocked st :
  passed index blocked st -> length (queue st) <= index -> conserved st.
Proof.
  intros [P1 P2] Hlen. right. intros j id ws class Hj Hop.
  assert (Hlt : j < length (queue st)) by (by eapply lookup_lt_Some).
  destruct (P1 j id ltac:(lia) Hj) as (ws' & c' & Hop' & Hin & _).
  destruct (queued_op_fun _ _ _ _ _ _ Hop Hop') as [-> _].
  destruct (P2 ws' Hin) as (j0 & i0 & c0 & ? & Hj0 & ?). exists j0, i0, c0.
  split; [|done]. by eapply lookup_lt_Some.
Qed.

(** The queue holds calls that wait: each once, and none that runs. *)
Record waits st : Prop := {
  wt_once : NoDup (queue st);
  wt_slot id r : id ∈ queue st -> get_record st id = Some r -> slot id r = [];
}.

Lemma removed_waits st st' index id :
  waits st -> queue st !! index = Some id -> queue st' = remove_index index (queue st) ->
  (forall i, i <> id -> get_record st' i = get_record st i) -> waits st'.
Proof.
  intros [Hn Hs] Hi Hq Hr. unfold remove_index in Hq.
  rewrite <- (take_drop_middle _ _ _ Hi) in Hn, Hs.
  apply NoDup_app in Hn as (H1 & H2 & H3). apply NoDup_cons in H3 as [H3 H4].
  split; rewrite Hq.
  - apply NoDup_app. split_and!; [done| |done]. intros x Hx. specialize (H2 x Hx). set_solver.
  - intros i r Hin Hg. assert (i <> id) by set_solver. rewrite Hr in Hg by done.
    apply (Hs i r); [set_solver|done].
Qed.

(** The two turns that change records: a refusal and a start. *)
Section turns.
Variables (fuel index : nat) (blocked : gset str) (st : State Failure).
Variables (id : N) (r : CallRecord Failure) (w : Resolved) (class : OpClass).
Hypothesis Hwt : waits st.
Hypothesis Hp : passed index blocked st.
Hypothesis Hq : queue st !! index = Some id.
Hypothesis Hg : get_record st id = Some r.
Hypothesis Hw : rec_resolved r = Some w.
Hypothesis Hop : queued_op st id (workspace w) class.
Hypothesis IH : forall st', waits st' -> passed index blocked st' ->
  length (queue st') = length (queue st) - 1 ->
  conserved (schedule_operations ports limits env fuel index blocked st').1.

Let removed := st <| queue := remove_index index (queue st) |>.

Lemma turn_removed st' :
  leaves id removed st' -> (forall j i, j < index -> queue st !! j = Some i -> i <> id) ->
  (forall ws, ws ∈ blocked -> busy_of st' ws = busy_of st ws) ->
  conserved (schedule_operations ports limits env fuel index blocked st').1.
Proof using Hwt Hp Hq IH.
  intros [LQ LR] Hne Hb. apply IH.
  - by apply (removed_waits st _ index id).
  - by apply (passed_removed _ _ st _ id).
  - rewrite LQ. change (queue removed) with (remove_index index (queue st)).
    rewrite (length_remove_index_eq _ _ _ Hq). lia.
Qed.

Lemma turn_detached outcome :
  exclusive class && env_detached env (workspace w) = true ->
  conserved (let '(st1, out1) := settle ports id outcome removed in
    let '(st2, out2) := schedule_operations ports limits env fuel index blocked st1 in
    (st2, out1 ++ out2)).1.
Proof using Hwt Hp Hq Hg Hop IH.
  intros Hd. destruct (settle_leaves id outcome removed) as [HL HB].
  destruct (settle ports id outcome removed) as [st1 out1]. cbn [fst] in HL, HB.
  pose proof (turn_removed st1 HL) as HT.
  destruct (schedule_operations ports limits env fuel index blocked st1) as [st2 out2]. apply HT.
  - intros j i Hj Hi ->. destruct (ps_entry _ _ _ Hp _ _ Hj Hi) as (ws & c & Hop' & _ & Hd').
    destruct (queued_op_fun _ _ _ _ _ _ Hop Hop') as [<- <-]. congruence.
  - intros ws _. rewrite HB. change (get_record removed id) with (get_record st id). rewrite Hg.
    rewrite (wt_slot _ Hwt id r (list_elem_of_lookup_2 _ _ _ Hq) Hg). by destruct (bool_decide _).
Qed.

Lemma turn_started started :
  queue started = queue removed -> records started = records st ->
  (forall ws, ws <> workspace w -> busy_of started ws = busy_of st ws) ->
  workspace w ∉ blocked ->
  conserved (let '(st1, out1) := start_operation ports env id started in
    let '(st2, out2) := schedule_operations ports limits env fuel index blocked st1 in
    (st2, out1 ++ out2)).1.
Proof using Hwt Hp Hq Hg Hw Hop IH.
  intros EQ ER EB Hnb. assert (Hgs : get_record started id = Some r) by (unfold get_record; by rewrite ER).
  destruct (start_leaves id r w started Hgs Hw) as [[LQ LR] HB].
  destruct (start_operation ports env id started) as [st1 out1]. cbn [fst] in LQ, LR, HB.
  pose proof (turn_removed st1) as HT.
  destruct (schedule_operations ports limits env fuel index blocked st1) as [st2 out2]. apply HT.
  - split; [by rewrite LQ|]. intros i Hi. rewrite LR by done. unfold get_record. by rewrite ER.
  - intros j i Hj Hi ->. destruct (ps_entry _ _ _ Hp _ _ Hj Hi) as (ws & c & Hop' & Hin & _).
    destruct (queued_op_fun _ _ _ _ _ _ Hop Hop') as [<- _]. done.
  - intros ws Hws. assert (ws <> workspace w) by set_solver. by rewrite HB, EB.
Qed.

End turns.

Lemma schedule_operations_conserved fuel index blocked st :
  waits st -> passed index blocked st -> length (queue st) - index < fuel ->
  conserved (schedule_operations ports limits env fuel index blocked st).1.
Proof.
  revert index blocked st. induction fuel as [|fuel IH]; intros index blocked st Hwt Hp Hf; [lia|].
  cbn [schedule_operations].
  destruct (running st <? running_operations limits)%N eqn:Hr; [|left; by apply N.ltb_ge].
  destruct (queue st !! index) as [id|] eqn:Hq; cycle 1.
  { eapply passed_conserved; [exact Hp|]. by apply lookup_ge_None. }
  cbv zeta. pose proof (length_remove_index_eq _ _ _ Hq) as Hlen.
  assert (Hlt : index < length (queue st)) by (by eapply lookup_lt_Some).
  set (removed := st <| queue := _ |>).
  assert (Hwr : waits removed) by (by apply (removed_waits st _ index id)).
  assert (Hno : (forall ws class, ~ queued_op st id ws class) ->
    conserved (schedule_operations ports limits env fuel index blocked removed).1).
  { intros Hno. apply IH; [done| |change (queue removed) with (remove_index index (queue st)); lia].
    apply (passed_removed _ _ st removed id); try done.
    intros j i Hj Hi ->. destruct (ps_entry _ _ _ Hp _ _ Hj Hi) as (ws & c & Hop & _). by eapply Hno. }
  destruct (get_record st id) as [r|] eqn:Hg; cycle 1.
  { apply Hno. intros ws c (r & op & w & ? & _). congruence. }
  destruct (rec_operation r) as [[op class]|] eqn:Ho; cycle 1.
  { apply Hno. intros ws c (r' & op & w & ? & ? & _). congruence. }
  destruct (rec_resolved r) as [w|] eqn:Hw; cycle 1.
  { apply Hno. intros ws c (r' & op' & w & ? & ? & ? & _). congruence. }
  assert (Hop : queued_op st id (workspace w) class) by (by exists r, op, w).
  destruct (exclusive class && env_detached env (workspace w)) eqn:Hd.
  { apply (turn_detached fuel index blocked st id r w class); try done.
    intros st' ? ? Hl. apply IH; [done..|]. rewrite Hl. lia. }
  destruct (bool_decide _ || _) eqn:Hb.
  { apply IH; [done| |lia]. eapply passed_skip; [done..|].
    apply orb_true_iff in Hb as [Hb|Hb]; [left; by apply bool_decide_eq_true in Hb|right].
    by apply negb_true_iff in Hb. }
  apply orb_false_iff in Hb as [Hb _]. apply bool_decide_eq_false in Hb.
  apply (turn_started fuel index blocked st id r w class); try done.
  - intros st' ? ? Hl. apply IH; [done..|]. rewrite Hl. lia.
  - intros ws Hws. unfold busy_of; simpl. by rewrite lookup_insert_ne.
Qed.

End scheduler.

(** ** Sessions to run *)

(** One call submitted and admitted, with [n] replies of its admission. *)
Definition submitted (id method : N) (n : nat) : list (SysEvent unit) :=
  [EvCount (demo_call id method); EvReceive 0 demo_env 0] ++ flush_of 0 ++
  [EvPop; EvAdmit (Some (Ok {| workspace := lit "w"; request_id := [id] |})) demo_env] ++ flush_of n.

(** A fetch and a push run, and a write and a fetch wait behind them. *)
Definition class_events : list (SysEvent unit) :=
  submitted 1 5 1 ++ submitted 2 6 1 ++ submitted 3 9 1 ++ submitted 4 5 1.

Definition class_session : Sys unit :=
  default sys_init (run demo_ports default_host_limits sys_init class_events).

Lemma class_reachable : reachable demo_ports default_host_limits class_session.
Proof. eapply demo_reachable. vm_compute. reflexivity. Qed.

(** ** What the limits and classes allow *)

(** C4: whatever the interleaving, two operations that run in one workspace
    at the same time are two fetches or a fetch and a push: a write runs
    alone, and no two pushes run together. *)
Theorem class_rules {Failure : Type} (ports : HostPorts Failure) (limits : HostLimits) (s : Sys Failure)
    (id1 id2 : N) (r1 r2 : CallRecord Failure) (op1 op2 : str) (c1 c2 : OpClass) (w1 w2 : Resolved) :
  lanes_agree ports -> reachable ports limits s -> id1 <> id2 ->
  get_record (sys_state s) id1 = Some r1 -> get_record (sys_state s) id2 = Some r2 ->
  rec_phase r1 = PhRunning -> rec_phase r2 = PhRunning ->
  rec_operation r1 = Some (op1, c1) -> rec_operation r2 = Some (op2, c2) ->
  rec_resolved r1 = Some w1 -> rec_resolved r2 = Some w2 -> workspace w1 = workspace w2 ->
  together c1 c2 = true.
Proof.
  intros Hl Hr Hne G1 G2 P1 P2 O1 O2 R1 R2 Hw.
  apply (classes_together limits (sys_state s) id1 id2 r1 r2 (workspace w2)); [|done|done|done|..].
  - by apply (reachable_slots ports).
  - unfold slot. by rewrite P1, O1, R1, Hw.
  - unfold slot. by rewrite P2, O2, R2.
Qed.

Lemma class_rules_witness : together Fetch Push = true /\ length (slots (sys_state class_session)) = 2.
Proof.
  split; [|vm_compute; reflexivity].
  eapply (class_rules demo_ports default_host_limits class_session 1%N 2%N _ _ _ _ Fetch Push
    _ _ demo_lanes_agree class_reachable); [done|vm_compute; reflexivity..].
Defined.

(** In every reachable state the operations that run, the queue, the
    operation table and the direct workers are within the limits the session
    was given, and the table's counter is the number of its records. *)
Theorem host_limits_kept {Failure : Type} (ports : HostPorts Failure) (limits : HostLimits) (s : Sys Failure) :
  lanes_agree ports -> reachable ports limits s ->
  (N.of_nat (length (slots (sys_state s))) <= running_operations limits)%N /\
  (N.of_nat (length (queue (sys_state s))) <= queued_operations limits)%N /\
  table_entries (sys_state s) = N.of_nat (length (tabled (sys_state s))) /\
  (table_entries (sys_state s) <= operation_table limits)%N /\
  (direct_running (sys_state s) <= direct_workers limits)%N.
Proof.
  intros Hl Hr. destruct (reachable_slots ports limits s Hl Hr) as [_ _ Ht Hrun ? ? ? ? _].
  split_and!; [|done..]. simpl in Ht. lia.
Qed.

Lemma host_limits_kept_witness :
  length (slots (sys_state class_session)) = 2 /\ length (queue (sys_state class_session)) = 2 /\
  table_entries (sys_state class_session) = N.of_nat (length (tabled (sys_state class_session))) /\
  (table_entries (sys_state class_session) <= 1024)%N.
Proof.
  split; [vm_compute; reflexivity|]. split; [vm_compute; reflexivity|].
  destruct (host_limits_kept demo_ports default_host_limits class_session demo_lanes_agree class_reachable)
    as (_ & _ & H1 & H2 & _). split; [exact H1|].
  etransitivity; [exact H2|]. vm_compute. discriminate.
Defined.



(** The scheduler leaves nothing it could start: where its loop over the
    queued operations ends, the session runs as many as it may, or the oldest
    operation queued for each workspace is one its running operations do not
    admit. *)
Theorem schedule_conserves {Failure : Type} (ports : HostPorts Failure) (limits : HostLimits) (env : Env)
    (st : State Failure) :
  waits st ->
  conserved limits (schedule_operations ports limits env (S (length (queue st))) 0 ∅ st).1.
Proof.
  intros Hw. apply schedule_operations_conserved; [done| |lia].
  split; [intros j id Hj; lia|set_solver].
Qed.

Lemma schedule_conserves_witness :
  conserved default_host_limits
    (schedule_operations demo_ports default_host_limits demo_env (S (length (queue (sys_state class_session))))
       0 ∅ (sys_state class_session)).1.
Proof.
  apply (schedule_conserves demo_ports default_host_limits demo_env (sys_state class_session)). split.
  - apply (bool_decide_unpack _). vm_compute. reflexivity.
  - intros id r Hin Hg. assert (Hq : queue (sys_state class_session) = [3%N; 4%N]) by (vm_compute; reflexivity).
    rewrite Hq in Hin. apply elem_of_cons in Hin as [->|Hin].
    + vm_compute in Hg. injection Hg as <-. reflexivity.
    + apply list_elem_of_singleton in Hin as ->. vm_compute in Hg. injection Hg as <-. reflexivity.
Defined.
