(* ===== verification/RepoContract.v ===== *)
(** The repository observation contract
    (src/crates/repo-contract/src/lib.rs): object ids and their hexadecimal
    spelling, what an inspector observes of a repository's layout, work and
    history, and the two read-only ports over it.

    A hash map of the contract's values is a [gmap], a path is the text it is
    spelled as, and a byte is an [N] below 256. *)

From S2P Require Export RustText.

(** ** Object ids *)

Inductive ObjectFormat : Type := Sha1 | Sha256.

Definition digest_len (f : ObjectFormat) : nat :=
  match f with Sha1 => 20 | Sha256 => 32 end.

Record ObjectId : Type := mkObjectId { oid_format : ObjectFormat; oid_digest : list N }.

#[global] Instance ObjectFormat_eq_dec : EqDecision ObjectFormat.
Proof. solve_decision. Defined.
#[global] Instance ObjectId_eq_dec : EqDecision ObjectId.
Proof. solve_decision. Defined.
#[global] Instance ObjectId_countable : Countable ObjectId.
Proof.
  refine (inj_countable'
    (fun o => (match oid_format o with Sha1 => true | Sha256 => false end, oid_digest o))
    (fun p => mkObjectId (if p.1 : bool then Sha1 else Sha256) p.2) _).
  by intros [[] ?].
Defined.

(** The conversions of digests keep their failures. *)
Inductive ObjectIdError : Type :=
| IdLength (format : ObjectFormat) (expected actual : nat)
| IdHex (detail : str).

Definition from_bytes (format : ObjectFormat) (bytes : list N) : result ObjectId ObjectIdError :=
  if negb (length bytes =? digest_len format) then
    Err (IdLength format (digest_len format) (length bytes))
  else Ok {| oid_format := format; oid_digest := bytes |}.

(** The value of an ASCII hexadecimal digit, of either case. *)
Definition hex_value (b : N) : option N :=
  if ((48 <=? b) && (b <=? 57))%N then Some (b - 48)%N
  else if ((97 <=? b) && (b <=? 102))%N then Some (b - 87)%N
  else if ((65 <=? b) && (b <=? 70))%N then Some (b - 55)%N
  else None.

(** [std::str::from_utf8] of two bytes. *)
Definition utf8_pair (a b : N) : bool :=
  ((a <? 128) && (b <? 128) || (194 <=? a) && (a <=? 223) && (128 <=? b) && (b <=? 191))%N.

(** [u8::from_str_radix] of two bytes of text, base 16: a leading plus sign is
    accepted before a digit. *)
Definition from_str_radix (a b : N) : result N str :=
  let invalid := Err (lit "invalid digit found in string") in
  if (a =? 43)%N then
    match hex_value b with Some v => Ok v | None => invalid end
  else
    match hex_value a, hex_value b with
    | Some h, Some l => Ok (16 * h + l)%N
    | _, _ => invalid
    end.

(** The loop over [hex.as_bytes().chunks(2)]; a text of the right length has
    no chunk of one byte. *)
Fixpoint parse_pairs (bytes : list N) : result (list N) ObjectIdError :=
  match bytes with
  | a :: b :: rest =>
      if negb (utf8_pair a b) then Err (IdHex (lit "non-ascii hex"))
      else
        let? value := map_err IdHex (from_str_radix a b) in
        let? values := parse_pairs rest in
        Ok (value :: values)
  | _ => Ok []
  end.

Definition parse_hex (format : ObjectFormat) (hex : str) : result ObjectId ObjectIdError :=
  if negb (str_len hex =? digest_len format * 2) then
    Err (IdLength format (digest_len format) (Nat.div (str_len hex) 2))
  else
    let? bytes := parse_pairs (utf8 hex) in
    Ok {| oid_format := format; oid_digest := bytes |}.

Definition hex_digit (n : N) : N := if (n <? 10)%N then (n + 48)%N else (n + 87)%N.

Definition to_hex (o : ObjectId) : str :=
  oid_digest o ≫= fun b => [hex_digit (b / 16)%N; hex_digit (b mod 16)%N].

Definition format_name (f : ObjectFormat) : str :=
  match f with Sha1 => lit "Sha1" | Sha256 => lit "Sha256" end.

Definition object_id_error_text (e : ObjectIdError) : str :=
  match e with
  | IdLength format expected actual =>
      lit "object id length " ++ show_N (N.of_nat actual) ++ lit " does not match " ++
      format_name format ++ lit " (" ++ show_N (N.of_nat expected) ++ lit " bytes)"
  | IdHex detail => lit "invalid hex object id: " ++ detail
  end.

(** ** Repositories *)

Inductive RepoKey : Type :=
| RepoRoot
| RepoMember (id : str).

Definition repo_key_text (k : RepoKey) : str :=
  match k with RepoRoot => lit "@root" | RepoMember id => id end.

Inductive HeadState : Type :=
| Attached (branch : str) (target : ObjectId)
| DetachedHead (target : ObjectId)
| Unborn (branch : str).

Record RepositoryInfo : Type := mkRepositoryInfo {
  info_path : str;
  info_git_dir : str;
  info_common_dir : str;
  info_bare : bool;
  info_object_format : ObjectFormat;
  info_head : HeadState;
}.

(** ** Layouts *)

Inductive LayoutHazard : Type :=
| LhGitFile (path : str)
| LhExternalCommonDir (path : str)
| LhAlternates (path : str)
| LhEscapingMetadataLink (path target : str)
| LhEscapingConfig (key value : str)
| LhUnresolvableConfig (key detail : str)
| LhPartialClone (detail : str)
| LhEnvironmentOverride (variable : str).

Inductive LayoutError : Type :=
| LayoutNotARepository (path : str)
| LayoutUnsupported (path : str) (hazards : list LayoutHazard)
| LayoutReadFailed (path detail : str)
| LayoutUnimplemented (operation : str).

(** [hazards_debug] is the derived [Debug] text of a list of hazards. *)
Definition layout_error_text (hazards_debug : list LayoutHazard -> str) (e : LayoutError) : str :=
  match e with
  | LayoutNotARepository path => path ++ lit " is not a repository"
  | LayoutUnsupported path hazards => path ++ lit " has an unsupported layout: " ++ hazards_debug hazards
  | LayoutReadFailed path detail => path ++ lit ": " ++ detail
  | LayoutUnimplemented operation => operation ++ lit " is not implemented"
  end.

(** ** Observations *)

Abbreviation BytePath := (list N).

Inductive UnknownKind : Type :=
| UkUnreadable | UkUnsupportedIndexFlag | UkUnsupportedLayout | UkUnsupportedEvidence
| UkLimitExceeded | UkUnimplemented | UkCancelled.

Record UnknownReason : Type := mkUnknownReason {
  ur_kind : UnknownKind;
  ur_path : option BytePath;
  ur_detail : str;
}.

Definition new_reason (kind : UnknownKind) (detail : str) : UnknownReason :=
  {| ur_kind := kind; ur_path := None; ur_detail := detail |}.

Inductive Observation (A : Type) : Type :=
| Known (value : A)
| UnknownObs (reasons : list UnknownReason).
Arguments Known {A} value.
Arguments UnknownObs {A} reasons.

Inductive WorkKind : Type :=
| Staged | Unstaged | Untracked | Ignored | Conflict | ModeChange | LinkChange | Renamed | Deleted.

Record WorkEntry : Type := mkWorkEntry {
  we_path : BytePath;
  we_kind : WorkKind;
  we_binary : option bool;
}.

Inductive SuppressionFlag : Type := AssumeUnchanged | SkipWorktree | OtherFlag.
Inductive PhysicalState : Type := MatchesIndex | Differs | PhysicalAbsent | Unobservable.

Record SuppressedEntry : Type := mkSuppressedEntry {
  se_path : BytePath;
  se_flag : SuppressionFlag;
  se_physical : PhysicalState;
}.

Inductive NativeOperation : Type :=
| NativeMerge | NativeRebase | NativeCherryPick | NativeRevert | NativeBisect
| NativeApplyMailbox | NativeOther.

Record WorkObservation : Type := mkWorkObservation {
  wo_entries : list WorkEntry;
  wo_suppressed : list SuppressedEntry;
  wo_sparse_absent : list BytePath;
  wo_native_operation : option NativeOperation;
  wo_stash_entries : N;
  wo_unknown : list UnknownReason;
}.

(** ** Protected history *)

Inductive RootSource : Type :=
| SourceRef (name : str)
| SourceHead
| SourceReflog (reference : str) (index : N)
| SourceStash (index : N)
| SourceAnnotatedTag (name : str)
| SourceCoordinationRecord (record object : str)
| SourceOther (detail : str).

Record ProtectedRoot : Type := mkProtectedRoot { pr_source : RootSource; pr_oid : ObjectId }.

Record ProtectedRoots : Type := mkProtectedRoots {
  pr_roots : list ProtectedRoot;
  pr_unknown : list UnknownReason;
}.

Definition roots_complete (p : ProtectedRoots) : bool :=
  match pr_unknown p with [] => true | _ => false end.

#[global] Instance UnknownKind_eq_dec : EqDecision UnknownKind.
Proof. solve_decision. Defined.
#[global] Instance UnknownReason_eq_dec : EqDecision UnknownReason.
Proof. solve_decision. Defined.
#[global] Instance RepoKey_eq_dec : EqDecision RepoKey.
Proof. solve_decision. Defined.
#[global] Instance WorkKind_eq_dec : EqDecision WorkKind.
Proof. solve_decision. Defined.
#[global] Instance SuppressionFlag_eq_dec : EqDecision SuppressionFlag.
Proof. solve_decision. Defined.
#[global] Instance RootSource_eq_dec : EqDecision RootSource.
Proof. solve_decision. Defined.
#[global] Instance ProtectedRoot_eq_dec : EqDecision ProtectedRoot.
Proof. solve_decision. Defined.

(** ** Object reads *)

Record ReadLimits : Type := mkReadLimits { max_object_bytes : N }.

Definition default_read_limits : ReadLimits := {| max_object_bytes := 64 * 1024 * 1024 |}.

Inductive ObjectKind : Type := KindCommit | KindTree | KindBlob | KindTag.

Record ObjectRecord : Type := mkObjectRecord {
  or_oid : ObjectId;
  or_kind : ObjectKind;
  or_size : N;
  or_edges : list ObjectId;
}.

Inductive ReadError : Type :=
| ReadMissing (oid : ObjectId)
| ReadLimitExceeded (oid : ObjectId) (size limit : N)
| ReadCorrupt (oid : ObjectId) (detail : str)
| ReadFailed (detail : str)
| ReadUnimplemented (operation : str).

Definition read_error_text (e : ReadError) : str :=
  match e with
  | ReadMissing oid => lit "object " ++ to_hex oid ++ lit " is missing"
  | ReadLimitExceeded oid size limit =>
      lit "object " ++ to_hex oid ++ lit " (" ++ show_N size ++
      lit " bytes) exceeds the read limit " ++ show_N limit
  | ReadCorrupt oid detail => lit "object " ++ to_hex oid ++ lit " is corrupt: " ++ detail
  | ReadFailed detail => detail
  | ReadUnimplemented operation => operation ++ lit " is not implemented"
  end.

(** The reader of one repository's object store, and the answers of the
    inspector of a repository. *)
Record ObjectReader : Type := mkObjectReader {
  retained_roots : result ProtectedRoots ReadError;
  read_object : ObjectId -> ReadLimits -> result ObjectRecord ReadError;
}.

(** ** Spellings of object ids *)

(** A digest of its format's length, made of bytes. *)
Record oid_wf (o : ObjectId) : Prop := {
  ow_length : length (oid_digest o) = digest_len (oid_format o);
  ow_bytes b : b ∈ oid_digest o -> (b < 256)%N;
}.

(** What two characters spell: two digits, or a plus sign and one digit. *)
Definition pair_value (p : N * N) : option N :=
  if (p.1 =? 43)%N then hex_value p.2
  else match hex_value p.1, hex_value p.2 with
       | Some h, Some l => Some (16 * h + l)%N
       | _, _ => None
       end.

Definition spelled (pairs : list (N * N)) : str := pairs ≫= fun p => [p.1; p.2].

Lemma hex_value_ascii b v : hex_value b = Some v -> (b < 128)%N /\ (v < 16)%N.
Proof.
  unfold hex_value. repeat case_match; intros [= <-]; rewrite ?andb_true_iff, ?N.leb_le in *; lia.
Qed.

Lemma hex_value_digit n : (n < 16)%N -> hex_value (hex_digit n) = Some n.
Proof.
  intros Hn. unfold hex_value, hex_digit. destruct (N.ltb_spec n 10).
  - rewrite (proj2 (andb_true_iff _ _)) by (rewrite !N.leb_le; lia). f_equal. lia.
  - destruct (N.leb_spec (n + 87) 57); [lia|]. rewrite andb_false_r.
    rewrite (proj2 (andb_true_iff _ _)) by (rewrite !N.leb_le; lia). f_equal. lia.
Qed.

Lemma pair_value_ascii p v : pair_value p = Some v -> (p.1 < 128 /\ p.2 < 128 /\ v < 256)%N.
Proof.
  unfold pair_value. destruct (N.eqb_spec p.1 43) as [E|].
  - intros H%hex_value_ascii. lia.
  - destruct (hex_value p.1) as [h|] eqn:H1; [|done]. destruct (hex_value p.2) as [l|] eqn:H2; [|done].
    intros [= <-]. apply hex_value_ascii in H1, H2. lia.
Qed.

Lemma from_str_radix_ok a b v : from_str_radix a b = Ok v <-> pair_value (a, b) = Some v.
Proof. unfold from_str_radix, pair_value. simpl. repeat case_match; split; intros; congruence. Qed.

Lemma parse_pairs_ok bytes n values :
  length bytes = 2 * n ->
  parse_pairs bytes = Ok values <->
  exists pairs, bytes = spelled pairs /\ pair_value <$> pairs = Some <$> values.
Proof.
  revert bytes values. induction n as [|n IH]; intros bytes values Hn.
  { destruct bytes; [|done]. simpl. split.
    - intros [= <-]. by exists [].
    - intros (pairs & Hb & Hv). destruct pairs; [|done]. by destruct values. }
  destruct bytes as [|a [|b rest]]; [done|simpl in Hn; lia|]. simpl. split.
  - destruct (utf8_pair a b); [|done]. simpl. intros (v & Hv & Hk)%rbind_ok.
    apply map_err_ok in Hv. apply rbind_ok in Hk as (vs & Hvs & [= <-]).
    apply from_str_radix_ok in Hv. apply IH in Hvs as (pairs & -> & Hp); [|simpl in Hn; lia].
    exists ((a, b) :: pairs). split; [done|]. by rewrite !fmap_cons, Hv, Hp.
  - intros (pairs & Hb & Hv). destruct pairs as [|[a' b'] pairs]; [done|].
    injection Hb as -> -> ->. destruct values as [|v values]; [done|].
    rewrite !fmap_cons in Hv. injection Hv as Hv Hvs.
    pose proof (pair_value_ascii _ _ Hv) as (Ha & Hb' & _). simpl in Ha, Hb'.
    assert (Hu : utf8_pair a' b' = true) by (unfold utf8_pair; by rewrite !(proj2 (N.ltb_lt _ _))).
    rewrite Hu. simpl. rewrite (proj2 (from_str_radix_ok _ _ _) Hv). simpl.
    rewrite (proj2 (IH (spelled pairs) values ltac:(simpl in Hn; unfold spelled in *; lia))) by eauto. done.
Qed.

Lemma spelled_ascii pairs values c :
  pair_value <$> pairs = Some <$> values -> c ∈ spelled pairs -> (c < 128)%N.
Proof.
  revert values. induction pairs as [|p pairs IH]; intros values Hv Hc; [by apply elem_of_nil in Hc|].
  destruct values as [|v values]; [done|]. rewrite !fmap_cons in Hv. injection Hv as Hv Hvs.
  pose proof (pair_value_ascii _ _ Hv) as (Ha & Hb & _). simpl in Hc.
  rewrite !elem_of_cons in Hc. destruct Hc as [->|[->|Hc]]; eauto.
Qed.

Lemma length_spelled pairs : length (spelled pairs) = 2 * length pairs.
Proof.
  unfold spelled. induction pairs as [|p pairs IH]; [done|].
  rewrite bind_cons, length_app, IH. simpl. lia.
Qed.

Lemma parse_hex_spells f s o :
  parse_hex f s = Ok o <->
  oid_format o = f /\ length (oid_digest o) = digest_len f /\
  exists pairs, s = spelled pairs /\ pair_value <$> pairs = Some <$> oid_digest o.
Proof.
  unfold parse_hex. destruct (Nat.eqb_spec (str_len s) (digest_len f * 2)) as [Hl|Hl]; simpl; cycle 1.
  { split; [done|]. intros (<- & Hlen & pairs & -> & Hv). destruct Hl.
    rewrite str_len_ascii by (intros c Hc; by eapply spelled_ascii).
    pose proof (f_equal length Hv) as E. rewrite !length_fmap in E. rewrite length_spelled. lia. }
  assert (Hb : length (utf8 s) = 2 * digest_len f) by (rewrite length_utf8; lia). rewrite rbind_ok. split.
  - intros (values & Hp & [= <-]). simpl. apply (parse_pairs_ok _ _ _ Hb) in Hp as (pairs & Hs & Hv).
    assert (Ha : forall c, c ∈ s -> (c < 128)%N).
    { apply ascii_of_utf8. rewrite Hs. intros b. by apply (spelled_ascii _ values). }
    rewrite (utf8_ascii s Ha) in Hs. split_and!; [done| |eauto].
    pose proof (f_equal length Hv) as E. rewrite !length_fmap in E. rewrite <- E.
    rewrite (utf8_ascii s Ha), Hs, length_spelled in Hb. lia.
  - intros (<- & Hlen & pairs & -> & Hv). exists (oid_digest o). split; [|by destruct o].
    apply (parse_pairs_ok _ _ _ Hb). exists pairs. split; [|done].
    apply utf8_ascii. intros c. by apply (spelled_ascii _ (oid_digest o)).
Qed.

Lemma to_hex_spelled o :
  to_hex o = spelled ((fun b => (hex_digit (b / 16), hex_digit (b mod 16))%N) <$> oid_digest o).
Proof.
  unfold to_hex, spelled. induction (oid_digest o) as [|b l IH]; [done|].
  rewrite fmap_cons, !bind_cons, IH. done.
Qed.

Lemma pair_value_byte b :
  (b < 256)%N -> pair_value (hex_digit (b / 16), hex_digit (b mod 16))%N = Some b.
Proof.
  intros Hb. unfold pair_value. simpl.
  assert (H1 : (b / 16 < 16)%N) by (apply N.Div0.div_lt_upper_bound; lia).
  assert (H2 : (b mod 16 < 16)%N) by (apply N.mod_lt; lia).
  rewrite !hex_value_digit by done. destruct (N.eqb_spec (hex_digit (b / 16)) 43) as [E|E].
  - exfalso. revert E. unfold hex_digit. generalize (b / 16)%N. intros q.
    destruct (q <? 10)%N; lia.
  - f_equal. by rewrite <- N.Div0.div_mod.
Qed.

Lemma hex_parses o : oid_wf o -> parse_hex (oid_format o) (to_hex o) = Ok o.
Proof.
  intros [Hl Hb]. apply parse_hex_spells. split_and!; [done|done|]. rewrite to_hex_spelled.
  eexists. split; [done|]. rewrite <- list_fmap_compose. apply list_fmap_ext. intros i b Hi.
  apply pair_value_byte, Hb. by eapply list_elem_of_lookup_2.
Qed.

Lemma parsed_wf f s o : parse_hex f s = Ok o -> oid_wf o.
Proof.
  intros (<- & Hl & pairs & _ & Hv)%parse_hex_spells. split; [done|]. intros b Hb.
  assert (Hin : Some b ∈ pair_value <$> pairs) by (rewrite Hv; by apply list_elem_of_fmap_2).
  apply list_elem_of_fmap in Hin as (p & Hp & _). symmetry in Hp. apply pair_value_ascii in Hp. tauto.
Qed.

(** ** Main theorem *)

(** An object id parses exactly from twice its digest's length of
    characters, each pair two hexadecimal digits or a plus sign and one; the
    id so built has a digest of its format's length, made of bytes; and every
    such id's spelling parses back to it. *)
Theorem object_id_hex (f : ObjectFormat) (s : str) (o : ObjectId) :
  (parse_hex f s = Ok o <->
   oid_format o = f /\ length (oid_digest o) = digest_len f /\
   exists pairs, s = spelled pairs /\ pair_value <$> pairs = Some <$> oid_digest o) /\
  (parse_hex f s = Ok o -> oid_wf o /\ parse_hex f (to_hex o) = Ok o) /\
  (oid_wf o -> parse_hex (oid_format o) (to_hex o) = Ok o).
Proof.
  split_and!; [apply parse_hex_spells| |apply hex_parses]. intros H.
  pose proof (parsed_wf _ _ _ H) as Hw. split; [done|].
  apply parse_hex_spells in H as (<- & _). by apply hex_parses.
Qed.
