(* ===== verification/HistoryCheck.v ===== *)
(** The history verifier (src/crates/history-check/src/lib.rs): whether every
    protected root of a repository is preserved, whole, by the roots a
    surviving repository retains, and whether a store holds its own roots
    whole.

    The walk is the source's: a depth-first search with an explicit stack, one
    verdict per object, every structure charged against a budget. The object
    store is a parameter, a function of the object id: the walk reads an
    object at most once. The cancellation port is a function of how often it
    was asked. The loop takes fuel, and [None] is a loop that has not ended;
    the sizes the compiler gives the bookkeeping's types are parameters. *)

From S2P Require Export RepoContract.

#[local] Set Default Proof Using "Type".

(** ** Data *)

Record Witness : Type := mkWitness { wit_repository : RepoKey; wit_label : str }.

Record HistoryLimits : Type := mkHistoryLimits {
  max_roots : N;
  max_bookkeeping_bytes : N;
  reads : ReadLimits;
}.

Definition default_history_limits : HistoryLimits :=
  {| max_roots := 100000; max_bookkeeping_bytes := 256 * 1024 * 1024; reads := default_read_limits |}.

Record RootCoverage : Type := mkRootCoverage {
  rc_root : ProtectedRoot;
  rc_witness : option RepoKey;
  rc_witness_root : ProtectedRoot;
}.

Record Coverage : Type := mkCoverage {
  roots_checked : N;
  objects_visited : N;
  witnesses_used : list RepoKey;
  bookkeeping_bytes : N;
  covered : list RootCoverage;
}.

Definition default_coverage : Coverage :=
  {| roots_checked := 0; objects_visited := 0; witnesses_used := []; bookkeeping_bytes := 0;
     covered := [] |}.

Record UnpreservedItem : Type := mkUnpreservedItem {
  ui_root : ProtectedRoot;
  ui_missing : option ObjectId;
  ui_detail : str;
}.

Inductive HistoryOutcome : Type :=
| Verified (coverage : Coverage)
| Unpreserved (items : list UnpreservedItem)
| HistoryUnknown (reasons : list UnknownReason).

Record ConnectivityCoverage : Type := mkConnectivityCoverage {
  cc_roots_checked : N;
  cc_objects_visited : N;
  cc_bookkeeping_bytes : N;
}.

Record MissingObject : Type := mkMissingObject { mo_root : ProtectedRoot; mo_missing : ObjectId }.

Inductive ConnectivityOutcome : Type :=
| StoreComplete (coverage : ConnectivityCoverage)
| StoreIncomplete (missing : list MissingObject)
| ConnectivityUnknown (reasons : list UnknownReason).

(** ** Eligible witness roots *)

Inductive WitnessPolicy : Type := Durable | IdenticalCopy.

Definition has_prefix (p s : str) : bool :=
  match strip_prefix p s with Some _ => true | None => false end.

Definition OPERATION_PSEUDO_REFS : list str :=
  [lit "ORIG_HEAD"; lit "MERGE_HEAD"; lit "CHERRY_PICK_HEAD"; lit "REVERT_HEAD";
   lit "REBASE_HEAD"; lit "BISECT_HEAD"; lit "FETCH_HEAD"; lit "AUTO_MERGE"].

Definition OPERATION_NAMESPACES : list str :=
  [lit "refs/bisect/"; lit "refs/rewritten/"; lit "refs/gwz/"].

Definition is_temporary_operation_ref (name : str) : bool :=
  if has_prefix (lit "refs/gwz/local-imports/") name then false
  else bool_decide (name ∈ OPERATION_PSEUDO_REFS) ||
       existsb (fun prefix => has_prefix prefix name) OPERATION_NAMESPACES.

Definition is_eligible_witness_root (source : RootSource) : bool :=
  match source with
  | SourceHead | SourceAnnotatedTag _ => true
  | SourceRef name => negb (is_temporary_operation_ref name)
  | SourceReflog _ _ | SourceStash _ | SourceCoordinationRecord _ _ | SourceOther _ => false
  end.

Definition is_eligible_witness_root_under (source : RootSource) (policy : WitnessPolicy) : bool :=
  match policy, source with
  | IdenticalCopy, SourceReflog _ _ | IdenticalCopy, SourceStash _ => true
  | _, source => is_eligible_witness_root source
  end.

(** ** Bookkeeping *)

(** [size_of] of the types the budget counts. *)
Record Sizes : Type := mkSizes {
  size_of_oid : N;
  size_of_root : N;
  size_of_node : N;
  size_of_frame : N;
  size_of_usize : N;
}.

Definition MAP_ENTRY_OVERHEAD : N := 48.

Record Budget : Type := mkBudget { used : N; peak : N; budget_limit : N }.

Definition new_budget (limit : N) : Budget := {| used := 0; peak := 0; budget_limit := limit |}.

Definition charge (b : Budget) (bytes : N) : result Budget UnknownReason :=
  let used' := saturating_add (used b) bytes in
  if (budget_limit b <? used')%N then
    Err (new_reason UkLimitExceeded
      (lit "history verification bookkeeping reached " ++ show_N used' ++ lit " bytes, above the " ++
       show_N (budget_limit b) ++ lit " byte limit"))
  else Ok {| used := used'; peak := N.max (peak b) used'; budget_limit := budget_limit b |}.

Definition release_bytes (b : Budget) (bytes : N) : Budget :=
  {| used := saturating_sub (used b) bytes; peak := peak b; budget_limit := budget_limit b |}.

Inductive NodeState : Type := InProgress | NodeComplete | NodeIncomplete.

#[global] Instance NodeState_eq_dec : EqDecision NodeState.
Proof. solve_decision. Defined.

Record Frame : Type := mkFrame {
  fr_oid : ObjectId;
  fr_edges : list ObjectId;
  fr_next : nat;
  fr_complete : bool;
  fr_missing : option ObjectId;
  fr_charged : N;
}.

#[global] Instance Frame_set : Settable Frame := fun f =>
  mkFrame (fr_oid f) (fr_edges f) (fr_next f) (fr_complete f) (fr_missing f) (fr_charged f).

Record Verifier : Type := mkVerifier {
  v_budget : Budget;
  v_state : gmap ObjectId NodeState;
  v_first_missing : gmap ObjectId ObjectId;
  v_targets : gset ObjectId;
  v_origin : gmap ObjectId nat;
  v_visited : N;
  v_current : nat;
  v_polls : nat;
}.

#[global] Instance Verifier_set : Settable Verifier := fun v =>
  mkVerifier (v_budget v) (v_state v) (v_first_missing v) (v_targets v) (v_origin v) (v_visited v)
    (v_current v) (v_polls v).

Definition cancelled : UnknownReason :=
  new_reason UkCancelled (lit "history verification was cancelled before it completed").

Definition read_reason (e : ReadError) : UnknownReason :=
  let kind := match e with
              | ReadLimitExceeded _ _ _ => UkLimitExceeded
              | ReadUnimplemented _ => UkUnimplemented
              | _ => UkUnreadable
              end in
  new_reason kind (read_error_text e).

(** ** The walk *)

Section walk.
Context (sizes : Sizes) (reader : ObjectReader) (cancels : nat -> bool) (limits : HistoryLimits).

Definition oid_bytes (o : ObjectId) : N := (size_of_oid sizes + N.of_nat (length (oid_digest o)))%N.

Definition root_bytes (root : ProtectedRoot) : N :=
  let name := match pr_source root with
              | SourceRef name | SourceAnnotatedTag name => str_len name
              | SourceReflog reference _ => str_len reference
              | SourceCoordinationRecord record object => str_len record + str_len object
              | SourceOther detail => str_len detail
              | SourceHead | SourceStash _ => 0
              end in
  (size_of_root sizes + N.of_nat name + oid_bytes (pr_oid root))%N.

(** [Verifier::new]; the port was polled once before. *)
Definition new_verifier : Verifier :=
  {| v_budget := new_budget (max_bookkeeping_bytes limits); v_state := ∅; v_first_missing := ∅;
     v_targets := ∅; v_origin := ∅; v_visited := 0; v_current := 0; v_polls := 1 |}.

Definition charge_to (v : Verifier) (bytes : N) : result Verifier UnknownReason :=
  let? b := charge (v_budget v) bytes in Ok (v <| v_budget := b |>).

Definition taint (f : Frame) (missing : option ObjectId) : Frame :=
  let f := f <| fr_complete := false |> in
  match fr_missing f with None => f <| fr_missing := missing |> | Some _ => f end.

(** The origin of a protected object, recorded when it is first read. *)
Definition record_origin (v : Verifier) (o : ObjectId) : result Verifier UnknownReason :=
  if bool_decide (o ∈ v_targets v) && bool_decide (v_origin v !! o = None) then
    let? v := charge_to v (oid_bytes o + size_of_usize sizes + MAP_ENTRY_OVERHEAD) in
    Ok (v <| v_origin := <[o := v_current v]> (v_origin v) |>)
  else Ok v.

Definition open (v : Verifier) (o : ObjectId) : result (option Frame * Verifier) UnknownReason :=
  let polled := cancels (v_polls v) in
  let v := v <| v_polls := S (v_polls v) |> in
  if polled then Err cancelled
  else
    let? v := charge_to v (oid_bytes o + size_of_node sizes + MAP_ENTRY_OVERHEAD) in
    match read_object reader o (reads limits) with
    | Ok record =>
        let v := v <| v_visited := (v_visited v + 1)%N |>
                   <| v_state := <[o := InProgress]> (v_state v) |> in
        let? v := record_origin v o in
        let charged := (size_of_frame sizes + foldr (fun e n => oid_bytes e + n) 0 (or_edges record))%N in
        let? v := charge_to v charged in
        Ok (Some {| fr_oid := o; fr_edges := or_edges record; fr_next := 0; fr_complete := true;
                    fr_missing := None; fr_charged := charged |}, v)
    | Err (ReadMissing _) =>
        let v := v <| v_state := <[o := NodeIncomplete]> (v_state v) |> in
        let? v := charge_to v (2 * oid_bytes o + MAP_ENTRY_OVERHEAD) in
        Ok (None, v <| v_first_missing := <[o := o]> (v_first_missing v) |>)
    | Err error => Err (read_reason error)
    end.

(** The end of a frame: its object is decided and its parent learns of it. *)
Definition close_frame (v : Verifier) (f : Frame) (stack : list Frame)
    : result (Verifier * list Frame) UnknownReason :=
  let v := v <| v_budget := release_bytes (v_budget v) (fr_charged f) |> in
  let state := if fr_complete f then NodeComplete else NodeIncomplete in
  let v := v <| v_state := <[fr_oid f := state]> (v_state v) |> in
  let? v :=
    match state, fr_missing f with
    | NodeIncomplete, Some missing =>
        let? v := charge_to v (oid_bytes missing + oid_bytes (fr_oid f) + MAP_ENTRY_OVERHEAD) in
        Ok (v <| v_first_missing := <[fr_oid f := missing]> (v_first_missing v) |>)
    | _, _ => Ok v
    end in
  Ok (v, match stack, state with
         | parent :: rest, NodeIncomplete => taint parent (fr_missing f) :: rest
         | _, _ => stack
         end).

(** One turn of [walk]'s loop over a stack whose top is [top]. *)
Definition walk_turn (v : Verifier) (top : Frame) (below : list Frame)
    : result (Verifier * list Frame) UnknownReason :=
  match fr_edges top !! fr_next top with
  | None => close_frame v top below
  | Some child =>
      let top := top <| fr_next := S (fr_next top) |> in
      match v_state v !! child with
      | Some NodeComplete | Some InProgress => Ok (v, top :: below)
      | Some NodeIncomplete =>
          let missing := match v_first_missing v !! child with Some m => m | None => child end in
          Ok (v, taint top (Some missing) :: below)
      | None =>
          let? opening := open v child in
          let '(opened, v) := opening in
          Ok (v, match opened with
                 | Some frame => frame :: top :: below
                 | None => taint top (Some child) :: below
                 end)
      end
  end.

Fixpoint walk_loop (fuel : nat) (v : Verifier) (stack : list Frame)
    : option (result Verifier UnknownReason) :=
  match stack with
  | [] => Some (Ok v)
  | top :: below =>
      match fuel with
      | 0 => None
      | S fuel' =>
          match walk_turn v top below with
          | Err reason => Some (Err reason)
          | Ok (v, stack) => walk_loop fuel' v stack
          end
      end
  end.

Definition walk (fuel : nat) (v : Verifier) (start : ObjectId) : option (result Verifier UnknownReason) :=
  match v_state v !! start with
  | Some _ => Some (Ok v)
  | None =>
      match open v start with
      | Err reason => Some (Err reason)
      | Ok (None, v) => Some (Ok v)
      | Ok (Some frame, v) => walk_loop fuel v [frame]
      end
  end.

(** *** [Verifier::run] *)

Fixpoint charge_targets (v : Verifier) (roots : list ProtectedRoot) : result Verifier UnknownReason :=
  match roots with
  | [] => Ok v
  | root :: roots' =>
      let? v := charge_to v (oid_bytes (pr_oid root) + MAP_ENTRY_OVERHEAD) in
      charge_targets (v <| v_targets := {[pr_oid root]} ∪ v_targets v |>) roots'
  end.

Fixpoint charge_roots (v : Verifier) (roots : list ProtectedRoot) : result Verifier UnknownReason :=
  match roots with
  | [] => Ok v
  | root :: roots' => let? v := charge_to v (root_bytes root) in charge_roots v roots'
  end.

Fixpoint walk_roots (fuel : nat) (index : nat) (v : Verifier) (roots : list ProtectedRoot)
    : option (result Verifier UnknownReason) :=
  match roots with
  | [] => Some (Ok v)
  | root :: roots' =>
      match walk fuel (v <| v_current := index |>) (pr_oid root) with
      | Some (Ok v) => walk_roots fuel (S index) v roots'
      | other => other
      end
  end.

Definition run_verifier (fuel : nat) (protected : ProtectedRoots) (eligible : list ProtectedRoot)
    : option (result Verifier UnknownReason) :=
  match (let? v := charge_targets new_verifier (pr_roots protected) in charge_roots v eligible) with
  | Err reason => Some (Err reason)
  | Ok v => walk_roots fuel 0 v eligible
  end.

(** ** Conclusions *)

Fixpoint missing_roots (v : Verifier) (roots : list ProtectedRoot) : list MissingObject :=
  match roots with
  | [] => []
  | root :: roots' =>
      match v_state v !! pr_oid root with
      | Some NodeComplete => missing_roots v roots'
      | _ =>
          {| mo_root := root;
             mo_missing := match v_first_missing v !! pr_oid root with
                           | Some m => m
                           | None => pr_oid root
                           end |} :: missing_roots v roots'
      end
  end.

Definition conclude_connectivity (v : Verifier) (protected : ProtectedRoots) : ConnectivityOutcome :=
  match missing_roots v (pr_roots protected) with
  | [] => StoreComplete {| cc_roots_checked := N.of_nat (length (pr_roots protected));
                           cc_objects_visited := v_visited v; cc_bookkeeping_bytes := peak (v_budget v) |}
  | missing => StoreIncomplete missing
  end.

(** What [conclude] makes of one root. *)
Definition conclude_root (v : Verifier) (attribution : option RepoKey) (eligible : list ProtectedRoot)
    (root : ProtectedRoot) : result RootCoverage UnpreservedItem :=
  match v_state v !! pr_oid root with
  | Some NodeComplete =>
      match v_origin v !! pr_oid root ≫= fun index => eligible !! index with
      | Some witness_root =>
          Ok {| rc_root := root; rc_witness := attribution; rc_witness_root := witness_root |}
      | None =>
          Err {| ui_root := root; ui_missing := None;
                 ui_detail := lit "coverage of " ++ to_hex (pr_oid root) ++
                              lit " could not be attributed to a witness root" |}
      end
  | Some NodeIncomplete | Some InProgress =>
      Err {| ui_root := root; ui_missing := v_first_missing v !! pr_oid root;
             ui_detail := lit "the witness graph below " ++ to_hex (pr_oid root) ++
               lit " is incomplete; the history is not self-contained there" |}
  | None =>
      Err {| ui_root := root; ui_missing := None;
             ui_detail := lit "no eligible retained witness root reaches " ++ to_hex (pr_oid root) |}
  end.

Fixpoint conclude_roots (v : Verifier) (attribution : option RepoKey) (eligible : list ProtectedRoot)
    (roots : list ProtectedRoot) : list RootCoverage * list UnpreservedItem :=
  match roots with
  | [] => ([], [])
  | root :: roots' =>
      let '(cs, us) := conclude_roots v attribution eligible roots' in
      match conclude_root v attribution eligible root with
      | Ok c => (c :: cs, us)
      | Err u => (cs, u :: us)
      end
  end.

Definition conclude (v : Verifier) (protected : ProtectedRoots) (witnesses : list Witness)
    (eligible : list ProtectedRoot) : HistoryOutcome :=
  let attribution := match witnesses with [only] => Some (wit_repository only) | _ => None end in
  let '(cs, us) := conclude_roots v attribution eligible (pr_roots protected) in
  match us with
  | [] => Verified {| roots_checked := N.of_nat (length (pr_roots protected));
                      objects_visited := v_visited v; witnesses_used := wit_repository <$> witnesses;
                      bookkeeping_bytes := peak (v_budget v); covered := cs |}
  | _ => Unpreserved us
  end.

(** ** The checks *)

(** A protected root this verifier does not interpret. *)
Definition unsupported_root (root : ProtectedRoot) : option UnknownReason :=
  match pr_source root with
  | SourceOther detail =>
      Some (new_reason UkUnsupportedEvidence
        (lit "protected root " ++ to_hex (pr_oid root) ++
         lit " is evidence this verifier does not interpret: " ++ detail))
  | _ => None
  end.

Definition too_many_roots (n : N) : UnknownReason :=
  new_reason UkLimitExceeded
    (show_N n ++ lit " protected roots exceed the " ++ show_N (max_roots limits) ++ lit " root limit").

Definition no_witness (root : ProtectedRoot) : UnpreservedItem :=
  {| ui_root := root; ui_missing := None;
     ui_detail := lit "no surviving witness repository was offered for " ++ to_hex (pr_oid root) |}.

Definition eligible_roots (policy : WitnessPolicy) (retained : ProtectedRoots) : list ProtectedRoot :=
  filter (fun root => is_eligible_witness_root_under (pr_source root) policy = true) (pr_roots retained).

Definition check_history_under (fuel : nat) (protected : ProtectedRoots) (witnesses : list Witness)
    (policy : WitnessPolicy) : option HistoryOutcome :=
  let n := N.of_nat (length (pr_roots protected)) in
  if cancels 0 then Some (HistoryUnknown [cancelled])
  else if (max_roots limits <? n)%N then Some (HistoryUnknown [too_many_roots n])
  else
    match omap unsupported_root (pr_roots protected) with
    | (_ :: _) as unsupported => Some (HistoryUnknown unsupported)
    | [] =>
        if bool_decide (pr_roots protected = []) then Some (Verified default_coverage)
        else if bool_decide (length witnesses = 0) then
          Some (Unpreserved (no_witness <$> pr_roots protected))
        else
          match retained_roots reader with
          | Err error => Some (HistoryUnknown [read_reason error])
          | Ok retained =>
              let eligible := eligible_roots policy retained in
              let m := N.of_nat (length eligible) in
              if (max_roots limits <? n + m)%N then
                Some (HistoryUnknown [new_reason UkLimitExceeded
                  (show_N n ++ lit " protected and " ++ show_N m ++ lit " witness roots exceed the " ++
                   show_N (max_roots limits) ++ lit " root limit")])
              else
                match run_verifier fuel protected eligible with
                | None => None
                | Some (Err reason) => Some (HistoryUnknown [reason])
                | Some (Ok v) => Some (conclude v protected witnesses eligible)
                end
          end
    end.

Definition check_history (fuel : nat) (protected : ProtectedRoots) (witnesses : list Witness)
    : option HistoryOutcome :=
  check_history_under fuel protected witnesses Durable.

Definition check_connectivity (fuel : nat) (protected : ProtectedRoots) : option ConnectivityOutcome :=
  let n := N.of_nat (length (pr_roots protected)) in
  if cancels 0 then Some (ConnectivityUnknown [cancelled])
  else if negb (roots_complete protected) then Some (ConnectivityUnknown (pr_unknown protected))
  else if (max_roots limits <? n)%N then Some (ConnectivityUnknown [too_many_roots n])
  else
    match omap unsupported_root (pr_roots protected) with
    | (_ :: _) as unsupported => Some (ConnectivityUnknown unsupported)
    | [] =>
        if bool_decide (pr_roots protected = []) then
          Some (StoreComplete {| cc_roots_checked := 0; cc_objects_visited := 0;
                                 cc_bookkeeping_bytes := 0 |})
        else
          match run_verifier fuel protected (pr_roots protected) with
          | None => None
          | Some (Err reason) => Some (ConnectivityUnknown [reason])
          | Some (Ok v) => Some (conclude_connectivity v protected)
          end
    end.

End walk.
