(* ===== verification/HistoryWalk.v ===== *)
(** What the history verifier's walk establishes
    (src/crates/history-check/src/lib.rs): its verdict on each object is the
    object's own, whatever root reached it first.

    An object is [whole] when every object it reaches is readable. On a store
    without cycles, which ids that are digests of what they name cannot have,
    the walk decides exactly the objects the given roots reach, calls complete
    exactly the whole ones, and names a missing object beneath each other. It
    ends on every finite store, with fuel for each object and each edge. *)

From S2P Require Export HistoryCheck.

#[local] Set Default Proof Using "Type".

Section walked.
Context (sizes : Sizes) (reader : ObjectReader) (cancels : nat -> bool) (limits : HistoryLimits).

(** ** The object graph *)

Definition reads_as (o : ObjectId) (record : ObjectRecord) : Prop :=
  read_object reader o (reads limits) = Ok record.

Definition edge (o e : ObjectId) : Prop := exists record, reads_as o record /\ e ∈ or_edges record.

Definition reaches : ObjectId -> ObjectId -> Prop := rtc edge.

Definition absent (o : ObjectId) : Prop :=
  exists o', read_object reader o (reads limits) = Err (ReadMissing o').

Definition whole (o : ObjectId) : Prop := forall p, reaches o p -> exists record, reads_as p record.

Definition gap (o m : ObjectId) : Prop := reaches o m /\ absent m.

(** Ids are digests of what they name: no object reaches itself. *)
Definition acyclic : Prop := forall o, ~ tc edge o o.

Lemma gap_edge o e m : edge o e -> gap e m -> gap o m.
Proof. intros He [Hr Hm]. split; [|done]. by eapply rtc_l. Qed.

Lemma gap_not_whole o m : gap o m -> ~ whole o.
Proof. intros [Hr [o' Ho]] Hw. destruct (Hw m Hr) as [record Hrec]. unfold reads_as in Hrec. congruence. Qed.

Lemma whole_edges o record :
  reads_as o record -> (forall e, e ∈ or_edges record -> whole e) -> whole o.
Proof.
  intros Hrec He p Hp. apply rtc_inv in Hp as [<-|(e & (record' & Hrec' & Hin) & Hp)]; [eauto|].
  unfold reads_as in *. assert (record' = record) as -> by congruence. by apply (He e).
Qed.

(** ** The invariant *)

(** A frame of the stack, with the object of the frame above it. *)
Record frame_ok (v : Verifier) (f : Frame) (above : option ObjectId) : Prop := {
  fo_reads : exists record, reads_as (fr_oid f) record /\ fr_edges f = or_edges record;
  fo_seen i e : i < fr_next f -> fr_edges f !! i = Some e -> is_Some (v_state v !! e);
  fo_complete i e : fr_complete f = true -> i < fr_next f -> fr_edges f !! i = Some e ->
    v_state v !! e = Some NodeComplete \/ above = Some e;
  fo_tainted : fr_complete f = false -> is_Some (fr_missing f);
  fo_missing m : fr_missing f = Some m -> gap (fr_oid f) m;
  fo_above e : above = Some e -> edge (fr_oid f) e;
}.

Fixpoint stack_ok (v : Verifier) (above : option ObjectId) (stack : list Frame) : Prop :=
  match stack with
  | [] => True
  | f :: below => frame_ok v f above /\ stack_ok v (Some (fr_oid f)) below
  end.

Context (eligible : list ProtectedRoot).

(** The objects the current root reaches. *)
Definition reached_now (v : Verifier) (o : ObjectId) : Prop :=
  exists root, eligible !! v_current v = Some root /\ reaches (pr_oid root) o.

Record walked (v : Verifier) (stack : list Frame) : Prop := {
  wk_open o : v_state v !! o = Some InProgress <-> o ∈ fr_oid <$> stack;
  wk_once : NoDup (fr_oid <$> stack);
  wk_complete o : v_state v !! o = Some NodeComplete -> whole o;
  wk_incomplete o : v_state v !! o = Some NodeIncomplete ->
    exists m, v_first_missing v !! o = Some m /\ gap o m;
  wk_closed o e s : v_state v !! o = Some s -> s <> InProgress -> edge o e -> is_Some (v_state v !! e);
  wk_stack : stack_ok v None stack;
  wk_now f : f ∈ stack -> reached_now v (fr_oid f);
  wk_reached o : is_Some (v_state v !! o) ->
    exists root, root ∈ eligible /\ reaches (pr_oid root) o;
  wk_origin o i : v_origin v !! o = Some i ->
    exists root, eligible !! i = Some root /\ reaches (pr_oid root) o;
  wk_target o s : v_state v !! o = Some s -> s <> NodeIncomplete -> o ∈ v_targets v ->
    is_Some (v_origin v !! o);
}.

(** What the walk never touches, and what it only grows. *)
Record grows (v v' : Verifier) : Prop := {
  gr_current : v_current v' = v_current v;
  gr_targets : v_targets v' = v_targets v;
  gr_decided o s : v_state v !! o = Some s -> s <> InProgress -> v_state v' !! o = Some s;
  gr_seen o : is_Some (v_state v !! o) -> is_Some (v_state v' !! o);
}.

Lemma grows_refl v : grows v v.
Proof. by split. Qed.

Lemma grows_trans v1 v2 v3 : grows v1 v2 -> grows v2 v3 -> grows v1 v3.
Proof. intros [] []. split; try congruence; eauto. Qed.

Lemma frame_ok_grows v v' f above : grows v v' -> frame_ok v f above -> frame_ok v' f above.
Proof.
  intros G []. split; [done| | |done|done|done].
  - intros i e Hi He. eapply gr_seen; eauto.
  - intros i e Hc Hi He. destruct (fo_complete0 i e Hc Hi He) as [Hs|]; [left|by right].
    by eapply gr_decided.
Qed.

Lemma stack_ok_grows v v' above stack : grows v v' -> stack_ok v above stack -> stack_ok v' above stack.
Proof.
  intros G. revert above. induction stack as [|f below IH]; intros above; [done|].
  intros [Hf Hb]. split; [by eapply frame_ok_grows|by apply IH].
Qed.

(** Every object below on the stack reaches the top's. *)
Lemma stack_reaches v above f below o :
  stack_ok v above (f :: below) -> o ∈ fr_oid <$> below -> tc edge o (fr_oid f).
Proof.
  revert above f. induction below as [|g below IH]; intros above f [Hf Hb] Ho; [by apply elem_of_nil in Ho|].
  assert (Hgf : edge (fr_oid g) (fr_oid f)) by (apply (fo_above _ _ _ (proj1 Hb)); done).
  rewrite fmap_cons in Ho. apply elem_of_cons in Ho as [->|Ho]; [by apply tc_once|].
  eapply tc_r; [by eapply (IH (Some (fr_oid f)) g)|done].
Qed.

(** No edge of the top is on the stack. *)
Lemma top_edge_new v f below e :
  acyclic -> stack_ok v None (f :: below) -> edge (fr_oid f) e -> e ∉ fr_oid <$> (f :: below).
Proof.
  intros Hac Hs He Hin. rewrite fmap_cons in Hin. apply elem_of_cons in Hin as [->|Hin].
  - apply (Hac (fr_oid f)). by apply tc_once.
  - apply (Hac e). eapply tc_r; [by eapply stack_reaches|done].
Qed.

(** ** One operation *)

Definition same_core (v v' : Verifier) : Prop :=
  v_state v' = v_state v /\ v_first_missing v' = v_first_missing v /\ v_targets v' = v_targets v /\
  v_origin v' = v_origin v /\ v_current v' = v_current v.

Lemma charge_core v n v' : charge_to v n = Ok v' -> same_core v v'.
Proof. unfold charge_to. intros (b & _ & [= <-])%rbind_ok. done. Qed.

Lemma same_core_trans v1 v2 v3 : same_core v1 v2 -> same_core v2 v3 -> same_core v1 v3.
Proof. intros (? & ? & ? & ? & ?) (? & ? & ? & ? & ?). split_and!; congruence. Qed.

Lemma core_grows v v' : same_core v v' -> grows v v'.
Proof. intros (E & ? & ? & ? & ?). split; try done; rewrite E; by eauto. Qed.

Lemma walked_core v v' stack : same_core v v' -> walked v stack -> walked v' stack.
Proof.
  intros HC [W1 W2 W3 W4 W5 W6 W7 W8 W9 W10]. pose proof HC as (E1 & E2 & E3 & E4 & E5).
  split; unfold reached_now in *; rewrite ?E1, ?E2, ?E3, ?E4, ?E5; try done.
  eapply stack_ok_grows; [by apply core_grows|done].
Qed.

Lemma record_origin_core v o v' :
  record_origin sizes v o = Ok v' ->
  v_state v' = v_state v /\ v_first_missing v' = v_first_missing v /\ v_targets v' = v_targets v /\
  v_current v' = v_current v /\
  v_origin v' = if bool_decide (o ∈ v_targets v) && bool_decide (v_origin v !! o = None)
                then <[o := v_current v]> (v_origin v) else v_origin v.
Proof.
  unfold record_origin. destruct (_ && _); [|by intros [= <-]].
  intros (v1 & (E1 & E2 & E3 & E4 & E5)%charge_core & [= <-])%rbind_ok. simpl.
  split_and!; try done. by rewrite E4, E5.
Qed.

(** What [open] does with an object not seen before. *)
Definition opened_as (v : Verifier) (o : ObjectId) (opened : option Frame) (v' : Verifier) : Prop :=
  v_targets v' = v_targets v /\ v_current v' = v_current v /\
  match opened with
  | Some f =>
      (exists record charged, reads_as o record /\ f = mkFrame o (or_edges record) 0 true None charged) /\
      v_state v' = <[o := InProgress]> (v_state v) /\ v_first_missing v' = v_first_missing v /\
      v_origin v' = if bool_decide (o ∈ v_targets v) && bool_decide (v_origin v !! o = None)
                    then <[o := v_current v]> (v_origin v) else v_origin v
  | None =>
      absent o /\ v_state v' = <[o := NodeIncomplete]> (v_state v) /\
      v_first_missing v' = <[o := o]> (v_first_missing v) /\ v_origin v' = v_origin v
  end.

Lemma open_spec v o opened v' :
  open sizes reader cancels limits v o = Ok (opened, v') -> opened_as v o opened v'.
Proof.
  unfold open. cbv zeta. destruct (cancels (v_polls v)); [done|].
  intros (v1 & (E1 & E2 & E3 & E4 & E5)%charge_core & Hk)%rbind_ok.
  cbn in E1, E2, E3, E4, E5. destruct (read_object reader o (reads limits)) as [record|error] eqn:Hr.
  - apply rbind_ok in Hk as (v2 & (F1 & F2 & F3 & F4 & F5)%record_origin_core & Hk).
    cbn in F1, F2, F3, F4, F5.
    apply rbind_ok in Hk as (v3 & (G1 & G2 & G3 & G4 & G5)%charge_core & [= <- <-]).
    unfold opened_as. rewrite G1, G2, G3, G4, G5, F1, F2, F3, F4, F5, E1, E2, E3, E4, E5.
    split_and!; try done. eexists _, _. done.
  - destruct error; try done. apply rbind_ok in Hk as (v2 & (F1 & F2 & F3 & F4 & F5)%charge_core & [= <- <-]).
    cbn in F1, F2, F3, F4, F5. unfold opened_as. simpl.
    rewrite F1, F2, F3, F4, F5, E1, E2, E3, E4, E5. split_and!; try done. by eexists.
Qed.

Lemma opened_grows v o opened v' :
  v_state v !! o = None -> opened_as v o opened v' -> grows v v'.
Proof.
  intros Hn (E1 & E2 & Hm).
  assert (Hs : exists s, v_state v' = <[o := s]> (v_state v)).
  { destruct opened; [destruct Hm as (_ & -> & _)|destruct Hm as (_ & -> & _)]; eauto. }
  destruct Hs as [s Hs]. split; [done|done|..]; rewrite Hs.
  - intros p s' Hp _. destruct (decide (p = o)) as [->|]; [congruence|]. by rewrite lookup_insert_ne.
  - intros p Hp. destruct (decide (p = o)) as [->|]; [by rewrite lookup_insert_eq|by rewrite lookup_insert_ne].
Qed.

(** *** The top of the stack moves on by an edge *)

Lemma frame_advance v f child complete missing :
  frame_ok v f None -> fr_edges f !! fr_next f = Some child -> is_Some (v_state v !! child) ->
  (complete = true -> fr_complete f = true /\ v_state v !! child = Some NodeComplete) ->
  (complete = false -> is_Some missing) -> (forall m, missing = Some m -> gap (fr_oid f) m) ->
  frame_ok v (mkFrame (fr_oid f) (fr_edges f) (S (fr_next f)) complete missing (fr_charged f)) None.
Proof.
  intros [F1 F2 F3 F4 F5 F6] Hc Hs Ht Hf Hm. split; simpl; try done.
  - intros i e Hi He. destruct (decide (i = fr_next f)) as [->|]; [by simplify_eq|].
    apply (F2 i e); [lia|done].
  - intros i e Hcm Hi He. destruct (Ht Hcm) as [Hcf Hch].
    destruct (decide (i = fr_next f)) as [->|]; [by simplify_eq; left|]. apply (F3 i e); [done|lia|done].
Qed.

Lemma frame_edge v f above child :
  frame_ok v f above -> fr_edges f !! fr_next f = Some child -> edge (fr_oid f) child.
Proof.
  intros [(record & Hr & He) _ _ _ _ _] Hc. exists record. split; [done|]. rewrite <- He.
  by eapply list_elem_of_lookup_2.
Qed.

Lemma walked_top v f f' below :
  walked v (f :: below) -> fr_oid f' = fr_oid f -> frame_ok v f' None -> walked v (f' :: below).
Proof.
  intros [W1 W2 W3 W4 W5 [_ W6] W7 W8 W9 W10] Ho Hf. split; try done.
  - intros o. rewrite W1, !fmap_cons, Ho. done.
  - by rewrite fmap_cons, Ho.
  - split; [done|]. by rewrite Ho.
  - intros g Hg. apply elem_of_cons in Hg as [->|Hg]; [rewrite Ho; apply W7; set_solver|].
    apply W7. set_solver.
Qed.

(** The top learns that a child is incomplete. *)
Lemma frame_taint v f child m :
  frame_ok v f None -> fr_edges f !! fr_next f = Some child -> is_Some (v_state v !! child) ->
  gap child m -> frame_ok v (taint (f <| fr_next := S (fr_next f) |>) (Some m)) None.
Proof.
  intros Hf Hc Hs Hg. pose proof (frame_edge _ _ _ _ Hf Hc) as He.
  unfold taint. simpl. destruct (fr_missing f) as [m'|] eqn:Hm; simpl; rewrite ?Hm;
    apply (frame_advance v f child); try done.
  - intros m'' [= <-]. by apply (fo_missing _ _ _ Hf).
  - intros m'' [= <-]. by eapply gap_edge.
Qed.


(** *** A turn *)

(** The invariant's clauses on the states and origins, when an object is
    first seen. *)
Lemma seen_reached v o v' s :
  reached_now v o -> v_state v' = <[o := s]> (v_state v) ->
  (forall p, is_Some (v_state v !! p) -> exists root, root ∈ eligible /\ reaches (pr_oid root) p) ->
  forall p, is_Some (v_state v' !! p) -> exists root, root ∈ eligible /\ reaches (pr_oid root) p.
Proof.
  intros (root & Hr & Ho) Hs Hv p Hp. destruct (decide (p = o)) as [->|].
  - exists root. split; [by eapply list_elem_of_lookup_2|done].
  - rewrite Hs, lookup_insert_ne in Hp by done. by apply Hv.
Qed.

Lemma push_stack v top below child v' f :
  walked v (top :: below) -> fr_edges top !! fr_next top = Some child -> v_state v !! child = None ->
  opened_as v child (Some f) v' -> stack_ok v' None (f :: (top <| fr_next := S (fr_next top) |>) :: below).
Proof.
  intros W Hc Hn HO. pose proof (opened_grows _ _ _ _ Hn HO) as G.
  destruct HO as (_ & _ & (record & charged & Hrec & ->) & Hs & _ & _).
  destruct (wk_stack _ _ W) as [Hf Hb]. pose proof (frame_edge _ _ _ _ Hf Hc) as He.
  pose proof (frame_ok_grows _ _ _ _ G Hf) as [F1 F2 F3 F4 F5 F6]. split; [|split].
  - split; simpl; try done; [eauto|lia|lia].
  - split; simpl; try done; [| |by intros e [= <-]].
    + intros i e Hi Hie. destruct (decide (i = fr_next top)) as [->|]; [|apply (F2 i e); [lia|done]].
      simplify_eq. by rewrite Hs, lookup_insert_eq.
    + intros i e Hcm Hi Hie. destruct (decide (i = fr_next top)) as [->|]; [simplify_eq; by right|].
      destruct (F3 i e Hcm ltac:(lia) Hie) as [|]; [by left|done].
  - by eapply stack_ok_grows.
Qed.

Lemma turn_pushed v stack stack' child v' f :
  walked v stack -> v_state v !! child = None -> reached_now v child -> opened_as v child (Some f) v' ->
  fr_oid <$> stack' = fr_oid <$> stack -> stack_ok v' None (f :: stack') -> walked v' (f :: stack').
Proof.
  intros W Hn Hnow HO Hst HS. pose proof (opened_grows _ _ _ _ Hn HO) as G.
  destruct HO as (Et & Ec & (record & charged & Hrec & ->) & Hs & Hm & Ho).
  destruct W as [W1 W2 W3 W4 W5 _ W7 W8 W9 W10].
  assert (Hnin : child ∉ fr_oid <$> stack) by (rewrite <- W1; congruence).
  split; try done.
  - intros o. rewrite Hs, fmap_cons, elem_of_cons, Hst. simpl. destruct (decide (o = child)) as [->|].
    + rewrite lookup_insert_eq. naive_solver.
    + rewrite lookup_insert_ne, W1 by done. naive_solver.
  - rewrite fmap_cons, Hst. by apply NoDup_cons.
  - intros o. rewrite Hs. destruct (decide (o = child)) as [->|];
      [by rewrite lookup_insert_eq|rewrite lookup_insert_ne by done; apply W3].
  - intros o. rewrite Hs, Hm. destruct (decide (o = child)) as [->|];
      [by rewrite lookup_insert_eq|rewrite lookup_insert_ne by done; apply W4].
  - intros o e s Ho' Hne He. rewrite Hs in Ho'. destruct (decide (o = child)) as [->|];
      [rewrite lookup_insert_eq in Ho'; congruence|rewrite lookup_insert_ne in Ho' by done].
    eapply gr_seen; [exact G|]. by eapply W5.
  - intros g Hg. unfold reached_now. rewrite Ec. apply elem_of_cons in Hg as [->|Hg]; [done|].
    assert (Hin : fr_oid g ∈ fr_oid <$> stack) by (rewrite <- Hst; by apply list_elem_of_fmap_2).
    apply list_elem_of_fmap in Hin as (g' & -> & Hg'). by apply (W7 g').
  - by eapply (seen_reached v child).
  - intros o i. rewrite Ho. destruct (_ && _); [|apply W9]. destruct (decide (o = child)) as [->|].
    + rewrite lookup_insert_eq. intros [= <-]. done.
    + rewrite lookup_insert_ne by done. apply W9.
  - intros o s. rewrite Hs, Et, Ho. destruct (decide (o = child)) as [->|].
    + rewrite lookup_insert_eq. intros _ _ Ht. rewrite bool_decide_true by done. simpl.
      destruct (v_origin v !! child) eqn:E; [|rewrite bool_decide_true by done; by rewrite lookup_insert_eq].
      rewrite bool_decide_false by done. by rewrite E.
    + rewrite lookup_insert_ne by done. intros H1 H2 H3. pose proof (W10 o s H1 H2 H3).
      destruct (_ && _); [by rewrite lookup_insert_ne|done].
Qed.

Lemma turn_missing v stack child v' :
  walked v stack -> v_state v !! child = None ->
  reached_now v child -> opened_as v child None v' -> walked v' stack.
Proof.
  intros W Hn Hnow HO. pose proof (opened_grows _ _ _ _ Hn HO) as G.
  destruct HO as (Et & Ec & Ha & Hs & Hm & Ho). destruct W as [W1 W2 W3 W4 W5 W6 W7 W8 W9 W10].
  split; try done.
  - intros o. rewrite Hs. destruct (decide (o = child)) as [->|]; [|by rewrite lookup_insert_ne].
    rewrite lookup_insert_eq. rewrite <- W1. split; congruence.
  - intros o. rewrite Hs. destruct (decide (o = child)) as [->|];
      [by rewrite lookup_insert_eq|rewrite lookup_insert_ne by done; apply W3].
  - intros o. rewrite Hs, Hm. destruct (decide (o = child)) as [->|];
      [|rewrite !lookup_insert_ne by done; apply W4].
    rewrite !lookup_insert_eq. intros _. exists child. split; [done|]. split; [apply rtc_refl|done].
  - intros o e s Ho' Hne He. rewrite Hs in Ho'. eapply gr_seen; [exact G|].
    destruct (decide (o = child)) as [->|]; [|rewrite lookup_insert_ne in Ho' by done; by eapply W5].
    destruct Ha as [o' Ha], He as (record & Hr & _). unfold reads_as in Hr. congruence.
  - by eapply stack_ok_grows.
  - intros f Hf. unfold reached_now. rewrite Ec. by apply W7.
  - by eapply (seen_reached v child).
  - intros o i. rewrite Ho. apply W9.
  - intros o s. rewrite Hs, Et, Ho. destruct (decide (o = child)) as [->|];
      [rewrite lookup_insert_eq; congruence|rewrite lookup_insert_ne by done; apply W10].
Qed.

Lemma turn_opened v top below child opened v' :
  walked v (top :: below) -> fr_edges top !! fr_next top = Some child ->
  v_state v !! child = None -> opened_as v child opened v' ->
  walked v' (match opened with
             | Some frame => frame :: (top <| fr_next := S (fr_next top) |>) :: below
             | None => taint (top <| fr_next := S (fr_next top) |>) (Some child) :: below
             end).
Proof.
  intros W Hc Hn HO. pose proof (wk_stack _ _ W) as [Hf _].
  assert (Hnow : reached_now v child).
  { destruct (wk_now _ _ W top (list_elem_of_here _ _)) as (root & Hr & Hp). exists root. split; [done|].
    eapply rtc_r; [done|]. by eapply frame_edge. }
  destruct opened as [f|].
  { eapply turn_pushed; [done..| |by eapply push_stack]. by rewrite !fmap_cons. }
  pose proof (turn_missing _ _ _ _ W Hn Hnow HO) as W'. destruct HO as (_ & _ & Ha & Hs & _).
  eapply walked_top; [exact W'|unfold taint; simpl; by destruct (fr_missing top)|].
  destruct (wk_stack _ _ W') as [Hf' _]. eapply (frame_taint _ _ child); [done|done| |].
  - by rewrite Hs, lookup_insert_eq.
  - split; [apply rtc_refl|done].
Qed.

(** A frame that has seen all its edges decides its object. *)
Definition closed_as (v : Verifier) (f : Frame) (v' : Verifier) : Prop :=
  v_targets v' = v_targets v /\ v_origin v' = v_origin v /\ v_current v' = v_current v /\
  v_state v' = <[fr_oid f := if fr_complete f then NodeComplete else NodeIncomplete]> (v_state v) /\
  v_first_missing v' =
    match fr_complete f, fr_missing f with
    | false, Some m => <[fr_oid f := m]> (v_first_missing v)
    | _, _ => v_first_missing v
    end.

Lemma close_frame_spec v f below v' stack' :
  close_frame sizes v f below = Ok (v', stack') ->
  closed_as v f v' /\
  stack' = match below with
           | parent :: rest => if fr_complete f then below else taint parent (fr_missing f) :: rest
           | [] => []
           end.
Proof.
  unfold close_frame. cbv zeta. intros (v1 & Hv & [= <- <-])%rbind_ok. split; cycle 1.
  { destruct below, (fr_complete f); done. }
  unfold closed_as. destruct (fr_complete f); [by injection Hv as <-|].
  destruct (fr_missing f) as [m|]; [|by injection Hv as <-].
  apply rbind_ok in Hv as (v2 & (E1 & E2 & E3 & E4 & E5)%charge_core & [= <-]).
  cbn in E1, E2, E3, E4, E5. simpl. by rewrite E1, E2, E3, E4, E5.
Qed.

Lemma closed_verdict v f :
  (forall o, v_state v !! o = Some NodeComplete -> whole o) ->
  frame_ok v f None -> fr_edges f !! fr_next f = None ->
  if fr_complete f then whole (fr_oid f)
  else exists m, fr_missing f = Some m /\ gap (fr_oid f) m.
Proof.
  intros Hw [(record & Hr & He) _ F3 F4 F5 _] Hn. apply lookup_ge_None in Hn.
  destruct (fr_complete f) eqn:Hc.
  - apply (whole_edges _ record Hr). intros e Hin. rewrite <- He in Hin.
    apply list_elem_of_lookup in Hin as [i Hi]. pose proof (lookup_lt_Some _ _ _ Hi).
    destruct (F3 i e eq_refl ltac:(lia) Hi) as [Hs|]; [by apply Hw|done].
  - destruct (F4 eq_refl) as [m Hm]. exists m. split; [done|by apply F5].
Qed.

Lemma closed_grows v f v' : v_state v !! fr_oid f = Some InProgress -> closed_as v f v' -> grows v v'.
Proof.
  intros Hp (E1 & E2 & E3 & E4 & E5). split; [done|done|..]; rewrite E4; intros o.
  - intros s Ho Hs. rewrite lookup_insert_ne; [done|]. intros <-. congruence.
  - intros Ho. destruct (decide (fr_oid f = o)) as [<-|];
      [by rewrite lookup_insert_eq|by rewrite lookup_insert_ne].
Qed.

(** The parent of a closed frame. *)
Lemma parent_closed v f v' parent rest :
  grows v v' -> closed_as v f v' -> stack_ok v (Some (fr_oid f)) (parent :: rest) ->
  (fr_complete f = false -> exists m, fr_missing f = Some m /\ gap (fr_oid f) m) ->
  stack_ok v' None ((if fr_complete f then parent else taint parent (fr_missing f)) :: rest).
Proof.
  intros G (_ & _ & _ & Hs & _) [Hp Hr] Hm. pose proof (frame_ok_grows _ _ _ _ G Hp) as [F1 F2 F3 F4 F5 F6].
  split; cycle 1.
  { apply (stack_ok_grows _ _ _ _ G) in Hr. destruct (fr_complete f); [done|].
    unfold taint. simpl. by destruct (fr_missing parent). }
  destruct (fr_complete f) eqn:Hc.
  - split; try done. intros i e Hcm Hi He. destruct (F3 i e Hcm Hi He) as [|[= <-]]; [by left|left].
    by rewrite Hs, lookup_insert_eq.
  - destruct (Hm eq_refl) as (m & -> & Hg). unfold taint. simpl.
    pose proof (F6 _ eq_refl) as He.
    destruct (fr_missing parent) as [m'|] eqn:Hpm; split; simpl; rewrite ?Hpm; try done.
    intros m0 [= <-]. by eapply gap_edge.
Qed.

Lemma turn_closed v top below v' stack' :
  walked v (top :: below) -> fr_edges top !! fr_next top = None ->
  close_frame sizes v top below = Ok (v', stack') -> walked v' stack' /\ grows v v'.
Proof.
  intros W Hn (HC & ->)%close_frame_spec. pose proof W as [W1 W2 W3 W4 W5 [Hf Hb] W7 W8 W9 W10].
  assert (Hp : v_state v !! fr_oid top = Some InProgress) by (apply W1; set_solver).
  pose proof (closed_grows _ _ _ Hp HC) as G. split; [|done].
  pose proof (closed_verdict v top W3 Hf Hn) as HV.
  rewrite fmap_cons in W2. apply NoDup_cons in W2 as [Hnin Hnd].
  set (stack' := match below with [] => _ | _ => _ end).
  assert (Hoids : fr_oid <$> stack' = fr_oid <$> below).
  { unfold stack'. destruct below as [|p r]; [done|]. destruct (fr_complete top); [done|].
    unfold taint. simpl. by destruct (fr_missing p). }
  assert (HS : stack_ok v' None stack').
  { unfold stack'. destruct below as [|p r]; [done|].
    pose proof (parent_closed v top v' p r G HC Hb) as H. destruct (fr_complete top); by apply H. }
  destruct HC as (Et & Eo & Ec & Es & Em).
  assert (Hlook : forall o, o <> fr_oid top -> v_state v' !! o = v_state v !! o).
  { intros o Ho. by rewrite Es, lookup_insert_ne. }
  assert (Htop : v_state v' !! fr_oid top = Some (if fr_complete top then NodeComplete else NodeIncomplete)).
  { by rewrite Es, lookup_insert_eq. }
  clearbody stack'. clear Es. split; try done.
  - intros o. rewrite Hoids. destruct (decide (o = fr_oid top)) as [->|Hne].
    + rewrite Htop. split; [by destruct (fr_complete top)|done].
    + rewrite Hlook, W1, fmap_cons, elem_of_cons by done. naive_solver.
  - by rewrite Hoids.
  - intros o. destruct (decide (o = fr_oid top)) as [->|]; [|rewrite Hlook by done; apply W3].
    rewrite Htop. by destruct (fr_complete top).
  - intros o. rewrite Em. destruct (decide (o = fr_oid top)) as [->|Hne].
    + rewrite Htop. destruct (fr_complete top); [done|]. destruct HV as (m & -> & Hg). intros _.
      exists m. by rewrite lookup_insert_eq.
    + rewrite Hlook by done. intros Ho. destruct (W4 o Ho) as (m & Hm & Hg). exists m. split; [|done].
      destruct (fr_complete top), (fr_missing top); try done. by rewrite lookup_insert_ne.
  - intros o e s Ho Hs He. eapply gr_seen; [exact G|].
    destruct (decide (o = fr_oid top)) as [->|]; [|rewrite Hlook in Ho by done; by eapply W5].
    destruct (fo_reads _ _ _ Hf) as (record & Hr & Hed). destruct He as (record' & Hr' & Hin).
    unfold reads_as in *. assert (record' = record) as -> by congruence. rewrite <- Hed in Hin.
    apply list_elem_of_lookup in Hin as [i Hi]. apply (fo_seen _ _ _ Hf i e); [|done].
    pose proof (lookup_lt_Some _ _ _ Hi). apply lookup_ge_None in Hn. lia.
  - intros f Hin. unfold reached_now. rewrite Ec.
    assert (Ho : fr_oid f ∈ fr_oid <$> below) by (rewrite <- Hoids; by apply list_elem_of_fmap_2).
    apply list_elem_of_fmap in Ho as (g & -> & Hg). apply (W7 g). set_solver.
  - intros o Ho. apply W8. destruct (decide (o = fr_oid top)) as [->|]; [by rewrite Hp|].
    by rewrite Hlook in Ho.
  - rewrite Eo. apply W9.
  - intros o s. rewrite Et, Eo. destruct (decide (o = fr_oid top)) as [->|];
      [intros _ _; by apply (W10 _ InProgress)|rewrite Hlook by done; apply W10].
Qed.

Lemma walk_turn_walked v top below v' stack' :
  acyclic -> walked v (top :: below) ->
  walk_turn sizes reader cancels limits v top below = Ok (v', stack') ->
  walked v' stack' /\ grows v v'.
Proof.
  intros Hac W. unfold walk_turn. cbv zeta.
  destruct (fr_edges top !! fr_next top) as [child|] eqn:Hc; [|by apply turn_closed].
  pose proof (wk_stack _ _ W) as Hs. pose proof Hs as [Hf _].
  pose proof (frame_edge _ _ _ _ Hf Hc) as He.
  destruct (v_state v !! child) as [[]|] eqn:Hst.
  - exfalso. apply (wk_open _ _ W) in Hst. by apply (top_edge_new _ _ _ _ Hac Hs He).
  - intros [= <- <-]. split; [|apply grows_refl]. eapply walked_top; [exact W|done|].
    apply (frame_advance v top child); [done..| |apply Hf|apply Hf].
    intros Hcm. by split.
  - intros [= <- <-]. split; [|apply grows_refl]. destruct (wk_incomplete _ _ W _ Hst) as (m & Hm & Hg).
    rewrite Hm. eapply walked_top; [exact W| |eapply frame_taint; [done..]].
    unfold taint. simpl. by destruct (fr_missing top).
  - intros ((opened & v1) & HO & [= <- <-])%rbind_ok. apply open_spec in HO.
    split; [by eapply turn_opened|by eapply opened_grows].
Qed.

(** ** The walk from each root *)

Lemma walk_loop_walked fuel v stack v' :
  acyclic -> walked v stack -> walk_loop sizes reader cancels limits fuel v stack = Some (Ok v') ->
  walked v' [] /\ grows v v'.
Proof.
  intros Hac. revert v stack. induction fuel as [|fuel IH]; intros v [|top below] W; simpl; try done.
  - intros [= <-]. split; [done|apply grows_refl].
  - intros [= <-]. split; [done|apply grows_refl].
  - destruct (walk_turn sizes reader cancels limits v top below) as [[v1 stack1]|reason] eqn:Ht; [|done].
    intros Hl. destruct (walk_turn_walked _ _ _ _ _ Hac W Ht) as [W1 G1].
    destruct (IH _ _ W1 Hl) as [W2 G2]. split; [done|by eapply grows_trans].
Qed.

Lemma walk_walked fuel v root v' :
  acyclic -> walked v [] -> eligible !! v_current v = Some root ->
  walk sizes reader cancels limits fuel v (pr_oid root) = Some (Ok v') ->
  walked v' [] /\ grows v v' /\ is_Some (v_state v' !! pr_oid root).
Proof.
  intros Hac W Hroot. unfold walk. destruct (v_state v !! pr_oid root) as [st|] eqn:Hst.
  { intros [= <-]. split_and!; [done|apply grows_refl|by rewrite Hst]. }
  destruct (open sizes reader cancels limits v (pr_oid root)) as [[opened v1]|reason] eqn:HO; [|done].
  apply open_spec in HO. pose proof (opened_grows _ _ _ _ Hst HO) as G.
  assert (Hnow : reached_now v (pr_oid root)) by (exists root; split; [done|apply rtc_refl]).
  destruct opened as [f|].
  - intros Hl. pose proof HO as (_ & _ & (record & charged & Hrec & ->) & Hs & _).
    assert (W1 : walked v1 [mkFrame (pr_oid root) (or_edges record) 0 true None charged]).
    { eapply turn_pushed; [done..|]. split; [|done]. split; simpl; try done; [eauto|lia|lia]. }
    destruct (walk_loop_walked _ _ _ _ Hac W1 Hl) as [W2 G2].
    split_and!; [done|by eapply grows_trans|]. eapply gr_seen; [exact G2|]. by rewrite Hs, lookup_insert_eq.
  - intros [= <-]. pose proof HO as (_ & _ & _ & Hs & _).
    split_and!; [by eapply turn_missing|done|by rewrite Hs, lookup_insert_eq].
Qed.

Lemma walked_current v i : walked v [] -> walked (v <| v_current := i |>) [].
Proof. intros []. split; try done. intros f Hf. by apply elem_of_nil in Hf. Qed.

Lemma walk_roots_walked fuel i v roots v' :
  acyclic -> walked v [] -> drop i eligible = roots ->
  walk_roots sizes reader cancels limits fuel i v roots = Some (Ok v') ->
  walked v' [] /\ v_targets v' = v_targets v /\
  (forall o, is_Some (v_state v !! o) -> is_Some (v_state v' !! o)) /\
  (forall root, root ∈ roots -> is_Some (v_state v' !! pr_oid root)).
Proof.
  intros Hac. revert i v. induction roots as [|root roots IH]; intros i v W Hd; cbn [walk_roots].
  { intros [= <-]. split_and!; [done|done|done|]. intros root Hr. by apply elem_of_nil in Hr. }
  assert (Hi : eligible !! i = Some root).
  { rewrite <- (Nat.add_0_r i). by rewrite <- lookup_drop, Hd. }
  destruct (walk sizes reader cancels limits fuel (v <| v_current := i |>) (pr_oid root)) as [[v1|]|] eqn:Hw; try done.
  intros Hl. destruct (walk_walked _ (v <| v_current := i |>) _ _ Hac (walked_current _ _ W) Hi Hw)
    as (W1 & [_ Ht _ Gs] & H1).
  destruct (IH (S i) v1 W1) as (W2 & T2 & S2 & R2); [|done|].
  { rewrite <- (Nat.add_1_r i), <- drop_drop, Hd. done. }
  split_and!; [done|by rewrite T2|eauto|]. intros r Hr. apply elem_of_cons in Hr as [->|Hr]; [by apply S2|].
  by apply R2.
Qed.

(** What the walk from every eligible root decides. *)
Lemma walked_decides v :
  acyclic -> walked v [] -> (forall root, root ∈ eligible -> is_Some (v_state v !! pr_oid root)) ->
  forall o,
  match v_state v !! o with
  | Some NodeComplete => whole o /\ exists root, root ∈ eligible /\ reaches (pr_oid root) o
  | Some NodeIncomplete => exists m, v_first_missing v !! o = Some m /\ gap o m
  | Some InProgress => False
  | None => forall root, root ∈ eligible -> ~ reaches (pr_oid root) o
  end.
Proof.
  intros Hac W Hroots o.
  assert (Hno : forall p, v_state v !! p <> Some InProgress).
  { intros p Hp. apply (wk_open _ _ W) in Hp. by apply elem_of_nil in Hp. }
  destruct (v_state v !! o) as [[]|] eqn:Ho.
  - by apply (Hno o).
  - split; [by apply (wk_complete _ _ W)|apply (wk_reached _ _ W); by rewrite Ho].
  - by apply (wk_incomplete _ _ W).
  - intros root Hr Hp. pose proof (Hroots root Hr) as Hsome. revert Hsome. generalize dependent (pr_oid root).
    intros r Hp. induction Hp as [r|r p o He Hp IH]; intros [s Hs]; [congruence|].
    apply IH; [done|]. eapply (wk_closed _ _ W); [exact Hs| |done]. intros ->. by apply (Hno r).
Qed.

(** *** [run] *)

Lemma charge_targets_core v roots v' :
  charge_targets sizes v roots = Ok v' ->
  v_state v' = v_state v /\ v_first_missing v' = v_first_missing v /\ v_origin v' = v_origin v /\
  v_targets v' = list_to_set (pr_oid <$> roots) ∪ v_targets v.
Proof.
  revert v. induction roots as [|root roots IH]; intros v; cbn [charge_targets].
  { intros [= <-]. split_and!; try done. set_solver. }
  intros (v1 & (E1 & E2 & E3 & E4 & E5)%charge_core & Hk)%rbind_ok.
  apply IH in Hk as (F1 & F2 & F3 & F4). rewrite F1, F2, F3, F4. simpl.
  split_and!; [done..|]. rewrite E3. set_solver.
Qed.

Lemma charge_roots_core v roots v' : charge_roots sizes v roots = Ok v' -> same_core v v'.
Proof.
  revert v. induction roots as [|root roots IH]; intros v; cbn [charge_roots]; [by intros [= <-]|].
  intros (v1 & HC%charge_core & Hk%IH)%rbind_ok. by eapply same_core_trans.
Qed.

Lemma walked_start v : v_state v = ∅ -> v_origin v = ∅ -> walked v [].
Proof.
  intros Hs Ho. split.
  - intros o. rewrite Hs, lookup_empty. split; [done|]. by intros ?%elem_of_nil.
  - apply NoDup_nil_2.
  - intros o. by rewrite Hs, lookup_empty.
  - intros o. by rewrite Hs, lookup_empty.
  - intros o e s. by rewrite Hs, lookup_empty.
  - done.
  - by intros f ?%elem_of_nil.
  - intros o [s H]. by rewrite Hs, lookup_empty in H.
  - intros o i. by rewrite Ho, lookup_empty.
  - intros o s. by rewrite Hs, lookup_empty.
Qed.

Lemma run_verifier_walked fuel protected v :
  acyclic -> run_verifier sizes reader cancels limits fuel protected eligible = Some (Ok v) ->
  walked v [] /\ (forall root, root ∈ eligible -> is_Some (v_state v !! pr_oid root)) /\
  (forall root, root ∈ pr_roots protected -> pr_oid root ∈ v_targets v).
Proof.
  intros Hac. unfold run_verifier.
  destruct (let? v0 := _ in _) as [v1|] eqn:Hc; [|done]. intros Hw.
  apply rbind_ok in Hc as (v0 & (F1 & F2 & F3 & F4)%charge_targets_core & (G1 & G2 & G3 & G4 & G5)%charge_roots_core).
  destruct (walk_roots_walked fuel 0 v1 eligible v Hac) as (W & T & _ & R); [|done|done|].
  { apply walked_start; [by rewrite G1, F1|by rewrite G4, F3]. }
  split_and!; [done|done|]. intros root Hr. rewrite T, G3, F4. apply elem_of_union_l, elem_of_list_to_set.
  by apply list_elem_of_fmap_2.
Qed.

(** A protected root the witness retains: whole, and reached by a root that
    may certify it. *)
Definition preserved (root : ProtectedRoot) : Prop :=
  whole (pr_oid root) /\ exists w, w ∈ eligible /\ reaches (pr_oid w) (pr_oid root).

Lemma conclude_root_exact fuel protected v attribution root :
  acyclic -> run_verifier sizes reader cancels limits fuel protected eligible = Some (Ok v) ->
  root ∈ pr_roots protected ->
  match conclude_root v attribution eligible root with
  | Ok c => preserved root /\ rc_root c = root /\ rc_witness_root c ∈ eligible /\
            reaches (pr_oid (rc_witness_root c)) (pr_oid root)
  | Err u => ~ preserved root /\ ui_root u = root /\
             forall m, ui_missing u = Some m -> gap (pr_oid root) m
  end.
Proof.
  intros Hac Hrun Hin. destruct (run_verifier_walked _ _ _ Hac Hrun) as (W & Hroots & Ht).
  pose proof (walked_decides v Hac W Hroots (pr_oid root)) as HD. unfold conclude_root.
  destruct (v_state v !! pr_oid root) as [[]|] eqn:Hs; [done|..].
  - destruct (wk_target _ _ W _ _ Hs ltac:(done) (Ht root Hin)) as [i Hi].
    destruct (wk_origin _ _ W _ _ Hi) as (w & Hw & Hr). rewrite Hi. simpl. rewrite Hw. simpl.
    split_and!; [done|done|by eapply list_elem_of_lookup_2|done].
  - destruct HD as (m & Hm & Hg). simpl. split_and!; [|done|rewrite Hm; by intros ? [= <-]].
    intros [Hw _]. by eapply gap_not_whole.
  - simpl. split_and!; [|done|done]. intros [_ (w & Hw & Hr)]. by eapply HD.
Qed.

Lemma conclude_roots_exact fuel protected v attribution roots :
  acyclic -> run_verifier sizes reader cancels limits fuel protected eligible = Some (Ok v) ->
  (forall root, root ∈ roots -> root ∈ pr_roots protected) ->
  let '(cs, us) := conclude_roots v attribution eligible roots in
  (forall root, root ∈ roots -> root ∈ rc_root <$> cs <-> preserved root) /\
  (forall root, root ∈ roots -> root ∈ ui_root <$> us <-> ~ preserved root) /\
  (us = [] -> rc_root <$> cs = roots) /\
  (forall c, c ∈ cs -> preserved (rc_root c) /\ rc_witness_root c ∈ eligible /\
     reaches (pr_oid (rc_witness_root c)) (pr_oid (rc_root c))) /\
  (forall u, u ∈ us -> ~ preserved (ui_root u) /\
     forall m, ui_missing u = Some m -> gap (pr_oid (ui_root u)) m).
Proof.
  intros Hac Hrun. induction roots as [|root roots IH]; intros Hin; cbn [conclude_roots].
  { split_and!; try done; intros ? ?%elem_of_nil; done. }
  assert (Hin' : forall r, r ∈ roots -> r ∈ pr_roots protected) by set_solver. specialize (IH Hin').
  destruct (conclude_roots v attribution eligible roots) as [cs us]. destruct IH as (I1 & I2 & I3 & I4 & I5).
  pose proof (conclude_root_exact fuel protected v attribution root Hac Hrun ltac:(set_solver)) as HR.
  destruct (conclude_root v attribution eligible root) as [c|u].
  - destruct HR as (Hp & <- & Hw & Hr). split_and!.
    + intros r Hr'. rewrite fmap_cons, elem_of_cons. apply elem_of_cons in Hr' as [->|Hr']; [tauto|].
      rewrite I1 by done. split; [intros [->|]; done|by right].
    + intros r Hr'. apply elem_of_cons in Hr' as [->|Hr']; [|by apply I2].
      split; [|done]. intros (u & Hu & Hin2)%list_elem_of_fmap. destruct (I5 u Hin2) as [Hn _]. by rewrite <- Hu in Hn.
    + intros Hu. by rewrite fmap_cons, I3.
    + intros c' Hc. apply elem_of_cons in Hc as [->|Hc]; [done|by apply I4].
    + done.
  - destruct HR as (Hp & <- & Hm). split_and!.
    + intros r Hr'. apply elem_of_cons in Hr' as [->|Hr']; [|by apply I1].
      split; [|done]. intros (c & Hc & Hin2)%list_elem_of_fmap. destruct (I4 c Hin2) as [Hn _]. by rewrite <- Hc in Hn.
    + intros r Hr'. rewrite fmap_cons, elem_of_cons. apply elem_of_cons in Hr' as [->|Hr']; [tauto|].
      rewrite I2 by done. split; [intros [->|]; done|by right].
    + done.
    + done.
    + intros u' Hu. apply elem_of_cons in Hu as [->|Hu]; [done|by apply I5].
Qed.

Lemma conclude_roots_split fuel protected v attribution roots :
  acyclic -> run_verifier sizes reader cancels limits fuel protected eligible = Some (Ok v) ->
  (forall root, root ∈ roots -> root ∈ pr_roots protected) ->
  let '(cs, us) := conclude_roots v attribution eligible roots in
  (forall root, root ∈ roots -> root ∈ rc_root <$> cs \/ root ∈ ui_root <$> us) /\
  (forall u, u ∈ us -> ui_root u ∈ roots).
Proof.
  intros Hac Hrun. induction roots as [|root roots IH]; intros Hin; cbn [conclude_roots].
  { split; intros ? ?%elem_of_nil; done. }
  specialize (IH ltac:(set_solver)). destruct (conclude_roots v attribution eligible roots) as [cs us].
  destruct IH as [I1 I2].
  pose proof (conclude_root_exact fuel protected v attribution root Hac Hrun ltac:(set_solver)) as HR.
  destruct (conclude_root v attribution eligible root) as [c|u]; destruct HR as (_ & <- & _);
    rewrite fmap_cons; (split; [intros r Hr; apply elem_of_cons in Hr as [->|Hr]|]);
    try (destruct (I1 _ Hr)); try (by left; left); try (by right; left); try (by left; right); try (by left);
    try (by right); try (by right; right).
  - intros u Hu. right. by apply I2.
  - intros u' Hu. apply elem_of_cons in Hu as [->|Hu]; [left|right; by apply I2].
Qed.

End walked.

(** ** Termination *)

Section ends.
Context (sizes : Sizes) (reader : ObjectReader) (cancels : nat -> bool) (limits : HistoryLimits).
Context (objects : list ObjectId).

(** The turns an object takes: one for each edge and one to close it. *)
Definition weight (o : ObjectId) : nat :=
  match read_object reader o (reads limits) with Ok r => S (length (or_edges r)) | Err _ => 0 end.

Definition store_size : nat := sum_list_with weight objects.

(** The store holds no other readable object. *)
Definition store_holds : Prop := forall o r, reads_as reader limits o r -> o ∈ objects.

Definition unseen (v : Verifier) : nat :=
  sum_list_with (fun o => match v_state v !! o with None => weight o | Some _ => 0 end) objects.

Definition pending_work (stack : list Frame) : nat :=
  sum_list_with (fun f => S (length (fr_edges f) - fr_next f)) stack.

Lemma unseen_insert v v' o st :
  v_state v' = <[o := st]> (v_state v) -> unseen v' <= unseen v.
Proof.
  unfold unseen. intros ->. induction objects as [|p l IH]; [done|]. simpl.
  destruct (decide (p = o)) as [->|]; [rewrite lookup_insert_eq; lia|].
  rewrite lookup_insert_ne by done. lia.
Qed.

Lemma unseen_drops v v' o st :
  o ∈ objects -> v_state v !! o = None -> v_state v' = <[o := st]> (v_state v) ->
  unseen v' + weight o <= unseen v.
Proof.
  unfold unseen. intros Hin Hn Hs. induction objects as [|p l IH]; [by apply elem_of_nil in Hin|]. simpl.
  assert (Hle : sum_list_with (fun o => match v_state v' !! o with None => weight o | Some _ => 0 end) l
                <= sum_list_with (fun o => match v_state v !! o with None => weight o | Some _ => 0 end) l).
  { rewrite Hs. clear. induction l as [|q l IH]; [done|]. simpl.
    destruct (decide (q = o)) as [->|]; [rewrite lookup_insert_eq; lia|]. rewrite lookup_insert_ne by done. lia. }
  apply elem_of_cons in Hin as [->|Hin].
  - rewrite Hn, Hs, lookup_insert_eq, <- Hs. lia.
  - specialize (IH Hin). rewrite Hs at 1. destruct (decide (p = o)) as [->|]; [rewrite lookup_insert_eq; lia|].
    rewrite lookup_insert_ne by done. lia.
Qed.

Lemma unseen_start v : unseen v <= store_size.
Proof.
  unfold unseen, store_size. induction objects as [|p l IH]; [done|]. simpl. destruct (v_state v !! p); lia.
Qed.

Lemma open_work v o opened v' :
  store_holds -> v_state v !! o = None ->
  opened_as reader limits v o opened v' ->
  unseen v' + pending_work (match opened with Some f => [f] | None => [] end) <= unseen v.
Proof.
  intros Hst Hn (_ & _ & HO). destruct opened as [f|].
  - destruct HO as ((record & charged & Hr & ->) & Hs & _).
    pose proof (unseen_drops v v' o InProgress (Hst _ _ Hr) Hn Hs) as H. unfold weight in H.
    unfold reads_as in Hr. rewrite Hr in H. simpl. lia.
  - destruct HO as (_ & Hs & _). pose proof (unseen_insert _ _ _ _ Hs). simpl. lia.
Qed.

Lemma taint_work f m : pending_work [taint f m] = pending_work [f].
Proof. unfold taint. simpl. by destruct (fr_missing f). Qed.

Lemma pending_work_cons f stack : pending_work (f :: stack) = pending_work [f] + pending_work stack.
Proof. simpl. lia. Qed.

Lemma turn_work v top below v' stack' :
  store_holds -> walk_turn sizes reader cancels limits v top below = Ok (v', stack') ->
  unseen v' + pending_work stack' < unseen v + pending_work (top :: below).
Proof.
  intros Hst. unfold walk_turn. cbv zeta.
  destruct (fr_edges top !! fr_next top) as [child|] eqn:Hc; cycle 1.
  { intros ((_ & _ & _ & Hs & _) & ->)%close_frame_spec. pose proof (unseen_insert _ _ _ _ Hs) as Hu.
    assert (E : pending_work (match below with
      | [] => [] | parent :: rest => if fr_complete top then below else taint parent (fr_missing top) :: rest
      end) = pending_work below).
    { destruct below as [|p r]; [done|]. destruct (fr_complete top); [done|].
      by rewrite pending_work_cons, taint_work, <- pending_work_cons. }
    rewrite E. simpl. lia. }
  apply lookup_lt_Some in Hc as Hlt.
  set (top' := top <| fr_next := S (fr_next top) |>).
  assert (Hw : pending_work [top'] + 1 = pending_work [top]) by (simpl; lia).
  rewrite (pending_work_cons top). destruct (v_state v !! child) as [[]|] eqn:Hs.
  - intros [= <- <-]. rewrite (pending_work_cons top'). lia.
  - intros [= <- <-]. rewrite (pending_work_cons top'). lia.
  - intros [= <- <-]. rewrite pending_work_cons, taint_work. lia.
  - intros ((opened & v1) & HO & [= <- <-])%rbind_ok. apply open_spec in HO.
    pose proof (open_work _ _ _ _ Hst Hs HO) as H. destruct opened as [f|].
    + rewrite (pending_work_cons f), (pending_work_cons top'). lia.
    + rewrite pending_work_cons, taint_work. simpl in H. lia.
Qed.

Lemma walk_loop_ends fuel v stack :
  store_holds -> unseen v + pending_work stack <= fuel ->
  is_Some (walk_loop sizes reader cancels limits fuel v stack).
Proof.
  intros Hst. revert v stack. induction fuel as [|fuel IH]; intros v [|top below] Hf; simpl; eauto.
  - simpl in Hf. lia.
  - destruct (walk_turn sizes reader cancels limits v top below) as [[v1 stack1]|reason] eqn:Ht; [|eauto].
    apply IH. pose proof (turn_work _ _ _ _ _ Hst Ht). lia.
Qed.

Lemma walk_ends fuel v start :
  store_holds -> store_size <= fuel -> is_Some (walk sizes reader cancels limits fuel v start).
Proof.
  intros Hst Hf. unfold walk. destruct (v_state v !! start) eqn:Hs; [eauto|].
  destruct (open sizes reader cancels limits v start) as [[[f|] v1]|reason] eqn:HO; [|eauto..].
  apply walk_loop_ends; [done|]. apply open_spec in HO. pose proof (open_work _ _ _ _ Hst Hs HO).
  pose proof (unseen_start v). lia.
Qed.

Lemma walk_roots_ends fuel i v roots :
  store_holds -> store_size <= fuel -> is_Some (walk_roots sizes reader cancels limits fuel i v roots).
Proof.
  intros Hst Hf. revert i v. induction roots as [|root roots IH]; intros i v; cbn [walk_roots]; [eauto|].
  destruct (walk_ends fuel (v <| v_current := i |>) (pr_oid root) Hst Hf) as [[v1|reason] ->]; eauto.
Qed.

Lemma run_verifier_ends fuel protected eligible :
  store_holds -> store_size <= fuel ->
  is_Some (run_verifier sizes reader cancels limits fuel protected eligible).
Proof.
  intros Hst Hf. unfold run_verifier. destruct (let? v := _ in _); [by apply walk_roots_ends|eauto].
Qed.

(** More fuel changes nothing. *)
Lemma walk_loop_more fuel fuel' v stack r :
  fuel <= fuel' -> walk_loop sizes reader cancels limits fuel v stack = Some r ->
  walk_loop sizes reader cancels limits fuel' v stack = Some r.
Proof.
  revert fuel' v stack. induction fuel as [|fuel IH]; intros fuel' v [|top below] Hle; simpl; try done.
  - by destruct fuel'.
  - by destruct fuel'.
  - destruct fuel' as [|fuel']; [lia|]. simpl.
    destruct (walk_turn sizes reader cancels limits v top below) as [[v1 stack1]|]; [|done].
    apply IH. lia.
Qed.

Lemma walk_roots_more fuel fuel' i v roots r :
  fuel <= fuel' -> walk_roots sizes reader cancels limits fuel i v roots = Some r ->
  walk_roots sizes reader cancels limits fuel' i v roots = Some r.
Proof.
  intros Hle. revert i v. induction roots as [|root roots IH]; intros i v; cbn [walk_roots]; [done|].
  assert (Hm : forall r', walk sizes reader cancels limits fuel (v <| v_current := i |>) (pr_oid root) = Some r' ->
    walk sizes reader cancels limits fuel' (v <| v_current := i |>) (pr_oid root) = Some r').
  { intros r'. unfold walk. repeat case_match; try done. by apply walk_loop_more. }
  destruct (walk _ _ _ _ fuel _ (pr_oid root)) as [r'|] eqn:Hw; [|done]. rewrite (Hm r' eq_refl).
  destruct r'; [apply IH|done].
Qed.

Lemma run_verifier_more fuel fuel' protected eligible r :
  fuel <= fuel' -> run_verifier sizes reader cancels limits fuel protected eligible = Some r ->
  run_verifier sizes reader cancels limits fuel' protected eligible = Some r.
Proof. intros Hle. unfold run_verifier. destruct (let? v := _ in _); [by apply walk_roots_more|done]. Qed.

End ends.

(** ** Verdicts *)

Section verdicts.
Context (sizes : Sizes) (reader : ObjectReader) (cancels : nat -> bool) (limits : HistoryLimits).

(** The roots a witness policy lets certify. *)
Definition may_certify (policy : WitnessPolicy) (w : ProtectedRoot) : Prop :=
  exists retained, retained_roots reader = Ok retained /\ w ∈ pr_roots retained /\
    is_eligible_witness_root_under (pr_source w) policy = true.

Definition kept (policy : WitnessPolicy) (root : ProtectedRoot) : Prop :=
  whole reader limits (pr_oid root) /\
  exists w, may_certify policy w /\ reaches reader limits (pr_oid w) (pr_oid root).

Lemma kept_preserved policy retained root :
  retained_roots reader = Ok retained ->
  kept policy root <-> preserved reader limits (eligible_roots policy retained) root.
Proof.
  intros Hr. unfold kept, preserved, may_certify, eligible_roots. split.
  - intros (Hw & w & (retained' & Hr' & Hin & He) & Hp). split; [done|]. exists w. split; [|done].
    apply list_elem_of_filter. split; [done|]. congruence.
  - intros (Hw & w & (He & Hin)%list_elem_of_filter & Hp). split; [done|]. exists w. split; [|done]. eauto.
Qed.

(** What each outcome of the history check says. *)
Definition history_says (protected : ProtectedRoots) (witnesses : list Witness) (policy : WitnessPolicy)
    (outcome : HistoryOutcome) : Prop :=
  match outcome with
  | Verified coverage =>
      (forall root, root ∈ pr_roots protected -> kept policy root /\ witnesses <> []) /\
      rc_root <$> covered coverage = pr_roots protected /\
      (forall c, c ∈ covered coverage -> may_certify policy (rc_witness_root c) /\
         reaches reader limits (pr_oid (rc_witness_root c)) (pr_oid (rc_root c)))
  | Unpreserved items =>
      items <> [] /\
      (forall root, root ∈ pr_roots protected ->
         root ∈ ui_root <$> items \/ (witnesses <> [] /\ kept policy root)) /\
      (forall u, u ∈ items -> ui_root u ∈ pr_roots protected /\
         (witnesses = [] \/ ~ kept policy (ui_root u))) /\
      (forall u m, u ∈ items -> ui_missing u = Some m -> gap reader limits (pr_oid (ui_root u)) m)
  | HistoryUnknown reasons => reasons <> []
  end.

Lemma conclude_says fuel protected witnesses policy retained v :
  acyclic reader limits -> witnesses <> [] -> retained_roots reader = Ok retained ->
  run_verifier sizes reader cancels limits fuel protected (eligible_roots policy retained) = Some (Ok v) ->
  history_says protected witnesses policy (conclude v protected witnesses (eligible_roots policy retained)).
Proof.
  intros Hac Hws Hret Hrun. unfold conclude. cbv zeta.
  set (attribution := match witnesses with [only] => _ | _ => _ end).
  pose proof (conclude_roots_exact sizes reader cancels limits _ fuel protected v attribution
    (pr_roots protected) Hac Hrun ltac:(done)) as H.
  pose proof (conclude_roots_split sizes reader cancels limits _ fuel protected v attribution
    (pr_roots protected) Hac Hrun ltac:(done)) as HS.
  destruct (conclude_roots v attribution _ (pr_roots protected)) as [cs us].
  destruct H as (H1 & H2 & H3 & H4 & H5). destruct HS as [S1 S2].
  assert (Hk : forall root, kept policy root <-> preserved reader limits (eligible_roots policy retained) root)
    by (intros; by apply kept_preserved).
  destruct us as [|u us].
  - split_and!; simpl.
    + intros root Hr. split; [|done]. apply Hk, H1; [done|]. by rewrite H3.
    + by apply H3.
    + intros c Hc. destruct (H4 c Hc) as (_ & Hw & Hr). split; [|done].
      apply list_elem_of_filter in Hw as [He Hin]. by exists retained.
  - split_and!; [done| | |].
    + intros root Hr. destruct (S1 root Hr) as [Hc|Hu]; [right|by left].
      split; [done|]. by apply Hk, H1.
    + intros u' Hu. split; [by apply S2|]. right. rewrite Hk. by apply H5.
    + intros u' m Hu. by apply H5.
Qed.

Lemma history_outcome fuel protected witnesses policy outcome :
  acyclic reader limits ->
  check_history_under sizes reader cancels limits fuel protected witnesses policy = Some outcome ->
  history_says protected witnesses policy outcome.
Proof.
  intros Hac. unfold check_history_under. cbv zeta.
  destruct (cancels 0); [by intros [= <-]|]. destruct (_ <? _)%N; [by intros [= <-]|].
  destruct (omap unsupported_root (pr_roots protected)); [|by intros [= <-]].
  case_bool_decide as Hp.
  { intros [= <-]. unfold history_says. rewrite Hp.
    split_and!; [by intros ? ?%elem_of_nil|done|by intros ? ?%elem_of_nil]. }
  case_bool_decide as Hw.
  { intros [= <-]. apply nil_length_inv in Hw as ->. split_and!.
    - by destruct (pr_roots protected).
    - intros root Hr. left. rewrite <- list_fmap_compose.
      change (ui_root ∘ no_witness) with (@id ProtectedRoot). by rewrite list_fmap_id.
    - intros u (root & -> & Hr)%list_elem_of_fmap. split; [done|by left].
    - intros u m Hu. apply list_elem_of_fmap in Hu as (root & -> & _). done. }
  destruct (retained_roots reader) as [retained|] eqn:Hret; [|by intros [= <-]].
  destruct (_ <? _)%N; [by intros [= <-]|].
  destruct (run_verifier _ _ _ _ _ _ _) as [[v|reason]|] eqn:Hrun; [|by intros [= <-]|done].
  intros [= <-]. eapply conclude_says; [done| |done|done]. by intros ->.
Qed.

(** What each outcome of the connectivity check says. *)
Definition connectivity_says (protected : ProtectedRoots) (outcome : ConnectivityOutcome) : Prop :=
  match outcome with
  | StoreComplete _ =>
      pr_unknown protected = [] /\
      forall root, root ∈ pr_roots protected -> whole reader limits (pr_oid root)
  | StoreIncomplete missing =>
      missing <> [] /\
      (forall root, root ∈ pr_roots protected ->
         root ∈ mo_root <$> missing <-> ~ whole reader limits (pr_oid root)) /\
      (forall m, m ∈ missing -> gap reader limits (pr_oid (mo_root m)) (mo_missing m))
  | ConnectivityUnknown reasons => reasons <> []
  end.

Lemma missing_roots_exact fuel protected v roots :
  acyclic reader limits ->
  run_verifier sizes reader cancels limits fuel protected (pr_roots protected) = Some (Ok v) ->
  (forall root, root ∈ roots -> root ∈ pr_roots protected) ->
  (forall root, root ∈ roots ->
     root ∈ mo_root <$> missing_roots v roots <-> ~ whole reader limits (pr_oid root)) /\
  (forall m, m ∈ missing_roots v roots -> gap reader limits (pr_oid (mo_root m)) (mo_missing m)).
Proof.
  intros Hac Hrun. destruct (run_verifier_walked _ _ _ _ _ _ _ _ Hac Hrun) as (W & Hroots & _).
  induction roots as [|root roots IH]; intros Hin; cbn [missing_roots].
  { split; by intros ? ?%elem_of_nil. }
  destruct IH as [I1 I2]; [set_solver|].
  assert (Hp : root ∈ pr_roots protected) by set_solver.
  pose proof (walked_decides _ _ _ v Hac W Hroots (pr_oid root)) as HD.
  destruct (v_state v !! pr_oid root) as [[]|]; [done|..].
  - split; [|done]. intros r Hr. apply elem_of_cons in Hr as [->|Hr]; [|by apply I1].
    split; [|intros Hn; by destruct HD]. intros (m & Hm & Hin2)%list_elem_of_fmap. apply I2 in Hin2.
    rewrite <- Hm in Hin2. by apply gap_not_whole in Hin2.
  - destruct HD as (m & -> & Hg). split.
    + intros r Hr. rewrite fmap_cons, elem_of_cons. simpl. pose proof (gap_not_whole _ _ _ _ Hg).
      apply elem_of_cons in Hr as [->|Hr]; [naive_solver|]. rewrite I1 by done. naive_solver.
    + intros m' Hm'. apply elem_of_cons in Hm' as [->|Hm']; [done|by apply I2].
  - exfalso. apply (HD root Hp). apply rtc_refl.
Qed.

Lemma connectivity_outcome fuel protected outcome :
  acyclic reader limits ->
  check_connectivity sizes reader cancels limits fuel protected = Some outcome ->
  connectivity_says protected outcome.
Proof.
  intros Hac. unfold check_connectivity. cbv zeta.
  destruct (cancels 0); [by intros [= <-]|].
  destruct (pr_unknown protected) as [|u us] eqn:Hu; unfold roots_complete; rewrite Hu; simpl;
    [|by intros [= <-]].
  destruct (_ <? _)%N; [by intros [= <-]|].
  destruct (omap unsupported_root (pr_roots protected)); [|by intros [= <-]].
  case_bool_decide as Hp.
  { intros [= <-]. simpl. rewrite Hp. split; [done|]. by intros ? ?%elem_of_nil. }
  destruct (run_verifier _ _ _ _ _ _ _) as [[v|reason]|] eqn:Hrun; [|by intros [= <-]|done].
  intros [= <-]. unfold conclude_connectivity.
  destruct (missing_roots_exact fuel protected v (pr_roots protected) Hac Hrun ltac:(done)) as [H1 H2].
  destruct (missing_roots v (pr_roots protected)) as [|m ms] eqn:Hm; [|by split_and!].
  split; [done|]. intros root Hr.
  destruct (run_verifier_walked _ _ _ _ _ _ _ _ Hac Hrun) as (W & Hroots & _).
  pose proof (walked_decides _ _ _ v Hac W Hroots (pr_oid root)) as HD.
  destruct (v_state v !! pr_oid root) as [[]|]; [done|by destruct HD| |].
  - destruct HD as (m & _ & Hg). exfalso.
    assert (Hn : root ∈ mo_root <$> []) by (apply H1; [done|by eapply gap_not_whole]). by apply elem_of_nil in Hn.
  - exfalso. apply (HD root Hr), rtc_refl.
Qed.

(** The checks end, whatever the fuel beyond the store's size. *)
Lemma checks_end objects protected witnesses policy :
  store_holds reader limits objects ->
  (exists outcome, forall fuel, store_size reader limits objects <= fuel ->
     check_history_under sizes reader cancels limits fuel protected witnesses policy = Some outcome) /\
  (exists outcome, forall fuel, store_size reader limits objects <= fuel ->
     check_connectivity sizes reader cancels limits fuel protected = Some outcome).
Proof.
  intros Hst. set (bound := store_size reader limits objects).
  assert (Hrun : forall eligible, exists r, forall fuel, bound <= fuel ->
    run_verifier sizes reader cancels limits fuel protected eligible = Some r).
  { intros eligible.
    destruct (run_verifier_ends sizes reader cancels limits objects bound protected eligible Hst ltac:(lia)) as [r Hr].
    exists r. intros fuel Hf. by apply (run_verifier_more sizes reader cancels limits bound). }
  split; [unfold check_history_under|unfold check_connectivity]; cbv zeta.
  - repeat case_match; eauto. destruct (Hrun (eligible_roots policy a)) as [r Hr].
    exists (match r with Ok v => conclude v protected witnesses (eligible_roots policy a)
                       | Err reason => HistoryUnknown [reason] end).
    intros fuel Hf. rewrite Hr by done. by destruct r.
  - repeat case_match; eauto. destruct (Hrun (pr_roots protected)) as [r Hr].
    exists (match r with Ok v => conclude_connectivity v protected
                       | Err reason => ConnectivityUnknown [reason] end).
    intros fuel Hf. rewrite Hr by done. by destruct r.
Qed.

End verdicts.

(** ** A store to check *)

Definition demo_oid (n : N) : ObjectId := {| oid_format := Sha1; oid_digest := replicate 20 n |}.

(** 1 reaches 2 and 3, and 3 names 4, which the store does not hold. *)
Definition demo_object (o : ObjectId) (_ : ReadLimits) : result ObjectRecord ReadError :=
  let record edges := Ok {| or_oid := o; or_kind := KindCommit; or_size := 0; or_edges := edges |} in
  if decide (o = demo_oid 1) then record [demo_oid 2; demo_oid 3]
  else if decide (o = demo_oid 2) then record []
  else if decide (o = demo_oid 3) then record [demo_oid 2; demo_oid 4]
  else Err (ReadMissing o).

Definition demo_root (n : N) : ProtectedRoot :=
  {| pr_source := SourceRef (lit "refs/heads/main"); pr_oid := demo_oid n |}.

Definition demo_reader : ObjectReader :=
  {| retained_roots := Ok {| pr_roots := [demo_root 1]; pr_unknown := [] |};
     read_object := demo_object |}.

Definition demo_sizes : Sizes :=
  {| size_of_oid := 32; size_of_root := 80; size_of_node := 1; size_of_frame := 120; size_of_usize := 8 |}.

Definition demo_witness : Witness := {| wit_repository := RepoRoot; wit_label := lit "root" |}.

Definition demo_never : nat -> bool := fun _ => false.

(** An order that edges go down shows there is no cycle. *)
Lemma acyclic_rank reader limits (rank : ObjectId -> nat) :
  (forall o e, edge reader limits o e -> rank e < rank o) -> acyclic reader limits.
Proof.
  intros Hrank o Ho. assert (H : forall a b, tc (edge reader limits) a b -> rank b < rank a).
  { intros a b Hab. induction Hab as [a b Hab|a b c Hab Hbc IH]; [by apply Hrank|].
    apply Hrank in Hab. lia. }
  apply H in Ho. lia.
Qed.

Lemma demo_edges o e : edge demo_reader default_history_limits o e ->
  (o, e) ∈ [(demo_oid 1, demo_oid 2); (demo_oid 1, demo_oid 3); (demo_oid 3, demo_oid 2);
            (demo_oid 3, demo_oid 4)].
Proof.
  intros (record & Hr & He). unfold reads_as in Hr. simpl in Hr. unfold demo_object in Hr.
  repeat case_decide; try done; injection Hr as <-; simpl in He; subst o; set_solver.
Qed.

Lemma demo_acyclic : acyclic demo_reader default_history_limits.
Proof.
  apply (acyclic_rank _ _ (fun o => match oid_digest o with
    | 1%N :: _ => 3 | 3%N :: _ => 2 | 2%N :: _ => 1 | _ => 0 end)).
  intros o e He%demo_edges. rewrite !elem_of_cons, elem_of_nil in He.
  destruct He as [[= -> ->]|[[= -> ->]|[[= -> ->]|[[= -> ->]|[]]]]]; vm_compute; lia.
Qed.

Lemma demo_holds : store_holds demo_reader default_history_limits [demo_oid 1; demo_oid 2; demo_oid 3].
Proof.
  intros o r Hr. unfold reads_as in Hr. simpl in Hr. unfold demo_object in Hr.
  repeat case_decide; try done; subst o; set_solver.
Qed.

(** ** Main theorems *)

(** C7: the history check's verdict is exact on any store without cycles. It
    verifies only where every protected root is whole in the store and
    reached by a root of the witness that may certify, and its coverage lists
    each with such a root; it calls unpreserved exactly the roots that are
    not, and a missing object it names is missing beneath its root; an
    unknown outcome always has a reason. *)
Theorem history_verdict_exact (sizes : Sizes) (reader : ObjectReader) (cancels : nat -> bool)
    (limits : HistoryLimits) (fuel : nat) (protected : ProtectedRoots) (witnesses : list Witness)
    (policy : WitnessPolicy) (outcome : HistoryOutcome) :
  acyclic reader limits ->
  check_history_under sizes reader cancels limits fuel protected witnesses policy = Some outcome ->
  history_says reader limits protected witnesses policy outcome.
Proof. apply history_outcome. Qed.

Lemma history_verdict_exact_witness :
  whole demo_reader default_history_limits (demo_oid 2) /\
  ~ kept demo_reader default_history_limits Durable (demo_root 3).
Proof.
  split.
  - destruct (history_verdict_exact demo_sizes demo_reader demo_never default_history_limits 20
      {| pr_roots := [demo_root 2]; pr_unknown := [] |} [demo_witness] Durable _ demo_acyclic
      ltac:(vm_compute; reflexivity)) as [H _]. by apply (H (demo_root 2)), list_elem_of_singleton.
  - destruct (history_verdict_exact demo_sizes demo_reader demo_never default_history_limits 20
      {| pr_roots := [demo_root 3]; pr_unknown := [] |} [demo_witness] Durable _ demo_acyclic
      ltac:(vm_compute; reflexivity)) as (_ & _ & H & _).
    destruct (H _ (list_elem_of_here _ _)) as [_ [|H1]]; [done|exact H1].
Defined.

(** The connectivity check is exact on any store without cycles: it calls
    a store complete only where the inventory is and every protected root is
    whole in it, lists exactly the roots that are not, and names beneath each
    an object the store does not hold. *)
Theorem connectivity_exact (sizes : Sizes) (reader : ObjectReader) (cancels : nat -> bool)
    (limits : HistoryLimits) (fuel : nat) (protected : ProtectedRoots) (outcome : ConnectivityOutcome) :
  acyclic reader limits ->
  check_connectivity sizes reader cancels limits fuel protected = Some outcome ->
  connectivity_says reader limits protected outcome.
Proof. apply connectivity_outcome. Qed.

Lemma connectivity_exact_witness :
  whole demo_reader default_history_limits (demo_oid 2) /\
  gap demo_reader default_history_limits (demo_oid 1) (demo_oid 4).
Proof.
  split.
  - destruct (connectivity_exact demo_sizes demo_reader demo_never default_history_limits 20
      {| pr_roots := [demo_root 2]; pr_unknown := [] |} _ demo_acyclic
      ltac:(vm_compute; reflexivity)) as [_ H]. by apply (H (demo_root 2)), list_elem_of_singleton.
  - destruct (connectivity_exact demo_sizes demo_reader demo_never default_history_limits 20
      {| pr_roots := [demo_root 1]; pr_unknown := [] |} _ demo_acyclic
      ltac:(vm_compute; reflexivity)) as (_ & _ & H).
    apply (H {| mo_root := demo_root 1; mo_missing := demo_oid 4 |}), list_elem_of_singleton. done.
Defined.

(** On a store of finitely many objects, cyclic or not, both checks end:
    with fuel for every object and every edge each has an outcome, and more
    fuel gives the same one. *)
Theorem history_checks_end (sizes : Sizes) (reader : ObjectReader) (cancels : nat -> bool)
    (limits : HistoryLimits) (objects : list ObjectId) (protected : ProtectedRoots)
    (witnesses : list Witness) (policy : WitnessPolicy) :
  store_holds reader limits objects ->
  (exists outcome, forall fuel, store_size reader limits objects <= fuel ->
     check_history_under sizes reader cancels limits fuel protected witnesses policy = Some outcome) /\
  (exists outcome, forall fuel, store_size reader limits objects <= fuel ->
     check_connectivity sizes reader cancels limits fuel protected = Some outcome).
Proof. apply checks_end. Qed.

Lemma history_checks_end_witness :
  exists outcome, forall fuel, 7 <= fuel ->
    check_connectivity demo_sizes demo_reader demo_never default_history_limits fuel
      {| pr_roots := [demo_root 1]; pr_unknown := [] |} = Some outcome.
Proof.
  exact (proj2 (history_checks_end demo_sizes demo_reader demo_never default_history_limits
    [demo_oid 1; demo_oid 2; demo_oid 3] {| pr_roots := [demo_root 1]; pr_unknown := [] |}
    [demo_witness] Durable demo_holds)).
Defined.
