(* ===== verification/WorkDetector.v ===== *)
(** The classifier of unsaved work (src/crates/work-detector/src): one
    repository's observed work, its decoded coordination records and the
    baseline of what the copy brought, turned into hazards, unknown reasons
    and a verdict. *)

From S2P Require Export RepoContract.

#[local] Set Default Proof Using "Type".

(** ** Evidence (evidence.rs) *)

Inductive EvidenceState : Type :=
| EvidenceNone
| EvidenceOpen (detail : str)
| EvidenceUnknown (detail : str).

Record EvidenceItem : Type := mkEvidenceItem { ei_kind : str; ei_state : EvidenceState }.

Record GwzEvidence : Type := mkGwzEvidence {
  ge_merge : EvidenceState;
  ge_stash : EvidenceState;
  ge_other : list EvidenceItem;
}.

(** ** Provenance (provenance.rs) *)

Inductive Provenance : Type := Unique | UnchangedCopy | ChangedCopy | Regenerable.

#[global] Instance Provenance_eq_dec : EqDecision Provenance.
Proof. solve_decision. Defined.

Definition provenance_as_str (p : Provenance) : str :=
  match p with
  | Unique => lit "unique"
  | UnchangedCopy => lit "unchanged-copy"
  | ChangedCopy => lit "changed-copy"
  | Regenerable => lit "regenerable"
  end.

Definition provenance_refuses (p : Provenance) : bool :=
  match p with
  | Unique | ChangedCopy => true
  | UnchangedCopy | Regenerable => false
  end.

Record CopyBaseline : Type := mkCopyBaseline {
  cb_entries : gmap BytePath Provenance;
  cb_stash : Provenance;
}.

Definition default_baseline : CopyBaseline := {| cb_entries := ∅; cb_stash := Unique |}.

(** [CopyBaseline::set]. *)
Definition baseline_set (b : CopyBaseline) (path : BytePath) (p : Provenance) : CopyBaseline :=
  let slot := match cb_entries b !! path with Some s => s | None => p end in
  let slot := if bool_decide (slot = Regenerable) || bool_decide (p = Regenerable) then Regenerable
              else if provenance_refuses p then p
              else slot in
  {| cb_entries := <[path := slot]> (cb_entries b); cb_stash := cb_stash b |}.

Definition baseline_set_stash (b : CopyBaseline) (p : Provenance) : CopyBaseline :=
  {| cb_entries := cb_entries b; cb_stash := p |}.

Definition baseline_entry (b : CopyBaseline) (path : BytePath) : Provenance :=
  match cb_entries b !! path with Some p => p | None => Unique end.

Definition baseline_is_empty (b : CopyBaseline) : bool :=
  bool_decide (cb_entries b = ∅) && bool_decide (cb_stash b = Unique).

(** ** Hazards (hazard.rs) *)

Inductive WorkVerdict : Type := VerdictClean | VerdictDirty | VerdictUnknown.

Inductive HazardKind : Type :=
| HzWork (kind : WorkKind)
| HzSuppressed
| HzOpenNativeOperation
| HzOpenGwzMerge
| HzOpenGwzStash
| HzUninterpretableEvidence
| HzNativeStash
| HzOpenGwzRecord.

#[global] Instance WorkVerdict_eq_dec : EqDecision WorkVerdict.
Proof. solve_decision. Defined.
#[global] Instance HazardKind_eq_dec : EqDecision HazardKind.
Proof. solve_decision. Defined.

Definition force_name (k : HazardKind) : option str :=
  match k with
  | HzWork _ | HzSuppressed | HzNativeStash => Some (lit "dirty")
  | HzOpenNativeOperation | HzOpenGwzMerge | HzOpenGwzStash | HzOpenGwzRecord => Some (lit "open-merge")
  | HzUninterpretableEvidence => None
  end.

Record Hazard : Type := mkHazard {
  hz_kind : HazardKind;
  hz_path : option BytePath;
  hz_detail : str;
  hz_provenance : Provenance;
}.

#[global] Instance Hazard_set : Settable Hazard := fun h =>
  mkHazard (hz_kind h) (hz_path h) (hz_detail h) (hz_provenance h).
#[global] Instance UnknownReason_set : Settable UnknownReason := fun u =>
  mkUnknownReason (ur_kind u) (ur_path u) (ur_detail u).

(** ** Reports (report.rs) *)

Record WorkReport : Type := mkWorkReport {
  wr_verdict : WorkVerdict;
  wr_hazards : list Hazard;
  wr_unknown : list UnknownReason;
  wr_truncated : bool;
}.

Definition MAX_DETAILED_ENTRIES : nat := 128.

(** [drop_details]: [clear] empties an item's detail. *)
Definition drop_details {A} (clear : A -> A) (items : list A) : list A * bool :=
  if length items <=? MAX_DETAILED_ENTRIES then (items, false)
  else (take MAX_DETAILED_ENTRIES items ++ (clear <$> drop MAX_DETAILED_ENTRIES items), true).

(** ** The builder (builder.rs) *)

Record Builder : Type := mkBuilder {
  b_hazards : list Hazard;
  b_unknown : list UnknownReason;
  b_baseline : CopyBaseline;
}.

#[global] Instance Builder_set : Settable Builder := fun b =>
  mkBuilder (b_hazards b) (b_unknown b) (b_baseline b).

Definition default_builder : Builder :=
  {| b_hazards := []; b_unknown := []; b_baseline := default_baseline |}.

Definition provenanced (b : Builder) (kind : HazardKind) (path : option BytePath) (detail : str)
    (provenance : Provenance) : Builder :=
  b <| b_hazards := b_hazards b ++ [{| hz_kind := kind; hz_path := path; hz_detail := detail;
                                      hz_provenance := provenance |}] |>.

Definition add_hazard (b : Builder) (kind : HazardKind) (path : option BytePath) (detail : str) : Builder :=
  provenanced b kind path detail Unique.

Definition add_unknown (b : Builder) (kind : UnknownKind) (path : option BytePath) (detail : str) : Builder :=
  b <| b_unknown := b_unknown b ++ [{| ur_kind := kind; ur_path := path; ur_detail := detail |}] |>.

Definition work_detail (kind : WorkKind) (binary : option bool) : str :=
  let cause := match kind with
    | Staged => lit "staged change"
    | Unstaged => lit "unstaged change"
    | Untracked => lit "untracked file"
    | Ignored => lit "ignored user data (ignored does not mean disposable)"
    | Conflict => lit "conflict stages in the index"
    | ModeChange => lit "file mode change"
    | LinkChange => lit "symbolic link change"
    | Renamed => lit "rename"
    | Deleted => lit "deletion"
    end in
  match binary with
  | Some true => cause ++ lit ", binary content"
  | Some false => cause ++ lit ", text content"
  | None => cause
  end.

Definition native_operation_detail (operation : NativeOperation) : str :=
  match operation with
  | NativeMerge => lit "unfinished native git merge"
  | NativeRebase => lit "unfinished native git rebase"
  | NativeCherryPick => lit "unfinished native git cherry-pick"
  | NativeRevert => lit "unfinished native git revert"
  | NativeBisect => lit "unfinished native git bisect"
  | NativeApplyMailbox => lit "unfinished native git mailbox application"
  | NativeOther => lit "unfinished native git operation"
  end.

Definition flag_name (flag : SuppressionFlag) : str :=
  match flag with
  | AssumeUnchanged => lit "assume-unchanged"
  | SkipWorktree => lit "skip-worktree"
  | OtherFlag => lit "uninterpreted index flag"
  end.

(** [Builder::suppressed]. *)
Definition suppressed (sparse : list BytePath) (b : Builder) (entry : SuppressedEntry) : Builder :=
  let name := flag_name (se_flag entry) in
  let path := Some (se_path entry) in
  let uninterpreted := bool_decide (se_flag entry = OtherFlag) in
  match se_physical entry with
  | Unobservable =>
      add_unknown b UkUnreadable path (name ++ lit " path: the worktree bytes could not be observed")
  | Differs =>
      add_hazard b HzSuppressed path (name ++ lit " path: the worktree bytes differ from the index")
  | MatchesIndex =>
      if uninterpreted then
        add_unknown b UkUnsupportedIndexFlag path
          (name ++ lit ": the bytes match the index, but what else the flag suppresses is not interpreted")
      else b
  | PhysicalAbsent =>
      if uninterpreted then
        add_unknown b UkUnsupportedIndexFlag path
          (name ++ lit ": the path is absent and the flag is not interpreted")
      else if bool_decide (se_path entry ∈ sparse) then b
      else if bool_decide (se_flag entry = AssumeUnchanged) then
        add_hazard b HzSuppressed path (name ++ lit " path: absent from the worktree")
      else
        add_unknown b UkUnsupportedIndexFlag path
          (name ++ lit " path: absent with no recorded valid sparse absence")
  end.

(** [Builder::observation]. *)
Definition observe_entry (b : Builder) (entry : WorkEntry) : Builder :=
  provenanced b (HzWork (we_kind entry)) (Some (we_path entry))
    (work_detail (we_kind entry) (we_binary entry)) (baseline_entry (b_baseline b) (we_path entry)).

Definition observe_stash (b : Builder) (count : N) : Builder :=
  if (0 <? count)%N then
    provenanced b HzNativeStash None
      (show_N count ++ lit " native stash entr" ++ (if (count =? 1)%N then lit "y" else lit "ies"))
      (cb_stash (b_baseline b))
  else b.

Definition observation (b : Builder) (o : WorkObservation) : Builder :=
  let b := foldl observe_entry b (wo_entries o) in
  let b := foldl (suppressed (wo_sparse_absent o)) b (wo_suppressed o) in
  let b := match wo_native_operation o with
           | Some operation => add_hazard b HzOpenNativeOperation None (native_operation_detail operation)
           | None => b
           end in
  let b := observe_stash b (wo_stash_entries o) in
  b <| b_unknown := b_unknown b ++ wo_unknown o |>.

(** [Builder::record] and [Builder::evidence]. *)
Definition record (b : Builder) (label : str) (state : EvidenceState) (open_kind : HazardKind) : Builder :=
  match state with
  | EvidenceNone => b
  | EvidenceOpen detail => add_hazard b open_kind None (label ++ lit ": " ++ detail)
  | EvidenceUnknown detail =>
      add_unknown
        (add_hazard b HzUninterpretableEvidence None (label ++ lit ": " ++ detail))
        UkUnsupportedEvidence None (label ++ lit ": " ++ detail)
  end.

Definition evidence (b : Builder) (e : GwzEvidence) : Builder :=
  let b := record b (lit "gwz merge record") (ge_merge e) HzOpenGwzMerge in
  let b := record b (lit "gwz stash record") (ge_stash e) HzOpenGwzStash in
  foldl (fun b item => record b (ei_kind item) (ei_state item) HzOpenGwzRecord) b (ge_other e).

(** [Builder::finish]. *)
Definition finish (b : Builder) : WorkReport :=
  let '(hazards, hazards_cut) := drop_details (fun h => h <| hz_detail := [] |>) (b_hazards b) in
  let '(unknown, unknown_cut) := drop_details (fun u => u <| ur_detail := [] |>) (b_unknown b) in
  let verdict := if bool_decide (length unknown = 0) then
                   if existsb (fun h => provenance_refuses (hz_provenance h)) hazards
                   then VerdictDirty else VerdictClean
                 else VerdictUnknown in
  {| wr_verdict := verdict; wr_hazards := hazards; wr_unknown := unknown;
     wr_truncated := hazards_cut || unknown_cut |}.

(** ** The classifier (lib.rs) *)

Definition classify_work_against (o : WorkObservation) (e : GwzEvidence) (baseline : CopyBaseline)
    : WorkReport :=
  finish (evidence (observation (default_builder <| b_baseline := baseline |>) o) e).

Definition classify_observed_work_against (o : Observation WorkObservation) (e : GwzEvidence)
    (baseline : CopyBaseline) : WorkReport :=
  match o with
  | Known known => classify_work_against known e baseline
  | UnknownObs reasons => finish (evidence (default_builder <| b_unknown := reasons |>) e)
  end.

Definition classify_work (o : WorkObservation) (e : GwzEvidence) : WorkReport :=
  classify_work_against o e default_baseline.

Definition classify_observed_work (o : Observation WorkObservation) (e : GwzEvidence) : WorkReport :=
  classify_observed_work_against o e default_baseline.

(** ** What the inputs say *)

(** A suppressed path of unknown content, and one that lost work, by the
    table of the crate's documentation. *)
Definition suppression_unknown (sparse : list BytePath) (entry : SuppressedEntry) : bool :=
  match se_physical entry, se_flag entry with
  | Unobservable, _ => true
  | Differs, _ => false
  | MatchesIndex, OtherFlag => true
  | MatchesIndex, _ => false
  | PhysicalAbsent, OtherFlag => true
  | PhysicalAbsent, SkipWorktree => negb (bool_decide (se_path entry ∈ sparse))
  | PhysicalAbsent, AssumeUnchanged => false
  end.

Definition suppression_dirty (sparse : list BytePath) (entry : SuppressedEntry) : bool :=
  match se_physical entry, se_flag entry with
  | Differs, _ => true
  | PhysicalAbsent, AssumeUnchanged => negb (bool_decide (se_path entry ∈ sparse))
  | _, _ => false
  end.

(** The records of the evidence, with the hazard an open one is. *)
Definition records_of (e : GwzEvidence) : list (EvidenceState * HazardKind) :=
  (ge_merge e, HzOpenGwzMerge) :: (ge_stash e, HzOpenGwzStash) ::
  ((fun item => (ei_state item, HzOpenGwzRecord)) <$> ge_other e).

(** A hazard without its diagnostic text. *)
Abbreviation hazard_key := (HazardKind * option BytePath * Provenance)%type.
Definition key_of (h : Hazard) : hazard_key := (hz_kind h, hz_path h, hz_provenance h).

Definition record_hazards (r : EvidenceState * HazardKind) : list hazard_key :=
  match r with
  | (EvidenceNone, _) => []
  | (EvidenceOpen _, kind) => [(kind, None, Unique)]
  | (EvidenceUnknown _, _) => [(HzUninterpretableEvidence, None, Unique)]
  end.

Definition record_unknown (r : EvidenceState * HazardKind) : bool :=
  match r with (EvidenceUnknown _, _) => true | _ => false end.

(** Every hazard of an observation against a baseline, in order. *)
Definition observed_hazards (o : WorkObservation) (baseline : CopyBaseline) : list hazard_key :=
  ((fun w => (HzWork (we_kind w), Some (we_path w), baseline_entry baseline (we_path w))) <$> wo_entries o) ++
  ((fun s => (HzSuppressed, Some (se_path s), Unique)) <$>
     filter (fun s => suppression_dirty (wo_sparse_absent o) s = true) (wo_suppressed o)) ++
  (match wo_native_operation o with Some _ => [(HzOpenNativeOperation, None, Unique)] | None => [] end) ++
  (if (0 <? wo_stash_entries o)%N then [(HzNativeStash, None, cb_stash baseline)] else []).

Definition all_hazards (o : WorkObservation) (e : GwzEvidence) (baseline : CopyBaseline) : list hazard_key :=
  observed_hazards o baseline ++ (records_of e ≫= record_hazards).

(** Whether any input was not established. *)
Definition unestablished (o : WorkObservation) (e : GwzEvidence) : Prop :=
  wo_unknown o <> [] \/
  (exists s, s ∈ wo_suppressed o /\ suppression_unknown (wo_sparse_absent o) s = true) \/
  (exists r, r ∈ records_of e /\ record_unknown r = true).

(** ** The builder keeps what it is given *)

Definition keys b : list hazard_key := key_of <$> b_hazards b.

Lemma provenanced_keys b kind path detail p :
  keys (provenanced b kind path detail p) = keys b ++ [(kind, path, p)].
Proof. exact (fmap_app key_of (b_hazards b) [mkHazard kind path detail p]). Qed.

Lemma add_hazard_keys b kind path detail :
  keys (add_hazard b kind path detail) = keys b ++ [(kind, path, Unique)].
Proof. apply provenanced_keys. Qed.

Lemma add_unknown_some b kind path detail : b_unknown (add_unknown b kind path detail) = [] <-> False.
Proof. split; [|done]. by intros [? [=]]%app_eq_nil. Qed.

Lemma add_hazard_rest b kind path detail :
  b_unknown (add_hazard b kind path detail) = b_unknown b /\
  b_baseline (add_hazard b kind path detail) = b_baseline b.
Proof. done. Qed.

Lemma add_unknown_rest b kind path detail :
  keys (add_unknown b kind path detail) = keys b /\
  b_baseline (add_unknown b kind path detail) = b_baseline b.
Proof. done. Qed.

Lemma observe_entries_spec l b :
  keys (foldl observe_entry b l) =
    keys b ++ ((fun w => (HzWork (we_kind w), Some (we_path w), baseline_entry (b_baseline b) (we_path w))) <$> l) /\
  b_unknown (foldl observe_entry b l) = b_unknown b /\
  b_baseline (foldl observe_entry b l) = b_baseline b.
Proof.
  revert b. induction l as [|w l IH]; intros b; cbn [foldl]; [by rewrite app_nil_r|].
  rewrite fmap_cons.
  destruct (IH (observe_entry b w)) as (-> & -> & ->). unfold observe_entry.
  rewrite provenanced_keys, <- app_assoc. done.
Qed.

Lemma suppressed_spec sparse l b :
  let b' := foldl (suppressed sparse) b l in
  keys b' = keys b ++ ((fun s => (HzSuppressed, Some (se_path s), Unique)) <$>
                         filter (fun s => suppression_dirty sparse s = true) l) /\
  (b_unknown b' = [] <-> b_unknown b = [] /\ Forall (fun s => suppression_unknown sparse s = false) l) /\
  b_baseline b' = b_baseline b.
Proof.
  cbv zeta. revert b. induction l as [|s l IH]; intros b; simpl.
  { rewrite app_nil_r. split_and!; [done| |done]. rewrite Forall_nil. tauto. }
  destruct (IH (suppressed sparse b s)) as (-> & -> & ->). clear IH.
  rewrite filter_cons.
  assert (H : keys (suppressed sparse b s) =
      keys b ++ (if suppression_dirty sparse s then [(HzSuppressed, Some (se_path s), Unique)] else []) /\
    (b_unknown (suppressed sparse b s) = [] <-> b_unknown b = [] /\ suppression_unknown sparse s = false) /\
    b_baseline (suppressed sparse b s) = b_baseline b).
  { unfold suppressed, suppression_dirty, suppression_unknown.
    destruct (se_physical s), (se_flag s); cbv zeta; repeat (case_bool_decide;
      try match goal with H : ?x <> ?x |- _ => by destruct H | H : _ = _ |- _ => discriminate H end);
      cbn [negb];
      rewrite ?app_nil_r, ?add_hazard_keys, ?add_unknown_some, ?(proj1 (add_hazard_rest _ _ _ _)),
        ?(proj2 (add_hazard_rest _ _ _ _)), ?(proj1 (add_unknown_rest _ _ _ _)),
        ?(proj2 (add_unknown_rest _ _ _ _));
      (split; [reflexivity|]); (split; [|reflexivity]); clear; split; intros ?; destruct_and?;
      first [done|by split]. }
  destruct H as (-> & -> & ->). split_and!; [| |done].
  - destruct (suppression_dirty sparse s); simpl; rewrite <- ?app_assoc, ?app_nil_r; done.
  - rewrite Forall_cons. tauto.
Qed.

Lemma record_spec b label state kind :
  keys (record b label state kind) = keys b ++ record_hazards (state, kind) /\
  (b_unknown (record b label state kind) = [] <-> b_unknown b = [] /\ record_unknown (state, kind) = false) /\
  b_baseline (record b label state kind) = b_baseline b.
Proof.
  destruct state; unfold keys; simpl; rewrite ?fmap_app, ?app_nil_r; split_and!; try done; try tauto.
  split; [intros [? [=]]%app_eq_nil|intros [? [=]]].
Qed.

Lemma evidence_spec b e :
  keys (evidence b e) = keys b ++ (records_of e ≫= record_hazards) /\
  (b_unknown (evidence b e) = [] <->
   b_unknown b = [] /\ Forall (fun r => record_unknown r = false) (records_of e)).
Proof.
  unfold evidence, records_of. cbv zeta.
  destruct (record_spec b (lit "gwz merge record") (ge_merge e) HzOpenGwzMerge) as (H1 & U1 & _).
  set (b1 := record b _ _ _) in *.
  destruct (record_spec b1 (lit "gwz stash record") (ge_stash e) HzOpenGwzStash) as (H2 & U2 & _).
  set (b2 := record b1 _ _ _) in *. clearbody b1 b2.
  assert (H : forall l b,
    keys (foldl (fun b item => record b (ei_kind item) (ei_state item) HzOpenGwzRecord) b l) =
      keys b ++ (((fun item => (ei_state item, HzOpenGwzRecord)) <$> l) ≫= record_hazards) /\
    (b_unknown (foldl (fun b item => record b (ei_kind item) (ei_state item) HzOpenGwzRecord) b l) = [] <->
     b_unknown b = [] /\
     Forall (fun r => record_unknown r = false) ((fun item => (ei_state item, HzOpenGwzRecord)) <$> l))).
  { clear. induction l as [|item l IH]; intros b; cbn [foldl].
    - rewrite app_nil_r. split; [done|]. rewrite Forall_nil. tauto.
    - destruct (IH (record b (ei_kind item) (ei_state item) HzOpenGwzRecord)) as [-> ->].
      destruct (record_spec b (ei_kind item) (ei_state item) HzOpenGwzRecord) as (-> & -> & _).
      rewrite fmap_cons, bind_cons, <- app_assoc, Forall_cons. split; [done|]. tauto. }
  destruct (H (ge_other e) b2) as [-> ->]. rewrite !bind_cons, H2, H1, U2, U1, <- !app_assoc.
  split; [done|]. rewrite !Forall_cons. tauto.
Qed.

Lemma observation_spec b o :
  keys (observation b o) = keys b ++ observed_hazards o (b_baseline b) /\
  (b_unknown (observation b o) = [] <->
   b_unknown b = [] /\ Forall (fun s => suppression_unknown (wo_sparse_absent o) s = false) (wo_suppressed o) /\
   wo_unknown o = []).
Proof.
  unfold observation. cbv zeta.
  destruct (observe_entries_spec (wo_entries o) b) as (H1 & U1 & B1).
  set (b1 := foldl observe_entry b _) in *. clearbody b1.
  destruct (suppressed_spec (wo_sparse_absent o) (wo_suppressed o) b1) as (H2 & U2 & B2).
  set (b2 := foldl _ b1 _) in *. clearbody b2.
  set (b3 := match wo_native_operation o with Some _ => _ | None => b2 end).
  assert (H3 : keys b3 = keys b2 ++
    match wo_native_operation o with Some _ => [(HzOpenNativeOperation, None, Unique)] | None => [] end /\
    b_unknown b3 = b_unknown b2 /\ b_baseline b3 = b_baseline b2).
  { unfold b3. destruct (wo_native_operation o); [|by rewrite app_nil_r]. by rewrite add_hazard_keys. }
  clearbody b3. destruct H3 as (H3 & U3 & B3).
  assert (H4 : keys (observe_stash b3 (wo_stash_entries o)) = keys b3 ++
    (if (0 <? wo_stash_entries o)%N then [(HzNativeStash, None, cb_stash (b_baseline b))] else []) /\
    b_unknown (observe_stash b3 (wo_stash_entries o)) = b_unknown b3).
  { unfold observe_stash. rewrite B3, B2, B1. destruct (0 <? wo_stash_entries o)%N; [|by rewrite app_nil_r].
    by rewrite provenanced_keys. }
  set (b4 := observe_stash b3 _) in *. clearbody b4. destruct H4 as [H4 U4]. split.
  - change (keys b4 = keys b ++ observed_hazards o (b_baseline b)). unfold observed_hazards.
    rewrite H4, H3, H2, H1, <- !app_assoc. done.
  - assert (E : forall c u, b_unknown (c <| b_unknown := b_unknown c ++ u |>) = b_unknown c ++ u) by done.
    rewrite E, <- U1, U4, U3.
    destruct (wo_unknown o) as [|u us]; [rewrite app_nil_r; tauto|].
    split; [intros [? [=]]%app_eq_nil|intros (_ & _ & [=])].
Qed.

(** *** The report *)

Lemma drop_details_keeps {A B} (f : A -> B) (clear : A -> A) items :
  (forall x, f (clear x) = f x) -> f <$> (drop_details clear items).1 = f <$> items.
Proof.
  intros Hf. unfold drop_details. destruct (length items <=? _); [done|]. simpl.
  rewrite fmap_app, <- list_fmap_compose.
  rewrite (list_fmap_ext (f ∘ clear) f) by (intros; apply Hf).
  by rewrite <- fmap_app, take_drop.
Qed.

Definition refusing (k : hazard_key) : Prop := provenance_refuses k.2 = true.

Lemma finish_spec b :
  key_of <$> wr_hazards (finish b) = keys b /\
  (wr_verdict (finish b) = VerdictUnknown <-> b_unknown b <> []) /\
  (wr_verdict (finish b) = VerdictDirty <-> b_unknown b = [] /\ exists k, k ∈ keys b /\ refusing k) /\
  ((ur_kind <$> wr_unknown (finish b)) = (ur_kind <$> b_unknown b)).
Proof.
  unfold finish.
  pose proof (drop_details_keeps key_of (fun h => h <| hz_detail := [] |>) (b_hazards b) ltac:(done)) as Hk.
  pose proof (drop_details_keeps ur_kind (fun u => u <| ur_detail := [] |>) (b_unknown b) ltac:(done)) as Hu.
  destruct (drop_details (fun h => h <| hz_detail := [] |>) (b_hazards b)) as [hazards hc].
  destruct (drop_details (fun u => u <| ur_detail := [] |>) (b_unknown b)) as [unknown uc].
  cbn [fst] in Hk, Hu. cbn [wr_hazards wr_verdict wr_unknown].
  assert (Hl : length unknown = 0 <-> b_unknown b = []).
  { pose proof (f_equal length Hu) as E. rewrite !length_fmap in E. rewrite E.
    split; [apply nil_length_inv|by intros ->]. }
  assert (Hr : existsb (fun h => provenance_refuses (hz_provenance h)) hazards = true <->
               exists k, k ∈ keys b /\ refusing k).
  { unfold keys. rewrite <- Hk, existsb_elem. split.
    - intros (h & Hh & Hp). exists (key_of h). split; [by apply list_elem_of_fmap_2|done].
    - intros (k & (h & -> & Hh)%list_elem_of_fmap & Hp). by exists h. }
  rewrite <- Hl, <- Hr. split; [done|]. destruct (existsb _ hazards); case_bool_decide; split_and!; naive_solver.
Qed.

Lemma established o e :
  Forall (fun s => suppression_unknown (wo_sparse_absent o) s = false) (wo_suppressed o) /\ wo_unknown o = [] /\
  Forall (fun r => record_unknown r = false) (records_of e) <-> ~ unestablished o e.
Proof.
  unfold unestablished. rewrite !Forall_forall. split.
  - intros (H1 & H2 & H3) [H|[(s & Hs & H)|(r & Hr & H)]]; [done| |]; [rewrite H1 in H|rewrite H3 in H]; done.
  - intros H. split_and!.
    + intros s Hs. apply not_true_is_false. intros Ht. apply H. eauto.
    + destruct (wo_unknown o); [done|]. exfalso. apply H. by left.
    + intros r Hr. apply not_true_is_false. intros Ht. apply H. eauto.
Qed.

Lemma classify_spec o e baseline :
  let r := classify_work_against o e baseline in
  key_of <$> wr_hazards r = all_hazards o e baseline /\
  (wr_verdict r = VerdictUnknown <-> ~ ~ unestablished o e) /\
  (wr_verdict r = VerdictDirty <->
   ~ unestablished o e /\ exists k, k ∈ all_hazards o e baseline /\ refusing k).
Proof.
  cbv zeta. unfold classify_work_against.
  set (b := default_builder <| b_baseline := baseline |>).
  destruct (observation_spec b o) as [H1 U1]. destruct (evidence_spec (observation b o) e) as [H2 U2].
  destruct (finish_spec (evidence (observation b o) e)) as (H3 & V1 & V2 & _).
  rewrite U1 in U2. pose proof (established o e) as HE.
  assert (HU : b_unknown (evidence (observation b o) e) = [] <-> ~ unestablished o e).
  { rewrite U2, <- HE. change (b_unknown b) with (@nil UnknownReason). tauto. }
  rewrite H2, H1 in H3. rewrite H3. unfold all_hazards. split; [done|].
  rewrite V1, V2, HU, H2, H1. done.
Qed.

Lemma unestablished_stable o e : ~ ~ unestablished o e <-> unestablished o e.
Proof.
  split; [|tauto]. rewrite <- established. unfold unestablished. intros H.
  destruct (wo_unknown o) as [|u us] eqn:E; [|by left]. right.
  destruct (decide (Forall (fun s => suppression_unknown (wo_sparse_absent o) s = false) (wo_suppressed o))) as [Hs|Hs].
  - right. destruct (decide (Forall (fun r => record_unknown r = false) (records_of e))) as [Hr|Hr]; [tauto|].
    apply not_Forall_Exists in Hr; [|apply _]. apply Exists_exists in Hr as (r & Hr & Hn).
    exists r. split; [done|]. by apply not_false_is_true.
  - left. apply not_Forall_Exists in Hs; [|apply _]. apply Exists_exists in Hs as (s & Hs & Hn).
    exists s. split; [done|]. by apply not_false_is_true.
Qed.

(** ** The baseline as a summary of every answer recorded for a path *)

Definition baseline_of (l : list (BytePath * Provenance)) : CopyBaseline :=
  foldl (fun b a => baseline_set b a.1 a.2) default_baseline l.

Definition answers (path : BytePath) (l : list (BytePath * Provenance)) : list Provenance :=
  snd <$> filter (fun a => a.1 = path) l.

Definition summary (l : list Provenance) : option Provenance :=
  if bool_decide (Regenerable ∈ l) then Some Regenerable
  else match last (filter (fun p => provenance_refuses p = true) l) with
       | Some p => Some p
       | None => if bool_decide (l = []) then None else Some UnchangedCopy
       end.

Lemma summary_snoc l p :
  summary (l ++ [p]) =
  Some (if bool_decide (summary l = Some Regenerable) || bool_decide (p = Regenerable) then Regenerable
        else if provenance_refuses p then p else default p (summary l)).
Proof.
  unfold summary. rewrite filter_app, filter_cons, filter_nil.
  rewrite (bool_decide_ext (Regenerable ∈ l ++ [p]) (Regenerable ∈ l \/ p = Regenerable))
    by (rewrite elem_of_app, list_elem_of_singleton; naive_solver).
  rewrite (bool_decide_false (l ++ [p] = [])) by (by destruct l).
  destruct (decide (Regenerable ∈ l)) as [Hr|Hr].
  { rewrite !(bool_decide_true (Regenerable ∈ l)), (bool_decide_true (_ \/ _)) by tauto.
    by rewrite bool_decide_true. }
  rewrite (bool_decide_false (Regenerable ∈ l)) by done.
  destruct p; simpl; rewrite ?app_nil_r, ?last_snoc;
    destruct (last _) as [[]|] eqn:E; destruct (decide (l = [])) as [->|Hl]; try done;
    rewrite ?(bool_decide_false (l = [])) by done;
    repeat first [rewrite bool_decide_true by naive_solver|rewrite bool_decide_false by naive_solver]; try done.
  all: exfalso; apply last_Some_elem_of, list_elem_of_filter in E; naive_solver.
Qed.

Lemma baseline_entries l path : cb_entries (baseline_of l) !! path = summary (answers path l).
Proof.
  unfold baseline_of, answers. induction l as [|[q p] l IH] using rev_ind; [done|].
  rewrite foldl_app, filter_app, filter_cons, filter_nil, fmap_app. simpl.
  destruct (decide (q = path)) as [->|Hne].
  - rewrite lookup_insert_eq, IH. change (snd <$> [(path, p)]) with [p].
    rewrite summary_snoc. destruct (summary _) as [[]|], p; done.
  - rewrite lookup_insert_ne by done. cbn [fmap list_fmap].
    by rewrite app_nil_r.
Qed.

Lemma summary_refuses l :
  provenance_refuses (default Unique (summary l)) = true <->
  (Regenerable ∉ l) /\ (l = [] \/ exists p, p ∈ l /\ provenance_refuses p = true).
Proof.
  unfold summary. destruct (decide (Regenerable ∈ l)) as [Hr|Hr].
  { rewrite bool_decide_true by done. simpl. split; [done|tauto]. }
  rewrite bool_decide_false by done.
  destruct (last _) as [p|] eqn:E.
  - apply last_Some_elem_of, list_elem_of_filter in E as [Hp Hin]. simpl. naive_solver.
  - apply last_None in E. destruct (decide (l = [])) as [->|Hl]; [naive_solver|].
    rewrite bool_decide_false by done. simpl. split; [done|]. intros (_ & [?|(p & Hp & Ht)]); [done|].
    exfalso. eapply (not_elem_of_nil p). rewrite <- E. by apply list_elem_of_filter.
Qed.

Lemma record_kept b label state kind :
  exists more, b_unknown (record b label state kind) = b_unknown b ++ more.
Proof.
  destruct state; [exists []|exists []|eexists [_]]; [by rewrite app_nil_r|by rewrite app_nil_r|done].
Qed.

Lemma evidence_kept b e : exists more, b_unknown (evidence b e) = b_unknown b ++ more.
Proof.
  unfold evidence. cbv zeta.
  destruct (record_kept b (lit "gwz merge record") (ge_merge e) HzOpenGwzMerge) as [m1 H1].
  set (b1 := record b _ _ _) in *. clearbody b1.
  destruct (record_kept b1 (lit "gwz stash record") (ge_stash e) HzOpenGwzStash) as [m2 H2].
  set (b2 := record b1 _ _ _) in *. clearbody b2. rewrite H1 in H2.
  assert (H : exists more, b_unknown b2 = b_unknown b ++ more) by (eexists; by rewrite H2, <- app_assoc).
  clear H1 H2. revert b2 H. induction (ge_other e) as [|i l IH]; intros b2 H; [done|].
  cbn [foldl]. apply IH. destruct H as [more H].
  destruct (record_kept b2 (ei_kind i) (ei_state i) HzOpenGwzRecord) as [m3 H3].
  eexists. by rewrite H3, H, <- app_assoc.
Qed.

Lemma failed_observation reason reasons e :
  let r := finish (evidence (default_builder <| b_unknown := reason :: reasons |>) e) in
  wr_verdict r = VerdictUnknown /\ ur_kind reason ∈ ur_kind <$> wr_unknown r.
Proof.
  cbv zeta. destruct (evidence_kept (default_builder <| b_unknown := reason :: reasons |>) e) as [more Hm].
  destruct (finish_spec (evidence (default_builder <| b_unknown := reason :: reasons |>) e)) as (_ & V & _ & K).
  rewrite V, K, Hm. split; [done|]. cbn. left.
Qed.

(** ** Claims *)


(** However the comparisons with the source and the recognisers of
    generated data are interleaved, the baseline of a path is regenerable
    once any of them said so; otherwise it is the last answer that refuses
    removal, if any was given; it lets a removal pass as an unchanged copy
    only when no answer refused and at least one was given, and a path
    nothing was said about is held to be unique to the copy. *)
Theorem baseline_conservative l path :
  baseline_entry (baseline_of l) path = default Unique (summary (answers path l)) /\
  (provenance_refuses (baseline_entry (baseline_of l) path) = true <->
   (Regenerable ∉ answers path l) /\
   (answers path l = [] \/ exists p, p ∈ answers path l /\ provenance_refuses p = true)).
Proof.
  assert (E : baseline_entry (baseline_of l) path = default Unique (summary (answers path l))).
  { unfold baseline_entry. rewrite baseline_entries. by destruct (summary _). }
  split; [done|]. rewrite E. apply summary_refuses.
Qed.
