(* ===== verification/HostPath.v ===== *)
(** Host paths as the sources use them through std::path on Unix: the
    components of a spelling, joining, component-wise comparison, and the
    lexical resolution the family crates share (`resolve` of
    src/crates/local-disposal/src/lib.rs).  A path is its text; a resolved
    path is related to the directory it names, written as in [FamilyPath]
    as the names from that directory up to the file system's root. *)

From S2P Require Export FamilyPath.

#[local] Set Default Proof Using "Type".

(** ** std::path *)

Inductive Component : Type := RootDir | CurDir | ParentDir | Normal (name : str).

#[global] Instance Component_eq_dec : EqDecision Component.
Proof. solve_decision. Defined.

#[global] Instance Normal_inj : Inj (=) (=) Normal.
Proof. by intros ?? [=]. Qed.

Definition is_absolute (p : str) : bool := starts_with (N.eqb c_slash) p.

(** The component a part between two separators is; a repeated separator
    and a [.] part are none. *)
Definition component_of (part : str) : list Component :=
  if bool_decide (part = []) || bool_decide (part = dot) then []
  else if bool_decide (part = dotdot) then [ParentDir]
  else [Normal part].

(** [Path::components]: a leading [.] of a relative path is kept. *)
Definition path_components (p : str) : list Component :=
  let parts := split_on c_slash p in
  if is_absolute p then RootDir :: (parts ≫= component_of)
  else (if bool_decide (head parts = Some dot) then [CurDir] else []) ++ (parts ≫= component_of).

Definition path_text (cs : list Component) : str :=
  let name c := match c with
                | RootDir => []
                | CurDir => dot
                | ParentDir => dotdot
                | Normal n => n
                end in
  match cs with
  | RootDir :: rest => c_slash :: join_with c_slash (name <$> rest)
  | _ => join_with c_slash (name <$> cs)
  end.

(** [Path::eq] and [Path::starts_with] compare components. *)
Definition path_eqb (p q : str) : bool := bool_decide (path_components p = path_components q).

Definition path_starts_with (p base : str) : bool :=
  bool_decide (path_components base `prefix_of` path_components p).

(** [Path::join]. *)
Definition path_join (p q : str) : str :=
  if is_absolute q then q
  else if bool_decide (p = []) || ends_with (N.eqb c_slash) p then p ++ q
  else p ++ c_slash :: q.

(** [Path::parent] and [Path::file_name]. *)
Definition path_parent (p : str) : option str :=
  match last (path_components p) with
  | Some RootDir | None => None
  | Some _ => Some (path_text (removelast (path_components p)))
  end.

Definition path_file_name (p : str) : option str :=
  match last (path_components p) with Some (Normal n) => Some n | _ => None end.

(** ** Lexical resolution *)

Definition resolve_step (resolved : list Component) (component : Component) : list Component :=
  match component with
  | CurDir => resolved
  | ParentDir =>
      match last resolved with
      | Some (Normal _) => removelast resolved
      | Some RootDir => resolved
      | _ => resolved ++ [ParentDir]
      end
  | RootDir => [RootDir]
  | Normal name => resolved ++ [Normal name]
  end.

Definition resolve (path : str) : str :=
  path_text (foldl resolve_step [] (path_components path)).

(** ** The directory an absolute path names *)

Definition directory (p : str) : list str := locate [] (split_on c_slash p).

Definition rooted (names : list str) : list Component := RootDir :: (Normal <$> reverse names).

Record plain_name (n : str) : Prop := {
  pn_nonempty : n <> [];
  pn_dot : n <> dot;
  pn_dotdot : n <> dotdot;
  pn_slash : c_slash ∉ n;
}.

Lemma plain_component n : plain_name n -> component_of n = [Normal n].
Proof. intros [H1 H2 H3 _]. unfold component_of. by rewrite !bool_decide_false. Qed.

Lemma rooted_cons n names : rooted (n :: names) = rooted names ++ [Normal n].
Proof. unfold rooted. by rewrite reverse_cons, fmap_app. Qed.

Lemma resolve_parts parts names :
  Forall (fun p => c_slash ∉ p) parts ->
  foldl resolve_step (rooted names) (parts ≫= component_of) = rooted (locate names parts).
Proof.
  revert names. induction parts as [|p parts IH]; intros names H; [done|].
  apply Forall_cons in H as [Hp H]. rewrite bind_cons, foldl_app.
  cbn [locate foldl]. change (foldl enter (enter names p) parts) with (locate (enter names p) parts).
  rewrite <- IH by done. f_equal. unfold component_of, enter.
  destruct (bool_decide (p = []) || bool_decide (p = dot)); [done|].
  destruct (bool_decide (p = dotdot)); cbn [foldl resolve_step tail].
  - destruct names as [|n names]; [done|]. by rewrite rooted_cons, last_snoc, removelast_snoc.
  - by rewrite rooted_cons.
Qed.

Lemma locate_plain names parts :
  Forall plain_name names -> Forall (fun p => c_slash ∉ p) parts -> Forall plain_name (locate names parts).
Proof.
  revert names. induction parts as [|p parts IH]; intros names Hn H; [done|].
  apply Forall_cons in H as [Hp H]. apply IH; [|done]. unfold enter.
  destruct (decide (p = [])); [by rewrite bool_decide_true|].
  destruct (decide (p = dot)); [by rewrite (bool_decide_true (p = dot)), orb_true_r|].
  rewrite !bool_decide_false by done. simpl.
  destruct (decide (p = dotdot)); [rewrite bool_decide_true by done; by destruct Hn; [constructor|]|].
  rewrite bool_decide_false by done. by constructor.
Qed.

Lemma directory_plain p : Forall plain_name (directory p).
Proof. apply locate_plain; [constructor|apply split_on_parts]. Qed.

(** A resolved path spells exactly its components. *)
Lemma rooted_text names :
  Forall plain_name names -> path_components (path_text (rooted names)) = rooted names.
Proof.
  intros H. unfold rooted, path_text.
  rewrite <- list_fmap_compose. change (_ ∘ Normal) with (@id str). rewrite list_fmap_id.
  assert (HR : Forall plain_name (reverse names)) by by apply Forall_reverse.
  revert HR. generalize (reverse names) as l. clear. intros l HR.
  unfold path_components. cbn [is_absolute starts_with]. rewrite N.eqb_refl. f_equal.
  change (c_slash :: join_with c_slash l) with ([] ++ c_slash :: join_with c_slash l).
  rewrite split_on_app by apply not_elem_of_nil. rewrite bind_cons. simpl.
  destruct l as [|n l]; [done|].
  rewrite split_join; [|done|eapply Forall_impl; [done|]; by intros ? []].
  revert HR. generalize (n :: l) as l'. clear. induction 1 as [|n l Hn Hl IH]; [done|].
  rewrite bind_cons, plain_component, IH by done. done.
Qed.

Lemma resolve_absolute p :
  is_absolute p = true ->
  path_components (resolve p) = rooted (directory p) /\ resolve p = path_text (rooted (directory p)).
Proof.
  intros H. assert (E : resolve p = path_text (rooted (directory p))).
  { unfold resolve, path_components. rewrite H. cbn [foldl resolve_step].
    rewrite (resolve_parts _ []); [done|apply split_on_parts]. }
  split; [|done]. rewrite E. apply rooted_text, directory_plain.
Qed.

Lemma rooted_prefix a b : rooted a `prefix_of` rooted b <-> a `suffix_of` b.
Proof.
  unfold rooted. split.
  - intros H%prefix_cons_inv_2. destruct H as [k Hk].
    assert (Hr : reverse a `prefix_of` reverse b).
    { revert Hk. generalize (reverse a) (reverse b). clear. intros l.
      induction l as [|x l IH]; intros l' Hk; [apply prefix_nil|].
      destruct l' as [|y l']; [done|]. injection Hk as <- Hk. by apply prefix_cons, IH. }
    by apply suffix_prefix_reverse.
  - intros H%suffix_prefix_reverse. apply prefix_cons.
    destruct H as [k ->]. rewrite fmap_app. by apply prefix_app_r.
Qed.

Lemma rooted_inj a b : rooted a = rooted b <-> a = b.
Proof.
  split; [|by intros ->]. intros [= H%(inj (fmap Normal))%(inj reverse)]. done.
Qed.

(** Comparing resolved absolute paths compares directories. *)
Lemma resolved_starts_with p q :
  is_absolute p = true -> is_absolute q = true ->
  path_starts_with (resolve p) (resolve q) = bool_decide (directory q `suffix_of` directory p).
Proof.
  intros [Hp _]%resolve_absolute [Hq _]%resolve_absolute. unfold path_starts_with. rewrite Hp, Hq.
  apply bool_decide_ext, rooted_prefix.
Qed.

Lemma resolved_eqb p q :
  is_absolute p = true -> is_absolute q = true ->
  path_eqb (resolve p) (resolve q) = bool_decide (directory p = directory q).
Proof.
  intros [Hp _]%resolve_absolute [Hq _]%resolve_absolute. unfold path_eqb. rewrite Hp, Hq.
  apply bool_decide_ext, rooted_inj.
Qed.

(** ** Joining *)

Lemma split_on_sep c a b : split_on c (a ++ c :: b) = split_on c a ++ split_on c b.
Proof.
  induction a as [|x a IH]; simpl.
  - rewrite N.eqb_refl. by destruct (split_on_cons_eq c b) as (p & ps & ->).
  - rewrite IH. destruct (split_on_cons_eq c a) as (p & ps & ->). by destruct (x =? c)%N.
Qed.

Lemma directory_join root rel :
  is_absolute root = true -> is_absolute rel = false ->
  is_absolute (path_join root rel) = true /\
  directory (path_join root rel) = locate (directory root) (split_on c_slash rel).
Proof.
  intros Hr Hq. destruct root as [|c root]; [done|]. unfold path_join. rewrite Hq.
  rewrite bool_decide_false by done. cbn [orb].
  destruct (ends_with (N.eqb c_slash) (c :: root)) eqn:E; (split; [done|]); unfold directory.
  - unfold ends_with, starts_with in E. destruct (snoc_inv (c :: root)) as [?|(l & x & El)]; [done|].
    rewrite El in *. rewrite reverse_snoc in E. apply N.eqb_eq in E as <-.
    rewrite <- app_assoc. cbn [app]. rewrite !split_on_sep, !locate_app. done.
  - by rewrite split_on_sep, locate_app.
Qed.

(** ** Members whose recorded paths climb no further than they need *)

(** From [root], the path leaves the last ancestor it climbs to by another
    name than the one it came up through. *)
Definition shortest (root : list str) (m : MemberPath) : Prop :=
  let k := parent_steps (components m) in
  exists ancestor, root !! pred k = Some ancestor /\ components m !! k <> Some ancestor.

Lemma last_differs_no_suffix {A} (X Y D : list A) :
  X <> [] -> last X <> last Y -> ~ X ++ D `suffix_of` Y ++ D.
Proof.
  intros HX HL [z E]. rewrite app_assoc in E. apply app_inv_tail in E as ->. apply HL.
  destruct (snoc_inv X) as [?|(l & x & ->)]; [done|]. by rewrite app_assoc, !last_snoc.
Qed.

Lemma shortest_climb root (oa ob : list str) ka kb :
  ka < kb -> ob <> [] ->
  (exists ancestor, root !! pred kb = Some ancestor /\ head ob <> Some ancestor) ->
  (~ reverse oa ++ drop ka root `suffix_of` reverse ob ++ drop kb root) /\
  (~ reverse ob ++ drop kb root `suffix_of` reverse oa ++ drop ka root).
Proof.
  intros Hk Hob (anc & Hanc & Hne).
  set (mid := take (kb - ka) (drop ka root)).
  assert (Hd : drop ka root = mid ++ drop kb root).
  { unfold mid. rewrite <- (take_drop (kb - ka) (drop ka root)) at 1. rewrite drop_drop. do 2 f_equal. lia. }
  assert (Hm : last mid = Some anc).
  { unfold mid. rewrite last_lookup, length_take, length_drop.
    pose proof (lookup_lt_Some _ _ _ Hanc). rewrite lookup_take_lt by lia. rewrite lookup_drop.
    rewrite <- Hanc. f_equal. lia. }
  assert (Hl : forall z, last (z ++ mid) = Some anc) by (intros z; by rewrite last_app, Hm).
  assert (Hb : last (reverse ob) = head ob) by apply last_reverse.
  rewrite Hd, app_assoc. split; apply last_differs_no_suffix.
  - intros [_ E]%app_eq_nil. by rewrite E in Hm.
  - rewrite Hl, Hb. congruence.
  - intros E%(f_equal length). rewrite length_reverse in E. by destruct ob.
  - rewrite Hl, Hb. congruence.
Qed.

Lemma shortest_disjoint root a b :
  member_path_wf a -> member_path_wf b -> relate a b = Disjoint ->
  shortest root a -> shortest root b ->
  (~ locate root (components a) `suffix_of` locate root (components b)) /\
  (~ locate root (components b) `suffix_of` locate root (components a)).
Proof.
  intros Ha Hb Hr Sa Sb. unfold relate in Hr.
  pose proof (relate_components_spec (components a) (components b)) as H. rewrite Hr in H.
  set (ka := parent_steps (components a)). set (kb := parent_steps (components b)).
  destruct (decide (ka = kb)) as [E|E]; [by apply disjoint_locations|].
  destruct (member_path_split a Ha) as (oa & Ea & Na & _ & La).
  destruct (member_path_split b Hb) as (ob & Eb & Nb & _ & Lb).
  assert (Fa : components a !! ka = head oa).
  { rewrite Ea. rewrite lookup_app_r by (rewrite length_replicate; done).
    rewrite length_replicate. replace (ka - _) with 0 by lia. by destruct oa. }
  assert (Fb : components b !! kb = head ob).
  { rewrite Eb. rewrite lookup_app_r by (rewrite length_replicate; done).
    rewrite length_replicate. replace (kb - _) with 0 by lia. by destruct ob. }
  unfold shortest in Sa, Sb. fold ka in Sa, La. fold kb in Sb, Lb. cbv zeta in Sa, Sb.
  rewrite Fa in Sa. rewrite Fb in Sb. rewrite La, Lb.
  destruct (Nat.lt_total ka kb) as [Hk|[Hk|Hk]]; [|done|].
  - by apply shortest_climb.
  - destruct (shortest_climb root ob oa kb ka Hk Na Sa). done.
Qed.

(** Joining appends components. *)
Lemma components_join a b :
  a <> [] -> is_absolute b = false -> head (split_on c_slash b) <> Some dot ->
  path_components (path_join a b) = path_components a ++ path_components b.
Proof.
  intros Ha Hb Hd. destruct a as [|c a]; [done|].
  assert (Eb : path_components b = split_on c_slash b ≫= component_of).
  { unfold path_components. by rewrite Hb, bool_decide_false. }
  assert (HG : forall x, path_components ((c :: a) ++ c_slash :: x) =
      path_components (c :: a) ++ (split_on c_slash x ≫= component_of)).
  { intros x. unfold path_components. rewrite split_on_sep, bind_app.
    assert (Ei : is_absolute ((c :: a) ++ c_slash :: x) = is_absolute (c :: a)) by done. rewrite Ei.
    destruct (split_on_cons_eq c_slash (c :: a)) as (p & ps & ->).
    destruct (is_absolute (c :: a)); [done|]. by rewrite <- app_assoc. }
  unfold path_join. rewrite Hb, bool_decide_false by done. cbn [orb].
  destruct (ends_with (N.eqb c_slash) (c :: a)) eqn:E; [|by rewrite HG, Eb].
  unfold ends_with, starts_with in E. destruct (snoc_inv (c :: a)) as [?|(l & x & El)]; [done|].
  rewrite El in *. rewrite reverse_snoc in E. apply N.eqb_eq in E as <-.
  rewrite <- app_assoc. cbn [app]. destruct l as [|y l].
  - unfold path_components. cbn [is_absolute starts_with app]. rewrite N.eqb_refl.
    change (c_slash :: b) with ([] ++ c_slash :: b). rewrite split_on_sep, bind_app. rewrite Hb, bool_decide_false by done.
    done.
  - unfold path_components. rewrite !split_on_sep, !bind_app, Hb.
    rewrite (bool_decide_false (head (split_on c_slash b) = Some dot)) by done.
    assert (Ei : forall z, is_absolute ((y :: l) ++ z) = is_absolute (y :: l)) by done. rewrite !Ei.
    destruct (split_on_cons_eq c_slash (y :: l)) as (p & ps & ->).
    change (split_on c_slash [] ≫= component_of) with (@nil Component). rewrite app_nil_r.
    destruct (is_absolute (y :: l)); [done|]. by rewrite <- app_assoc.
Qed.

(** ** A sibling of a path *)

(** A component other than a leading one. *)
Definition inner (c : Component) : Prop :=
  match c with ParentDir => True | Normal n => plain_name n | _ => False end.

Definition leading (pre : list Component) : Prop := pre = [] \/ pre = [RootDir] \/ pre = [CurDir].

Lemma parts_inner parts : Forall (fun p => c_slash ∉ p) parts -> Forall inner (parts ≫= component_of).
Proof.
  induction 1 as [|p parts Hp _ IH]; [constructor|]. rewrite bind_cons. apply Forall_app. split; [|done].
  unfold component_of. destruct (bool_decide (p = [])) eqn:E1; [constructor|].
  destruct (bool_decide (p = dot)) eqn:E2; [constructor|]. cbn [orb].
  destruct (bool_decide (p = dotdot)) eqn:E3; repeat constructor; by apply bool_decide_eq_false in E1, E2, E3.
Qed.

Lemma components_shape p : exists pre rest, path_components p = pre ++ rest /\ leading pre /\ Forall inner rest.
Proof.
  pose proof (parts_inner _ (split_on_parts c_slash p)) as HI. unfold path_components, leading.
  destruct (is_absolute p); [exists [RootDir], (split_on c_slash p ≫= component_of); tauto|].
  destruct (bool_decide (head (split_on c_slash p) = Some dot)); 
    [exists [CurDir], (split_on c_slash p ≫= component_of)|exists [], (split_on c_slash p ≫= component_of)]; tauto.
Qed.

Definition component_name (c : Component) : str :=
  match c with RootDir => [] | CurDir => dot | ParentDir => dotdot | Normal n => n end.

Lemma inner_parts cs : Forall inner cs -> (component_name <$> cs) ≫= component_of = cs.
Proof.
  induction 1 as [|c cs Hc _ IH]; [done|]. rewrite fmap_cons, bind_cons, IH.
  destruct c as [| | |n]; try done. cbn [component_name]. by rewrite plain_component.
Qed.

Lemma inner_clean cs : Forall inner cs -> Forall (fun p => c_slash ∉ p) (component_name <$> cs).
Proof.
  intros H. apply Forall_fmap. eapply Forall_impl; [exact H|]. intros [| | |n]; try done.
  - intros _. refine (bool_decide_unpack (c_slash ∉ dotdot) _). by vm_compute.
  - by intros [].
Qed.

(** The text of a component list spells it again. *)
Lemma text_components pre rest :
  leading pre -> Forall inner rest -> path_components (path_text (pre ++ rest)) = pre ++ rest.
Proof.
  intros Hl Hi. pose proof (inner_parts _ Hi) as Ep. pose proof (inner_clean _ Hi) as Ec.
  destruct Hl as [->|[->| ->]]; cbn [app].
  - destruct rest as [|c rest]; [done|].
    assert (ET : path_text (c :: rest) = join_with c_slash (component_name <$> c :: rest)).
    { apply Forall_cons in Hi as [Hc _]. by destruct c. }
    rewrite ET. unfold path_components. rewrite split_join by done. rewrite Ep.
    apply Forall_cons in Hi as [Hc _]. apply Forall_cons in Ec as [Hs _].
    assert (Hn : component_name c <> [] /\ component_name c <> dot) by (destruct c; [done..|by destruct Hc]).
    destruct Hn as [Hn Hd]. assert (HA : is_absolute (join_with c_slash (component_name <$> c :: rest)) = false).
    { cbn [fmap list_fmap join_with]. destruct (component_name c) as [|x l]; [done|].
      assert (Hx : (c_slash =? x)%N = false) by (apply N.eqb_neq; intros <-; apply Hs; left).
      by destruct (component_name <$> rest); cbn [is_absolute starts_with app]. }
    rewrite HA, bool_decide_false; [done|]. cbn [fmap list_fmap head]. congruence.
  - change (path_text (RootDir :: rest)) with ([] ++ c_slash :: join_with c_slash (component_name <$> rest)).
    unfold path_components. cbn [is_absolute starts_with app]. rewrite N.eqb_refl.
    change (c_slash :: join_with c_slash (component_name <$> rest)) with
      ([] ++ c_slash :: join_with c_slash (component_name <$> rest)).
    rewrite split_on_sep, bind_app. f_equal. destruct rest as [|c rest]; [done|].
    rewrite split_join by done. rewrite Ep. done.
  - change (path_text (CurDir :: rest)) with (join_with c_slash (dot :: (component_name <$> rest))).
    unfold path_components. rewrite split_join; [|done|].
    + cbn [head]. rewrite (bool_decide_true (Some dot = Some dot)) by done. rewrite bind_cons, Ep.
      by destruct (component_name <$> rest).
    + constructor; [|done]. refine (bool_decide_unpack (c_slash ∉ dot) _). by vm_compute.
Qed.

Lemma plain_components n : plain_name n ->
  is_absolute n = false /\ head (split_on c_slash n) <> Some dot /\ path_components n = [Normal n].
Proof.
  intros Hp. pose proof Hp as [H1 H2 H3 H4]. unfold path_components. rewrite split_on_clean by done.
  assert (HA : is_absolute n = false).
  { destruct n as [|x n]; [done|]. apply N.eqb_neq. intros <-. apply H4. left. }
  rewrite HA. cbn [head]. rewrite bool_decide_false by congruence.
  split_and!; [done|congruence|]. cbn. by rewrite plain_component.
Qed.

(** The parent spells all components but the last. *)
Lemma parent_components p n : path_file_name p = Some n ->
  exists parent, path_parent p = Some parent /\ path_components parent = removelast (path_components p).
Proof.
  unfold path_file_name, path_parent. intros Hp. destruct (last (path_components p)) as [[]|] eqn:El; try done.
  exists (path_text (removelast (path_components p))). split; [done|].
  destruct (components_shape p) as (pre & rest & E & Hpre & Hrest). rewrite E in *.
  destruct (snoc_inv rest) as [->|(r & c & ->)].
  - exfalso. rewrite app_nil_r in El. by destruct Hpre as [->|[->| ->]].
  - rewrite app_assoc, removelast_snoc. apply Forall_app in Hrest as [? _]. by apply text_components.
Qed.

(** A file beside [p], through [p]'s parent. *)
Lemma sibling_components p n m : path_file_name p = Some n -> plain_name m ->
  exists parent, path_parent p = Some parent /\
    path_components (path_join parent m) = removelast (path_components p) ++ [Normal m].
Proof.
  intros (parent & Hp & ET)%parent_components Hm. exists parent. split; [done|].
  destruct (plain_components m Hm) as (Ha & Hd & Hc). destruct (decide (parent = [])) as [->|En].
  - rewrite <- ET. unfold path_join. by rewrite Ha.
  - by rewrite components_join, ET, Hc by done.
Qed.

Definition plainb (n : str) : bool := bool_decide (n <> [] /\ n <> dot /\ n <> dotdot /\ c_slash ∉ n).

Lemma plain_decide n : plainb n = true -> plain_name n.
Proof. by intros (?&?&?&?)%bool_decide_eq_true. Qed.

Lemma absolute_components p : is_absolute p = bool_decide (head (path_components p) = Some RootDir).
Proof.
  unfold path_components. destruct (is_absolute p); [done|]. symmetry. apply bool_decide_eq_false.
  pose proof (parts_inner _ (split_on_parts c_slash p)) as HI.
  destruct (bool_decide (head (split_on c_slash p) = Some dot)); [done|]. cbn [app].
  destruct (split_on c_slash p ≫= component_of) as [|c cs]; [done|]. apply Forall_cons in HI as [Hc _].
  intros [= ->]. done.
Qed.

Lemma file_name_plain p n : path_file_name p = Some n -> plain_name n.
Proof.
  unfold path_file_name. destruct (last (path_components p)) as [[]|] eqn:E; try done. intros [= <-].
  apply last_Some in E as [cs E]. destruct (components_shape p) as (pre & rest & E' & Hl & Hi).
  rewrite E in E'. destruct (snoc_inv rest) as [->|(r & c & ->)].
  - rewrite app_nil_r in E'. destruct Hl as [->|[->| ->]].
    + by apply app_nil in E' as [_ ?].
    + apply (app_inj_tail cs []) in E' as [_ ?]. done.
    + apply (app_inj_tail cs []) in E' as [_ ?]. done.
  - rewrite app_assoc in E'. apply app_inj_tail in E' as [_ <-]. 
    apply Forall_app in Hi as [_ Hi]. by inversion Hi.
Qed.
