(* ===== verification/CopyContract.v ===== *)
(** The contract of a whole-tree copy (src/crates/copy-contract/src/lib.rs):
    the request with its exclusions, the report, the error and their texts,
    and the two ports, a copier and a cancellation, as classes over the state
    they act on. *)

From S2P Require Export HostPath.

#[local] Set Default Proof Using "Type".

Inductive CopyMode : Type := Auto | OrdinaryOnly.

#[global] Instance CopyMode_eq_dec : EqDecision CopyMode.
Proof. solve_decision. Defined.

(** [Exclusion::RelativePath], the enum's one constructor. *)
Inductive Exclusion : Type := RelativePath (path : str).

(** [Exclusion::matches]. *)
Definition exclusion_matches (e : Exclusion) (relative : str) : bool :=
  match e with RelativePath excluded => path_starts_with relative excluded end.

Record CopyRequest : Type := mkCopyRequest {
  cq_source : str;
  cq_destination : str;
  cq_exclusions : list Exclusion;
  cq_mode : CopyMode;
}.

(** [CopyRequest::is_excluded]. *)
Definition is_excluded (request : CopyRequest) (relative : str) : bool :=
  existsb (fun exclusion => exclusion_matches exclusion relative) (cq_exclusions request).

Inductive CopyWarningKind : Type :=
| NativeUnsupportedFellBack
| NativeUnavailable
| AncillaryMetadataUnsupported.

#[global] Instance CopyWarningKind_eq_dec : EqDecision CopyWarningKind.
Proof. solve_decision. Defined.

Record CopyWarning : Type := mkCopyWarning { cw_path : str; cw_kind : CopyWarningKind; cw_detail : str }.

#[global] Instance CopyWarning_eq_dec : EqDecision CopyWarning.
Proof. solve_decision. Defined.

Record CopyReport : Type := mkCopyReport {
  native_files : N;
  ordinary_files : N;
  directories : N;
  symlinks : N;
  logical_bytes : N;
  warnings : list CopyWarning;
}.

#[global] Instance CopyReport_eq_dec : EqDecision CopyReport.
Proof. solve_decision. Defined.

(** [CopyReport::default]. *)
Definition empty_report : CopyReport := mkCopyReport 0 0 0 0 0 [].

(** [CopyReport::files]. *)
Definition report_files (r : CopyReport) : N := (native_files r + ordinary_files r)%N.

Inductive CopyErrorCategory : Type :=
| CopyCancelled
| SourceMissing
| SourceUnreadable
| DestinationNotEmptyCategory
| DestinationUnwritable
| UnsupportedEntry
| ShortWrite
| MetadataFailed
| CopyIo
| CopyUnimplemented.

#[global] Instance CopyErrorCategory_eq_dec : EqDecision CopyErrorCategory.
Proof. solve_decision. Defined.

(** Its derived [Debug] text. *)
Definition copy_category_debug (c : CopyErrorCategory) : str :=
  match c with
  | CopyCancelled => lit "Cancelled"
  | SourceMissing => lit "SourceMissing"
  | SourceUnreadable => lit "SourceUnreadable"
  | DestinationNotEmptyCategory => lit "DestinationNotEmpty"
  | DestinationUnwritable => lit "DestinationUnwritable"
  | UnsupportedEntry => lit "UnsupportedEntry"
  | ShortWrite => lit "ShortWrite"
  | MetadataFailed => lit "MetadataFailed"
  | CopyIo => lit "Io"
  | CopyUnimplemented => lit "Unimplemented"
  end.

Record CopyError : Type := mkCopyError {
  ce_failed_path : str;
  ce_category : CopyErrorCategory;
  ce_detail : str;
  ce_partial : CopyReport;
}.

(** [CopyError::refused_with]. *)
Definition refused_with (path : str) (category : CopyErrorCategory) (detail : str) (partial : CopyReport) : CopyError :=
  mkCopyError path category detail partial.

(** [CopyError::refused]. *)
Definition copy_refused (path : str) (category : CopyErrorCategory) (detail : str) : CopyError :=
  refused_with path category detail empty_report.

(** [CopyError]'s [Display]. *)
Definition copy_error_text (e : CopyError) : str :=
  lit "copy failed at " ++ ce_failed_path e ++ lit ": " ++ copy_category_debug (ce_category e) ++
  lit ": " ++ ce_detail e.

(** [trait Cancellation]: a poll, which another thread's cancel may change
    from one call to the next. *)
Class Cancellation (W : Type) : Type := { is_cancelled : W -> W * bool }.

(** [trait TreeCopier]. *)
Class TreeCopier (W : Type) : Type := {
  copy_tree : CopyRequest -> W -> W * result CopyReport CopyError;
}.
