(* ===== verification/FileSystem.v ===== *)
(** The part of std::fs the family store and the remover use, on Unix: a tree
    of directories, files and symbolic links, path walks that follow links,
    and the calls the sources make.  Any call may fail: the environment's
    faults are a function of the call's number, so a theorem about every
    fault function covers every pattern of I/O errors.  A location is written
    as in [FamilyPath], the names from an entry up to the root. *)

From S2P Require Export HostPath.
From stdpp Require Export gmap sorting.

#[local] Set Default Proof Using "Type".

(** ** Trees *)

Inductive IoKind : Type :=
| IoNotFound | IoAlreadyExists | IoNotADirectory | IoIsADirectory | IoNotEmpty | IoLoop
| IoUnsupported | IoInvalidInput | IoPermissionDenied | IoWriteZero | IoOther.

#[global] Instance IoKind_eq_dec : EqDecision IoKind.
Proof. solve_decision. Defined.

Record IoError : Type := mkIoError { io_kind : IoKind; io_text : str }.

(** The system's own texts. *)
Definition os_error (k : IoKind) : IoError :=
  mkIoError k (match k with
    | IoNotFound => lit "No such file or directory (os error 2)"
    | IoAlreadyExists => lit "File exists (os error 17)"
    | IoNotADirectory => lit "Not a directory (os error 20)"
    | IoIsADirectory => lit "Is a directory (os error 21)"
    | IoNotEmpty => lit "Directory not empty (os error 39)"
    | IoLoop => lit "Too many levels of symbolic links (os error 40)"
    | IoUnsupported => lit "Operation not supported (os error 95)"
    | IoInvalidInput => lit "Invalid argument (os error 22)"
    | IoPermissionDenied => lit "Permission denied (os error 13)"
    | IoWriteZero => lit "failed to write whole buffer"
    | IoOther => lit "Input/output error (os error 5)"
    end).

Inductive Node : Type :=
| NDir
| NFile (bytes : list N)
| NLink (target : str)
| NSpecial.

#[global] Instance Node_eq_dec : EqDecision Node.
Proof. solve_decision. Defined.

Abbreviation loc := (list str).
Abbreviation Tree := (gmap (list (list N)) Node).

Implicit Types (t : Tree) (l : loc) (p : str).

(** The file system's root is always a directory. *)
Definition node_at t l : option Node := match l with [] => Some NDir | _ => t !! l end.

Lemma node_at_lookup t l : l <> [] -> node_at t l = t !! l.
Proof. by destruct l. Qed.

Definition MAX_LINKS : nat := 40.

(** Resolving components from a directory, following every link. *)
Fixpoint walk (links : nat) (t : Tree) : loc -> list Component -> result loc IoKind :=
  fix go (cur : loc) (todo : list Component) : result loc IoKind :=
    match todo with
    | [] => Ok cur
    | RootDir :: rest => go [] rest
    | CurDir :: rest => go cur rest
    | ParentDir :: rest => go (tail cur) rest
    | Normal n :: rest =>
        match t !! (n :: cur) with
        | None => Err IoNotFound
        | Some NDir => go (n :: cur) rest
        | Some (NLink target) =>
            match links with
            | 0 => Err IoLoop
            | S links => walk links t cur (path_components target ++ rest)
            end
        | Some _ => if bool_decide (rest = []) then Ok (n :: cur) else Err IoNotADirectory
        end
    end.

Definition str_le (a b : str) : Prop := lex_ltb b a = false.

#[global] Instance str_le_dec : RelDecision str_le.
Proof. intros a b. unfold str_le. apply _. Defined.

Section calls.
Context (cwd : loc).

Definition start (p : str) : loc := if is_absolute p then [] else cwd.

(** The location a path names, every link followed. *)
Definition canonical t p : result loc IoKind :=
  if bool_decide (p = []) then Err IoNotFound
  else walk MAX_LINKS t (start p) (path_components p).

(** The location of the entry a path names, a final link not followed; the
    entry itself need not exist. *)
Definition entry t p : result loc IoKind :=
  match last (path_components p) with
  | Some (Normal n) =>
      let? d := walk MAX_LINKS t (start p) (removelast (path_components p)) in
      match node_at t d with
      | Some NDir => Ok (n :: d)
      | _ => Err IoNotADirectory
      end
  | _ => canonical t p
  end.

(** [symlink_metadata]: the node, not followed. *)
Definition lstat t p : result Node IoKind :=
  let? l := entry t p in
  match node_at t l with Some node => Ok node | None => Err IoNotFound end.

Definition stat t p : result Node IoKind :=
  let? l := canonical t p in
  match node_at t l with Some node => Ok node | None => Err IoNotFound end.

Definition read_file t p : result (list N) IoKind :=
  let? node := stat t p in
  match node with
  | NFile bytes => Ok bytes
  | NDir => Err IoIsADirectory
  | _ => Err IoOther
  end.

(** Creating an entry that must not be there. *)
Definition create (node : Node) t p : Tree * result loc IoKind :=
  match entry t p with
  | Err k => (t, Err k)
  | Ok l => match node_at t l with
            | Some _ => (t, Err IoAlreadyExists)
            | None => (<[l := node]> t, Ok l)
            end
  end.

(** Opening a file for writing, made if it is missing; a final link is
    followed. *)
Fixpoint open_create (links : nat) t (cur : loc) (cs : list Component) : Tree * result loc IoKind :=
  match last cs with
  | Some (Normal n) =>
      match walk MAX_LINKS t cur (removelast cs) with
      | Err k => (t, Err k)
      | Ok d =>
          match node_at t d, t !! (n :: d) with
          | Some NDir, None => (<[n :: d := NFile []]> t, Ok (n :: d))
          | Some NDir, Some NDir => (t, Err IoIsADirectory)
          | Some NDir, Some (NLink target) =>
              match links with
              | 0 => (t, Err IoLoop)
              | S links => open_create links t (if is_absolute target then [] else d) (path_components target)
              end
          | Some NDir, Some _ => (t, Ok (n :: d))
          | _, _ => (t, Err IoNotADirectory)
          end
      end
  | _ => (t, Err IoIsADirectory)
  end.

(** [rename] of a file over an entry: a file or a link there is replaced. *)
Definition rename t p (q : str) : Tree * result unit IoKind :=
  match entry t p, entry t q with
  | Ok l, Ok l' =>
      match node_at t l, node_at t l' with
      | None, _ => (t, Err IoNotFound)
      | Some NDir, _ => (t, Err IoOther)
      | Some _, Some NDir => (t, Err IoIsADirectory)
      | Some node, _ => if bool_decide (l = l') then (t, Ok tt)
                        else (<[l' := node]> (delete l t), Ok tt)
      end
  | Err k, _ => (t, Err k)
  | _, Err k => (t, Err k)
  end.

(** [remove_file]: a link is removed, never followed. *)
Definition unlink t p : Tree * result unit IoKind :=
  match entry t p with
  | Err k => (t, Err k)
  | Ok l => match node_at t l with
            | None => (t, Err IoNotFound)
            | Some NDir => (t, Err IoIsADirectory)
            | Some _ => (delete l t, Ok tt)
            end
  end.

(** The entries of a directory, in the order of their names. *)
Definition children t (d : loc) : list str :=
  merge_sort str_le
    (omap (fun kv => match kv.1 with n :: l => if bool_decide (l = d) then Some n else None | [] => None end)
       (map_to_list t)).

Definition read_dir t p : result (list str) IoKind :=
  let? l := canonical t p in
  match node_at t l with
  | Some NDir => Ok (children t l)
  | Some _ => Err IoNotADirectory
  | None => Err IoNotFound
  end.

Definition rmdir t p : Tree * result unit IoKind :=
  match entry t p with
  | Err k => (t, Err k)
  | Ok l => match node_at t l with
            | None => (t, Err IoNotFound)
            | Some NDir => if bool_decide (children t l = [] /\ l <> []) then (delete l t, Ok tt)
                           else (t, Err IoNotEmpty)
            | Some _ => (t, Err IoNotADirectory)
            end
  end.

End calls.

(** ** Calls with faults *)

(** The tree, the number of calls made, the numbers drawn from the id source
    and the files whose advisory lock is held. *)
Record Disk : Type := mkDisk { tree : Tree; clock : nat; drawn : N; locked : list loc }.

(** An I/O error of the environment's making.  Its kind is never one by which
    the system says what is or is not at a path; a write it interrupts has
    written [fault_done] bytes. *)
Inductive FaultKind : Type := FaultUnsupported | FaultDenied | FaultWriteZero | FaultOther.

Record Fault : Type := mkFault { fault_kind : FaultKind; fault_done : nat; fault_text : str }.

Definition fault_error (f : Fault) : IoError :=
  mkIoError (match fault_kind f with
    | FaultUnsupported => IoUnsupported
    | FaultDenied => IoPermissionDenied
    | FaultWriteZero => IoWriteZero
    | FaultOther => IoOther
    end) (fault_text f).

Section faults.
Context (fault : nat -> option Fault).

Definition sys {A} (act : Tree -> Tree * result A IoKind) : proc Disk A IoError := fun d =>
  let next t := mkDisk t (S (clock d)) (drawn d) (locked d) in
  match fault (clock d) with
  | Some f => (next (tree d), Err (fault_error f))
  | None => let '(t, r) := act (tree d) in (next t, map_err os_error r)
  end.

(** [write_all] through a handle on the file at [l]. *)
Definition write_all (l : loc) (contents : list N) : proc Disk unit IoError := fun d =>
  let next bytes := mkDisk (<[l := NFile bytes]> (tree d)) (S (clock d)) (drawn d) (locked d) in
  match fault (clock d) with
  | Some f => (next (take (fault_done f) contents), Err (fault_error f))
  | None => (next contents, Ok tt)
  end.

(** A call that only looks. *)
Definition look {A} (act : Tree -> result A IoKind) : proc Disk A IoError := sys (fun t => (t, act t)).

(** [fs::canonicalize]: the text of the location. *)
Definition real_path (cwd : loc) (p : str) : proc Disk str IoError :=
  let! l := look (fun t => canonical cwd t p) in pret (path_text (rooted l)).

End faults.

(** ** What a change of files leaves of a walk *)

Definition structural (o : option Node) : bool :=
  match o with Some NDir | Some (NLink _) => true | _ => false end.

(** The same directories and links, whatever happened to files. *)
Definition same_structure t t' : Prop :=
  forall l, structural (t !! l) = true \/ structural (t' !! l) = true -> t' !! l = t !! l.

#[global] Instance same_structure_equiv : Equivalence same_structure.
Proof.
  split.
  - by intros t l _.
  - intros t t' H l [Hl|Hl]; symmetry; apply H; tauto.
  - intros t1 t2 t3 H1 H2 l [Hl|Hl].
    + rewrite H2, H1; [done|by left|]. left. by rewrite H1; [|left].
    + rewrite H2 by (by right). apply H1. right. by rewrite <- H2; [|right].
Qed.

Lemma same_structure_insert t l node :
  structural (t !! l) = false -> structural (Some node) = false -> same_structure t (<[l := node]> t).
Proof.
  intros H1 H2 l'. destruct (decide (l' = l)) as [->|Hne].
  - rewrite lookup_insert_eq. intros [?|?]; congruence.
  - by rewrite lookup_insert_ne.
Qed.

Lemma same_structure_delete t l : structural (t !! l) = false -> same_structure t (delete l t).
Proof.
  intros H1 l'. destruct (decide (l' = l)) as [->|Hne].
  - rewrite lookup_delete_eq. intros [?|?]; [congruence|done].
  - by rewrite lookup_delete_ne.
Qed.

Lemma walk_frame links t t' cur todo d :
  same_structure t t' -> walk links t cur todo = Ok d -> node_at t' d = node_at t d ->
  walk links t' cur todo = Ok d.
Proof.
  intros HS. revert cur todo. induction links as [links IH] using lt_wf_ind. intros cur todo.
  revert cur. induction todo as [|c todo IHt]; intros cur Hw Hn; [by destruct links|].
  destruct c as [| | |n]; try (destruct links; by apply IHt).
  destruct (t !! (n :: cur)) as [node|] eqn:En.
  2: { destruct links; cbn [walk] in Hw; by rewrite En in Hw. }
  destruct (structural (t !! (n :: cur))) eqn:Es.
  - pose proof (HS (n :: cur) (or_introl Es)) as E'. rewrite En in E'.
    destruct links as [|links]; cbn [walk] in Hw |- *; rewrite E'; rewrite En in Hw;
      destruct node; try done; try (by apply IHt); apply (IH links); (lia || done).
  - rewrite En in Es. assert (Hr : todo = [] /\ d = n :: cur).
    { destruct links; cbn [walk] in Hw; rewrite En in Hw; destruct node; try done;
        case_bool_decide; by simplify_eq. }
    destruct Hr as [-> ->]. cbn [node_at] in Hn. rewrite En in Hn.
    destruct links; cbn [walk]; rewrite Hn; by destruct node.
Qed.

Lemma node_at_dir t t' d : same_structure t t' -> node_at t d = Some NDir -> node_at t' d = Some NDir.
Proof.
  intros HS. destruct d as [|n d]; [done|]. cbn [node_at]. intros E. rewrite HS; [done|]. left. by rewrite E.
Qed.

Section frames.
Context (cwd : loc).

Definition names_entry (p : str) : Prop := exists n, last (path_components p) = Some (Normal n).

Lemma entry_frame t t' p l :
  same_structure t t' -> names_entry p -> entry cwd t p = Ok l -> entry cwd t' p = Ok l.
Proof.
  intros HS [n Hn]. unfold entry. rewrite Hn. intros (d & Hd & He)%rbind_ok.
  destruct (node_at t d) as [[]|] eqn:Ed; try done. injection He as <-.
  pose proof (node_at_dir _ _ _ HS Ed) as Ed'.
  rewrite (walk_frame _ t t' _ _ d HS Hd) by congruence. cbn [rbind]. by rewrite Ed'.
Qed.

Lemma entry_frame_iff t t' p l :
  same_structure t t' -> names_entry p -> entry cwd t p = Ok l <-> entry cwd t' p = Ok l.
Proof. intros HS Hn. split; apply entry_frame; [done|done|by symmetry|done]. Qed.

Lemma canonical_frame t t' p l :
  same_structure t t' -> node_at t' l = node_at t l -> canonical cwd t p = Ok l -> canonical cwd t' p = Ok l.
Proof.
  intros HS Hn. unfold canonical. destruct (bool_decide _); [done|]. intros Hw. by eapply walk_frame.
Qed.

End frames.

(** A walk that reaches a directory goes on from there. *)
Lemma walk_app links t cur todo d :
  walk links t cur todo = Ok d -> node_at t d = Some NDir ->
  exists links', forall rest, walk links t cur (todo ++ rest) = walk links' t d rest.
Proof.
  intros Hw Hd. revert cur todo Hw. induction links as [links IH] using lt_wf_ind. intros cur todo.
  revert cur. induction todo as [|c todo IHt]; intros cur Hw.
  { exists links. assert (d = cur) as -> by (destruct links; by injection Hw). done. }
  destruct c as [| | |m]; try (destruct links; exact (IHt _ Hw)).
  assert (HF : forall node, t !! (m :: cur) = Some node -> node <> NDir -> todo = [] -> d <> m :: cur).
  { intros node En Hn -> ->. cbn [node_at] in Hd. congruence. }
  destruct (t !! (m :: cur)) as [node'|] eqn:En.
  2: { destruct links; cbn [walk] in Hw; by rewrite En in Hw. }
  destruct node' as [|b|target|].
  - destruct links; cbn [walk] in Hw; rewrite En in Hw; destruct (IHt _ Hw) as [links' E]; exists links'; intros rest;
      cbn [app walk]; rewrite En; apply E.
  - exfalso. destruct links; cbn [walk] in Hw; rewrite En in Hw; case_bool_decide; try done;
      injection Hw as <-; by eapply (HF _ eq_refl).
  - destruct links as [|links]; cbn [walk] in Hw; rewrite En in Hw; [done|].
    destruct (IH links ltac:(lia) _ _ Hw) as [links' E]. exists links'. intros rest.
    cbn [app walk]. rewrite En, app_assoc. apply E.
  - exfalso. destruct links; cbn [walk] in Hw; rewrite En in Hw; case_bool_decide; try done;
      injection Hw as <-; by eapply (HF _ eq_refl).
Qed.

Lemma walk_one links t d n : t !! (n :: d) = None -> walk links t d [Normal n] = Err IoNotFound.
Proof. intros E. destruct links; cbn [walk]; by rewrite E. Qed.

(** A last component that is no link is where the walk ends. *)
Lemma walk_snoc links t cur todo d n node :
  walk links t cur todo = Ok d -> node_at t d = Some NDir -> t !! (n :: d) = Some node ->
  (forall target, node <> NLink target) -> walk links t cur (todo ++ [Normal n]) = Ok (n :: d).
Proof.
  intros Hw Hd Hn Hl. destruct (walk_app _ _ _ _ _ Hw Hd) as [links' ->].
  destruct links'; cbn [walk]; rewrite Hn; destruct node; try done; by destruct (Hl target).
Qed.

(** A walk after an entry became a file, unless it ends there, went the same
    way before. *)
Lemma walk_back links t l b cur todo d :
  walk links (<[l := NFile b]> t) cur todo = Ok d -> d <> l -> walk links t cur todo = Ok d.
Proof.
  intros Hw Hd. revert cur todo Hw. induction links as [links IH] using lt_wf_ind. intros cur todo.
  revert cur. induction todo as [|c todo IHt]; intros cur Hw; [by destruct links|].
  destruct c as [| | |n]; try (destruct links; exact (IHt _ Hw)).
  destruct (decide (l = n :: cur)) as [->|Hne].
  - exfalso. destruct links; cbn [walk] in Hw; rewrite lookup_insert_eq in Hw;
      case_bool_decide; congruence.
  - destruct links as [|links]; cbn [walk] in Hw |- *; rewrite lookup_insert_ne in Hw by done;
      destruct (t !! (n :: cur)) as [[]|]; try done; try (by apply IHt); apply (IH links); (lia || done).
Qed.

(** A path to an entry that is no link names it with and without following. *)
Lemma canonical_entry cwd t p l node :
  names_entry p -> entry cwd t p = Ok l -> node_at t l = Some node ->
  (forall target, node <> NLink target) -> canonical cwd t p = Ok l.
Proof.
  intros [n Hn] He Hl Hnl. unfold entry in He. rewrite Hn in He.
  apply rbind_ok in He as (d & Hd & He). destruct (node_at t d) as [[]|] eqn:Ed; try done. injection He as <-.
  unfold canonical. rewrite bool_decide_false by (by intros ->).
  destruct (snoc_inv (path_components p)) as [E|(cs & c & E)]; [by rewrite E in Hn|].
  rewrite E in Hn, Hd |- *. rewrite last_snoc in Hn. injection Hn as ->. rewrite removelast_snoc in Hd.
  by eapply walk_snoc.
Qed.

(** ** Growing trees *)

Definition same_kind (a b : Node) : Prop :=
  match a, b with NFile _, NFile _ => True | _, _ => a = b end.

(** Every entry stays what it is, a file's bytes apart. *)
Definition grows t t' : Prop := forall l node, t !! l = Some node -> exists node', t' !! l = Some node' /\ same_kind node node'.

Lemma same_kind_refl node : same_kind node node.
Proof. by destruct node. Qed.

Lemma tree_grows_trans t1 t2 t3 : grows t1 t2 -> grows t2 t3 -> grows t1 t3.
Proof.
  intros H1 H2 l a Ha. destruct (H1 l a Ha) as (b & Hb & Kb), (H2 l b Hb) as (c & Hc & Kc).
  exists c. split; [done|]. destruct a, b, c; simplify_eq/=; done.
Qed.

Lemma grows_subseteq t t' : t ⊆ t' -> grows t t'.
Proof. intros H l node Hl. exists node. split; [by eapply lookup_weaken|apply same_kind_refl]. Qed.

Lemma walk_grows links t t' cur todo d :
  grows t t' -> walk links t cur todo = Ok d -> walk links t' cur todo = Ok d.
Proof.
  intros HG. revert cur todo. induction links as [links IH] using lt_wf_ind. intros cur todo.
  revert cur. induction todo as [|c todo IHt]; intros cur Hw; [by destruct links|].
  destruct c as [| | |n]; try (destruct links; by apply IHt).
  destruct (t !! (n :: cur)) as [node|] eqn:En.
  2: { destruct links; cbn [walk] in Hw; by rewrite En in Hw. }
  destruct (HG _ _ En) as (node' & En' & HK).
  destruct links as [|links]; cbn [walk] in Hw |- *; rewrite En'; rewrite En in Hw;
    destruct node, node'; try done; try (by apply IHt); injection HK as <-; apply (IH links); (lia || done).
Qed.

Lemma node_at_grows t t' d : grows t t' -> node_at t d = Some NDir -> node_at t' d = Some NDir.
Proof.
  intros HG. destruct d as [|n d]; [done|]. cbn [node_at]. intros E.
  destruct (HG _ _ E) as (node' & -> & HK). by destruct node'.
Qed.

Lemma entry_grows cwd t t' p l : grows t t' -> names_entry p -> entry cwd t p = Ok l -> entry cwd t' p = Ok l.
Proof.
  intros HG [n Hn]. unfold entry. rewrite Hn. intros (d & Hd & He)%rbind_ok.
  destruct (node_at t d) as [[]|] eqn:Ed; try done. injection He as <-.
  rewrite (walk_grows _ _ _ _ _ _ HG Hd). cbn [rbind]. by rewrite (node_at_grows _ _ _ HG Ed).
Qed.

Lemma canonical_grows cwd t t' p l : grows t t' -> canonical cwd t p = Ok l -> canonical cwd t' p = Ok l.
Proof. intros HG. unfold canonical. destruct (bool_decide _); [done|]. by apply walk_grows. Qed.

(** ** Real directories *)

(** Every ancestor of the location is a directory. *)
Fixpoint solid t (l : loc) : Prop :=
  match l with [] => True | _ :: l' => node_at t l' = Some NDir /\ solid t l' end.

Lemma solid_tail t l : node_at t l = Some NDir -> solid t l -> node_at t (tail l) = Some NDir /\ solid t (tail l).
Proof. destruct l; [done|]. by intros _ [? ?]. Qed.

Lemma solid_grows t t' l : grows t t' -> solid t l -> solid t' l.
Proof. intros HG. induction l as [|n l IH]; [done|]. intros [Hd Hs]. split; [by eapply node_at_grows|by apply IH]. Qed.

Lemma walk_solid links t cur todo d :
  node_at t cur = Some NDir -> solid t cur -> walk links t cur todo = Ok d -> solid t d.
Proof.
  revert cur todo. induction links as [links IH] using lt_wf_ind. intros cur todo.
  revert cur. induction todo as [|c todo IHt]; intros cur Hn Hs Hw.
  { by assert (d = cur) as -> by (destruct links; by injection Hw). }
  destruct c as [| | |n].
  - apply (IHt []); [done..|by destruct links].
  - apply (IHt cur); [done..|by destruct links].
  - destruct (solid_tail _ _ Hn Hs). apply (IHt (tail cur)); [done..|by destruct links].
  - destruct (t !! (n :: cur)) as [node|] eqn:En.
    2: { destruct links; cbn [walk] in Hw; by rewrite En in Hw. }
    destruct links as [|links]; cbn [walk] in Hw; rewrite En in Hw; destruct node; try done;
      try (apply (IHt (n :: cur)); [exact En|by split|exact Hw]);
      try (case_bool_decide; [injection Hw as <-|done]; by split).
    apply (IH links) in Hw; [done|lia|done|done].
Qed.

(** The text of a solid location is walked to it directly. *)
Lemma walk_rooted links t cur l node :
  solid t l -> node_at t l = Some node -> (forall target, node <> NLink target) ->
  walk links t cur (rooted l) = Ok l.
Proof.
  intros Hs Hn Hl. assert (HR : forall cur', walk links t cur' (rooted l) = walk links t [] (Normal <$> reverse l)).
  { intros cur'. by destruct links. }
  rewrite HR. clear HR cur. revert node Hs Hn Hl. induction l as [|n l IH]; intros node Hs Hn Hl; [by destruct links|].
  destruct Hs as [Hd Hs]. rewrite reverse_cons, fmap_app. eapply walk_snoc; [by eapply IH|done|exact Hn|done].
Qed.

(** A walk along a prefix of a path that is walked. *)
Lemma walk_prefix links t cur a b d :
  walk links t cur (a ++ b) = Ok d -> exists d', walk links t cur a = Ok d'.
Proof.
  revert cur a. induction links as [links IH] using lt_wf_ind. intros cur a.
  revert cur. induction a as [|c a IHa]; intros cur Hw; [exists cur; by destruct links|].
  destruct c as [| | |n]; cbn [app] in Hw; try (destruct links; by apply IHa).
  destruct (t !! (n :: cur)) as [node|] eqn:En.
  2: { destruct links; cbn [walk] in Hw; by rewrite En in Hw. }
  destruct links as [|links]; cbn [walk] in Hw |- *; rewrite En in Hw |- *; destruct node; try done;
    try (by apply IHa).
  4: { rewrite app_assoc in Hw. apply (IH links) in Hw; [done|lia]. }
  all: case_bool_decide as E; [|done]; apply app_nil in E as [-> _]; rewrite bool_decide_true by done; eauto.
Qed.

(** Every entry is in a directory. *)
Definition tree_wf t : Prop := forall n l, is_Some (t !! (n :: l)) -> node_at t l = Some NDir.

Lemma tree_wf_entries t : map_Forall (fun l _ => node_at t (tail l) = Some NDir) t -> tree_wf t.
Proof. intros H n l [node Hl]. exact (H _ _ Hl). Qed.

Definition plain_component_names (cs : list Component) : Prop := forall n, Normal n ∈ cs -> plain_name n.

Lemma components_plain p : plain_component_names (path_components p).
Proof.
  destruct (components_shape p) as (pre & rest & -> & Hl & Hi). intros n [Hn|Hn]%elem_of_app.
  - by destruct Hl as [->|[->| ->]]; rewrite ?elem_of_nil, ?list_elem_of_singleton in Hn.
  - rewrite Forall_forall in Hi. exact (Hi _ Hn).
Qed.

Lemma walk_plain links t cur todo d :
  Forall plain_name cur -> plain_component_names todo -> walk links t cur todo = Ok d -> Forall plain_name d.
Proof.
  revert cur todo. induction links as [links IH] using lt_wf_ind. intros cur todo.
  revert cur. induction todo as [|c todo IHt]; intros cur Hc Ht Hw.
  { by assert (d = cur) as -> by (destruct links; by injection Hw). }
  assert (Ht' : plain_component_names todo) by (intros n Hn; apply Ht; by right).
  destruct c as [| | |n].
  - apply (IHt []); [done..|by destruct links].
  - apply (IHt cur); [done..|by destruct links].
  - apply (IHt (tail cur)); [by destruct Hc|done|by destruct links].
  - assert (Hn : plain_name n) by (apply Ht; left). destruct (t !! (n :: cur)) as [node|] eqn:En.
    2: { destruct links; cbn [walk] in Hw; by rewrite En in Hw. }
    destruct links as [|links]; cbn [walk] in Hw; rewrite En in Hw; destruct node; try done;
      try (apply (IHt (n :: cur)); [by constructor|done|exact Hw]);
      try (case_bool_decide; [injection Hw as <-|done]; by constructor).
    apply (IH links) in Hw; [done|lia|done|]. intros m [Hm|Hm]%elem_of_app; [by eapply components_plain|by apply Ht'].
Qed.

(** ** Procedures that only look *)

Section looking.
Context (fault : nat -> option Fault).

Lemma look_spec {A} (act : Tree -> result A IoKind) d d' r :
  look fault act d = (d', r) ->
  tree d' = tree d /\
  ((exists f, r = Err (fault_error f)) \/ r = map_err os_error (act (tree d))).
Proof. unfold look, sys. destruct (fault (clock d)) as [f|]; intros [= <- <-]; cbn [tree]; eauto. Qed.

Lemma look_ok {A} (act : Tree -> result A IoKind) d d' a :
  look fault act d = (d', Ok a) -> act (tree d) = Ok a.
Proof. intros [_ [[f [=]]|E]]%look_spec. symmetry in E. by apply map_err_ok in E. Qed.

Lemma sys_spec {A} (act : Tree -> Tree * result A IoKind) d d' r :
  sys fault act d = (d', r) ->
  (tree d' = tree d /\ exists f, r = Err (fault_error f)) \/
  (tree d' = (act (tree d)).1 /\ r = map_err os_error (act (tree d)).2).
Proof.
  unfold sys. destruct (fault (clock d)) as [f|].
  - intros [= <- <-]. left. eauto.
  - destruct (act (tree d)) as [t r']. intros [= <- <-]. by right.
Qed.

Lemma look_tree {A} (act : Tree -> result A IoKind) d d' r : look fault act d = (d', r) -> tree d' = tree d.
Proof. by intros [? _]%look_spec. Qed.

Lemma unlink_spec cwd p d d' r :
  sys fault (fun t => unlink cwd t p) d = (d', r) ->
  tree d' = tree d /\ is_ok r = false \/
  exists l, entry cwd (tree d) p = Ok l /\ tree d' = delete l (tree d) /\ r = Ok tt /\
    exists node, node_at (tree d) l = Some node /\ node <> NDir.
Proof.
  intros [(E & f & ->)|(E & ->)]%sys_spec; [by left|].
  unfold unlink in *. destruct (entry cwd (tree d) p) as [l|k]; cbn [fst snd map_err] in *; [|by left].
  destruct (node_at (tree d) l) as [[]|] eqn:En; cbn [fst snd map_err] in *; try (by left);
    right; exists l; split_and!; try done; eexists; (split; [done|done]).
Qed.

Lemma rmdir_spec cwd p d d' r :
  sys fault (fun t => rmdir cwd t p) d = (d', r) ->
  tree d' = tree d /\ is_ok r = false \/
  exists l, entry cwd (tree d) p = Ok l /\ tree d' = delete l (tree d) /\ r = Ok tt /\
    children (tree d) l = [] /\ l <> [].
Proof.
  intros [(E & f & ->)|(E & ->)]%sys_spec; [by left|].
  unfold rmdir in *. destruct (entry cwd (tree d) p) as [l|k]; cbn [fst snd map_err] in *; [|by left].
  destruct (node_at (tree d) l) as [[]|] eqn:En; cbn [fst snd map_err] in *; try (by left).
  case_bool_decide as Hc; cbn [fst snd map_err] in *; [|by left]. destruct Hc. right. by exists l.
Qed.

End looking.

(** ** Names and children *)

(** The length of the longest location, which bounds the recursion. *)
Definition depth t : nat := map_fold (fun l _ n => Nat.max (length l) n) 0 t.

Definition names_plain t : Prop := forall l node, t !! l = Some node -> Forall plain_name l.

Lemma names_plain_entries t : map_Forall (fun l _ => forallb plainb l = true) t -> names_plain t.
Proof.
  intros H l node Hl. apply H in Hl. apply Forall_forall. intros n Hn%list_elem_of_In.
  rewrite forallb_forall in Hl. by apply plain_decide, Hl.
Qed.

Lemma depth_bound t l node : t !! l = Some node -> length l <= depth t.
Proof.
  unfold depth. revert l node. refine (map_fold_weak_ind (fun n (t : Tree) => forall l node, t !! l = Some node -> length l <= n) _ 0 _ _ t).
  - intros l node. by rewrite lookup_empty.
  - intros l0 x t' n _ IH l node. destruct (decide (l = l0)) as [->|Hne].
    + lia.
    + rewrite lookup_insert_ne by done. intros Hl%IH. lia.
Qed.

Lemma children_elem t l n : n ∈ children t l <-> is_Some (t !! (n :: l)).
Proof.
  unfold children. rewrite merge_sort_Permutation, list_elem_of_omap. split.
  - intros ([k node] & Hk%elem_of_map_to_list & He). cbn [fst] in He. destruct k as [|m k]; [done|].
    case_bool_decide; [|done]. simplify_eq. eauto.
  - intros [node Hn]. exists (n :: l, node). split; [by apply elem_of_map_to_list|].
    cbn [fst]. by rewrite bool_decide_true.
Qed.

Lemma children_nodup t l : NoDup (children t l).
Proof.
  unfold children. rewrite merge_sort_Permutation. pose proof (NoDup_fst_map_to_list t) as HN. revert HN.
  generalize (map_to_list t) as es. induction es as [|[k node] es IH]; intros HN; [constructor|].
  apply NoDup_cons in HN as [Hk HN]. specialize (IH HN). cbn [omap list_omap fst]. destruct k as [|n k]; [exact IH|].
  case_bool_decide as E; [|exact IH]. subst k. constructor; [|exact IH].
  rewrite list_elem_of_omap. intros ([k' node'] & Hin & He). cbn [fst] in He. destruct k' as [|n' k']; [done|].
  case_bool_decide; [|done]. simplify_eq. apply Hk. by apply (list_elem_of_fmap_2 fst) in Hin.
Qed.

Lemma not_dir_leaf t l : tree_wf t -> node_at t l <> Some NDir -> forall m, t !! (m :: l) = None.
Proof. intros Hwf Hn m. destruct (t !! (m :: l)) eqn:E; [|done]. by destruct Hn; apply (Hwf m l (ex_intro _ _ E)). Qed.

Section children.
Context (cwd : loc).

Lemma child_components p n : p <> [] -> plain_name n -> path_components (path_join p n) = path_components p ++ [Normal n].
Proof. intros Hp Hn. destruct (plain_components n Hn) as (Ha & Hd & Hc). by rewrite components_join, Hc. Qed.

Lemma child_names p n : p <> [] -> plain_name n -> names_entry (path_join p n).
Proof. intros Hp Hn. exists n. by rewrite child_components, last_snoc. Qed.

Lemma child_start p n : p <> [] -> plain_name n -> start cwd (path_join p n) = start cwd p.
Proof.
  intros Hp Hn. unfold start, path_join. destruct (plain_components n Hn) as (Ha & _). rewrite Ha.
  destruct p as [|c p]; [done|]. rewrite bool_decide_false by done. by destruct (orb _ _).
Qed.

Lemma canonical_nonempty t p l : canonical cwd t p = Ok l -> p <> [].
Proof. unfold canonical. by case_bool_decide. Qed.

Lemma entry_child t p l n :
  canonical cwd t p = Ok l -> node_at t l = Some NDir -> plain_name n -> entry cwd t (path_join p n) = Ok (n :: l).
Proof.
  intros Hc Hd Hn. pose proof (canonical_nonempty _ _ _ Hc) as Hp. unfold entry.
  rewrite child_components, last_snoc, removelast_snoc, child_start by done.
  unfold canonical in Hc. rewrite bool_decide_false in Hc by done. rewrite Hc. cbn [rbind]. by rewrite Hd.
Qed.

Lemma canonical_child t p l n :
  canonical cwd t p = Ok l -> node_at t l = Some NDir -> plain_name n -> t !! (n :: l) = Some NDir ->
  canonical cwd t (path_join p n) = Ok (n :: l).
Proof.
  intros Hc Hd Hn Hl. pose proof (canonical_nonempty _ _ _ Hc) as Hp.
  eapply canonical_entry; [by apply child_names|by apply entry_child|exact Hl|done].
Qed.

End children.

Lemma entry_sub cwd t t' p l : t' ⊆ t -> entry cwd t' p = Ok l -> entry cwd t p = Ok l.
Proof.
  intros Hsub He. pose proof (grows_subseteq _ _ Hsub) as HG.
  destruct (last (path_components p)) as [[| | |n]|] eqn:E.
  4: { eapply entry_grows; [exact HG|by exists n|exact He]. }
  all: unfold entry in *; rewrite E in *; by eapply canonical_grows.
Qed.

Lemma entry_dir_canonical cwd t p l : entry cwd t p = Ok l -> node_at t l = Some NDir -> canonical cwd t p = Ok l.
Proof.
  intros He Hd. destruct (last (path_components p)) as [[| | |n]|] eqn:E.
  4: { eapply canonical_entry; [by exists n|exact He|exact Hd|done]. }
  all: unfold entry in He; by rewrite E in He.
Qed.

(** ** Siblings name entries of one directory *)

Lemma entry_sibling cwd t p q n m l :
  last (path_components p) = Some (Normal n) -> path_components q = removelast (path_components p) ++ [Normal m] ->
  entry cwd t q = Ok l -> exists d, l = m :: d /\ entry cwd t p = Ok (n :: d) /\ node_at t d = Some NDir.
Proof.
  intros Hn Hq. unfold entry. rewrite Hn, Hq, last_snoc, removelast_snoc.
  assert (ES : start cwd q = start cwd p).
  { unfold start. rewrite !absolute_components, Hq. destruct (snoc_inv (path_components p)) as [E|(cs & c & E)].
    - by rewrite E in Hn.
    - rewrite E in Hn |- *. rewrite last_snoc in Hn. injection Hn as ->. rewrite removelast_snoc. by destruct cs. }
  rewrite ES. intros (d & Hw & Hd)%rbind_ok. rewrite Hw. cbn [rbind].
  destruct (node_at t d) as [[]|] eqn:En; try done. injection Hd as <-. exists d. by rewrite En.
Qed.

(** ** Creating an entry *)

Lemma create_spec fault cwd node p d d' r :
  sys fault (fun t => create cwd node t p) d = (d', r) ->
  match r with
  | Ok l => tree d' = <[l := node]> (tree d) /\ node_at (tree d) l = None /\ entry cwd (tree d) p = Ok l
  | Err e => tree d' = tree d
  end.
Proof.
  intros [(E & f & ->)|(E & ->)]%sys_spec; [done|].
  unfold create in *. destruct (entry cwd (tree d) p) as [l|k] eqn:Ee; cbn [fst snd map_err] in *; [|done].
  by destruct (node_at (tree d) l) eqn:En; cbn [fst snd map_err] in *.
Qed.

(** ** Procedures that change no file *)

(** [m] leaves the part [f] of the disk as it was. *)
Definition frames {X A E} (f : Disk -> X) (m : proc Disk A E) : Prop := forall d d' r, m d = (d', r) -> f d' = f d.

Abbreviation quiet := (frames tree).

Create HintDb quiet.

Section framing.
Context {X : Type} (f : Disk -> X).

Lemma frames_ret {A E} (a : A) : frames f (E := E) (pret a).
Proof. by intros d d' r [= <- <-]. Qed.
Lemma frames_fail {A E} (e : E) : frames f (A := A) (pfail e).
Proof. by intros d d' r [= <- <-]. Qed.
Lemma frames_lift {A E} (x : result A E) : frames f (plift x).
Proof. by intros d d' r [= <- <-]. Qed.
Lemma frames_bind {A B E} (m : proc Disk A E) (k : A -> proc Disk B E) :
  frames f m -> (forall a, frames f (k a)) -> frames f (pbind m k).
Proof.
  intros Hm Hk d d' r [(e & H1%Hm & _)|(a & d1 & H1%Hm & H2%Hk)]%pbind_inv; congruence.
Qed.
Lemma frames_case {A B E F} (m : proc Disk A E) (k : result A E -> proc Disk B F) :
  frames f m -> (forall r, frames f (k r)) -> frames f (pcase m k).
Proof. intros Hm Hk d d' r (r0 & d1 & H1%Hm & H2%Hk)%pcase_inv. congruence. Qed.
Lemma frames_map_err {A E F} (g : E -> F) (m : proc Disk A E) : frames f m -> frames f (pmap_err g m).
Proof. intros Hm d d' r (r0 & H1%Hm & _)%pmap_err_inv. done. Qed.

End framing.

Lemma quiet_look (fault : nat -> option Fault) {A} (act : Tree -> result A IoKind) : quiet (look fault act).
Proof. intros d d' r. apply look_tree. Qed.

Lemma locks_sys (fault : nat -> option Fault) {A} (act : Tree -> Tree * result A IoKind) : frames locked (sys fault act).
Proof. intros d d' r. unfold sys. destruct (fault (clock d)); [|destruct (act (tree d))]; by intros [= <- <-]. Qed.

Lemma locks_look (fault : nat -> option Fault) {A} (act : Tree -> result A IoKind) : frames locked (look fault act).
Proof. apply locks_sys. Qed.

#[export] Hint Resolve frames_ret frames_fail frames_lift quiet_look locks_sys locks_look : quiet.

(** Decomposes a procedure into its calls and the branches after them. *)
Ltac quiet_tac :=
  repeat match goal with
  | |- frames _ (pbind _ _) => apply frames_bind; [|intros ?]
  | |- frames _ (pcase _ _) => apply frames_case; [|intros ?]
  | |- frames _ (pmap_err _ _) => apply frames_map_err
  | |- frames _ (match ?x with _ => _ end) => destruct x
  | |- frames _ (let _ := _ in _) => cbv zeta
  | |- frames _ _ => solve [auto with quiet]
  end.

(** ** Which errors a procedure reports *)

Definition reports {A E} (P : E -> Prop) (m : proc Disk A E) : Prop := forall d d' e, m d = (d', Err e) -> P e.

Lemma reports_ret {A E} (P : E -> Prop) (a : A) : reports P (pret a).
Proof. by intros d d' e [=]. Qed.
Lemma reports_fail {A E} (P : E -> Prop) (e : E) : P e -> reports (A := A) P (pfail e).
Proof. by intros HP d d' e' [= _ <-]. Qed.
Lemma reports_bind {A B E} (P : E -> Prop) (m : proc Disk A E) (k : A -> proc Disk B E) :
  reports P m -> (forall a, reports P (k a)) -> reports P (pbind m k).
Proof. intros Hm Hk d d' e [(e' & H1%Hm & [= ->])|(a & d1 & _ & H2%Hk)]%pbind_inv; done. Qed.
Lemma reports_map_err {A E F} (P : F -> Prop) (f : E -> F) (m : proc Disk A E) : (forall e, P (f e)) -> reports P (pmap_err f m).
Proof. intros HP d d' e (r & _ & He)%pmap_err_inv. by destruct r; simplify_eq/=. Qed.
Lemma reports_lift {A E F} (P : F -> Prop) (f : E -> F) (x : result A E) : (forall e, P (f e)) -> reports P (plift (map_err f x)).
Proof. intros HP d d' e [= _ He]. by destruct x; simplify_eq/=. Qed.

Ltac reports_tac :=
  repeat match goal with
  | |- reports _ (pbind _ _) => apply reports_bind; [|intros ?]
  | |- reports _ (pmap_err _ _) => by apply reports_map_err
  | |- reports _ (plift (map_err _ _)) => by apply reports_lift
  | |- reports _ (pret _) => apply reports_ret
  | |- reports _ (pfail _) => by apply reports_fail
  | |- reports _ (match ?x with _ => _ end) => destruct x
  end.
