(* ===== verification/FamilyStoreContract.v ===== *)
(** The family store's contract (src/crates/family-store-contract/src/lib.rs):
    its errors and effects, and the locked session as an interface — the
    operations as a class over the state they act on, and what the contract
    says of the index they keep as a second class, against which the clients
    of a session are verified. *)

From S2P Require Export FamilyTransition HostPath.

#[local] Set Default Proof Using "Type".

(** ** Texts of refusals (src/crates/family-model/src/transition.rs) *)

Definition refusal_text (r : Refusal) : str :=
  match r with
  | NameCollision name holder_path (Some owner) =>
      lit "name " ++ quoted (name_str name) ++ lit " already holds " ++ holder_path ++
      lit " (owner " ++ quoted (owner_str owner) ++ lit ")"
  | NameCollision name holder_path None =>
      lit "name " ++ quoted (name_str name) ++ lit " already holds " ++ holder_path
  | RefPathNotNormalised name path normalised =>
      lit "row " ++ quoted (name_str name) ++ lit ": member path " ++ quoted path ++
      lit " is not normalised (" ++ quoted normalised ++ lit ")"
  | AllocationCollision name holder =>
      if bool_decide (holder = ROOT_NAME) then
        lit "row " ++ quoted (name_str name) ++ lit ": allocation is already held by the root"
      else
        lit "row " ++ quoted (name_str name) ++ lit ": allocation is already held by member " ++ quoted holder
  | PathCollision path holder =>
      lit "path " ++ quoted path ++ lit " is already a family member (" ++ holder ++ lit ")"
  | NestedPath path other =>
      lit "path " ++ quoted path ++ lit " is nested with family member path " ++ quoted other
  | InvalidRow name detail => lit "row " ++ quoted (name_str name) ++ lit ": " ++ detail
  | NotFound name => lit "no family member named " ++ quoted (name_str name)
  | WrongState name expected actual =>
      lit "member " ++ quoted (name_str name) ++ lit " is " ++ state_as_str actual ++
      lit " (expected " ++ state_as_str expected ++ lit ")"
  | AllocationMismatch name expected actual =>
      lit "member " ++ quoted (name_str name) ++ lit " allocation " ++ allocation_str actual ++
      lit " does not match " ++ allocation_str expected
  | NotDisposing name actual =>
      lit "member " ++ quoted (name_str name) ++ lit " is " ++ state_as_str actual ++
      lit " and was not being disposed"
  end.

(** ** Observations, operations, effects, errors *)

Record FamilyLocation : Type := mkFamilyLocation { location_workspace : str }.

Inductive FamilySource : Type := SourceIndex | SourcePointer.

Inductive FamilyObservation : Type :=
| NoFamilyObserved
| FamilyObserved (root : str) (source : FamilySource) (view : FamilyView).

Definition observation_view (o : FamilyObservation) : option FamilyView :=
  match o with NoFamilyObserved => None | FamilyObserved _ _ view => Some view end.

Inductive StoreOperation : Type :=
| ReadIndex | ReadPointer | ReadMarker | Lock | WriteIndex | RemoveIndex
| WritePointer | RemovePointer | WriteMarker | RemoveMarker.

Definition store_operation_debug (o : StoreOperation) : str :=
  match o with
  | ReadIndex => lit "ReadIndex"
  | ReadPointer => lit "ReadPointer"
  | ReadMarker => lit "ReadMarker"
  | Lock => lit "Lock"
  | WriteIndex => lit "WriteIndex"
  | RemoveIndex => lit "RemoveIndex"
  | WritePointer => lit "WritePointer"
  | RemovePointer => lit "RemovePointer"
  | WriteMarker => lit "WriteMarker"
  | RemoveMarker => lit "RemoveMarker"
  end.

Inductive MetadataEffect : Type :=
| IndexWritten
| IndexRemoved
| PointerWritten (workspace : str)
| PointerRemoved (workspace : str)
| MarkerWritten (workspace : str)
| MarkerRemoved (workspace : str).

#[global] Instance MetadataEffect_eq_dec : EqDecision MetadataEffect.
Proof. solve_decision. Defined.

Inductive StoreError : Type :=
| SeBusy (lock_path : str)
| SeLockingUnsupported (detail : str)
| SeMalformed (path detail : str)
| SeOversize (path : str) (bytes limit : N)
| SeConflictingMetadata (workspace : str)
| SePointerTargetInvalid (pointer root detail : str)
| SeNoFamily (workspace : str)
| SeRefused (refusal : Refusal)
| SeIo (operation : StoreOperation) (path detail : str)
| SePartial (operation : StoreOperation) (completed : list MetadataEffect) (path detail : str)
| SePointerStillInstalled (member workspace : str)
| SePathMismatch (member recorded requested : str)
| SeUnimplemented (operation : StoreOperation).

Definition store_error_text (e : StoreError) : str :=
  match e with
  | SeBusy lock_path => lit "family lock " ++ lock_path ++ lit " is held by another operation"
  | SeLockingUnsupported detail => lit "family locking unsupported: " ++ detail
  | SeMalformed path detail => path ++ lit " is malformed: " ++ detail
  | SeOversize path bytes limit =>
      path ++ lit " is " ++ show_N bytes ++ lit " bytes; the limit is " ++ show_N limit
  | SeConflictingMetadata workspace =>
      workspace ++ lit " holds both a family index and a family pointer"
  | SePointerTargetInvalid pointer root detail =>
      pointer ++ lit " points at " ++ root ++ lit " which holds no matching index: " ++ detail
  | SeNoFamily workspace => workspace ++ lit " is in no local family"
  | SeRefused refusal => refusal_text refusal
  | SeIo operation path detail => store_operation_debug operation ++ lit " " ++ path ++ lit ": " ++ detail
  | SePartial operation completed path detail =>
      store_operation_debug operation ++ lit " " ++ path ++ lit " failed after " ++
      show_N (N.of_nat (length completed)) ++ lit " effect(s): " ++ detail
  | SePointerStillInstalled member workspace =>
      lit "member " ++ quoted member ++ lit " still has its clone pointer installed at " ++ workspace ++
      lit "; remove the pointer before removing the row or disbanding the family"
  | SePathMismatch member recorded requested =>
      lit "member " ++ quoted member ++ lit " is recorded at " ++ recorded ++
      lit "; refusing to install its pointer at " ++ requested
  | SeUnimplemented operation => store_operation_debug operation ++ lit " is not implemented"
  end.

Record AppliedChange : Type := mkAppliedChange {
  ac_effects : list MetadataEffect;
  ac_view : option FamilyView;
}.

(** ** Values the constructors allow *)

(** A row and a view whose names, ids and owner tokens passed their parsers,
    as every value of the source's types has. *)
Definition allocation_spelled (a : AllocationId) : Prop := new_allocation_id (allocation_str a) = Ok a.

Record row_spelled (row : MemberRow) : Prop := {
  rs_allocation : allocation_spelled (row_allocation row);
  rs_owner : forall token, row_owner row = Some token -> owner_token_wf token;
}.

Record view_spelled (v : FamilyView) : Prop := {
  vs_family : new_family_id (family_id_str (view_family_id v)) = Ok (view_family_id v);
  vs_root : allocation_spelled (root_allocation (view_root v));
  vs_members : forall name row, bt_get (view_members v) name = Some row -> member_name_wf name /\ row_spelled row;
}.

Definition change_spelled (c : FamilyChange) : Prop :=
  match c with Allocate name row => member_name_wf name /\ row_spelled row | _ => True end.

Lemma step_spelled v c v' : view_spelled v -> change_spelled c -> family_step v c v' -> view_spelled v'.
Proof.
  intros [Hf Hr Hm] Hc Hs.
  assert (HU : forall name o, updates v v' name o ->
    (forall row, o = Some row -> member_name_wf name /\ row_spelled row) -> view_spelled v').
  { intros name o (E1 & E2 & Eg & En) Ho. split; [by rewrite E1|by rewrite E2|].
    intros n row Hg. destruct (decide (n = name)) as [->|Hne]; [apply Ho; congruence|].
    rewrite En in Hg by done. by apply Hm. }
  destruct Hs as [name row ? _ Hu|name row e ? Hg _ Hu|name row ? Hg _ Hu|name row ? Hg _ Hu|name row ? ? _ _ Hu|? E1 E2 E3];
    try (eapply HU; [exact Hu|]; intros row' [= <-]; done).
  - eapply HU; [exact Hu|]. intros row' [= <-]. destruct (Hm _ _ Hg) as [? []]. by split.
  - eapply HU; [exact Hu|]. intros row' [= <-]. destruct (Hm _ _ Hg) as [? []]. by split.
  - eapply HU; [exact Hu|]. intros row' [= <-]. destruct (Hm _ _ Hg) as [? []]. by split.
  - split; [by rewrite E1|by rewrite E2|]. intros n row. by rewrite E3.
Qed.

(** ** The locked session *)

(** The operations of [trait FamilySession] over a state [W], the files the
    session and its caller share. *)
Class FamilySession (W : Type) : Type := {
  session_root : W -> str;
  session_reread : W -> W * result (option FamilyView) StoreError;
  session_found : FamilyId -> AllocationId -> W -> W * result AppliedChange StoreError;
  session_apply : FamilyChange -> W -> W * result AppliedChange StoreError;
  session_install_pointer : MemberName -> str -> W -> W * result AppliedChange StoreError;
  session_remove_pointer : MemberName -> W -> W * result AppliedChange StoreError;
}.

(** What a change the session accepts leaves of the index.  Disbanding a
    family that is already gone is accepted and changes nothing. *)
Definition changed_index (before : option FamilyView) (c : FamilyChange) (after : option FamilyView) : Prop :=
  match before with
  | Some v => exists vc, validate_transition v c = Ok vc /\
      after = match c with Disband => None | _ => Some (vc_next vc) end
  | None => c = Disband /\ after = None
  end.

(** The documented contract of a session, by the index it keeps: the index is
    valid; rereading reports it and changes nothing; an accepted change (of
    values the constructors allow) is one the model validates, and leaves exactly the index the model computes;
    a failed change leaves the index as it was, or as the model computes it
    where the failure came after the write; the pointer operations do not
    touch the index. *)
Class SessionLaws (W : Type) `{FamilySession W} : Type := {
  stored : W -> option FamilyView;
  stored_valid : forall w v, stored w = Some v -> view_wf v;
  reread_reports : forall w w' r, session_reread w = (w', r) ->
    stored w' = stored w /\ session_root w' = session_root w /\
    (forall v, r = Ok v -> v = stored w);
  apply_root : forall c w w' r, session_apply c w = (w', r) -> session_root w' = session_root w;
  apply_accepts : forall c w w' a, change_spelled c -> session_apply c w = (w', Ok a) ->
    changed_index (stored w) c (stored w') /\ ac_view a = stored w';
  apply_fails : forall c w w' e, change_spelled c -> session_apply c w = (w', Err e) ->
    stored w' = stored w \/ changed_index (stored w) c (stored w');
  remove_pointer_index : forall name w w' r, session_remove_pointer name w = (w', r) ->
    stored w' = stored w /\ session_root w' = session_root w;
}.
