(* ===== verification/TreeCopy.v ===== *)
(** Copying a whole tree (src/crates/refcopy/src): admission, the traversal
    over an explicit stack, the copy of one entry through a temporary file,
    and the native attempt on Linux, on the file system of [FileSystem].  Any
    call may fail; a read or a write may move fewer bytes than asked; the
    cancellation may answer anything at any poll; the clone request (an ioctl)
    may answer any errno.  A call that is interrupted is retried by the code
    and stands here for the call that is finally answered.  Permission bits
    are not part of the tree: setting them is a call that may fail. *)

From S2P Require Export CopyContract FileSystem.

#[local] Set Default Proof Using "Type".

(** ** Reading a failed clone (native/classify.rs) *)

Module Errno.
(** The errno values of Linux the tables name. *)
Definition PERM : N := 1.
Definition NOENT : N := 2.
Definition ACCESS : N := 13.
Definition EXIST : N := 17.
Definition XDEV : N := 18.
Definition NOTDIR : N := 20.
Definition INVAL : N := 22.
Definition NOTTY : N := 25.
Definition NOSPC : N := 28.
Definition ROFS : N := 30.
Definition NOTSUP : N := 95.
Definition OPNOTSUPP : N := 95.
Definition DQUOT : N := 122.
End Errno.

Inductive NativeClass : Type :=
| ClassUnsupported (reason : str)
| ClassFailed (category : CopyErrorCategory).

Definition destination_errno (errno : N) : bool :=
  (errno =? Errno.ACCESS)%N || (errno =? Errno.PERM)%N || (errno =? Errno.ROFS)%N || (errno =? Errno.EXIST)%N ||
  (errno =? Errno.NOENT)%N || (errno =? Errno.NOTDIR)%N || (errno =? Errno.NOSPC)%N || (errno =? Errno.DQUOT)%N.

Definition ficlone (errno : N) : NativeClass :=
  if (errno =? Errno.NOTSUP)%N || (errno =? Errno.OPNOTSUPP)%N then
    ClassUnsupported (lit "the filesystem does not support reflinking (EOPNOTSUPP)")
  else if (errno =? Errno.XDEV)%N then
    ClassUnsupported (lit "the files are not on the same mounted filesystem (EXDEV)")
  else if (errno =? Errno.INVAL)%N then
    ClassUnsupported (lit "the filesystem does not support reflinking these files (EINVAL)")
  else if (errno =? Errno.NOTTY)%N then
    ClassUnsupported (lit "the filesystem does not implement the FICLONE ioctl (ENOTTY)")
  else if destination_errno errno then ClassFailed DestinationUnwritable
  else ClassFailed CopyIo.

(** ** The native plan (lib.rs, native/attempt.rs) *)

Inductive NativeCapability : Type := CapabilityUnknown | CapabilityAvailable | CapabilityUnavailable.

Inductive NativeMechanism : Type := MechanismNone | AppleClonefile | LinuxFiclone | WindowsBlockClone.

#[global] Instance NativeMechanism_eq_dec : EqDecision NativeMechanism.
Proof. solve_decision. Defined.

(** [native::MECHANISM] of the Linux build. *)
Definition MECHANISM : NativeMechanism := LinuxFiclone.

Inductive Outcome : Type :=
| Cloned
| OutcomeUnsupported (detail : str)
| OutcomeFailed (category : CopyErrorCategory) (detail : str).

(** [Attempt], its test seams left out. *)
Inductive Attempt : Type := Skip | Native.

#[global] Instance Attempt_eq_dec : EqDecision Attempt.
Proof. solve_decision. Defined.

Definition is_attempted (a : Attempt) : bool := bool_decide (a <> Skip).

Record CopyPlan : Type := mkCopyPlan { cp_attempt : Attempt; cp_unavailable : option str }.

Definition NO_MECHANISM : str :=
  lit "no platform copy-on-write mechanism is compiled into this build for this target; every regular file was copied by ordinary read/write".
Definition DIFFERENT_DEVICES : str :=
  lit "the source and the destination are on different devices, which no copy-on-write mechanism can clone across; every regular file was copied by ordinary read/write".

(** [classify::describe], given the error's text. *)
Definition describe (class : NativeClass) (error call : str) : Outcome :=
  match class with
  | ClassUnsupported reason =>
      OutcomeUnsupported (call ++ lit " cannot clone this source/destination pair: " ++ reason ++ lit ": " ++ error)
  | ClassFailed category => OutcomeFailed category (call ++ lit " failed: " ++ error)
  end.

(** ** The host *)

(** What the calls meet, by the number of the call: the faults, how many
    bytes a read or a write moves, whether the host has cancelled, what the
    clone request answers.  The rest is fixed: the working directory, the
    device of a location, the process id, and texts of the libraries' making
    (an errno's, a path's [Debug] form, the kind of a special file). *)
Record Host : Type := mkHost {
  h_cwd : loc;
  h_fault : nat -> option Fault;
  h_grain : nat -> N;
  h_cancel : nat -> bool;
  h_reflink : nat -> option N;
  h_device : loc -> N;
  h_pid : N;
  h_errno_text : N -> str;
  h_path_debug : str -> str;
  h_special : loc -> str;
}.

(** [CopyRun]'s own state beside the disk. *)
Record CopyState : Type := mkCopyState {
  cs_disk : Disk;
  cs_report : CopyReport;
  cs_temporaries : N;
  cs_noted : bool;
}.

#[global] Instance CopyState_set : Settable CopyState := fun s =>
  mkCopyState (cs_disk s) (cs_report s) (cs_temporaries s) (cs_noted s).

#[global] Instance CopyReport_set : Settable CopyReport := fun r =>
  mkCopyReport (native_files r) (ordinary_files r) (directories r) (symlinks r) (logical_bytes r) (warnings r).

(** [Failure]: the entry's relative path, the category and the detail. *)
Abbreviation Failure := (str * CopyErrorCategory * str)%type.

(** A procedure on the disk, as part of a run. *)
Definition on_disk {A E} (m : proc Disk A E) : proc CopyState A E := fun s =>
  let '(d, r) := m (cs_disk s) in (s <| cs_disk := d |>, r).

Definition update (f : CopyReport -> CopyReport) {E} : proc CopyState unit E := fun s =>
  (s <| cs_report := f (cs_report s) |>, Ok tt).

(** [destination_category]. *)
Definition destination_category (e : IoError) : CopyErrorCategory :=
  if bool_decide (io_kind e = IoWriteZero) then ShortWrite else DestinationUnwritable.

(** The size of the one buffer. *)
Definition BUFFER_BYTES : N := 64 * 1024.

(** One open directory of the traversal; whether it carries permissions to
    apply at its end. *)
Record Frame : Type := mkFrame { fr_relative : str; fr_names : list str; fr_permissions : bool }.

(** The iterations a traversal of the directory at [l] can take: one to close
    it, one for each entry, and those of its directories. *)
Fixpoint traversal_cost (depth : nat) (t : Tree) (l : loc) : nat :=
  match depth with
  | 0 => 1
  | S depth => S (sum_list_with (fun n =>
      S (match t !! (n :: l) with Some NDir => traversal_cost depth t (n :: l) | _ => 0 end)) (children t l))
  end.

Section copier.
Context (h : Host).

Abbreviation cwd := (h_cwd h).
Abbreviation fault := (h_fault h).

(** A poll of the cancellation: it cannot fail. *)
Definition poll {E} : proc Disk bool E := fun d =>
  (mkDisk (tree d) (S (clock d)) (drawn d) (locked d), Ok (h_cancel h (clock d))).

(** [File::open] for reading: the file's location, links followed. *)
Definition open_read (path : str) : proc Disk loc IoError :=
  look fault (fun t => let? l := canonical cwd t path in
    match node_at t l with Some _ => Ok l | None => Err IoNotFound end).

(** [File::metadata]: the length, which is all the code uses beside the
    permissions. *)
Definition handle_len (l : loc) : proc Disk N IoError :=
  look fault (fun t => match node_at t l with
    | Some (NFile bytes) => Ok (N.of_nat (length bytes))
    | Some _ => Ok 0%N
    | None => Err IoNotFound
    end).

(** [set_permissions], by path and on a handle. *)
Definition set_permissions (path : str) : proc Disk unit IoError :=
  look fault (fun t => let? _ := stat cwd t path in Ok tt).

Definition preserve_permissions_on_handle : proc Disk unit IoError := look fault (fun _ => Ok tt).

(** ** Streaming bytes *)

(** [read_chunk]: what is at the offset, at most the buffer, at least a byte
    before the end. *)
Definition read_chunk (l : loc) (offset : N) : proc Disk (list N) IoError := fun d =>
  look fault (fun t => match node_at t l with
    | Some (NFile bytes) =>
        Ok (take (N.to_nat (N.min BUFFER_BYTES (N.max 1 (h_grain h (clock d))))) (drop (N.to_nat offset) bytes))
    | Some NDir => Err IoIsADirectory
    | _ => Ok []
    end) d.

(** One [write] on the handle of the file at [l]: the bytes it took. *)
Definition write_some (l : loc) (bytes : list N) : proc Disk N IoError := fun d =>
  let n := N.min (h_grain h (clock d)) (N.of_nat (length bytes)) in
  let written t := match t !! l with
    | Some (NFile old) => <[l := NFile (old ++ take (N.to_nat n) bytes)]> t
    | _ => t
    end in
  sys fault (fun t => (written t, Ok n)) d.

(** [write_chunk]; [None] where the fuel ran out. *)
Fixpoint write_chunk (fuel : nat) (l : loc) (whole : nat) (remaining : list N)
    : proc Disk unit (option (CopyErrorCategory * str)) :=
  match fuel with
  | 0 => pfail None
  | S fuel =>
      if bool_decide (length remaining = 0) then pret tt
      else
        let! written := pmap_err (fun e =>
          Some (if bool_decide (io_kind e = IoWriteZero) then ShortWrite else destination_category e, io_text e))
          (write_some l remaining) in
        if (written =? 0)%N then
          pfail (Some (ShortWrite, lit "write made no progress with " ++ show_N (N.of_nat (length remaining)) ++
            lit " of " ++ show_N (N.of_nat whole) ++ lit " bytes remaining"))
        else write_chunk fuel l whole (drop (N.to_nat (N.min written (N.of_nat (length remaining)))) remaining)
  end.

(** [stream_bytes]; [None] where the fuel ran out. *)
Fixpoint stream_bytes (fuel : nat) (input output : loc) (total chunks : N)
    : proc Disk N (option (CopyErrorCategory * str)) :=
  match fuel with
  | 0 => pfail None
  | S fuel =>
      let! chunk := pmap_err (fun e => Some (SourceUnreadable, io_text e)) (read_chunk input total) in
      if bool_decide (length chunk = 0) then
        do! pmap_err (fun e => Some (destination_category e, lit "flush failed: " ++ io_text e))
              (look fault (fun _ => Ok tt)) in
        pret total
      else
        let! cancelled := if (0 <? chunks)%N then poll else pret false in
        if (cancelled : bool) then
          pfail (Some (CopyCancelled, lit "cancelled after " ++ show_N total ++ lit " bytes of this entry"))
        else
          do! write_chunk (S (length chunk)) output (length chunk) chunk in
          stream_bytes fuel input output (total + N.of_nat (length chunk)) (chunks + 1)
  end.

(** ** The native attempt (native/attempt.rs, native/linux.rs) *)

(** [linux::clone_regular_file]: a successful request makes the destination
    hold the source's bytes. *)
Definition clone_regular_file_linux {E} (source : loc) (temporary : str) : proc Disk Outcome E :=
  pcase (sys fault (fun t => create cwd (NFile []) t temporary)) (fun created =>
    match created with
    | Err error => pret (OutcomeFailed DestinationUnwritable (lit "the temporary could not be created: " ++ io_text error))
    | Ok destination => fun d =>
        let next t := mkDisk t (S (clock d)) (drawn d) (locked d) in
        match h_reflink h (clock d) with
        | None => (next (match node_at (tree d) source with
                         | Some (NFile bytes) => <[destination := NFile bytes]> (tree d)
                         | _ => tree d end), Ok Cloned)
        | Some errno =>
            let outcome := describe (ficlone errno) (h_errno_text h errno) (lit "FICLONE") in
            pcase (sys fault (fun t => unlink cwd t temporary)) (fun _ => pret outcome) (next (tree d))
        end
    end).

(** [Attempt::clone_regular_file]. *)
Definition clone_regular_file {E} (attempt : Attempt) (source : loc) (temporary : str) : proc Disk Outcome E :=
  match attempt with
  | Skip => pret (OutcomeUnsupported (lit "no native attempt was made"))
  | Native => clone_regular_file_linux source temporary
  end.

(** [device_of]. *)
Definition device_of {E} (path : str) : proc Disk (option N) E :=
  pcase (look fault (fun t => let? l := canonical cwd t path in
           match node_at t l with Some _ => Ok l | None => Err IoNotFound end))
    (fun r => pret (match r with Ok l => Some (h_device h l) | Err _ => None end)).

(** [device_of_nearest_existing]: the first of the path's ancestors, itself
    first, that answers. *)
Fixpoint device_of_nearest_existing {E} (fuel : nat) (path : str) : proc Disk (option N) E :=
  let! device := device_of path in
  match device, fuel, path_parent path with
  | Some device, _, _ => pret (Some device)
  | None, S fuel, Some parent => device_of_nearest_existing fuel parent
  | None, _, _ => pret None
  end.

Definition probe {E} (source destination : str) : proc Disk NativeCapability E :=
  if bool_decide (MECHANISM = MechanismNone) then pret CapabilityUnavailable
  else
    let! source_device := device_of source in
    let! destination_device := device_of_nearest_existing (length (path_components destination)) destination in
    pret (match source_device, destination_device with
          | Some a, Some b => if (a =? b)%N then CapabilityUnknown else CapabilityUnavailable
          | _, _ => CapabilityUnknown
          end).

(** [Plan::for_request]. *)
Definition for_request {E} (request : CopyRequest) : proc Disk CopyPlan E :=
  if bool_decide (cq_mode request = OrdinaryOnly) then pret (mkCopyPlan Skip None)
  else if bool_decide (MECHANISM = MechanismNone) then pret (mkCopyPlan Skip (Some NO_MECHANISM))
  else
    let! capability := probe (cq_source request) (cq_destination request) in
    pret (match capability with
          | CapabilityUnavailable => mkCopyPlan Skip (Some DIFFERENT_DEVICES)
          | CapabilityUnknown | CapabilityAvailable => mkCopyPlan Native None
          end).

(** ** Admission (ordinary.rs) *)

Abbreviation refusal path category detail := (copy_refused path category detail).

Definition opening_warnings (plan : CopyPlan) : list CopyWarning :=
  match cp_unavailable plan with
  | Some reason => [mkCopyWarning [] NativeUnavailable reason]
  | None => []
  end ++
  [mkCopyWarning [] AncillaryMetadataUnsupported
    (lit "this copier does not itself copy ancillary metadata (ACLs, extended attributes, alternate data streams, timestamps); contents, entry type, symlink target and permission bits it does copy, and a natively cloned file may carry more of the source's metadata than an ordinarily copied one, so ancillary metadata is not guaranteed either way")].

Definition admit_source (request : CopyRequest) : proc Disk unit CopyError :=
  let source := cq_source request in
  let! node := pmap_err (fun e => refusal source
      (if bool_decide (io_kind e = IoNotFound) then SourceMissing else SourceUnreadable) (io_text e))
    (look fault (fun t => lstat cwd t source)) in
  match node with
  | NLink _ => pfail (refusal source SourceUnreadable (lit "source is a symbolic link; the copier does not follow it"))
  | NDir => pret tt
  | _ => pfail (refusal source SourceUnreadable (lit "source is not a directory"))
  end.

(** [resolve_new_path]; the fuel is the number of components, one for each
    ancestor. *)
Fixpoint resolve_new_path {E} (fuel : nat) (candidate : str) (trailing : list str) : proc Disk (option str) E :=
  pcase (real_path fault cwd candidate) (fun r =>
    match r with
    | Ok resolved => pret (Some (foldl path_join resolved trailing))
    | Err _ =>
        match fuel, path_file_name candidate, path_parent candidate with
        | S fuel, Some name, Some parent =>
            resolve_new_path fuel (if bool_decide (parent = []) then dot else parent) (name :: trailing)
        | _, _, _ => pret None
        end
    end).

Definition refuse_overlap (request : CopyRequest) : proc Disk unit CopyError :=
  let destination_path := cq_destination request in
  let! source := pmap_err (fun e => refusal (cq_source request) SourceUnreadable
      (lit "source path could not be resolved: " ++ io_text e)) (real_path fault cwd (cq_source request)) in
  let! resolved := resolve_new_path (S (length (path_components destination_path))) destination_path [] in
  match resolved with
  | None => pret tt
  | Some destination =>
      if path_starts_with destination source then
        pfail (refusal destination_path DestinationUnwritable (lit "destination is inside the source tree"))
      else
        let! exists_ := pcase (look fault (fun t => stat cwd t destination_path)) (fun r => pret (is_ok r)) in
        if exists_ && path_starts_with source destination then
          pfail (refusal destination_path DestinationUnwritable (lit "source is inside the destination tree"))
        else pret tt
  end.

(** [admit_destination]: whether this call made the directory. *)
Definition admit_destination (request : CopyRequest) : proc Disk bool CopyError :=
  let destination := cq_destination request in
  do! refuse_overlap request in
  pcase (look fault (fun t => lstat cwd t destination)) (fun r =>
    match r with
    | Ok (NLink _) => pfail (refusal destination DestinationNotEmptyCategory
        (lit "destination is a symbolic link; the copier does not follow it"))
    | Ok NDir =>
        let! entries := pmap_err (fun e => refusal destination DestinationUnwritable
            (lit "destination directory could not be enumerated: " ++ io_text e))
          (look fault (fun t => read_dir cwd t destination)) in
        match entries with
        | [] => pret false
        | _ => pfail (refusal destination DestinationNotEmptyCategory (lit "destination exists and is not empty"))
        end
    | Ok _ => pfail (refusal destination DestinationNotEmptyCategory (lit "destination exists and is not a directory"))
    | Err e =>
        if bool_decide (io_kind e = IoNotFound) then
          do! pmap_err (fun e => refusal destination DestinationUnwritable (io_text e))
                (sys fault (fun t => create cwd NDir t destination)) in
          pret true
        else pfail (refusal destination DestinationUnwritable
               (lit "destination could not be examined: " ++ io_text e))
    end).

(** ** One entry *)

Section run.
Context (request : CopyRequest) (plan : CopyPlan).

Abbreviation run_proc A := (proc CopyState A (option Failure)).

(** A disk call whose error stops the run at [relative]. *)
Definition at_entry {A} (relative : str) (category : IoError -> CopyErrorCategory) (text : IoError -> str)
    (m : proc Disk A IoError) : run_proc A :=
  on_disk (pmap_err (fun e => Some (relative, category e, text e)) m).

Definition unreadable (_ : IoError) : CopyErrorCategory := SourceUnreadable.
Definition metadata_failed (_ : IoError) : CopyErrorCategory := MetadataFailed.

(** [CopyRun::temporary_path]. *)
Definition temporary_path (destination : str) : run_proc str := fun s =>
  let n := (cs_temporaries s + 1)%N in
  let name := lit ".gwz-refcopy." ++ show_N (h_pid h) ++ lit "." ++ show_N n ++ lit ".tmp" in
  (s <| cs_temporaries := n |>, Ok (match path_parent destination with
     | Some parent => path_join parent name
     | None => name
     end)).

(** [CopyRun::note_native_fallback]. *)
Definition note_native_fallback (relative detail : str) : run_proc unit := fun s =>
  if cs_noted s then (s, Ok tt)
  else
    let warning := mkCopyWarning relative NativeUnsupportedFellBack
      (detail ++ lit "; this entry and any later one the mechanism rejects were copied by ordinary read/write and are counted in ordinary_files") in
    (s <| cs_noted := true |> <| cs_report := (cs_report s) <| warnings := warnings (cs_report s) ++ [warning] |> |>, Ok tt).

(** A removal whose outcome is not looked at. *)
Definition discard (path : str) : run_proc unit :=
  on_disk (pcase (sys fault (fun t => unlink cwd t path)) (fun _ => pret tt)).

Definition rename_into_place (relative temporary destination : str) : run_proc unit :=
  pcase (on_disk (sys fault (fun t => rename cwd t temporary destination))) (fun r =>
    match r with
    | Ok _ => pret tt
    | Err e => do! discard temporary in pfail (Some (relative, destination_category e, io_text e))
    end).

(** [CopyRun::finish_clone]; on Unix nothing is set after the rename. *)
Definition finish_clone (relative : str) (len : N) (temporary destination : str) : run_proc unit :=
  do! pcase (on_disk (set_permissions temporary)) (fun r =>
    match r with
    | Ok _ => pret tt
    | Err e =>
        do! discard temporary in
        pfail (Some (relative, MetadataFailed, lit "permissions could not be applied: " ++ io_text e))
    end) in
  do! rename_into_place relative temporary destination in
  update (fun r => r <| native_files := (native_files r + 1)%N |> <| logical_bytes := (logical_bytes r + len)%N |>).

(** The ordinary half of [copy_file], into a temporary that is not there. *)
Definition copy_ordinary (relative : str) (input : loc) (len : N) (temporary destination : str) : run_proc unit :=
  let! output := at_entry relative destination_category io_text (sys fault (fun t => create cwd (NFile []) t temporary)) in
  let! bytes := pcase (on_disk (
      let! bytes := stream_bytes (S (S (N.to_nat len))) input output 0 0 in
      do! pmap_err (fun e => Some (MetadataFailed, lit "permissions could not be applied: " ++ io_text e))
            preserve_permissions_on_handle in
      pret bytes)) (fun outcome =>
    match outcome with
    | Ok bytes => pret bytes
    | Err None => pfail None
    | Err (Some (category, detail)) =>
        let! detail := on_disk (pcase (sys fault (fun t => unlink cwd t temporary)) (fun r =>
          pret (match r with
                | Ok _ => detail
                | Err e => detail ++ lit " (incomplete " ++ h_path_debug h temporary ++ lit " remains: " ++ io_text e ++ lit ")"
                end))) in
        pfail (Some (relative, category, detail))
    end) in
  do! rename_into_place relative temporary destination in
  update (fun r => r <| ordinary_files := (ordinary_files r + 1)%N |> <| logical_bytes := (logical_bytes r + bytes)%N |>).

(** [CopyRun::copy_file]. *)
Definition copy_file (relative source destination : str) : run_proc unit :=
  let! input := at_entry relative unreadable io_text (open_read source) in
  let! len := at_entry relative unreadable io_text (handle_len input) in
  let! temporary := temporary_path destination in
  if is_attempted (cp_attempt plan) then
    let! outcome := on_disk (clone_regular_file (cp_attempt plan) input temporary) in
    match outcome with
    | Cloned => finish_clone relative len temporary destination
    | OutcomeUnsupported detail =>
        do! note_native_fallback relative detail in copy_ordinary relative input len temporary destination
    | OutcomeFailed category detail => pfail (Some (relative, category, detail))
    end
  else copy_ordinary relative input len temporary destination.

(** [CopyRun::copy_symlink]. *)
Definition copy_symlink (relative source destination : str) : run_proc unit :=
  let! target := at_entry relative unreadable io_text (look fault (fun t =>
    let? node := lstat cwd t source in match node with NLink target => Ok target | _ => Err IoInvalidInput end)) in
  do! at_entry relative
        (fun e => if bool_decide (io_kind e = IoPermissionDenied) then DestinationUnwritable else MetadataFailed) io_text
        (sys fault (fun t => create cwd (NLink target) t destination)) in
  update (fun r => r <| symlinks := (symlinks r + 1)%N |>).

(** [CopyRun::open_frame]. *)
Definition open_frame (relative : str) (permissions : bool) : run_proc Frame :=
  let! names := at_entry relative unreadable io_text
    (look fault (fun t => read_dir cwd t (path_join (cq_source request) relative))) in
  pret (mkFrame relative (merge_sort str_le names) permissions).

(** [CopyRun::finish_directory]. *)
Definition finish_directory (frame : Frame) : run_proc unit :=
  if fr_permissions frame then
    at_entry (fr_relative frame) metadata_failed
      (fun e => lit "directory permissions could not be applied: " ++ io_text e)
      (set_permissions (path_join (cq_destination request) (fr_relative frame)))
  else pret tt.

(** [CopyRun::copy_entry]: the frame to descend into, for a directory. *)
Definition copy_entry (relative : str) : run_proc (option Frame) :=
  let source := path_join (cq_source request) relative in
  let destination := path_join (cq_destination request) relative in
  let! node := at_entry relative unreadable io_text (look fault (fun t => lstat cwd t source)) in
  match node with
  | NLink _ => do! copy_symlink relative source destination in pret None
  | NDir =>
      do! at_entry relative destination_category io_text (sys fault (fun t => create cwd NDir t destination)) in
      do! update (fun r => r <| directories := (directories r + 1)%N |>) in
      do! at_entry relative metadata_failed
            (fun e => lit "directory permissions could not be applied: " ++ io_text e) (set_permissions destination) in
      let! frame := open_frame relative true in
      pret (Some frame)
  | NFile _ => do! copy_file relative source destination in pret None
  | NSpecial => fun s =>
      let kind := match entry cwd (tree (cs_disk s)) source with Ok l => h_special h l | Err _ => [] end in
      pfail (Some (relative, UnsupportedEntry, lit "unsupported entry type (" ++ kind ++ lit ")")) s
  end.

(** ** The traversal *)

(** The loop of [CopyRun::walk] over its stack, the top first; [None] where
    the fuel ran out. *)
Fixpoint walk_frames (fuel : nat) (frames : list Frame) : run_proc unit :=
  match fuel with
  | 0 => pfail None
  | S fuel =>
      match frames with
      | [] => pret tt
      | frame :: rest =>
          match fr_names frame with
          | [] => do! finish_directory frame in walk_frames fuel rest
          | name :: names =>
              let frames := mkFrame (fr_relative frame) names (fr_permissions frame) :: rest in
              let relative := path_join (fr_relative frame) name in
              let! cancelled := on_disk poll in
              if (cancelled : bool) then pfail (Some (relative, CopyCancelled, lit "cancelled before entry"))
              else if is_excluded request relative then walk_frames fuel frames
              else
                let! opened := copy_entry relative in
                walk_frames fuel (match opened with Some frame => frame :: frames | None => frames end)
          end
      end
  end.

(** [CopyRun::walk]. *)
Definition walk_tree (fuel : nat) (root_permissions : bool) : run_proc unit :=
  let! frame := open_frame [] root_permissions in walk_frames fuel [frame].

End run.

(** [copy_tree] of ordinary.rs, for a plan. *)
Definition copy_tree_with (request : CopyRequest) (plan : CopyPlan) : proc Disk CopyReport (option CopyError) := fun d =>
  let fuel := match canonical cwd (tree d) (cq_source request) with
              | Ok l => S (traversal_cost (S (depth (tree d))) (tree d) l)
              | Err _ => 0
              end in
  (do! pmap_err Some (admit_source request) in
   let! created_root := pmap_err Some (admit_destination request) in
   do! (if (created_root : bool) then
          pmap_err (fun e => Some (refusal (cq_destination request) MetadataFailed
            (lit "destination permissions could not be applied: " ++ io_text e)))
            (set_permissions (cq_destination request))
        else pret tt) in
   fun d =>
     let '(s, r) := walk_tree request plan fuel created_root
       (mkCopyState d (empty_report <| warnings := opening_warnings plan |>) 0 false) in
     (cs_disk s, match r with
       | Ok _ => Ok (cs_report s)
       | Err None => Err None
       | Err (Some (failed_path, category, detail)) =>
           Err (Some (refused_with failed_path category detail (cs_report s)))
       end)) d.

(** [SystemTreeCopier::copy_tree]. *)
Definition copy_tree_system (request : CopyRequest) : proc Disk CopyReport (option CopyError) :=
  let! plan := for_request request in copy_tree_with request plan.

End copier.
