(* ===== verification/TreeCopyProofs.v ===== *)
(** One entry of a tree copy (src/crates/refcopy/src): the paths below the two
    roots, the streaming of a file, a native clone and the fallbacks after it,
    the rename into place and its cleanup. [copy_entry_spec] says what any of
    them left at the destination and in the report. *)

From S2P Require Export TreeCopy.

#[local] Set Default Proof Using "Type".

Implicit Types (t : Tree) (l k : loc) (d : Disk).

(** ** Relative paths *)

(** A relative path spelled from names, from the root down. *)
Definition relpath (rel : str) (names : list str) : Prop := rel = join_with c_slash names /\ Forall plain_name names.

Lemma relpath_root : relpath [] [].
Proof. by split. Qed.

Lemma join_nonempty names : names <> [] -> Forall plain_name names -> join_with c_slash names <> [].
Proof. destruct names as [|n [|m names]]; [done|..]; intros _ [[]  _]%Forall_cons; [done|]. by destruct n. Qed.

Lemma join_snoc names n : names <> [] -> join_with c_slash (names ++ [n]) = join_with c_slash names ++ c_slash :: n.
Proof.
  induction names as [|m names IH]; [done|]. intros _. destruct names as [|m' names]; [done|].
  change (join_with c_slash ((m :: m' :: names) ++ [n])) with (m ++ c_slash :: join_with c_slash ((m' :: names) ++ [n])).
  rewrite IH by done. change (join_with c_slash (m :: m' :: names)) with (m ++ c_slash :: join_with c_slash (m' :: names)).
  by rewrite <- app_assoc.
Qed.

Lemma plain_ends n : plain_name n -> ends_with (N.eqb c_slash) n = false.
Proof.
  intros [H1 _ _ Hs]. unfold ends_with. destruct (snoc_inv n) as [->|(n' & x & ->)]; [done|].
  rewrite reverse_snoc. apply N.eqb_neq. intros <-. apply Hs, elem_of_app. right. left.
Qed.

Lemma ends_with_app a c b : b <> [] -> ends_with (N.eqb c_slash) (a ++ c :: b) = ends_with (N.eqb c_slash) b.
Proof.
  intros Hb. unfold ends_with. destruct (snoc_inv b) as [->|(b' & x & ->)]; [done|].
  rewrite app_comm_cons, app_assoc, !reverse_snoc. done.
Qed.

Lemma join_ends names : Forall plain_name names -> ends_with (N.eqb c_slash) (join_with c_slash names) = false.
Proof.
  intros Hp. destruct (snoc_inv names) as [->|(ns & n & ->)]; [done|]. apply Forall_app in Hp as [Hp [Hn _]%Forall_cons].
  destruct (decide (ns = [])) as [->|Hne]; [by apply plain_ends|]. rewrite join_snoc by done.
  rewrite ends_with_app; [by apply plain_ends|]. by destruct Hn.
Qed.

Lemma relpath_join rel names n : relpath rel names -> plain_name n -> relpath (path_join rel n) (names ++ [n]).
Proof.
  intros [-> Hp] Hn. split; [|apply Forall_app; by split; [|constructor]].
  destruct (plain_components n Hn) as (Na & _). unfold path_join. rewrite Na.
  destruct (decide (names = [])) as [->|Hne]; [done|].
  rewrite bool_decide_false by (by apply join_nonempty). rewrite join_ends by done. cbn [orb]. by rewrite join_snoc.
Qed.

Lemma relpath_spec rel names : relpath rel names ->
  path_components rel = Normal <$> names /\ is_absolute rel = false /\ head (split_on c_slash rel) <> Some dot.
Proof.
  intros [-> Hp]. destruct (decide (names = [])) as [->|Hne]; [done|].
  assert (Hs : split_on c_slash (join_with c_slash names) = names).
  { apply split_join; [done|]. eapply Forall_impl; [exact Hp|]. by intros n []. }
  assert (Ha : is_absolute (join_with c_slash names) = false).
  { destruct names as [|n names]; [done|]. apply Forall_cons in Hp as [[H1 _ _ H4] _]. destruct n as [|x n]; [done|].
    assert (x <> c_slash) by (intros ->; apply H4; left). destruct names; apply N.eqb_neq; congruence. }
  assert (Hd : head names <> Some dot).
  { destruct names as [|n names]; [done|]. apply Forall_cons in Hp as [[_ H2 _ _] _]. intros E. apply H2. cbn [head] in E. congruence. }
  rewrite Hs. split_and!; [|done..]. unfold path_components. rewrite Ha, Hs, bool_decide_false by done. cbn [app].
  clear Hs Ha Hd Hne. induction Hp as [|n names Hn _ IH]; [done|]. cbn [fmap list_fmap]. rewrite bind_cons, IH.
  by rewrite plain_component.
Qed.

(** A path below a base. *)
Lemma below_components base rel names : base <> [] -> relpath rel names ->
  path_components (path_join base rel) = path_components base ++ (Normal <$> names).
Proof. intros Hb (Hc & Ha & Hd)%relpath_spec. by rewrite components_join, Hc. Qed.

Lemma below_absolute base rel names : base <> [] -> relpath rel names -> is_absolute (path_join base rel) = is_absolute base.
Proof.
  intros Hb (_ & Ha & _)%relpath_spec. unfold path_join. rewrite Ha, bool_decide_false by done.
  destruct base; [done|]. by destruct (ends_with _ _).
Qed.

Lemma below_nonempty base rel names : base <> [] -> relpath rel names -> path_join base rel <> [].
Proof.
  intros Hb (_ & Ha & _)%relpath_spec. unfold path_join. rewrite Ha, bool_decide_false by done.
  destruct base; [done|]. by destruct (ends_with _ _).
Qed.

(** ** Directories that stay *)

Definition dirs_stay t t' : Prop := forall l, structural (t !! l) = true -> t' !! l = t !! l.

Lemma dirs_stay_refl t : dirs_stay t t.
Proof. by intros l. Qed.

Lemma dirs_stay_trans t1 t2 t3 : dirs_stay t1 t2 -> dirs_stay t2 t3 -> dirs_stay t1 t3.
Proof. intros H1 H2 l Hl. rewrite H2, H1; [done..|]. by rewrite H1. Qed.

Lemma dirs_stay_insert t l node : structural (t !! l) = false -> dirs_stay t (<[l := node]> t).
Proof. intros Hl l' Hl'. rewrite lookup_insert_ne; [done|]. intros <-. congruence. Qed.

Lemma walk_stay links t t' cur todo l :
  dirs_stay t t' -> walk links t cur todo = Ok l -> node_at t l = Some NDir -> walk links t' cur todo = Ok l.
Proof.
  intros HS. revert cur todo. induction links as [links IH] using lt_wf_ind. intros cur todo.
  revert cur. induction todo as [|c todo IHt]; intros cur Hw Hn; [by destruct links|].
  destruct c as [| | |n]; try (destruct links; by apply IHt).
  destruct (t !! (n :: cur)) as [node|] eqn:En.
  2: { destruct links; cbn [walk] in Hw; by rewrite En in Hw. }
  destruct (structural (t !! (n :: cur))) eqn:Es.
  - pose proof (HS (n :: cur) Es) as E'. rewrite En in E'.
    destruct links as [|links]; cbn [walk] in Hw |- *; rewrite E'; rewrite En in Hw;
      destruct node; try done; try (by apply IHt); apply (IH links); (lia || done).
  - exfalso. rewrite En in Es. assert (l = n :: cur) as ->.
    { destruct links; cbn [walk] in Hw; rewrite En in Hw; destruct node; try done; case_bool_decide; by simplify_eq. }
    cbn [node_at] in Hn. rewrite En in Hn. injection Hn as ->. done.
Qed.

Section dirs.
Context (cwd : loc).

(** The real directory a path leads to. *)
Record dir_at t (p : str) l : Prop := { da_path : canonical cwd t p = Ok l; da_node : node_at t l = Some NDir }.

Lemma dir_at_stay t t' p l : dirs_stay t t' -> dir_at t p l -> dir_at t' p l.
Proof.
  intros HS [Hc Hn]. split.
  - unfold canonical in *. destruct (bool_decide (p = [])); [done|]. by eapply walk_stay.
  - destruct l; [done|]. cbn [node_at] in *. rewrite HS; [done|]. by rewrite Hn.
Qed.

Lemma names_below base rel names n : base <> [] -> relpath rel names -> plain_name n ->
  last (path_components (path_join base (path_join rel n))) = Some (Normal n) /\
  removelast (path_components (path_join base (path_join rel n))) = path_components (path_join base rel).
Proof.
  intros Hb Hr Hn. rewrite (below_components _ _ _ Hb (relpath_join _ _ _ Hr Hn)), fmap_app. cbn [fmap list_fmap].
  by rewrite app_assoc, last_snoc, removelast_snoc, (below_components _ _ _ Hb Hr).
Qed.

Lemma entry_below t base rel names n l :
  base <> [] -> relpath rel names -> plain_name n -> dir_at t (path_join base rel) l ->
  entry cwd t (path_join base (path_join rel n)) = Ok (n :: l).
Proof.
  intros Hb Hr Hn [Hc Hd]. destruct (names_below _ _ _ _ Hb Hr Hn) as [El Er]. unfold entry. rewrite El, Er.
  unfold canonical in Hc. rewrite bool_decide_false in Hc by (by eapply below_nonempty).
  assert (Es : start cwd (path_join base (path_join rel n)) = start cwd (path_join base rel)).
  { unfold start. by rewrite (below_absolute _ _ _ Hb (relpath_join _ _ _ Hr Hn)), (below_absolute _ _ _ Hb Hr). }
  rewrite Es, Hc. cbn [rbind]. by rewrite Hd.
Qed.

Lemma dir_below t base rel names n l :
  base <> [] -> relpath rel names -> plain_name n -> dir_at t (path_join base rel) l -> t !! (n :: l) = Some NDir ->
  dir_at t (path_join base (path_join rel n)) (n :: l).
Proof.
  intros Hb Hr Hn Hd Hl. split; [|done].
  eapply canonical_entry; [|by eapply entry_below|exact Hl|done]. exists n. by eapply names_below.
Qed.

Lemma node_below t base rel names n l :
  base <> [] -> relpath rel names -> plain_name n -> dir_at t (path_join base rel) l ->
  lstat cwd t (path_join base (path_join rel n)) = match t !! (n :: l) with Some node => Ok node | None => Err IoNotFound end.
Proof. intros Hb Hr Hn Hd. unfold lstat. by rewrite (entry_below _ _ _ _ _ _ Hb Hr Hn Hd). Qed.

End dirs.

(** ** Streaming *)

Section streaming.
Context (h : Host).

(** A file that some calls have appended to. *)
Definition rewritten (output : loc) t t' (r : bool) (b : list N) : Prop :=
  exists b', t' = <[output := NFile b']> t /\ (r = true -> b' = b).

Lemma write_some_spec output old bytes d d' r :
  tree d !! output = Some (NFile old) -> write_some h output bytes d = (d', r) ->
  exists n, tree d' = <[output := NFile (old ++ take n bytes)]> (tree d) /\ n <= length bytes /\
    match r with Ok w => w = N.of_nat n | Err _ => n = 0 end.
Proof.
  intros Ho. unfold write_some. intros [(E & f & ->)|(E & ->)]%sys_spec.
  - exists 0. rewrite E. cbn [take]. rewrite app_nil_r, insert_id by done. by split_and!; [|lia|].
  - cbn [fst snd map_err] in *. rewrite Ho in E. eexists (N.to_nat _). split; [exact E|]. cbn [map_err]. split; lia.
Qed.

Lemma write_chunk_spec fuel output whole remaining old d d' r :
  tree d !! output = Some (NFile old) -> length remaining < fuel ->
  write_chunk h fuel output whole remaining d = (d', r) ->
  r <> Err None /\ rewritten output (tree d) (tree d') (is_ok r) (old ++ remaining).
Proof.
  revert remaining old d. induction fuel as [|fuel IH]; intros remaining old d Ho Hf; [lia|]. cbn [write_chunk].
  case_bool_decide as Hl.
  { intros [= <- <-]. split; [done|]. exists old. rewrite insert_id by done. split; [done|]. intros _.
    apply nil_length_inv in Hl as ->. by rewrite app_nil_r. }
  intros [(e & (r0 & Hw & Er)%pmap_err_inv & ->)|(w & d1 & (r0 & Hw & Er)%pmap_err_inv & H2)]%pbind_inv.
  - destruct r0 as [|io]; [done|]. injection Er as ->. destruct (write_some_spec _ _ _ _ _ _ Ho Hw) as (n & E & _ & ->).
    split; [done|]. exists (old ++ take 0 remaining). split; [exact E|done].
  - destruct r0 as [w'|]; [|done]. injection Er as ->. destruct (write_some_spec _ _ _ _ _ _ Ho Hw) as (n & E & Hn & ->).
    destruct (N.eqb_spec (N.of_nat n) 0) as [E0|E0].
    { injection H2 as <- <-. split; [done|]. eexists. by split; [exact E|]. }
    rewrite N.min_l, Nat2N.id in H2 by lia. eapply (IH _ (old ++ take n remaining)) in H2 as [H2 (b & Eb & Hb)].
    + split; [done|]. exists b. rewrite Eb, E, insert_insert_eq. split; [done|]. intros Hr. rewrite (Hb Hr), <- app_assoc.
      by rewrite take_drop.
    + rewrite E. by rewrite lookup_insert_eq.
    + rewrite length_drop. lia.
Qed.

Lemma read_chunk_spec input bytes offset d d' r :
  node_at (tree d) input = Some (NFile bytes) -> read_chunk h input offset d = (d', r) ->
  tree d' = tree d /\ forall chunk, r = Ok chunk ->
    chunk `prefix_of` drop (N.to_nat offset) bytes /\ (chunk = [] -> drop (N.to_nat offset) bytes = []).
Proof.
  intros Hi. unfold read_chunk. intros Hr. pose proof (look_tree _ _ _ _ _ Hr) as E. split; [done|].
  intros chunk ->. apply look_ok in Hr. rewrite Hi in Hr. injection Hr as <-. split.
  - eexists. symmetry. apply take_drop.
  - intros Ht. destruct (drop _ bytes) as [|x rest]; [done|].
    destruct (N.to_nat _) eqn:En; [|done]. exfalso. unfold BUFFER_BYTES in En. lia.
Qed.

Lemma stream_spec fuel input output bytes total chunks d d' r :
  node_at (tree d) input = Some (NFile bytes) -> input <> output -> (N.to_nat total <= length bytes)%nat ->
  tree d !! output = Some (NFile (take (N.to_nat total) bytes)) ->
  (length bytes + 1 < fuel + N.to_nat total)%nat ->
  stream_bytes h fuel input output total chunks d = (d', r) ->
  r <> Err None /\ rewritten output (tree d) (tree d') (is_ok r) bytes /\
  (forall n, r = Ok n -> n = N.of_nat (length bytes)).
Proof.
  revert total chunks d. induction fuel as [|fuel IH]; intros total chunks d Hi Hne Ht Ho Hf; [lia|]. cbn [stream_bytes].
  assert (Hsame : forall d1, tree d1 = tree d -> rewritten output (tree d) (tree d1) false bytes).
  { intros d1 E. exists (take (N.to_nat total) bytes). rewrite E, insert_id by done. by split. }
  intros [(e & (r0 & Hr & Er)%pmap_err_inv & ->)|(chunk & d1 & (r0 & Hr & Er)%pmap_err_inv & H2)]%pbind_inv.
  { destruct r0; [done|]. injection Er as ->. apply (read_chunk_spec _ _ _ _ _ _ Hi) in Hr as [E _].
    split_and!; [done|by apply Hsame|done]. }
  destruct r0 as [chunk'|]; [|done]. injection Er as <-.
  destruct (read_chunk_spec _ _ _ _ _ _ Hi Hr) as [E1 Hp]. destruct (Hp _ eq_refl) as [Hpre Hend].
  case_bool_decide as Hl.
  { apply nil_length_inv in Hl. specialize (Hend Hl). apply (f_equal length) in Hend. rewrite length_drop in Hend. cbn in Hend.
    assert (HB : forall d2, tree d2 = tree d1 -> rewritten output (tree d) (tree d2) true bytes).
    { intros d2 E. exists bytes. rewrite E, E1. split; [|done]. rewrite insert_id; [done|]. rewrite Ho. by rewrite take_ge by lia. }
    apply pbind_inv in H2 as [(e & (r1 & Hk%look_tree & Ek)%pmap_err_inv & ->)|(u & d2 & (r1 & Hk%look_tree & Ek)%pmap_err_inv & H2)].
    - split_and!; [|by apply Hsame; congruence|done]. destruct r1; [done|]. by injection Ek as ->.
    - injection H2 as <- <-. split_and!; [done|by apply HB|]. intros n [= <-]. lia. }
  apply pbind_inv in H2 as [(e & Hc & ->)|(c & d2 & Hc & H3)].
  { destruct (0 <? chunks)%N; done. }
  assert (E2 : tree d2 = tree d1) by (destruct (0 <? chunks)%N; by injection Hc as <- _).
  assert (ET : tree d2 = tree d) by congruence. destruct c.
  { injection H3 as <- <-. split_and!; [done|by apply Hsame|done]. }
  destruct Hpre as [rest Hrest].
  assert (HL : (length chunk + N.to_nat total <= length bytes)%nat).
  { apply (f_equal length) in Hrest. rewrite length_drop, length_app in Hrest. lia. }
  assert (Hlc : chunk <> []) by (intros ->; done).
  apply pbind_inv in H3 as [(e & Hw & ->)|(u & d3 & Hw & H4)];
    (eapply write_chunk_spec in Hw as [Hn (b & Eb & Hb)]; [|rewrite ET; exact Ho|lia]).
  { split_and!; [congruence| |done]. exists b. rewrite Eb, ET. by split. }
  specialize (Hb eq_refl).
  assert (Hchunk : take (N.to_nat total) bytes ++ chunk = take (N.to_nat (total + N.of_nat (length chunk))) bytes).
  { rewrite N2Nat.inj_add, Nat2N.id. rewrite <- (take_drop (N.to_nat total) bytes) at 2. rewrite Hrest.
    rewrite take_app_add', take_app_length; [done|]. rewrite length_take. lia. }
  eapply IH in H4 as (H4 & (b' & Eb' & Hb') & Hn').
  - split_and!; [done| |done]. exists b'. rewrite Eb', Eb, ET, insert_insert_eq. done.
  - rewrite Eb, ET. destruct input; [done|]. cbn [node_at] in *. by rewrite lookup_insert_ne.
  - done.
  - lia.
  - rewrite Eb, lookup_insert_eq, Hb. by rewrite Hchunk.
  - destruct chunk; [done|]. cbn [length] in *. lia.
Qed.

End streaming.

Lemma last_split {A} (l : list A) x : last l = Some x -> l = removelast l ++ [x].
Proof. destruct (snoc_inv l) as [->|(l' & y & ->)]; [done|]. rewrite last_snoc, removelast_snoc. by intros [= ->]. Qed.

(** ** Temporary names *)

Lemma digits_clean x s :
  Forall (fun c => c <> c_slash) (lit s) -> Forall (fun c => c <> c_slash) (lit (pretty_N_go x s)).
Proof.
  revert s. induction (N.lt_wf_0 x) as [x _ IH]; intros s Hs.
  destruct (decide (x = 0)%N) as [->|Hx]; [by rewrite pretty_N_go_0|].
  rewrite pretty_N_go_step by lia. apply IH; [by apply N.div_lt; lia|]. cbn [lit]. constructor; [|done].
  unfold pretty_N_char. repeat case_match; done.
Qed.

Lemma show_N_clean n c : c ∈ show_N n -> c <> c_slash.
Proof.
  assert (H : Forall (fun c => c <> c_slash) (show_N n)); [|by rewrite Forall_forall in H; apply H].
  unfold show_N, pretty, pretty_N. destruct (decide (n = 0)%N); [|apply digits_clean; constructor].
  by repeat constructor.
Qed.

(** The temporary of a run's [i]th file. *)
Definition temporary_file (pid i : N) : str := lit ".gwz-refcopy." ++ show_N pid ++ lit "." ++ show_N i ++ lit ".tmp".

Lemma temporary_file_plain pid i : plain_name (temporary_file pid i).
Proof.
  unfold temporary_file.
  assert (HL : 13 <= length (lit ".gwz-refcopy." ++ show_N pid ++ lit "." ++ show_N i ++ lit ".tmp")).
  { rewrite length_app. change (length (lit ".gwz-refcopy.")) with 13. lia. }
  split; try (intros E; rewrite E in HL; cbn in HL; lia).
  rewrite !elem_of_app. intros [Hc|[Hc|[Hc|[Hc|Hc]]]]; [|by eapply show_N_clean| |by eapply show_N_clean|].
  - revert Hc. refine (bool_decide_unpack (c_slash ∉ lit ".gwz-refcopy.") _). by vm_compute.
  - revert Hc. refine (bool_decide_unpack (c_slash ∉ lit ".") _). by vm_compute.
  - revert Hc. refine (bool_decide_unpack (c_slash ∉ lit ".tmp") _). by vm_compute.
Qed.

(** ** What a report counts *)

Definition Tally : Type := N * N * N * N.

Definition tally (r : CopyReport) : Tally := (report_files r, directories r, symlinks r, logical_bytes r).

Definition tally_add (a b : Tally) : Tally :=
  let '(f, d, s, b1) := a in let '(f', d', s', b2) := b in ((f + f')%N, (d + d')%N, (s + s')%N, (b1 + b2)%N).

Definition node_tally (node : Node) : Tally :=
  match node with
  | NFile bytes => (1, 0, 0, N.of_nat (length bytes))%N
  | NDir => (0, 1, 0, 0)%N
  | NLink _ => (0, 0, 1, 0)%N
  | NSpecial => (0, 0, 0, 0)%N
  end.

Lemma tally_eq (a b c d a' b' c' d' : N) : a = a' -> b = b' -> c = c' -> d = d' -> (a, b, c, d) = (a', b', c', d').
Proof. by intros -> -> -> ->. Qed.

(** Equal counts, by arithmetic. *)
Ltac tally_tac :=
  unfold tally, report_files, node_tally, tally_add; cbn [cs_report native_files ordinary_files directories symlinks logical_bytes set_field];
  apply tally_eq; lia.

(** The counts of a set of entries. *)
Definition entries_tally (t : Tree) : Tally := map_fold (fun _ node c => tally_add c (node_tally node)) (0, 0, 0, 0)%N t.

Lemma tally_add_swap a b c : tally_add (tally_add a b) c = tally_add (tally_add a c) b.
Proof. destruct a as [[[]]], b as [[[]]], c as [[[]]]. apply tally_eq; lia. Qed.

Lemma entries_tally_insert t l node :
  t !! l = None -> entries_tally (<[l := node]> t) = tally_add (entries_tally t) (node_tally node).
Proof. intros Hl. unfold entries_tally. rewrite map_fold_insert_L; [done| |done]. intros. apply tally_add_swap. Qed.

Lemma entries_tally_empty : entries_tally ∅ = (0, 0, 0, 0)%N.
Proof. apply map_fold_empty. Qed.

Definition cs_tree (s : CopyState) : Tree := tree (cs_disk s).

(** ** One entry *)

Section entry.
Context (h : Host) (request : CopyRequest) (plan : CopyPlan).
Context (source_given : cq_source request <> []) (destination_given : cq_destination request <> []).

Abbreviation cwd := (h_cwd h).
Abbreviation sbase := (cq_source request).
Abbreviation dbase := (cq_destination request).

(** What a step of the copy at the entry [n], from the directory [src] to the
    directory [dst], made of the run: it copied the entry, changed nothing, or
    left a temporary file behind. *)
Definition entry_copied (src dst : loc) (n : str) (s s' : CopyState) : Prop :=
  exists node, cs_tree s !! (n :: src) = Some node /\ node <> NSpecial /\
    cs_tree s' = <[n :: dst := node]> (cs_tree s) /\ tally (cs_report s') = tally_add (tally (cs_report s)) (node_tally node).

Definition entry_unchanged (s s' : CopyState) : Prop :=
  cs_tree s' = cs_tree s /\ tally (cs_report s') = tally (cs_report s).

Definition entry_left (dst : loc) (s s' : CopyState) : Prop :=
  exists m b, cs_tree s !! (m :: dst) = None /\ cs_tree s' = <[m :: dst := NFile b]> (cs_tree s) /\
    tally (cs_report s') = tally (cs_report s).

Definition entry_stopped (src dst : loc) (n : str) (s s' : CopyState) : Prop :=
  entry_unchanged s s' \/ entry_left dst s s' \/ entry_copied src dst n s s'.

(** A path that names [m] in the directory reached by [dbase] and [rel]. *)
Definition sits (rel : str) (dst : loc) (path : str) (m : str) : Prop :=
  forall t, dir_at cwd t (path_join dbase rel) dst -> entry cwd t path = Ok (m :: dst).

Lemma temporary_spec rel names n dst s s' r :
  relpath rel names -> plain_name n ->
  temporary_path h (path_join dbase (path_join rel n)) s = (s', r) ->
  cs_disk s' = cs_disk s /\ cs_report s' = cs_report s /\ exists temporary m, r = Ok temporary /\ sits rel dst temporary m.
Proof using destination_given.
  intros Hr Hn [= <- <-]. split_and!; [done..|].
  set (m := temporary_file (h_pid h) (cs_temporaries s + 1)).
  destruct (names_below _ _ _ _ destination_given Hr Hn) as [El Er].
  destruct (sibling_components (path_join dbase (path_join rel n)) n m) as (parent & Ep & Hc).
  { unfold path_file_name. by rewrite El. } { apply temporary_file_plain. }
  change (lit ".gwz-refcopy." ++ _) with m. rewrite Ep. exists (path_join parent m), m. split; [done|].
  intros t Hd. pose proof (entry_below cwd _ _ _ _ _ _ destination_given Hr Hn Hd) as He.
  destruct (entry_sibling cwd t (path_join parent m) (path_join dbase (path_join rel n)) m n (n :: dst)) as (dd & E & H & _).
  - by rewrite Hc, last_snoc.
  - rewrite Hc, removelast_snoc. by apply last_split.
  - exact He.
  - by injection E as <-.
Qed.

(** A file under its temporary name, beside where it goes. *)
Record staged_file (rel : str) (src dst : loc) (n m : str) (bytes : list N) t : Prop := {
  sf_source : t !! (n :: src) = Some (NFile bytes);
  sf_vacant : t !! (n :: dst) = None;
  sf_fresh : t !! (m :: dst) = None;
  sf_dir : dir_at cwd t (path_join dbase rel) dst;
}.

Lemma staged_dir rel src dst n m bytes t b : staged_file rel src dst n m bytes t ->
  dir_at cwd (<[m :: dst := NFile b]> t) (path_join dbase rel) dst.
Proof. intros [_ _ Hf Hd]. eapply dir_at_stay; [|exact Hd]. apply dirs_stay_insert. by rewrite Hf. Qed.

Lemma discard_spec rel src dst n m bytes temporary t b s s' r :
  staged_file rel src dst n m bytes t -> sits rel dst temporary m -> cs_tree s = <[m :: dst := NFile b]> t ->
  discard h temporary s = (s', r) ->
  r = Ok tt /\ cs_report s' = cs_report s /\ (cs_tree s' = t \/ cs_tree s' = cs_tree s).
Proof.
  intros HS Ht Es. unfold discard, on_disk, pcase. destruct (sys _ _ (cs_disk s)) as [d1 r1] eqn:E. intros [= <- <-].
  split_and!; [done..|]. unfold cs_tree in *. cbn [cs_disk set_field]. apply unlink_spec in E as [[-> _]|(l & He & -> & _ & _)]; [by right|].
  left. rewrite Es in He |- *. rewrite (Ht _ (staged_dir _ _ _ _ _ _ _ _ HS)) in He. injection He as <-.
  rewrite delete_insert_eq. apply delete_id. by destruct HS.
Qed.

Lemma rename_spec rel src dst n m bytes temporary t s s' r relative names :
  staged_file rel src dst n m bytes t -> sits rel dst temporary m -> relpath rel names -> plain_name n ->
  cs_tree s = <[m :: dst := NFile bytes]> t ->
  rename_into_place h relative temporary (path_join dbase (path_join rel n)) s = (s', r) ->
  cs_report s' = cs_report s /\ r <> Err None /\
  if is_ok r then cs_tree s' = <[n :: dst := NFile bytes]> t else cs_tree s' = t \/ cs_tree s' = cs_tree s.
Proof using destination_given.
  intros HS Ht Hr Hn Es. unfold rename_into_place. intros (r1 & s1 & H1 & H2)%pcase_inv.
  unfold on_disk in H1. destruct (sys _ _ (cs_disk s)) as [d1 r0] eqn:E. injection H1 as <- <-.
  pose proof (staged_dir _ _ _ _ _ _ _ bytes HS) as Hd.
  pose proof (Ht _ Hd) as He1. pose proof (entry_below cwd _ _ _ _ _ _ destination_given Hr Hn Hd) as He2.
  apply sys_spec in E as [(E & f & ->)|(E & E')].
  - apply pbind_inv in H2 as [(e & Hx & _)|(u & s2 & Hx & [= <- <-])];
      (eapply discard_spec in Hx as (? & Er & Et); [|exact HS|exact Ht|by unfold cs_tree in *; cbn; rewrite E]); [done|].
    split_and!; [exact Er|done|]. cbn [is_ok]. unfold cs_tree in *. cbn in Et. by rewrite E in Et.
  - unfold cs_tree in Es. rewrite Es in E, E'. unfold rename in E, E'. rewrite He1, He2 in E, E'. cbn [node_at] in E, E'.
    rewrite lookup_insert_eq in E, E'.
    assert (HI : tree d1 = <[n :: dst := NFile bytes]> t /\ r0 = Ok tt).
    { destruct HS as [_ Hv Hf _]. destruct (decide (m = n)) as [->|Hne].
      - rewrite lookup_insert_eq in E, E'. rewrite bool_decide_true in E, E' by done. by rewrite E, E'.
      - rewrite lookup_insert_ne, Hv in E, E' by congruence. rewrite bool_decide_false in E, E' by congruence.
        rewrite E, E'. cbn [fst snd map_err]. rewrite delete_insert_eq, (delete_id t) by done. done. }
    destruct HI as [HI ->]. injection H2 as <- <-. by split_and!.
Qed.

(** How the copy of one file ends: under its name and counted, or not there,
    its temporary removed or left. *)
Definition file_ended (dst : loc) (n m : str) (bytes : list N) t (s s' : CopyState) (ok : bool) : Prop :=
  if ok then cs_tree s' = <[n :: dst := NFile bytes]> t /\
             tally (cs_report s') = tally_add (tally (cs_report s)) (node_tally (NFile bytes))
  else (cs_tree s' = t \/ t !! (m :: dst) = None /\ exists b, cs_tree s' = <[m :: dst := NFile b]> t) /\ tally (cs_report s') = tally (cs_report s).

Lemma file_counted rel src dst n m bytes temporary t s s' r relative names f :
  staged_file rel src dst n m bytes t -> sits rel dst temporary m -> relpath rel names -> plain_name n ->
  cs_tree s = <[m :: dst := NFile bytes]> t ->
  (forall report, tally (f report) = tally_add (tally report) (node_tally (NFile bytes))) ->
  (do! rename_into_place h relative temporary (path_join dbase (path_join rel n)) in update f) s = (s', r) ->
  r <> Err None /\ file_ended dst n m bytes t s s' (is_ok r).
Proof using destination_given.
  intros HS Ht Hr Hn Es Hf [(e & H1 & ->)|([] & s1 & H1 & [= <- <-])]%pbind_inv;
    (eapply rename_spec in H1 as (Er & Hne & Hc); [|done..]); cbn [is_ok] in *.
  - split; [congruence|]. split; [|by rewrite Er]. rewrite Es in Hc. destruct HS. destruct Hc; eauto.
  - split; [done|]. split; [exact Hc|]. cbn. by rewrite Hf, Er.
Qed.

Lemma finish_clone_spec rel src dst n m bytes temporary t s s' r relative names :
  staged_file rel src dst n m bytes t -> sits rel dst temporary m -> relpath rel names -> plain_name n ->
  cs_tree s = <[m :: dst := NFile bytes]> t ->
  finish_clone h relative (N.of_nat (length bytes)) temporary (path_join dbase (path_join rel n)) s = (s', r) ->
  r <> Err None /\ file_ended dst n m bytes t s s' (is_ok r).
Proof using destination_given.
  intros HS Ht Hr Hn Es. unfold finish_clone.
  intros H. apply pbind_inv in H as [(e & (r1 & s1 & H1 & H2)%pcase_inv & ->)|(u & s2 & (r1 & s1 & H1 & H2)%pcase_inv & H3)];
    unfold on_disk, set_permissions in H1; destruct (look _ _ (cs_disk s)) as [d1 r0] eqn:E; apply look_tree in E;
    injection H1 as <- <-; destruct r0 as [[]|io]; try done.
  - apply pbind_inv in H2 as [(e' & Hx & _)|(u & s2 & Hx & [= <- <-])];
      (eapply discard_spec in Hx as (? & Er & Et); [|exact HS|exact Ht|by unfold cs_tree in *; cbn; rewrite E]); [done|].
    split; [done|]. cbn [is_ok]. split; [|by rewrite Er]. unfold cs_tree in *. cbn in Et. rewrite E, Es in Et. destruct HS. destruct Et; eauto.
  - injection H2 as <- _. eapply (file_counted rel src dst n m bytes) in H3; try done.
    + by unfold cs_tree in *; cbn; rewrite E.
    + intros report. tally_tac.
  - apply pbind_inv in H2 as [(e' & Hx & [=])|(? & ? & _ & [=])].
Qed.

(** Where a file is copied from and to. *)
Record file_place (rel : str) (src dst : loc) (n : str) (bytes : list N) t : Prop := {
  fp_source : t !! (n :: src) = Some (NFile bytes);
  fp_vacant : t !! (n :: dst) = None;
  fp_dir : dir_at cwd t (path_join dbase rel) dst;
}.

(** The bytes and the mode, into the temporary just made. *)
Lemma filled_spec src dst n m bytes t d d' r :
  t !! (n :: src) = Some (NFile bytes) -> t !! (m :: dst) = None -> tree d = <[m :: dst := NFile []]> t ->
  (let! written := stream_bytes h (S (S (N.to_nat (N.of_nat (length bytes))))) (n :: src) (m :: dst) 0 0 in
   do! pmap_err (fun e => Some (MetadataFailed, lit "permissions could not be applied: " ++ io_text e))
         (preserve_permissions_on_handle h) in
   pret written) d = (d', r) ->
  r <> Err None /\ exists b, tree d' = <[m :: dst := NFile b]> t /\
    forall w, r = Ok w -> b = bytes /\ w = N.of_nat (length bytes).
Proof.
  intros Hs Hf Ed H. assert (Hne : n :: src <> m :: dst) by congruence.
  assert (HB : forall d1 r1, stream_bytes h (S (S (N.to_nat (N.of_nat (length bytes))))) (n :: src) (m :: dst) 0 0 d = (d1, r1) ->
    r1 <> Err None /\ rewritten (m :: dst) (tree d) (tree d1) (is_ok r1) bytes /\ (forall w, r1 = Ok w -> w = N.of_nat (length bytes))).
  { intros d1 r1. apply stream_spec; [|done| |by rewrite Ed, lookup_insert_eq|].
    - rewrite Ed. cbn [node_at]. by rewrite lookup_insert_ne.
    - cbn. lia.
    - rewrite Nat2N.id. cbn. lia. }
  apply pbind_inv in H as [(e & H1 & ->)|(w & d1 & H1 & H2)]; apply HB in H1 as (HN & (b & Eb & Hb) & Hw); rewrite Ed, insert_insert_eq in Eb.
  { split; [congruence|]. exists b. by split. }
  apply pbind_inv in H2 as [(e & (r1 & Hk%look_tree & Ek)%pmap_err_inv & ->)|(u & d2 & (r1 & Hk%look_tree & Ek)%pmap_err_inv & [= <- <-])].
  - split; [destruct r1; [done|]; by injection Ek as ->|]. exists b. rewrite Hk. by split.
  - split; [done|]. exists b. rewrite Hk. split; [done|]. intros w' [= <-]. split; [by apply Hb|by apply Hw].
Qed.

Lemma copy_ordinary_spec rel src dst n m bytes temporary s s' r relative names :
  file_place rel src dst n bytes (cs_tree s) -> sits rel dst temporary m -> relpath rel names -> plain_name n ->
  copy_ordinary h relative (n :: src) (N.of_nat (length bytes)) temporary (path_join dbase (path_join rel n)) s = (s', r) ->
  r <> Err None /\ file_ended dst n m bytes (cs_tree s) s s' (is_ok r).
Proof using destination_given.
  intros [Hs Hv Hd] Ht Hr Hn. unfold copy_ordinary, at_entry.
  intros [(e & H1 & ->)|(output & s1 & H1 & H2)]%pbind_inv; unfold on_disk in H1;
    destruct (pmap_err _ _ (cs_disk s)) as [d1 r1] eqn:E1; injection H1 as <- ->;
    apply pmap_err_inv in E1 as (r0 & E1%create_spec & Er); (destruct r0 as [l|io]; [|]); try done.
  { injection Er as ->. split; [done|]. cbn [is_ok]. split; [by left|done]. }
  injection Er as ->. destruct E1 as (E1 & Hf & He). change (tree (cs_disk s)) with (cs_tree s) in E1, Hf, He.
  rewrite (Ht _ Hd) in He. injection He as <-. cbn [node_at] in Hf.
  assert (HS : staged_file rel src dst n m bytes (cs_tree s)) by done.
  apply pbind_inv in H2 as [(e & (r2 & s2 & H2 & H3)%pcase_inv & ->)|(written & s3 & (r2 & s2 & H2 & H3)%pcase_inv & H4)];
    unfold on_disk in H2; destruct (pbind _ _ _) as [d2 r3] eqn:E2 in H2; cbn [cs_disk set_field] in E2; injection H2 as <- ->;
    eapply filled_spec in E2 as (HN & b & Eb & Hb); try done.
  - destruct r2 as [w|[[category detail]|]]; [done| |done].
    unfold on_disk, pbind, pcase in H3. cbn [cs_disk set_field] in H3. destruct (sys _ _ d2) as [d3 r4] eqn:E3. injection H3 as <- <-.
    split; [done|]. cbn [is_ok]. split; [|done]. unfold cs_tree. cbn [cs_disk set_field].
    apply unlink_spec in E3 as [[-> _]|(l & He & -> & _ & _)]; [right; eauto|]. left.
    rewrite Eb in He |- *. rewrite (Ht _ (staged_dir _ _ _ _ _ _ _ _ HS)) in He. injection He as <-.
    rewrite delete_insert_eq. by apply delete_id.
  - destruct r2 as [w|[[category detail]|]]; [|by apply pbind_inv in H3 as [(? & ? & [=])|(? & ? & _ & [=])]|done].
    injection H3 as <- <-. destruct (Hb w eq_refl) as [-> ->].
    eapply (file_counted rel src dst n m bytes) in H4; try done. intros report. tally_tac.
Qed.

(** Where the temporary is still there nothing is copied. *)
Lemma copy_ordinary_taken rel dst m temporary s s' r relative input len destination node :
  cs_tree s !! (m :: dst) = Some node -> sits rel dst temporary m -> dir_at cwd (cs_tree s) (path_join dbase rel) dst ->
  copy_ordinary h relative input len temporary destination s = (s', r) ->
  (exists e, r = Err (Some e)) /\ cs_tree s' = cs_tree s /\ cs_report s' = cs_report s.
Proof.
  intros Hm Ht Hd. unfold copy_ordinary, at_entry.
  intros [(e & H1 & ->)|(output & s1 & H1 & H2)]%pbind_inv; unfold on_disk in H1;
    destruct (pmap_err _ _ (cs_disk s)) as [d1 r1] eqn:E1; injection H1 as <- ->;
    apply pmap_err_inv in E1 as (r0 & E1%create_spec & Er); (destruct r0 as [l|io]; [|]); try done.
  - injection Er as ->. split_and!; [by eexists|exact E1|done].
  - destruct E1 as (_ & Hf & He). change (tree (cs_disk s)) with (cs_tree s) in Hf, He. rewrite (Ht _ Hd) in He.
    injection He as <-. cbn [node_at] in Hf. congruence.
Qed.

Lemma clone_spec {E} rel src dst n m bytes temporary d d' (r : result Outcome E) :
  file_place rel src dst n bytes (tree d) -> sits rel dst temporary m ->
  clone_regular_file_linux h (n :: src) temporary d = (d', r) ->
  exists o, r = Ok o /\
    (tree d' = tree d /\ o <> Cloned \/
     tree d !! (m :: dst) = None /\
     (o = Cloned /\ tree d' = <[m :: dst := NFile bytes]> (tree d) \/
      o <> Cloned /\ tree d' = <[m :: dst := NFile []]> (tree d))).
Proof.
  intros [Hs Hv Hd] Ht. unfold clone_regular_file_linux. intros (r1 & d1 & H1%create_spec & H2)%pcase_inv.
  destruct r1 as [l|io]; [|injection H2 as <- <-; eexists; split; [done|by left]].
  destruct H1 as (E1 & Hf & He). rewrite (Ht _ Hd) in He. injection He as <-. cbn [node_at] in Hf.
  destruct (h_reflink h (clock d1)) as [errno|].
  - apply pcase_inv in H2 as (r2 & d2 & H2 & [= <- <-]). eexists. split; [done|].
    assert (Hne : describe (ficlone errno) (h_errno_text h errno) (lit "FICLONE") <> Cloned) by (by destruct (ficlone errno)).
    apply unlink_spec in H2 as [[Eu _]|(l & He & Eu & _ & _)]; cbn [tree] in *; rewrite Eu, E1.
    + right. split; [done|]. by right.
    + left. split; [|done]. rewrite E1 in He. assert (HS : staged_file rel src dst n m bytes (tree d)) by done.
      rewrite (Ht _ (staged_dir _ _ _ _ _ _ _ _ HS)) in He. injection He as <-. rewrite delete_insert_eq. by apply delete_id.
  - assert (Es : node_at (tree d1) (n :: src) = Some (NFile bytes)).
    { cbn [node_at]. by rewrite E1, lookup_insert_ne by congruence. }
    rewrite Es in H2. injection H2 as <- <-. eexists. split; [done|]. right. split; [done|]. left. split; [done|].
    cbn [tree]. by rewrite E1, insert_insert_eq.
Qed.

Lemma file_ended_from dst n m bytes t s s1 s' ok :
  tally (cs_report s1) = tally (cs_report s) -> file_ended dst n m bytes t s1 s' ok -> file_ended dst n m bytes t s s' ok.
Proof. unfold file_ended. intros E. by rewrite E. Qed.

Lemma noted_spec relative detail s s' r :
  note_native_fallback relative detail s = (s', r) ->
  r = Ok tt /\ cs_disk s' = cs_disk s /\ tally (cs_report s') = tally (cs_report s).
Proof. unfold note_native_fallback. destruct (cs_noted s); by intros [= <- <-]. Qed.

Definition entry_outcome (src dst : loc) (n : str) (s s' : CopyState) (ok : bool) : Prop :=
  if ok then entry_copied src dst n s s' else entry_stopped src dst n s s'.

Lemma file_outcome rel src dst n m bytes s s' ok :
  file_place rel src dst n bytes (cs_tree s) -> file_ended dst n m bytes (cs_tree s) s s' ok ->
  entry_outcome src dst n s s' ok.
Proof.
  intros [Hs _ _]. destruct ok; cbn.
  - intros [E Et]. by exists (NFile bytes).
  - intros [[E|[Hm [b E]]] Et]; [by left|right; left; by exists m, b].
Qed.

Lemma same_outcome src dst n s s1 s' ok :
  cs_disk s1 = cs_disk s -> tally (cs_report s1) = tally (cs_report s) ->
  entry_outcome src dst n s1 s' ok -> entry_outcome src dst n s s' ok.
Proof.
  intros Ed Er. unfold entry_outcome, entry_copied, entry_stopped, entry_unchanged, entry_left, cs_tree. rewrite Er.
  unfold entry_copied, cs_tree. by rewrite Ed, Er.
Qed.

Lemma open_read_spec rel names src n bytes d d' r :
  relpath rel names -> plain_name n -> dir_at cwd (tree d) (path_join sbase rel) src ->
  tree d !! (n :: src) = Some (NFile bytes) ->
  open_read h (path_join sbase (path_join rel n)) d = (d', r) ->
  tree d' = tree d /\ (forall l, r = Ok l -> l = n :: src).
Proof using source_given.
  intros Hr Hn Hd Hs Ho. pose proof (look_tree _ _ _ _ _ Ho) as E. split; [done|]. intros l ->. apply look_ok in Ho.
  assert (Hc : canonical cwd (tree d) (path_join sbase (path_join rel n)) = Ok (n :: src)).
  { eapply canonical_entry; [exists n; by eapply names_below|by eapply entry_below|exact Hs|done]. }
  rewrite Hc in Ho. cbn [rbind node_at] in Ho. rewrite Hs in Ho. congruence.
Qed.

Lemma handle_len_spec l bytes d d' r :
  node_at (tree d) l = Some (NFile bytes) -> handle_len h l d = (d', r) ->
  tree d' = tree d /\ (forall w, r = Ok w -> w = N.of_nat (length bytes)).
Proof.
  intros Hl Ho. pose proof (look_tree _ _ _ _ _ Ho) as E. split; [done|]. intros w ->. apply look_ok in Ho.
  rewrite Hl in Ho. congruence.
Qed.

(** A disk call of a step that only looks. *)
Lemma looked_at {A} relative category text (m : proc Disk A IoError) s s' r :
  (forall d d' x, m d = (d', x) -> tree d' = tree d) -> at_entry relative category text m s = (s', r) ->
  cs_tree s' = cs_tree s /\ cs_report s' = cs_report s /\ r <> Err None /\
  exists x, m (cs_disk s) = (cs_disk s', x) /\ (forall a, r = Ok a -> x = Ok a).
Proof.
  intros Hm. unfold at_entry, on_disk, pmap_err. destruct (m (cs_disk s)) as [d1 x] eqn:E. intros [= <- <-].
  pose proof (Hm _ _ _ E) as Et. split_and!; [exact Et|done|by destruct x|]. exists x. cbn. split; [done|].
  intros a. destruct x; [by intros [= ->]|discriminate].
Qed.

Lemma copy_file_spec rel names src dst n bytes relative s s' r :
  relpath rel names -> plain_name n -> dir_at cwd (cs_tree s) (path_join sbase rel) src ->
  file_place rel src dst n bytes (cs_tree s) ->
  copy_file h plan relative (path_join sbase (path_join rel n)) (path_join dbase (path_join rel n)) s = (s', r) ->
  r <> Err None /\ entry_outcome src dst n s s' (is_ok r).
Proof using source_given destination_given.
  intros Hr Hn Hsd HP. pose proof HP as [Hs Hv Hd]. unfold copy_file.
  assert (HU : forall s1 e, cs_tree s1 = cs_tree s -> cs_report s1 = cs_report s -> entry_outcome src dst n s s1 (is_ok (Err (A := unit) (E := option Failure) e))).
  { intros s1 e Et Er. left. unfold entry_unchanged. by rewrite Et, Er. }
  intros [(e & H1 & ->)|(input & s1 & H1 & H2)]%pbind_inv;
    (eapply looked_at in H1 as (Et1 & Er1 & HN1 & x1 & Hx1 & Ex1); [|intros d d' x; apply look_tree]).
  { split; [congruence|by apply HU]. }
  eapply open_read_spec in Hx1 as [_ Hi]; [|done..]. rewrite (Hi _ (Ex1 _ eq_refl)) in *.
  apply pbind_inv in H2 as [(e & H2 & ->)|(len & s2 & H2 & H3)];
    (eapply looked_at in H2 as (Et2 & Er2 & HN2 & x2 & Hx2 & Ex2); [|intros d d' x; apply look_tree]).
  { split; [congruence|]. apply HU; congruence. }
  eapply (handle_len_spec _ bytes) in Hx2 as [_ Hw]; [|by change (tree (cs_disk s1)) with (cs_tree s1); rewrite Et1].
  rewrite (Hw _ (Ex2 _ eq_refl)) in *.
  apply pbind_inv in H3 as [(e & H3 & ->)|(temporary & s3 & H3 & H4)];
    eapply (temporary_spec rel names n dst) in H3 as (Ed3 & Er3 & temporary' & m & Em & Ht); try done.
  injection Em as ->. assert (Et3 : cs_tree s3 = cs_tree s) by (unfold cs_tree in *; congruence).
  assert (Er : cs_report s3 = cs_report s) by congruence.
  assert (HB : forall s4, cs_tree s4 = cs_tree s -> tally (cs_report s4) = tally (cs_report s) ->
    copy_ordinary h relative (n :: src) (N.of_nat (length bytes)) temporary' (path_join dbase (path_join rel n)) s4 = (s', r) ->
    r <> Err None /\ entry_outcome src dst n s s' (is_ok r)).
  { intros s4 Et4 Er4 H5. eapply (copy_ordinary_spec rel src dst n m bytes) in H5 as [HN5 H5]; [|by rewrite Et4|done..].
    split; [done|]. rewrite Et4 in H5. eapply file_outcome; [done|]. by eapply file_ended_from. }
  destruct (is_attempted (cp_attempt plan)) eqn:Ea; [|by apply HB in H4; [|done|rewrite Er]].
  destruct (cp_attempt plan); [done|]. cbn [clone_regular_file] in H4.
  assert (HP3 : file_place rel src dst n bytes (tree (cs_disk s3))) by (change (tree (cs_disk s3)) with (cs_tree s3); by rewrite Et3).
  apply pbind_inv in H4 as [(e & H4 & ->)|(outcome & s4 & H4 & H5)]; unfold on_disk in H4;
    destruct (clone_regular_file_linux h _ _ (cs_disk s3)) as [d4 r4] eqn:E4; injection H4 as <- ->;
    destruct (clone_spec _ _ _ _ _ _ _ _ _ _ HP3 Ht E4) as (o & Eo & HC); [done|]. injection Eo as <-.
  change (tree (cs_disk s3)) with (cs_tree s3) in HC. rewrite Et3 in HC. cbn [cs_disk set_field] in H5.
  assert (Hleft : forall b, cs_tree s !! (m :: dst) = None -> forall s5, cs_tree s5 = <[m :: dst := NFile b]> (cs_tree s) ->
    tally (cs_report s5) = tally (cs_report s) -> entry_outcome src dst n s s5 false).
  { intros b Hm s5 E5 Er5. right. left. by exists m, b. }
  destruct outcome as [|detail|category detail].
  - destruct HC as [[_ Hc]|[Hm [[_ Ec]|[Hc _]]]]; [done| |done].
    eapply (finish_clone_spec rel src dst n m bytes _ (cs_tree s)) in H5 as [HN5 H5]; try done.
    split; [done|]. eapply file_outcome; [done|]. eapply file_ended_from; [|exact H5]. cbn. by rewrite Er.
  - apply pbind_inv in H5 as [(e & H5 & ->)|(u & s5 & H5 & H6)]; apply noted_spec in H5 as (Eu & Ed5 & Er5); [done|].
    cbn in Ed5, Er5. rewrite Er in Er5. destruct HC as [[Ec _]|[Hm [[Hc _]|[_ Ec]]]]; [|done|].
    + apply HB in H6; [done|unfold cs_tree at 1; by rewrite Ed5|done].
    + assert (E5 : cs_tree s5 = <[m :: dst := NFile []]> (cs_tree s)) by (unfold cs_tree at 1; by rewrite Ed5).
      eapply (copy_ordinary_taken rel dst m) in H6 as ([e ->] & E6 & Er6); [|by rewrite E5, lookup_insert_eq|done|].
      * split; [done|]. apply (Hleft []); [done|congruence|congruence].
      * rewrite E5. eapply dir_at_stay; [|exact Hd]. apply dirs_stay_insert. by rewrite Hm.
  - injection H5 as <- <-. split; [done|]. destruct HC as [[Ec _]|[Hm [[Hc _]|[_ Ec]]]]; [|done|].
    + apply HU; [exact Ec|done].
    + by apply (Hleft []); [|exact Ec|cbn; rewrite Er].
Qed.

Lemma read_dir_at t p l : dir_at cwd t p l -> read_dir cwd t p = Ok (children t l).
Proof. intros [Hc Hn]. unfold read_dir. by rewrite Hc; cbn [rbind]; rewrite Hn. Qed.

Lemma open_frame_spec relative permissions l s s' r :
  dir_at cwd (cs_tree s) (path_join sbase relative) l -> open_frame h request relative permissions s = (s', r) ->
  cs_tree s' = cs_tree s /\ cs_report s' = cs_report s /\ r <> Err None /\
  forall f, r = Ok f -> f = mkFrame relative (merge_sort str_le (children (cs_tree s) l)) permissions.
Proof.
  intros Hd. unfold open_frame. intros [(e & H1 & ->)|(names & s1 & H1 & [= <- <-])]%pbind_inv;
    eapply looked_at in H1 as (Et & Er & HN & x & Hx & Ex); try (intros d0 d1 y; apply look_tree).
  - split_and!; [done|done|congruence|discriminate].
  - split_and!; [done|done|discriminate|]. intros f [= <-].
    rewrite (Ex _ eq_refl) in Hx. apply look_ok in Hx. change (tree (cs_disk s)) with (cs_tree s) in Hx.
    rewrite (read_dir_at _ _ _ Hd) in Hx. congruence.
Qed.

(** An entry the traversal is at. *)
Record entry_place (rel : str) (src dst : loc) (n : str) t : Prop := {
  ep_source : dir_at cwd t (path_join sbase rel) src;
  ep_dir : dir_at cwd t (path_join dbase rel) dst;
  ep_vacant : t !! (n :: dst) = None;
}.

(** What [copy_entry] answers for the entry it copied. *)
Definition opened_as (rel : str) (src dst : loc) (n : str) (s s' : CopyState) (opened : option Frame) : Prop :=
  match opened with
  | Some frame => cs_tree s !! (n :: src) = Some NDir /\
      frame = mkFrame (path_join rel n) (merge_sort str_le (children (cs_tree s') (n :: src))) true
  | None => cs_tree s !! (n :: src) <> Some NDir
  end.

Lemma created_spec relative category text rel names n dst node s s' r :
  relpath rel names -> plain_name n -> dir_at cwd (cs_tree s) (path_join dbase rel) dst ->
  at_entry relative category text (sys (h_fault h) (fun t => create cwd node t (path_join dbase (path_join rel n)))) s = (s', r) ->
  cs_report s' = cs_report s /\ r <> Err None /\
  if is_ok r then cs_tree s' = <[n :: dst := node]> (cs_tree s) else cs_tree s' = cs_tree s.
Proof using destination_given.
  intros Hr Hn Hd. unfold at_entry, on_disk. destruct (pmap_err _ _ (cs_disk s)) as [d1 r1] eqn:E1. intros [= <- <-].
  apply pmap_err_inv in E1 as (r0 & E1%create_spec & ->). destruct r0 as [l|io]; cbn [map_err is_ok]; [|by split_and!].
  destruct E1 as (E1 & _ & He). change (tree (cs_disk s)) with (cs_tree s) in E1, He.
  rewrite (entry_below cwd _ _ _ _ _ _ destination_given Hr Hn Hd) in He. injection He as <-. by split_and!.
Qed.

Lemma copy_directory_spec rel names src dst n relative s s' r :
  relpath rel names -> plain_name n -> entry_place rel src dst n (cs_tree s) -> cs_tree s !! (n :: src) = Some NDir ->
  relative = path_join rel n ->
  (do! at_entry relative destination_category io_text
         (sys (h_fault h) (fun t => create cwd NDir t (path_join dbase relative))) in
   do! update (fun r => r <| directories := (directories r + 1)%N |>) in
   do! at_entry relative metadata_failed
         (fun e => lit "directory permissions could not be applied: " ++ io_text e) (set_permissions h (path_join dbase relative)) in
   let! frame := open_frame h request relative true in
   pret (Some frame)) s = (s', r) ->
  r <> Err None /\ entry_outcome src dst n s s' (is_ok r) /\ (forall o, r = Ok o -> opened_as rel src dst n s s' o).
Proof using source_given destination_given.
  intros Hr Hn [Hsd Hd Hv] Hs ->.
  intros [(e & H1 & ->)|(l & s1 & H1 & H2)]%pbind_inv; eapply created_spec in H1 as (Er1 & HN1 & Et1); try done; cbn [is_ok] in Et1.
  { split_and!; [congruence| |discriminate]. left. unfold entry_unchanged. by rewrite Et1, Er1. }
  apply pbind_inv in H2 as [(e & [=] & _)|(u & s2 & [= <-] & H3)].
  match type of H3 with _ ?x = _ => set (s2 := x) in H3 end.
  assert (HC : forall s3, cs_tree s3 = cs_tree s2 -> cs_report s3 = cs_report s2 -> entry_copied src dst n s s3).
  { intros s3 Et Er. exists NDir. split_and!; [done|done|by rewrite Et|]. rewrite Er. unfold s2. rewrite Er1. tally_tac. }
  assert (Hsd' : dir_at cwd (cs_tree s2) (path_join sbase (path_join rel n)) (n :: src)).
  { change (cs_tree s2) with (cs_tree s1). rewrite Et1.
    assert (dirs_stay (cs_tree s) (<[n :: dst := NDir]> (cs_tree s))) by (apply dirs_stay_insert; by rewrite Hv).
    eapply dir_at_stay; [done|]. by eapply dir_below. }
  apply pbind_inv in H3 as [(e & H3 & ->)|(u' & s3 & H3 & H4)];
    (eapply looked_at in H3 as (Et3 & Er3 & HN3 & _); [|intros d d' x; apply look_tree]).
  { split_and!; [congruence| |discriminate]. right. right. by apply HC. }
  rewrite <- Et3 in Hsd'.
  apply pbind_inv in H4 as [(e & H4 & ->)|(frame & s4 & H4 & [= <- <-])]; eapply open_frame_spec in H4 as (Et4 & Er4 & HN4 & Hf); try done.
  - split_and!; [congruence| |discriminate]. right. right. apply HC; congruence.
  - split_and!; [discriminate|apply HC; congruence|]. intros o [= <-]. split; [done|]. rewrite Et4. by apply Hf.
Qed.

Lemma copy_symlink_spec rel names src dst n target relative s s' r :
  relpath rel names -> plain_name n -> entry_place rel src dst n (cs_tree s) -> cs_tree s !! (n :: src) = Some (NLink target) ->
  copy_symlink h relative (path_join sbase (path_join rel n)) (path_join dbase (path_join rel n)) s = (s', r) ->
  r <> Err None /\ entry_outcome src dst n s s' (is_ok r).
Proof using source_given destination_given.
  intros Hr Hn [Hsd Hd Hv] Hs. unfold copy_symlink.
  intros [(e & H1 & ->)|(target' & s1 & H1 & H2)]%pbind_inv;
    (eapply looked_at in H1 as (Et1 & Er1 & HN1 & x & Hx & Ex); [|intros d d' y; apply look_tree]).
  { split; [congruence|]. left. unfold entry_unchanged. by rewrite Et1, Er1. }
  rewrite (Ex _ eq_refl) in Hx. apply look_ok in Hx. change (tree (cs_disk s)) with (cs_tree s) in Hx.
  rewrite (node_below cwd _ _ _ _ _ _ source_given Hr Hn Hsd), Hs in Hx. injection Hx as ->.
  apply pbind_inv in H2 as [(e & H2 & ->)|(l & s2 & H2 & [= <- <-])];
    eapply created_spec in H2 as (Er2 & HN2 & Et2); try done; try (by rewrite Et1); cbn [is_ok] in *.
  - split; [congruence|]. left. unfold entry_unchanged. by rewrite Et2, Er2, Et1, Er1.
  - split; [done|]. exists (NLink target'). split_and!; [done|done|unfold cs_tree in *; cbn; by rewrite Et2, Et1|].
    rewrite <- Er1, <- Er2. tally_tac.
Qed.

(** One entry of the traversal: copied as it is, or the run stops with the
    entry copied, not there, or its temporary left. *)
Lemma copy_entry_spec rel names src dst n s s' r :
  relpath rel names -> plain_name n -> entry_place rel src dst n (cs_tree s) ->
  copy_entry h request plan (path_join rel n) s = (s', r) ->
  r <> Err None /\ entry_outcome src dst n s s' (is_ok r) /\ (forall o, r = Ok o -> opened_as rel src dst n s s' o).
Proof using source_given destination_given.
  intros Hr Hn HP. pose proof HP as [Hsd Hd Hv]. unfold copy_entry.
  intros [(e & H1 & ->)|(node & s1 & H1 & H2)]%pbind_inv;
    (eapply looked_at in H1 as (Et1 & Er1 & HN1 & x & Hx & Ex); [|intros d d' y; apply look_tree]).
  { split_and!; [congruence| |discriminate]. left. unfold entry_unchanged. by rewrite Et1, Er1. }
  rewrite (Ex _ eq_refl) in Hx. apply look_ok in Hx. change (tree (cs_disk s)) with (cs_tree s) in Hx.
  rewrite (node_below cwd _ _ _ _ _ _ source_given Hr Hn Hsd) in Hx.
  destruct (cs_tree s !! (n :: src)) as [node'|] eqn:Hs; [|done]. injection Hx as ->.
  assert (HB : forall ok, entry_outcome src dst n s1 s' ok -> entry_outcome src dst n s s' ok).
  { unfold entry_outcome, entry_copied, entry_stopped, entry_unchanged, entry_left. intros ok.
    unfold entry_copied. by rewrite Et1, Er1. }
  rewrite <- Et1 in Hs, HP. destruct node as [|bytes|target|].
  - eapply copy_directory_spec in H2 as (HN & HO & Hop); try done. split_and!; [done|by apply HB|].
    intros o Eo. specialize (Hop o Eo). unfold opened_as in *. by rewrite Et1 in Hop.
  - apply pbind_inv in H2 as [(e & H2 & ->)|(u & s2 & H2 & [= <- <-])];
      eapply copy_file_spec in H2 as (HN & HO); try done; try (by destruct HP).
    + split_and!; [congruence|by apply HB|discriminate].
    + split_and!; [discriminate|by apply HB|]. intros o [= <-]. cbn [opened_as]. rewrite <- Et1, Hs. discriminate.
  - apply pbind_inv in H2 as [(e & H2 & ->)|(u & s2 & H2 & [= <- <-])];
      eapply copy_symlink_spec in H2 as (HN & HO); try done.
    + split_and!; [congruence|by apply HB|discriminate].
    + split_and!; [discriminate|by apply HB|]. intros o [= <-]. cbn [opened_as]. rewrite <- Et1, Hs. discriminate.
  - injection H2 as <- <-. split_and!; [discriminate| |discriminate]. left. unfold entry_unchanged. by rewrite Et1, Er1.
Qed.

End entry.
