(* ===== verification/TreeCopyWalk.v ===== *)
(** The tree copier's traversal (src/crates/refcopy/src/ordinary.rs,
    [CopyRun::walk]) as a relation of steps between stacks of open directories,
    the invariants of a run, and what a whole [copy_tree] does. *)

From S2P Require Export TreeCopyProofs.

#[local] Set Default Proof Using "Type".

Implicit Types (t : Tree) (l k : loc) (d : Disk).

(** ** The traversal as steps *)

Section traversal.
Context (h : Host) (request : CopyRequest) (plan : CopyPlan) (ls ld : loc).
Context (source_given : cq_source request <> []) (destination_given : cq_destination request <> []).

Abbreviation cwd := (h_cwd h).
Abbreviation sbase := (cq_source request).
Abbreviation dbase := (cq_destination request).

(** An open directory, [k] below the roots: its two directories are real, and
    its remaining names are distinct and not yet at the destination. *)
Record frame_ok t (f : Frame) (k : loc) : Prop := {
  fo_relative : relpath (fr_relative f) (reverse k);
  fo_source : dir_at cwd t (path_join sbase (fr_relative f)) (k ++ ls);
  fo_dir : dir_at cwd t (path_join dbase (fr_relative f)) (k ++ ld);
  fo_plain : Forall plain_name (fr_names f);
  fo_nodup : NoDup (fr_names f);
  fo_vacant : forall n, n ∈ fr_names f -> t !! (n :: k ++ ld) = None;
}.

(** The stack: each directory is in the one under it. *)
Inductive stack_ok t : list Frame -> loc -> Prop :=
| stack_root f : frame_ok t f [] -> stack_ok t [f] []
| stack_open f n k frames : frame_ok t f (n :: k) -> stack_ok t frames k -> stack_ok t (f :: frames) (n :: k).

Definition with_names (f : Frame) (names : list str) : Frame := mkFrame (fr_relative f) names (fr_permissions f).

(** The run, its stack, and how deep the top of the stack is. *)
Definition Config : Type := CopyState * list Frame * loc.

(** An iteration of the loop that does not stop. *)
Inductive walk_step : Config -> Config -> Prop :=
| step_close s s' f rest k :
    stack_ok (cs_tree s) (f :: rest) k -> fr_names f = [] -> entry_unchanged s s' ->
    walk_step (s, f :: rest, k) (s', rest, tail k)
| step_skip s s' f n names rest k :
    stack_ok (cs_tree s) (f :: rest) k -> fr_names f = n :: names ->
    is_excluded request (path_join (fr_relative f) n) = true -> entry_unchanged s s' ->
    walk_step (s, f :: rest, k) (s', with_names f names :: rest, k)
| step_entry s s' f n names rest k :
    stack_ok (cs_tree s) (f :: rest) k -> fr_names f = n :: names ->
    is_excluded request (path_join (fr_relative f) n) = false ->
    entry_copied (k ++ ls) (k ++ ld) n s s' -> cs_tree s !! (n :: k ++ ls) <> Some NDir ->
    walk_step (s, f :: rest, k) (s', with_names f names :: rest, k)
| step_open s s' f n names rest k frame :
    stack_ok (cs_tree s) (f :: rest) k -> fr_names f = n :: names ->
    is_excluded request (path_join (fr_relative f) n) = false ->
    entry_copied (k ++ ls) (k ++ ld) n s s' -> cs_tree s !! (n :: k ++ ls) = Some NDir ->
    frame = mkFrame (path_join (fr_relative f) n) (merge_sort str_le (children (cs_tree s') (n :: k ++ ls))) true ->
    walk_step (s, f :: rest, k) (s', frame :: with_names f names :: rest, n :: k).

(** How a run stops with an error. *)
Inductive walk_stop : Config -> CopyState -> Prop :=
| stop_between s s' frames k : entry_unchanged s s' -> walk_stop (s, frames, k) s'
| stop_entry s s' f n names rest k :
    stack_ok (cs_tree s) (f :: rest) k -> fr_names f = n :: names ->
    is_excluded request (path_join (fr_relative f) n) = false ->
    entry_stopped (k ++ ls) (k ++ ld) n s s' -> walk_stop (s, f :: rest, k) s'.

Lemma frame_stay t t' f k :
  dirs_stay t t' -> (forall n, n ∈ fr_names f -> t' !! (n :: k ++ ld) = t !! (n :: k ++ ld)) -> frame_ok t f k -> frame_ok t' f k.
Proof.
  intros HD HV [H1 H2 H3 H4 H5 H6]. split; [done|by eapply dir_at_stay..|done|done|]. intros n Hn. rewrite HV; [by apply H6|done].
Qed.

Lemma stack_below t frames k n node j :
  t !! (n :: j ++ ld) = None -> length k < length j -> stack_ok t frames k -> stack_ok (<[n :: j ++ ld := node]> t) frames k.
Proof.
  intros Hn Hl HS. assert (HD : dirs_stay t (<[n :: j ++ ld := node]> t)) by (apply dirs_stay_insert; by rewrite Hn).
  induction HS as [f Hf|f m k frames Hf HS IH]; cbn [length] in Hl.
  - apply stack_root. eapply frame_stay; [done| |done]. intros x _. rewrite lookup_insert_ne; [done|].
    intros [= _ E]. apply (app_inv_tail ld j []) in E. subst. cbn in Hl. lia.
  - apply stack_open; [|apply IH; lia]. eapply frame_stay; [done| |done]. intros x _. rewrite lookup_insert_ne; [done|].
    intros [= _ E]. apply (app_inv_tail ld j (m :: k)) in E. subst. cbn in Hl. lia.
Qed.

Lemma stack_top t f rest k : stack_ok t (f :: rest) k -> frame_ok t f k.
Proof. by inversion 1. Qed.

(** The top frame replaced by one with fewer names, after an insertion in it. *)
Lemma stack_insert t f rest k n names node :
  stack_ok t (f :: rest) k -> fr_names f = n :: names ->
  stack_ok (<[n :: k ++ ld := node]> t) (with_names f names :: rest) k.
Proof.
  intros HS En. pose proof (stack_top _ _ _ _ HS) as [F1 F2 F3 F4 F5 F6].
  assert (Hv : t !! (n :: k ++ ld) = None) by (apply F6; rewrite En; left).
  assert (HD : dirs_stay t (<[n :: k ++ ld := node]> t)) by (apply dirs_stay_insert; by rewrite Hv).
  rewrite En in F4, F5. apply NoDup_cons in F5 as [F5 F5']. apply Forall_cons in F4 as [_ F4].
  assert (HF : frame_ok (<[n :: k ++ ld := node]> t) (with_names f names) k).
  { split; cbn [fr_names fr_relative with_names]; [done|by eapply dir_at_stay..|done|done|]. intros x Hx.
    rewrite lookup_insert_ne by (intros [= ->]; done). apply F6. rewrite En. by right. }
  inversion HS as [|f' m k' frames Hf HS']; subst; [by apply stack_root|]. apply stack_open; [done|].
  by apply stack_below; [|cbn; lia|].
Qed.

Lemma stack_skip t f rest k n names :
  stack_ok t (f :: rest) k -> fr_names f = n :: names -> stack_ok t (with_names f names :: rest) k.
Proof.
  intros HS En. pose proof (stack_top _ _ _ _ HS) as [F1 F2 F3 F4 F5 F6].
  rewrite En in F4, F5. apply NoDup_cons in F5 as [F5 F5']. apply Forall_cons in F4 as [_ F4].
  assert (HF : frame_ok t (with_names f names) k).
  { split; cbn [fr_names fr_relative with_names]; try done. intros x Hx. apply F6. rewrite En. by right. }
  inversion HS; subst; [by apply stack_root|by apply stack_open].
Qed.

(** What the loop keeps of the tree and of its stack. *)
Record walking (c : Config) : Prop := {
  wk_wf : tree_wf (cs_tree c.1.1);
  wk_plain : names_plain (cs_tree c.1.1);
  wk_stack : c.1.2 = [] \/ stack_ok (cs_tree c.1.1) c.1.2 c.2;
}.

Lemma insert_wf t n l node :
  tree_wf t -> t !! (n :: l) = None -> node_at t l = Some NDir -> tree_wf (<[n :: l := node]> t).
Proof.
  intros HW Hv Hd m j Hm. assert (Hj : node_at t j = Some NDir).
  { destruct (decide (m :: j = n :: l)) as [[= -> ->]|Hne]; [done|]. apply (HW m). by rewrite lookup_insert_ne in Hm. }
  destruct j as [|x j]; [done|]. cbn [node_at] in *. rewrite lookup_insert_ne; [done|]. intros [= -> ->]. by rewrite Hv in Hj.
Qed.

Lemma insert_plain t n l node :
  names_plain t -> plain_name n -> node_at t l = Some NDir -> names_plain (<[n :: l := node]> t).
Proof.
  intros HP Hn Hd j x. destruct (decide (j = n :: l)) as [->|Hne].
  - intros _. constructor; [done|]. destruct l; [constructor|]. by eapply HP.
  - rewrite lookup_insert_ne by done. apply HP.
Qed.

Lemma opened_frame t f rest k n names :
  tree_wf t -> names_plain t -> stack_ok t (f :: rest) k -> fr_names f = n :: names -> t !! (n :: k ++ ls) = Some NDir ->
  let t' := <[n :: k ++ ld := NDir]> t in
  frame_ok t' (mkFrame (path_join (fr_relative f) n) (merge_sort str_le (children t' (n :: k ++ ls))) true) (n :: k).
Proof using source_given destination_given.
  intros HW HP HS En Hs t'. pose proof (stack_insert t f rest k n names NDir HS En) as HS'.
  destruct (stack_top _ _ _ _ HS) as [F1 F2 F3 F4 F5 F6]. rewrite En in F4. apply Forall_cons in F4 as [Fn _].
  assert (Hv : t !! (n :: k ++ ld) = None) by (apply F6; rewrite En; left).
  destruct (stack_top _ _ _ _ HS') as [G1 G2 G3 _ _ _]. cbn [fr_relative with_names] in *.
  assert (HW' : names_plain t') by (apply insert_plain; [done|done|apply F3]).
  assert (Hs' : t' !! (n :: k ++ ls) = Some NDir).
  { unfold t'. destruct (decide (n :: k ++ ls = n :: k ++ ld)) as [->|]; [by rewrite lookup_insert_eq|by rewrite lookup_insert_ne]. }
  split; cbn [fr_relative fr_names app].
  - rewrite reverse_cons. by apply relpath_join.
  - by eapply dir_below.
  - eapply dir_below; try done. unfold t'. by rewrite lookup_insert_eq.
  - rewrite merge_sort_Permutation. apply Forall_forall. intros x [node Hx]%children_elem. apply HW' in Hx. by apply Forall_cons in Hx as [? _].
  - rewrite merge_sort_Permutation. apply children_nodup.
  - intros x _. unfold t'. rewrite lookup_insert_ne by (intros [= _ E]; apply (f_equal length) in E; cbn in E; lia).
    apply not_dir_leaf; [done|]. cbn [node_at]. by rewrite Hv.
Qed.

Lemma step_walking c c' : walking c -> walk_step c c' -> walking c'.
Proof using source_given destination_given.
  intros [HW HP _] Hstep.
  assert (HI : forall s s' f n names rest k node, stack_ok (cs_tree s) (f :: rest) k -> fr_names f = n :: names ->
    cs_tree s' = <[n :: k ++ ld := node]> (cs_tree s) -> tree_wf (cs_tree s) -> names_plain (cs_tree s) ->
    tree_wf (cs_tree s') /\ names_plain (cs_tree s') /\ stack_ok (cs_tree s') (with_names f names :: rest) k).
  { intros s s' f n names rest k node HS En -> HW' HP'. destruct (stack_top _ _ _ _ HS) as [F1 F2 F3 F4 F5 F6].
    rewrite En in F4. assert (cs_tree s !! (n :: k ++ ld) = None) by (apply F6; rewrite En; left).
    apply Forall_cons in F4 as [Fn _]. split_and!; [by apply insert_wf; [..|apply F3]|by apply insert_plain; [..|apply F3]|by apply stack_insert]. }
  destruct Hstep as [s s' f rest k HS En [Et _]|s s' f n names rest k HS En _ [Et _]
    |s s' f n names rest k HS En _ (node & Hs & _ & Et & _) Hd|s s' f n names rest k frame HS En _ (node & Hs & _ & Et & _) Hd ->];
    cbn [fst snd] in *.
  - split; cbn [fst snd]; rewrite Et; [done|done|]. inversion HS; subst; [by left|by right].
  - split; cbn [fst snd]; rewrite Et; [done|done|]. right. by eapply stack_skip.
  - destruct (HI s s' f n names rest k node) as (HW' & HP' & HS'); try done. split; [done|done|by right].
  - destruct (HI s s' f n names rest k node) as (HW' & HP' & HS'); try done. split; [done|done|right; cbn [fst snd]].
    apply stack_open; [|done]. rewrite Hd in Hs. injection Hs as <-. rewrite Et. by eapply opened_frame.
Qed.

Lemma entry_unchanged_trans s1 s2 s3 : entry_unchanged s1 s2 -> entry_unchanged s2 s3 -> entry_unchanged s1 s3.
Proof. unfold entry_unchanged. intros [] []. split; congruence. Qed.

(** An iteration of the loop is a step, or the run stops. *)
Lemma walk_frames_step fuel f rest k s s' r :
  walking (s, f :: rest, k) -> walk_frames h request plan (S fuel) (f :: rest) s = (s', r) ->
  (exists s1 frames k1, walk_step (s, f :: rest, k) (s1, frames, k1) /\ walk_frames h request plan fuel frames s1 = (s', r)) \/
  (exists e, r = Err (Some e)) /\ walk_stop (s, f :: rest, k) s'.
Proof using source_given destination_given.
  intros [HW HP [[=]|HS]]. cbn [fst snd] in *. cbn [walk_frames]. destruct (fr_names f) as [|n names] eqn:En.
  - intros [(e & H1 & ->)|(u & s1 & H1 & H2)]%pbind_inv.
    + right. unfold finish_directory in H1. destruct (fr_permissions f); [|done].
      eapply looked_at in H1 as (Et1 & Er1 & HN1 & _); [|intros d d' x; apply look_tree].
      split; [|left; split; congruence]. destruct e; [eauto|done].
    + left. exists s1, rest, (tail k). split; [|done]. apply step_close; [done..|]. unfold finish_directory in H1.
      destruct (fr_permissions f); [|by injection H1 as <-].
      eapply looked_at in H1 as (Et1 & Er1 & HN1 & _); [|intros d d' x; apply look_tree]. split; congruence.
  - set (relative := path_join (fr_relative f) n). intros [(e & H1 & ->)|(c & s1 & H1 & H2)]%pbind_inv; [done|].
    unfold on_disk, poll in H1. injection H1 as <- <-. match type of H2 with _ ?x = _ => set (s1 := x) in H2 end.
    assert (H1 : entry_unchanged s s1) by done.
    destruct (h_cancel h _); [right; injection H2 as <- <-; split; [eauto|by left]|].
    destruct (is_excluded request relative) eqn:Ex.
    { left. eexists s1, _, k. split; [|exact H2]. by eapply step_skip. }
    destruct (stack_top _ _ _ _ HS) as [F1 F2 F3 F4 F5 F6]. rewrite En in F4. apply Forall_cons in F4 as [Fn _].
    assert (HE : entry_place h request (fr_relative f) (k ++ ls) (k ++ ld) n (cs_tree s1)).
    { split; [done|done|]. apply F6. rewrite En. left. }
    apply pbind_inv in H2 as [(e & H2 & ->)|(o & s2 & H2 & H3)]; eapply copy_entry_spec in H2 as (HN & HO & Ho); try done.
    + right. cbn [is_ok entry_outcome] in HO. split; [destruct e; [eauto|done]|]. by eapply stop_entry.
    + left. specialize (Ho _ eq_refl). destruct o as [frame|]; eexists s2, _, _; (split; [|exact H3]).
      * destruct Ho as [Hd Hf]. by eapply step_open.
      * by eapply step_entry.
Qed.

(** A run of the loop is a sequence of steps: to the empty stack, to a stop, or
    as many as the fuel. *)
Lemma walk_run fuel frames k s s' r :
  walking (s, frames, k) -> walk_frames h request plan fuel frames s = (s', r) ->
  exists n c, nsteps walk_step n (s, frames, k) c /\ walking c /\
    match r with
    | Ok _ => c.1 = (s', [])
    | Err (Some _) => walk_stop c s'
    | Err None => n = fuel /\ c.1.1 = s'
    end.
Proof using source_given destination_given.
  revert frames k s. induction fuel as [|fuel IH]; intros frames k s HW.
  { intros [= <- <-]. exists 0, (s, frames, k). split_and!; [constructor|done..]. }
  destruct frames as [|f rest]; [intros [= <- <-]; exists 0, (s, [], k); split_and!; [constructor|done..]|].
  intros [(s1 & frames & k1 & Hs & Hr)|[[e ->] Hs]]%(walk_frames_step _ _ _ k); [| |done].
  - apply (IH _ k1) in Hr as (n & c & Hn & HWc & Hc); [|by eapply step_walking].
    exists (S n), c. split_and!; [by econstructor|done|]. destruct r as [|[]]; [done..|]. destruct Hc. by subst.
  - exists 0, (s, f :: rest, k). split_and!; [constructor|done..].
Qed.

(** *** Where the run writes *)

Definition confined (t1 : Tree) (c : Config) : Prop :=
  t1 ⊆ cs_tree c.1.1 /\ forall l, t1 !! l = None -> is_Some (cs_tree c.1.1 !! l) -> ld `suffix_of` l.

Lemma confined_insert t1 t n k node :
  t !! (n :: k ++ ld) = None -> t1 ⊆ t -> (forall l, t1 !! l = None -> is_Some (t !! l) -> ld `suffix_of` l) ->
  t1 ⊆ <[n :: k ++ ld := node]> t /\ forall l, t1 !! l = None -> is_Some (<[n :: k ++ ld := node]> t !! l) -> ld `suffix_of` l.
Proof.
  intros Hv HG HN. split; [by apply insert_subseteq_r; [eapply lookup_weaken_None|]|]. intros l H1.
  destruct (decide (l = n :: k ++ ld)) as [->|]; [intros _; by exists (n :: k)|]. rewrite lookup_insert_ne by done. by apply HN.
Qed.

Lemma step_entry_at c c' : walk_step c c' ->
  (cs_tree c'.1.1 = cs_tree c.1.1 /\ tally (cs_report c'.1.1) = tally (cs_report c.1.1)) \/
  exists n, entry_copied (c.2 ++ ls) (c.2 ++ ld) n c.1.1 c'.1.1 /\ cs_tree c.1.1 !! (n :: c.2 ++ ld) = None /\
    is_excluded request (join_with c_slash (reverse (n :: c.2))) = false.
Proof.
  assert (HR : forall t f rest n names k, stack_ok t (f :: rest) k -> fr_names f = n :: names ->
    t !! (n :: k ++ ld) = None /\ path_join (fr_relative f) n = join_with c_slash (reverse (n :: k))).
  { intros t f rest n names k HS En. destruct (stack_top _ _ _ _ HS) as [F1 _ _ F4 _ F6]. rewrite En in F4.
    apply Forall_cons in F4 as [Fn _]. split; [apply F6; rewrite En; left|].
    rewrite reverse_cons. by apply relpath_join. }
  destruct 1 as [s s' f rest k HS En HU|s s' f n names rest k HS En Hx HU
    |s s' f n names rest k HS En Hx HC Hd|s s' f n names rest k frame HS En Hx HC Hd ->]; cbn [fst snd].
  - by left.
  - by left.
  - right. destruct (HR _ _ _ _ _ _ HS En) as [Hv E]. exists n. by rewrite <- E.
  - right. destruct (HR _ _ _ _ _ _ HS En) as [Hv E]. exists n. by rewrite <- E.
Qed.

Lemma stop_entry_at c s' : walk_stop c s' ->
  (cs_tree s' = cs_tree c.1.1 /\ tally (cs_report s') = tally (cs_report c.1.1)) \/
  (exists n, entry_copied (c.2 ++ ls) (c.2 ++ ld) n c.1.1 s' /\ cs_tree c.1.1 !! (n :: c.2 ++ ld) = None /\
    is_excluded request (join_with c_slash (reverse (n :: c.2))) = false) \/
  entry_left (c.2 ++ ld) c.1.1 s'.
Proof.
  destruct 1 as [s s' frames k HU|s s' f n names rest k HS En Hx HC]; cbn [fst snd]; [by left|].
  destruct (stack_top _ _ _ _ HS) as [F1 _ _ F4 _ F6]. rewrite En in F4. apply Forall_cons in F4 as [Fn _].
  destruct HC as [HU|[HL|HC]]; [by left|by right; right|right; left]. exists n. split; [done|].
  split; [apply F6; rewrite En; left|]. rewrite reverse_cons. by destruct (relpath_join _ _ _ F1 Fn) as [<- _].
Qed.

Lemma step_confined t1 c c' : confined t1 c -> walk_step c c' -> confined t1 c'.
Proof.
  intros [HG HN] [[Et _]|(n & (node & _ & _ & Et & _) & Hv & _)]%step_entry_at; unfold confined; rewrite Et; [done|].
  by apply (confined_insert _ _ n).
Qed.

Lemma stop_confined t1 c s' : confined t1 c -> walk_stop c s' -> confined t1 (s', [], []).
Proof.
  intros [HG HN] [[Et _]|[(n & (node & _ & _ & Et & _) & Hv & _)|(n & b & Hv & Et & _)]]%stop_entry_at;
    unfold confined; cbn [fst]; rewrite Et; [done|by apply (confined_insert _ _ n)..].
Qed.

Lemma nsteps_keep (P : Config -> Prop) n c c' :
  (forall c c', P c -> walk_step c c' -> P c') -> P c -> nsteps walk_step n c c' -> P c'.
Proof. intros HP Hc Hn. induction Hn; eauto. Qed.

Lemma walk_confined t1 fuel frames k s s' r :
  walking (s, frames, k) -> confined t1 (s, frames, k) -> walk_frames h request plan fuel frames s = (s', r) ->
  confined t1 (s', [], []).
Proof using source_given destination_given.
  intros HW HC (n & c & Hn & _ & Hc)%(walk_run _ _ k); [|done].
  assert (confined t1 c) by (eapply nsteps_keep; [|done..]; by apply step_confined).
  destruct r as [u|[e|]]; [by destruct c as [[] ?]; simplify_eq/=|by eapply stop_confined|].
  destruct Hc as [_ <-]. by destruct c as [[] ?].
Qed.

(** *** What the run writes *)

Section content.
Context (t1 : Tree).
Context (wf1 : tree_wf t1) (plain1 : names_plain t1).
Context (apart : forall j x, x <> [] -> x ++ ld <> j ++ ls).

Definition left_out (j : loc) : bool := is_excluded request (join_with c_slash (reverse j)).

(** Every new entry is a copy of an entry of the source that is not left out,
    and [c] counts them. *)
Record copied (t : Tree) (c : Tally) : Prop := {
  cp_grows : t1 ⊆ t;
  cp_new l node : t !! l = Some node -> t1 !! l = None ->
    exists j, j <> [] /\ l = j ++ ld /\ left_out j = false /\ t1 !! (j ++ ls) = Some node;
  cp_count : c = entries_tally (t ∖ t1);
}.

Lemma copied_source t c j : copied t c -> t !! (j ++ ls) = t1 !! (j ++ ls).
Proof using apart.
  intros [HG HN _]. destruct (t1 !! (j ++ ls)) as [node|] eqn:E1; [by eapply lookup_weaken|].
  destruct (t !! (j ++ ls)) as [node|] eqn:E; [|done]. destruct (HN _ _ E E1) as (x & Hx & He & _). by destruct (apart j x Hx).
Qed.

Lemma difference_insert_new t l node : t1 !! l = None -> <[l := node]> t ∖ t1 = <[l := node]> (t ∖ t1).
Proof.
  intros H1. apply map_eq. intros l'. rewrite lookup_difference. destruct (decide (l' = l)) as [->|].
  - by rewrite !lookup_insert_eq, H1.
  - by rewrite !lookup_insert_ne, lookup_difference by done.
Qed.

Lemma copied_insert t c n k node :
  copied t c -> t !! (n :: k ++ ld) = None -> left_out (n :: k) = false -> t !! (n :: k ++ ls) = Some node ->
  copied (<[n :: k ++ ld := node]> t) (tally_add c (node_tally node)).
Proof using apart.
  intros HC Hv Hx Hs. pose proof HC as [HG HN Hc]. assert (H1 : t1 !! (n :: k ++ ld) = None) by (by eapply lookup_weaken_None).
  split.
  - by apply insert_subseteq_r.
  - intros l x Hl Hl1. destruct (decide (l = n :: k ++ ld)) as [->|].
    + rewrite lookup_insert_eq in Hl. injection Hl as ->. exists (n :: k). split_and!; [done..|].
      rewrite <- (copied_source _ _ (n :: k) HC). done.
    + rewrite lookup_insert_ne in Hl by done. by apply HN.
  - rewrite difference_insert_new, entries_tally_insert, Hc; [done| |done]. apply lookup_difference_None. by left.
Qed.

Definition copied_run (s : CopyState) : Prop := copied (cs_tree s) (tally (cs_report s)).

Lemma step_copied (c c' : Config) : copied_run c.1.1 -> walk_step c c' -> copied_run c'.1.1.
Proof using apart.
  intros HC [[Et Er]|(n & (node & Hs & _ & Et & Er) & Hv & Hx)]%step_entry_at; unfold copied_run; rewrite Et, Er; [done|].
  by apply copied_insert.
Qed.

(** A run that stops leaves copies, and at most one file that is not one. *)
Definition stopped_run (s' : CopyState) : Prop :=
  copied_run s' \/ exists t m k b, copied t (tally (cs_report s')) /\ t !! (m :: k ++ ld) = None /\
    cs_tree s' = <[m :: k ++ ld := NFile b]> t.

Lemma stop_copied (c : Config) s' : copied_run c.1.1 -> walk_stop c s' -> stopped_run s'.
Proof using apart.
  intros HC [[Et Er]|[(n & (node & Hs & _ & Et & Er) & Hv & Hx)|(m & b & Hv & Et & Er)]]%stop_entry_at; unfold stopped_run, copied_run.
  - left. by rewrite Et, Er.
  - left. rewrite Et, Er. by apply copied_insert.
  - right. exists (cs_tree c.1.1), m, c.2, b. by rewrite Er.
Qed.

(** *** All of it *)

Fixpoint pending (frames : list Frame) (k : loc) (j : loc) : Prop :=
  match frames with
  | [] => False
  | f :: rest => (exists n, n ∈ fr_names f /\ (n :: k) `suffix_of` j) \/ pending rest (tail k) j
  end.

(** Every entry of the source is left out, copied or still to come. *)
Definition covered (c : Config) : Prop :=
  forall j node, j <> [] -> t1 !! (j ++ ls) = Some node ->
    left_out j = true \/ cs_tree c.1.1 !! (j ++ ld) = Some node \/ pending c.1.2 c.2 j.

Lemma left_out_below n k j : (n :: k) `suffix_of` j -> Forall plain_name j -> left_out (n :: k) = true -> left_out j = true.
Proof.
  intros [x ->] Hp. unfold left_out, is_excluded. rewrite !existsb_exists. intros ([excluded] & Hin & He). exists (RelativePath excluded).
  split; [done|]. cbn [exclusion_matches] in *. unfold path_starts_with in *. apply bool_decide_eq_true in He. apply bool_decide_eq_true.
  assert (H1 : relpath (join_with c_slash (reverse (x ++ n :: k))) (reverse (x ++ n :: k))) by (split; [done|by rewrite reverse_Permutation]).
  apply Forall_app in Hp as [_ Hp].
  assert (H2 : relpath (join_with c_slash (reverse (n :: k))) (reverse (n :: k))) by (split; [done|by rewrite reverse_Permutation]).
  apply relpath_spec in H1 as [-> _]. apply relpath_spec in H2 as [E2 _]. rewrite E2 in He.
  rewrite reverse_app, fmap_app. by apply prefix_app_r.
Qed.

Lemma above_dir x l : x <> [] -> is_Some (t1 !! (x ++ l)) -> node_at t1 l = Some NDir.
Proof using wf1.
  induction x as [|m x IH]; [done|]. intros _ Hx%wf1. destruct x as [|m' x]; [done|]. apply IH; [done|].
  exists NDir. exact Hx.
Qed.

Lemma suffix_cases (l j : loc) : l `suffix_of` j -> j = l \/ exists m, (m :: l) `suffix_of` j.
Proof.
  intros [x ->]. destruct (snoc_inv x) as [->|(x' & m & ->)]; [by left|]. right. exists m, x'. by rewrite <- app_assoc.
Qed.

(** Copying the first of the names left in the top directory. *)
Lemma covered_copy s s' f n names rest k node frames k' :
  covered (s, f :: rest, k) -> fr_names f = n :: names -> copied_run s ->
  cs_tree s !! (n :: k ++ ls) = Some node -> cs_tree s !! (n :: k ++ ld) = None -> cs_tree s' = <[n :: k ++ ld := node]> (cs_tree s) ->
  (forall j, pending (with_names f names :: rest) k j -> pending frames k' j) ->
  (node = NDir -> forall m j, is_Some (t1 !! (m :: n :: k ++ ls)) -> (m :: n :: k) `suffix_of` j -> pending frames k' j) ->
  covered (s', frames, k').
Proof using wf1 apart.
  intros HC En HR Hs Hv Et Hk Hd j x Hj Hjx. cbn [fst snd]. rewrite Et.
  rewrite (copied_source _ _ (n :: k) HR : cs_tree s !! (n :: k ++ ls) = _) in Hs.
  destruct (HC j x Hj Hjx) as [H|[H|H]]; [by left|right; left|]; cbn [fst snd] in H.
  { rewrite lookup_insert_ne; [done|]. intros E. rewrite E in Hv. congruence. }
  cbn [pending] in H. destruct H as [(m & Hm & Hsuf)|H]; [|right; right; apply Hk; by right].
  rewrite En in Hm. apply elem_of_cons in Hm as [->|Hm]; [|right; right; apply Hk; left; by exists m].
  destruct (suffix_cases _ _ Hsuf) as [->|[m Hm]].
  - right. left. cbn [app] in *. rewrite lookup_insert_eq. congruence.
  - right. right. assert (Ht : is_Some (t1 !! (m :: n :: k ++ ls))).
    { destruct Hm as [y ->]. rewrite <- app_assoc in Hjx. destruct y as [|y0 y]; [eauto|].
      assert (Hn : node_at t1 ((m :: n :: k) ++ ls) = Some NDir) by (by eapply (above_dir (y0 :: y))). by exists NDir. }
    assert (H0 : t1 !! (n :: k ++ ls) = Some NDir) by exact (wf1 _ _ Ht).
    assert (node = NDir) as HD by (change ((n :: k) ++ ls) with (n :: (k ++ ls)) in Hs; congruence). by apply (Hd HD m).
Qed.

Lemma step_covered (c c' : Config) : copied_run c.1.1 -> covered c -> walk_step c c' -> covered c'.
Proof using wf1 apart plain1.
  intros HR HC Hstep. destruct Hstep as [s s' f rest k HS En [Et _]|s s' f n names rest k HS En Hx [Et _]
    |s s' f n names rest k HS En Hx (node & Hs & _ & Et & _) Hd|s s' f n names rest k frame HS En Hx (node & Hs & _ & Et & _) Hd ->];
    cbn [fst snd] in HR; pose proof (stack_top _ _ _ _ HS) as [F1 _ _ F4 _ F6].
  - intros j x Hj Hjx. cbn [fst snd]. rewrite Et. destruct (HC j x Hj Hjx) as [H|[H|[(n & Hn & _)|H]]]; [by left|by right; left| |by right; right].
    rewrite En in Hn. by apply elem_of_nil in Hn.
  - intros j x Hj Hjx. cbn [fst snd]. rewrite Et. destruct (HC j x Hj Hjx) as [H|[H|[(m & Hm & Hsuf)|H]]]; [by left|by right; left| |by right; right; right].
    rewrite En in Hm, F4. apply Forall_cons in F4 as [Fn _].
    apply elem_of_cons in Hm as [->|Hm]; [left|right; right; left; by exists m].
    eapply left_out_below; [done|by apply plain1, Forall_app in Hjx as [? _]|].
    unfold left_out. rewrite reverse_cons. cbn [snd]. by destruct (relpath_join _ _ _ F1 Fn) as [<- _].
  - apply (covered_copy s s' f n names rest k node); try done; [apply F6; rewrite En; left|]. intros ->. by destruct Hd.
  - apply (covered_copy s s' f n names rest k node); try done; [apply F6; rewrite En; left|intros j Hj; by right|].
    intros _ m j Hm Hsuf. left. exists m. split; [|done]. cbn [fr_names]. rewrite merge_sort_Permutation, children_elem.
    destruct Hm as [y Hm]. exists y. rewrite Et, lookup_insert_ne; [by rewrite <- Hm; apply (copied_source _ _ (m :: n :: k) HR)|]. intros E. apply (apart (m :: n :: k) (n :: k)); [done|exact E].
Qed.

(** *** The end of the traversal *)

Definition entry_work (k : loc) (n : str) : nat :=
  S (match t1 !! (n :: k ++ ls) with Some NDir => traversal_cost (depth t1 - length k) t1 (n :: k ++ ls) | _ => 0 end).

Fixpoint stack_work (frames : list Frame) (k : loc) : nat :=
  match frames with
  | [] => 0
  | f :: rest => S (sum_list_with (entry_work k) (fr_names f)) + stack_work rest (tail k)
  end.

Lemma children_same t c k : copied t c -> children t (k ++ ls) ≡ₚ children t1 (k ++ ls).
Proof using apart.
  intros HC. apply NoDup_Permutation; [apply children_nodup..|]. intros n. rewrite !children_elem.
  by rewrite (copied_source _ _ (n :: k) HC : t !! (n :: k ++ ls) = _).
Qed.

Lemma whole_work k : length k <= depth t1 ->
  S (sum_list_with (entry_work k) (children t1 (k ++ ls))) = traversal_cost (S (depth t1) - length k) t1 (k ++ ls).
Proof. intros Hk. by replace (S (depth t1) - length k) with (S (depth t1 - length k)) by lia. Qed.

Lemma step_work (c c' : Config) : copied_run c.1.1 -> copied_run c'.1.1 -> walk_step c c' ->
  stack_work c'.1.2 c'.2 < stack_work c.1.2 c.2.
Proof using apart.
  intros HR HR' Hstep. destruct Hstep as [s s' f rest k HS En _|s s' f n names rest k HS En Hx _
    |s s' f n names rest k HS En Hx _ Hd|s s' f n names rest k frame HS En Hx _ Hd ->]; cbn [fst snd stack_work] in *; rewrite En;
    cbn [fr_names with_names sum_list_with]; [lia|unfold entry_work at 2; lia..|]. fold (sum_list_with (A := str)).
  rewrite merge_sort_Permutation, (children_same _ _ (n :: k) HR'). cbn [tail].
  rewrite (copied_source _ _ (n :: k) HR : cs_tree s !! (n :: k ++ ls) = _) in Hd.
  pose proof (depth_bound _ _ _ Hd) as HB. rewrite length_app in HB. cbn [length] in HB.
  rewrite whole_work by (cbn; lia). unfold entry_work at 2. 
  rewrite (Hd : t1 !! (n :: k ++ ls) = _). cbn [length app]. replace (S (depth t1) - S (length k)) with (depth t1 - length k) by lia. lia.
Qed.

Lemma nsteps_work n c c' : copied_run c.1.1 -> nsteps walk_step n c c' -> n + stack_work c'.1.2 c'.2 <= stack_work c.1.2 c.2.
Proof using apart.
  intros HR Hn. induction Hn as [c|n c c1 c' Hs Hn IH]; [lia|]. pose proof (step_copied _ _ HR Hs) as HR1.
  specialize (IH HR1). pose proof (step_work _ _ HR HR1 Hs). lia.
Qed.

(** The traversal with fuel for its work ends; the report counts what it made,
    and the end of a run that succeeds has all of the source. *)
Lemma walk_exact fuel frames k s s' r :
  walking (s, frames, k) -> copied_run s -> covered (s, frames, k) -> stack_work frames k < fuel ->
  walk_frames h request plan fuel frames s = (s', r) ->
  match r with
  | Ok _ => copied_run s' /\ forall j node, j <> [] -> t1 !! (j ++ ls) = Some node -> left_out j = true \/ cs_tree s' !! (j ++ ld) = Some node
  | Err (Some _) => stopped_run s'
  | Err None => False
  end.
Proof using source_given destination_given wf1 plain1 apart.
  intros HW HR HC Hf (n & c & Hn & _ & Hc)%(walk_run _ _ k); [|done].
  pose proof (nsteps_work _ (s, frames, k) _ HR Hn) as Hwork. cbn [fst snd] in Hwork.
  assert (copied_run c.1.1 /\ covered c) as [HRc HCc].
  { apply (nsteps_keep (fun c => copied_run c.1.1 /\ covered c) n (s, frames, k)); [|by split|exact Hn].
    intros c1 c2 [HR1 HC1] Hs. split; [by eapply step_copied|by eapply step_covered]. }
  destruct r as [u|[e|]].
  - destruct c as [[s1 frames1] k1]. cbn [fst] in Hc. injection Hc as -> ->. split; [done|].
    intros j node Hj Hjn. destruct (HCc j node Hj Hjn) as [H|[H|[]]]; [by left|by right].
  - by eapply stop_copied.
  - destruct Hc as [-> _]. lia.
Qed.

End content.

End traversal.

(** ** A whole copy *)

Lemma walk_there links t cur todo l :
  tree_wf t -> node_at t cur = Some NDir -> walk links t cur todo = Ok l -> is_Some (node_at t l).
Proof.
  intros HW. revert cur todo. induction links as [links IH] using lt_wf_ind. intros cur todo.
  revert cur. induction todo as [|c todo IHt]; intros cur Hn Hw.
  { assert (l = cur) as -> by (destruct links; by injection Hw). by rewrite Hn. }
  destruct c as [| | |n].
  - apply (IHt []); [done|by destruct links].
  - apply (IHt cur); [done|by destruct links].
  - apply (IHt (tail cur)); [|by destruct links]. destruct cur as [|m cur]; [done|]. by apply (HW m); exists NDir.
  - destruct (t !! (n :: cur)) as [node|] eqn:En.
    2: { destruct links; cbn [walk] in Hw; by rewrite En in Hw. }
    destruct links as [|links]; cbn [walk] in Hw; rewrite En in Hw; destruct node; try done;
      try (apply (IHt (n :: cur)); [exact En|exact Hw]);
      try (case_bool_decide; [injection Hw as <-|done]; by eexists).
    apply (IH links) in Hw; [done|lia|done].
Qed.

Lemma dir_at_root cwd t base l : base <> [] -> dir_at cwd t base l -> dir_at cwd t (path_join base []) l.
Proof.
  intros Hb [Hc Hn]. split; [|done]. unfold canonical, start in *.
  rewrite (below_components base [] [] Hb relpath_root), (below_absolute base [] [] Hb relpath_root), app_nil_r.
  rewrite bool_decide_false in Hc by done. rewrite bool_decide_false; [done|]. by eapply below_nonempty, relpath_root.
Qed.

Lemma sum_list_with_ext {A} (f g : A -> nat) (l : list A) : (forall x, x ∈ l -> f x = g x) -> sum_list_with f l = sum_list_with g l.
Proof.
  induction l as [|x l IH]; intros H; [done|]. cbn [sum_list_with]. f_equal; [apply H; left|]. apply IH. intros y Hy. apply H. by right.
Qed.

Lemma children_none t l : (forall x, x <> [] -> t !! (x ++ l) = None) -> children t l = [].
Proof.
  intros H. destruct (children t l) as [|n ns] eqn:E; [done|]. assert (Hn : n ∈ children t l) by (rewrite E; left).
  apply children_elem in Hn as [node Hn]. by rewrite (H [n] ltac:(done) : t !! (n :: l) = None) in Hn.
Qed.

(** The cost depends on what is below the location only, for depths that
    reach all of it. *)
Lemma traversal_cost_same t t' l a b :
  (forall x, x <> [] -> t !! (x ++ l) = t' !! (x ++ l)) ->
  (forall x, x <> [] -> is_Some (t !! (x ++ l)) -> length x < a /\ length x < b) ->
  traversal_cost a t l = traversal_cost b t' l.
Proof.
  revert b l. induction a as [|a IH]; intros b l Hs Hb.
  { assert (Hn : forall x, x <> [] -> t !! (x ++ l) = None) by (intros x Hx; apply eq_None_not_Some; intros H; destruct (Hb x Hx H); lia).
    destruct b; [done|]. cbn [traversal_cost]. rewrite (children_none t'); [done|]. intros x Hx. by rewrite <- Hs, Hn. }
  destruct b as [|b].
  { assert (Hn : forall x, x <> [] -> t !! (x ++ l) = None) by (intros x Hx; apply eq_None_not_Some; intros H; destruct (Hb x Hx H); lia).
    cbn [traversal_cost]. by rewrite (children_none t). }
  cbn [traversal_cost]. f_equal. assert (HP : children t l ≡ₚ children t' l).
  { apply NoDup_Permutation; [apply children_nodup..|]. intros n. rewrite !children_elem. by rewrite (Hs [n] ltac:(done) : t !! (n :: l) = _). }
  rewrite HP. apply sum_list_with_ext. intros n _. f_equal. rewrite (Hs [n] ltac:(done) : t !! (n :: l) = t' !! (n :: l)).
  assert (HA : forall x : loc, x ++ n :: l = (x ++ [n]) ++ l) by (intros x; by rewrite <- app_assoc).
  destruct (t' !! (n :: l)) as [[]|]; try done. apply IH; intros x Hx; rewrite HA; [apply Hs; by destruct x|].
  intros H. apply Hb in H; [|by destruct x]. rewrite length_app in H. cbn in H. lia.
Qed.

Lemma entry_plain cwd t p l :
  tree_wf t -> names_plain t -> node_at t cwd = Some NDir -> entry cwd t p = Ok l -> Forall plain_name l.
Proof.
  intros HW HP Hc. assert (HN : forall j, is_Some (node_at t j) -> Forall plain_name j).
  { intros [|n j] [node Hj]; [constructor|by eapply HP]. }
  assert (HC : canonical cwd t p = Ok l -> Forall plain_name l).
  { unfold canonical. case_bool_decide as Hp; [done|]. intros H. apply HN. eapply walk_there; [done| |exact H].
    unfold start. by destruct (is_absolute p). }
  unfold entry. destruct (last (path_components p)) as [[| | |n]|] eqn:El; try exact HC.
  intros (l' & _ & He)%rbind_ok. destruct (node_at t l') as [[]|] eqn:En; try done. injection He as <-. constructor.
  - apply (components_plain p). apply last_Some in El as [cs ->]. apply elem_of_app. right. left.
  - destruct l' as [|m l']; [constructor|by eapply HP].
Qed.

Section whole.
Context (h : Host) (request : CopyRequest).

Abbreviation cwd := (h_cwd h).
Abbreviation sbase := (cq_source request).
Abbreviation dbase := (cq_destination request).

Definition counted_nothing (e : CopyError) : Prop := tally (ce_partial e) = (0, 0, 0, 0)%N.

Lemma quiet_real_path p : quiet (real_path (h_fault h) cwd p).
Proof. unfold real_path. quiet_tac. Qed.
#[local] Hint Resolve quiet_real_path : quiet.

Lemma quiet_resolve {E} fuel p trailing : quiet (resolve_new_path (E := E) h fuel p trailing).
Proof. revert p trailing. induction fuel as [|fuel IH]; intros p trailing; cbn [resolve_new_path]; quiet_tac. Qed.
#[local] Hint Resolve quiet_resolve : quiet.

Lemma quiet_overlap : quiet (refuse_overlap h request).
Proof. unfold refuse_overlap. quiet_tac. Qed.

Lemma quiet_device {E} p : quiet (device_of (E := E) h p).
Proof. unfold device_of. quiet_tac. Qed.
#[local] Hint Resolve quiet_device : quiet.

Lemma quiet_nearest {E} fuel p : quiet (device_of_nearest_existing (E := E) h fuel p).
Proof. revert p. induction fuel as [|fuel IH]; intros p; cbn [device_of_nearest_existing]; quiet_tac. Qed.
#[local] Hint Resolve quiet_nearest : quiet.

Lemma quiet_plan {E} : quiet (for_request (E := E) h request).
Proof. unfold for_request, probe. quiet_tac. Qed.

Lemma reports_case {A B E F} (P : F -> Prop) (m : proc Disk A E) (k : result A E -> proc Disk B F) :
  (forall r, reports P (k r)) -> reports P (pcase m k).
Proof. intros Hk d d' e (r & d1 & _ & H%Hk)%pcase_inv. done. Qed.

Lemma resolve_answers {E} fuel p trailing d d' e : resolve_new_path (E := E) h fuel p trailing d <> (d', Err e).
Proof.
  intros H. cut (reports (fun _ => False) (resolve_new_path (E := E) h fuel p trailing)); [intros HR; exact (HR _ _ _ H)|].
  clear. revert p trailing. induction fuel as [|fuel IH]; intros p trailing; cbn [resolve_new_path]; apply reports_case; intros r;
    repeat (case_match; try apply reports_ret; try apply IH).
Qed.

Lemma overlap_counted : reports counted_nothing (refuse_overlap h request).
Proof.
  unfold refuse_overlap. apply reports_bind; [by apply reports_map_err|intros source].
  apply reports_bind; [intros d d' e H; by destruct (resolve_answers _ _ _ _ _ _ H)|intros [destination|]; [|apply reports_ret]].
  case_match; [by apply reports_fail|]. apply reports_bind; [apply reports_case; intros r; apply reports_ret|intros there].
  case_match; [by apply reports_fail|apply reports_ret].
Qed.

Lemma admit_source_spec d d' r :
  admit_source h request d = (d', r) ->
  tree d' = tree d /\ match r with Ok _ => exists ls, dir_at cwd (tree d) sbase ls | Err e => counted_nothing e end.
Proof.
  unfold admit_source. intros [(e & (r0 & H1%look_tree & He)%pmap_err_inv & ->)|(node & d1 & (r0 & H1 & Hr)%pmap_err_inv & H2)]%pbind_inv.
  { split; [done|]. destruct r0; simplify_eq/=. done. }
  pose proof (look_tree _ _ _ _ _ H1) as Et. destruct r0 as [node'|]; [|done]. injection Hr as ->. apply look_ok in H1.
  destruct node'; injection H2 as <- <-; (split; [done|]); try done. unfold lstat in H1. apply rbind_ok in H1 as (l & He & Hn).
  destruct (node_at (tree d) l) as [node|] eqn:En; [|done]. injection Hn as ->. exists l. split; [by apply entry_dir_canonical|done].
Qed.

(** A destination that was admitted: an empty directory, made now or found. *)
Record placed t t' ld : Prop := {
  pl_named : entry cwd t dbase = Ok ld;
  pl_dir : dir_at cwd t' dbase ld;
  pl_empty m : t' !! (m :: ld) = None;
  pl_tree : t' = t \/ ld <> [] /\ t !! ld = None /\ t' = <[ld := NDir]> t;
  pl_wf : tree_wf t';
  pl_plain : names_plain t';
}.

Lemma admitted_new t ld :
  tree_wf t -> names_plain t -> node_at t cwd = Some NDir -> entry cwd t dbase = Ok ld -> node_at t ld = None ->
  placed t (<[ld := NDir]> t) ld.
Proof.
  intros HW HP Hc He Hn. destruct ld as [|n l]; [done|].
  assert (Hp : node_at t l = Some NDir /\ plain_name n).
  { unfold entry in He. assert (HN : forall p, canonical cwd t p = Ok (n :: l) -> False).
    { intros p Hp. unfold canonical in Hp. destruct (bool_decide (p = [])); [done|]. apply walk_there in Hp as [? Hp]; [congruence|done|].
      unfold start. by destruct (is_absolute p). }
    destruct (last (path_components dbase)) as [[| | |m]|] eqn:El; try by destruct (HN dbase).
    apply rbind_ok in He as (l' & _ & He). destruct (node_at t l') as [[]|] eqn:E'; try done. injection He as -> ->. split; [done|].
    apply (components_plain dbase). apply last_Some in El as [cs ->]. apply elem_of_app. right. left. }
  destruct Hp as [Hp Hpn]. assert (Hsub : t ⊆ <[n :: l := NDir]> t) by (apply insert_subseteq; exact Hn).
  split.
  - done.
  - split; [|cbn [node_at]; by rewrite lookup_insert_eq]. apply entry_dir_canonical; [by eapply entry_sub|]. cbn [node_at]. by rewrite lookup_insert_eq.
  - intros m. rewrite lookup_insert_ne by (intros [= _ E]; apply (f_equal length) in E; cbn in E; lia).
    apply not_dir_leaf; [done|]. by rewrite Hn.
  - by right.
  - by apply insert_wf.
  - by apply insert_plain.
Qed.

Lemma admit_destination_spec d d' r :
  tree_wf (tree d) -> names_plain (tree d) -> node_at (tree d) cwd = Some NDir ->
  admit_destination h request d = (d', r) ->
  match r with
  | Ok _ => exists ld, placed (tree d) (tree d') ld
  | Err e => tree d' = tree d /\ counted_nothing e
  end.
Proof.
  intros HW HP Hc. unfold admit_destination.
  intros [(e & H1 & ->)|(u & d1 & H1%quiet_overlap & (r1 & d2 & H2 & H3)%pcase_inv)]%pbind_inv.
  { split; [by eapply quiet_overlap|by eapply overlap_counted]. }
  pose proof (look_tree _ _ _ _ _ H2) as Et2. rewrite <- H1 in *. rewrite <- Et2 in HW, HP, Hc |- *.
  destruct r1 as [[| | |]|e]; try (injection H3 as <- <-; split; [done|by cbn]).
  - apply look_ok in H2. rewrite <- Et2 in H2. clear d Et2 H1 d1. unfold lstat in H2. apply rbind_ok in H2 as (ld & He & Hn).
    destruct (node_at (tree d2) ld) as [node|] eqn:En; [|done]. injection Hn as ->.
    pose proof (entry_dir_canonical _ _ _ _ He En) as Hd.
    apply pbind_inv in H3 as [(e & (r0 & H3%look_tree & Hr)%pmap_err_inv & ->)|(entries & d3 & (r0 & H3 & Hr)%pmap_err_inv & H4)].
    { split; [done|]. destruct r0; simplify_eq/=. done. }
    pose proof (look_tree _ _ _ _ _ H3) as Et3. destruct r0 as [es|]; [|done]. injection Hr as ->. apply look_ok in H3.
    rewrite (read_dir_at _ _ _ _ (Build_dir_at _ _ _ _ Hd En)) in H3. injection H3 as <-.
    destruct (children (tree d2) ld) as [|x xs] eqn:Ech; injection H4 as <- <-; [|by split].
    exists ld. rewrite Et3. split; [done|by split| |by left|done|done].
    intros m. apply eq_None_not_Some. rewrite <- children_elem, Ech. apply not_elem_of_nil.
  - case_bool_decide; [|injection H3 as <- <-; by split].
    apply pbind_inv in H3 as [(e' & (r0 & H3%create_spec & Hr)%pmap_err_inv & ->)|(l & d3 & (r0 & H3%create_spec & Hr)%pmap_err_inv & [= <- <-])].
    + destruct r0; simplify_eq/=. done.
    + destruct r0 as [l'|]; [|done]. destruct H3 as (-> & Hn & He). exists l'. by apply admitted_new.
Qed.

Definition no_report (r : CopyReport) : Prop := tally r = (0, 0, 0, 0)%N.

(** A copy is refused before its traversal, with at most an empty directory
    made, or it is the traversal of the source from its root. *)
Lemma copy_cases plan d d' r :
  tree_wf (tree d) -> names_plain (tree d) -> node_at (tree d) cwd = Some NDir ->
  copy_tree_with h request plan d = (d', r) ->
  (exists e, r = Err (Some e) /\ counted_nothing e /\ (tree d' = tree d \/ exists ld, placed (tree d) (tree d') ld)) \/
  (exists ls ld s0 s permissions r1,
    canonical cwd (tree d) sbase = Ok ls /\ placed (tree d) (cs_tree s0) ld /\ dir_at cwd (cs_tree s0) sbase ls /\
    no_report (cs_report s0) /\
    walk_frames h request plan (S (traversal_cost (S (depth (tree d))) (tree d) ls))
      [mkFrame [] (merge_sort str_le (children (cs_tree s0) ls)) permissions] s0 = (s, r1) /\
    d' = cs_disk s /\
    match r1 with
    | Ok _ => r = Ok (cs_report s)
    | Err None => r = Err None
    | Err (Some _) => exists e, r = Err (Some e) /\ ce_partial e = cs_report s
    end).
Proof.
  intros HW HP Hc. unfold copy_tree_with. set (fuel := match canonical _ _ _ with Ok _ => _ | Err _ => _ end).
  intros [(e & (r0 & [Et HN]%admit_source_spec & He)%pmap_err_inv & ->)|(u & d1 & (r0 & [Et HS]%admit_source_spec & Hr)%pmap_err_inv & H2)]%pbind_inv.
  { left. destruct r0; [done|]. injection He as ->. eauto. }
  destruct r0; [|done]. clear Hr. destruct HS as [ls Hls]. rewrite <- Et in HW, HP, Hc.
  apply pbind_inv in H2 as [(e & (r1 & H2 & He)%pmap_err_inv & ->)|(made & d2 & (r1 & H2 & Hr)%pmap_err_inv & H3)];
    apply admit_destination_spec in H2; try done.
  { left. destruct r1; [done|]. injection He as ->. destruct H2 as [E2 ?]. eexists. split_and!; [done..|]. left. congruence. }
  destruct r1 as [made'|]; [|done]. injection Hr as ->. destruct H2 as [ld Hld].
  rewrite Et in Hld.
  apply pbind_inv in H3 as [(e & H3 & ->)|(u' & d3 & H3 & H4)].
  { left. destruct made'; [|done]. apply pmap_err_inv in H3 as (r3 & E3%look_tree & He). destruct r3; [done|]. injection He as ->.
    eexists. split_and!; [done..|]. right. exists ld. by rewrite E3. }
  assert (E3 : tree d3 = tree d2).
  { destruct made'; [|by injection H3 as <-]. apply pmap_err_inv in H3 as (r3 & E3%look_tree & _). done. }
  destruct (walk_tree _ _ _ _ _ _) as [s r4] eqn:E4. set (s0 := mkCopyState _ _ _ _) in E4.
  assert (H0 : cs_tree s0 = tree d2) by exact E3. rewrite <- H0 in Hld.
  assert (Hls' : dir_at cwd (cs_tree s0) sbase ls).
  { eapply dir_at_stay; [|exact Hls]. destruct (pl_tree _ _ _ Hld) as [->|(_ & Hn & ->)]; [done|]. apply dirs_stay_insert. by rewrite Hn. }
  assert (Hg : sbase <> []) by (destruct Hls as [Hcan _]; by eapply canonical_nonempty).
  unfold walk_tree in E4. apply pbind_inv in E4 as [(e & E4 & ->)|(frame & s1 & E4 & E5)];
    (eapply open_frame_spec in E4 as (Et4 & Er4 & HN4 & Hf); [|by apply dir_at_root]).
  - left. destruct e as [[[failed category] detail]|]; [|done]. injection H4 as <- <-. eexists. split_and!; [done| |].
    + unfold counted_nothing. cbn [ce_partial refused_with]. by rewrite Er4.
    + right. exists ld. by rewrite <- Et4 in Hld.
  - right. injection H4 as <- <-. rewrite (Hf _ eq_refl), <- Et4 in E5. rewrite <- Et4 in Hld, Hls'. destruct Hls as [Hls Hd].
    exists ls, ld, s1, s, made', r4. unfold fuel in E5. rewrite Hls in E5. split_and!; try done.
    + unfold no_report. by rewrite Er4.
    + destruct r4 as [|[[[]]|]]; [done|eauto|done].
Qed.

Lemma start_walking t s0 ls ld permissions :
  placed t (cs_tree s0) ld -> dir_at cwd (cs_tree s0) sbase ls ->
  walking h request ls ld (s0, [mkFrame [] (merge_sort str_le (children (cs_tree s0) ls)) permissions], []).
Proof.
  intros [_ Hd He _ HW HP] Hs. split; [done|done|right]. apply stack_root. split; cbn [fr_relative fr_names app].
  - apply relpath_root.
  - apply dir_at_root; [destruct Hs; by eapply canonical_nonempty|done].
  - apply dir_at_root; [destruct Hd; by eapply canonical_nonempty|done].
  - rewrite merge_sort_Permutation. apply Forall_forall. intros n [node Hn]%children_elem. apply HP in Hn. by apply Forall_cons in Hn as [? _].
  - rewrite merge_sort_Permutation. apply children_nodup.
  - intros n _. apply He.
Qed.

Lemma placed_confined t t' ld l : placed t t' ld -> t !! l = None -> is_Some (t' !! l) -> l = ld.
Proof.
  intros HP Hl [node Hn]. destruct (pl_tree _ _ _ HP) as [->|(_ & _ & ->)]; [congruence|].
  destruct (decide (l = ld)); [done|]. rewrite lookup_insert_ne in Hn by done. congruence.
Qed.

Lemma placed_sub t t' ld : placed t t' ld -> t ⊆ t'.
Proof. intros HP. destruct (pl_tree _ _ _ HP) as [->|(_ & Hn & ->)]; [done|by apply insert_subseteq]. Qed.

(** The entries a call added are all at or below the destination. *)
Lemma copy_with_confined plan d d' r :
  tree_wf (tree d) -> names_plain (tree d) -> node_at (tree d) cwd = Some NDir ->
  copy_tree_with h request plan d = (d', r) ->
  tree d ⊆ tree d' /\ forall l, tree d !! l = None -> is_Some (tree d' !! l) ->
    exists ld, entry cwd (tree d) dbase = Ok ld /\ ld `suffix_of` l.
Proof.
  intros HW HP Hc [(e & -> & _ & [->|[ld HL]])|(ls & ld & s0 & s & permissions & r1 & Hls & HL & Hs & _ & Hw & -> & _)]%copy_cases; [| | |done..].
  - split; [done|]. intros l -> [? [=]].
  - split; [by eapply placed_sub|]. intros l Hl Hn. exists ld. split; [by destruct HL|]. by rewrite (placed_confined _ _ _ _ HL Hl Hn).
  - pose proof (start_walking _ _ _ _ permissions HL Hs) as HWk.
    eapply (walk_confined h request plan ls ld) with (t1 := cs_tree s0) in Hw as [HG HN];
      [|destruct Hs; by eapply canonical_nonempty|destruct HL as [_ [? _]]; by eapply canonical_nonempty|exact HWk|].
    + split; [etrans; [by eapply placed_sub|exact HG]|]. intros l Hl Hn. exists ld. split; [by destruct HL|].
      destruct (cs_tree s0 !! l) as [node|] eqn:E; [|by apply HN].
      rewrite (placed_confined _ _ _ _ HL Hl (ex_intro _ _ E)). done.
    + split; [done|]. intros l Hl [? Hn]. cbn [fst] in Hn. congruence.
Qed.

(** *** What a call leaves *)

(** The entries strictly below a location. *)
Definition strictly_below (ld : loc) t : Tree := filter (fun kv : loc * Node => ld `suffix_of` kv.1 /\ kv.1 <> ld) t.

Abbreviation omits := (left_out request).

(** Outside the destination nothing changed; below it every entry is that of
    the source, none of them left out; the counts are theirs. *)
Record stands t (ls ld : loc) t' (c : Tally) : Prop := {
  sd_outside l : ~ ld `suffix_of` l -> t' !! l = t !! l;
  sd_root : t' !! ld = match ld with [] => t !! ld | _ => Some NDir end;
  sd_copies j node : j <> [] -> t' !! (j ++ ld) = Some node -> omits j = false /\ t !! (j ++ ls) = Some node;
  sd_count : c = entries_tally (strictly_below ld t');
}.

Lemma placed_apart t t' (ls ld : loc) :
  placed t t' ld -> dir_at cwd t' sbase ls -> ~ ls `suffix_of` ld -> forall j x, x <> [] -> x ++ ld <> j ++ ls.
Proof.
  intros HL [_ Hn] Hsep j x Hx E. destruct (suffix_weak_total ld ls (j ++ ls)) as [[y Hy]|H]; [by exists x|by exists j| |done].
  destruct (snoc_inv y) as [->|(y' & m & ->)]; [by apply Hsep; exists []; rewrite Hy|].
  assert (Hd : is_Some (t' !! (m :: ld))); [|rewrite (pl_empty _ _ _ HL m) in Hd; by destruct Hd].
  rewrite <- app_assoc in Hy. cbn [app] in Hy. subst ls. destruct y' as [|z y']; [by exists NDir|].
  exists NDir. apply (above_dir t' (pl_wf _ _ _ HL) (z :: y') (m :: ld)); [done|]. by exists NDir.
Qed.

Lemma nothing_below t t' ld x : placed t t' ld -> x <> [] -> t' !! (x ++ ld) = None.
Proof.
  intros HL Hx. destruct (snoc_inv x) as [->|(y & m & ->)]; [done|]. rewrite <- app_assoc. cbn [app].
  pose proof (pl_empty _ _ _ HL m) as Hm. apply eq_None_not_Some. intros H. destruct y as [|z y].
  - destruct H as [node H]. assert (t' !! (m :: ld) = Some node) by exact H. congruence.
  - apply (above_dir t' (pl_wf _ _ _ HL) (z :: y) (m :: ld)) in H; [|done].
    assert (t' !! (m :: ld) = Some NDir) by exact H. congruence.
Qed.

Lemma new_entries t t1 (ls ld : loc) t' c :
  placed t t1 ld -> copied request ls ld t1 t' c -> t' ∖ t1 = strictly_below ld t'.
Proof.
  intros HL [HG HN _]. apply map_eq. intros l. apply option_eq. intros node. unfold strictly_below.
  rewrite lookup_difference_Some, map_lookup_filter_Some. cbn [fst]. split.
  - intros [Hl H1]. split; [done|]. destruct (HN _ _ Hl H1) as (j & Hj & -> & _). split; [by exists j|].
    intros E. apply Hj. by apply (app_inv_tail ld j []).
  - intros (Hl & [j ->] & Hne). split; [done|]. apply (nothing_below _ _ _ _ HL). by intros ->.
Qed.

Lemma copied_stands t t1 (ls ld : loc) t' c :
  placed t t1 ld -> ~ ls `suffix_of` ld -> copied request ls ld t1 t' c -> stands t ls ld t' c.
Proof.
  intros HL Hsep HC. pose proof HC as [HG HN Hc].
  assert (Hold : forall l, l <> ld -> t1 !! l = t !! l).
  { intros l Hl. destruct (pl_tree _ _ _ HL) as [->|(_ & _ & ->)]; [done|by rewrite lookup_insert_ne]. }
  split.
  - intros l Hl. assert (Hne : l <> ld) by (intros ->; by apply Hl). rewrite <- (Hold l Hne).
    destruct (t' !! l) as [node|] eqn:E; [|by rewrite (lookup_weaken_None _ _ _ E HG)].
    destruct (t1 !! l) as [node'|] eqn:E1; [by rewrite (lookup_weaken _ _ _ _ E1 HG) in E|].
    destruct (HN _ _ E E1) as (j & _ & -> & _). destruct Hl. by exists j.
  - destruct (pl_dir _ _ _ HL) as [_ Hd]. destruct ld as [|n ld]; [|by eapply lookup_weaken].
    assert (E1 : t1 !! [] = t !! []) by (by destruct (pl_tree _ _ _ HL) as [->|[? _]]). rewrite <- E1.
    destruct (t1 !! []) as [node|] eqn:E; [by eapply lookup_weaken|]. destruct (t' !! []) as [node|] eqn:E'; [|done].
    destruct (HN _ _ E' E) as (j & Hj & Ej & _). rewrite app_nil_r in Ej. by destruct Hj.
  - intros j node Hj Hn. destruct (HN _ _ Hn (nothing_below _ _ _ _ HL Hj)) as (j' & _ & E%app_inv_tail & Ho & Hs). subst j'.
    split; [done|]. rewrite <- (Hold (j ++ ls)); [done|]. intros E. apply Hsep. by exists j.
  - rewrite Hc. f_equal. by eapply new_entries.
Qed.

Lemma placed_copied t t1 (ls ld : loc) : placed t t1 ld -> copied request ls ld t1 t1 (0, 0, 0, 0)%N.
Proof. intros HL. split; [done|intros; congruence|]. by rewrite map_difference_diag, entries_tally_empty. Qed.

(** A success has every entry of the source that is not left out. A failure
    changed nothing, or left copies that its partial report counts, and at most
    one more file, a temporary. *)
Definition copy_outcome t (ls ld : loc) t' (r : result CopyReport (option CopyError)) : Prop :=
  match r with
  | Ok report => stands t ls ld t' (tally report) /\
      forall j, j <> [] -> t' !! (j ++ ld) = if omits j then None else t !! (j ++ ls)
  | Err (Some e) => (t' = t /\ counted_nothing e) \/
      exists t1, stands t ls ld t1 (tally (ce_partial e)) /\
        (t' = t1 \/ exists m k bytes, t1 !! (m :: k ++ ld) = None /\ t' = <[m :: k ++ ld := NFile bytes]> t1)
  | Err None => False
  end.

Lemma start_covered t s0 (ls ld : loc) permissions :
  placed t (cs_tree s0) ld ->
  covered request ls ld (cs_tree s0) (s0, [mkFrame [] (merge_sort str_le (children (cs_tree s0) ls)) permissions], []).
Proof.
  intros HL j node Hj Hn. right. right. left. destruct (snoc_inv j) as [->|(x & m & ->)]; [done|]. exists m. split; [|by exists x].
  cbn [fr_names]. rewrite merge_sort_Permutation, children_elem. rewrite <- app_assoc in Hn.
  destruct x as [|z x]; [by exists node|]. exists NDir.
  exact (above_dir _ (pl_wf _ _ _ HL) (z :: x) (m :: ls) ltac:(done) (ex_intro _ _ Hn)).
Qed.

(** The fuel covers the work of the traversal. *)
Lemma start_work t t1 (ls ld : loc) permissions :
  placed t t1 ld -> ~ ls `suffix_of` ld ->
  stack_work ls t1 [mkFrame [] (merge_sort str_le (children t1 ls)) permissions] [] < S (traversal_cost (S (depth t)) t ls).
Proof.
  intros HL Hsep. cbn [stack_work fr_names tail]. rewrite merge_sort_Permutation.
  rewrite Nat.add_0_r, (whole_work ls t1 [] (Nat.le_0_l _) : S (sum_list_with _ (children t1 ls)) = traversal_cost (S (depth t1)) t1 ls).
  assert (HE : forall x, t1 !! (x ++ ls) = t !! (x ++ ls)).
  { intros x. destruct (pl_tree _ _ _ HL) as [->|(_ & _ & ->)]; [done|]. rewrite lookup_insert_ne; [done|]. intros ->. apply Hsep. by exists x. }
  rewrite (traversal_cost_same t1 t ls (S (depth t1)) (S (depth t))); [lia|done|].
  intros x _ [node Hx]. pose proof (depth_bound _ _ _ Hx). rewrite HE in Hx. pose proof (depth_bound _ _ _ Hx).
  rewrite length_app in *. lia.
Qed.

Lemma copy_with_exact plan d d' r ls ld :
  tree_wf (tree d) -> names_plain (tree d) -> node_at (tree d) cwd = Some NDir ->
  canonical cwd (tree d) sbase = Ok ls -> entry cwd (tree d) dbase = Ok ld -> ~ ls `suffix_of` ld ->
  copy_tree_with h request plan d = (d', r) -> copy_outcome (tree d) ls ld (tree d') r.
Proof.
  intros HW HP Hc Hls Hld Hsep [(e & -> & He & [->|[ld' HL]])|(ls' & ld' & s0 & s & permissions & r1 & Hls' & HL & Hs & Hr & Hw & -> & Hr1)]%copy_cases;
    [| | |done..]; [by left|pose proof (pl_named _ _ _ HL) as E; rewrite Hld in E; injection E as <-..].
  { right. exists (tree d'). split; [|by left]. rewrite (He : tally (ce_partial e) = _). eapply copied_stands; [done..|by eapply placed_copied]. }
  rewrite Hls in Hls'. injection Hls' as <-.
  pose proof (placed_apart _ _ _ _ HL Hs Hsep) as Hap.
  eapply (walk_exact h request plan ls ld) with (t1 := cs_tree s0) (k := []) in Hw; try done.
  - destruct r1 as [u|[e|]]; [|destruct Hr1 as (e' & -> & Ep)|done].
    + subst r. destruct Hw as [HC Hall]. pose proof (copied_stands _ _ _ _ _ _ HL Hsep HC) as HS. split; [exact HS|].
      intros j Hj. assert (HE : cs_tree s0 !! (j ++ ls) = tree d !! (j ++ ls)).
      { destruct (pl_tree _ _ _ HL) as [->|(_ & _ & ->)]; [done|]. rewrite lookup_insert_ne; [done|]. intros ->. apply Hsep. by exists j. }
      destruct (omits j) eqn:Eo.
      * destruct (tree (cs_disk s) !! (j ++ ld)) as [node|] eqn:En; [|done]. destruct (sd_copies _ _ _ _ _ HS j node Hj En). congruence.
      * destruct (tree d !! (j ++ ls)) as [node|] eqn:En; [destruct (Hall j node Hj HE) as [|H]; [congruence|exact H]|].
        destruct (tree (cs_disk s) !! (j ++ ld)) as [node|] eqn:Ed; [|done]. destruct (sd_copies _ _ _ _ _ HS j node Hj Ed). congruence.
    + cbn [copy_outcome]. right. rewrite Ep. destruct Hw as [HC|(t & m & k & b & HC & Hn & Et)].
      * exists (cs_tree s). split; [by eapply copied_stands|by left].
      * exists t. split; [by eapply copied_stands|]. right. by exists m, k, b.
  - destruct Hs. by eapply canonical_nonempty.
  - destruct HL as [_ [? _]]. by eapply canonical_nonempty.
  - by destruct HL.
  - by destruct HL.
  - by eapply start_walking.
  - unfold copied_run. rewrite (Hr : tally _ = _). by eapply placed_copied.
  - by eapply start_covered.
  - by eapply start_work.
Qed.

(** *** Copying a tree into itself *)

Section itself.
Context (sound : forall n, h_fault h n = None).

Lemma look_sound {A} (act : Tree -> result A IoKind) d d' r :
  look (h_fault h) act d = (d', r) -> tree d' = tree d /\ r = map_err os_error (act (tree d)).
Proof using sound. unfold look, sys. rewrite sound. by intros [= <- <-]. Qed.

Lemma real_path_sound p d d' r : real_path (h_fault h) cwd p d = (d', r) ->
  tree d' = tree d /\
  match canonical cwd (tree d) p with Ok l => r = Ok (path_text (rooted l)) | Err _ => exists e, r = Err e end.
Proof using sound.
  unfold real_path. intros [(e & [Et Ee]%look_sound & ->)|(l & d1 & [Et Ee]%look_sound & [= <- <-])]%pbind_inv; (split; [done|]).
  - destruct (canonical cwd (tree d) p); [done|]. eauto.
  - destruct (canonical cwd (tree d) p); [|done]. by injection Ee as ->.
Qed.

(** The nearest existing ancestor of an entry that is not there is its
    directory. *)
Lemma ancestor_of t p n l :
  last (path_components p) = Some (Normal n) -> entry cwd t p = Ok (n :: l) -> t !! (n :: l) = None ->
  (exists e, canonical cwd t p = Err e) /\ exists parent, path_file_name p = Some n /\ path_parent p = Some parent /\
    canonical cwd t (if bool_decide (parent = []) then dot else parent) = Ok l.
Proof.
  intros El He Hn. unfold entry in He. rewrite El in He. apply rbind_ok in He as (l' & Hw & He).
  destruct (node_at t l') as [[]|] eqn:En; try done. injection He as ->.
  assert (Hf : path_file_name p = Some n) by (unfold path_file_name; by rewrite El).
  destruct (parent_components p n Hf) as (parent & Hp & Hc). split.
  - unfold canonical. case_bool_decide; [eauto|]. destruct (walk_app _ _ _ _ _ Hw En) as [links' E].
    destruct (snoc_inv (path_components p)) as [E0|(cs & c & E0)]; [by rewrite E0 in El|].
    rewrite E0 in El, E |- *. rewrite last_snoc in El. injection El as ->. rewrite removelast_snoc in E.
    rewrite E, walk_one by done. eauto.
  - exists parent. split_and!; [done..|]. unfold canonical, start in *. rewrite absolute_components in Hw.
    destruct (decide (parent = [])) as [Ep|Ep]; [rewrite (bool_decide_true (parent = [])) by done|rewrite (bool_decide_false (parent = [])) by done].
    + subst parent. change (path_components []) with (@nil Component) in Hc. rewrite bool_decide_false by (by vm_compute).
      rewrite <- Hc in Hw. destruct (snoc_inv (path_components p)) as [E0|(cs & c & E0)]; [by rewrite E0 in El|].
      rewrite E0 in Hc, Hw, El. rewrite removelast_snoc in Hc. subst cs. rewrite last_snoc in El. injection El as ->.
      exact Hw.
    + rewrite bool_decide_false by done. rewrite absolute_components, Hc.
      destruct (snoc_inv (path_components p)) as [E0|(cs & c & E0)]; [by rewrite E0 in El|].
      rewrite E0, removelast_snoc in Hc. rewrite E0 in Hw |- *. rewrite removelast_snoc in Hw |- *.
      destruct cs; [|done]. rewrite E0, last_snoc in El. by injection El as ->.
Qed.

Lemma join_rooted l n : Forall plain_name (n :: l) ->
  path_components (path_join (path_text (rooted l)) n) = rooted (n :: l).
Proof.
  intros [Hn Hl]%Forall_cons. destruct (plain_components n Hn) as (Ha & Hd & Hc).
  rewrite components_join by done. by rewrite rooted_text, Hc, rooted_cons.
Qed.

Lemma resolve_entry {E} fuel t ld d d' (r : result (option str) E) :
  tree d = t -> tree_wf t -> Forall plain_name ld -> node_at t cwd = Some NDir ->
  entry cwd t dbase = Ok ld -> (forall target, node_at t ld <> Some (NLink target)) ->
  resolve_new_path h (S fuel) dbase [] d = (d', r) -> exists p, r = Ok (Some p) /\ path_components p = rooted ld.
Proof using sound.
  intros <- HW Hp Hc He Hl. cbn [resolve_new_path].
  intros (r1 & d1 & [E1 H1]%real_path_sound & H2)%pcase_inv. destruct (node_at (tree d) ld) as [node|] eqn:En.
  - assert (Hcan : canonical cwd (tree d) dbase = Ok ld).
    { destruct (last (path_components dbase)) as [[| | |n]|] eqn:El; try (unfold entry in He; by rewrite El in He).
      eapply canonical_entry; [by exists n|done..|]. intros target ->. by destruct (Hl target). }
    rewrite Hcan in H1. subst r1. injection H2 as <- <-. eexists. split; [done|]. by apply rooted_text.
  - destruct ld as [|n l]; [done|]. cbn [node_at] in En.
    assert (El : last (path_components dbase) = Some (Normal n)).
    { assert (HN : canonical cwd (tree d) dbase = Ok (n :: l) -> False).
      { unfold canonical. case_bool_decide; [done|]. intros [? Hx]%walk_there; [|done|unfold start; by destruct (is_absolute dbase)].
        cbn [node_at] in Hx. congruence. }
      unfold entry in He. destruct (last (path_components dbase)) as [[| | |m]|]; try by destruct HN.
      apply rbind_ok in He as (l' & _ & He). destruct (node_at (tree d) l') as [[]|]; try done. by injection He as ->. }
    destruct (ancestor_of _ _ _ _ El He En) as ((e & Ee) & parent & Hf & Hpar & Hcan).
    rewrite Ee in H1. destruct H1 as [e' ->]. rewrite Hf, Hpar in H2.
    assert (HR : exists d2 r2, real_path (h_fault h) cwd (if bool_decide (parent = []) then dot else parent) d1 = (d2, r2)) by (destruct (real_path _ _ _ d1); eauto).
    destruct HR as (d2 & r2 & HR). pose proof (real_path_sound _ _ _ _ HR) as [_ H3]. rewrite E1, Hcan in H3. subst r2.
    destruct fuel; cbn [resolve_new_path] in H2; unfold pcase in H2; rewrite HR in H2; injection H2 as <- <-;
      (eexists; split; [done|]); by apply join_rooted.
Qed.

(** A destination at or below the source is refused, and nothing is touched. *)
Lemma copy_with_itself plan d d' r ls ld :
  tree_wf (tree d) -> names_plain (tree d) -> Forall plain_name ld -> node_at (tree d) cwd = Some NDir ->
  canonical cwd (tree d) sbase = Ok ls -> entry cwd (tree d) dbase = Ok ld -> ls `suffix_of` ld ->
  copy_tree_with h request plan d = (d', r) -> tree d' = tree d /\ exists e, r = Err (Some e).
Proof using sound.
  intros HW HP Hp Hc Hls Hld Hin. unfold copy_tree_with.
  intros [(e & (r0 & [Et HN]%admit_source_spec & He)%pmap_err_inv & ->)|(u & d1 & (r0 & [Et HS]%admit_source_spec & Hr)%pmap_err_inv & H2)]%pbind_inv.
  { split; [done|]. destruct r0; [done|]. injection He as ->. eauto. }
  clear Hr HS r0 u. rewrite <- Et in *. clear d Et.
  assert (HD : forall d' r, admit_destination h request d1 = (d', r) -> tree d' = tree d1 /\ exists e, r = Err e).
  { clear d' r H2. intros d' r HA. pose proof (admit_destination_spec _ _ _ HW HP Hc HA) as HB.
    destruct r as [made|e]; [exfalso; clear HB|by destruct HB; eauto]. unfold admit_destination in HA.
    apply pbind_inv in HA as [(e & _ & [=])|(u & d2 & HO & (r1 & d3 & H1 & H2)%pcase_inv)].
    pose proof (quiet_overlap _ _ _ HO) as E2. apply look_sound in H1 as [E3 Er1]. rewrite E2 in *.
    assert (Hl : forall target, node_at (tree d1) ld <> Some (NLink target)).
    { intros target Hl. unfold lstat in Er1. rewrite Hld in Er1. cbn [rbind] in Er1. rewrite Hl in Er1. subst r1. discriminate. }
    clear H2 Er1 E3 r1 d3. unfold refuse_overlap in HO.
    apply pbind_inv in HO as [(e & _ & [=])|(source & d3 & (r1 & [E3 H3]%real_path_sound & Hr)%pmap_err_inv & HO)].
    rewrite Hls in H3. subst r1. cbn [map_err] in Hr. assert (source = path_text (rooted ls)) as -> by congruence. clear Hr.
    apply pbind_inv in HO as [(e & _ & [=])|(resolved & d4 & H4 & HO)].
    eapply resolve_entry in H4 as (p & Ep & Hcp); [|done| |done|..]; try (by rewrite ?E3). injection Ep as ->.
    assert (Hst : path_starts_with p (path_text (rooted ls)) = true); [|cbv beta iota in HO; rewrite Hst in HO; discriminate].
    unfold path_starts_with. rewrite Hcp, rooted_text; [apply bool_decide_true; by apply rooted_prefix|].
    destruct Hin as [x ->]. by apply Forall_app in Hp as [_ ?]. }
  apply pbind_inv in H2 as [(e & (r1 & [E2 [e' ->]]%HD & He)%pmap_err_inv & ->)|(made & d2 & (r1 & [E2 [e' ->]]%HD & Hr)%pmap_err_inv & H3)]; [|done].
  injection He as ->. split; [done|]. eauto.
Qed.

End itself.

End whole.

(** ** Theorems *)

(** A disk whose tree is a tree, with the working directory in it. *)
Record copy_ready (h : Host) (d : Disk) : Prop := {
  cr_wf : tree_wf (tree d);
  cr_plain : names_plain (tree d);
  cr_cwd : node_at (tree d) (h_cwd h) = Some NDir;
}.

Lemma planned h request d d' r : copy_tree_system h request d = (d', r) ->
  exists plan d1, tree d1 = tree d /\ copy_tree_with h request plan d1 = (d', r).
Proof.
  intros [(e & H & _)|(plan & d1 & H & H1)]%pbind_inv; [|exists plan, d1; split; [by eapply quiet_plan|done]].
  exfalso. cut (reports (E := option CopyError) (fun _ => False) (for_request h request)); [intros HR; exact (HR _ _ _ H)|].
  assert (HD : forall p, reports (E := option CopyError) (fun _ => False) (device_of h p)).
  { intros p. unfold device_of. apply reports_case. intros x. apply reports_ret. }
  assert (HN : forall fuel p, reports (E := option CopyError) (fun _ => False) (device_of_nearest_existing h fuel p)).
  { induction fuel as [|fuel IH]; intros p; cbn [device_of_nearest_existing]; apply reports_bind; [apply HD| |apply HD|]; intros x;
      repeat (case_match; try apply reports_ret; try apply IH). }
  unfold for_request, probe. repeat (case_match; try apply reports_ret). apply reports_bind; [|intros x; apply reports_ret].
  apply reports_bind; [apply HD|intros x]. apply reports_bind; [apply HN|intros y]. apply reports_ret.
Qed.

(** *** An example *)

(** A source with a file, a link, a directory and an excluded one. *)
Definition copy_demo : Disk := mkDisk
  (<[ [lit "src"] := NDir ]> (<[ [lit "f"; lit "src"] := NFile [1%N; 2%N] ]> (<[ [lit "a"; lit "src"] := NDir ]>
  (<[ [lit "g"; lit "a"; lit "src"] := NFile [3%N] ]> (<[ [lit "out"; lit "src"] := NLink (lit "/etc") ]>
  (<[ [lit "skip"; lit "src"] := NDir ]> (<[ [lit "h"; lit "skip"; lit "src"] := NFile [] ]> ∅))))))) 0 0 [].

(** A host without faults that clones, or answers with an errno. *)
Definition demo_host (cloning : option N) : Host :=
  mkHost [] (fun _ => None) (fun _ => 1%N) (fun _ => false) (fun _ => cloning) (fun _ => 0%N) 7
    (fun _ => []) (fun p => p) (fun _ => []).

Definition demo_request (destination : str) (mode : CopyMode) : CopyRequest :=
  mkCopyRequest (lit "/src") destination [RelativePath (lit "skip")] mode.

Lemma copy_demo_ready cloning : copy_ready (demo_host cloning) copy_demo.
Proof.
  split; [apply tree_wf_entries|apply names_plain_entries|reflexivity]; refine (bool_decide_unpack _ _); vm_compute; exact I.
Qed.

Lemma demo_apart : ~ [lit "src"] `suffix_of` [lit "dst"].
Proof. refine (bool_decide_unpack _ _). vm_compute. exact I. Qed.

(** C15: a tree copy, whatever its host answers, removes and changes no entry
    there was, and every entry it adds is at or below the entry its destination
    names. *)
Theorem copy_confined h request d d' r :
  copy_ready h d -> copy_tree_system h request d = (d', r) ->
  tree d ⊆ tree d' /\ forall l, tree d !! l = None -> is_Some (tree d' !! l) ->
    exists ld, entry (h_cwd h) (tree d) (cq_destination request) = Ok ld /\ ld `suffix_of` l.
Proof.
  intros [HW HP Hc] (plan & d1 & E & H)%planned. rewrite <- E in *. by eapply copy_with_confined.
Qed.

Lemma copy_confined_witness :
  let d' := (copy_tree_system (demo_host None) (demo_request (lit "/dst") Auto) copy_demo).1 in
  tree copy_demo ⊆ tree d' /\ tree d' !! [lit "g"; lit "a"; lit "dst"] = Some (NFile [3%N]).
Proof.
  destruct (copy_tree_system (demo_host None) (demo_request (lit "/dst") Auto) copy_demo) as [d' r] eqn:E.
  split; [exact (proj1 (copy_confined _ _ _ _ _ (copy_demo_ready None) E))|].
  cbn [fst]. assert (d' = (copy_tree_system (demo_host None) (demo_request (lit "/dst") Auto) copy_demo).1) as -> by (rewrite E; reflexivity).
  vm_compute. reflexivity.
Defined.

(** C14: a tree copy to a place outside its source ends, and what it reports is
    what stands at the destination. After a success every entry of the source
    that is not excluded is there as it was, with nothing else; after a failure
    the partial report counts the entries that are there, all of them copies,
    beside at most one temporary file. *)
Theorem copy_report_exact h request d d' r ls ld :
  copy_ready h d -> canonical (h_cwd h) (tree d) (cq_source request) = Ok ls ->
  entry (h_cwd h) (tree d) (cq_destination request) = Ok ld -> ~ ls `suffix_of` ld ->
  copy_tree_system h request d = (d', r) -> copy_outcome request (tree d) ls ld (tree d') r.
Proof.
  intros [HW HP Hc] Hls Hld Hsep (plan & d1 & E & H)%planned. rewrite <- E in *. by eapply copy_with_exact.
Qed.

Lemma copy_report_exact_witness :
  let out := copy_tree_system (demo_host None) (demo_request (lit "/dst") Auto) copy_demo in
  is_ok out.2 = true /\ copy_outcome (demo_request (lit "/dst") Auto) (tree copy_demo) [lit "src"] [lit "dst"] (tree out.1) out.2.
Proof.
  split; [vm_compute; reflexivity|].
  apply (copy_report_exact (demo_host None) (demo_request (lit "/dst") Auto) copy_demo _ _ [lit "src"] [lit "dst"]).
  - apply copy_demo_ready.
  - vm_compute. reflexivity.
  - vm_compute. reflexivity.
  - apply demo_apart.
  - apply surjective_pairing.
Defined.

(** C16: two copies of one source that succeed, in either mode and on hosts that
    clone, chunk and interrupt differently, leave the same tree and count the
    same entries. *)
Theorem copy_modes_agree h h' request mode d d1 d2 report1 report2 ls ld :
  let request' := mkCopyRequest (cq_source request) (cq_destination request) (cq_exclusions request) mode in
  copy_ready h d -> h_cwd h' = h_cwd h -> canonical (h_cwd h) (tree d) (cq_source request) = Ok ls ->
  entry (h_cwd h) (tree d) (cq_destination request) = Ok ld -> ~ ls `suffix_of` ld ->
  copy_tree_system h request d = (d1, Ok report1) -> copy_tree_system h' request' d = (d2, Ok report2) ->
  tree d1 = tree d2 /\ tally report1 = tally report2.
Proof.
  intros request' [HW HP Hc] Ecwd Hls Hld Hsep (plan & e1 & E1 & H1)%planned (plan' & e2 & E2 & H2)%planned.
  rewrite <- E1 in HW, HP, Hc, Hls, Hld. pose proof (copy_with_exact _ _ _ _ _ _ _ _ HW HP Hc Hls Hld Hsep H1) as [S1 A1].
  rewrite E1, <- E2 in HW, HP, Hc, Hls, Hld. rewrite <- Ecwd in Hc, Hls, Hld.
  pose proof (copy_with_exact h' request' _ _ _ _ _ _ HW HP Hc Hls Hld Hsep H2) as [S2 A2]. rewrite E1 in S1, A1. rewrite E2 in S2, A2.
  assert (ET : tree d1 = tree d2).
  { apply map_eq. intros l. destruct (decide (ld `suffix_of` l)) as [[j ->]|Hn].
    - destruct (decide (j = [])) as [->|Hj]; [|by rewrite A1, A2].
      change ([] ++ ld) with ld. by rewrite (sd_root _ _ _ _ _ _ S1), (sd_root _ _ _ _ _ _ S2).
    - by rewrite (sd_outside _ _ _ _ _ _ S1), (sd_outside _ _ _ _ _ _ S2). }
  split; [done|]. by rewrite (sd_count _ _ _ _ _ _ S1), (sd_count _ _ _ _ _ _ S2), ET.
Qed.

Lemma copy_modes_agree_witness :
  tree (copy_tree_system (demo_host None) (demo_request (lit "/dst") Auto) copy_demo).1 =
  tree (copy_tree_system (demo_host (Some 95%N)) (demo_request (lit "/dst") OrdinaryOnly) copy_demo).1.
Proof.
  destruct (copy_tree_system (demo_host None) (demo_request (lit "/dst") Auto) copy_demo) as [d1 [report1|e1]] eqn:E1.
  2: { exfalso. apply (f_equal (fun x => is_ok x.2)) in E1. vm_compute in E1. discriminate. }
  destruct (copy_tree_system (demo_host (Some 95%N)) (demo_request (lit "/dst") OrdinaryOnly) copy_demo) as [d2 [report2|e2]] eqn:E2.
  2: { exfalso. apply (f_equal (fun x => is_ok x.2)) in E2. vm_compute in E2. discriminate. }
  refine (proj1 (copy_modes_agree (demo_host None) (demo_host (Some 95%N)) (demo_request (lit "/dst") Auto) OrdinaryOnly copy_demo
    d1 d2 report1 report2 [lit "src"] [lit "dst"] (copy_demo_ready None) eq_refl _ _ demo_apart E1 E2)); vm_compute; reflexivity.
Defined.

(** On a host without faults a destination at or below the source is
    refused before anything is written. *)
Theorem copy_into_itself_refused h request d d' r ls ld :
  copy_ready h d -> (forall n, h_fault h n = None) ->
  canonical (h_cwd h) (tree d) (cq_source request) = Ok ls ->
  entry (h_cwd h) (tree d) (cq_destination request) = Ok ld -> ls `suffix_of` ld ->
  copy_tree_system h request d = (d', r) -> tree d' = tree d /\ exists e, r = Err (Some e).
Proof.
  intros [HW HP Hc] Hs Hls Hld Hin (plan & d1 & E & H)%planned. rewrite <- E in *.
  assert (Forall plain_name ld) by (by eapply entry_plain). by eapply (copy_with_itself _ _ Hs plan d1 d' r ls ld).
Qed.

Lemma copy_into_itself_refused_witness :
  tree (copy_tree_system (demo_host None) (demo_request (lit "/src/a/new") Auto) copy_demo).1 = tree copy_demo.
Proof.
  refine (proj1 (copy_into_itself_refused (demo_host None) (demo_request (lit "/src/a/new") Auto) copy_demo _ _
    [lit "src"] [lit "new"; lit "a"; lit "src"] (copy_demo_ready None) (fun _ => eq_refl) _ _ _ (surjective_pairing _))).
  - vm_compute. reflexivity.
  - vm_compute. reflexivity.
  - exists [lit "new"; lit "a"]. reflexivity.
Defined.
