(* ===== verification/BlockClone.v ===== *)
(** Cloning a file by ranges (src/crates/refcopy/src/native/block_clone.rs and
    the loop over it in native/windows.rs), with the failure tables of the two
    mechanisms other than Linux's (native/classify.rs).  The control calls of
    the platform are parameters.  The theorem gives the requests in closed
    form: they are aligned, within the documented limit, and tile the file. *)

From S2P Require Export TreeCopy.

#[local] Set Default Proof Using "Type".
#[local] Open Scope N_scope.

(** ** Failure tables *)

(** [classify::clonefile]. *)
Definition clonefile (errno : N) : NativeClass :=
  if (errno =? Errno.NOTSUP) || (errno =? Errno.OPNOTSUPP) then
    ClassUnsupported (lit "the filesystem does not support clonefile (ENOTSUP)")
  else if errno =? Errno.XDEV then
    ClassUnsupported (lit "source and destination are on different filesystems (EXDEV)")
  else if destination_errno errno then ClassFailed DestinationUnwritable
  else ClassFailed CopyIo.

Module Win32.
Definition ERROR_INVALID_FUNCTION : N := 1.
Definition ERROR_FILE_NOT_FOUND : N := 2.
Definition ERROR_PATH_NOT_FOUND : N := 3.
Definition ERROR_ACCESS_DENIED : N := 5.
Definition ERROR_INVALID_HANDLE : N := 6.
Definition ERROR_NOT_SAME_DEVICE : N := 17.
Definition ERROR_WRITE_PROTECT : N := 19.
Definition ERROR_SHARING_VIOLATION : N := 32.
Definition ERROR_HANDLE_DISK_FULL : N := 39.
Definition ERROR_NOT_SUPPORTED : N := 50.
Definition ERROR_FILE_EXISTS : N := 80.
Definition ERROR_INVALID_PARAMETER : N := 87.
Definition ERROR_DISK_FULL : N := 112.
Definition ERROR_CALL_NOT_IMPLEMENTED : N := 120.
Definition ERROR_ALREADY_EXISTS : N := 183.
Definition ERROR_OFFSET_ALIGNMENT_VIOLATION : N := 327.
Definition ERROR_BLOCK_TOO_MANY_REFERENCES : N := 347.
End Win32.

(** [classify::duplicate_extents]. *)
Definition duplicate_extents (code : N) : NativeClass :=
  if existsb (N.eqb code) [Win32.ERROR_NOT_SUPPORTED; Win32.ERROR_INVALID_FUNCTION; Win32.ERROR_CALL_NOT_IMPLEMENTED] then
    ClassUnsupported (lit "the filesystem does not implement block cloning (ERROR_NOT_SUPPORTED)")
  else if code =? Win32.ERROR_NOT_SAME_DEVICE then
    ClassUnsupported (lit "the files are not on the same volume (ERROR_NOT_SAME_DEVICE)")
  else if existsb (N.eqb code) [Win32.ERROR_INVALID_PARAMETER; Win32.ERROR_OFFSET_ALIGNMENT_VIOLATION] then
    ClassUnsupported (lit "the filesystem will not duplicate extents between these files: cluster alignment, sparseness or integrity-stream settings (ERROR_INVALID_PARAMETER)")
  else if code =? Win32.ERROR_BLOCK_TOO_MANY_REFERENCES then
    ClassUnsupported (lit "the source region is already shared as widely as the filesystem allows (ERROR_BLOCK_TOO_MANY_REFERENCES)")
  else if existsb (N.eqb code) [Win32.ERROR_ACCESS_DENIED; Win32.ERROR_WRITE_PROTECT; Win32.ERROR_SHARING_VIOLATION;
      Win32.ERROR_DISK_FULL; Win32.ERROR_HANDLE_DISK_FULL; Win32.ERROR_FILE_EXISTS; Win32.ERROR_ALREADY_EXISTS;
      Win32.ERROR_FILE_NOT_FOUND; Win32.ERROR_PATH_NOT_FOUND] then ClassFailed DestinationUnwritable
  else ClassFailed CopyIo.

(** ** Ranges (block_clone.rs) *)

Definition MAX_DUPLICATE_BYTES : N := N.shiftl 4 30.

Record Range : Type := mkRange { rg_offset : N; rg_count : N; rg_advance : N }.

Definition round_up_to_cluster (bytes cluster_bytes : N) : N :=
  if cluster_bytes =? 0 then bytes
  else match bytes mod cluster_bytes with
       | 0 => bytes
       | remainder => saturating_add bytes (cluster_bytes - remainder)
       end.

Definition next_range (offset length cluster_bytes : N) : option Range :=
  if length <=? offset then None
  else
    let advance := N.min (length - offset) MAX_DUPLICATE_BYTES in
    Some (mkRange offset (round_up_to_cluster advance cluster_bytes) advance).

(** ** The loop over them (windows.rs) *)

Section calls.
Context {S : Type}.
Context (set_sparse : proc S unit str) (set_len : N -> proc S unit str) (device_control : N -> N -> proc S unit (N * str)).

(** One request; a refusal is its code and text. *)
Definition duplicate_range (offset count : N) : proc S unit Outcome :=
  pmap_err (fun '(code, error) => describe (duplicate_extents code) error (lit "FSCTL_DUPLICATE_EXTENTS_TO_FILE"))
    (device_control offset count).

(** The loop from an offset; [None] is out of fuel. *)
Fixpoint duplicate_from (fuel : nat) (offset length cluster_bytes : N) : proc S unit (option Outcome) :=
  match fuel with
  | O => pfail None
  | Datatypes.S fuel =>
      match next_range offset length cluster_bytes with
      | None => pret tt
      | Some range =>
          do! pmap_err Some (duplicate_range (rg_offset range) (rg_count range)) in
          duplicate_from fuel (offset + rg_advance range) length cluster_bytes
      end
  end.

(** [duplicate_whole_file] up to its loop: the temporary made sparse as the
    source is, and as long. *)
Definition size_target (length : N) (sparse : bool) : proc S unit (option Outcome) :=
  do! (if sparse then
         pmap_err (fun error => Some (OutcomeUnsupported
           (lit "the temporary could not be made sparse to match the source: " ++ error))) set_sparse
       else pret tt) in
  pmap_err (fun error => Some (OutcomeFailed DestinationUnwritable
    (lit "the temporary could not be pre-sized to " ++ show_N length ++ lit " bytes: " ++ error))) (set_len length).

(** [duplicate_whole_file]: [Ok] is [Cloned]. *)
Definition duplicate_whole_file (length : N) (sparse : bool) (cluster_bytes : N) : proc S unit (option Outcome) :=
  do! size_target length sparse in
  duplicate_from (2 + N.to_nat (length / MAX_DUPLICATE_BYTES)) 0 length cluster_bytes.

(** Requests one after another, to the first refusal. *)
Fixpoint duplicate_all (ranges : list Range) : proc S unit (option Outcome) :=
  match ranges with
  | [] => pret tt
  | range :: ranges => do! pmap_err Some (duplicate_range (rg_offset range) (rg_count range)) in duplicate_all ranges
  end.

End calls.

(** The requests a file needs: pieces of the largest size, the last rounded up
    to a whole cluster. *)
Definition extent (length cluster_bytes : N) (i : nat) : Range :=
  let offset := N.of_nat i * MAX_DUPLICATE_BYTES in
  let advance := N.min (length - offset) MAX_DUPLICATE_BYTES in
  mkRange offset ((advance + cluster_bytes - 1) / cluster_bytes * cluster_bytes) advance.

Definition extents (length cluster_bytes : N) : list Range :=
  extent length cluster_bytes <$> seq 0 (N.to_nat ((length + MAX_DUPLICATE_BYTES - 1) / MAX_DUPLICATE_BYTES)).

(** A request within the rules of the call, for its piece of the file. *)
Definition legal (length cluster_bytes : N) (r : Range) : Prop :=
  (cluster_bytes | rg_offset r) /\ (cluster_bytes | rg_count r) /\ rg_count r <= MAX_DUPLICATE_BYTES /\
  rg_advance r <= rg_count r < rg_advance r + cluster_bytes /\ rg_offset r + rg_advance r <= length.

(** ** Proofs *)

Lemma max_duplicate : MAX_DUPLICATE_BYTES = 4294967296.
Proof. reflexivity. Qed.

Lemma cluster_divides k : k <= 32 -> (2 ^ k | MAX_DUPLICATE_BYTES) /\ 0 < 2 ^ k <= MAX_DUPLICATE_BYTES.
Proof.
  intros Hk. assert (Hd : (2 ^ k | MAX_DUPLICATE_BYTES)).
  { exists (2 ^ (32 - k)). rewrite <- N.pow_add_r. replace (32 - k + k) with 32 by lia. reflexivity. }
  assert (0 < 2 ^ k) by (apply N.neq_0_lt_0, N.pow_nonzero; done).
  split; [done|]. split; [done|]. apply N.divide_pos_le; [by rewrite max_duplicate|done].
Qed.

Lemma ceiling q r c : r < c -> 0 < c -> (q * c + r + c - 1) / c = if r =? 0 then q else q + 1.
Proof.
  intros Hr Hc. destruct (N.eqb_spec r 0) as [->|Hn].
  - replace (q * c + 0 + c - 1) with (c - 1 + q * c) by lia. rewrite N.div_add, N.div_small by lia. lia.
  - replace (q * c + r + c - 1) with (r - 1 + (q + 1) * c) by lia. rewrite N.div_add, N.div_small by lia. lia.
Qed.

Lemma round_up bytes c : 0 < c <= MAX_DUPLICATE_BYTES -> bytes <= MAX_DUPLICATE_BYTES ->
  round_up_to_cluster bytes c = (bytes + c - 1) / c * c /\ bytes <= round_up_to_cluster bytes c < bytes + c.
Proof.
  intros Hc Hb. unfold round_up_to_cluster. destruct (N.eqb_spec c 0) as [|_]; [lia|].
  pose proof (N.div_mod bytes c) as E. pose proof (N.mod_lt bytes c) as Hlt.
  assert (EC : (bytes + c - 1) / c = if bytes mod c =? 0 then bytes / c else bytes / c + 1).
  { rewrite <- (ceiling (bytes / c) (bytes mod c) c) by lia. f_equal. lia. }
  rewrite EC. destruct (bytes mod c) as [|p]; cbn [N.eqb]; [lia|]. unfold saturating_add, usize_max, u64_max.
  rewrite max_duplicate in *. lia.
Qed.

Section file.
Context (length k : N) (small : k <= 32).

Abbreviation cluster := (2 ^ k).
Abbreviation pieces := (N.to_nat ((length + MAX_DUPLICATE_BYTES - 1) / MAX_DUPLICATE_BYTES)).

Lemma pieces_spec i : (i < pieces)%nat <-> N.of_nat i * MAX_DUPLICATE_BYTES < length.
Proof.
  clear small k. rewrite max_duplicate. pose proof (N.div_mod (length + 4294967296 - 1) 4294967296 ltac:(done)).
  pose proof (N.mod_lt (length + 4294967296 - 1) 4294967296 ltac:(done)).
  revert H H0. generalize ((length + 4294967296 - 1) `div` 4294967296) ((length + 4294967296 - 1) `mod` 4294967296). lia.
Qed.

Lemma extent_legal i : (i < pieces)%nat -> legal length cluster (extent length cluster i).
Proof using small.
  intros Hi%pieces_spec. destruct (cluster_divides k small) as [[m Hm] Hc]. unfold legal, extent. cbn [rg_offset rg_count rg_advance].
  set (advance := N.min _ _). assert (Ha : advance <= MAX_DUPLICATE_BYTES) by lia.
  destruct (round_up advance cluster Hc Ha) as [E Hr]. rewrite E in Hr.
  split_and!; [exists (N.of_nat i * m); lia|by eexists| |lia..].
  rewrite Hm. apply N.mul_le_mono_r. apply N.lt_succ_r, N.Div0.div_lt_upper_bound. lia.
Qed.

Lemma next_extent i : next_range (N.of_nat i * MAX_DUPLICATE_BYTES) length cluster =
  if decide (i < pieces)%nat then Some (extent length cluster i) else None.
Proof using small.
  unfold next_range. destruct (decide (i < pieces)%nat) as [Hi|Hi]; rewrite pieces_spec in Hi.
  - destruct (N.leb_spec length (N.of_nat i * MAX_DUPLICATE_BYTES)); [lia|]. f_equal. unfold extent. f_equal.
    apply round_up; [by apply cluster_divides|lia].
  - destruct (N.leb_spec length (N.of_nat i * MAX_DUPLICATE_BYTES)); [done|lia].
Qed.

Section loop.
Context {S : Type} (device_control : N -> N -> proc S unit (N * str)).

Lemma duplicate_from_spec fuel i offset s :
  (offset = N.of_nat i * MAX_DUPLICATE_BYTES \/ i = pieces /\ offset = length) -> (pieces - i < fuel)%nat ->
  duplicate_from device_control fuel offset length cluster s =
  duplicate_all device_control (extent length cluster <$> seq i (pieces - i)) s.
Proof using small.
  revert i offset s. induction fuel as [|fuel IH]; intros i offset s Ho Hf; [lia|]. cbn [duplicate_from].
  destruct Ho as [->|[-> ->]].
  2: { unfold next_range. rewrite (proj2 (N.leb_le length length)) by lia. by rewrite Nat.sub_diag. }
  rewrite next_extent. destruct (decide (i < pieces)%nat) as [Hi|Hi]; [|by replace (pieces - i)%nat with 0%nat by lia].
  replace (pieces - i)%nat with (Datatypes.S (pieces - Datatypes.S i)) by lia. cbn [seq fmap list_fmap duplicate_all].
  unfold pbind. destruct (pmap_err _ _ s) as [s1 [u|e]]; [|done]. apply (IH (Datatypes.S i)); [|lia].
  unfold extent. cbn [rg_advance]. pose proof (proj1 (pieces_spec i) Hi). pose proof (pieces_spec (Datatypes.S i)).
  rewrite max_duplicate in *. lia.
Qed.

End loop.

Lemma extents_tile i r r' :
  extents length cluster !! i = Some r -> extents length cluster !! Datatypes.S i = Some r' ->
  rg_offset r' = rg_offset r + rg_count r.
Proof using small.
  unfold extents. rewrite !list_lookup_fmap. intros (j & Hj & ->)%fmap_Some (j' & Hj' & ->)%fmap_Some.
  apply lookup_seq in Hj as [-> Hi], Hj' as [-> Hi']. unfold extent. cbn [rg_offset rg_count plus].
  destruct (cluster_divides k small) as [[m Hm] Hc].
  pose proof (proj1 (pieces_spec (Datatypes.S i)) Hi') as Hn.
  replace (N.min (length - N.of_nat i * MAX_DUPLICATE_BYTES) MAX_DUPLICATE_BYTES) with MAX_DUPLICATE_BYTES by lia.
  destruct (round_up MAX_DUPLICATE_BYTES cluster Hc ltac:(lia)) as [<- Hr].
  replace (round_up_to_cluster MAX_DUPLICATE_BYTES cluster) with MAX_DUPLICATE_BYTES; [lia|].
  unfold round_up_to_cluster. destruct (N.eqb_spec cluster 0); [lia|].
  assert (E0 : MAX_DUPLICATE_BYTES mod cluster = 0) by (rewrite Hm; apply N.Div0.mod_mul). by rewrite E0.
Qed.

Lemma extents_sum : foldr (fun r sum => rg_advance r + sum) 0 (extents length cluster) = length.
Proof using small.
  assert (H : forall n i, (i + n = pieces)%nat -> N.of_nat i * MAX_DUPLICATE_BYTES <= length + MAX_DUPLICATE_BYTES ->
    foldr (fun r sum => rg_advance r + sum) 0 (extent length cluster <$> seq i n) = length - N.of_nat i * MAX_DUPLICATE_BYTES).
  { induction n as [|n IH]; intros i Hi Hb; cbn [seq fmap list_fmap foldr].
    - pose proof (pieces_spec i). lia.
    - pose proof (proj1 (pieces_spec i) ltac:(lia)). rewrite IH by lia. unfold extent. cbn [rg_advance]. lia. }
  unfold extents. rewrite H; lia.
Qed.

End file.

(** ** Theorem *)

(** C33: for a file of any length and any cluster size a volume can have, block
    cloning makes exactly the requests of [extents], in order, to the first
    that is refused. Each starts and ends on a cluster, is no larger than the
    call allows, and reaches less than a cluster past its piece of the file;
    each begins where the one before it ended, and together they account for
    every byte of the file. *)
Theorem block_clone_ranges {S} (set_sparse : proc S unit str) set_len device_control (length k : N) sparse s :
  k <= 32 ->
  duplicate_whole_file set_sparse set_len device_control length sparse (2 ^ k) s =
    (do! size_target set_sparse set_len length sparse in duplicate_all device_control (extents length (2 ^ k))) s /\
  Forall (legal length (2 ^ k)) (extents length (2 ^ k)) /\
  (forall i r r', extents length (2 ^ k) !! i = Some r -> extents length (2 ^ k) !! Datatypes.S i = Some r' ->
     rg_offset r' = rg_offset r + rg_count r) /\
  foldr (fun r sum => rg_advance r + sum) 0 (extents length (2 ^ k)) = length.
Proof.
  intros Hk. split_and!; [|apply Forall_forall|intros i r r'; by apply extents_tile|by apply extents_sum].
  - unfold duplicate_whole_file, pbind. destruct (size_target _ _ _ _ s) as [s1 [u|e]]; [|done].
    rewrite (duplicate_from_spec length k Hk device_control _ 0); [|left; lia|].
    + unfold extents. by rewrite Nat.sub_0_r.
    + rewrite max_duplicate. pose proof (N.div_mod (length + 4294967296 - 1) 4294967296 ltac:(done)).
      pose proof (N.div_mod length 4294967296 ltac:(done)). pose proof (N.mod_lt length 4294967296 ltac:(done)). revert H H0 H1.
      generalize ((length + 4294967296 - 1) `div` 4294967296) ((length + 4294967296 - 1) `mod` 4294967296)
        (length `div` 4294967296) (length `mod` 4294967296). lia.
  - intros r (i & -> & Hi)%list_elem_of_fmap. apply elem_of_seq in Hi. apply extent_legal; [done|lia].
Qed.

(** A file of more than one piece. *)
Lemma block_clone_ranges_witness :
  extents 4294967300 4096 = [mkRange 0 4294967296 4294967296; mkRange 4294967296 4096 4] /\
  Forall (legal 4294967300 (2 ^ 12)) (extents 4294967300 (2 ^ 12)).
Proof.
  split; [vm_compute; reflexivity|].
  exact (proj1 (proj2 (block_clone_ranges (S := unit) (pret tt) (fun _ => pret tt) (fun _ _ => pret tt) 4294967300 12 false tt ltac:(lia)))).
Defined.
