(* ===== verification/LocalImport.v ===== *)
(** Family exchange through import refs (src/crates/local-import/src/lib.rs):
    pairing by identity, the import with its capture, its collision check, its
    fetches and its verification, and the push with its refusals.  The
    transport is an interface; [TransportLaws] states its documented
    behaviour on the refs of the repositories. *)

From S2P Require Export RepoContract BTreeMap HostPath.

#[local] Set Default Proof Using "Type".

(** [RepoKey]'s derived order: the root first. *)
#[global] Program Instance RepoKey_ord : OrdKey RepoKey := {|
  key_ltb a b :=
    match a, b with
    | RepoRoot, RepoRoot => false
    | RepoRoot, RepoMember _ => true
    | RepoMember _, RepoRoot => false
    | RepoMember a, RepoMember b => lex_ltb a b
    end;
|}.
Next Obligation. intros [|a]; [done|apply lex_ltb_irrefl]. Qed.
Next Obligation. intros [|a] [|b] [|c]; try done. apply lex_ltb_trans. Qed.
Next Obligation. intros [|a] [|b]; try done. intros. f_equal. by apply lex_ltb_total. Qed.

(** ** Data *)

Definition IMPORT_REF_NAMESPACE : str := lit "refs/gwz/local-imports/".

Record TransferId : Type := mkTransferId { transfer_str : str }.

Inductive SourceSelector : Type := SelectHead | SelectRef (name : str).

Definition refspec_source (selector : SourceSelector) : str :=
  match selector with SelectHead => lit "HEAD" | SelectRef name => name end.

Record Participant : Type := mkParticipant { pa_key : RepoKey; pa_relative_path : str; pa_path : str }.

Record Pairing : Type := mkPairing { pr_key : RepoKey; pr_receiver : str; pr_source : str }.

Record MovedMember : Type := mkMovedMember { mm_key : RepoKey; mm_receiver_path : str; mm_source_path : str }.

Record SourceProblem : Type := mkSourceProblem { sp_key : RepoKey; sp_detail : str }.

Record ImportRequest : Type := mkImportRequest {
  iq_transfer : TransferId;
  iq_receivers : list Participant;
  iq_sources : list Participant;
  iq_selected : list RepoKey;
  iq_selector : SourceSelector;
}.

Record ImportedCommit : Type := mkImportedCommit { ic_key : RepoKey; ic_oid : ObjectId }.

Record ImportedSource : Type := mkImportedSource { is_import_ref : str; is_vector : list ImportedCommit }.

Definition oid_for (imported : ImportedSource) (key : RepoKey) : option ObjectId :=
  ic_oid <$> List.find (fun commit => bool_decide (ic_key commit = key)) (is_vector imported).

Inductive ImportEffect : Type := RefCreated (key : RepoKey) (import_ref : str) (oid : ObjectId).

Inductive ImportError : Type :=
| ImInvalidRequest (detail : str)
| ImPairingIncomplete (missing : list RepoKey) (moved : list MovedMember)
| ImSourceMissing (missing : list SourceProblem)
| ImRefCollision (key : RepoKey) (import_ref : str)
| ImTransferFailed (key : RepoKey) (detail : str) (effects : list ImportEffect)
| ImVectorMismatch (key : RepoKey) (expected : ObjectId) (received : option ObjectId) (effects : list ImportEffect)
| ImCancelled (effects : list ImportEffect).

(** [ImportError::effects]. *)
Definition import_effects (e : ImportError) : list ImportEffect :=
  match e with
  | ImTransferFailed _ _ effects | ImVectorMismatch _ _ _ effects | ImCancelled effects => effects
  | _ => []
  end.

(** [slice::join] of texts with a text between. *)
Fixpoint join_texts (separator : str) (l : list str) : str :=
  match l with
  | [] => []
  | [s] => s
  | s :: l => s ++ separator ++ join_texts separator l
  end.

Definition join_keys (keys : list RepoKey) : str := join_texts (lit ", ") (repo_key_text <$> keys).

Definition import_error_text (e : ImportError) : str :=
  match e with
  | ImInvalidRequest detail => lit "invalid import request: " ++ detail
  | ImPairingIncomplete missing moved =>
      lit "import pairing is incomplete" ++
      (if bool_decide (missing = []) then [] else lit "; unpaired: " ++ join_keys missing) ++
      mjoin ((fun entry => lit "; " ++ repo_key_text (mm_key entry) ++ lit " is at " ++ mm_receiver_path entry ++
                lit " here and " ++ mm_source_path entry ++ lit " there") <$> moved)
  | ImSourceMissing missing =>
      lit "source missing" ++
      mjoin ((fun problem => lit "; " ++ repo_key_text (sp_key problem) ++ lit ": " ++ sp_detail problem) <$> missing)
  | ImRefCollision key import_ref => repo_key_text key ++ lit ": import ref " ++ import_ref ++ lit " already exists"
  | ImTransferFailed key detail _ => repo_key_text key ++ lit ": transfer failed: " ++ detail
  | ImVectorMismatch key expected received _ =>
      repo_key_text key ++ lit ": received " ++ from_option to_hex (lit "nothing") received ++
      lit " but captured " ++ to_hex expected
  | ImCancelled _ => lit "import cancelled"
  end.

(** [TransferId::new]. *)
Definition transfer_new (id : str) : result TransferId ImportError :=
  if bool_decide (id = []) || existsb (N.eqb c_slash) id || existsb is_whitespace id then
    Err (ImInvalidRequest (lit "invalid transfer id `" ++ id ++ lit "`"))
  else Ok (mkTransferId id).

Definition import_ref (transfer : TransferId) : str := IMPORT_REF_NAMESPACE ++ transfer_str transfer.

Inductive TransportError : Type :=
| TeNotLocal (detail : str)
| TeRepository (path detail : str)
| TeRejected (refspec detail : str)
| TeFailed (detail : str).

Definition transport_error_text (e : TransportError) : str :=
  match e with
  | TeNotLocal detail => lit "not a local repository: " ++ detail
  | TeRepository path detail => path ++ lit ": " ++ detail
  | TeRejected refspec detail => refspec ++ lit " rejected: " ++ detail
  | TeFailed detail => detail
  end.

(** ** Ports *)

(** [trait LocalTransport], with the crate's own [Cancellation] beside it. *)
Class LocalTransport (W : Type) : Type := {
  resolve_source : str -> SourceSelector -> proc W ObjectId TransportError;
  ref_exists : str -> str -> proc W bool TransportError;
  fetch_anonymous : str -> str -> list str -> proc W unit TransportError;
  push_anonymous : str -> str -> str -> proc W unit TransportError;
  read_ref : str -> str -> proc W (option ObjectId) TransportError;
  import_is_cancelled : W -> W * bool;
}.

(** ** Pairing *)

Definition lock_path_key (path : str) : str :=
  join_with c_slash
    (List.filter (fun component => negb (bool_decide (component = [])) && negb (bool_decide (component = dot)))
       (split_on c_slash (replace_char c_backslash c_slash path))).

(** [index_by_key]: the first key listed twice is the error. *)
Fixpoint index_from (index : BTreeMap RepoKey Participant) (participants : list Participant) :
    result (BTreeMap RepoKey Participant) RepoKey :=
  match participants with
  | [] => Ok index
  | p :: participants =>
      if bt_contains index (pa_key p) then Err (pa_key p)
      else index_from (bt_insert index (pa_key p) p) participants
  end.

Definition index_by_key (participants : list Participant) : result (BTreeMap RepoKey Participant) RepoKey :=
  index_from bt_empty participants.

(** The loop over the selection: each key once, and of this workspace. *)
Fixpoint check_selected (receivers : BTreeMap RepoKey Participant) (seen selected : list RepoKey) : result unit ImportError :=
  match selected with
  | [] => Ok tt
  | key :: selected =>
      if existsb (fun k => bool_decide (k = key)) seen then
        Err (ImInvalidRequest (repo_key_text key ++ lit " is selected twice"))
      else if negb (bt_contains receivers key) then
        Err (ImInvalidRequest (repo_key_text key ++ lit " is selected but is not a repository of this workspace"))
      else check_selected receivers (seen ++ [key]) selected
  end.

Definition is_selected (request : ImportRequest) (key : RepoKey) : bool :=
  existsb (fun k => bool_decide (k = key)) (iq_selected request).

(** What one receiver adds to the two lists. *)
Definition compare_receiver (request : ImportRequest) (sources : BTreeMap RepoKey Participant)
    (acc : list RepoKey * list MovedMember) (entry : RepoKey * Participant) : list RepoKey * list MovedMember :=
  let '(missing, moved) := acc in
  let '(key, receiver) := entry in
  if bool_decide (key = RepoRoot) then acc
  else match bt_get sources key with
       | None => if is_selected request key then (missing ++ [key], moved) else acc
       | Some source =>
           if bool_decide (lock_path_key (pa_relative_path receiver) <> lock_path_key (pa_relative_path source)) then
             (missing, moved ++ [mkMovedMember key (pa_relative_path receiver) (pa_relative_path source)])
           else acc
       end.

Definition key_le (a b : RepoKey) : Prop := key_ltb b a = false.

#[global] Instance key_le_dec : RelDecision key_le.
Proof. intros a b. unfold key_le. apply _. Defined.

(** [Vec::dedup]. *)
Fixpoint dedup (l : list RepoKey) : list RepoKey :=
  match l with
  | a :: (b :: _) as rest => if bool_decide (a = b) then dedup rest else a :: dedup rest
  | _ => l
  end.

Definition moved_le (a b : MovedMember) : Prop := key_le (mm_key a) (mm_key b).

#[global] Instance moved_le_dec : RelDecision moved_le.
Proof. intros a b. unfold moved_le. apply _. Defined.

(** The source of a selected receiver: the index operator panics on a key that
    is not there. *)
Definition pair_one (sources : BTreeMap RepoKey Participant) (p : Participant) : option Pairing :=
  source ← bt_get sources (pa_key p); Some (mkPairing (pa_key p) (pa_path p) (pa_path source)).

(** [pair_participants]; [Err None] is a panic. *)
Definition pair_participants (request : ImportRequest) : result (list Pairing) (option ImportError) :=
  if bool_decide (iq_selected request = []) then
    Err (Some (ImInvalidRequest (lit "an import needs at least one selected participant")))
  else
    let? receivers := map_err (fun key => Some (ImInvalidRequest (lit "the receiving workspace lists " ++ repo_key_text key ++ lit " twice")))
      (index_by_key (iq_receivers request)) in
    let? sources := map_err (fun key => Some (ImInvalidRequest (lit "the source workspace lists " ++ repo_key_text key ++ lit " twice")))
      (index_by_key (iq_sources request)) in
    let? checked := map_err Some (check_selected receivers [] (iq_selected request)) in
    let '(missing, moved) := foldl (compare_receiver request sources) ([], []) (bt_entries receivers) in
    let missing := missing ++ List.filter (fun key => negb (bool_decide (key = RepoRoot)) && negb (bt_contains receivers key))
      (bt_entries sources).*1 in
    let missing := if is_selected request RepoRoot && negb (bt_contains sources RepoRoot) then missing ++ [RepoRoot] else missing in
    if negb (bool_decide (missing = [])) || negb (bool_decide (moved = [])) then
      Err (Some (ImPairingIncomplete (dedup (merge_sort key_le missing)) (merge_sort moved_le moved)))
    else from_option Ok (Err None)
      (mapM (pair_one sources) (List.filter (fun p => is_selected request (pa_key p)) (iq_receivers request))).

(** ** Import *)

Section import.
Context {W : Type} `{LocalTransport W}.

(** [cancelled]: a poll, and the error with what was done. *)
Definition cancelled (effects : list ImportEffect) : proc W unit (option ImportError) := fun w =>
  let '(w, stop) := import_is_cancelled w in (w, if stop then Err (Some (ImCancelled effects)) else Ok tt).

(** The capture: every source once, the ones that do not resolve collected. *)
Fixpoint capture (selector : SourceSelector) (pairings : list Pairing) (captured : list ImportedCommit)
    (unresolved : list SourceProblem) : W -> W * (list ImportedCommit * list SourceProblem) := fun w =>
  match pairings with
  | [] => (w, (captured, unresolved))
  | pairing :: pairings =>
      let '(w, r) := resolve_source (pr_source pairing) selector w in
      match r with
      | Ok oid => capture selector pairings (captured ++ [mkImportedCommit (pr_key pairing) oid]) unresolved w
      | Err error => capture selector pairings captured (unresolved ++ [mkSourceProblem (pr_key pairing) (transport_error_text error)]) w
      end
  end.

(** The collision check, in every receiver. *)
Fixpoint check_free (name : str) (pairings : list Pairing) : proc W unit (option ImportError) :=
  match pairings with
  | [] => pret tt
  | pairing :: pairings =>
      let! taken := pmap_err (fun error => Some (ImTransferFailed (pr_key pairing)
          (lit "import ref collision check failed: " ++ transport_error_text error) []))
        (ref_exists (pr_receiver pairing) name) in
      if (taken : bool) then pfail (Some (ImRefCollision (pr_key pairing) name)) else check_free name pairings
  end.

(** The fetches, each recorded with the id that was captured. *)
Fixpoint fetch_all (name refspec : str) (work : list (Pairing * ImportedCommit)) (effects : list ImportEffect) :
    proc W (list ImportEffect) (option ImportError) :=
  match work with
  | [] => pret effects
  | (pairing, commit) :: work =>
      do! cancelled effects in
      pcase (fetch_anonymous (pr_receiver pairing) (pr_source pairing) [refspec]) (fun r =>
        match r with
        | Ok _ => fetch_all name refspec work (effects ++ [RefCreated (pr_key pairing) name (ic_oid commit)])
        | Err error =>
            pcase (read_ref (pr_receiver pairing) name) (fun found =>
              let effects := match found with
                             | Ok (Some oid) => effects ++ [RefCreated (pr_key pairing) name oid]
                             | _ => effects
                             end in
              pfail (Some (ImTransferFailed (pr_key pairing) (transport_error_text error) effects)))
        end)
  end.

(** [correct_effect]. *)
Fixpoint correct_effect (effects : list ImportEffect) (key : RepoKey) (received : option ObjectId) : list ImportEffect :=
  match effects with
  | [] => []
  | RefCreated existing name recorded :: effects =>
      if bool_decide (existing = key) then
        match received with Some oid => RefCreated existing name oid :: effects | None => effects end
      else RefCreated existing name recorded :: correct_effect effects key received
  end.

(** The verification of the whole vector. *)
Fixpoint verify_all (name : str) (work : list (Pairing * ImportedCommit)) (effects : list ImportEffect) :
    proc W unit (option ImportError) :=
  match work with
  | [] => pret tt
  | (pairing, commit) :: work =>
      let! received := pmap_err (fun error => Some (ImTransferFailed (pr_key pairing)
          (lit "import ref verification failed: " ++ transport_error_text error) effects))
        (read_ref (pr_receiver pairing) name) in
      if bool_decide (received = Some (ic_oid commit)) then verify_all name work effects
      else pfail (Some (ImVectorMismatch (pr_key pairing) (ic_oid commit) received
             (correct_effect effects (pr_key pairing) received)))
  end.

Definition prepare_import (request : ImportRequest) : proc W ImportedSource (option ImportError) :=
  let! pairings := plift (pair_participants request) in
  let name := import_ref (iq_transfer request) in
  do! cancelled [] in
  fun w =>
    let '(w, (captured, unresolved)) := capture (iq_selector request) pairings [] [] w in
    match unresolved with
    | _ :: _ => (w, Err (Some (ImSourceMissing unresolved)))
    | [] =>
      (do! check_free name pairings in
       let refspec := lit "+" ++ refspec_source (iq_selector request) ++ lit ":" ++ name in
       let! effects := fetch_all name refspec (zip pairings captured) [] in
       do! verify_all name (zip pairings captured) effects in
       pret (mkImportedSource name captured)) w
    end.

End import.

(** ** Push *)

Inductive PushHead : Type := PushAttached (branch : str) | PushDetached.

Inductive ReceiverState : Type := Bare | Checkout (checked_out : option str).

Inductive PushRefusal : Type :=
| PuDetachedHead
| PuCheckedOutBranch (branch : str)
| PuNonBareReceiver (target : str)
| PuMissingSourceRef (name : str)
| PuInvalidRefspec (refspec detail : str).

Definition push_refusal_text (r : PushRefusal) : str :=
  match r with
  | PuDetachedHead => lit "HEAD is detached; name a refspec to publish from here"
  | PuCheckedOutBranch branch => branch ++ lit " is checked out at the receiver"
  | PuNonBareReceiver target =>
      lit "the receiver is not a bare repository, so the local transport cannot publish " ++ target ++ lit " into it"
  | PuMissingSourceRef name => lit "this repository has no " ++ name
  | PuInvalidRefspec refspec detail => lit "refspec `" ++ refspec ++ lit "` is not usable: " ++ detail
  end.

Record PushItem : Type := mkPushItem {
  pi_key : RepoKey;
  pi_source : str;
  pi_destination : str;
  pi_head : PushHead;
  pi_receiver : ReceiverState;
  pi_refspec : option str;
}.

Inductive PushOutcome : Type :=
| Pushed (refspec : str)
| PushRefused (refusal : PushRefusal)
| PushFailed (detail : str).

Record PushResult : Type := mkPushResult { ps_key : RepoKey; ps_outcome : PushOutcome }.

(** [PushReport::all_pushed] and [PushReport::outcome_for]. *)
Definition all_pushed (results : list PushResult) : bool :=
  forallb (fun r => match ps_outcome r with Pushed _ => true | _ => false end) results.

Definition outcome_for (results : list PushResult) (key : RepoKey) : option PushOutcome :=
  ps_outcome <$> List.find (fun r => bool_decide (ps_key r = key)) results.

(** [str::split_once] at a character. *)
Fixpoint split_once (c : N) (s : str) : option (str * str) :=
  match s with
  | [] => None
  | x :: s => if (x =? c)%N then Some ([], s) else '(a, b) ← split_once c s; Some (x :: a, b)
  end.

(** [str::trim_start_matches] of a character. *)
Fixpoint trim_start_char (c : N) (s : str) : str :=
  match s with
  | x :: rest => if (x =? c)%N then trim_start_char c rest else s
  | [] => []
  end.

Definition c_plus : N := 43.

Definition split_refspec (refspec : str) : result (str * str) PushRefusal :=
  match split_once c_colon refspec with
  | None => Err (PuInvalidRefspec refspec (lit "no `:`"))
  | Some (source, destination) =>
      let source := trim_start_char c_plus source in
      if bool_decide (source = []) || bool_decide (destination = []) then
        Err (PuInvalidRefspec refspec (lit "both sides must name a ref"))
      else Ok (source, destination)
  end.

Definition destination_branch (destination : str) : option str := strip_prefix (lit "refs/heads/") destination.

Definition plan_refspec (item : PushItem) : result str PushRefusal :=
  match pi_refspec item, pi_head item with
  | Some refspec, _ => let? parts := split_refspec refspec in Ok refspec
  | None, PushAttached branch => Ok (lit "refs/heads/" ++ branch ++ lit ":refs/heads/" ++ branch)
  | None, PushDetached => Err PuDetachedHead
  end.

Section push.
Context {W : Type} `{LocalTransport W}.

Definition push_one (item : PushItem) : W -> W * PushOutcome := fun w =>
  match plan_refspec item with
  | Err refusal => (w, PushRefused refusal)
  | Ok refspec =>
      match split_refspec refspec with
      | Err refusal => (w, PushRefused refusal)
      | Ok (source_ref, destination_ref) =>
          match pi_receiver item with
          | Checkout checked_out =>
              (w, PushRefused
                 match checked_out, destination_branch destination_ref with
                 | Some checked_out, Some target =>
                     if bool_decide (checked_out = target) then PuCheckedOutBranch target
                     else PuNonBareReceiver destination_ref
                 | _, _ => PuNonBareReceiver destination_ref
                 end)
          | Bare =>
              let '(w, r) := ref_exists (pi_source item) source_ref w in
              match r with
              | Ok true =>
                  let '(w, r) := push_anonymous (pi_source item) (pi_destination item) refspec w in
                  (w, match r with Ok _ => Pushed refspec | Err error => PushFailed (transport_error_text error) end)
              | Ok false => (w, PushRefused (PuMissingSourceRef source_ref))
              | Err error => (w, PushFailed (transport_error_text error))
              end
          end
      end
  end.

Fixpoint push_local (items : list PushItem) : W -> W * list PushResult := fun w =>
  match items with
  | [] => (w, [])
  | item :: items =>
      let '(w, outcome) := push_one item w in
      let '(w, results) := push_local items w in
      (w, mkPushResult (pi_key item) outcome :: results)
  end.

End push.
