(* ===== verification/ImportProofs.v ===== *)
(** What an exchange between family members promises: the pairing is exact and
    never panics; an import writes its one ref in the selected receivers and
    nothing else, and a success means every receiver holds the captured commit
    under it; a push touches only what it was asked to. *)

From S2P Require Export LocalImport.

#[local] Set Default Proof Using "Type".

(** ** The index of a workspace *)

Lemma bt_contains_some {V} (m : BTreeMap RepoKey V) k : bt_contains m k = true <-> is_Some (bt_get m k).
Proof. unfold bt_contains. destruct (bt_get m k); split; done. Qed.

Lemma bt_contains_none {V} (m : BTreeMap RepoKey V) k : bt_contains m k = false <-> bt_get m k = None.
Proof. unfold bt_contains. by destruct (bt_get m k). Qed.

Lemma index_from_spec ps index :
  match index_from index ps with
  | Ok m => NoDup (pa_key <$> ps) /\ (forall p, p ∈ ps -> bt_get index (pa_key p) = None) /\
      forall k p, bt_get m k = Some p <-> bt_get index k = Some p \/ p ∈ ps /\ pa_key p = k
  | Err k => ~ (NoDup (pa_key <$> ps) /\ forall p, p ∈ ps -> bt_get index (pa_key p) = None)
  end.
Proof.
  revert index. induction ps as [|p ps IH]; intros index; cbn [index_from].
  { split_and!; [constructor|by intros p ?%elem_of_nil|]. intros k p. rewrite elem_of_nil. naive_solver. }
  destruct (bt_contains index (pa_key p)) eqn:Ec.
  { apply bt_contains_some in Ec as [x Hx]. intros [_ H]. specialize (H p ltac:(left)). congruence. }
  apply bt_contains_none in Ec. specialize (IH (bt_insert index (pa_key p) p)).
  assert (HG : forall q, q ∈ ps -> bt_get (bt_insert index (pa_key p) p) (pa_key q) = None <->
    pa_key q <> pa_key p /\ bt_get index (pa_key q) = None).
  { intros q _. destruct (decide (pa_key q = pa_key p)) as [->|Hne]; [by rewrite bt_get_insert_eq; split; [|intros []]|].
    rewrite bt_get_insert_ne by done. naive_solver. }
  rewrite fmap_cons. destruct (index_from _ ps) as [m|k].
  - destruct IH as (HN & HF & HM). split_and!.
    + constructor; [|done]. intros (q & Eq & Hq)%list_elem_of_fmap. apply (HG q Hq) in HF as []; done.
    + intros q [->|Hq]%elem_of_cons; [done|]. by destruct (proj1 (HG q Hq) (HF q Hq)).
    + intros k q. rewrite HM, elem_of_cons. destruct (decide (k = pa_key p)) as [->|Hne].
      * rewrite bt_get_insert_eq, Ec. split; [intros [[= ->]|[Hq Ek]]; [by right; split; [left|]|by right; split; [right|]]|].
        intros [[=]|[[->|Hq] Ek]]; [by left|by right].
      * rewrite bt_get_insert_ne by done. naive_solver.
  - intros [[HN1 HN2]%NoDup_cons HF]. apply IH. split; [done|]. intros q Hq. apply HG; [done|]. split; [|by apply HF; right].
    intros E. apply HN1. rewrite <- E. by apply list_elem_of_fmap_2.
Qed.

Lemma index_by_key_spec ps :
  match index_by_key ps with
  | Ok m => NoDup (pa_key <$> ps) /\ forall k p, bt_get m k = Some p <-> p ∈ ps /\ pa_key p = k
  | Err k => ~ NoDup (pa_key <$> ps)
  end.
Proof.
  pose proof (index_from_spec ps bt_empty) as H. unfold index_by_key. destruct (index_from bt_empty ps) as [m|k].
  - destruct H as (HN & _ & HM). split; [done|]. intros k p. rewrite HM, bt_get_empty. naive_solver.
  - intros HN. apply H. split; [done|]. intros. apply bt_get_empty.
Qed.

(** ** The selection *)

Lemma check_selected_spec receivers seen selected :
  NoDup seen ->
  match check_selected receivers seen selected with
  | Ok _ => NoDup (seen ++ selected) /\ forall k, k ∈ selected -> is_Some (bt_get receivers k)
  | Err e => (exists detail, e = ImInvalidRequest detail) /\
      ~ (NoDup (seen ++ selected) /\ forall k, k ∈ selected -> is_Some (bt_get receivers k))
  end.
Proof.
  revert seen. induction selected as [|key selected IH]; intros seen HN; cbn [check_selected].
  { rewrite app_nil_r. split; [done|]. by intros k ?%elem_of_nil. }
  rewrite existsb_member. case_bool_decide as Hin.
  { split; [eauto|]. intros [HD _]. apply NoDup_app in HD as (_ & HD & _). apply (HD key Hin). left. }
  destruct (bt_contains receivers key) eqn:Ec; cbn [negb].
  2: { apply bt_contains_none in Ec. split; [eauto|]. intros [_ H]. destruct (H key ltac:(left)). congruence. }
  apply bt_contains_some in Ec. specialize (IH (seen ++ [key])).
  rewrite <- app_assoc in IH. cbn [app] in IH.
  assert (HN' : NoDup (seen ++ [key])).
  { apply NoDup_app. split_and!; [done|by intros x Hx ->%list_elem_of_singleton|apply NoDup_singleton]. }
  specialize (IH HN'). assert (HE : forall P : Prop, (P /\ forall k, k ∈ key :: selected -> is_Some (bt_get receivers k)) <->
    (P /\ forall k, k ∈ selected -> is_Some (bt_get receivers k))).
  { intros P. split; intros [HP H]; (split; [done|]); intros k Hk; [apply H; by right|]. apply elem_of_cons in Hk as [->|Hk]; [done|by apply H]. }
  destruct (check_selected _ _ _); [by apply HE|]. destruct IH as [He IH]. split; [done|]. by rewrite HE.
Qed.

(** ** The comparison of the two workspaces *)

Definition unpaired (request : ImportRequest) (sources : BTreeMap RepoKey Participant) (entry : RepoKey * Participant) : option RepoKey :=
  if bool_decide (entry.1 = RepoRoot) || bt_contains sources entry.1 || negb (is_selected request entry.1) then None
  else Some entry.1.

Definition relocated (sources : BTreeMap RepoKey Participant) (entry : RepoKey * Participant) : option MovedMember :=
  if bool_decide (entry.1 = RepoRoot) then None
  else source ← bt_get sources entry.1;
    if bool_decide (lock_path_key (pa_relative_path entry.2) = lock_path_key (pa_relative_path source)) then None
    else Some (mkMovedMember entry.1 (pa_relative_path entry.2) (pa_relative_path source)).

Lemma compare_one request sources entry missing moved :
  compare_receiver request sources (missing, moved) entry =
  (missing ++ option_list (unpaired request sources entry), moved ++ option_list (relocated sources entry)).
Proof.
  destruct entry as [key receiver]. unfold compare_receiver, unpaired, relocated, bt_contains. cbn [fst snd].
  destruct (bool_decide (key = RepoRoot)); cbn; [by rewrite !app_nil_r|].
  destruct (bt_get sources key) as [source|]; cbn.
  - rewrite bool_decide_not. destruct (bool_decide (_ = _)); cbn; by rewrite !app_nil_r.
  - destruct (is_selected request key); cbn; by rewrite !app_nil_r.
Qed.

Lemma omap_option_list {A B} (f : A -> option B) x l : omap f (x :: l) = option_list (f x) ++ omap f l.
Proof. cbn. by destruct (f x). Qed.

Lemma compare_fold request sources entries missing moved :
  foldl (compare_receiver request sources) (missing, moved) entries =
  (missing ++ omap (unpaired request sources) entries, moved ++ omap (relocated sources) entries).
Proof.
  revert missing moved. induction entries as [|entry entries IH]; intros missing moved; [by rewrite !app_nil_r|].
  cbn [foldl]. by rewrite compare_one, IH, !omap_option_list, !app_assoc.
Qed.

(** *** Sorting *)

#[local] Instance key_le_trans : Transitive key_le.
Proof.
  intros a b c H1 H2. unfold key_le in *. destruct (key_ltb c a) eqn:E; [|done].
  destruct (key_ltb b c) eqn:E1; [by rewrite (key_ltb_trans _ _ _ E1 E) in H1|]. assert (b = c) as -> by (by apply key_ltb_total). congruence.
Qed.

#[local] Instance key_le_total : Total key_le.
Proof.
  intros a b. unfold key_le. destruct (key_ltb b a) eqn:E; [right|by left]. destruct (key_ltb a b) eqn:E'; [|done].
  pose proof (key_ltb_trans _ _ _ E E') as E2. by rewrite key_ltb_irrefl in E2.
Qed.

Lemma dedup_elem l k : k ∈ dedup l <-> k ∈ l.
Proof.
  induction l as [|a [|b l] IH]; [done|done|]. change (dedup (a :: b :: l)) with (if bool_decide (a = b) then dedup (b :: l) else a :: dedup (b :: l)).
  case_bool_decide as E; [subst b; rewrite IH, !elem_of_cons; naive_solver|]. by rewrite elem_of_cons, IH, (elem_of_cons (b :: l)).
Qed.

Lemma dedup_sorted l : StronglySorted key_le l -> StronglySorted key_le (dedup l) /\ NoDup (dedup l).
Proof.
  induction l as [|a [|b l] IH]; [by split; constructor|split; [done|by apply NoDup_singleton]|].
  change (dedup (a :: b :: l)) with (if bool_decide (a = b) then dedup (b :: l) else a :: dedup (b :: l)).
  intros [HS HF]%StronglySorted_inv. destruct (IH HS) as [IHS IHN]. case_bool_decide as E; [done|].
  assert (HF' : Forall (key_le a) (dedup (b :: l))).
  { apply Forall_forall. intros x Hx. apply (proj1 (Forall_forall _ _) HF). by apply dedup_elem. }
  split; [by constructor|]. constructor; [|done]. intros Ha. apply (dedup_elem (b :: l)), elem_of_cons in Ha as [|Ha]; [done|].
  apply StronglySorted_inv in HS as [_ HB]. apply (proj1 (Forall_forall _ _) HB) in Ha.
  pose proof (proj1 (Forall_forall _ _) HF b ltac:(left)) as Hb.
  apply E. unfold key_le in *. by apply key_ltb_total.
Qed.

Lemma sorted_missing l : let l' := dedup (merge_sort key_le l) in
  StronglySorted key_le l' /\ NoDup l' /\ (l' = [] <-> l = []) /\ forall k, k ∈ l' <-> k ∈ l.
Proof.
  intros l'. destruct (dedup_sorted (merge_sort key_le l)) as [HS HN].
  { apply (StronglySorted_merge_sort key_le). }
  assert (HE : forall k, k ∈ l' <-> k ∈ l) by (intros k; unfold l'; by rewrite dedup_elem, merge_sort_Permutation).
  split_and!; [done|done| |done]. split; intros E.
  - destruct l as [|x l]; [done|]. assert (H : x ∈ l') by (apply HE; left). rewrite E in H. by apply elem_of_nil in H.
  - destruct l' as [|x l'']; [done|]. assert (H : x ∈ l) by (apply HE; left). rewrite E in H. by apply elem_of_nil in H.
Qed.

(** *** Exactness *)

Definition listed (ps : list Participant) (k : RepoKey) : Prop := k ∈ pa_key <$> ps.

#[global] Instance listed_dec ps k : Decision (listed ps k).
Proof. unfold listed. apply _. Defined.

Record well_posed (request : ImportRequest) : Prop := {
  wp_some : iq_selected request <> [];
  wp_receivers : NoDup (pa_key <$> iq_receivers request);
  wp_sources : NoDup (pa_key <$> iq_sources request);
  wp_once : NoDup (iq_selected request);
  wp_known k : k ∈ iq_selected request -> listed (iq_receivers request) k;
}.

(** A member only the source has, a selected one only the receiver has, or a
    selected root the source does not have. *)
Definition unserved (request : ImportRequest) (k : RepoKey) : Prop :=
  if decide (k = RepoRoot) then RepoRoot ∈ iq_selected request /\ ~ listed (iq_sources request) RepoRoot
  else listed (iq_sources request) k /\ ~ listed (iq_receivers request) k \/
       k ∈ iq_selected request /\ listed (iq_receivers request) k /\ ~ listed (iq_sources request) k.

Definition moved_between (request : ImportRequest) (m : MovedMember) : Prop :=
  mm_key m <> RepoRoot /\ exists receiver source,
    receiver ∈ iq_receivers request /\ source ∈ iq_sources request /\
    pa_key receiver = mm_key m /\ pa_key source = mm_key m /\
    mm_receiver_path m = pa_relative_path receiver /\ mm_source_path m = pa_relative_path source /\
    lock_path_key (pa_relative_path receiver) <> lock_path_key (pa_relative_path source).

(** A receiver with the source of its key. *)
Definition pairs (request : ImportRequest) (p : Pairing) : Prop :=
  exists receiver source, receiver ∈ iq_receivers request /\ source ∈ iq_sources request /\
    pa_key receiver = pr_key p /\ pa_key source = pr_key p /\ pr_receiver p = pa_path receiver /\ pr_source p = pa_path source.

Section pairing.
Context (request : ImportRequest) (receivers sources : BTreeMap RepoKey Participant).
Context (index_receivers : forall k p, bt_get receivers k = Some p <-> p ∈ iq_receivers request /\ pa_key p = k).
Context (index_sources : forall k p, bt_get sources k = Some p <-> p ∈ iq_sources request /\ pa_key p = k).

Lemma index_listed m ps : (forall k p, bt_get m k = Some p <-> p ∈ ps /\ pa_key p = k) ->
  forall k, is_Some (bt_get m k) <-> listed ps k.
Proof.
  intros H k. unfold listed. rewrite list_elem_of_fmap. split.
  - intros [p [Hp <-]%H]. eauto.
  - intros (p & -> & Hp). exists p. by apply H.
Qed.

Lemma selected_elem k : is_selected request k = true <-> k ∈ iq_selected request.
Proof. unfold is_selected. rewrite existsb_member. apply bool_decide_eq_true. Qed.

Lemma unpaired_elem k : k ∈ omap (unpaired request sources) (bt_entries receivers) <->
  k <> RepoRoot /\ k ∈ iq_selected request /\ listed (iq_receivers request) k /\ ~ listed (iq_sources request) k.
Proof using index_receivers index_sources.
  rewrite list_elem_of_omap. rewrite <- selected_elem, <- (index_listed _ _ index_receivers), <- (index_listed _ _ index_sources). split.
  - intros ([k' p] & Hin%bt_elem_get & Hu). unfold unpaired in Hu. cbn [fst] in Hu. case_bool_decide; [done|]. cbn [orb] in Hu.
    destruct (bt_contains sources k') eqn:Ec; [done|]. apply bt_contains_none in Ec. cbn [orb] in Hu.
    destruct (is_selected request k') eqn:Es; [|done]. injection Hu as <-. rewrite Hin, Ec. split_and!; [done|done|eauto|by intros []].
  - intros (Hr & Hs & [p Hp] & Hn). exists (k, p). split; [by apply bt_elem_get|]. unfold unpaired. cbn [fst].
    rewrite bool_decide_false by done. apply eq_None_not_Some, bt_contains_none in Hn. by rewrite Hn, Hs.
Qed.

Lemma relocated_elem m : m ∈ omap (relocated sources) (bt_entries receivers) <-> moved_between request m.
Proof using index_receivers index_sources.
  rewrite list_elem_of_omap. split.
  - intros ([k r] & Hin%bt_elem_get & Hu). apply index_receivers in Hin as [Hr Ek]. unfold relocated in Hu. cbn [fst snd] in Hu.
    case_bool_decide; [done|]. apply bind_Some in Hu as (source & [Hs Es]%index_sources & Hu). case_bool_decide; [done|].
    injection Hu as <-. split; [done|]. by exists r, source.
  - destruct m as [k a b]. intros (Hk & r & source & Hr & Hs & Er & Es & Ea & Eb & Hne). cbn in *. subst a b.
    exists (k, r). split; [by apply bt_elem_get, index_receivers|]. unfold relocated. cbn [fst snd]. rewrite bool_decide_false by done.
    rewrite (proj2 (index_sources k source)) by done. cbn [mbind option_bind]. by rewrite bool_decide_false.
Qed.

Lemma unserved_elem k :
  k ∈ (if is_selected request RepoRoot && negb (bt_contains sources RepoRoot)
       then (omap (unpaired request sources) (bt_entries receivers) ++
             List.filter (fun key => negb (bool_decide (key = RepoRoot)) && negb (bt_contains receivers key)) (bt_entries sources).*1) ++ [RepoRoot]
       else omap (unpaired request sources) (bt_entries receivers) ++
             List.filter (fun key => negb (bool_decide (key = RepoRoot)) && negb (bt_contains receivers key)) (bt_entries sources).*1) <->
  unserved request k.
Proof using index_receivers index_sources.
  assert (HF : k ∈ List.filter (fun key => negb (bool_decide (key = RepoRoot)) && negb (bt_contains receivers key)) (bt_entries sources).*1 <->
    k <> RepoRoot /\ listed (iq_sources request) k /\ ~ listed (iq_receivers request) k).
  { rewrite list_elem_of_In, filter_In, <- list_elem_of_In, <- (index_listed _ _ index_receivers), <- (index_listed _ _ index_sources).
    rewrite andb_true_iff, !negb_true_iff, bool_decide_eq_false, bt_contains_none, eq_None_not_Some, list_elem_of_fmap. split.
    - intros [([k' p] & -> & Hp%bt_elem_get) [Hr Hn]]. split_and!; [done|eauto|done].
    - intros (Hr & [p Hp] & Hn). split; [|done]. exists (k, p). split; [done|by apply bt_elem_get]. }
  assert (HR : is_selected request RepoRoot && negb (bt_contains sources RepoRoot) = true <->
    RepoRoot ∈ iq_selected request /\ ~ listed (iq_sources request) RepoRoot).
  { rewrite andb_true_iff, negb_true_iff, selected_elem, bt_contains_none, eq_None_not_Some. by rewrite (index_listed _ _ index_sources). }
  unfold unserved. destruct (decide (k = RepoRoot)) as [->|Hk].
  - rewrite <- HR. destruct (_ && _); rewrite ?elem_of_app, unpaired_elem, HF, ?list_elem_of_singleton; naive_solver.
  - destruct (_ && _); rewrite ?elem_of_app, unpaired_elem, HF, ?list_elem_of_singleton; naive_solver.
Qed.

Lemma pairings_spec ps :
  (forall k, k ∈ iq_selected request -> listed (iq_sources request) k) -> NoDup (pa_key <$> ps) -> ps ⊆ iq_receivers request ->
  exists out, mapM (pair_one sources) (List.filter (fun p => is_selected request (pa_key p)) ps) = Some out /\
    pr_key <$> out = List.filter (is_selected request) (pa_key <$> ps) /\ Forall (pairs request) out.
Proof using index_sources.
  clear index_receivers receivers. intros HS. induction ps as [|p ps IH]; intros HN Hsub; [by exists []|]. rewrite fmap_cons in HN. apply NoDup_cons in HN as [_ HN].
  destruct IH as (out & Eo & Ek & HF); [done|set_solver|]. rewrite fmap_cons. cbn [List.filter].
  destruct (is_selected request (pa_key p)) eqn:Es; [|by exists out].
  apply selected_elem, HS, (index_listed _ _ index_sources) in Es as [source Hs].
  assert (E1 : pair_one sources p = Some (mkPairing (pa_key p) (pa_path p) (pa_path source))) by (unfold pair_one; by rewrite Hs).
  exists (mkPairing (pa_key p) (pa_path p) (pa_path source) :: out). split_and!; [cbn; rewrite E1; cbn; by rewrite Eo|by rewrite fmap_cons, Ek|]. constructor; [|done]. apply index_sources in Hs as [Hs Esk].
  exists p, source. split_and!; try done. set_solver.
Qed.

End pairing.

Lemma pair_participants_spec request :
  match pair_participants request with
  | Ok ps => well_posed request /\ (forall k, ~ unserved request k) /\ (forall m, ~ moved_between request m) /\
      pr_key <$> ps = List.filter (is_selected request) (pa_key <$> iq_receivers request) /\ Forall (pairs request) ps
  | Err (Some (ImPairingIncomplete missing moved)) =>
      well_posed request /\ (missing <> [] \/ moved <> []) /\
      (forall k, k ∈ missing <-> unserved request k) /\ NoDup missing /\ StronglySorted key_le missing /\
      (forall m, m ∈ moved <-> moved_between request m)
  | Err (Some (ImInvalidRequest _)) => ~ well_posed request
  | Err _ => False
  end.
Proof.
  unfold pair_participants. case_bool_decide as He; [by intros []|].
  pose proof (index_by_key_spec (iq_receivers request)) as HR. destruct (index_by_key (iq_receivers request)) as [receivers|k]; cbn [map_err rbind];
    [destruct HR as [HR1 HR2]|by intros []].
  pose proof (index_by_key_spec (iq_sources request)) as HS. destruct (index_by_key (iq_sources request)) as [sources|k]; cbn [map_err rbind];
    [destruct HS as [HS1 HS2]|by intros []].
  pose proof (check_selected_spec receivers [] (iq_selected request) ltac:(constructor)) as HC. cbn [app] in HC.
  destruct (check_selected _ _ _) as [u|e]; cbn [map_err rbind].
  2: { destruct HC as [[detail ->] HC]. intros [W1 W2 W3 W4 W5]. apply HC. split; [done|]. intros k Hk.
       by apply (index_listed receivers _ HR2), W5. }
  destruct HC as [HC1 HC2].
  assert (HW : well_posed request).
  { split; try done. intros k Hk. by apply (index_listed receivers _ HR2), HC2. }
  rewrite compare_fold. cbn [app].
  pose proof (unserved_elem request receivers sources HR2 HS2) as HU. revert HU.
  set (missing := if is_selected request RepoRoot && _ then _ else _). intros HU.
  pose proof (relocated_elem request receivers sources HR2 HS2) as HM. set (moved := omap (relocated sources) (bt_entries receivers)) in *.
  destruct (sorted_missing missing) as (SS & SN & SE & SI).
  destruct (decide (missing = [])) as [E1|E1]; [rewrite (bool_decide_true (missing = [])) by done|rewrite (bool_decide_false (missing = [])) by done]; cbn [negb orb].
  - destruct (decide (moved = [])) as [E2|E2]; [rewrite (bool_decide_true (moved = [])) by done|rewrite (bool_decide_false (moved = [])) by done]; cbn [negb].
    + assert (HNU : forall k, ~ unserved request k) by (intros k Hk%HU; rewrite E1 in Hk; by apply elem_of_nil in Hk).
      assert (HNM : forall m, ~ moved_between request m) by (intros m Hm%HM; rewrite E2 in Hm; by apply elem_of_nil in Hm).
      destruct (pairings_spec request sources HS2 (iq_receivers request)) as (out & -> & Ek & HF); [|done|done|by split_and!].
      intros k Hk. specialize (HNU k). unfold unserved in HNU. destruct HW as [_ _ _ _ HK]. specialize (HK k Hk).
      destruct (decide (listed (iq_sources request) k)) as [|Hn]; [done|]. destruct (decide (k = RepoRoot)) as [->|]; naive_solver.
    + split_and!; try done; [right|by intros k; rewrite SI, HU|intros m; by rewrite merge_sort_Permutation, HM].
      intros E. apply E2. apply Permutation_nil_r. by rewrite <- E, merge_sort_Permutation.
  - split_and!; try done; [left; by rewrite SE|by intros k; rewrite SI, HU|intros m; by rewrite merge_sort_Permutation, HM].
Qed.

(** ** The transport *)

(** What the port is documented to do to the refs of the repositories its
    paths lead to: reads change none and answer truly; a fetch of one refspec
    changes at most that ref of the receiver, which is there after a success
    and never lost; a push changes at most the ref its refspec names. *)
Class TransportLaws (W : Type) `{LocalTransport W} : Type := {
  Repository : Type;
  repository_eq_dec :: EqDecision Repository;
  repository_of : str -> Repository;
  refs : W -> Repository -> str -> option ObjectId;
  resolve_reads w w' path selector r : resolve_source path selector w = (w', r) -> refs w' = refs w;
  exists_reads w w' path name r : ref_exists path name w = (w', r) ->
    refs w' = refs w /\ (forall there, r = Ok there -> there = true <-> is_Some (refs w (repository_of path) name));
  read_reads w w' path name r : read_ref path name w = (w', r) ->
    refs w' = refs w /\ (forall oid, r = Ok oid -> oid = refs w (repository_of path) name);
  poll_reads w w' stop : import_is_cancelled w = (w', stop) -> refs w' = refs w;
  fetch_writes w w' receiver source from name r :
    fetch_anonymous receiver source [lit "+" ++ from ++ lit ":" ++ name] w = (w', r) ->
    (forall repo n, repo <> repository_of receiver \/ n <> name -> refs w' repo n = refs w repo n) /\
    (r = Ok tt \/ is_Some (refs w (repository_of receiver) name) -> is_Some (refs w' (repository_of receiver) name));
  push_writes w w' source destination refspec r :
    push_anonymous source destination refspec w = (w', r) ->
    forall repo n, repo <> repository_of destination \/ (forall from, split_refspec refspec <> Ok (from, n)) ->
      refs w' repo n = refs w repo n;
}.

Section importing.
Context {W : Type} `{TransportLaws W}.
Context (name from : str).

Abbreviation refspec := (lit "+" ++ from ++ lit ":" ++ name).
Abbreviation at_receiver w p := (refs w (repository_of (pr_receiver p)) name).
Abbreviation effect_of := (fun pc : Pairing * ImportedCommit => RefCreated (pr_key pc.1) name (ic_oid pc.2)).

Lemma capture_spec selector ps captured unresolved w w' captured' unresolved' :
  capture selector ps captured unresolved w = (w', (captured', unresolved')) ->
  refs w' = refs w /\ (unresolved' = [] -> unresolved = [] /\ ic_key <$> captured' = (ic_key <$> captured) ++ (pr_key <$> ps)).
Proof.
  revert captured unresolved w. induction ps as [|p ps IH]; intros captured unresolved w; cbn [capture].
  { intros [= <- <- <-]. rewrite app_nil_r. done. }
  destruct (resolve_source (pr_source p) selector w) as [w1 r] eqn:E1. apply resolve_reads in E1. destruct r as [oid|error]; intros HC;
    apply IH in HC as [E2 HU]; (split; [congruence|]); intros En; destruct (HU En) as [HN HK].
  - split; [done|]. rewrite HK, fmap_app, fmap_cons, <- app_assoc. done.
  - by apply app_nil in HN as [_ ?].
Qed.

Lemma cancelled_spec effects w w' r :
  cancelled effects w = (w', r) -> refs w' = refs w /\ (r = Ok tt \/ r = Err (Some (ImCancelled effects))).
Proof.
  unfold cancelled. destruct (import_is_cancelled w) as [w1 stop] eqn:E1. apply poll_reads in E1.
  intros [= <- <-]. split; [done|]. destruct stop; [by right|by left].
Qed.

Lemma check_free_spec ps w w' r :
  check_free name ps w = (w', r) ->
  refs w' = refs w /\
  match r with
  | Ok _ => Forall (fun p => at_receiver w p = None) ps
  | Err e => exists e', e = Some e' /\ import_effects e' = []
  end.
Proof.
  revert w. induction ps as [|p ps IH]; intros w; cbn [check_free]; [by intros [= <- <-]|].
  intros [(e & (r0 & [E1 _]%exists_reads & He)%pmap_err_inv & ->)|(taken & w1 & (r0 & [E1 HT]%exists_reads & Hr)%pmap_err_inv & H2)]%pbind_inv.
  { split; [done|]. destruct r0; [done|]. injection He as ->. eauto. }
  destruct r0 as [there|]; [|done]. injection Hr as ->. specialize (HT _ eq_refl). destruct there; [injection H2 as <- <-; eauto|].
  apply IH in H2 as [E2 H2]. rewrite E1 in *. split; [done|]. destruct r; [|done]. constructor; [|done].
  apply eq_None_not_Some. intros Hs%HT. done.
Qed.

(** Effects are truthful of the pairings [ps]: each names a receiver that has
    the ref, and every receiver that has it is the repository of one of them,
    but for the one [except] names. *)
Record truthful (ps : list Pairing) (effects : list ImportEffect) (except : option RepoKey) (w : W) : Prop := {
  tf_there key n oid : RefCreated key n oid ∈ effects -> n = name /\ exists p, p ∈ ps /\ pr_key p = key /\ is_Some (at_receiver w p);
  tf_all p : p ∈ ps -> is_Some (at_receiver w p) -> exists q, q ∈ ps /\
    repository_of (pr_receiver q) = repository_of (pr_receiver p) /\
    ((exists oid, RefCreated (pr_key q) name oid ∈ effects) \/ except = Some (pr_key q));
}.

(** The receiver of a transfer that failed. *)
Definition failed_at (e : ImportError) : option RepoKey :=
  match e with ImTransferFailed key _ _ => Some key | _ => None end.

Definition reported (ps : list Pairing) (w : W) (e : option ImportError) : Prop :=
  exists e', e = Some e' /\ truthful ps (import_effects e') (failed_at e') w.

Lemma truthful_same ps effects except w w' : refs w' = refs w -> truthful ps effects except w -> truthful ps effects except w'.
Proof. intros E [H1 H2]. split; [intros key n oid Hk; rewrite E; by eapply H1|intros p Hp; rewrite E; by apply H2]. Qed.

Lemma truthful_except ps effects except w : truthful ps effects None w -> truthful ps effects except w.
Proof. intros [H1 H2]. split; [done|]. intros p Hp Hs. destruct (H2 p Hp Hs) as (q & Hq & Er & [He|[=]]). eauto 6. Qed.

(** A fetch into the receiver of [p], and what is recorded of it. *)
Lemma truthful_fetch ps effects p w w' source r except more :
  p ∈ ps -> truthful ps effects None w -> fetch_anonymous (pr_receiver p) source [refspec] w = (w', r) ->
  (forall key n oid, RefCreated key n oid ∈ more -> key = pr_key p /\ n = name /\ is_Some (at_receiver w' p)) ->
  (except = Some (pr_key p) \/ exists oid, RefCreated (pr_key p) name oid ∈ more) ->
  truthful ps (effects ++ more) except w'.
Proof.
  intros Hp [H1 H2] [HF HS]%fetch_writes Hmore Hex. split.
  - intros key n oid [Hk|Hk]%elem_of_app; [|destruct (Hmore _ _ _ Hk) as (-> & -> & ?); eauto].
    destruct (H1 _ _ _ Hk) as (-> & q & Hq & <- & Hs). split; [done|]. exists q. split_and!; [done..|].
    destruct (decide (is_Some (refs w' (repository_of (pr_receiver q)) name))) as [|Hn]; [done|].
    exfalso. assert (HE : repository_of (pr_receiver q) <> repository_of (pr_receiver p)).
    { intros E. rewrite E in Hn, Hs. by apply Hn, HS; right. }
    rewrite HF in Hn by (by left). done.
  - intros q Hq Hs. destruct (decide (repository_of (pr_receiver q) = repository_of (pr_receiver p))) as [E|Hne].
    + exists p. split_and!; [done..|]. destruct Hex as [->|[oid Ho]]; [by right|left]. exists oid. apply elem_of_app. by right.
    + rewrite HF in Hs by (by left). destruct (H2 q Hq Hs) as (q' & Hq' & Er & [[oid Ho]|[=]]). exists q'. split_and!; [done..|].
      left. exists oid. apply elem_of_app. by left.
Qed.

Lemma fetch_keeps receiver source w w' r repo :
  fetch_anonymous receiver source [refspec] w = (w', r) -> is_Some (refs w repo name) -> is_Some (refs w' repo name).
Proof.
  intros [HF HS]%fetch_writes Hs. destruct (decide (repo = repository_of receiver)) as [->|Hne]; [by apply HS; right|].
  by rewrite HF by (by left).
Qed.

(** Where the fetches of [work] may write. *)
Definition outside (work : list (Pairing * ImportedCommit)) (repo : Repository) (n : str) : Prop :=
  n <> name \/ forall pc, pc ∈ work -> repository_of (pr_receiver pc.1) <> repo.

Lemma fetch_all_spec ps work effects w w' r :
  work.*1 ⊆ ps -> truthful ps effects None w -> fetch_all name refspec work effects w = (w', r) ->
  (forall repo n, outside work repo n -> refs w' repo n = refs w repo n) /\
  match r with
  | Ok effects' => truthful ps effects' None w'
  | Err e => reported ps w' e
  end.
Proof.
  revert effects w. induction work as [|[p c] work IH]; intros effects w Hsub HT; cbn [fetch_all]; [by intros [= <- <-]|].
  assert (Hp : p ∈ ps) by (apply Hsub; left). assert (Hsub' : work.*1 ⊆ ps) by (intros x Hx; apply Hsub; by right).
  intros [(e & [E1 Hc]%cancelled_spec & ->)|(u & w1 & [E1 _]%cancelled_spec & (r0 & w2 & H2 & H3)%pcase_inv)]%pbind_inv.
  { destruct Hc as [[=]|[= ->]]. split; [by rewrite E1|]. eexists. split; [done|]. by eapply truthful_same. }
  apply (truthful_same _ _ _ _ _ E1) in HT. pose proof (fetch_writes _ _ _ _ _ _ _ H2) as [HF HS].
  assert (HO : forall repo n, outside ((p, c) :: work) repo n -> refs w2 repo n = refs w repo n).
  { intros repo n Ho. rewrite HF, E1; [done|]. destruct Ho as [|Ho]; [by right|left]. intros ->. by apply (Ho (p, c) ltac:(left)). }
  assert (HO' : forall repo n, outside ((p, c) :: work) repo n -> outside work repo n).
  { intros repo n [|Ho]; [by left|right]. intros pc Hpc. apply Ho. by right. }
  destruct r0 as [[]|error].
  - apply IH in H3 as [HF3 H3]; [|done|].
    + split; [|done]. intros repo n Ho. by rewrite HF3, HO by auto.
    + eapply truthful_fetch; [done|exact HT|exact H2| |by right; eexists; left].
      intros key n oid [= -> -> ->]%list_elem_of_singleton. split_and!; [done..|]. by apply HS; left.
  - apply pcase_inv in H3 as (found & w3 & [E3 HR]%read_reads & [= <- <-]). split; [intros repo n Ho; rewrite E3; by apply HO|].
    eexists. split; [done|]. cbn [import_effects failed_at]. eapply truthful_same; [exact E3|].
    assert (HK : forall more, (forall key n oid, RefCreated key n oid ∈ more -> key = pr_key p /\ n = name /\ is_Some (at_receiver w2 p)) ->
      truthful ps (effects ++ more) (Some (pr_key p)) w2) by (intros more Hm; eapply truthful_fetch; try done; by left).
    destruct found as [[oid|]|e].
    + apply HK. intros key n o [= -> -> ->]%list_elem_of_singleton. split_and!; [done..|]. rewrite <- (HR _ eq_refl). eauto.
    + rewrite <- (app_nil_r effects). apply HK. by intros key n o ?%elem_of_nil.
    + rewrite <- (app_nil_r effects). apply HK. by intros key n o ?%elem_of_nil.
Qed.

(** *** Verification *)

Lemma correct_there effects key received k n oid :
  RefCreated k n oid ∈ correct_effect effects key received ->
  RefCreated k n oid ∈ effects \/ k = key /\ received = Some oid /\ exists oid', RefCreated k n oid' ∈ effects.
Proof.
  induction effects as [|[k' n' oid'] effects IH]; cbn [correct_effect]; [by left|]. case_bool_decide as E.
  - destruct received as [o|]; [|left; by right]. intros [[= -> -> ->]|Hk]%elem_of_cons; [right|left; by right].
    split_and!; [done..|]. eexists. left.
  - intros [[= -> -> ->]|[Hk|(-> & -> & o & Hk)]%IH]%elem_of_cons; [left; left|left; by right|right]. split_and!; [done..|]. exists o. by right.
Qed.

Lemma correct_all effects key received k n oid :
  RefCreated k n oid ∈ effects -> k <> key \/ is_Some received -> exists oid', RefCreated k n oid' ∈ correct_effect effects key received.
Proof.
  intros Hin Hk. induction effects as [|[k' n' oid'] effects IH]; [by apply elem_of_nil in Hin|]. cbn [correct_effect]. case_bool_decide as E.
  - apply elem_of_cons in Hin as [[= -> -> ->]|Hin].
    + destruct Hk as [|[o ->]]; [done|]. eexists. left.
    + destruct received; eexists; [by right|done].
  - apply elem_of_cons in Hin as [[= -> -> ->]|Hin]; [eexists; left|]. destruct (IH Hin) as [o Ho]. exists o. by right.
Qed.

Lemma verify_all_spec ps work effects w w' r :
  work.*1 ⊆ ps -> NoDup (pr_key <$> ps) -> truthful ps effects None w -> verify_all name work effects w = (w', r) ->
  refs w' = refs w /\
  match r with
  | Ok _ => Forall (fun pc : Pairing * ImportedCommit => at_receiver w pc.1 = Some (ic_oid pc.2)) work
  | Err e => reported ps w' e
  end.
Proof.
  intros Hsub HN HT. revert w HT. induction work as [|[p c] work IH]; intros w HT; cbn [verify_all]; [by intros [= <- <-]|].
  assert (Hp : p ∈ ps) by (apply Hsub; left). assert (Hsub' : work.*1 ⊆ ps) by (intros x Hx; apply Hsub; by right).
  intros [(e & (r0 & [E1 _]%read_reads & He)%pmap_err_inv & ->)|(received & w1 & (r0 & [E1 HR]%read_reads & Hr)%pmap_err_inv & H2)]%pbind_inv.
  { split; [done|]. destruct r0; [done|]. injection He as ->. eexists. split; [done|]. eapply truthful_same; [done|]. by apply truthful_except. }
  destruct r0 as [o|]; [|done]. injection Hr as ->. specialize (HR _ eq_refl). case_bool_decide as Eq.
  - apply IH in H2 as [E2 H2]; [|done|by eapply truthful_same]. rewrite E1 in *. split; [done|]. destruct r; [|done].
    constructor; [|done]. cbn [fst snd]. congruence.
  - injection H2 as <- <-. split; [done|]. eexists. split; [done|]. cbn [import_effects failed_at]. eapply truthful_same; [exact E1|].
    destruct HT as [H1 H2]. split.
    + intros key n oid [Hk|(-> & Ho & oid' & Hk)]%correct_there; [by eapply H1|]. destruct (H1 _ _ _ Hk) as (-> & _). split; [done|].
      exists p. split_and!; [done..|]. rewrite <- HR, Ho. eauto.
    + intros q Hq Hs. destruct (H2 q Hq Hs) as (q' & Hq' & Er & [[oid Ho]|[=]]). exists q'. split_and!; [done..|]. left.
      eapply correct_all; [exact Ho|]. destruct (decide (pr_key q' = pr_key p)) as [Ek|]; [right|by left].
      assert (q' = p) as ->.
      { apply list_elem_of_lookup in Hp as [i Hi]. apply list_elem_of_lookup in Hq' as [j Hj].
        assert (i = j) as -> by (eapply NoDup_lookup; [exact HN| |]; rewrite list_lookup_fmap, ?Hi, ?Hj; cbn; [done|by rewrite Ek]). congruence. }
      rewrite HR, Er. done.
Qed.

End importing.

(** ** The import *)

(** The pairings are the selected receivers. *)
Lemma paired_receivers request ps :
  pair_participants request = Ok ps ->
  NoDup (pr_key <$> ps) /\ pr_key <$> ps = List.filter (is_selected request) (pa_key <$> iq_receivers request) /\
  (forall p, p ∈ ps -> exists r, r ∈ iq_receivers request /\ pa_key r ∈ iq_selected request /\ pa_key r = pr_key p /\ pa_path r = pr_receiver p) /\
  (forall r, r ∈ iq_receivers request -> pa_key r ∈ iq_selected request -> exists p, p ∈ ps /\ pr_key p = pa_key r /\ pr_receiver p = pa_path r).
Proof.
  intros E. pose proof (pair_participants_spec request) as HP. rewrite E in HP. destruct HP as ([_ HN _ _ _] & _ & _ & Ek & HF).
  assert (HK : forall k, k ∈ pr_key <$> ps <-> k ∈ iq_selected request /\ k ∈ pa_key <$> iq_receivers request).
  { intros k. rewrite Ek, list_elem_of_In, filter_In, <- list_elem_of_In, selected_elem. naive_solver. }
  split_and!; [rewrite Ek; by apply NoDup_ListNoDup, List.NoDup_filter, NoDup_ListNoDup|done| |].
  - intros p Hp. pose proof (proj1 (Forall_forall _ _) HF p Hp) as (r & source & Hr & _ & Er & _ & Epath & _).
    exists r. split_and!; try done. rewrite Er. by apply (HK (pr_key p)), list_elem_of_fmap_2.
  - intros r Hr Hs. assert (Hk : pa_key r ∈ pr_key <$> ps) by (apply HK; split; [done|by apply list_elem_of_fmap_2]).
    apply list_elem_of_fmap in Hk as (p & Ep & Hp). exists p. split_and!; [done..|].
    pose proof (proj1 (Forall_forall _ _) HF p Hp) as (r' & source & Hr' & _ & Er' & _ & Epath & _). rewrite Epath. f_equal.
    apply list_elem_of_lookup in Hr as [a Ha]. apply list_elem_of_lookup in Hr' as [b Hb].
    assert (a = b) as -> by (eapply NoDup_lookup; [exact HN| |]; rewrite list_lookup_fmap, ?Ha, ?Hb; cbn; [done|congruence]). congruence.
Qed.

(** What an import of [ps] did to the refs. *)
Definition import_outcome {W} `{TransportLaws W} (name : str) (ps : list Pairing) (w w' : W)
    (r : result ImportedSource (option ImportError)) : Prop :=
  (forall repo n, n <> name \/ (forall p, p ∈ ps -> repository_of (pr_receiver p) <> repo) -> refs w' repo n = refs w repo n) /\
  match r with
  | Ok imported => is_import_ref imported = name /\ ic_key <$> is_vector imported = pr_key <$> ps /\
      Forall2 (fun p commit => refs w (repository_of (pr_receiver p)) name = None /\
                               refs w' (repository_of (pr_receiver p)) name = Some (ic_oid commit)) ps (is_vector imported)
  | Err None => False
  | Err (Some e) => refs w' = refs w /\ import_effects e = [] \/ truthful name ps (import_effects e) (failed_at e) w'
  end.

Lemma prepare_spec {W} `{TransportLaws W} request ps w w' r :
  pair_participants request = Ok ps -> prepare_import request w = (w', r) ->
  import_outcome (import_ref (iq_transfer request)) ps w w' r.
Proof.
  intros E. destruct (paired_receivers _ _ E) as (HN & _ & _ & _). unfold prepare_import. rewrite E. set (name := import_ref _).
  intros [(e & [=] & _)|(ps' & w0 & [= <- <-] & H1)]%pbind_inv.
  apply pbind_inv in H1 as [(e & [E1 Hc]%cancelled_spec & ->)|(u & w1 & [E1 _]%cancelled_spec & H2)].
  { destruct Hc as [[=]|[= ->]]. split; [by rewrite E1|by left]. }
  destruct (capture _ _ _ _ w1) as [w2 [captured unresolved]] eqn:E2. apply capture_spec in E2 as [E2 Hcap].
  destruct unresolved as [|x unresolved]; [|injection H2 as <- <-; split; [intros; congruence|left; split; [congruence|done]]].
  destruct (Hcap eq_refl) as [_ Hkeys]. cbn [app fmap list_fmap] in Hkeys. rewrite E1 in E2.
  apply pbind_inv in H2 as [(e & H3 & ->)|(u' & w3 & H3 & H4)]; apply check_free_spec in H3 as [E3 H3].
  { destruct H3 as (e' & -> & He'). split; [intros; congruence|left; split; [congruence|done]]. }
  assert (Hlen : length ps = length captured) by (rewrite <- (length_fmap pr_key), <- Hkeys; apply length_fmap).
  assert (Hwork : (zip ps captured).*1 = ps) by (apply fst_zip; lia).
  assert (HT : truthful name ps [] None w3).
  { split; [by intros key n oid ?%elem_of_nil|]. intros p Hp [oid Ho]. rewrite E3 in Ho. by rewrite (proj1 (Forall_forall _ _) H3 p Hp) in Ho. }
  assert (Hout : forall repo n, n <> name \/ (forall p, p ∈ ps -> repository_of (pr_receiver p) <> repo) -> outside name (zip ps captured) repo n).
  { intros repo n [|Ho]; [by left|right]. intros pc Hpc. apply Ho. rewrite <- Hwork. by apply list_elem_of_fmap_2. }
  apply pbind_inv in H4 as [(e & H4 & ->)|(effects & w4 & H4 & H5)]; eapply (fetch_all_spec _ _ ps) in H4 as [HF4 H4]; try done; try (by rewrite Hwork).
  { destruct H4 as (e' & -> & He'). split; [|by right]. intros repo n Ho%Hout. rewrite HF4 by done. congruence. }
  apply pbind_inv in H5 as [(e & H5 & ->)|(u'' & w5 & H5 & [= <- <-])];
    eapply (verify_all_spec _ ps) in H5 as [E5 H5]; try done; try (by rewrite Hwork).
  { destruct H5 as (e' & -> & He'). split; [|by right]. intros repo n Ho%Hout. rewrite E5, HF4 by done. congruence. }
  split; [intros repo n Ho%Hout; rewrite E5, HF4 by done; congruence|]. cbn [is_import_ref is_vector]. split_and!; [done..|].
  apply Forall2_same_length_lookup. split; [done|]. intros i p commit Hp Hc.
  split.
  - assert (Ew : refs w = refs w2) by congruence. rewrite Ew. eapply (Forall_lookup_1 _ _ _ _ H3). done.
  - rewrite E5. apply (Forall_lookup_1 _ _ i (p, commit) H5). by rewrite lookup_zip_with, Hp, Hc.
Qed.

(** ** The push *)

(** The ref of the receiver an item publishes to. *)
Definition publishes (item : PushItem) (n : str) : Prop :=
  exists refspec from, plan_refspec item = Ok refspec /\ split_refspec refspec = Ok (from, n).

Definition was_refused (outcome : PushOutcome) : bool := match outcome with PushRefused _ => true | _ => false end.

(** What an outcome says of its item: one that was tried has a bare receiver
    and a refspec, its own or the branch to itself; a refused one was not. *)
Definition outcome_of (item : PushItem) (outcome : PushOutcome) : Prop :=
  (was_refused outcome = false -> pi_receiver item = Bare /\ exists n, publishes item n) /\
  match outcome with
  | Pushed refspec => plan_refspec item = Ok refspec /\ (forall given, pi_refspec item = Some given -> refspec = given)
  | PushRefused refusal => (exists n, publishes item n) -> pi_receiver item = Bare -> exists from, refusal = PuMissingSourceRef from
  | PushFailed _ => True
  end.

Section pushing.
Context {W : Type} `{TransportLaws W}.

Lemma push_one_spec item w w' outcome :
  push_one item w = (w', outcome) ->
  outcome_of item outcome /\
  (forall repo n, was_refused outcome = true \/ repo <> repository_of (pi_destination item) \/ ~ publishes item n ->
     refs w' repo n = refs w repo n).
Proof.
  unfold push_one, outcome_of. destruct (plan_refspec item) as [refspec|refusal] eqn:Ep.
  2: { intros [= <- <-]. split; [|done]. split; [done|]. intros (n & rs & from & E & _). congruence. }
  assert (HG : forall given, pi_refspec item = Some given -> refspec = given).
  { intros given Eg. unfold plan_refspec in Ep. rewrite Eg in Ep. destruct (split_refspec given); [|done]. by injection Ep. }
  destruct (split_refspec refspec) as [[from to]|refusal] eqn:Es.
  2: { intros [= <- <-]. split; [|done]. split; [done|]. intros (n & rs & from & E & E'). congruence. }
  assert (HP : publishes item to) by (by exists refspec, from).
  destruct (pi_receiver item) as [|checked] eqn:Er; [|intros [= <- <-]; split; [split; [done|]; congruence|done]].
  destruct (ref_exists (pi_source item) from w) as [w1 r1] eqn:E1. apply exists_reads in E1 as [E1 _].
  destruct r1 as [[]|error]; [|intros [= <- <-]; split; [split; eauto|intros; by rewrite E1]..].
  destruct (push_anonymous _ _ _ w1) as [w2 r2] eqn:E2. intros [= <- <-].
  split; [split; [eauto|by destruct r2]|]. intros repo n Ho. rewrite <- E1. apply (push_writes _ _ _ _ _ _ E2).
  destruct Ho as [Hr|[Hr|Hn]]; [by destruct r2|by left|]. right. intros from' E. apply Hn. by exists refspec, from'.
Qed.

Lemma push_local_spec items w w' results :
  push_local items w = (w', results) ->
  Forall2 (fun item result => ps_key result = pi_key item /\ outcome_of item (ps_outcome result)) items results /\
  (forall repo n, Forall2 (fun item result => was_refused (ps_outcome result) = true \/ repo <> repository_of (pi_destination item) \/
      ~ publishes item n) items results -> refs w' repo n = refs w repo n).
Proof.
  revert w results. induction items as [|item items IH]; intros w results; cbn [push_local]; [intros [= <- <-]; split; [constructor|done]|].
  destruct (push_one item w) as [w1 outcome] eqn:E1. destruct (push_local items w1) as [w2 results2] eqn:E2. intros [= <- <-].
  apply push_one_spec in E1 as [HO HF]. apply IH in E2 as [HA HF2]. split; [by constructor|].
  intros repo n [Hh Ht]%Forall2_cons. by rewrite HF2, HF by done.
Qed.

End pushing.

(** ** A transport that keeps the contract *)

Lemma split_once_spec c s x y : split_once c s = Some (x, y) -> s = x ++ c :: y /\ c ∉ x.
Proof.
  revert x. induction s as [|a s IH]; intros x; cbn [split_once]; [done|]. destruct (N.eqb_spec a c) as [->|Hne].
  - intros [= <- <-]. split; [done|apply not_elem_of_nil].
  - intros ([x' y'] & E & [= <- <-])%bind_Some. destruct (IH _ E) as [-> Hx]. split; [done|]. apply not_elem_of_cons. by split.
Qed.

Lemma split_unique {A} (c : A) x y a b : x ++ c :: y = a ++ c :: b -> c ∉ x -> c ∉ y -> y = b.
Proof.
  revert a. induction x as [|z x IH]; intros [|z' a] E Hx Hy; cbn in E.
  - by injection E.
  - injection E as <- ->. destruct Hy. apply elem_of_app. right. left.
  - injection E as -> _. destruct Hx. left.
  - injection E as -> E. apply (IH a); [done| |done]. intros Hc. apply Hx. by right.
Qed.

(** Repositories by path, their refs in one map. *)
Abbreviation DemoRefs := (gmap (str * str) ObjectId).

Definition demo_fetch (receiver source : str) (refspecs : list str) : proc DemoRefs unit TransportError := fun m =>
  match refspecs with
  | [plus :: spec] =>
      match split_once c_colon spec with
      | Some (from, name) =>
          if bool_decide (c_colon ∈ name) then (m, Err (TeFailed []))
          else match m !! (source, from) with
               | Some oid => (<[(receiver, name) := oid]> m, Ok tt)
               | None => (m, Err (TeFailed []))
               end
      | None => (m, Err (TeFailed []))
      end
  | _ => (m, Err (TeFailed []))
  end.

Definition demo_push (source destination refspec : str) : proc DemoRefs unit TransportError := fun m =>
  match split_refspec refspec with
  | Ok (from, name) =>
      match m !! (source, from) with
      | Some oid => (<[(destination, name) := oid]> m, Ok tt)
      | None => (m, Err (TeFailed []))
      end
  | Err _ => (m, Err (TeFailed []))
  end.

#[global] Instance demo_transport : LocalTransport DemoRefs := {|
  resolve_source path selector m := (m, match m !! (path, refspec_source selector) with Some oid => Ok oid | None => Err (TeFailed []) end);
  ref_exists path name m := (m, Ok (bool_decide (is_Some (m !! (path, name)))));
  fetch_anonymous := demo_fetch;
  push_anonymous := demo_push;
  read_ref path name m := (m, Ok (m !! (path, name)));
  import_is_cancelled m := (m, false);
|}.

#[global] Program Instance demo_transport_laws : TransportLaws DemoRefs := {|
  Repository := str;
  repository_of path := path;
  refs m repo name := m !! (repo, name);
|}.
Next Obligation. by intros m m' path selector r [= <- _]. Qed.
Next Obligation. intros m m' path name r [= <- <-]. split; [done|]. intros there [= <-]. apply bool_decide_eq_true. Qed.
Next Obligation. intros m m' path name r [= <- <-]. split; [done|]. by intros oid [= <-]. Qed.
Next Obligation. by intros m m' stop [= <- _]. Qed.
Next Obligation.
  intros m m' receiver source from name r. unfold fetch_anonymous, demo_transport, demo_fetch. cbn [app].
  change (lit "+" ++ from ++ lit ":" ++ name) with (c_plus :: from ++ c_colon :: name). cbv iota beta.
  destruct (split_once c_colon (from ++ c_colon :: name)) as [[x y]|] eqn:E; [|by intros [= <- <-]; split; [done|intros [[=]|]]].
  case_bool_decide as Hy; [by intros [= <- <-]; split; [done|intros [[=]|]]|].
  apply split_once_spec in E as [E Hx]. symmetry in E. pose proof (split_unique _ _ _ _ _ E Hx Hy) as ->.
  destruct (m !! (source, x)) as [oid|]; intros [= <- <-].
  - split; [|intros _; rewrite lookup_insert_eq; eauto]. intros repo n Hn. rewrite lookup_insert_ne; [done|]. intros [= -> ->]. by destruct Hn.
  - split; [done|by intros [[=]|]].
Qed.
Next Obligation.
  intros m m' source destination refspec r. unfold push_anonymous, demo_transport, demo_push.
  destruct (split_refspec refspec) as [[from name]|]; [|by intros [= <- <-]].
  destruct (m !! (source, from)) as [oid|]; intros [= <- <-]; [|done]. intros repo n Hn. rewrite lookup_insert_ne; [done|].
  intros [= -> ->]. destruct Hn as [|Hn]; [done|]. by apply (Hn from).
Qed.

Definition demo_oid (n : N) : ObjectId := mkObjectId Sha1 (replicate 20 n).

Definition demo_import : ImportRequest :=
  mkImportRequest (mkTransferId (lit "t1"))
    [mkParticipant (RepoMember (lit "a")) (lit "libs/a") (lit "/here/libs/a"); mkParticipant (RepoMember (lit "b")) (lit "b") (lit "/here/b")]
    [mkParticipant (RepoMember (lit "a")) (lit "./libs/a/") (lit "/there/libs/a")]
    [RepoMember (lit "a")] SelectHead.

Definition demo_refs : DemoRefs := {[ (lit "/there/libs/a", lit "HEAD") := demo_oid 7 ]}.

(** ** Theorems *)

(** C18: pairing is exact and never panics. It answers the selected receivers in
    lock order, each with the source of its key, exactly when the request is
    well posed and every member the source has is at the same path here; it
    refuses a request that is not well posed, and otherwise reports every
    mismatch of the two workspaces, each once. *)
Theorem import_pairs_exactly request :
  match pair_participants request with
  | Ok ps => well_posed request /\ (forall k, ~ unserved request k) /\ (forall m, ~ moved_between request m) /\
      pr_key <$> ps = List.filter (is_selected request) (pa_key <$> iq_receivers request) /\ Forall (pairs request) ps
  | Err (Some (ImPairingIncomplete missing moved)) =>
      well_posed request /\ (missing <> [] \/ moved <> []) /\
      (forall k, k ∈ missing <-> unserved request k) /\ NoDup missing /\ StronglySorted key_le missing /\
      (forall m, m ∈ moved <-> moved_between request m)
  | Err (Some (ImInvalidRequest _)) => ~ well_posed request
  | Err _ => False
  end.
Proof. apply pair_participants_spec. Qed.



(** A push answers every item in order. Only an item whose receiver is bare
    and whose refspec names two refs is ever tried, with its own refspec or
    the branch to itself; and no ref changes but the one such an item
    publishes to. *)
Theorem push_confined {W} `{TransportLaws W} items (w : W) :
  let '(w', results) := push_local items w in
  Forall2 (fun item result => ps_key result = pi_key item /\ outcome_of item (ps_outcome result)) items results /\
  (forall repo n, Forall2 (fun item result => was_refused (ps_outcome result) = true \/ repo <> repository_of (pi_destination item) \/
      ~ publishes item n) items results -> refs w' repo n = refs w repo n).
Proof. destruct (push_local items w) as [w' results] eqn:E. by eapply push_local_spec. Qed.

Lemma push_confined_witness :
  let item := mkPushItem (RepoMember (lit "a")) (lit "/there/libs/a") (lit "/bare/a") (PushAttached (lit "main")) Bare (Some (lit "HEAD:refs/heads/x")) in
  let '(w', results) := push_local [item] demo_refs in
  results = [mkPushResult (RepoMember (lit "a")) (Pushed (lit "HEAD:refs/heads/x"))] /\
  w' !! (lit "/there/libs/a", lit "HEAD") = Some (demo_oid 7).
Proof.
  intros item. pose proof (push_confined [item] demo_refs) as H.
  assert (Hr : (push_local [item] demo_refs).2 = [mkPushResult (RepoMember (lit "a")) (Pushed (lit "HEAD:refs/heads/x"))]) by (vm_compute; reflexivity).
  destruct (push_local [item] demo_refs) as [w' results]. cbn [snd] in Hr. split; [exact Hr|]. destruct H as [_ H]. rewrite Hr in H.
  refine (eq_trans (H (lit "/there/libs/a") (lit "HEAD") _) _); [|reflexivity].
  constructor; [|constructor]. right. left. discriminate.
Defined.
