(* ===== verification/RepoFactory.v ===== *)
(** Constructing a destination's repositories from a freeze
    (src/crates/repo-factory/src/lib.rs): the request and its validation, the
    questions asked of the sources, the construction, its report, and which
    origin URLs survive.  The repository builder is an interface. *)

From S2P Require Export LocalImport.

#[local] Set Default Proof Using "Type".

(** ** Data *)

Inductive FactoryMode : Type := CleanMode (branch : option str) | BareMode.

Definition requested_branch (mode : FactoryMode) : option str :=
  match mode with CleanMode branch => branch | BareMode => None end.

Definition is_bare (mode : FactoryMode) : bool := match mode with BareMode => true | CleanMode _ => false end.

Record CapturedRepo : Type := mkCapturedRepo {
  cr_key : RepoKey;
  cr_source : str;
  cr_destination : str;
  cr_object_format : ObjectFormat;
  cr_head : ObjectId;
  cr_branch : option str;
  cr_origin : option str;
}.

Record FactoryRequest : Type := mkFactoryRequest { fq_mode : FactoryMode; fq_vector : list CapturedRepo }.

Record BuiltRepo : Type := mkBuiltRepo {
  br_key : RepoKey;
  br_destination : str;
  br_git_dir : str;
  br_bare : bool;
  br_head : HeadState;
  br_branches : list str;
  br_origin : option str;
  br_dropped_origin : option str;
}.

Inductive InstallerFollowUp : Type :=
| RecaptureDesiredBranches (branch : str)
| RecaptureLock
| WriteFamilyRoot
| WriteManifestLast.

Record FactoryReport : Type := mkFactoryReport {
  fr_built : list RepoKey;
  fr_repositories : list BuiltRepo;
  fr_follow_ups : list InstallerFollowUp;
}.

(** [FactoryReport::is_complete]; a set of keys is the list without
    repetitions. *)
Definition is_complete (report : FactoryReport) (request : FactoryRequest) : bool :=
  let built := remove_dups (fr_built report) in
  bool_decide (length (fr_built report) = length built) && bool_decide (length (fq_vector request) = length built) &&
  forallb (fun repo => bool_decide (cr_key repo ∈ built)) (fq_vector request).

Inductive BuildError : Type := BuRepository (path detail : str) | BuFailed (detail : str).

Definition build_error_text (e : BuildError) : str :=
  match e with BuRepository path detail => path ++ lit ": " ++ detail | BuFailed detail => detail end.

Inductive FactoryError : Type :=
| FaInvalidRequest (detail : str)
| FaBranchExists (conflicts : list (RepoKey * str))
| FaObjectMissing (missing : list (RepoKey * ObjectId))
| FaRefMissing (key : RepoKey) (name : str)
| FaBuild (key : RepoKey) (error : BuildError) (built : list RepoKey)
| FaUnimplemented.

(** [trait RepoBuildPort]. *)
Class RepoBuildPort (W : Type) : Type := {
  source_ref_exists : str -> str -> proc W bool BuildError;
  object_exists : str -> ObjectId -> proc W bool BuildError;
  init_repository : str -> bool -> ObjectFormat -> proc W unit BuildError;
  transfer_objects : str -> str -> list str -> proc W unit BuildError;
  set_head : str -> str -> ObjectId -> bool -> proc W unit BuildError;
  set_detached_head : str -> ObjectId -> bool -> proc W unit BuildError;
  set_origin : str -> str -> proc W unit BuildError;
}.

(** ** Origins *)

(** [str::split_once] at a text. *)
Fixpoint split_at_text (pattern s : str) : option (str * str) :=
  match strip_prefix pattern s with
  | Some rest => Some ([], rest)
  | None => match s with
            | [] => None
            | x :: s => '(a, b) ← split_at_text pattern s; Some (x :: a, b)
            end
  end.

(** [str::rsplit_once] at a character. *)
Definition rsplit_once (c : N) (s : str) : option (str * str) :=
  '(b, a) ← split_once c (reverse s); Some (reverse a, reverse b).

Definition c_at : N := 64.
Definition c_tilde : N := 126.
Definition c_question : N := 63.
Definition c_hash : N := 35.

(** [is_filesystem_url]; a prefix of five bytes that reads [file:] in any case
    is five ASCII characters. *)
Definition is_filesystem_url (url : str) : bool :=
  if bool_decide (to_ascii_lowercase <$> take 5 url = lit "file:") then true
  else if starts_with (N.eqb c_slash) url || starts_with (N.eqb c_backslash) url || starts_with (N.eqb c_tilde) url ||
          bool_decide (lit "./" `prefix_of` url) || bool_decide (lit "../" `prefix_of` url) then true
  else if match url with
          | drive :: colon :: separator :: _ => (colon =? c_colon)%N && is_ascii_alphabetic drive &&
              ((separator =? c_backslash)%N || (separator =? c_slash)%N)
          | _ => false
          end then true
  else negb (bool_decide (is_Some (split_at_text (lit "://") url))) && negb (existsb (N.eqb c_colon) url).

(** The text before the first character that ends an authority. *)
Fixpoint authority_of (s : str) : str :=
  match s with
  | [] => []
  | x :: s => if (x =? c_slash)%N || (x =? c_question)%N || (x =? c_hash)%N then [] else x :: authority_of s
  end.

Definition carries_credentials (url : str) : bool :=
  match split_at_text (lit "://") url with
  | None => false
  | Some (_, rest) =>
      match rsplit_once c_at (authority_of rest) with
      | Some (userinfo, _) => existsb (N.eqb c_colon) userinfo
      | None => false
      end
  end.

Definition origin_is_kept (url : str) : bool := negb (is_filesystem_url url || carries_credentials url).

(** ** Validation *)

Definition invalid (detail : str) : FactoryError := FaInvalidRequest detail.

Definition validate_branch_name (name what : str) : result unit FactoryError :=
  if bool_decide (trim name = []) then Err (invalid (what ++ lit " is empty"))
  else if bool_decide (lit "refs/" `prefix_of` name) then
    Err (invalid (what ++ lit " is a full ref name (" ++ name ++ lit "); a plain branch name is required"))
  else Ok tt.

Definition object_format_debug (f : ObjectFormat) : str := match f with Sha1 => lit "Sha1" | Sha256 => lit "Sha256" end.

(** The loop over the vector; paths are compared as [Path] compares them, by
    components. *)
Fixpoint validate_vector (keys : list RepoKey) (destinations : list (list Component)) (vector : list CapturedRepo) :
    result (list RepoKey) FactoryError :=
  match vector with
  | [] => Ok keys
  | repo :: vector =>
      if bool_decide (cr_key repo ∈ keys) then
        Err (invalid (repo_key_text (cr_key repo) ++ lit " appears twice in the captured vector"))
      else if bool_decide (path_components (cr_destination repo) ∈ destinations) then
        Err (invalid (repo_key_text (cr_key repo) ++ lit " and another repository share the destination " ++ cr_destination repo))
      else if bool_decide (oid_format (cr_head repo) <> cr_object_format repo) then
        Err (invalid (repo_key_text (cr_key repo) ++ lit ": the frozen commit is " ++ object_format_debug (oid_format (cr_head repo)) ++
          lit " but the repository is " ++ object_format_debug (cr_object_format repo)))
      else
        let? checked := match cr_branch repo with
                        | Some branch => validate_branch_name branch (repo_key_text (cr_key repo) ++ lit "'s captured branch")
                        | None => Ok tt
                        end in
        validate_vector (cr_key repo :: keys) (path_components (cr_destination repo) :: destinations) vector
  end.

Definition is_root (repo : CapturedRepo) : bool := bool_decide (cr_key repo = RepoRoot).

(** [validate]: the vector, the root first. *)
Definition validate_request (request : FactoryRequest) : result (list CapturedRepo) FactoryError :=
  if bool_decide (length (fq_vector request) = 0) then Err (invalid (lit "a factory request needs at least one repository"))
  else
    let? named := match requested_branch (fq_mode request) with
                  | Some branch => validate_branch_name branch (lit "the requested branch")
                  | None => Ok tt
                  end in
    let? keys := validate_vector [] [] (fq_vector request) in
    if negb (bool_decide (RepoRoot ∈ keys)) then Err (invalid (lit "the captured vector must include the workspace root"))
    else Ok (List.filter is_root (fq_vector request) ++ List.filter (fun repo => negb (is_root repo)) (fq_vector request)).

(** ** Construction *)

Definition follow_ups (mode : FactoryMode) : list InstallerFollowUp :=
  match requested_branch mode with Some branch => [RecaptureDesiredBranches branch] | None => [] end ++
  [RecaptureLock; WriteFamilyRoot; WriteManifestLast].

Definition preflight_failure (repo : CapturedRepo) (error : BuildError) : FactoryError := FaBuild (cr_key repo) error [].

Definition branch_ref (branch : str) : str := lit "refs/heads/" ++ branch.

Section construct.
Context {W : Type} `{RepoBuildPort W}.

(** The loop of [preflight]. *)
Fixpoint ask (requested : option str) (order : list CapturedRepo) (missing : list (RepoKey * ObjectId))
    (conflicts : list (RepoKey * str)) : proc W (list (RepoKey * ObjectId) * list (RepoKey * str)) FactoryError :=
  match order with
  | [] => pret (missing, conflicts)
  | repo :: order =>
      let! present := pmap_err (preflight_failure repo) (object_exists (cr_source repo) (cr_head repo)) in
      let missing := if (present : bool) then missing else missing ++ [(cr_key repo, cr_head repo)] in
      match requested with
      | Some branch =>
          let! taken := pmap_err (preflight_failure repo) (source_ref_exists (cr_source repo) (branch_ref branch)) in
          ask requested order missing (if (taken : bool) then conflicts ++ [(cr_key repo, branch)] else conflicts)
      | None => ask requested order missing conflicts
      end
  end.

Definition preflight (request : FactoryRequest) (order : list CapturedRepo) : proc W unit FactoryError :=
  let! found := ask (requested_branch (fq_mode request)) order [] [] in
  match found.2, found.1 with
  | _ :: _, _ => pfail (FaBranchExists found.2)
  | [], _ :: _ => pfail (FaObjectMissing found.1)
  | [], [] => pret tt
  end.

(** One repository of [build]. *)
Definition build_one (request : FactoryRequest) (built : list RepoKey) (repo : CapturedRepo) : proc W BuiltRepo FactoryError :=
  let bare := is_bare (fq_mode request) in
  let checkout := negb bare in
  let git_dir := path_join (cr_destination repo) (lit ".git") in
  let path := if bare then git_dir else cr_destination repo in
  let failure error := FaBuild (cr_key repo) error built in
  do! pmap_err failure (init_repository path bare (cr_object_format repo)) in
  do! pmap_err failure (transfer_objects (cr_source repo) path [to_hex (cr_head repo)]) in
  let attach := match requested_branch (fq_mode request) with Some branch => Some branch | None => cr_branch repo end in
  let! placed := match attach with
    | Some branch =>
        do! pmap_err failure (set_head path branch (cr_head repo) checkout) in
        pret (Attached branch (cr_head repo), [branch])
    | None =>
        do! pmap_err failure (set_detached_head path (cr_head repo) checkout) in
        pret (DetachedHead (cr_head repo), [])
    end in
  let! origins := match cr_origin repo with
    | Some url =>
        if origin_is_kept url then do! pmap_err failure (set_origin path url) in pret (Some url, None)
        else pret (None, Some url)
    | None => pret (None, None)
    end in
  pret (mkBuiltRepo (cr_key repo) (cr_destination repo) git_dir bare placed.1 placed.2 origins.1 origins.2).

Fixpoint build_all (request : FactoryRequest) (order : list CapturedRepo) (built : list RepoKey) (repositories : list BuiltRepo) :
    proc W FactoryReport FactoryError :=
  match order with
  | [] => pret (mkFactoryReport built repositories (follow_ups (fq_mode request)))
  | repo :: order =>
      let! made := build_one request built repo in
      build_all request order (built ++ [cr_key repo]) (repositories ++ [made])
  end.

Definition construct (request : FactoryRequest) : proc W FactoryReport FactoryError :=
  let! order := plift (validate_request request) in
  do! preflight request order in
  build_all request order [] [].

End construct.
