(* ===== verification/DemoFamily.v ===== *)
(** A small family session that keeps the contract, for the instances that run
    the clients of a session: its index is the history of the accepted
    changes. *)

From S2P Require Export FamilyStoreContract.

#[local] Set Default Proof Using "Type".

(** The index as the accepted changes since its foundation, and the trees
    removed so far. *)
Record DemoWorld : Type := mkDemoWorld { dw_changes : list FamilyChange; dw_removed : list str }.

Definition demo_index (w : DemoWorld) : FamilyView :=
  history (mkFamilyId (lit "fam")) (mkAllocationId (lit "r")) (dw_changes w).

Definition demo_apply (c : FamilyChange) (w : DemoWorld) : DemoWorld * result AppliedChange StoreError :=
  match c with
  | Disband => (w, Err (SeUnimplemented RemoveIndex))
  | _ =>
      match validate_transition (demo_index w) c with
      | Ok _ =>
          let w' := mkDemoWorld (dw_changes w ++ [c]) (dw_removed w) in
          (w', Ok {| ac_effects := [IndexWritten]; ac_view := Some (demo_index w') |})
      | Err refusal => (w, Err (SeRefused refusal))
      end
  end.

#[global] Instance demo_session : FamilySession DemoWorld := {|
  session_root := fun _ => lit "/home/u/ws";
  session_reread := fun w => (w, Ok (Some (demo_index w)));
  session_found := fun _ _ w => (w, Err (SeUnimplemented WriteIndex));
  session_apply := demo_apply;
  session_install_pointer := fun _ destination w =>
    (w, Ok {| ac_effects := [MarkerWritten destination; PointerWritten destination]; ac_view := Some (demo_index w) |});
  session_remove_pointer := fun _ w =>
    (w, Ok {| ac_effects := [MarkerRemoved (lit "/home/u/ws-A"); PointerRemoved (lit "/home/u/ws-A")];
              ac_view := Some (demo_index w) |});
|}.

Lemma history_snoc f a cs c : history f a (cs ++ [c]) = apply_change (history f a cs) c.
Proof. unfold history. by rewrite foldl_app. Qed.

#[global] Program Instance demo_laws : SessionLaws DemoWorld := {| stored := fun w => Some (demo_index w) |}.
Next Obligation. intros w v [= <-]. apply history_wf. Qed.
Next Obligation. intros w w' r [= <- <-]. split_and!; [done..|]. by intros v [= ->]. Qed.
Next Obligation. done. Qed.
Next Obligation.
  intros c w w' a _ Hc. cbn [session_apply demo_session] in Hc. unfold demo_apply in Hc.
  destruct (decide (c = Disband)) as [->|Hd]; [done|].
  assert (Hm : exists vc, validate_transition (demo_index w) c = Ok vc /\
    w' = mkDemoWorld (dw_changes w ++ [c]) (dw_removed w) /\ ac_view a = Some (demo_index w')).
  { destruct c; try done; destruct (validate_transition _ _) as [vc|] in Hc |- *; try done;
      injection Hc as <- <-; by exists vc. }
  destruct Hm as (vc & Hv & -> & Ha). split; [|done]. exists vc. split; [done|].
  assert (E : demo_index (mkDemoWorld (dw_changes w ++ [c]) (dw_removed w)) = vc_next vc).
  { unfold demo_index. cbn [dw_changes]. rewrite history_snoc. unfold apply_change.
    unfold demo_index in Hv. by rewrite Hv. }
  rewrite E. by destruct c.
Qed.
Next Obligation.
  intros c w w' e _ Hc. left. cbn [session_apply demo_session] in Hc. unfold demo_apply in Hc.
  destruct c; try (destruct (validate_transition _ _) in Hc); by injection Hc as <-.
Qed.
Next Obligation. by intros name w w' r [= <- _]. Qed.

Definition demo_world : DemoWorld :=
  mkDemoWorld
    [Allocate (demo_name "A") (demo_row "../ws-A" "." "a1" Creating);
     MarkReady (demo_name "A") (mkAllocationId (lit "a1"));
     Allocate (demo_name "B") (demo_row "../ws-B" "../ws-A" "b1" Creating)] [].
