(* ===== verification/StoreFormat.v ===== *)
(** The family's metadata files (src/crates/family-store/src/format.rs): the
    index, the clone pointer and the allocation marker as the records their
    YAML documents carry, with their strict decoding.  YAML itself is the
    third-party serde_yaml: a codec from records to bytes, a parameter, of
    which only the round trip is assumed. *)

From S2P Require Export FamilyStoreContract.

#[local] Set Default Proof Using "Type".

Definition POINTER_SCHEMA : str := lit "gwz.family-root/v1".
Definition MARKER_SCHEMA : str := lit "gwz.local-clone-allocation/v1".

Record RowFile : Type := mkRowFile {
  rwf_path : str;
  rwf_kind : str;
  rwf_state : str;
  rwf_allocation_id : str;
  rwf_source_path : str;
  rwf_mode : str;
  rwf_last_error : option str;
  rwf_owner : option str;
}.

Record IndexFile : Type := mkIndexFile {
  if_schema : str;
  if_family_id : str;
  if_root_allocation : str;
  if_members : BTreeMap str RowFile;
}.

Record PointerFile : Type := mkPointerFile { pf_schema : str; pf_family_id : str; pf_root_path : str }.
Record MarkerFile : Type := mkMarkerFile { mf_schema : str; mf_family_id : str; mf_allocation_id : str }.

(** [FormatError], by its text. *)
Abbreviation FormatError := str.

(** serde_yaml on the four document types the store reads and writes. *)
Class Yaml : Type := {
  index_to_yaml : IndexFile -> result (list N) FormatError;
  index_from_yaml : list N -> result IndexFile FormatError;
  schema_from_yaml : list N -> result str FormatError;
  pointer_to_yaml : PointerFile -> result (list N) FormatError;
  pointer_from_yaml : list N -> result PointerFile FormatError;
  marker_to_yaml : MarkerFile -> result (list N) FormatError;
  marker_from_yaml : list N -> result MarkerFile FormatError;
}.

(** What serde documents of a derived serialiser and its deserialiser. *)
Class YamlRoundTrip `{Yaml} : Prop := {
  index_yaml : forall file bytes, index_to_yaml file = Ok bytes ->
    index_from_yaml bytes = Ok file /\ schema_from_yaml bytes = Ok (if_schema file);
  pointer_yaml : forall file bytes, pointer_to_yaml file = Ok bytes -> pointer_from_yaml bytes = Ok file;
  marker_yaml : forall file bytes, marker_to_yaml file = Ok bytes -> marker_from_yaml bytes = Ok file;
}.

(** ** Texts *)

(** [char::escape_debug] of a control character. *)
Definition escape_control (c : N) : str :=
  let hex (d : N) : N := if (d <? 10)%N then (d + 48)%N else (d + 87)%N in
  if (c =? 0)%N then lit "\0"
  else if (c =? 9)%N then lit "\t"
  else if (c =? 10)%N then lit "\n"
  else if (c =? 13)%N then lit "\r"
  else lit "\u{" ++ (if (c <? 16)%N then [hex c] else [hex (c / 16)%N; hex (c mod 16)%N]) ++ lit "}".

Definition name_error_text (e : NameError) : str :=
  match e with
  | NameEmpty => lit "a clone name must not be empty"
  | NameBlank => lit "a clone name must not be only whitespace"
  | NameSurroundingWhitespace => lit "a clone name must not start or end with whitespace"
  | NameControl c => lit "a clone name must not contain " ++ escape_control c
  | NameSeparator c => lit "a clone name must not contain " ++ quoted [c]
  | NameReserved name => quoted name ++ lit " is a reserved name"
  end.

Definition owner_error_text (e : OwnerError) : str :=
  match e with
  | OwnerEmpty => lit "an owner token must not be empty"
  | OwnerTooLong bytes =>
      lit "an owner token is at most 128 bytes; this one is " ++ show_N (N.of_nat bytes)
  | OwnerCharacter character =>
      lit "an owner token accepts only `[A-Za-z0-9._:-]`; " ++ quoted [character] ++ lit " is not one of them"
  end.

Definition id_error_text (e : IdError) : str := lit "an id must not be empty".

Fixpoint join_or (parts : list str) : str :=
  match parts with
  | [] => []
  | [p] => p
  | p :: rest => p ++ lit " or " ++ join_or rest
  end.

Definition wrong_schema_any (found : str) (accepted : list str) : FormatError :=
  lit "`schema: " ++ found ++ lit "` is not " ++ join_or (quoted <$> accepted) ++
  lit "; this file is not in a format this store reads" ++
  match index_schema_min_gwz_version found with
  | Some minimum =>
      if bool_decide (found ∈ accepted) then []
      else lit "; " ++ quoted found ++ lit " is read by gwz " ++ minimum ++
           lit " and later, so upgrade gwz to at least " ++ minimum
  | None => []
  end.

(** ** Encoding and decoding *)

Section format.
Context `{Yaml}.

Definition row_file (row : MemberRow) : RowFile := {|
  rwf_path := row_path row; rwf_kind := kind_as_str (row_kind row); rwf_state := state_as_str (row_state row);
  rwf_allocation_id := allocation_str (row_allocation row); rwf_source_path := row_source row;
  rwf_mode := mode_as_str (row_mode row); rwf_last_error := row_last_error row;
  rwf_owner := owner_str <$> row_owner row |}.

Definition index_file (view : FamilyView) : IndexFile := {|
  if_schema := INDEX_SCHEMA;
  if_family_id := family_id_str (view_family_id view);
  if_root_allocation := allocation_str (root_allocation (view_root view));
  if_members := foldl (fun m e => bt_insert m (name_str e.1) (row_file e.2)) bt_empty
                  (bt_entries (view_members view)) |}.

Definition encode_index (view : FamilyView) : result (list N) FormatError := index_to_yaml (index_file view).

Definition unknown_value (name : MemberName) (field value : str) : FormatError :=
  lit "row " ++ quoted (name_str name) ++ lit ": " ++ quoted (field ++ lit ": " ++ value) ++
  lit " is not a known value".

Definition ok_or {A E} (o : option A) (e : E) : result A E := match o with Some a => Ok a | None => Err e end.

Definition decode_row (name : MemberName) (row : RowFile) : result MemberRow FormatError :=
  let? kind := ok_or (kind_parse (rwf_kind row)) (unknown_value name (lit "kind") (rwf_kind row)) in
  let? state := ok_or (state_parse (rwf_state row)) (unknown_value name (lit "state") (rwf_state row)) in
  let? allocation := map_err (fun e => lit "row " ++ quoted (name_str name) ++ lit ": `allocation_id`: " ++ id_error_text e)
    (new_allocation_id (rwf_allocation_id row)) in
  let? mode := ok_or (mode_parse (rwf_mode row)) (unknown_value name (lit "mode") (rwf_mode row)) in
  let? owner := map_err (fun e => lit "row " ++ quoted (name_str name) ++ lit ": `owner`: " ++ owner_error_text e)
    (match rwf_owner row with
     | None => Ok None
     | Some value => let? token := parse_owner value in Ok (Some token)
     end) in
  Ok {| row_path := rwf_path row; row_kind := kind; row_state := state; row_allocation := allocation;
        row_source := rwf_source_path row; row_mode := mode; row_last_error := rwf_last_error row;
        row_owner := owner |}.

Fixpoint decode_members (view : FamilyView) (members : list (str * RowFile)) : result FamilyView FormatError :=
  match members with
  | [] => Ok view
  | (key, row) :: rest =>
      let? name := map_err (fun e => lit "member key " ++ quoted key ++ lit ": " ++ name_error_text e) (parse_name key) in
      let? row := decode_row name row in
      decode_members (set_members view (bt_insert (view_members view) name row)) rest
  end.

Definition decode_index_accepting (bytes : list N) (accepted : list str) : result FamilyView FormatError :=
  let? schema := schema_from_yaml bytes in
  if bool_decide (schema ∈ accepted) then
    let? file := index_from_yaml bytes in
    let? family_id := map_err (fun e => lit "`family_id`: " ++ id_error_text e) (new_family_id (if_family_id file)) in
    let? root := map_err (fun e => lit "`root.allocation_id`: " ++ id_error_text e)
      (new_allocation_id (if_root_allocation file)) in
    decode_members (founded family_id root) (bt_entries (if_members file))
  else Err (wrong_schema_any schema accepted).

Definition decode_index (bytes : list N) : result FamilyView FormatError :=
  decode_index_accepting bytes INDEX_SCHEMAS_READ.

Definition encode_pointer (family_id : FamilyId) (root_path : str) : result (list N) FormatError :=
  pointer_to_yaml {| pf_schema := POINTER_SCHEMA; pf_family_id := family_id_str family_id; pf_root_path := root_path |}.

Definition decode_pointer (bytes : list N) : result PointerFile FormatError :=
  let? file := pointer_from_yaml bytes in
  if bool_decide (pf_schema file = POINTER_SCHEMA) then Ok file
  else Err (wrong_schema_any (pf_schema file) [POINTER_SCHEMA]).

Definition encode_marker (family_id : FamilyId) (allocation : AllocationId) : result (list N) FormatError :=
  marker_to_yaml {| mf_schema := MARKER_SCHEMA; mf_family_id := family_id_str family_id;
                    mf_allocation_id := allocation_str allocation |}.

Definition decode_marker (bytes : list N) : result MarkerFile FormatError :=
  let? file := marker_from_yaml bytes in
  if bool_decide (mf_schema file = MARKER_SCHEMA) then Ok file
  else Err (wrong_schema_any (mf_schema file) [MARKER_SCHEMA]).

End format.

(** ** The index round trips *)

Section collect.
Context {K V : Type} `{OrdKey K}.

Definition collect (l : list (K * V)) : BTreeMap K V := foldl (fun m e => bt_insert m e.1 e.2) bt_empty l.

Lemma collect_get l k v : NoDup l.*1 -> bt_get (collect l) k = Some v <-> (k, v) ∈ l.
Proof.
  unfold collect. induction l as [|[k0 v0] l IH] using rev_ind; intros Hnd.
  { cbn [foldl]. rewrite bt_get_empty. split; [done|]. by intros ?%elem_of_nil. }
  rewrite fmap_app in Hnd. apply NoDup_app in Hnd as (Hl & Hd & _).
  rewrite foldl_app. cbn [foldl fst snd]. rewrite elem_of_app, list_elem_of_singleton.
  destruct (decide (k = k0)) as [->|Hne].
  - rewrite bt_get_insert_eq. split; [intros [= ->]; by right|]. intros [Hin|[= ->]]; [|done].
    exfalso. apply (Hd k0); [by apply (list_elem_of_fmap_2 fst) in Hin|left].
  - rewrite bt_get_insert_ne by done. rewrite IH by done. split; [by left|]. intros [?|[= ? ?]]; done.
Qed.

End collect.

Section roundtrip.
Context `{Yaml}.

Lemma ok_or_ok {A E} (o : option A) (e : E) a : ok_or o e = Ok a <-> o = Some a.
Proof. destruct o; simpl; split; congruence. Qed.

Lemma decode_row_file name row : row_spelled row -> decode_row name (row_file row) = Ok row.
Proof.
  intros [Ha Ho]. unfold decode_row. cbn [row_file rwf_kind rwf_state rwf_mode rwf_allocation_id rwf_owner rwf_path rwf_source_path rwf_last_error].
  rewrite (proj2 (kind_parse_spec _ _) eq_refl), (proj2 (state_parse_spec _ _) eq_refl),
    (proj2 (mode_parse_spec _ _) eq_refl), Ha. cbn [ok_or rbind map_err].
  destruct row as [p k s a src m le [token|]]; cbn [row_owner fmap option_fmap option_map] in *; [|done].
  rewrite (Ho token eq_refl). done.
Qed.

Lemma decode_members_ok view (l : list (MemberName * MemberRow)) :
  Forall (fun e => member_name_wf e.1 /\ row_spelled e.2) l ->
  decode_members view ((fun e => (name_str e.1, row_file e.2)) <$> l) =
  Ok (set_members view (foldl (fun m e => bt_insert m e.1 e.2) (view_members view) l)).
Proof.
  revert view. induction l as [|[n r] l IH]; intros view HF; [by destruct view|].
  apply Forall_cons in HF as [[Hn Hr] HF]. cbn [fmap list_fmap decode_members fst snd] in *.
  rewrite Hn. cbn [map_err rbind]. rewrite decode_row_file by done. cbn [rbind]. by rewrite IH.
Qed.

(** The file's map holds the view's entries under their spellings, in order. *)
Lemma index_file_members view :
  bt_entries (if_members (index_file view)) =
  (fun e => (name_str e.1, row_file e.2)) <$> bt_entries (view_members view).
Proof.
  set (f := fun e : MemberName * MemberRow => (name_str e.1, row_file e.2)).
  assert (HS : ent_sorted (f <$> bt_entries (view_members view)) = true).
  { pose proof (bt_sorted (view_members view)) as Hs. revert Hs.
    generalize (bt_entries (view_members view)) as l. induction l as [|[n r] l IH]; [done|].
    intros [HF Hs]%ent_sorted_cons. rewrite fmap_cons. apply ent_sorted_cons.
    split; [|by apply IH]. apply Forall_fmap. eapply Forall_impl; [exact HF|]. done. }
  set (m' := BT (f <$> bt_entries (view_members view)) (canon_true HS)).
  assert (E : if_members (index_file view) = m').
  { apply bt_ext. intros k. apply option_eq. intros v. rewrite <- (bt_elem_get m').
    cbn [index_file if_members m' bt_entries].
    assert (EF : forall (l : list (MemberName * MemberRow)) m,
      foldl (fun m e => bt_insert m (name_str e.1) (row_file e.2)) m l =
      foldl (fun m (e : str * RowFile) => bt_insert m e.1 e.2) m (f <$> l)).
    { induction l as [|e l IHl]; intros m; [done|]. cbn [foldl fmap list_fmap]. by rewrite IHl. }
    rewrite EF. apply collect_get. exact (bt_keys_nodup m'). }
  by rewrite E.
Qed.

Lemma index_decodes `{!YamlRoundTrip} view bytes :
  view_spelled view -> encode_index view = Ok bytes -> decode_index bytes = Ok view.
Proof.
  intros [Hf Hr Hm] He. apply index_yaml in He as [He Hs]. unfold decode_index, decode_index_accepting.
  rewrite Hs. cbn [rbind]. rewrite bool_decide_true by (right; left). rewrite He.
  cbn [rbind index_file if_family_id if_root_allocation]. rewrite Hf, Hr. cbn [map_err rbind].
  rewrite index_file_members, decode_members_ok.
  - f_equal. destruct view as [f [a] ms]. unfold set_members, founded. cbn. f_equal.
    apply bt_ext. intros k. apply option_eq. intros v. rewrite <- (bt_elem_get ms).
    apply (collect_get (bt_entries ms)). apply bt_keys_nodup.
  - apply Forall_forall. intros [n r] Hin. apply bt_elem_get in Hin. by apply Hm.
Qed.

Lemma new_id_idem s a : new_allocation_id s = Ok a -> new_allocation_id (allocation_str a) = Ok a.
Proof. unfold new_allocation_id. case_bool_decide as E; intros [= <-]. by rewrite bool_decide_false. Qed.

Lemma decode_row_spelled name file row : decode_row name file = Ok row -> row_spelled row.
Proof.
  unfold decode_row. intros (k & _ & H1)%rbind_ok. apply rbind_ok in H1 as (s & _ & H1).
  apply rbind_ok in H1 as (a & Ha & H1). apply rbind_ok in H1 as (m & _ & H1).
  apply rbind_ok in H1 as (o & Ho & [= <-]). apply map_err_ok in Ha, Ho. split; cbn [row_allocation row_owner].
  - by eapply new_id_idem.
  - intros token ->. destruct (rwf_owner file) as [value|]; [|done]. apply rbind_ok in Ho as (t & Ht & [= ->]).
    pose proof (proj1 (parse_owner_shape _ _) Ht) as [-> _]. exact Ht.
Qed.

Lemma decode_members_spelled l view view' :
  decode_members view l = Ok view' -> view_spelled view -> view_spelled view'.
Proof.
  revert view. induction l as [|[key row] l IH]; intros view; [by intros [= ->]|]. cbn [decode_members].
  intros (name & Hn & H1)%rbind_ok. apply rbind_ok in H1 as (r & Hr & H1). apply map_err_ok in Hn.
  intros [Hf Ha Hm]. apply (IH _ H1). split; [done..|]. cbn [set_members view_members]. intros n r' Hg.
  destruct (decide (n = name)) as [->|Hne].
  - rewrite bt_get_insert_eq in Hg. injection Hg as <-. pose proof (proj1 (parse_name_policy _ _) Hn) as [-> _].
    split; [exact Hn|by eapply decode_row_spelled].
  - rewrite bt_get_insert_ne in Hg by done. by apply Hm.
Qed.

Lemma decode_spelled bytes view : decode_index bytes = Ok view -> view_spelled view.
Proof.
  unfold decode_index, decode_index_accepting. intros (sc & _ & H1)%rbind_ok. case_bool_decide; [|done].
  apply rbind_ok in H1 as (file & _ & H1). apply rbind_ok in H1 as (f & Hf & H1).
  apply rbind_ok in H1 as (a & Ha & H1). apply map_err_ok in Hf, Ha.
  eapply decode_members_spelled; [exact H1|]. split; cbn.
  - revert Hf. unfold new_family_id. case_bool_decide as E; intros [= <-]. by rewrite bool_decide_false.
  - by eapply new_id_idem.
  - by intros name row [=].
Qed.

Lemma pointer_decodes `{!YamlRoundTrip} family root bytes :
  encode_pointer family root = Ok bytes ->
  decode_pointer bytes = Ok {| pf_schema := POINTER_SCHEMA; pf_family_id := family_id_str family; pf_root_path := root |}.
Proof. intros E%pointer_yaml. unfold decode_pointer. rewrite E. cbn [rbind pf_schema]. by rewrite bool_decide_true. Qed.

Lemma marker_decodes `{!YamlRoundTrip} family allocation bytes :
  encode_marker family allocation = Ok bytes ->
  decode_marker bytes = Ok {| mf_schema := MARKER_SCHEMA; mf_family_id := family_id_str family;
                              mf_allocation_id := allocation_str allocation |}.
Proof. intros E%marker_yaml. unfold decode_marker. rewrite E. cbn [rbind mf_schema]. by rewrite bool_decide_true. Qed.

End roundtrip.

(** ** A codec by enumeration *)

#[global] Instance RowFile_eq_dec : EqDecision RowFile.
Proof. solve_decision. Defined.
#[global] Instance IndexFile_eq_dec : EqDecision IndexFile.
Proof. solve_decision. Defined.
#[global] Instance PointerFile_eq_dec : EqDecision PointerFile.
Proof. solve_decision. Defined.
#[global] Instance MarkerFile_eq_dec : EqDecision MarkerFile.
Proof. solve_decision. Defined.

Definition table_write {A} `{EqDecision A} (table : list A) (a : A) : result (list N) FormatError :=
  match list_find (fun b => a = b) table with
  | Some (i, _) => Ok [N.of_nat i]
  | None => Err (lit "not in the table")
  end.

Definition table_read {A} (table : list A) (bytes : list N) : result A FormatError :=
  match bytes with
  | [i] => ok_or (table !! N.to_nat i) (lit "not in the table")
  | _ => Err (lit "not a position")
  end.

Lemma table_reads {A} `{EqDecision A} (table : list A) a bytes :
  table_write table a = Ok bytes -> table_read table bytes = Ok a.
Proof.
  unfold table_write. destruct (list_find _ table) as [[i b]|] eqn:E; [|done]. intros [= <-].
  apply list_find_Some in E as (Hi & -> & _). unfold table_read. rewrite Nat2N.id, Hi. done.
Qed.

(** Documents of a fixed list, each written as its position. *)
Definition table_yaml (indexes : list IndexFile) (pointers : list PointerFile) (markers : list MarkerFile) : Yaml := {|
  index_to_yaml := table_write indexes;
  index_from_yaml := table_read indexes;
  schema_from_yaml := fun bytes => let? file := table_read indexes bytes in Ok (if_schema file);
  pointer_to_yaml := table_write pointers;
  pointer_from_yaml := table_read pointers;
  marker_to_yaml := table_write markers;
  marker_from_yaml := table_read markers;
|}.

Lemma table_round_trip indexes pointers markers : @YamlRoundTrip (table_yaml indexes pointers markers).
Proof.
  split; intros file bytes E%table_reads; [|done..]. split; [done|].
  cbn [schema_from_yaml table_yaml]. by rewrite E.
Qed.

Definition demo_next : FamilyView := apply_change demo_view (MarkReady (demo_name "B") (mkAllocationId (lit "b1"))).

Definition demo_yaml : Yaml := table_yaml
  [index_file demo_view; index_file demo_next]
  [{| pf_schema := POINTER_SCHEMA; pf_family_id := family_id_str (view_family_id demo_view); pf_root_path := lit "/ws" |}]
  [{| mf_schema := MARKER_SCHEMA; mf_family_id := family_id_str (view_family_id demo_view); mf_allocation_id := lit "b1" |}].

Lemma spelled_entries (v : FamilyView) :
  new_family_id (family_id_str (view_family_id v)) = Ok (view_family_id v) ->
  allocation_spelled (root_allocation (view_root v)) ->
  Forall (fun e : MemberName * MemberRow => member_name_wf e.1 /\ allocation_spelled (row_allocation e.2) /\
    row_owner e.2 = None) (bt_entries (view_members v)) ->
  view_spelled v.
Proof.
  intros H1 H2 H3. split; [done..|]. intros name row Hg%bt_elem_get. rewrite Forall_forall in H3.
  destruct (H3 _ Hg) as (Hn & Ha & Ho). split; [done|]. split; [done|]. intros token Ht. cbn [snd] in *. congruence.
Qed.

Lemma demo_spelled : view_spelled demo_view.
Proof. apply spelled_entries; [by vm_compute|by vm_compute|]. vm_compute bt_entries. by repeat constructor. Qed.

(** C32: the index the store writes reads back.  For every family view whose
    names, ids and owner tokens are ones their parsers accept, if the YAML
    codec encodes the view's document then the store's own decoding of those
    bytes, schema probe and strict row parsing included, is exactly the view;
    and whatever bytes the store decodes, the view has only such names, ids
    and tokens. *)
Theorem index_round_trip `{Yaml} `{!YamlRoundTrip} (view : FamilyView) (bytes : list N) :
  view_spelled view -> encode_index view = Ok bytes ->
  decode_index bytes = Ok view /\ (forall bytes' view', decode_index bytes' = Ok view' -> view_spelled view').
Proof. intros Hs He. split; [by apply index_decodes|]. intros bytes' view'. apply decode_spelled. Qed.

Lemma index_round_trip_witness : @decode_index demo_yaml [0%N] = Ok demo_view.
Proof.
  refine (proj1 (@index_round_trip demo_yaml (table_round_trip _ _ _) demo_view [0%N] _ _)).
  - exact demo_spelled.
  - vm_compute. reflexivity.
Defined.
