(* ===== verification/FamilyStore.v ===== *)
(** The YAML family store (src/crates/family-store/src/lib.rs, publish.rs and
    lock.rs, with the id source of src/crates/ids/src/lib.rs): publication of
    a metadata file by a temporary and a rename, the readings of a
    workspace's metadata, the locked session and its mutations.  Every
    operation runs on a [Disk] whose calls may fail at any point. *)

From S2P Require Export StoreFormat FileSystem.
From Stdlib Require Import Hexadecimal HexadecimalN.

#[local] Set Default Proof Using "Type".

(** ** Frozen paths (src/crates/family-model/src/lib.rs) *)

Definition INDEX_RELATIVE_PATH : str := lit ".gwz/local-family.yml".
Definition LOCK_RELATIVE_PATH : str := lit ".gwz/local-family.lock".
Definition POINTER_RELATIVE_PATH : str := lit ".gwz/family-root".
Definition ALLOCATION_MARKER_RELATIVE_PATH : str := lit ".gwz/local-clone-allocation".

(** ** The id source (src/crates/ids/src/lib.rs) *)

Record UniqueId : Type := mkUniqueId { id_prefix : N; id_sequence : N }.

Fixpoint hex_text (u : Hexadecimal.uint) : str :=
  match u with
  | Nil => []
  | D0 u => 48%N :: hex_text u | D1 u => 49%N :: hex_text u | D2 u => 50%N :: hex_text u
  | D3 u => 51%N :: hex_text u | D4 u => 52%N :: hex_text u | D5 u => 53%N :: hex_text u
  | D6 u => 54%N :: hex_text u | D7 u => 55%N :: hex_text u | D8 u => 56%N :: hex_text u
  | D9 u => 57%N :: hex_text u | Da u => 97%N :: hex_text u | Db u => 98%N :: hex_text u
  | Dc u => 99%N :: hex_text u | Dd u => 100%N :: hex_text u | De u => 101%N :: hex_text u
  | Df u => 102%N :: hex_text u
  end.

(** [{:x}] and [{:016x}]. *)
Definition show_hex (n : N) : str := hex_text (N.to_hex_uint n).
Definition show_hex16 (n : N) : str := replicate (16 - length (show_hex n)) 48%N ++ show_hex n.

Definition unique_id_text (id : UniqueId) : str :=
  show_hex16 (id_prefix id) ++ lit "-" ++ show_hex (id_sequence id).

(** [IdSource::unique]; the counter is far below the 2^64 draws at which the
    source panics. *)
Definition unique (prefix : N) : proc Disk UniqueId IoError := fun d =>
  (mkDisk (tree d) (clock d) (drawn d + 1) (locked d), Ok (mkUniqueId prefix (drawn d))).

(** ** Publication (publish.rs) *)

Inductive FileState : Type := Absent | Regular | Irregular.

Definition is_present (s : FileState) : bool := match s with Absent => false | _ => true end.

Definition TEMPORARY_ATTEMPTS : nat := 64.

Definition no_parent : IoError := mkIoError IoInvalidInput (lit "a metadata file always has a parent directory").
Definition no_name : IoError := mkIoError IoInvalidInput (lit "a metadata file always has a UTF-8 name").

Section store.
Context `{Yaml} (cwd : loc) (fault : nat -> option Fault) (prefix : N).

Definition file_state (path : str) : proc Disk FileState IoError :=
  pcase (look fault (fun t => lstat cwd t path)) (fun r =>
    match r with
    | Ok (NFile _) => pret Regular
    | Ok _ => pret Irregular
    | Err e => if bool_decide (io_kind e = IoNotFound) then pret Absent else pfail e
    end).

Definition read (path : str) : proc Disk (list N) IoError := look fault (fun t => read_file cwd t path).

(** Only a regular file is sized. *)
Definition encoded_size (path : str) : proc Disk N IoError :=
  let! node := look fault (fun t => stat cwd t path) in
  pret (match node with NFile bytes => N.of_nat (length bytes) | _ => 0%N end).

Definition ensure_metadata_directory (directory : str) : proc Disk unit IoError :=
  pcase (sys fault (fun t => create cwd NDir t directory)) (fun r =>
    match r with
    | Ok _ => pret tt
    | Err e =>
        if bool_decide (io_kind e = IoAlreadyExists) then
          let! node := look fault (fun t => lstat cwd t directory) in
          match node with
          | NDir => pret tt
          | _ => pfail (mkIoError IoNotADirectory
                   (directory ++ lit " is not a directory, so the family metadata cannot live there"))
          end
        else pfail e
    end).

Definition temporary_path (target : str) : proc Disk str IoError :=
  match path_parent target with
  | None => pfail no_parent
  | Some directory =>
      match path_file_name target with
      | None => pfail no_name
      | Some name =>
          let! id := unique prefix in
          pret (path_join directory (lit "." ++ name ++ lit ".tmp." ++ unique_id_text id))
      end
  end.

(** [tries] counts down from [TEMPORARY_ATTEMPTS]. *)
Fixpoint create_temporary (target : str) (tries : nat) : proc Disk (str * loc) IoError :=
  let! temporary := temporary_path target in
  pcase (sys fault (fun t => create cwd (NFile []) t temporary)) (fun r =>
    match r with
    | Ok file => pret (temporary, file)
    | Err e =>
        if bool_decide (io_kind e = IoAlreadyExists) then
          match tries with
          | 0 | 1 => pfail e
          | S tries => create_temporary target tries
          end
        else pfail e
    end).

Definition sync_all : proc Disk unit IoError := look fault (fun _ => Ok tt).

Definition flush_directory (directory : str) : proc Disk unit IoError :=
  do! look fault (fun t => stat cwd t directory) in
  sync_all.

Definition write_then_rename (file : loc) (temporary target : str) (contents : list N) (directory : str)
    : proc Disk unit IoError :=
  do! write_all fault file contents in
  do! sync_all in
  do! sys fault (fun t => rename cwd t temporary target) in
  flush_directory directory.

Definition publish (target : str) (contents : list N) : proc Disk unit IoError :=
  match path_parent target with
  | None => pfail no_parent
  | Some directory =>
      let! made := create_temporary target TEMPORARY_ATTEMPTS in
      pcase (write_then_rename made.2 made.1 target contents directory) (fun outcome =>
        if is_ok outcome then plift outcome
        else pcase (sys fault (fun t => unlink cwd t made.1)) (fun _ => plift outcome))
  end.

Definition remove (path : str) : proc Disk bool IoError :=
  pcase (sys fault (fun t => unlink cwd t path)) (fun r =>
    match r with
    | Ok _ => pret true
    | Err e => if bool_decide (io_kind e = IoNotFound) then pret false else pfail e
    end).

(** ** Readings (lib.rs) *)

Definition io_error (operation : StoreOperation) (path : str) (e : IoError) : StoreError :=
  SeIo operation path (io_text e).

Definition encoding_error (operation : StoreOperation) (path : str) (e : FormatError) : StoreError :=
  SeIo operation path (lit "the metadata could not be encoded: " ++ e).

Definition partial_or_io (operation : StoreOperation) (completed : list MetadataEffect) (path : str)
    (e : IoError) : StoreError :=
  if bool_decide (completed = []) then io_error operation path e
  else SePartial operation completed path (io_text e).

Definition irregular (path : str) : StoreError :=
  SeMalformed path (lit "a symlink, directory or other node occupies this metadata path; the store neither follows nor replaces it").

Definition oversize_error (path : str) (o : IndexOversize) : StoreError :=
  SeOversize path (oversize_bytes o) (oversize_limit o).

(** [resolve], which is [fs::canonicalize]. *)
Definition canonicalize (path : str) : proc Disk str IoError := real_path fault cwd path.

Definition metadata_directory (workspace : str) : str :=
  path_join workspace (default [] (path_parent INDEX_RELATIVE_PATH)).

Definition index_state (workspace : str) : proc Disk FileState StoreError :=
  let path := path_join workspace INDEX_RELATIVE_PATH in
  pmap_err (io_error ReadIndex path) (file_state path).

Definition read_index (root : str) : proc Disk (option FamilyView) StoreError :=
  let path := path_join root INDEX_RELATIVE_PATH in
  let! state := pmap_err (io_error ReadIndex path) (file_state path) in
  match state with
  | Absent => pret None
  | Irregular => pfail (irregular path)
  | Regular =>
      let! bytes := pmap_err (io_error ReadIndex path) (encoded_size path) in
      do! plift (map_err (oversize_error path) (check_encoded_size bytes)) in
      let! encoded := pmap_err (io_error ReadIndex path) (read path) in
      let! view := plift (map_err (SeMalformed path) (decode_index encoded)) in
      do! plift (map_err (fun refusal => SeMalformed path (refusal_text refusal)) (validate_view view)) in
      pret (Some view)
  end.

Definition read_metadata (path : str) (operation : StoreOperation) : proc Disk (option (list N)) StoreError :=
  let! state := pmap_err (io_error operation path) (file_state path) in
  match state with
  | Absent => pret None
  | Irregular => pfail (irregular path)
  | Regular =>
      let! bytes := pmap_err (io_error operation path) (read path) in
      pret (Some bytes)
  end.

Definition read_pointer (workspace : str) : proc Disk (option PointerFile) StoreError :=
  let path := path_join workspace POINTER_RELATIVE_PATH in
  let! encoded := read_metadata path ReadPointer in
  match encoded with
  | None => pret None
  | Some encoded =>
      let! pointer := plift (map_err (SeMalformed path) (decode_pointer encoded)) in
      pret (Some pointer)
  end.

Definition read_destination_pointer (workspace : str) : proc Disk (option PointerFile) StoreError :=
  let path := path_join workspace POINTER_RELATIVE_PATH in
  let! state := pmap_err (io_error ReadPointer path) (file_state path) in
  match state with
  | Absent | Irregular => pret None
  | Regular => read_pointer workspace
  end.

Definition read_marker (workspace : str) : proc Disk (option MarkerFile) StoreError :=
  let path := path_join workspace ALLOCATION_MARKER_RELATIVE_PATH in
  let! encoded := read_metadata path ReadMarker in
  match encoded with
  | None => pret None
  | Some encoded =>
      let! marker := plift (map_err (SeMalformed path) (decode_marker encoded)) in
      pret (Some marker)
  end.

Definition names_family (view : FamilyView) (pointer : PointerFile) : bool :=
  bool_decide (pf_family_id pointer = family_id_str (view_family_id view)).

Definition pointer_of (resolved : str) (view : FamilyView) : proc Disk bool StoreError :=
  pcase (read_pointer resolved) (fun r =>
    pret (match r with Ok (Some pointer) => names_family view pointer | _ => false end)).

Definition marker_of (resolved : str) (view : FamilyView) (row : MemberRow) : proc Disk bool StoreError :=
  pcase (read_marker resolved) (fun r =>
    pret (match r with
          | Ok (Some marker) =>
              bool_decide (mf_family_id marker = family_id_str (view_family_id view)) &&
              bool_decide (mf_allocation_id marker = allocation_str (row_allocation row))
          | _ => false
          end)).

(** Which root a workspace belongs to, its index not decoded. *)
Definition locate_family (workspace : str) : proc Disk (option (str * FamilySource)) StoreError :=
  let! index := index_state workspace in
  let pointer_path := path_join workspace POINTER_RELATIVE_PATH in
  let! pointer := pmap_err (io_error ReadPointer pointer_path) (file_state pointer_path) in
  if is_present index && is_present pointer then pfail (SeConflictingMetadata workspace)
  else if is_present index then pret (Some (workspace, SourceIndex))
  else
    let! pointer := read_pointer workspace in
    match pointer with
    | None => pret None
    | Some pointer =>
        let root := pf_root_path pointer in
        let invalid detail := SePointerTargetInvalid pointer_path root detail in
        pcase (read_index root) (fun r =>
          match r with
          | Ok (Some view) =>
              if names_family view pointer then pret (Some (root, SourcePointer))
              else pfail (invalid (lit "the root holds another family's index"))
          | Ok None => pfail (invalid (lit "the root holds no family index"))
          | Err (SeMalformed _ _) | Err (SeOversize _ _ _) => pret (Some (root, SourcePointer))
          | Err e => pfail e
          end)
    end.

Definition observe (workspace : str) : proc Disk FamilyObservation StoreError :=
  let! found := locate_family workspace in
  match found with
  | None => pret NoFamilyObserved
  | Some (root, source) =>
      let! view := read_index root in
      match view with
      | None => pfail (SeNoFamily workspace)
      | Some view => pret (FamilyObserved root source view)
      end
  end.

(** ** Observing a member's workspace *)

Record WorkspaceMetadata : Type := mkWorkspaceMetadata {
  wm_index : bool;
  wm_pointer : PointerObservation;
  wm_marker : MarkerObservation;
}.

Inductive WorkspaceObservation : Type :=
| WsMissing
| WsUnobservable (detail : str)
| WsPresent (metadata : WorkspaceMetadata).

(** The readings of [observe_workspace]; its early returns are their errors. *)
Definition unobservable (e : StoreError) : WorkspaceObservation := WsUnobservable (store_error_text e).

Definition observe_pointer (resolved : str) (family : FamilyId) (expected_root : str)
    : proc Disk PointerObservation WorkspaceObservation :=
  pcase (read_destination_pointer resolved) (fun r =>
    match r with
    | Ok None =>
        let! state := pmap_err (fun e => WsUnobservable (io_text e))
          (file_state (path_join resolved POINTER_RELATIVE_PATH)) in
        pret (match state with Absent => PtrAbsent | _ => PtrMalformed end)
    | Ok (Some pointer) =>
        pret (if bool_decide (pf_family_id pointer = family_id_str family) &&
                 path_eqb (pf_root_path pointer) expected_root
              then PtrMatches else PtrOtherFamily)
    | Err (SeMalformed _ _) => pret PtrMalformed
    | Err e => pfail (unobservable e)
    end).

Definition observe_marker (resolved : str) (family : FamilyId) (allocation : AllocationId)
    : proc Disk MarkerObservation WorkspaceObservation :=
  pcase (read_marker resolved) (fun r =>
    match r with
    | Ok None => pret MarkAbsent
    | Ok (Some marker) =>
        pret (if bool_decide (mf_family_id marker = family_id_str family) &&
                 bool_decide (mf_allocation_id marker = allocation_str allocation)
              then MarkMatches else MarkMismatch)
    | Err (SeMalformed _ _) => pret MarkMalformed
    | Err e => pfail (unobservable e)
    end).

Definition observe_metadata (workspace : str) (family : FamilyId) (root : str) (allocation : AllocationId)
    : proc Disk WorkspaceMetadata WorkspaceObservation :=
  let stop e := if bool_decide (io_kind e = IoNotFound) then WsMissing
                else WsUnobservable (workspace ++ lit ": " ++ io_text e) in
  let! resolved := pmap_err stop (canonicalize workspace) in
  let! node := pmap_err stop (look fault (fun t => lstat cwd t resolved)) in
  do! match node with
      | NDir => pret tt
      | _ => pfail (WsUnobservable (workspace ++ lit " is not a directory"))
      end in
  let! index := pmap_err unobservable (index_state resolved) in
  let! expected_root := pcase (canonicalize root) (fun r =>
    pret (match r with Ok root => root | Err _ => root end)) in
  let! pointer := observe_pointer resolved family expected_root in
  let! marker := observe_marker resolved family allocation in
  pret (mkWorkspaceMetadata (is_present index) pointer marker).

Definition observe_workspace (workspace : str) (family : FamilyId) (root : str) (allocation : AllocationId)
    (d : Disk) : Disk * WorkspaceObservation :=
  let '(d, r) := observe_metadata workspace family root allocation d in
  (d, match r with Ok metadata => WsPresent metadata | Err o => o end).

Definition observe_member_target (root : str) (view : FamilyView) (row : MemberRow) (d : Disk)
    : Disk * TargetObservation :=
  let '(d, o) := observe_workspace (path_join root (row_path row)) (view_family_id view) root (row_allocation row) d in
  (d, match o with
      | WsMissing => TargetMissing
      | WsUnobservable detail => TargetMalformed detail
      | WsPresent metadata =>
          TargetPresent (if wm_index metadata then PtrIsIndex else wm_pointer metadata) (wm_marker metadata)
      end).

(** ** The locked session *)

Section session.
Context (root : str).

Definition recorded_workspace (row : MemberRow) : str := path_join root (row_path row).

Definition session_row (view : FamilyView) (name : MemberName) : result MemberRow StoreError :=
  match bt_get (view_members view) name with
  | Some row => Ok row
  | None => Err (SeRefused (NotFound name))
  end.

Definition pointer_state : proc Disk FileState StoreError :=
  let path := path_join root POINTER_RELATIVE_PATH in
  pmap_err (io_error ReadPointer path) (file_state path).

Definition standing_pointer (view : FamilyView) (row : MemberRow) : proc Disk (option str) StoreError :=
  let recorded := recorded_workspace row in
  pcase (canonicalize recorded) (fun r =>
    match r with
    | Err _ => pret None
    | Ok resolved =>
        let! stands := pointer_of resolved view in
        pret (if stands then Some recorded else None)
    end).

(** The first of the rows whose pointer stands. *)
Fixpoint first_standing (view : FamilyView) (rows : list (MemberName * MemberRow))
    : proc Disk (option (str * str)) StoreError :=
  match rows with
  | [] => pret None
  | (name, row) :: rest =>
      let! standing := standing_pointer view row in
      match standing with
      | Some workspace => pret (Some (name_str name, workspace))
      | None => first_standing view rest
      end
  end.

Definition stranded_by (view : FamilyView) (change : FamilyChange) : proc Disk (option (str * str)) StoreError :=
  match change with
  | RemoveRow name _ =>
      match bt_get (view_members view) name with
      | Some row => first_standing view [(name, row)]
      | None => pret None
      end
  | Disband => first_standing view (bt_entries (view_members view))
  | _ => pret None
  end.

Definition write_index (view : FamilyView) : proc Disk MetadataEffect StoreError :=
  let path := path_join root INDEX_RELATIVE_PATH in
  let! encoded := plift (map_err (encoding_error WriteIndex path) (encode_index view)) in
  do! plift (map_err (oversize_error path) (check_encoded_size (N.of_nat (length encoded)))) in
  let directory := metadata_directory root in
  do! pmap_err (io_error WriteIndex directory) (ensure_metadata_directory directory) in
  do! pmap_err (io_error WriteIndex path) (publish path encoded) in
  pret IndexWritten.

Definition remove_index : proc Disk MetadataEffect StoreError :=
  let path := path_join root INDEX_RELATIVE_PATH in
  do! pmap_err (io_error RemoveIndex path) (remove path) in
  pret IndexRemoved.

Definition pointer_bytes (family : FamilyId) (pointer_path : str) : proc Disk (list N) StoreError :=
  let! root := pcase (canonicalize root) (fun r => pret (match r with Ok root => root | Err _ => root end)) in
  plift (map_err (encoding_error WritePointer pointer_path) (encode_pointer family root)).

Definition reread : proc Disk (option FamilyView) StoreError := read_index root.

Definition found (family : FamilyId) (root_allocation : AllocationId) : proc Disk AppliedChange StoreError :=
  let! current := reread in
  let! conflict := match current with
                   | Some _ => pret true
                   | None => let! state := pointer_state in pret (is_present state)
                   end in
  if (conflict : bool) then pfail (SeConflictingMetadata root)
  else
    let view := founded family root_allocation in
    let! effect := write_index view in
    pret (mkAppliedChange [effect] (Some view)).

Definition apply (change : FamilyChange) : proc Disk AppliedChange StoreError :=
  let! current := reread in
  match current with
  | None =>
      match change with
      | Disband => pret (mkAppliedChange [] None)
      | _ => pfail (SeNoFamily root)
      end
  | Some current =>
      let! stranded := stranded_by current change in
      match stranded with
      | Some (member, workspace) => pfail (SePointerStillInstalled member workspace)
      | None =>
          let! validated := plift (map_err SeRefused (validate_transition current change)) in
          match change with
          | Disband =>
              let! effect := remove_index in
              pret (mkAppliedChange [effect] None)
          | _ =>
              let! effect := write_index (vc_next validated) in
              pret (mkAppliedChange [effect] (Some (vc_next validated)))
          end
      end
  end.

Definition install_pointer (name : MemberName) (destination : str) : proc Disk AppliedChange StoreError :=
  let! current := reread in
  let! view := plift (ok_or current (SeNoFamily root)) in
  let! row := plift (session_row view name) in
  if negb (bool_decide (row_state row = Creating)) then
    pfail (SeRefused (WrongState name Creating (row_state row)))
  else
    let recorded := recorded_workspace row in
    let marker_path := path_join destination ALLOCATION_MARKER_RELATIVE_PATH in
    let! resolved := pmap_err (io_error WriteMarker marker_path) (canonicalize destination) in
    do! pcase (canonicalize recorded) (fun r =>
      match r with
      | Ok path => if path_eqb path resolved then pret tt
                   else pfail (SePathMismatch (name_str name) recorded destination)
      | Err _ => pfail (SePathMismatch (name_str name) recorded destination)
      end) in
    let! index := index_state destination in
    if is_present index then pfail (SeConflictingMetadata destination)
    else
      let pointer_path := path_join destination POINTER_RELATIVE_PATH in
      let! pointer := read_destination_pointer destination in
      do! match pointer with
          | Some pointer =>
              if names_family view pointer then pret tt
              else pfail (SePointerTargetInvalid pointer_path root
                     (lit "the destination already points at family " ++ quoted (pf_family_id pointer)))
          | None => pret tt
          end in
      let directory := metadata_directory destination in
      do! pmap_err (io_error WriteMarker directory) (ensure_metadata_directory directory) in
      let! marker := plift (map_err (encoding_error WriteMarker marker_path)
        (encode_marker (view_family_id view) (row_allocation row))) in
      do! pmap_err (io_error WriteMarker marker_path) (publish marker_path marker) in
      let effects := [MarkerWritten destination] in
      let! pointer := pointer_bytes (view_family_id view) pointer_path in
      do! pmap_err (fun e => SePartial WritePointer effects pointer_path (io_text e))
            (publish pointer_path pointer) in
      pret (mkAppliedChange (effects ++ [PointerWritten destination]) (Some view)).

Definition remove_pointer (name : MemberName) : proc Disk AppliedChange StoreError :=
  let! current := reread in
  let! view := plift (ok_or current (SeNoFamily root)) in
  let! row := plift (session_row view name) in
  let workspace := recorded_workspace row in
  pcase (canonicalize workspace) (fun r =>
    match r with
    | Err _ => pret (mkAppliedChange [] (Some view))
    | Ok resolved =>
        let! stands := pointer_of resolved view in
        let! effects :=
          (if (stands : bool) then
             let path := path_join resolved POINTER_RELATIVE_PATH in
             do! pmap_err (io_error RemovePointer path) (remove path) in
             pret [PointerRemoved workspace]
           else pret []) in
        let! marked := marker_of resolved view row in
        if (marked : bool) then
          let path := path_join resolved ALLOCATION_MARKER_RELATIVE_PATH in
          do! pmap_err (partial_or_io RemoveMarker effects path) (remove path) in
          pret (mkAppliedChange (effects ++ [MarkerRemoved workspace]) (Some view))
        else pret (mkAppliedChange effects (Some view))
    end).

End session.

(** ** The lock (lock.rs) *)

Inductive Attempt : Type := Acquired (lock : loc) | Busy | Unsupported (detail : str).

Definition lock_file (l : loc) : proc Disk bool IoError := fun d =>
  match fault (clock d) with
  | Some f => (mkDisk (tree d) (S (clock d)) (drawn d) (locked d), Err (fault_error f))
  | None => if bool_decide (l ∈ locked d) then (mkDisk (tree d) (S (clock d)) (drawn d) (locked d), Ok false)
            else (mkDisk (tree d) (S (clock d)) (drawn d) (l :: locked d), Ok true)
  end.

Definition try_acquire (path : str) : proc Disk Attempt IoError :=
  let! l := sys fault (fun t => open_create MAX_LINKS t (start cwd path) (path_components path)) in
  pcase (lock_file l) (fun r =>
    match r with
    | Ok true => pret (Acquired l)
    | Ok false => pret Busy
    | Err e => if bool_decide (io_kind e = IoUnsupported) then pret (Unsupported (io_text e)) else pfail e
    end).

Record LockedFamilySession : Type := mkLockedFamilySession { lfs_root : str; lfs_lock : loc }.

Definition release (session : LockedFamilySession) (d : Disk) : Disk :=
  mkDisk (tree d) (clock d) (drawn d) (filter (fun l => l <> lfs_lock session) (locked d)).

Definition read_view (location : FamilyLocation) : proc Disk FamilyObservation StoreError :=
  observe (location_workspace location).

Definition try_lock (location : FamilyLocation) : proc Disk LockedFamilySession StoreError :=
  let! found := locate_family (location_workspace location) in
  let root := match found with Some (root, _) => root | None => location_workspace location end in
  let directory := metadata_directory root in
  do! pmap_err (io_error Lock directory) (ensure_metadata_directory directory) in
  let lock_path := path_join root LOCK_RELATIVE_PATH in
  let! attempt := pmap_err (io_error Lock lock_path) (try_acquire lock_path) in
  match attempt with
  | Acquired lock => pret (mkLockedFamilySession root lock)
  | Busy => pfail (SeBusy lock_path)
  | Unsupported detail => pfail (SeLockingUnsupported detail)
  end.

End store.
