(* ===== verification/StoreProofs.v ===== *)
(** The family store keeps its contract: publication replaces a metadata file
    whole or not at all, whatever call fails; the session keeps the laws of
    [FamilyStoreContract.SessionLaws], so what is proved of its clients holds
    on files; and a clone's pointer and marker read back as they were
    installed. *)

From S2P Require Export FamilyStore.

#[local] Set Default Proof Using "Type".

Implicit Types (t : Tree) (l : loc).

(** ** Temporary names *)

Lemma hex_text_digits u c : c ∈ hex_text u -> c <> c_slash.
Proof. induction u; cbn [hex_text]; rewrite ?elem_of_nil, ?elem_of_cons; try done; intros [->|?]; (done || auto). Qed.

Lemma unique_clean id c : c ∈ unique_id_text id -> c <> c_slash.
Proof.
  unfold unique_id_text, show_hex16, show_hex. rewrite !elem_of_app. intros [[Hc|Hc]|[Hc|Hc]].
  - by apply elem_of_replicate in Hc as [-> _].
  - by eapply hex_text_digits.
  - by apply list_elem_of_singleton in Hc as ->.
  - by eapply hex_text_digits.
Qed.

Definition temporary_name (name : str) (id : UniqueId) : str := lit "." ++ name ++ lit ".tmp." ++ unique_id_text id.

Lemma temporary_plain name id :
  plain_name name -> plain_name (temporary_name name id) /\ temporary_name name id <> name.
Proof.
  intros [_ _ _ Hs]. unfold temporary_name.
  assert (HL : length name + 6 <= length (lit "." ++ name ++ lit ".tmp." ++ unique_id_text id)).
  { rewrite !length_app. change (length (lit ".")) with 1. change (length (lit ".tmp.")) with 5. lia. }
  split; [split|].
  - intros E. rewrite E in HL. cbn in HL. lia.
  - intros E. rewrite E in HL. cbn in HL. lia.
  - intros E. rewrite E in HL. cbn in HL. lia.
  - rewrite !elem_of_app. intros [Hc|[Hc|[Hc|Hc]]].
    + revert Hc. refine (bool_decide_unpack (c_slash ∉ lit ".") _). by vm_compute.
    + done.
    + revert Hc. refine (bool_decide_unpack (c_slash ∉ lit ".tmp.") _). by vm_compute.
    + by eapply unique_clean.
  - intros E. rewrite E in HL. lia.
Qed.

(** ** Siblings name entries of one directory *)

Section siblings.
Context (cwd : loc).

(** An entry some write turned into a file was found the same way before. *)
Lemma entry_back t l b p n l' :
  last (path_components p) = Some (Normal n) -> entry cwd (<[l := NFile b]> t) p = Ok l' -> l <> [] ->
  entry cwd t p = Ok l'.
Proof.
  intros Hn. unfold entry. rewrite Hn. intros (d & Hw & He)%rbind_ok Hl.
  destruct (node_at (<[l := NFile b]> t) d) as [[]|] eqn:Ed; try done.
  assert (Hd : d <> l).
  { intros ->. destruct l; [done|]. cbn [node_at] in Ed. by rewrite lookup_insert_eq in Ed. }
  rewrite (walk_back _ _ _ _ _ _ _ Hw Hd). cbn [rbind].
  assert (E : node_at t d = Some NDir).
  { rewrite <- Ed. destruct d; [done|]. cbn [node_at]. by rewrite lookup_insert_ne by congruence. }
  by rewrite E.
Qed.

End siblings.

(** ** Publication *)

Section publication.
Context (cwd : loc) (fault : nat -> option Fault) (prefix : N).
Implicit Types d : Disk.

(** What a publication leaves of the tree, at the target's entry [l] and the
    temporary's [lt]. *)
Record published (t t' : Tree) (l lt : loc) (contents : list N) (done : bool) : Prop := {
  pub_fresh : t !! lt = None /\ lt <> l;
  pub_frame : forall l', l' <> l -> l' <> lt -> t' !! l' = t !! l';
  pub_target : t' !! l = t !! l \/ t' !! l = Some (NFile contents);
  pub_temporary : t' !! lt = None \/ exists b, t' !! lt = Some (NFile b);
  pub_done : done = true -> t' !! l = Some (NFile contents) /\ t' !! lt = None;
}.

(** [m] is the last name of a path beside [target]. *)
Definition beside (target temporary : str) (n m : str) : Prop :=
  last (path_components target) = Some (Normal n) /\ m <> n /\
  path_components temporary = removelast (path_components target) ++ [Normal m].

Lemma temporary_path_spec target d d' r :
  temporary_path prefix target d = (d', r) ->
  tree d' = tree d /\ (forall temporary, r = Ok temporary -> exists n m, beside target temporary n m).
Proof.
  unfold temporary_path. destruct (path_parent target) as [directory|] eqn:Ep; [|by intros [= <- <-]].
  destruct (path_file_name target) as [n|] eqn:En; [|by intros [= <- <-]].
  intros [= <- <-]. split; [done|]. intros temporary [= <-].
  destruct (temporary_plain n (mkUniqueId prefix (drawn d)) (file_name_plain _ _ En)) as [Hp Hne].
  destruct (sibling_components target n _ En Hp) as (parent & Ep' & Hc). rewrite Ep in Ep'. injection Ep' as <-.
  exists n, (temporary_name n (mkUniqueId prefix (drawn d))). split_and!; [|done..].
  unfold path_file_name in En. by destruct (last _) as [[]|]; simplify_eq.
Qed.

Lemma create_temporary_spec target tries d d' r :
  create_temporary cwd fault prefix target tries d = (d', r) ->
  match r with
  | Err _ => tree d' = tree d
  | Ok (temporary, file) =>
      tree d' = <[file := NFile []]> (tree d) /\ node_at (tree d) file = None /\
      entry cwd (tree d) temporary = Ok file /\ exists n m, beside target temporary n m
  end.
Proof.
  revert d. induction tries as [|tries IH]; intros d; cbn [create_temporary];
    intros [(e & [E1 _]%temporary_path_spec & ->)|(temporary & d1 & [E1 Hb]%temporary_path_spec & H1)]%pbind_inv; try done;
    apply pcase_inv in H1 as ([file|e] & d2 & Hs & H2); apply create_spec in Hs; rewrite E1 in Hs.
  1,3: injection H2 as <- <-; destruct Hs as (Ht & Hn & He); split_and!; [done..|by apply Hb].
  - by case_bool_decide; injection H2 as <- <-.
  - case_bool_decide; [|by injection H2 as <- <-]. destruct tries as [|tries]; [by injection H2 as <- <-|].
    apply IH in H2. by rewrite Hs in H2.
Qed.

(** The temporary's entry and the target's are two of one directory. *)
Record staged (t : Tree) (target temporary : str) (l lt : loc) : Prop := {
  st_temporary : entry cwd t temporary = Ok lt;
  st_target : entry cwd t target = Ok l;
  st_fresh : t !! lt = None;
  st_distinct : lt <> l;
  st_names : names_entry target /\ names_entry temporary;
  st_nonempty : l <> [] /\ lt <> [];
}.

Lemma beside_staged t target temporary n m lt :
  beside target temporary n m -> entry cwd t temporary = Ok lt -> node_at t lt = None ->
  exists dir, staged t target temporary (n :: dir) lt /\ node_at t dir = Some NDir.
Proof.
  intros (Hn & Hmn & Hc) He Hf. destruct (entry_sibling cwd _ _ _ _ _ _ Hn Hc He) as (dir & -> & Ht & Hd).
  exists dir. split; [|done]. split; try done.
  - by intros [= ?].
  - split; [by exists n|]. exists m. by rewrite Hc, last_snoc.
Qed.

Lemma staged_write t target temporary l lt b :
  staged t target temporary l lt ->
  entry cwd (<[lt := NFile b]> t) temporary = Ok lt /\ entry cwd (<[lt := NFile b]> t) target = Ok l.
Proof.
  intros [H1 H2 H3 H4 [H5 H6] _]. assert (same_structure t (<[lt := NFile b]> t)).
  { apply same_structure_insert; [by rewrite H3|done]. }
  split; by eapply entry_frame.
Qed.

Lemma rename_staged t target temporary l lt contents :
  staged t target temporary l lt ->
  rename cwd (<[lt := NFile contents]> t) temporary target = (<[l := NFile contents]> t, Ok tt) \/
  exists k, rename cwd (<[lt := NFile contents]> t) temporary target = (<[lt := NFile contents]> t, Err k).
Proof.
  intros HS. destruct (staged_write _ _ _ _ _ contents HS) as [W1 W2].
  destruct HS as [_ _ Hf Hd _ [Hl Hlt]]. unfold rename. rewrite W1, W2.
  rewrite !node_at_lookup, lookup_insert_eq, lookup_insert_ne by congruence.
  rewrite bool_decide_false, delete_insert_id by done. destruct (t !! l) as [[]|]; eauto.
Qed.

Lemma write_then_rename_spec t target temporary l lt contents directory d d' r :
  staged t target temporary l lt -> tree d = <[lt := NFile []]> t ->
  write_then_rename cwd fault lt temporary target contents directory d = (d', r) ->
  (is_ok r = false /\ exists b, tree d' = <[lt := NFile b]> t) \/ tree d' = <[l := NFile contents]> t.
Proof.
  intros HS Ed. unfold write_then_rename.
  assert (EW : forall d1 r1, write_all fault lt contents d = (d1, r1) ->
    exists b, tree d1 = <[lt := NFile b]> t /\ (is_ok r1 = true -> b = contents)).
  { unfold write_all. intros d1 r1. destruct (fault (clock d)); intros [= <- <-]; cbn [tree];
      rewrite Ed, insert_insert_eq; eexists; by split. }
  intros [(e & H1 & ->)|(? & d1 & H1 & H2)]%pbind_inv; apply EW in H1 as (b & E1 & Eb); [left; eauto|].
  rewrite (Eb eq_refl) in E1. clear b Eb EW.
  apply pbind_inv in H2 as [(e & H2%look_tree & ->)|(? & d2 & H2%look_tree & H3)].
  { left. rewrite H2. eauto. }
  rewrite E1 in H2. apply pbind_inv in H3 as [(e & H3 & ->)|(? & d3 & H3 & H4)];
    apply sys_spec in H3 as [(E3 & f & Ef)|(E3 & Er)]; try done; rewrite ?H2 in *.
  { left. eauto. }
  - left. destruct (rename_staged t target temporary l lt contents HS) as [E|[k E]]; rewrite E in *; [done|].
    split; [done|]. by exists contents.
  - right. destruct (rename_staged t target temporary l lt contents HS) as [E|[k E]]; rewrite E in *; [|done].
    cbn [fst] in E3. rewrite <- E3.
    by apply pbind_inv in H4 as [(e & H4%look_tree & ->)|(? & d4 & H4%look_tree & H5%look_tree)]; rewrite ?H5.
Qed.

(** What a failed publication removes is its temporary or nothing. *)
Lemma unlink_staged t target temporary l lt contents d d' r :
  staged t target temporary l lt -> sys fault (fun t => unlink cwd t temporary) d = (d', r) ->
  (forall b, tree d = <[lt := NFile b]> t -> tree d' = tree d \/ tree d' = t) /\
  (tree d = <[l := NFile contents]> t -> tree d' = tree d).
Proof.
  intros HS Hu%unlink_spec. split.
  - intros b Eb. destruct Hu as [[? _]|(l' & He & Hd & _)]; [by left|right].
    destruct (staged_write _ _ _ _ _ b HS) as [W _]. rewrite Eb in He, Hd. assert (l' = lt) as -> by congruence.
    rewrite Hd. apply delete_insert_id. by apply st_fresh in HS.
  - intros Eb. destruct Hu as [[? _]|(l' & He & Hd & _ & node & Hn & _)]; [done|exfalso].
    destruct HS as [H1 _ H3 H4 [_ [m Hm]] [H5 H6]]. rewrite Eb in He, Hn.
    apply (entry_back cwd _ _ _ _ m) in He; [|done..]. assert (l' = lt) as -> by congruence.
    rewrite node_at_lookup, lookup_insert_ne in Hn by done. congruence.
Qed.

Lemma published_left t target temporary l lt contents b :
  staged t target temporary l lt -> published t (<[lt := NFile b]> t) l lt contents false.
Proof.
  intros [_ _ Hf Hne _ _]. split; [done| | | |done].
  - intros l' _ ?. by rewrite lookup_insert_ne.
  - left. by rewrite lookup_insert_ne.
  - right. exists b. by rewrite lookup_insert_eq.
Qed.

Lemma published_same t target temporary l lt contents :
  staged t target temporary l lt -> published t t l lt contents false.
Proof. intros [_ _ Hf Hne _ _]. split; [done..|by left|by left|done]. Qed.

Lemma published_whole t target temporary l lt contents ok :
  staged t target temporary l lt -> published t (<[l := NFile contents]> t) l lt contents ok.
Proof.
  intros [_ _ Hf Hne _ _]. split; [done| | | |].
  - intros l' ? _. by rewrite lookup_insert_ne.
  - right. by rewrite lookup_insert_eq.
  - left. by rewrite lookup_insert_ne.
  - intros _. by rewrite lookup_insert_eq, lookup_insert_ne.
Qed.

Lemma publish_spec target contents d d' r :
  publish cwd fault prefix target contents d = (d', r) ->
  tree d' = tree d /\ is_ok r = false \/
  exists l lt, entry cwd (tree d) target = Ok l /\ l <> [] /\ published (tree d) (tree d') l lt contents (is_ok r).
Proof.
  unfold publish. destruct (path_parent target) as [directory|]; [|by intros [= <- <-]; left].
  intros [(e & H1%create_temporary_spec & ->)|([temporary lt] & d1 & H1%create_temporary_spec & H2)]%pbind_inv; [by left|].
  destruct H1 as (E1 & Hf & He & n & m & Hb).
  destruct (beside_staged _ _ _ _ _ _ Hb He Hf) as (dir & HS & Hd). right. exists (n :: dir), lt.
  pose proof HS as [_ Ht _ _ _ _]. split; [done|split; [done|]].
  apply pcase_inv in H2 as (outcome & d2 & Hw & Ho). cbn [fst snd] in Hw, Ho.
  pose proof (write_then_rename_spec _ _ _ _ _ _ _ _ _ _ HS E1 Hw) as HW.
  destruct (is_ok outcome) eqn:Eo.
  { injection Ho as <- <-. destruct HW as [[? _]| ->]; [congruence|]. rewrite Eo. by eapply published_whole. }
  apply pcase_inv in Ho as (r3 & d3 & Hu & [= <- <-]). rewrite Eo.
  destruct (unlink_staged _ _ _ _ _ contents _ _ _ HS Hu) as [U1 U2].
  destruct HW as [[_ [b Hb2]]|Hb2].
  - destruct (U1 b Hb2) as [-> | ->]; [rewrite Hb2; by eapply published_left|by eapply published_same].
  - rewrite (U2 Hb2), Hb2. by eapply published_whole.
Qed.

End publication.

Lemma published_exactly t t' l lt contents : published t t' l lt contents true -> t' = <[l := NFile contents]> t.
Proof.
  intros [[Hf Hne] Hfr _ _ Hd]. destruct (Hd eq_refl) as [Hl Hlt]. apply map_eq. intros l'.
  destruct (decide (l' = l)) as [->|H1]; [by rewrite lookup_insert_eq|].
  rewrite lookup_insert_ne by done. destruct (decide (l' = lt)) as [->|H2]; [congruence|by apply Hfr].
Qed.

Section reading.
Context `{Yaml} (cwd : loc) (fault : nat -> option Fault).

Lemma quiet_file_state p : quiet (file_state cwd fault p).
Proof. unfold file_state. quiet_tac. Qed.
#[local] Hint Resolve quiet_file_state : quiet.
Lemma quiet_read p : quiet (read cwd fault p).
Proof. unfold read. quiet_tac. Qed.
Lemma quiet_canonicalize p : quiet (canonicalize cwd fault p).
Proof. unfold canonicalize, real_path. quiet_tac. Qed.
#[local] Hint Resolve quiet_read quiet_canonicalize : quiet.
Lemma quiet_read_index p : quiet (read_index cwd fault p).
Proof. unfold read_index, encoded_size. quiet_tac. Qed.
Lemma quiet_read_metadata p op : quiet (read_metadata cwd fault p op).
Proof. unfold read_metadata. quiet_tac. Qed.
#[local] Hint Resolve quiet_read_index quiet_read_metadata : quiet.
Lemma quiet_read_pointer p : quiet (read_pointer cwd fault p).
Proof. unfold read_pointer. quiet_tac. Qed.
Lemma quiet_read_marker p : quiet (read_marker cwd fault p).
Proof. unfold read_marker. quiet_tac. Qed.
#[local] Hint Resolve quiet_read_pointer quiet_read_marker : quiet.
Lemma quiet_pointer_of p view : quiet (pointer_of cwd fault p view).
Proof. unfold pointer_of. quiet_tac. Qed.
Lemma quiet_marker_of p view row : quiet (marker_of cwd fault p view row).
Proof. unfold marker_of. quiet_tac. Qed.
#[local] Hint Resolve quiet_pointer_of quiet_marker_of : quiet.
Lemma quiet_standing root view row : quiet (standing_pointer cwd fault root view row).
Proof. unfold standing_pointer. quiet_tac. Qed.
#[local] Hint Resolve quiet_standing : quiet.
Lemma quiet_first_standing root view rows : quiet (first_standing cwd fault root view rows).
Proof. induction rows as [|[name row] rows IH]; cbn [first_standing]; quiet_tac. Qed.
#[local] Hint Resolve quiet_first_standing : quiet.
Lemma quiet_stranded root view change : quiet (stranded_by cwd fault root view change).
Proof. unfold stranded_by. quiet_tac. Qed.
Lemma quiet_index_state p : quiet (index_state cwd fault p).
Proof. unfold index_state. quiet_tac. Qed.
Lemma quiet_destination_pointer p : quiet (read_destination_pointer cwd fault p).
Proof. unfold read_destination_pointer. quiet_tac. Qed.
#[local] Hint Resolve quiet_index_state quiet_destination_pointer : quiet.
Lemma quiet_locate p : quiet (locate_family cwd fault p).
Proof. unfold locate_family. quiet_tac. Qed.
#[local] Hint Resolve quiet_locate : quiet.
Lemma quiet_observe p : quiet (observe cwd fault p).
Proof. unfold observe. quiet_tac. Qed.
Lemma quiet_observe_metadata w f r a : quiet (observe_metadata cwd fault w f r a).
Proof. unfold observe_metadata, observe_pointer, observe_marker. quiet_tac. Qed.

(** What a look at a metadata path reports. *)
Lemma file_state_spec p d d' s :
  file_state cwd fault p d = (d', Ok s) ->
  match s with
  | Absent => lstat cwd (tree d) p = Err IoNotFound
  | Regular => exists b, lstat cwd (tree d) p = Ok (NFile b)
  | Irregular => exists node, lstat cwd (tree d) p = Ok node /\ forall b, node <> NFile b
  end.
Proof.
  intros (r0 & d1 & [_ Hl]%look_spec & Hk)%pcase_inv. destruct Hl as [[f ->]| ->].
  { revert Hk. cbn. by destruct (fault_kind f). }
  destruct (lstat cwd (tree d) p) as [node|k]; cbn [map_err] in Hk.
  - destruct node; injection Hk as _ <-; eauto.
  - case_bool_decide as E; [|done]. injection Hk as _ <-. by destruct k.
Qed.

Lemma lstat_file t p b : names_entry p -> lstat cwd t p = Ok (NFile b) ->
  exists l, entry cwd t p = Ok l /\ node_at t l = Some (NFile b) /\ stat cwd t p = Ok (NFile b) /\ read_file cwd t p = Ok b.
Proof.
  intros Hn (l & He & Hl)%rbind_ok. exists l. destruct (node_at t l) as [node|] eqn:En; [|done]. injection Hl as ->.
  assert (Hs : stat cwd t p = Ok (NFile b)).
  { unfold stat. rewrite (canonical_entry cwd t p l (NFile b)) by done. cbn [rbind]. by rewrite En. }
  split_and!; [done..|]. unfold read_file. by rewrite Hs.
Qed.

Lemma lstat_absent t p : lstat cwd t p = Err IoNotFound ->
  forall l, entry cwd t p = Ok l -> node_at t l = None.
Proof. unfold lstat. intros Hl l He. rewrite He in Hl. cbn [rbind] in Hl. by destruct (node_at t l). Qed.

End reading.

(** ** Metadata paths *)

Definition GWZ : str := lit ".gwz".

Lemma metadata_components w file rel :
  rel = GWZ ++ c_slash :: file -> plain_name file ->
  path_components (path_join w rel) = path_components w ++ [Normal GWZ; Normal file].
Proof.
  intros -> Hp. destruct (plain_components file Hp) as (_ & _ & Hc).
  assert (Ha : is_absolute (GWZ ++ c_slash :: file) = false) by done.
  assert (Es : split_on c_slash (GWZ ++ c_slash :: file) = [GWZ; file]).
  { rewrite split_on_sep, !split_on_clean; [done|by destruct Hp|].
    refine (bool_decide_unpack (c_slash ∉ GWZ) _). by vm_compute. }
  assert (Ec : path_components (GWZ ++ c_slash :: file) = [Normal GWZ; Normal file]).
  { unfold path_components. rewrite Ha, Es. cbn [head]. rewrite bool_decide_false by done.
    cbn [app]. rewrite !bind_cons, (plain_component file) by done. done. }
  destruct (decide (w = [])) as [->|Hw].
  - unfold path_join. rewrite Ha. cbn [bool_decide app]. exact Ec.
  - rewrite components_join by (try done; by rewrite Es). by rewrite Ec.
Qed.

Definition metadata_file (rel file : str) : Prop := rel = GWZ ++ c_slash :: file /\ plain_name file.

Lemma index_file_path : metadata_file INDEX_RELATIVE_PATH (lit "local-family.yml").
Proof. split; [done|]. apply plain_decide. by vm_compute. Qed.
Lemma pointer_file_path : metadata_file POINTER_RELATIVE_PATH (lit "family-root").
Proof. split; [done|]. apply plain_decide. by vm_compute. Qed.
Lemma marker_file_path : metadata_file ALLOCATION_MARKER_RELATIVE_PATH (lit "local-clone-allocation").
Proof. split; [done|]. apply plain_decide. by vm_compute. Qed.

Lemma metadata_directory_components w :
  path_components (metadata_directory w) = path_components w ++ [Normal GWZ].
Proof.
  unfold metadata_directory. change (default [] (path_parent INDEX_RELATIVE_PATH)) with GWZ.
  assert (Hp : plain_name GWZ) by (apply plain_decide; by vm_compute).
  destruct (plain_components GWZ Hp) as (Ha & Hd & Hc). destruct (decide (w = [])) as [->|Hw].
  - unfold path_join. rewrite Ha. exact Hc.
  - by rewrite components_join, Hc.
Qed.

Section metadata.
Context (cwd : loc).

Lemma metadata_names w rel file : metadata_file rel file -> names_entry (path_join w rel).
Proof.
  intros [Hr Hp]. exists file. rewrite (metadata_components w file) by done.
  change [Normal GWZ; Normal file] with ([Normal GWZ] ++ [Normal file]). by rewrite app_assoc, last_snoc.
Qed.

(** A metadata entry is in a directory reached through `.gwz`. *)
Lemma metadata_entry t w rel file l :
  metadata_file rel file -> entry cwd t (path_join w rel) = Ok l ->
  exists d, l = file :: d /\ node_at t d = Some NDir /\
    walk MAX_LINKS t (start cwd (metadata_directory w)) (path_components (metadata_directory w)) = Ok d.
Proof.
  intros [Hr Hp] He. pose proof (metadata_components w file rel Hr Hp) as Hc.
  assert (ES : start cwd (path_join w rel) = start cwd (metadata_directory w)).
  { unfold start. rewrite !absolute_components, Hc, metadata_directory_components. by destruct (path_components w). }
  rewrite metadata_directory_components, <- ES. unfold entry in He. rewrite Hc in He.
  change [Normal GWZ; Normal file] with ([Normal GWZ] ++ [Normal file]) in He.
  rewrite app_assoc, last_snoc, removelast_snoc in He. apply rbind_ok in He as (d & Hw & He).
  exists d. destruct (node_at t d) as [[]|]; try done. by injection He as <-.
Qed.

(** A directory the walk passed through is there. *)
Lemma metadata_directory_there t w rel file l :
  metadata_file rel file -> entry cwd t (path_join w rel) = Ok l ->
  forall l', entry cwd t (metadata_directory w) = Ok l' -> node_at t l' <> None.
Proof.
  intros Hf (d & _ & _ & Hw)%(metadata_entry _ _ _ _ _ Hf) l' He.
  unfold entry in He. rewrite metadata_directory_components in He, Hw. rewrite last_snoc, removelast_snoc in He.
  apply rbind_ok in He as (d0 & Hw0 & He). destruct (node_at t d0) as [[]|] eqn:Ed; try done. injection He as <-.
  cbn [node_at]. intros En. destruct (walk_app _ _ _ _ _ Hw0 Ed) as [links' E]. rewrite E in Hw.
  by rewrite walk_one in Hw.
Qed.

Lemma ensure_there fault w rel file l d d' r :
  metadata_file rel file -> entry cwd (tree d) (path_join w rel) = Ok l ->
  ensure_metadata_directory cwd fault (metadata_directory w) d = (d', r) -> tree d' = tree d.
Proof.
  intros Hf He (r0 & d1 & Hs%create_spec & Hk)%pcase_inv. destruct r0 as [l'|e].
  - destruct Hs as (_ & Hn & He'). by destruct (metadata_directory_there _ _ _ _ _ Hf He _ He').
  - rewrite <- Hs. case_bool_decide; [|by injection Hk as <- <-].
    apply pbind_inv in Hk as [(e' & Hl%look_tree & _)|(node & d2 & Hl%look_tree & Hn)]; [done|].
    by destruct node; injection Hn as <- <-.
Qed.

End metadata.

(** ** The index the session keeps *)

Section index.
Context `{Yaml} (cwd : loc) (fault : nat -> option Fault) (prefix : N) (root : str).
Implicit Types d : Disk.

Definition index_path : str := path_join root INDEX_RELATIVE_PATH.

(** The view a file's bytes hold. *)
Definition view_of (bytes : list N) : option FamilyView :=
  match check_encoded_size (N.of_nat (length bytes)), decode_index bytes with
  | Ok _, Ok v => if is_ok (validate_view v) then Some v else None
  | _, _ => None
  end.

(** The family at the root: its index file, if there is one the store reads. *)
Definition index_at (t : Tree) : option FamilyView :=
  match entry cwd t index_path with
  | Ok l => match node_at t l with Some (NFile bytes) => view_of bytes | _ => None end
  | Err _ => None
  end.

Lemma index_names : names_entry index_path.
Proof. eapply metadata_names, index_file_path. Qed.

Lemma index_at_file t v : index_at t = Some v ->
  exists l bytes, entry cwd t index_path = Ok l /\ t !! l = Some (NFile bytes) /\ view_of bytes = Some v.
Proof.
  unfold index_at. destruct (entry cwd t index_path) as [l|] eqn:E; [|done].
  destruct (node_at t l) as [[|bytes| |]|] eqn:En; try done. intros Hv. exists l, bytes. by destruct l.
Qed.

Lemma index_at_entry t l : entry cwd t index_path = Ok l -> l <> [] ->
  index_at t = match t !! l with Some (NFile bytes) => view_of bytes | _ => None end.
Proof. intros E Hl. unfold index_at. rewrite E. by destruct l. Qed.

Lemma index_entry_nonempty t l : entry cwd t index_path = Ok l -> exists l', l = lit "local-family.yml" :: l'.
Proof. intros (d & -> & _)%(metadata_entry _ _ _ _ _ _ index_file_path). eauto. Qed.

Lemma index_at_frame t t' :
  same_structure t t' -> (forall l, entry cwd t index_path = Ok l -> t' !! l = t !! l) -> index_at t' = index_at t.
Proof.
  intros HS Hn. destruct (entry cwd t index_path) as [l|k] eqn:E.
  - assert (Hl : l <> []) by (by destruct (index_entry_nonempty _ _ E) as [l' ->]).
    assert (E' : entry cwd t' index_path = Ok l) by (eapply entry_frame; [exact HS|apply index_names|exact E]).
    by rewrite (index_at_entry t' l E' Hl), (index_at_entry t l E Hl), (Hn l eq_refl).
  - unfold index_at. rewrite E. destruct (entry cwd t' index_path) as [l|] eqn:E'; [|done].
    apply (entry_frame_iff cwd t t') in E'; [congruence|done|apply index_names].
Qed.

Lemma view_of_spec bytes v : view_of bytes = Some v -> view_wf v /\ view_spelled v.
Proof.
  unfold view_of. destruct (check_encoded_size _); [|done]. destruct (decode_index bytes) as [v'|] eqn:Ed; [|done].
  destruct (validate_view v') as [[]|] eqn:Ev; [|done]. intros [= ->]. split; [by apply validate_view_wf|].
  by eapply decode_spelled.
Qed.

Lemma index_at_spec t v : index_at t = Some v -> view_wf v /\ view_spelled v.
Proof. intros (l & bytes & _ & _ & Hv)%index_at_file. by eapply view_of_spec. Qed.

Lemma read_index_spec d d' r :
  read_index cwd fault root d = (d', r) ->
  tree d' = tree d /\ (forall v, r = Ok v -> v = index_at (tree d)).
Proof.
  intros Hr. split; [by eapply quiet_read_index|]. intros v ->. revert Hr. unfold read_index. fold index_path.
  intros [(e & _ & [=])|(s & d1 & (r1 & H1 & Es)%pmap_err_inv & H2)]%pbind_inv.
  pose proof (quiet_file_state _ _ _ _ _ _ H1) as E1. destruct r1 as [s'|]; [|done]. injection Es as ->.
  apply file_state_spec in H1. destruct s'.
  - injection H2 as _ <-. unfold index_at. destruct (entry cwd (tree d) index_path) as [l|] eqn:El; [|done].
    by rewrite (lstat_absent cwd _ _ H1 _ El).
  - destruct H1 as [b (l & El & Hl & Hs & Hf)%(lstat_file _ _ _ _ index_names)].
    rewrite <- E1 in Hs, Hf. unfold index_at. rewrite El, Hl.
    apply pbind_inv in H2 as [(e & _ & [=])|(n & d2 & (r2 & H2 & Er)%pmap_err_inv & H3)].
    destruct r2; [|done]. injection Er as ->.
    apply pbind_inv in H2 as [(e & _ & [=])|(node & d3 & Hn & Hp)]. pose proof (look_tree _ _ _ _ _ Hn) as E3.
    apply look_ok in Hn. rewrite Hs in Hn. injection Hn as <-. injection Hp as <- <-.
    apply pbind_inv in H3 as [(e & _ & [=])|(u & d4 & [= <- Hc] & H4)]. apply map_err_ok in Hc.
    apply pbind_inv in H4 as [(e & _ & [=])|(enc & d5 & (r5 & H5 & Er)%pmap_err_inv & H6)].
    destruct r5; [|done]. injection Er as ->. apply look_ok in H5. rewrite E3, Hf in H5. injection H5 as <-.
    apply pbind_inv in H6 as [(e & _ & [=])|(view & d6 & [= <- Hd] & H7)]. apply map_err_ok in Hd.
    apply pbind_inv in H7 as [(e & _ & [=])|(u' & d7 & [= <- Hv] & [= _ <-])]. apply map_err_ok in Hv.
    unfold view_of. by rewrite Hc, Hd, Hv.
  - done.
Qed.

Lemma published_structure t t' l lt contents ok :
  structural (t !! l) = false -> published t t' l lt contents ok -> same_structure t t'.
Proof.
  intros Hl [[Hf Hne] Hfr Ht Hlt _] l'. destruct (decide (l' = l)) as [->|H1].
  { destruct Ht as [->|E]; [done|]. rewrite E. intros [?|?]; [congruence|done]. }
  destruct (decide (l' = lt)) as [->|H2]; [|by rewrite Hfr].
  rewrite Hf. destruct Hlt as [->|[b ->]]; by intros [?|?].
Qed.

(** Publishing over the index leaves the old view or the new one. *)
Lemma publish_index v contents d d' r :
  index_at (tree d) = Some v -> publish cwd fault prefix index_path contents d = (d', r) ->
  (index_at (tree d') = Some v \/ index_at (tree d') = view_of contents) /\
  (is_ok r = true -> index_at (tree d') = view_of contents).
Proof.
  intros Hv Hp%publish_spec. destruct (index_at_file _ _ Hv) as (l & bytes & El & Hl & Hb).
  destruct Hp as [[E Hr]|(l0 & lt & El0 & Hne & HP)].
  { rewrite E. split; [by left|]. congruence. }
  assert (l0 = l) as -> by congruence.
  assert (HS : same_structure (tree d) (tree d')) by (eapply published_structure; [by rewrite Hl|exact HP]).
  assert (El' : entry cwd (tree d') index_path = Ok l) by (eapply entry_frame; [exact HS|apply index_names|exact El]).
  rewrite (index_at_entry _ _ El' Hne). destruct HP as [_ _ Ht _ Hd]. rewrite Hl in Ht. split.
  - destruct Ht as [-> | ->]; tauto.
  - intros Hr. by destruct (Hd Hr) as [-> _].
Qed.

Lemma view_of_encoded `{!YamlRoundTrip} v bytes :
  view_wf v -> view_spelled v -> encode_index v = Ok bytes ->
  is_ok (check_encoded_size (N.of_nat (length bytes))) = true -> view_of bytes = Some v.
Proof.
  intros Hw Hs He Hc. unfold view_of. destruct (check_encoded_size _); [|done].
  rewrite (index_decodes _ _ Hs He). by rewrite (proj2 (validate_view_wf v) Hw).
Qed.

Lemma write_index_spec `{!YamlRoundTrip} v next d d' r :
  index_at (tree d) = Some v -> view_wf next -> view_spelled next ->
  write_index cwd fault prefix root next d = (d', r) ->
  (index_at (tree d') = Some v \/ index_at (tree d') = Some next) /\
  (is_ok r = true -> index_at (tree d') = Some next).
Proof.
  intros Hv Hw Hs. unfold write_index. fold index_path.
  intros [(e & [= <- _] & ->)|(bytes & d1 & [= <- He%map_err_ok] & H1)]%pbind_inv; [split; [by left|done]|].
  apply pbind_inv in H1 as [(e & [= <- _] & ->)|(u & d1 & [= <- Hc%map_err_ok] & H2)]; [split; [by left|done]|].
  assert (EV : view_of bytes = Some next) by (apply view_of_encoded; [done..|by rewrite Hc]).
  destruct (index_at_file _ _ Hv) as (l & b & El & _ & _).
  apply pbind_inv in H2 as [(e & (r2 & H2 & _)%pmap_err_inv & ->)|(u' & d2 & (r2 & H2 & _)%pmap_err_inv & H3)];
    apply (ensure_there cwd fault _ _ _ _ _ _ _ index_file_path El) in H2.
  { rewrite H2. split; [by left|done]. }
  rewrite <- H2 in Hv. apply pbind_inv in H3 as [(e & (r3 & H3 & Er)%pmap_err_inv & ->)|(u'' & d3 & (r3 & H3 & Er)%pmap_err_inv & [= <- <-])];
    destruct (publish_index _ _ _ _ _ Hv H3) as [P1 P2]; rewrite EV in *; (split; [done|]); [done|].
  intros _. apply P2. by destruct r3.
Qed.

Lemma remove_index_spec v d d' r :
  index_at (tree d) = Some v -> remove_index cwd fault root d = (d', r) ->
  (index_at (tree d') = Some v \/ index_at (tree d') = None) /\ (is_ok r = true -> index_at (tree d') = None).
Proof.
  intros Hv. destruct (index_at_file _ _ Hv) as (l & b & El & Hl & _). unfold remove_index. fold index_path.
  intros (r0 & (r1 & H1 & Er)%pmap_err_inv & Ek)%then_ret_inv.
  apply pcase_inv in H1 as (r2 & d1 & H1 & H2).
  assert (E1 : tree d' = tree d1) by (destruct r2; [|case_bool_decide]; by injection H2 as <- <-).
  rewrite E1. destruct (unlink_spec _ _ _ _ _ _ H1) as [[E Hr2]|(l' & El' & Ed & -> & _)].
  - rewrite E. split; [by left|]. intros Hr. exfalso. destruct r2 as [|e]; [done|].
    assert (Hk : io_kind e = IoNotFound).
    { case_bool_decide as Hk; [done|]. injection H2 as _ <-. by rewrite <- Ek, Er in Hr. }
    apply sys_spec in H1 as [(_ & f & [= ->])|(_ & Eu)]; [by revert Hk; cbn; destruct (fault_kind f)|].
    unfold unlink in Eu. rewrite El in Eu. rewrite node_at_lookup, Hl in Eu; [done|].
    by destruct (index_entry_nonempty _ _ El) as [? ->].
  - assert (l' = l) as -> by congruence. rewrite Ed.
    assert (El2 : entry cwd (delete l (tree d)) index_path = Ok l).
    { eapply entry_frame; [|apply index_names|exact El]. apply same_structure_delete. by rewrite Hl. }
    rewrite (index_at_entry _ _ El2), lookup_delete_eq; [tauto|].
    by destruct (index_entry_nonempty _ _ El) as [? ->].
Qed.

Lemma remove_tree_after p d d' r :
  remove cwd fault p d = (d', r) -> exists d1 r1, sys fault (fun t => unlink cwd t p) d = (d1, r1) /\ tree d' = tree d1.
Proof.
  intros (r1 & d1 & H1 & H2)%pcase_inv. exists d1, r1. split; [done|].
  destruct r1; [|case_bool_decide]; by injection H2 as <- <-.
Qed.

(** Removing a metadata file other than the index does not touch the index. *)
Lemma remove_beside_index w rel file b d d' r :
  metadata_file rel file -> file <> lit "local-family.yml" ->
  lstat cwd (tree d) (path_join w rel) = Ok (NFile b) ->
  remove cwd fault (path_join w rel) d = (d', r) -> index_at (tree d') = index_at (tree d).
Proof.
  intros Hf Hne Hb (d1 & r1 & Hu%unlink_spec & E)%remove_tree_after.
  destruct (lstat_file cwd _ _ _ (metadata_names _ _ _ Hf) Hb) as (l & El & Hl & _ & _).
  destruct (metadata_entry cwd _ _ _ _ _ Hf El) as (dir & -> & _). rewrite E.
  destruct Hu as [[-> _]|(l' & El' & Ed & _)]; [done|]. assert (l' = file :: dir) as -> by congruence.
  rewrite Ed. apply index_at_frame.
  - apply same_structure_delete. cbn [node_at] in Hl. by rewrite Hl.
  - intros l (dir' & ->)%index_entry_nonempty. apply lookup_delete_ne. congruence.
Qed.

Lemma read_metadata_regular p op d d' b :
  read_metadata cwd fault p op d = (d', Ok (Some b)) -> exists b', lstat cwd (tree d) p = Ok (NFile b').
Proof.
  intros [(e & _ & [=])|(s & d1 & (r1 & H1 & Es)%pmap_err_inv & H2)]%pbind_inv.
  destruct r1 as [s'|]; [|done]. injection Es as ->. apply file_state_spec in H1. by destruct s'.
Qed.

Lemma pointer_of_regular w view d d' :
  pointer_of cwd fault w view d = (d', Ok true) ->
  exists b, lstat cwd (tree d) (path_join w POINTER_RELATIVE_PATH) = Ok (NFile b).
Proof.
  intros (r & d1 & H1 & [= _ Hr])%pcase_inv. destruct r as [[pointer|]|]; try done.
  apply pbind_inv in H1 as [(e & _ & [=])|([b|] & d2 & H1 & H2)]; [|done]. by eapply read_metadata_regular.
Qed.

Lemma marker_of_regular w view row d d' :
  marker_of cwd fault w view row d = (d', Ok true) ->
  exists b, lstat cwd (tree d) (path_join w ALLOCATION_MARKER_RELATIVE_PATH) = Ok (NFile b).
Proof.
  intros (r & d1 & H1 & [= _ Hr])%pcase_inv. destruct r as [[marker|]|]; try done.
  apply pbind_inv in H1 as [(e & _ & [=])|([b|] & d2 & H1 & H2)]; [|done]. by eapply read_metadata_regular.
Qed.

Lemma remove_pointer_spec name d d' r :
  remove_pointer cwd fault root name d = (d', r) -> index_at (tree d') = index_at (tree d).
Proof.
  unfold remove_pointer. intros [(e & [E _]%read_index_spec & _)|(current & d1 & [E1 _]%read_index_spec & H1)]%pbind_inv; [congruence|].
  apply pbind_inv in H1 as [(e & [= <- _] & _)|(view & d2 & [= <- _] & H1)]; [congruence|].
  apply pbind_inv in H1 as [(e & [= <- _] & _)|(row & d2 & [= <- _] & H1)]; [congruence|].
  rewrite <- E1. apply pcase_inv in H1 as (r1 & d2 & H2%quiet_canonicalize & H3). rewrite <- H2. clear E1 H2.
  destruct r1 as [resolved|]; [|by injection H3 as <- _].
  apply pbind_inv in H3 as [(e & H1%quiet_pointer_of & _)|(stands & d3 & H1 & H3)]; [congruence|].
  pose proof (quiet_pointer_of _ _ _ _ _ _ _ H1) as E1. rewrite <- E1.
  assert (HP : forall d4 r4, (if (stands : bool) then
      do! pmap_err (io_error RemovePointer (path_join resolved POINTER_RELATIVE_PATH))
            (remove cwd fault (path_join resolved POINTER_RELATIVE_PATH)) in
      pret [PointerRemoved (recorded_workspace root row)]
    else pret []) d3 = (d4, r4) -> index_at (tree d4) = index_at (tree d3)).
  { intros d4 r4. destruct stands; [|by intros [= <- _]].
    destruct (pointer_of_regular _ _ _ _ H1) as [b Hb]. rewrite <- E1 in Hb.
    intros (r0 & (r5 & H2 & _)%pmap_err_inv & _)%then_ret_inv.
    by eapply remove_beside_index; [apply pointer_file_path| |exact Hb|exact H2]. }
  apply pbind_inv in H3 as [(e & H3%HP & _)|(effects & d4 & H3%HP & H4)]; [done|]. rewrite <- H3.
  apply pbind_inv in H4 as [(e & H4%quiet_marker_of & _)|(marked & d5 & H4 & H5)]; [congruence|].
  pose proof (quiet_marker_of _ _ _ _ _ _ _ _ H4) as E4. rewrite <- E4. destruct marked; [|by injection H5 as <- _].
  destruct (marker_of_regular _ _ _ _ _ H4) as [b Hb]. rewrite <- E4 in Hb.
  apply then_ret_inv in H5 as (r0 & (r5 & H5 & _)%pmap_err_inv & _).
  by eapply remove_beside_index; [apply marker_file_path| |exact Hb|exact H5].
Qed.

(** What [apply] leaves of the index, and reports. *)
Definition index_changed (c : FamilyChange) (t t' : Tree) (r : result AppliedChange StoreError) : Prop :=
  (index_at t' = index_at t \/ changed_index (index_at t) c (index_at t')) /\
  forall a, r = Ok a -> changed_index (index_at t) c (index_at t') /\ ac_view a = index_at t'.

Lemma index_unchanged c t e : index_changed c t t (Err e).
Proof. split; [by left|done]. Qed.

Lemma commit_change `{!YamlRoundTrip} v c vc d d' r :
  index_at (tree d) = Some v -> change_spelled c -> validate_transition v c = Ok vc -> c <> Disband ->
  (let! effect := write_index cwd fault prefix root (vc_next vc) in
   pret (mkAppliedChange [effect] (Some (vc_next vc)))) d = (d', r) -> index_changed c (tree d) (tree d') r.
Proof.
  intros Hv Hc Hvc Hd H1. destruct (index_at_spec _ _ Hv) as [Hwf Hsp].
  destruct (accepted_step v c vc Hwf Hvc) as [_ Hst].
  pose proof (family_step_wf _ _ _ Hwf Hst) as Hwf'. pose proof (step_spelled _ _ _ Hsp Hc Hst) as Hsp'.
  assert (HC : index_at (tree d') = Some (vc_next vc) -> changed_index (index_at (tree d)) c (index_at (tree d'))).
  { rewrite Hv. intros ->. exists vc. split; [done|]. by destruct c. }
  apply pbind_inv in H1 as [(e & H1 & ->)|(effect & d1 & H1 & [= <- <-])];
    destruct (write_index_spec v _ _ _ _ Hv Hwf' Hsp' H1) as [W1 W2]; split.
  - rewrite Hv in *. destruct W1; [by left|right; by apply HC].
  - done.
  - rewrite Hv in *. destruct W1; [by left|right; by apply HC].
  - intros a [= <-]. specialize (W2 eq_refl). split; [by apply HC|done].
Qed.

Lemma commit_disband v vc d d' r :
  index_at (tree d) = Some v -> validate_transition v Disband = Ok vc ->
  (let! effect := remove_index cwd fault root in pret (mkAppliedChange [effect] None)) d = (d', r) ->
  index_changed Disband (tree d) (tree d') r.
Proof.
  intros Hv Hvc H1.
  assert (HC : index_at (tree d') = None -> changed_index (index_at (tree d)) Disband (index_at (tree d'))).
  { rewrite Hv. intros ->. by exists vc. }
  apply pbind_inv in H1 as [(e & H1 & ->)|(effect & d1 & H1 & [= <- <-])];
    destruct (remove_index_spec v _ _ _ Hv H1) as [W1 W2]; split.
  - rewrite Hv in *. destruct W1; [by left|right; by apply HC].
  - done.
  - rewrite Hv in *. destruct W1; [by left|right; by apply HC].
  - intros a [= <-]. specialize (W2 eq_refl). split; [by apply HC|done].
Qed.

Lemma apply_spec `{!YamlRoundTrip} c d d' r :
  change_spelled c -> apply cwd fault prefix root c d = (d', r) -> index_changed c (tree d) (tree d') r.
Proof.
  intros Hc. unfold apply. intros [(e & [E _]%read_index_spec & ->)|(current & d1 & [E1 Hv]%read_index_spec & H1)]%pbind_inv.
  { rewrite E. apply index_unchanged. }
  specialize (Hv _ eq_refl). rewrite <- E1 in *. destruct current as [v|].
  2: { unfold index_changed. rewrite <- Hv. destruct c; injection H1 as <- <-; rewrite <- Hv; (split; [by left|]); try done.
       by intros a [= <-]. }
  symmetry in Hv. apply pbind_inv in H1 as [(e & E%quiet_stranded & ->)|(stranded & d2 & E2%quiet_stranded & H1)].
  { rewrite E. apply index_unchanged. }
  rewrite <- E2 in *. destruct stranded as [[member workspace]|]; [injection H1 as <- <-; apply index_unchanged|].
  apply pbind_inv in H1 as [(e & [= <- _] & ->)|(vc & d3 & [= <- Hvc%map_err_ok] & H1)]; [apply index_unchanged|].
  destruct c; try (by eapply commit_change); by eapply commit_disband.
Qed.

(** ** The store keeps the session's contract *)

#[local] Instance store_session : FamilySession Disk := {|
  session_root := fun _ => root;
  session_reread := reread cwd fault root;
  session_found := found cwd fault prefix root;
  session_apply := apply cwd fault prefix root;
  session_install_pointer := install_pointer cwd fault prefix root;
  session_remove_pointer := remove_pointer cwd fault root;
|}.

#[local] Program Instance store_laws `{!YamlRoundTrip} : SessionLaws Disk := {| stored := fun d => index_at (tree d) |}.
Next Obligation. intros HR d v Hv. by apply index_at_spec in Hv as [? _]. Qed.
Next Obligation. intros HR d d' r [E Hv]%read_index_spec. rewrite E. split_and!; [done..|exact Hv]. Qed.
Next Obligation. done. Qed.
Next Obligation. intros HR c d d' a Hc [_ Ha]%apply_spec; [|done]. by apply Ha. Qed.
Next Obligation. intros HR c d d' e Hc [Hk _]%apply_spec; [|done]. exact Hk. Qed.
Next Obligation. intros HR name d d' r E%remove_pointer_spec. done. Qed.

End index.

(** ** Without faults a reading is a function of the tree *)

Section still.
Context `{Yaml} (cwd : loc).

Abbreviation no_fault := (fun _ : nat => @None Fault).

Definition file_state_at (t : Tree) (p : str) : result FileState IoError :=
  match lstat cwd t p with
  | Ok (NFile _) => Ok Regular
  | Ok _ => Ok Irregular
  | Err IoNotFound => Ok Absent
  | Err k => Err (os_error k)
  end.

Lemma file_state_still p d d' r :
  file_state cwd no_fault p d = (d', r) -> r = file_state_at (tree d) p.
Proof.
  intros (r0 & d1 & Hl & Hk)%pcase_inv. injection Hl as _ <-. unfold file_state_at.
  destruct (lstat cwd (tree d) p) as [[]|k]; cbn [map_err] in Hk; try (by injection Hk).
  case_bool_decide as E; injection Hk as _ <-; by destruct k.
Qed.

Definition metadata_at (t : Tree) (p : str) (op : StoreOperation) : result (option (list N)) StoreError :=
  let? s := map_err (io_error op p) (file_state_at t p) in
  match s with
  | Absent => Ok None
  | Irregular => Err (irregular p)
  | Regular => let? b := map_err (fun k => io_error op p (os_error k)) (read_file cwd t p) in Ok (Some b)
  end.

Lemma read_metadata_still p op d d' r :
  read_metadata cwd no_fault p op d = (d', r) -> r = metadata_at (tree d) p op.
Proof.
  unfold metadata_at. intros [(e & (r0 & H1 & Er)%pmap_err_inv & ->)|(s & d1 & (r0 & H1 & Er)%pmap_err_inv & H2)]%pbind_inv;
    pose proof (quiet_file_state _ _ _ _ _ _ H1) as E1; apply file_state_still in H1; rewrite <- H1, <- Er; [done|].
  cbn [rbind]. destruct s; [by injection H2..| |by injection H2].
  apply pbind_inv in H2 as [(e & (r1 & H2 & Er1)%pmap_err_inv & ->)|(b & d2 & (r1 & H2 & Er1)%pmap_err_inv & [= _ <-])];
    injection H2 as _ <-; rewrite <- E1; destruct (read_file cwd (tree d1) p); by simplify_eq/=.
Qed.

Definition pointer_at (t : Tree) (w : str) : result (option PointerFile) StoreError :=
  let path := path_join w POINTER_RELATIVE_PATH in
  let? o := metadata_at t path ReadPointer in
  match o with
  | None => Ok None
  | Some encoded => let? pointer := map_err (SeMalformed path) (decode_pointer encoded) in Ok (Some pointer)
  end.

Lemma read_pointer_still w d d' r : read_pointer cwd no_fault w d = (d', r) -> r = pointer_at (tree d) w.
Proof.
  unfold pointer_at. intros [(e & H1%read_metadata_still & ->)|(o & d1 & H1%read_metadata_still & H2)]%pbind_inv;
    rewrite <- H1; [done|]. cbn [rbind]. destruct o as [b|]; [|by injection H2].
  apply pbind_inv in H2 as [(e & [= _ E] & ->)|(x & d2 & [= _ E] & [= _ <-])]; by rewrite E.
Qed.

Definition marker_at (t : Tree) (w : str) : result (option MarkerFile) StoreError :=
  let path := path_join w ALLOCATION_MARKER_RELATIVE_PATH in
  let? o := metadata_at t path ReadMarker in
  match o with
  | None => Ok None
  | Some encoded => let? marker := map_err (SeMalformed path) (decode_marker encoded) in Ok (Some marker)
  end.

Lemma read_marker_still w d d' r : read_marker cwd no_fault w d = (d', r) -> r = marker_at (tree d) w.
Proof.
  unfold marker_at. intros [(e & H1%read_metadata_still & ->)|(o & d1 & H1%read_metadata_still & H2)]%pbind_inv;
    rewrite <- H1; [done|]. cbn [rbind]. destruct o as [b|]; [|by injection H2].
  apply pbind_inv in H2 as [(e & [= _ E] & ->)|(x & d2 & [= _ E] & [= _ <-])]; by rewrite E.
Qed.

End still.

(** ** A disk with a family on it *)

(** The workspace `/ws` with [demo_view] as its index, and an empty clone
    directory `/ws-B`. *)
Definition demo_tree : Tree :=
  <[ [lit "ws"] := NDir ]> (<[ [lit ".gwz"; lit "ws"] := NDir ]>
  (<[ [lit "local-family.yml"; lit ".gwz"; lit "ws"] := NFile [0%N] ]>
  (<[ [lit "ws-B"] := NDir ]> ∅))).

Definition demo_disk : Disk := mkDisk demo_tree 0 0 [].

(** ** Claims *)

(** C9: a metadata file is replaced whole or not at all.  Whichever of its
    calls fails and however many bytes a failed write got down, [publish]
    leaves at the target's entry either what was there or exactly the new
    contents, and touches no other entry that existed; when it reports
    success the tree is the old one with the target's entry set to the new
    contents, so no temporary file is left. *)
Theorem publish_atomic (cwd : loc) (fault : nat -> option Fault) (prefix : N) (target : str) (contents : list N) (d : Disk) :
  let '(d', r) := publish cwd fault prefix target contents d in
  (forall l node, tree d !! l = Some node -> entry cwd (tree d) target <> Ok l -> tree d' !! l = Some node) /\
  (forall l, entry cwd (tree d) target = Ok l ->
     tree d' !! l = tree d !! l \/ tree d' !! l = Some (NFile contents)) /\
  (is_ok r = true -> exists l, entry cwd (tree d) target = Ok l /\ tree d' = <[l := NFile contents]> (tree d)).
Proof.
  destruct (publish cwd fault prefix target contents d) as [d' r] eqn:E.
  destruct (publish_spec _ _ _ _ _ _ _ _ E) as [[-> Hr]|(l & lt & He & _ & HP)].
  { split_and!; [done|by left|congruence]. }
  split_and!.
  - intros l' node Hl' Hn. destruct HP as [[Hf _] Hfr _ _ _]. rewrite Hfr; [done|congruence|congruence].
  - intros l' Hl'. assert (l' = l) as -> by congruence. apply (pub_target _ _ _ _ _ _ HP).
  - intros Hr. exists l. split; [done|]. rewrite Hr in HP. by eapply published_exactly.
Qed.

(** C8: the store keeps the session's contract.  On any tree and under any
    faults, with [index_at] the family its index file holds: that family is
    valid; a reread changes no file and what it reports is that family; an
    applied change is one the model validates against it and leaves exactly
    the index the model computes, which is also what the change reports; a
    failed change leaves the family as it was or as the model computes it;
    removing a pointer leaves it alone. *)
Theorem store_refines_session `{Yaml} `{!YamlRoundTrip} (cwd : loc) (fault : nat -> option Fault) (prefix : N)
    (root : str) (d : Disk) (c : FamilyChange) (name : MemberName) :
  change_spelled c ->
  (forall v, index_at cwd root (tree d) = Some v -> view_wf v) /\
  (let '(d', r) := reread cwd fault root d in
   tree d' = tree d /\ forall v, r = Ok v -> v = index_at cwd root (tree d)) /\
  (let '(d', r) := apply cwd fault prefix root c d in
   (index_at cwd root (tree d') = index_at cwd root (tree d) \/
    changed_index (index_at cwd root (tree d)) c (index_at cwd root (tree d'))) /\
   forall a, r = Ok a ->
     changed_index (index_at cwd root (tree d)) c (index_at cwd root (tree d')) /\
     ac_view a = index_at cwd root (tree d')) /\
  (let '(d', _) := remove_pointer cwd fault root name d in
   index_at cwd root (tree d') = index_at cwd root (tree d)).
Proof.
  intros Hc. split_and!.
  - intros v Hv. by apply index_at_spec in Hv as [? _].
  - destruct (reread cwd fault root d) as [d' r] eqn:E. by apply read_index_spec in E.
  - destruct (apply cwd fault prefix root c d) as [d' r] eqn:E. by apply apply_spec in E.
  - destruct (remove_pointer cwd fault root name d) as [d' r] eqn:E. by apply remove_pointer_spec in E.
Qed.

Lemma store_refines_session_witness :
  let c := MarkReady (demo_name "B") (mkAllocationId (lit "b1")) in
  let run := @apply demo_yaml [] (fun _ => None) 7 (lit "/ws") c demo_disk in
  is_ok run.2 = true /\ @index_at demo_yaml [] (lit "/ws") demo_tree = Some demo_view /\
  let '(d', r) := run in
  forall a, r = Ok a ->
    changed_index (@index_at demo_yaml [] (lit "/ws") demo_tree) c (@index_at demo_yaml [] (lit "/ws") (tree d')) /\
    ac_view a = @index_at demo_yaml [] (lit "/ws") (tree d').
Proof.
  intros c run. split; [vm_compute; reflexivity|split; [vm_compute; reflexivity|]].
  pose proof (@store_refines_session demo_yaml (table_round_trip _ _ _) [] (fun _ => None) 7 (lit "/ws") demo_disk
    c (demo_name "B") I) as (_ & _ & H & _).
  fold run in H. destruct run as [d' r]. exact (proj2 H).
Defined.
