(* ===== verification/StoreLock.v ===== *)
(** The root family lock of the YAML store: whatever sessions lock, mutate,
    fail and release in whatever order, no two hold one lock file. *)

From S2P Require Export StoreProofs.

#[local] Set Default Proof Using "Type".

(** ** The lock *)

Section locks.
Context `{Yaml} (cwd : loc) (fault : nat -> option Fault).

Lemma locks_locate p : frames locked (locate_family cwd fault p).
Proof.
  unfold locate_family, index_state, read_pointer, read_metadata, read_index, encoded_size, read, file_state. quiet_tac.
Qed.

Lemma locks_ensure p : frames locked (ensure_metadata_directory cwd fault p).
Proof. unfold ensure_metadata_directory. quiet_tac. Qed.

Lemma try_acquire_spec path d d' a :
  try_acquire cwd fault path d = (d', Ok a) ->
  match a with
  | Acquired l => (l ∉ locked d) /\ locked d' = l :: locked d
  | _ => locked d' = locked d
  end.
Proof.
  intros [(e & _ & [=])|(l & d1 & E1%locks_sys & (r & d2 & H1 & H2)%pcase_inv)]%pbind_inv.
  unfold lock_file in H1. rewrite E1 in H1. destruct (fault (clock d1)) as [f|].
  - injection H1 as <- <-. case_bool_decide; [|done]. by injection H2 as <- <-.
  - case_bool_decide as Hl; injection H1 as <- <-; by injection H2 as <- <-.
Qed.

Lemma try_lock_spec location d d' s :
  try_lock cwd fault location d = (d', Ok s) -> (lfs_lock s ∉ locked d) /\ locked d' = lfs_lock s :: locked d.
Proof.
  intros [(e & _ & [=])|(o & d1 & E1%locks_locate & H1)]%pbind_inv.
  apply pbind_inv in H1 as [(e & _ & [=])|([] & d2 & (r2 & E2%locks_ensure & _)%pmap_err_inv & H1)].
  apply pbind_inv in H1 as [(e & _ & [=])|(a & d3 & (r3 & H3 & Er)%pmap_err_inv & H4)].
  destruct r3 as [a'|]; [|done]. injection Er as <-. apply try_acquire_spec in H3. rewrite E2, E1 in H3.
  destruct a; try done. by injection H4 as <- <-.
Qed.

Lemma try_lock_refused location d d' e : try_lock cwd fault location d = (d', Err e) -> locked d' = locked d.
Proof.
  intros [(e' & E1%locks_locate & _)|(o & d1 & E1%locks_locate & H1)]%pbind_inv; [done|].
  apply pbind_inv in H1 as [(e' & (r2 & E2%locks_ensure & _)%pmap_err_inv & _)|([] & d2 & (r2 & E2%locks_ensure & _)%pmap_err_inv & H1)];
    [congruence|].
  apply pbind_inv in H1 as [(e' & (r3 & H3 & Er)%pmap_err_inv & _)|(a & d3 & (r3 & H3 & Er)%pmap_err_inv & H4)].
  - destruct r3 as [|e3]; [done|]. rewrite <- E1, <- E2.
    apply pbind_inv in H3 as [(e4 & E3%locks_sys & _)|(l & d4 & E3%locks_sys & (r & d5 & H5 & H6)%pcase_inv)]; [done|].
    rewrite <- E3. unfold lock_file in H5. destruct (fault (clock d4)) as [f|].
    + injection H5 as <- <-. case_bool_decide; [done|]. by injection H6 as <- _.
    + case_bool_decide; injection H5 as <- <-; done.
  - destruct r3 as [a'|]; [|done]. injection Er as <-. apply try_acquire_spec in H3.
    destruct a; try done; injection H4 as <- _; congruence.
Qed.

(** ** The mutations keep the locks *)

Lemma locks_write_all l contents : frames locked (write_all fault l contents).
Proof. intros d d' r. unfold write_all. destruct (fault (clock d)); by intros [= <- <-]. Qed.
#[local] Hint Resolve locks_write_all locks_ensure locks_locate : quiet.

Lemma locks_create_temporary prefix target tries : frames locked (create_temporary cwd fault prefix target tries).
Proof.
  assert (HT : frames locked (temporary_path prefix target)).
  { unfold temporary_path. quiet_tac. by intros d d' r [= <- <-]. }
  induction tries as [|tries IH]; cbn [create_temporary]; quiet_tac.
Qed.
#[local] Hint Resolve locks_create_temporary : quiet.

Lemma locks_publish prefix target contents : frames locked (publish cwd fault prefix target contents).
Proof. unfold publish, write_then_rename, flush_directory, sync_all. quiet_tac. Qed.
#[local] Hint Resolve locks_publish : quiet.

Lemma locks_canonicalize p : frames locked (canonicalize cwd fault p).
Proof. unfold canonicalize, real_path. quiet_tac. Qed.
Lemma locks_read_index p : frames locked (read_index cwd fault p).
Proof. unfold read_index, encoded_size, read, file_state. quiet_tac. Qed.
Lemma locks_read_pointer p : frames locked (read_pointer cwd fault p).
Proof. unfold read_pointer, read_metadata, read, file_state. quiet_tac. Qed.
#[local] Hint Resolve locks_canonicalize locks_read_index locks_read_pointer : quiet.

Lemma locks_first_standing root view rows : frames locked (first_standing cwd fault root view rows).
Proof. induction rows as [|[name row] rows IH]; cbn [first_standing]; unfold standing_pointer, pointer_of; quiet_tac. Qed.
#[local] Hint Resolve locks_first_standing : quiet.

Lemma locks_write_index prefix root view : frames locked (write_index cwd fault prefix root view).
Proof. unfold write_index. quiet_tac. Qed.
#[local] Hint Resolve locks_write_index : quiet.

Lemma locks_apply prefix root c : frames locked (apply cwd fault prefix root c).
Proof. unfold apply, reread, stranded_by, remove_index, remove. quiet_tac. Qed.

Lemma locks_found prefix root f a : frames locked (found cwd fault prefix root f a).
Proof. unfold found, reread, pointer_state, file_state. quiet_tac. Qed.

Lemma locks_install prefix root name dest : frames locked (install_pointer cwd fault prefix root name dest).
Proof.
  unfold install_pointer, reread, index_state, read_destination_pointer, pointer_bytes, file_state. quiet_tac.
Qed.

Lemma locks_remove_pointer root name : frames locked (remove_pointer cwd fault root name).
Proof.
  unfold remove_pointer, reread, pointer_of, marker_of, read_marker, read_metadata, read, remove, file_state. quiet_tac.
Qed.

End locks.

(** ** Sessions over one disk *)

(** What the holder of a session may call. *)
Inductive SessionCall : Type :=
| CallReread
| CallFound (family : FamilyId) (allocation : AllocationId)
| CallApply (change : FamilyChange)
| CallInstall (name : MemberName) (destination : str)
| CallRemovePointer (name : MemberName).

Section system.
Context `{Yaml} (cwd : loc) (prefix : N).

Definition run_call (fault : nat -> option Fault) (root : str) (call : SessionCall) (d : Disk) : Disk :=
  match call with
  | CallReread => (reread cwd fault root d).1
  | CallFound family allocation => (found cwd fault prefix root family allocation d).1
  | CallApply change => (apply cwd fault prefix root change d).1
  | CallInstall name destination => (install_pointer cwd fault prefix root name destination d).1
  | CallRemovePointer name => (remove_pointer cwd fault root name d).1
  end.

(** The disk and the sessions held on it. *)
Record Holders : Type := mkHolders { on_disk : Disk; held : list LockedFamilySession }.

Inductive holder_step : Holders -> Holders -> Prop :=
| step_locked fault location d d' s hs :
    try_lock cwd fault location d = (d', Ok s) -> holder_step (mkHolders d hs) (mkHolders d' (s :: hs))
| step_refused fault location d d' e hs :
    try_lock cwd fault location d = (d', Err e) -> holder_step (mkHolders d hs) (mkHolders d' hs)
| step_call fault call d s hs :
    s ∈ hs -> holder_step (mkHolders d hs) (mkHolders (run_call fault (lfs_root s) call d) hs)
| step_release d s hs1 hs2 :
    holder_step (mkHolders d (hs1 ++ s :: hs2)) (mkHolders (release s d) (hs1 ++ hs2)).

Definition fresh_disk (st : Holders) : Prop := locked (on_disk st) = [] /\ held st = [].

Definition locks_agree (st : Holders) : Prop :=
  locked (on_disk st) ≡ₚ lfs_lock <$> held st /\ NoDup (lfs_lock <$> held st).

Lemma locks_run_call fault root call d : locked (run_call fault root call d) = locked d.
Proof.
  destruct call; cbn [run_call].
  - destruct (reread cwd fault root d) as [d' r] eqn:E. by apply locks_read_index in E.
  - destruct (found cwd fault prefix root family allocation d) as [d' r] eqn:E. by apply locks_found in E.
  - destruct (apply cwd fault prefix root change d) as [d' r] eqn:E. by apply locks_apply in E.
  - destruct (install_pointer cwd fault prefix root name destination d) as [d' r] eqn:E. by apply locks_install in E.
  - destruct (remove_pointer cwd fault root name d) as [d' r] eqn:E. by apply locks_remove_pointer in E.
Qed.

Lemma filter_absent (l : loc) (xs : list loc) : l ∉ xs -> filter (fun x => x <> l) xs = xs.
Proof.
  induction xs as [|x xs IH]; [done|]. intros [Hx Hl]%not_elem_of_cons. rewrite filter_cons_True by congruence. by rewrite IH.
Qed.

Lemma agree_step st st' : holder_step st st' -> locks_agree st -> locks_agree st'.
Proof.
  unfold locks_agree. intros [fault location d d' s hs E|fault location d d' e hs E|fault call d s hs Hs|d s hs1 hs2] [HP HN];
    cbn [on_disk held] in *.
  - destruct (try_lock_spec _ _ _ _ _ _ E) as [Hn ->]. rewrite fmap_cons. split; [by rewrite HP|].
    constructor; [|done]. by rewrite <- HP.
  - by rewrite (try_lock_refused _ _ _ _ _ _ E).
  - by rewrite locks_run_call.
  - rewrite fmap_app, fmap_cons in HP, HN. cbn [release locked]. rewrite fmap_app.
    rewrite <- Permutation_middle in HP. assert (HN' : NoDup (lfs_lock s :: (lfs_lock <$> hs1) ++ (lfs_lock <$> hs2))).
    { by rewrite Permutation_middle. }
    apply NoDup_cons in HN' as [Hl HN']. split; [|done].
    rewrite HP, filter_cons_False by tauto. by rewrite filter_absent.
Qed.

Lemma agree_reachable st st' : fresh_disk st -> rtc holder_step st st' -> locks_agree st'.
Proof.
  intros [Hl Hh] Hr. assert (HA : locks_agree st) by (unfold locks_agree; rewrite Hl, Hh; split; [done|constructor]).
  clear Hl Hh. induction Hr as [|st1 st2 st3 Hs _ IH]; [done|]. by apply IH, (agree_step st1).
Qed.

End system.

(** ** Claims *)

(** C10: the family lock is exclusive.  From a disk on which nothing is locked,
    through any sequence of lock attempts (granted, busy, or failed at any
    call), calls of the sessions held and releases, no two sessions held at
    one time hold the same lock file, and the locks held on the disk are
    exactly those of the sessions; so a lock attempt on a held lock file is
    never granted. *)
Theorem family_lock_exclusive `{Yaml} (cwd : loc) (prefix : N) (st st' : Holders) :
  fresh_disk st -> rtc (holder_step cwd prefix) st st' ->
  NoDup (lfs_lock <$> held st') /\ (locked (on_disk st') ≡ₚ lfs_lock <$> held st') /\
  forall fault location d s, try_lock cwd fault location (on_disk st') = (d, Ok s) -> lfs_lock s ∉ lfs_lock <$> held st'.
Proof.
  intros Hf Hr. destruct (agree_reachable _ _ _ _ Hf Hr) as [HP HN]. split_and!; [done..|].
  intros fault location d s [Hs _]%try_lock_spec. by rewrite <- HP.
Qed.

Lemma family_lock_exclusive_witness :
  let location := mkFamilyLocation (lit "/ws") in
  exists s, (@try_lock demo_yaml [] (fun _ => None) location demo_disk).2 = Ok s /\
    (@try_lock demo_yaml [] (fun _ => None) location (@try_lock demo_yaml [] (fun _ => None) location demo_disk).1).2 =
      Err (SeBusy (lit "/ws/.gwz/local-family.lock")) /\ NoDup (lfs_lock <$> [s]).
Proof.
  intros location. set (run := @try_lock demo_yaml [] (fun _ => None) location demo_disk).
  set (s := mkLockedFamilySession (lit "/ws") [lit "local-family.lock"; lit ".gwz"; lit "ws"]).
  assert (E : run.2 = Ok s) by (vm_compute; reflexivity).
  exists s. split; [exact E|split; [vm_compute; reflexivity|]].
  refine (proj1 (@family_lock_exclusive demo_yaml [] 7 (mkHolders demo_disk []) (mkHolders run.1 [s]) _ _)).
  - split; reflexivity.
  - eapply rtc_l; [|apply rtc_refl]. eapply step_locked. rewrite <- E. apply surjective_pairing.
Defined.
