(* ===== verification/StorePointers.v ===== *)
(** A clone's pointer and allocation marker over their life: what
    [install_pointer] leaves is what [observe_member_target] reads as
    matching, and what [remove_pointer] leaves no longer protects the row. *)

From S2P Require Export StoreProofs.

#[local] Set Default Proof Using "Type".

Implicit Types (t : Tree) (l : loc) (d : Disk).

Section pointers.
Context `{Yaml} (cwd : loc) (prefix : N) (root : str).

Abbreviation no_fault := (fun _ : nat => @None Fault).

(** ** Removal *)

Lemma metadata_at_grown t t' p op b :
  t' ⊆ t -> names_entry p -> metadata_at cwd t' p op = Ok (Some b) ->
  metadata_at cwd t p op = Ok (Some b) /\ exists l, entry cwd t' p = Ok l /\ node_at t' l = Some (NFile b).
Proof.
  intros Hsub Hn (s & Hs%map_err_ok & Hm)%rbind_ok. unfold file_state_at in Hs.
  destruct (lstat cwd t' p) as [[|b'| |]|[]] eqn:El; simplify_eq/=.
  destruct (lstat_file cwd _ _ _ Hn El) as (l & He & Hl & _ & Hf). rewrite Hf in Hm. injection Hm as ->.
  split; [|by exists l].
  assert (HG : grows t' t) by by apply grows_subseteq.
  assert (Hl' : node_at t l = Some (NFile b)) by (destruct l; [done|]; by eapply lookup_weaken).
  assert (El' : lstat cwd t p = Ok (NFile b)).
  { unfold lstat. rewrite (entry_grows _ _ _ _ _ HG Hn He). cbn [rbind]. by rewrite Hl'. }
  unfold metadata_at, file_state_at. rewrite El'. cbn [map_err rbind].
  by destruct (lstat_file cwd _ _ _ Hn El') as (_ & _ & _ & _ & ->).
Qed.

Lemma unlink_sub p d d' r : sys no_fault (fun t => unlink cwd t p) d = (d', r) -> tree d' ⊆ tree d.
Proof. intros [[-> _]|(l & _ & -> & _)]%unlink_spec; [done|apply delete_subseteq]. Qed.

Lemma remove_sub p d d' r : remove cwd no_fault p d = (d', r) -> tree d' ⊆ tree d.
Proof. intros (d1 & r1 & Hu%unlink_sub & ->)%remove_tree_after. done. Qed.

Lemma remove_file p b d d' r :
  names_entry p -> lstat cwd (tree d) p = Ok (NFile b) -> remove cwd no_fault p d = (d', r) ->
  exists l, entry cwd (tree d) p = Ok l /\ tree d' = delete l (tree d).
Proof.
  intros Hn Hb (d1 & r1 & Hu & ->)%remove_tree_after.
  destruct (lstat_file cwd _ _ _ Hn Hb) as (l & He & Hl & _). exists l. split; [done|].
  unfold sys in Hu. unfold unlink in Hu. rewrite He, Hl in Hu. by injection Hu as <- _.
Qed.

Definition stands_at (t : Tree) (view : FamilyView) (w : str) : bool :=
  match pointer_at cwd t w with Ok (Some pointer) => names_family view pointer | _ => false end.

Lemma pointer_of_still w view d d' r :
  pointer_of cwd no_fault w view d = (d', r) -> r = Ok (stands_at (tree d) view w).
Proof. intros (r0 & d1 & H1%read_pointer_still & [= _ <-])%pcase_inv. unfold stands_at. by rewrite <- H1. Qed.

Lemma stands_grown t t' view w : t' ⊆ t -> stands_at t' view w = true ->
  stands_at t view w = true /\ exists l b, entry cwd t' (path_join w POINTER_RELATIVE_PATH) = Ok l /\ node_at t' l = Some (NFile b).
Proof.
  intros Hsub. unfold stands_at, pointer_at.
  destruct (metadata_at cwd t' _ _) as [[b|]|] eqn:Em; try done.
  destruct (metadata_at_grown _ _ _ _ _ Hsub (metadata_names _ _ _ pointer_file_path) Em) as [-> (l & He & Hl)].
  intros Hs. split; [exact Hs|eauto].
Qed.

Lemma look_still {A} (act : Tree -> result A IoKind) d d' r :
  look no_fault act d = (d', r) -> r = map_err os_error (act (tree d)).
Proof. by intros [= _ <-]. Qed.

Lemma canonicalize_still p d d' r :
  canonicalize cwd no_fault p d = (d', r) ->
  match canonical cwd (tree d) p with
  | Ok l => r = Ok (path_text (rooted l))
  | Err k => r = Err (os_error k)
  end.
Proof.
  intros [(e & H1 & ->)|(l & d1 & H1 & [= _ <-])]%pbind_inv; injection H1 as _ H1;
    destruct (canonical cwd (tree d) p); by simplify_eq/=.
Qed.

(** The two removals, after the workspace is resolved. *)
Lemma remove_pointer_steps resolved view row w d d' a :
  (let! stands := pointer_of cwd no_fault resolved view in
   let! effects :=
     (if (stands : bool) then
        let path := path_join resolved POINTER_RELATIVE_PATH in
        do! pmap_err (io_error RemovePointer path) (remove cwd no_fault path) in
        pret [PointerRemoved w]
      else pret []) in
   let! marked := marker_of cwd no_fault resolved view row in
   if (marked : bool) then
     let path := path_join resolved ALLOCATION_MARKER_RELATIVE_PATH in
     do! pmap_err (partial_or_io RemoveMarker effects path) (remove cwd no_fault path) in
     pret (mkAppliedChange (effects ++ [MarkerRemoved w]) (Some view))
   else pret (mkAppliedChange effects (Some view))) d = (d', Ok a) ->
  tree d' ⊆ tree d /\ ac_view a = Some view /\ stands_at (tree d') view resolved = false.
Proof.
  intros [(e & _ & [=])|(stands & d1 & H1 & H2)]%pbind_inv.
  pose proof (quiet_pointer_of _ _ _ _ _ _ _ H1) as E1. pose proof (pointer_of_still _ _ _ _ _ H1) as [= Es].
  apply pbind_inv in H2 as [(e & _ & [=])|(effects & d2 & H2 & H3)].
  assert (H2' : tree d2 ⊆ tree d /\ (stands = true -> exists l,
    entry cwd (tree d) (path_join resolved POINTER_RELATIVE_PATH) = Ok l /\ tree d2 = delete l (tree d))).
  { destruct stands; [|injection H2 as <- _; by rewrite E1].
    apply then_ret_inv in H2 as (r0 & (r1 & H2 & _)%pmap_err_inv & _). split.
    - rewrite <- E1. by eapply remove_sub.
    - intros _. destruct (pointer_of_regular _ _ _ _ _ _ H1) as [b Hb]. rewrite <- E1 in Hb |- *.
      by eapply remove_file; [eapply metadata_names, pointer_file_path|exact Hb|exact H2]. }
  destruct H2' as [S2 D2]. apply pbind_inv in H3 as [(e & _ & [=])|(marked & d3 & H3%quiet_marker_of & H4)].
  assert (S4 : tree d' ⊆ tree d2 /\ ac_view a = Some view).
  { destruct marked.
    - apply pbind_inv in H4 as [(e & _ & [=])|(x & d4 & (r1 & H4 & _)%pmap_err_inv & [= <- <-])].
      rewrite <- H3. split; [by eapply remove_sub|done].
    - injection H4 as <- <-. by rewrite H3. }
  destruct S4 as [S4 Ha]. assert (S : tree d' ⊆ tree d) by by etrans. split_and!; [done..|].
  apply not_true_is_false. intros Hs. destruct (stands_grown _ _ _ _ S Hs) as [Hs' (l & b & He & Hl)].
  rewrite Es in D2. destruct (D2 Hs') as (l' & He' & Ed).
  assert (l' = l) as ->.
  { apply (entry_grows cwd _ (tree d)) in He; [congruence|by apply grows_subseteq|].
    eapply metadata_names, pointer_file_path. }
  destruct (metadata_entry cwd _ _ _ _ _ pointer_file_path He) as (dir & -> & _). cbn [node_at] in Hl.
  apply (lookup_weaken _ _ _ _ Hl) in S4. rewrite Ed, lookup_delete_eq in S4. done.
Qed.

(** What a successful removal leaves of the row's pointer. *)
Lemma remove_pointer_clears name d d' a :
  remove_pointer cwd no_fault root name d = (d', Ok a) ->
  exists view row, ac_view a = Some view /\ index_at cwd root (tree d) = Some view /\
    bt_get (view_members view) name = Some row /\
    forall l, canonical cwd (tree d') (recorded_workspace root row) = Ok l ->
      stands_at (tree d') view (path_text (rooted l)) = false.
Proof.
  unfold remove_pointer. intros [(e & _ & [=])|(current & d1 & [E1 Hv]%read_index_spec & H1)]%pbind_inv.
  specialize (Hv _ eq_refl). apply pbind_inv in H1 as [(e & _ & [=])|(view & d2 & [= <- Hc] & H1)].
  apply ok_or_ok in Hc as ->.
  apply pbind_inv in H1 as [(e & _ & [=])|(row & d2 & [= <- Hrow] & H1)].
  unfold session_row in Hrow. destruct (bt_get (view_members view) name) as [row'|] eqn:Eg; [|done]. injection Hrow as ->.
  apply pcase_inv in H1 as (r1 & d2 & Hc & H1). pose proof (quiet_canonicalize _ _ _ _ _ _ Hc) as E2.
  apply canonicalize_still in Hc. exists view, row. rewrite <- E2 in Hc.
  destruct r1 as [resolved|e].
  - apply remove_pointer_steps in H1 as (Hsub & Ha & Hst). split_and!; [done..|]. intros l Hl.
    apply (canonical_grows _ _ (tree d2)) in Hl; [|by apply grows_subseteq]. rewrite Hl in Hc. by injection Hc as ->.
  - injection H1 as <- <-. split_and!; [done..|]. intros l Hl. by rewrite Hl in Hc.
Qed.

Lemma standing_still view row d d' r :
  standing_pointer cwd no_fault root view row d = (d', r) ->
  r = Ok (match canonical cwd (tree d) (recorded_workspace root row) with
          | Ok l => if stands_at (tree d) view (path_text (rooted l)) then Some (recorded_workspace root row) else None
          | Err _ => None
          end).
Proof.
  intros (r1 & d1 & Hc & H1)%pcase_inv. pose proof (quiet_canonicalize _ _ _ _ _ _ Hc) as E.
  apply canonicalize_still in Hc. destruct (canonical cwd (tree d) _) as [l|]; subst r1.
  - rewrite <- E. apply pbind_inv in H1 as [(e & H1%pointer_of_still & _)|(s & d2 & H1%pointer_of_still & [= _ <-])]; [done|].
    by injection H1 as ->.
  - by injection H1.
Qed.

(** ** Which errors a procedure reports *)

Definition still_installed (e : StoreError) : bool := match e with SePointerStillInstalled _ _ => true | _ => false end.

Lemma read_index_reports fault : reports (fun e => still_installed e = false) (read_index cwd fault root).
Proof. unfold read_index. reports_tac. Qed.
Lemma write_index_reports fault view : reports (fun e => still_installed e = false) (write_index cwd fault prefix root view).
Proof. unfold write_index. cbv zeta. reports_tac. Qed.

(** The removal of the row is then not refused for its pointer. *)
Lemma removed_row_unprotected name reason d d' d'' a e :
  remove_pointer cwd no_fault root name d = (d', Ok a) ->
  apply cwd no_fault prefix root (RemoveRow name reason) d' = (d'', Err e) -> still_installed e = false.
Proof.
  intros Hr Ha. pose proof (remove_pointer_spec _ _ _ _ _ _ _ Hr) as Ei.
  destruct (remove_pointer_clears _ _ _ _ Hr) as (view & row & _ & Hv & Hg & Hc). rewrite Hv in Ei.
  unfold apply in Ha. apply pbind_inv in Ha as [(e' & H1%read_index_reports & [= ->])|(current & d1 & [E1 Hx]%read_index_spec & H1)]; [done|].
  specialize (Hx _ eq_refl). rewrite Ei in Hx. subst current.
  apply pbind_inv in H1 as [(e' & Hs & [= <-])|(stranded & d2 & Hs & H2)];
    cbn [stranded_by] in Hs; rewrite Hg in Hs; cbn [first_standing] in Hs.
  - apply pbind_inv in Hs as [(e' & Hs%standing_still & _)|([w|] & d2 & _ & [=])]. done.
  - assert (stranded = None) as ->.
    { apply pbind_inv in Hs as [(e' & _ & [=])|(o & d3 & Hs%standing_still & Ho)]. rewrite E1 in Hs.
      destruct (canonical cwd (tree d') _) as [l|] eqn:El.
      - rewrite (Hc l eq_refl) in Hs. injection Hs as ->. by injection Ho.
      - injection Hs as ->. by injection Ho. }
    eapply (reports_bind (fun e => still_installed e = false)); [| |exact H2].
    + by apply reports_lift.
    + intros vc. apply reports_bind; [apply write_index_reports|intros ?; apply reports_ret].
Qed.

(** ** Installation *)

Lemma publish_done fault target contents d d' :
  publish cwd fault prefix target contents d = (d', Ok tt) ->
  exists l, entry cwd (tree d) target = Ok l /\ tree d' = <[l := NFile contents]> (tree d).
Proof.
  intros [[_ [=]]|(l & lt & He & _ & HP)]%publish_spec. exists l. split; [done|]. by eapply published_exactly.
Qed.

Lemma ensure_spec fault w d d' :
  ensure_metadata_directory cwd fault w d = (d', Ok tt) ->
  exists l, entry cwd (tree d) w = Ok l /\
    (node_at (tree d) l = None /\ tree d' = <[l := NDir]> (tree d) \/
     node_at (tree d) l = Some NDir /\ tree d' = tree d).
Proof.
  intros (r0 & d1 & Hs%create_spec & Hk)%pcase_inv. destruct r0 as [l|e].
  - destruct Hs as (Ht & Hn & He). injection Hk as <-. exists l. tauto.
  - case_bool_decide; [|done]. apply pbind_inv in Hk as [(e' & _ & [=])|(node & d2 & Hl & Hn)].
    pose proof (look_tree _ _ _ _ _ Hl) as E. apply look_ok in Hl. apply rbind_ok in Hl as (l & He & Hl).
    rewrite Hs in He, Hl. exists l. split; [done|right].
    destruct (node_at (tree d) l) as [node'|]; [|done]. injection Hl as ->. destruct node; try done.
    injection Hn as <-. split; [done|congruence].
Qed.

(** A workspace whose metadata directory is a real one. *)
Record workspace_at (t : Tree) (l : loc) : Prop := {
  wa_solid : solid t l;
  wa_dir : node_at t l = Some NDir;
  wa_metadata : t !! (GWZ :: l) = Some NDir;
  wa_plain : Forall plain_name l;
}.

Lemma entry_destination t dest l rel file :
  workspace_at t l -> canonical cwd t dest = Ok l -> metadata_file rel file ->
  entry cwd t (path_join dest rel) = Ok (file :: GWZ :: l).
Proof.
  intros [_ Hd Hm _] Hc [Hr Hp]. unfold canonical in Hc. case_bool_decide as Hne; [done|].
  unfold entry. rewrite (metadata_components dest file rel Hr Hp).
  change [Normal GWZ; Normal file] with ([Normal GWZ] ++ [Normal file]). rewrite app_assoc, last_snoc, removelast_snoc.
  assert (ES : start cwd (path_join dest rel) = start cwd dest).
  { unfold start. rewrite !absolute_components, (metadata_components dest file rel Hr Hp).
    destruct (path_components dest) as [|c cs]; [|done]. done. }
  rewrite ES, (walk_snoc _ _ _ _ l GWZ NDir) by done. cbn [rbind node_at]. by rewrite Hm.
Qed.

Lemma canonical_text t l node : Forall plain_name l -> solid t l -> node_at t l = Some node ->
  (forall target, node <> NLink target) -> canonical cwd t (path_text (rooted l)) = Ok l.
Proof.
  intros Hp Hs Hn Hl. unfold canonical. rewrite bool_decide_false by done. rewrite rooted_text by done.
  by eapply walk_rooted.
Qed.

Lemma entry_resolved t l rel file :
  workspace_at t l -> metadata_file rel file ->
  entry cwd t (path_join (path_text (rooted l)) rel) = Ok (file :: GWZ :: l).
Proof.
  intros HW Hf. apply entry_destination; [done| |done]. destruct HW as [Hs Hd _ Hp]. by eapply canonical_text.
Qed.

Lemma lstat_resolved t l : workspace_at t l -> lstat cwd t (path_text (rooted l)) = Ok NDir.
Proof.
  intros [Hs Hd _ Hp]. unfold lstat, entry. rewrite rooted_text by done. destruct l as [|n l].
  - done.
  - rewrite rooted_cons, last_snoc, removelast_snoc. destruct Hs as [Hd' Hs].
    assert (Hw : forall cur, walk MAX_LINKS t cur (rooted l) = Ok l) by (intros cur; by eapply walk_rooted).
    rewrite Hw. cbn [rbind]. rewrite Hd'. cbn [rbind]. by rewrite Hd.
Qed.

(** Nothing but a metadata file is at the path. *)
Definition vacant_or_file (t : Tree) (p : str) : Prop :=
  lstat cwd t p = Err IoNotFound \/ exists b, lstat cwd t p = Ok (NFile b).

Definition leaf (o : option Node) : Prop := o = None \/ exists b, o = Some (NFile b).

(** The metadata directory of a resolved destination, made or found. *)
Lemma ensure_workspace fault dest l d d' :
  tree_wf (tree d) -> solid (tree d) l -> Forall plain_name l -> canonical cwd (tree d) dest = Ok l ->
  ensure_metadata_directory cwd fault (metadata_directory dest) d = (d', Ok tt) ->
  workspace_at (tree d') l /\ tree d ⊆ tree d' /\
  (tree d' = tree d \/ (tree d !! (GWZ :: l) = None /\ tree d' = <[GWZ :: l := NDir]> (tree d))).
Proof.
  intros Hwf Hs Hp Hc (lg & He & Ht)%ensure_spec. unfold canonical in Hc. case_bool_decide as Hne; [done|].
  assert (ES : start cwd (metadata_directory dest) = start cwd dest).
  { unfold start. rewrite !absolute_components, metadata_directory_components. by destruct (path_components dest). }
  unfold entry in He. rewrite metadata_directory_components, last_snoc, removelast_snoc, ES, Hc in He. cbn [rbind] in He.
  destruct (node_at (tree d) l) as [[]|] eqn:El; try done. injection He as <-. cbn [node_at] in Ht.
  destruct Ht as [[Hn E]|[Hn E]]; rewrite E; [|by split_and!; [split|done|left]].
  assert (Hsub : tree d ⊆ <[GWZ :: l := NDir]> (tree d)) by by apply insert_subseteq.
  split_and!; [|done|by right]. split.
  - by eapply solid_grows; [apply grows_subseteq|].
  - by eapply node_at_grows; [apply grows_subseteq|].
  - by rewrite lookup_insert_eq.
  - done.
Qed.

Lemma grows_insert_leaf t l b : leaf (t !! l) -> grows t (<[l := NFile b]> t).
Proof.
  intros HL l' node Hl'. destruct (decide (l' = l)) as [->|Hne].
  - exists (NFile b). rewrite lookup_insert_eq. split; [done|]. destruct HL as [E|[b' E]]; rewrite E in Hl'; by simplify_eq.
  - exists node. rewrite lookup_insert_ne by done. split; [done|apply same_kind_refl].
Qed.

Lemma workspace_grows t t' l : grows t t' -> workspace_at t l -> workspace_at t' l.
Proof.
  intros HG [Hs Hd Hm Hp]. split; [by eapply solid_grows|by eapply node_at_grows| |done].
  by apply (node_at_grows t t' (GWZ :: l)).
Qed.

(** What is at a metadata path before the directory is ensured is what is in
    the directory after. *)
Lemma metadata_leaf t t1 dest l rel file :
  tree_wf t -> workspace_at t1 l -> canonical cwd t1 dest = Ok l ->
  (t1 = t \/ (t !! (GWZ :: l) = None /\ t1 = <[GWZ :: l := NDir]> t)) ->
  metadata_file rel file -> vacant_or_file t (path_join dest rel) ->
  leaf (t1 !! (file :: GWZ :: l)) /\ (lstat cwd t (path_join dest rel) = Err IoNotFound -> t1 !! (file :: GWZ :: l) = None).
Proof.
  intros Hwf HW Hc Ht Hf Hv. destruct Ht as [->|[Hn ->]].
  - pose proof (entry_destination _ _ _ _ _ HW Hc Hf) as He. unfold vacant_or_file, lstat in *. rewrite He in *.
    cbn [rbind node_at] in *. destruct (t !! (file :: GWZ :: l)) as [node|] eqn:En.
    + split; [|done]. destruct Hv as [?|[b [= ->]]]; [done|]. right. eauto.
    + split; [by left|done].
  - assert (En : <[GWZ :: l := NDir]> t !! (file :: GWZ :: l) = None).
    { rewrite lookup_insert_ne by (intros E; apply (f_equal length) in E; cbn [length] in E; lia).
      destruct (t !! (file :: GWZ :: l)) eqn:E; [|done].
      specialize (Hwf file (GWZ :: l) (ex_intro _ _ E)). cbn [node_at] in Hwf. congruence. }
    split; [by left|done].
Qed.

(** The writes of an installation, after its checks. *)
Lemma install_writes dest l view row marker_path pointer_path d d' a :
  marker_path = path_join dest ALLOCATION_MARKER_RELATIVE_PATH ->
  pointer_path = path_join dest POINTER_RELATIVE_PATH ->
  tree_wf (tree d) -> solid (tree d) l -> Forall plain_name l -> canonical cwd (tree d) dest = Ok l ->
  vacant_or_file (tree d) marker_path -> vacant_or_file (tree d) pointer_path ->
  lstat cwd (tree d) (path_join dest INDEX_RELATIVE_PATH) = Err IoNotFound ->
  (do! pmap_err (io_error WriteMarker (metadata_directory dest))
         (ensure_metadata_directory cwd no_fault (metadata_directory dest)) in
   let! marker := plift (map_err (encoding_error WriteMarker marker_path)
     (encode_marker (view_family_id view) (row_allocation row))) in
   do! pmap_err (io_error WriteMarker marker_path) (publish cwd no_fault prefix marker_path marker) in
   let! pointer := pointer_bytes cwd no_fault root (view_family_id view) pointer_path in
   do! pmap_err (fun e => SePartial WritePointer [MarkerWritten dest] pointer_path (io_text e))
         (publish cwd no_fault prefix pointer_path pointer) in
   pret (mkAppliedChange ([MarkerWritten dest] ++ [PointerWritten dest]) (Some view))) d = (d', Ok a) ->
  exists t2 marker pointer rt,
    ac_view a = Some view /\ grows (tree d) t2 /\ grows t2 (tree d') /\ workspace_at (tree d') l /\
    encode_marker (view_family_id view) (row_allocation row) = Ok marker /\
    encode_pointer (view_family_id view) rt = Ok pointer /\
    rt = match canonical cwd t2 root with Ok lr => path_text (rooted lr) | Err _ => root end /\
    tree d' !! (lit "local-clone-allocation" :: GWZ :: l) = Some (NFile marker) /\
    tree d' !! (lit "family-root" :: GWZ :: l) = Some (NFile pointer) /\
    tree d' !! (lit "local-family.yml" :: GWZ :: l) = None.
Proof.
  intros Em Ep Hwf Hs Hp Hc Vm Vp Vi.
  intros [(e & _ & [=])|([] & d1 & (r1 & H1 & Er)%pmap_err_inv & H2)]%pbind_inv.
  destruct r1 as [[]|]; [|done]. clear Er. apply (ensure_workspace _ _ l) in H1 as (W1 & S1 & T1); [|done..].
  assert (G1 : grows (tree d) (tree d1)) by by apply grows_subseteq.
  assert (C1 : canonical cwd (tree d1) dest = Ok l) by by eapply canonical_grows.
  destruct (metadata_leaf _ _ dest l _ _ Hwf W1 C1 T1 marker_file_path ltac:(by rewrite <- Em)) as [Lm _].
  destruct (metadata_leaf _ _ dest l _ _ Hwf W1 C1 T1 pointer_file_path ltac:(by rewrite <- Ep)) as [Lp _].
  destruct (metadata_leaf _ _ dest l _ _ Hwf W1 C1 T1 index_file_path (or_introl Vi)) as [_ Li]. specialize (Li Vi).
  clear T1 Vm Vp Vi. set (lm := lit "local-clone-allocation" :: GWZ :: l) in *.
  set (lp := lit "family-root" :: GWZ :: l) in *. set (li := lit "local-family.yml" :: GWZ :: l) in *.
  assert (N1 : lp <> lm) by (intros [=]). assert (N2 : li <> lm) by (intros [=]). assert (N3 : li <> lp) by (intros [=]).
  apply pbind_inv in H2 as [(e & _ & [=])|(marker & d2 & [= <- Hm%map_err_ok] & H2)].
  apply pbind_inv in H2 as [(e & _ & [=])|([] & d2 & (r2 & H2 & Er)%pmap_err_inv & H3)].
  destruct r2 as [[]|]; [|done]. clear Er. apply publish_done in H2 as (l2 & E2 & T2).
  rewrite Em, (entry_destination _ _ _ _ _ W1 C1 marker_file_path) in E2. injection E2 as <-. fold lm in T2.
  assert (G2 : grows (tree d1) (tree d2)) by (rewrite T2; by apply grows_insert_leaf).
  pose proof (workspace_grows _ _ _ G2 W1) as W2. pose proof (canonical_grows _ _ _ _ _ G2 C1) as C2.
  apply pbind_inv in H3 as [(e & _ & [=])|(pointer & d3 & H3 & H4)].
  apply pbind_inv in H3 as [(e & _ & [=])|(rt & d4 & H3 & [= <- Hptr%map_err_ok])].
  apply pcase_inv in H3 as (r3 & d5 & H3 & [= <- <-]). pose proof (quiet_canonicalize _ _ _ _ _ _ H3) as E3.
  apply canonicalize_still in H3.
  apply pbind_inv in H4 as [(e & _ & [=])|([] & d6 & (r4 & H4 & Er)%pmap_err_inv & [= <- <-])].
  destruct r4 as [[]|]; [|done]. clear Er. apply publish_done in H4 as (l4 & E4 & T4).
  rewrite E3 in E4, T4. rewrite Ep, (entry_destination _ _ _ _ _ W2 C2 pointer_file_path) in E4.
  injection E4 as <-. fold lp in T4.
  assert (G4 : grows (tree d2) (tree d6)).
  { rewrite T4. apply grows_insert_leaf. rewrite T2, lookup_insert_ne by done. done. }
  exists (tree d2), marker, pointer, (match r3 with Ok r => r | Err _ => root end). split_and!; try done.
  - by eapply tree_grows_trans.
  - by eapply workspace_grows.
  - by destruct (canonical cwd (tree d2) root); subst r3.
  - rewrite T4, lookup_insert_ne, T2 by done. apply lookup_insert_eq.
  - rewrite T4. apply lookup_insert_eq.
  - by rewrite T4, lookup_insert_ne, T2, lookup_insert_ne.
Qed.

(** The process's directory is a real one. *)
Record standing (t : Tree) : Prop := {
  sg_wf : tree_wf t;
  sg_dir : node_at t cwd = Some NDir;
  sg_solid : solid t cwd;
  sg_plain : Forall plain_name cwd;
}.

Lemma canonical_real t p l : standing t -> canonical cwd t p = Ok l -> solid t l /\ Forall plain_name l.
Proof.
  intros [_ Hd Hs Hp]. unfold canonical. case_bool_decide; [done|]. intros Hw. split.
  - eapply walk_solid; [| |exact Hw]; unfold start; by destruct (is_absolute p).
  - eapply walk_plain; [|apply components_plain|exact Hw]. unfold start. by destruct (is_absolute p).
Qed.

Lemma root_canonical t v : index_at cwd root t = Some v -> root <> [] -> exists l, canonical cwd t root = Ok l.
Proof.
  intros (l & b & He & _)%index_at_file Hne. unfold canonical. rewrite bool_decide_false by done.
  destruct (metadata_entry cwd _ _ _ _ _ index_file_path He) as (d & _ & _ & Hw).
  rewrite metadata_directory_components in Hw. apply walk_prefix in Hw as [d' Hw]. exists d'.
  rewrite <- Hw. f_equal. unfold start. rewrite !absolute_components, metadata_directory_components.
  by destruct (path_components root).
Qed.

Lemma install_spec name dest d d' a :
  standing (tree d) ->
  vacant_or_file (tree d) (path_join dest ALLOCATION_MARKER_RELATIVE_PATH) ->
  vacant_or_file (tree d) (path_join dest POINTER_RELATIVE_PATH) ->
  install_pointer cwd no_fault prefix root name dest d = (d', Ok a) ->
  exists view row l marker pointer rt,
    ac_view a = Some view /\ bt_get (view_members view) name = Some row /\
    canonical cwd (tree d') (recorded_workspace root row) = Ok l /\ workspace_at (tree d') l /\
    encode_marker (view_family_id view) (row_allocation row) = Ok marker /\
    encode_pointer (view_family_id view) rt = Ok pointer /\
    rt = match canonical cwd (tree d') root with Ok lr => path_text (rooted lr) | Err _ => root end /\
    tree d' !! (lit "local-clone-allocation" :: GWZ :: l) = Some (NFile marker) /\
    tree d' !! (lit "family-root" :: GWZ :: l) = Some (NFile pointer) /\
    tree d' !! (lit "local-family.yml" :: GWZ :: l) = None.
Proof.
  intros HS Vm Vp. unfold install_pointer.
  intros [(e & _ & [=])|(current & d1 & [E1 Hv]%read_index_spec & H1)]%pbind_inv.
  specialize (Hv _ eq_refl). apply pbind_inv in H1 as [(e & _ & [=])|(view & d2 & [= <- Hc%ok_or_ok] & H1)].
  rewrite Hc in Hv. symmetry in Hv. clear Hc.
  apply pbind_inv in H1 as [(e & _ & [=])|(row & d2 & [= <- Hrow] & H1)].
  unfold session_row in Hrow. destruct (bt_get (view_members view) name) as [row'|] eqn:Eg; [|done]. injection Hrow as ->.
  destruct (bool_decide (row_state row = Creating)); [|done]. cbn [negb] in H1.
  apply pbind_inv in H1 as [(e & _ & [=])|(resolved & d2 & (r2 & H2 & Er)%pmap_err_inv & H1)].
  destruct r2; [|done]. injection Er as <-. pose proof (quiet_canonicalize _ _ _ _ _ _ H2) as E2.
  apply canonicalize_still in H2. destruct (canonical cwd (tree d1) dest) as [l|] eqn:El; [|done].
  assert (resolved = path_text (rooted l)) as -> by congruence. clear H2.
  apply pbind_inv in H1 as [(e & _ & [=])|([] & d3 & (r3 & d3' & H3 & H3')%pcase_inv & H1)].
  pose proof (quiet_canonicalize _ _ _ _ _ _ H3) as E3. apply canonicalize_still in H3.
  destruct (canonical cwd (tree d2) (recorded_workspace root row)) as [lw|] eqn:Elw; subst r3; [|done].
  rewrite E1 in El. rewrite E2, E1 in Elw.
  destruct (canonical_real _ _ _ HS El) as [Hs Hp], (canonical_real _ _ _ HS Elw) as [_ Hpw].
  unfold path_eqb in H3'. rewrite !rooted_text in H3' by done. case_bool_decide as Eq; [|done]. injection H3' as <-.
  apply rooted_inj in Eq as ->.
  apply pbind_inv in H1 as [(e & _ & [=])|(index & d4 & H4 & H1)].
  pose proof (quiet_index_state _ _ _ _ _ _ H4) as E4. apply pmap_err_inv in H4 as (r4 & H4 & Er).
  destruct r4 as [s|]; [|done]. injection Er as <-. apply file_state_spec in H4.
  destruct index; cbn [is_present] in H1; try done.
  apply pbind_inv in H1 as [(e & _ & [=])|(ptr & d5 & E5%quiet_destination_pointer & H1)].
  apply pbind_inv in H1 as [(e & _ & [=])|([] & d6 & H6 & H1)].
  assert (E6 : tree d6 = tree d5).
  { destruct ptr as [pf|]; [|by injection H6 as <-]. destruct (names_family view pf); [by injection H6 as <-|done]. }
  assert (E : tree d6 = tree d) by congruence. clear E4 E5 E6 H6.
  rewrite E3, E2, E1 in H4. rewrite <- E in HS, Vm, Vp, El, Elw, Hs, Hv, H4.
  apply (install_writes dest l) in H1 as (t2 & marker & pointer & rt & Ha & G1 & G2 & W & Hm & Hptr & Hrt & L1 & L2 & L3);
    try done; [|by destruct HS].
  exists view, row, l, marker, pointer, rt.
  split_and!; [exact Ha|exact Eg| |exact W|exact Hm|exact Hptr| |exact L1|exact L2|exact L3].
  - exact (canonical_grows _ _ _ _ _ (tree_grows_trans _ _ _ G1 G2) Elw).
  - rewrite Hrt. destruct (decide (root = [])) as [->|Hne]; [done|].
    destruct (root_canonical _ _ Hv Hne) as [lr Hlr]. apply (canonical_grows _ _ _ _ _ G1) in Hlr.
    by rewrite Hlr, (canonical_grows _ _ _ _ _ G2 Hlr).
Qed.

(** ** Observation *)

Lemma metadata_at_file t l rel file b op :
  workspace_at t l -> metadata_file rel file -> t !! (file :: GWZ :: l) = Some (NFile b) ->
  file_state_at cwd t (path_join (path_text (rooted l)) rel) = Ok Regular /\
  metadata_at cwd t (path_join (path_text (rooted l)) rel) op = Ok (Some b).
Proof.
  intros HW Hf Hb. set (p := path_join (path_text (rooted l)) rel).
  assert (El : lstat cwd t p = Ok (NFile b)).
  { unfold lstat, p. rewrite (entry_resolved _ _ _ _ HW Hf). cbn [rbind node_at]. by rewrite Hb. }
  assert (Hn : names_entry p) by (by eapply metadata_names).
  assert (Es : file_state_at cwd t p = Ok Regular) by (unfold file_state_at; by rewrite El).
  split; [done|]. unfold metadata_at. rewrite Es. cbn [map_err rbind].
  by destruct (lstat_file cwd _ _ _ Hn El) as (_ & _ & _ & _ & ->).
Qed.

Lemma observe_pointer_still `{!YamlRoundTrip} w family rt pointer d d' r :
  file_state_at cwd (tree d) (path_join w POINTER_RELATIVE_PATH) = Ok Regular ->
  metadata_at cwd (tree d) (path_join w POINTER_RELATIVE_PATH) ReadPointer = Ok (Some pointer) ->
  encode_pointer family rt = Ok pointer ->
  observe_pointer cwd no_fault w family rt d = (d', r) -> tree d' = tree d /\ r = Ok PtrMatches.
Proof.
  intros Hs Hm Hp (r1 & d1 & H1 & H2)%pcase_inv.
  pose proof (quiet_destination_pointer _ _ _ _ _ _ H1) as E1.
  apply pbind_inv in H1 as [(e & (r0 & H1 & Er)%pmap_err_inv & ->)|(s & d2 & (r0 & H1 & Er)%pmap_err_inv & H3)];
    pose proof (quiet_file_state _ _ _ _ _ _ H1) as E2; apply file_state_still in H1; rewrite Hs in H1; subst r0; [done|].
  injection Er as ->. apply read_pointer_still in H3. rewrite E2 in H3. unfold pointer_at in H3.
  rewrite Hm in H3. cbn [rbind] in H3. rewrite (pointer_decodes _ _ _ Hp) in H3. cbn [rbind map_err] in H3. subst r1.
  cbn [pf_family_id pf_root_path] in H2. unfold path_eqb in H2. rewrite !bool_decide_true in H2 by done.
  by injection H2 as <- <-.
Qed.

Lemma observe_marker_still `{!YamlRoundTrip} w family allocation marker d d' r :
  metadata_at cwd (tree d) (path_join w ALLOCATION_MARKER_RELATIVE_PATH) ReadMarker = Ok (Some marker) ->
  encode_marker family allocation = Ok marker ->
  observe_marker cwd no_fault w family allocation d = (d', r) -> tree d' = tree d /\ r = Ok MarkMatches.
Proof.
  intros Hm Hp (r1 & d1 & H1 & H2)%pcase_inv. pose proof (quiet_read_marker _ _ _ _ _ _ H1) as E1.
  apply read_marker_still in H1. unfold marker_at in H1. rewrite Hm in H1. cbn [rbind] in H1.
  rewrite (marker_decodes _ _ _ Hp) in H1. cbn [rbind map_err] in H1. subst r1.
  cbn [mf_family_id mf_allocation_id] in H2. rewrite !bool_decide_true in H2 by done. by injection H2 as <- <-.
Qed.

(** A workspace that holds a row's own pointer and marker reads as matching. *)
Lemma observe_matching `{!YamlRoundTrip} w l family allocation marker pointer rt d d' r :
  canonical cwd (tree d) w = Ok l -> workspace_at (tree d) l ->
  encode_marker family allocation = Ok marker -> encode_pointer family rt = Ok pointer ->
  rt = match canonical cwd (tree d) root with Ok lr => path_text (rooted lr) | Err _ => root end ->
  tree d !! (lit "local-clone-allocation" :: GWZ :: l) = Some (NFile marker) ->
  tree d !! (lit "family-root" :: GWZ :: l) = Some (NFile pointer) ->
  tree d !! (lit "local-family.yml" :: GWZ :: l) = None ->
  observe_metadata cwd no_fault w family root allocation d = (d', r) ->
  r = Ok (mkWorkspaceMetadata false PtrMatches MarkMatches).
Proof.
  intros Hw HW Hm Hp Hrt L1 L2 L3. unfold observe_metadata.
  destruct (metadata_at_file _ _ _ _ _ ReadMarker HW marker_file_path L1) as [_ Mm].
  destruct (metadata_at_file _ _ _ _ _ ReadPointer HW pointer_file_path L2) as [Sp Mp].
  assert (Si : file_state_at cwd (tree d) (path_join (path_text (rooted l)) INDEX_RELATIVE_PATH) = Ok Absent).
  { unfold file_state_at, lstat. rewrite (entry_resolved _ _ _ _ HW index_file_path). cbn [rbind node_at]. by rewrite L3. }
  pose proof (lstat_resolved _ _ HW) as Sd.
  intros [(e & (r0 & H1%canonicalize_still & Er)%pmap_err_inv & ->)|(res & d1 & (r0 & H1 & Er)%pmap_err_inv & H2)]%pbind_inv.
  { rewrite Hw in H1. by subst r0. }
  pose proof (quiet_canonicalize _ _ _ _ _ _ H1) as E1. apply canonicalize_still in H1. rewrite Hw in H1. subst r0.
  cbn [map_err] in Er. assert (res = path_text (rooted l)) as -> by congruence. clear Er.
  apply pbind_inv in H2 as [(e & (r0 & H2 & Er)%pmap_err_inv & ->)|(node & d2 & (r0 & H2 & Er)%pmap_err_inv & H3)];
    pose proof (look_tree _ _ _ _ _ H2) as E2; apply look_still in H2; rewrite E1, Sd in H2; subst r0; [done|].
  injection Er as ->. apply pbind_inv in H3 as [(e & [=] & _)|([] & d3 & [= <-] & H3)].
  apply pbind_inv in H3 as [(e & (r0 & H3 & Er)%pmap_err_inv & ->)|(s & d4 & (r0 & H3 & Er)%pmap_err_inv & H4)];
    pose proof (quiet_index_state _ _ _ _ _ _ H3) as E3; apply pmap_err_inv in H3 as (r1 & H3%file_state_still & Er1);
    rewrite E2, E1, Si in H3; subst r1 r0; [done|]. injection Er as ->.
  apply pbind_inv in H4 as [(e & (r2 & d5 & _ & [=])%pcase_inv & _)|(er & d5 & (r2 & d5' & H4 & [= <- Eer])%pcase_inv & H5)].
  pose proof (quiet_canonicalize _ _ _ _ _ _ H4) as E4. apply canonicalize_still in H4.
  assert (ET : tree d5' = tree d) by congruence.
  assert (er = rt) as ->.
  { rewrite <- Eer, Hrt. replace (tree d4) with (tree d) in H4 by congruence.
    by destruct (canonical cwd (tree d) root); subst r2. }
  rewrite <- ET in Sp, Mp, Mm. clear E1 E2 E3 E4 H4.
  apply pbind_inv in H5 as [(e & H5 & ->)|(po & d6 & H5 & H6)];
    destruct (observe_pointer_still _ _ _ _ _ _ _ Sp Mp Hp H5) as [E6 Er]; [done|]. injection Er as ->.
  rewrite <- E6 in Mm.
  apply pbind_inv in H6 as [(e & H6 & ->)|(mo & d7 & H6 & H7)];
    destruct (observe_marker_still _ _ _ _ _ _ _ Mm Hm H6) as [E7 Er]; [done|]. injection Er as ->.
  by injection H7 as _ <-.
Qed.

(** What an installation leaves reads back as the row's own. *)
Lemma installed_matches `{!YamlRoundTrip} name dest d d' a :
  standing (tree d) ->
  vacant_or_file (tree d) (path_join dest ALLOCATION_MARKER_RELATIVE_PATH) ->
  vacant_or_file (tree d) (path_join dest POINTER_RELATIVE_PATH) ->
  install_pointer cwd no_fault prefix root name dest d = (d', Ok a) ->
  exists view row, ac_view a = Some view /\ bt_get (view_members view) name = Some row /\
    (observe_member_target cwd no_fault root view row d').2 = TargetPresent PtrMatches MarkMatches.
Proof.
  intros HS Vm Vp Hi.
  destruct (install_spec _ _ _ _ _ HS Vm Vp Hi) as (view & row & l & marker & pointer & rt & Ha & Hg & Hc & HW & Hm & Hp & Hrt & L1 & L2 & L3).
  exists view, row. split; [exact Ha|]. split; [exact Hg|].
  unfold observe_member_target, observe_workspace. fold (recorded_workspace root row).
  destruct (observe_metadata cwd no_fault (recorded_workspace root row) (view_family_id view) root (row_allocation row) d') as [d2 r] eqn:Eo.
  pose proof (observe_matching _ _ _ _ _ _ _ _ _ _ Hc HW Hm Hp Hrt L1 L2 L3 Eo) as ->. done.
Qed.

End pointers.

(** ** A clone's pointer installed and removed *)

Definition applied (r : result AppliedChange StoreError) : AppliedChange :=
  match r with Ok a => a | Err _ => mkAppliedChange [] None end.

Definition demo_installed : Disk * result AppliedChange StoreError :=
  @install_pointer demo_yaml [] (fun _ => None) 7 (lit "/ws") (demo_name "B") (lit "/ws-B") demo_disk.

Definition demo_removed : Disk * result AppliedChange StoreError :=
  @remove_pointer demo_yaml [] (fun _ => None) (lit "/ws") (demo_name "B") demo_installed.1.

Lemma demo_standing : standing [] demo_tree.
Proof.
  split; [|done|done|constructor]. apply tree_wf_entries. refine (bool_decide_unpack _ _). vm_compute. exact I.
Qed.

(** ** Claims *)

(** What an installation writes reads back as the row's own.  With no
    I/O fault, from a tree whose entries are in directories and a process in
    a real directory, when nothing but a metadata file is at the
    destination's marker and pointer paths: if [install_pointer] succeeds
    then the listing's observation of that row, through the recorded path
    and its own resolution of it, finds the pointer and the marker matching
    and no index there. *)
Theorem installed_pointer_observed `{Yaml} `{!YamlRoundTrip} (cwd : loc) (prefix : N) (root dest : str) (name : MemberName)
    (d d' : Disk) (a : AppliedChange) :
  standing cwd (tree d) ->
  vacant_or_file cwd (tree d) (path_join dest ALLOCATION_MARKER_RELATIVE_PATH) ->
  vacant_or_file cwd (tree d) (path_join dest POINTER_RELATIVE_PATH) ->
  install_pointer cwd (fun _ => None) prefix root name dest d = (d', Ok a) ->
  exists view row, ac_view a = Some view /\ bt_get (view_members view) name = Some row /\
    (observe_member_target cwd (fun _ => None) root view row d').2 = TargetPresent PtrMatches MarkMatches.
Proof. intros HS Vm Vp Hi. exact (installed_matches _ _ _ _ _ _ _ _ HS Vm Vp Hi). Qed.

Lemma installed_pointer_observed_witness :
  demo_installed.2 = Ok (applied demo_installed.2) /\
  exists view row, ac_view (applied demo_installed.2) = Some view /\ bt_get (view_members view) (demo_name "B") = Some row /\
    (@observe_member_target demo_yaml [] (fun _ => None) (lit "/ws") view row demo_installed.1).2 =
    TargetPresent PtrMatches MarkMatches.
Proof.
  assert (H : demo_installed = (demo_installed.1, Ok (applied demo_installed.2))) by (vm_compute; reflexivity).
  split; [vm_compute; reflexivity|].
  refine (@installed_pointer_observed demo_yaml (table_round_trip _ _ _) [] 7 (lit "/ws") (lit "/ws-B") (demo_name "B")
    demo_disk demo_installed.1 (applied demo_installed.2) demo_standing _ _ H); left; vm_compute; reflexivity.
Defined.

(** A removed pointer no longer protects its row.  With no I/O fault,
    after [remove_pointer] succeeds for a member, removing that member's row
    is never refused because its pointer is still installed. *)
Theorem pointer_removal_unblocks `{Yaml} (cwd : loc) (prefix : N) (root : str) (name : MemberName)
    (reason : RemovalReason) (d d' d'' : Disk) (a : AppliedChange) (e : StoreError) :
  remove_pointer cwd (fun _ => None) root name d = (d', Ok a) ->
  apply cwd (fun _ => None) prefix root (RemoveRow name reason) d' = (d'', Err e) -> still_installed e = false.
Proof. intros Hr Ha. exact (removed_row_unprotected _ _ _ _ _ _ _ _ _ _ Hr Ha). Qed.

Lemma pointer_removal_unblocks_witness :
  exists e, (@apply demo_yaml [] (fun _ => None) 7 (lit "/ws") (RemoveRow (demo_name "B") Disposed) demo_removed.1).2 = Err e /\
    still_installed e = false.
Proof.
  assert (H : demo_removed = (demo_removed.1, Ok (applied demo_removed.2))) by (vm_compute; reflexivity).
  exists (SeRefused (NotDisposing (demo_name "B") Creating)).
  assert (Ha : (@apply demo_yaml [] (fun _ => None) 7 (lit "/ws") (RemoveRow (demo_name "B") Disposed) demo_removed.1).2 =
    Err (SeRefused (NotDisposing (demo_name "B") Creating))) by (vm_compute; reflexivity).
  split; [exact Ha|].
  refine (@pointer_removal_unblocks demo_yaml [] 7 (lit "/ws") (demo_name "B") Disposed demo_installed.1 demo_removed.1
    (@apply demo_yaml [] (fun _ => None) 7 (lit "/ws") (RemoveRow (demo_name "B") Disposed) demo_removed.1).1
    (applied demo_removed.2) _ H _).
  rewrite <- Ha. apply surjective_pairing.
Defined.
