(* ===== verification/WorkspaceInstall.v ===== *)
(** Installing a local clone (src/crates/workspace-install/src): the request
    and the snapshot, the ports, admission, and the ordered sequence
    [install] runs.  The family session, the ports, the copier and the
    cancellation are interfaces over one shared state, so the theorems hold
    of every one of them.  Beside that state and the code's own [Progress]
    the procedures carry a log of the calls made; it stands for nothing in
    the code and only lets the theorems speak of what was called, with what
    answer and in which order. *)

From S2P Require Export FamilyStoreContract RepoContract CopyContract.

#[local] Set Default Proof Using "Type".

(** ** The request (request.rs) *)

Record InstallRequest : Type := mkInstallRequest {
  ir_name : MemberName;
  ir_root : str;
  ir_source : str;
  ir_destination : str;
  ir_path : MemberPath;
  ir_source_path : option MemberPath;
  ir_allocation : AllocationId;
  ir_mode : CloneMode;
  ir_branch : option str;
  ir_exclusions : list Exclusion;
  ir_copy_mode : CopyMode;
  ir_owner : option OwnerToken;
}.

(** [InstallRequest::row]. *)
Definition install_row (request : InstallRequest) : MemberRow := {|
  row_path := path_str (ir_path request);
  row_kind := match ir_mode request with BareMode => Bare | Verbatim | Clean => Checkout end;
  row_state := Creating;
  row_allocation := ir_allocation request;
  row_source := match ir_source_path request with None => ROOT_PATH | Some path => path_str path end;
  row_mode := ir_mode request;
  row_last_error := None;
  row_owner := ir_owner request;
|}.

(** [InstallRequest::copies_the_tree]. *)
Definition copies_the_tree (request : InstallRequest) : bool := bool_decide (ir_mode request = Verbatim).

Record CapturedRepository : Type := mkCapturedRepository {
  cr_key : RepoKey;
  cr_info : RepositoryInfo;
  cr_head : option ObjectId;
  cr_branches : list str;
  cr_remotes : list str;
}.

Record SourceSnapshot : Type := mkSourceSnapshot {
  ss_repositories : list CapturedRepository;
  ss_configuration_digest : str;
  ss_open_gwz_merge : option str;
}.

(** [SourceSnapshot::captured]. *)
Definition captured (snapshot : SourceSnapshot) (key : RepoKey) : bool :=
  existsb (fun repo => bool_decide (cr_key repo = key)) (ss_repositories snapshot).

(** ** The destination (destination.rs) *)

Record DestinationObservation : Type := mkDestinationObservation {
  do_exists : bool;
  do_nonempty : bool;
  do_is_workspace : bool;
  do_family_index : bool;
  do_pointer : PointerObservation;
  do_merge_store : bool;
  do_residual : list str;
  do_dependencies : list str;
}.

Definition absent_destination : DestinationObservation :=
  mkDestinationObservation false false false false PtrAbsent false [] [].

Definition complete_destination : DestinationObservation :=
  mkDestinationObservation true true true false PtrMatches false [] [].

Record ConstructionRequest : Type := mkConstructionRequest {
  kq_mode : CloneMode;
  kq_branch : option str;
  kq_snapshot : SourceSnapshot;
  kq_destination : str;
}.

(** ** The ports (ports.rs) *)

Record ConfigurationPlan : Type := mkConfigurationPlan {
  plan_destination : str;
  plan_mode : CloneMode;
  plan_branch : option str;
  plan_snapshot : SourceSnapshot;
}.

Record ConfigurationReport : Type := mkConfigurationReport {
  lock_recaptured : bool;
  generated_changes : list str;
}.

Record CopyRecordReceipt : Type := mkCopyRecordReceipt {
  rr_repositories : N;
  rr_roots : N;
  rr_entries : N;
}.

Record ManifestReceipt : Type := mkManifestReceipt { marker_regenerated : bool }.

Record GitInstallReport : Type := mkGitInstallReport { removed_remotes : list str }.

Inductive InstallPortError : Type :=
| IpLayout (error : LayoutError)
| IpDrift (detail : str)
| IpConstruction (detail : str)
| IpConfiguration (detail : str)
| IpDestination (path detail : str)
| IpUnimplemented (operation : str).

(** [InstallPortError]'s [Display]; [hazards_debug] as in
    [layout_error_text]. *)
Definition install_port_error_text (hazards_debug : list LayoutHazard -> str) (e : InstallPortError) : str :=
  match e with
  | IpLayout error => layout_error_text hazards_debug error
  | IpDrift detail => lit "source drift: " ++ detail
  | IpConstruction detail => lit "construction: " ++ detail
  | IpConfiguration detail => lit "configuration: " ++ detail
  | IpDestination path detail => path ++ lit ": " ++ detail
  | IpUnimplemented operation => operation ++ lit " is not implemented"
  end.

(** [trait InstallPorts]. *)
Class InstallPorts (W : Type) : Type := {
  snapshot_source : str -> W -> W * result SourceSnapshot InstallPortError;
  observe_destination : str -> W -> W * result DestinationObservation InstallPortError;
  allocate_destination : str -> W -> W * result unit InstallPortError;
  construct_repositories : ConstructionRequest -> W -> W * result unit InstallPortError;
  install_destination_git : str -> W -> W * result GitInstallReport InstallPortError;
  record_copy : str -> W -> W * result CopyRecordReceipt InstallPortError;
  recheck_source : SourceSnapshot -> W -> W * result unit InstallPortError;
  recapture_configuration : ConfigurationPlan -> W -> W * result ConfigurationReport InstallPortError;
  publish_manifest : ConfigurationPlan -> W -> W * result ManifestReceipt InstallPortError;
}.

(** ** Refusals and errors (refusal.rs) *)

Inductive InstallRefusal : Type :=
| IrFamily (refusal : Refusal)
| IrSourceLayout (error : LayoutError)
| IrNameIsRemote (collision : RemoteNameCollision)
| IrDestinationNotEmpty (destination : str)
| IrDestinationIsWorkspace (destination : str)
| IrSourceOpenMerge (detail : str)
| IrRootNotCaptured
| IrBranchExists (branch : str) (member : RepoKey)
| IrBranchNotSupported (branch : str) (mode : CloneMode).

(** [RemoteNameCollision]'s [Display] (family-model/src/name.rs). *)
Definition collision_text (c : RemoteNameCollision) : str :=
  quoted (rnc_name c) ++ lit " is already a git remote in " ++ rnc_member c.

Definition install_refusal_text (hazards_debug : list LayoutHazard -> str) (r : InstallRefusal) : str :=
  match r with
  | IrFamily refusal => refusal_text refusal
  | IrSourceLayout error => layout_error_text hazards_debug error
  | IrNameIsRemote collision => collision_text collision
  | IrDestinationNotEmpty destination => destination ++ lit " is not empty"
  | IrDestinationIsWorkspace destination => destination ++ lit " is already a workspace"
  | IrSourceOpenMerge detail =>
      lit "source has an open gwz merge (" ++ detail ++ lit "); abort it or use --clean"
  | IrRootNotCaptured => lit "the captured freeze vector does not include the root repository"
  | IrBranchExists branch member =>
      lit "branch " ++ quoted branch ++ lit " already exists in " ++ repo_key_text member
  | IrBranchNotSupported branch mode =>
      quoted (lit "-b " ++ branch) ++ lit " is not supported by --" ++ mode_as_str mode ++ lit " clones"
  end.

Inductive CompletionFault : Type :=
| FamilyIndexPresent
| ConflictingMetadata
| PointerMissing
| PointerInvalid (observed : PointerObservation)
| MergeStorePresent
| ResidualPath (path : str)
| NotIndependent (detail : str)
| LockNotRecaptured
| MarkerNotRegenerated.

Definition completion_fault_text (f : CompletionFault) : str :=
  match f with
  | FamilyIndexPresent => lit "the destination holds a family index"
  | ConflictingMetadata => lit "the destination holds both a family index and a family pointer"
  | PointerMissing => lit "the destination has no family pointer"
  | PointerInvalid observed => lit "the destination's family pointer is " ++ pointer_debug observed
  | MergeStorePresent => lit "the destination has a `.gwz/merge/` store"
  | ResidualPath path => path ++ lit " must be absent at ready"
  | NotIndependent detail => lit "not independent: " ++ detail
  | LockNotRecaptured => lit "the destination lock was not recaptured to the destination HEAD"
  | MarkerNotRegenerated =>
      lit "the conf-integrity marker was not regenerated for the final manifest and lock bytes"
  end.

Inductive InstallError : Type :=
| InRefused (refusals : list InstallRefusal)
| InSource (error : InstallPortError)
| InCopy (error : CopyError)
| InStore (error : StoreError)
| InPort (error : InstallPortError)
| InIncomplete (faults : list CompletionFault)
| InCancelled.

(** [join]: the items' texts between semicolons. *)
Fixpoint join_items (items : list str) : str :=
  match items with
  | [] => []
  | [item] => item
  | item :: rest => item ++ lit "; " ++ join_items rest
  end.

Definition install_error_text (hazards_debug : list LayoutHazard -> str) (e : InstallError) : str :=
  match e with
  | InRefused refusals => lit "refused: " ++ join_items (install_refusal_text hazards_debug <$> refusals)
  | InSource error | InPort error => install_port_error_text hazards_debug error
  | InCopy error => copy_error_text error
  | InStore error => store_error_text error
  | InIncomplete faults => lit "destination is incomplete: " ++ join_items (completion_fault_text <$> faults)
  | InCancelled => lit "install cancelled"
  end.

(** ** Steps, effects and progress (report.rs) *)

Inductive InstallStep : Type :=
| InventorySource | ObserveDestination | Reserve | AllocateDestination | CopyTree | ConstructRepositories
| InstallDestinationGit | RecordCopy | InstallPointer | CheckDestination | RecheckSource
| RecaptureConfiguration | PublishManifest | StepMarkReady.

Definition step_text (s : InstallStep) : str :=
  match s with
  | InventorySource => lit "inventory source"
  | ObserveDestination => lit "observe destination"
  | Reserve => lit "reserve"
  | AllocateDestination => lit "allocate destination"
  | CopyTree => lit "copy tree"
  | ConstructRepositories => lit "construct repositories"
  | InstallDestinationGit => lit "install destination git configuration"
  | RecordCopy => lit "record what was copied"
  | InstallPointer => lit "install pointer"
  | CheckDestination => lit "check destination"
  | RecheckSource => lit "recheck source"
  | RecaptureConfiguration => lit "recapture configuration"
  | PublishManifest => lit "publish manifest"
  | StepMarkReady => lit "mark ready"
  end.

Inductive InstallEffect : Type :=
| RowAllocated | DestinationAllocated | TreeCopied | RepositoriesConstructed | DestinationGitInstalled
| CopyRecorded | PointerInstalled | ConfigurationInstalled | ManifestPublished | ErrorRecorded | RowReady.

#[global] Instance InstallEffect_eq_dec : EqDecision InstallEffect.
Proof. solve_decision. Defined.

Record InstallReport : Type := mkInstallReport {
  is_copy : option CopyReport;
  is_git : option GitInstallReport;
  is_record : option CopyRecordReceipt;
  is_configuration : option ConfigurationReport;
  is_effects : list InstallEffect;
}.

Record InstallFailure : Type := mkInstallFailure {
  if_step : InstallStep;
  if_error : InstallError;
  if_effects : list InstallEffect;
}.

Record Progress : Type := mkProgress {
  effects : list InstallEffect;
  pg_copy : option CopyReport;
  pg_git : option GitInstallReport;
  pg_record : option CopyRecordReceipt;
  pg_configuration : option ConfigurationReport;
}.

#[global] Instance Progress_set : Settable Progress := fun p =>
  mkProgress (effects p) (pg_copy p) (pg_git p) (pg_record p) (pg_configuration p).

(** [Progress::default]. *)
Definition no_progress : Progress := mkProgress [] None None None None.

(** [Progress::did]. *)
Definition did (effect : InstallEffect) (p : Progress) : Progress := p <| effects := effects p ++ [effect] |>.

(** ** Admission's decisions (admit.rs) *)

(** [source_refusals]. *)
Definition source_refusals (request : InstallRequest) (snapshot : SourceSnapshot) : list InstallRefusal :=
  let remotes := ss_repositories snapshot ≫= fun repo =>
    (fun remote => (repo_key_text (cr_key repo), remote)) <$> cr_remotes repo in
  match check_name_free_of_remotes (ir_name request) remotes with
  | Err collision => [IrNameIsRemote collision]
  | Ok _ => []
  end ++
  (if bool_decide (ir_mode request = Verbatim) then
     match ss_open_gwz_merge snapshot with Some detail => [IrSourceOpenMerge detail] | None => [] end
   else []) ++
  (if negb (copies_the_tree request) && negb (captured snapshot RepoRoot) then [IrRootNotCaptured] else []) ++
  match ir_branch request with
  | Some branch =>
      if copies_the_tree request then [IrBranchNotSupported branch (ir_mode request)]
      else ss_repositories snapshot ≫= fun repo =>
        if existsb (fun existing => bool_decide (existing = branch)) (cr_branches repo)
        then [IrBranchExists branch (cr_key repo)] else []
  | None => []
  end.

(** The refusals of [admit] that the observed destination decides. *)
Definition destination_refusals (request : InstallRequest) (observed : DestinationObservation) : list InstallRefusal :=
  (if do_nonempty observed then [IrDestinationNotEmpty (ir_destination request)] else []) ++
  (if do_is_workspace observed then [IrDestinationIsWorkspace (ir_destination request)] else []).

(** Those the index decides. *)
Definition family_refusals (request : InstallRequest) (current : option FamilyView) : list InstallRefusal :=
  match current with
  | None => []
  | Some view =>
      [check_name_available view (ir_name request); check_path_available view (ir_path request);
       check_allocation_available view (ir_name request) (ir_allocation request)] ≫= fun r =>
        match r with Err refusal => [IrFamily refusal] | Ok _ => [] end
  end.

(** [completion_faults]. *)
Definition completion_faults (observed : DestinationObservation) : list CompletionFault :=
  match do_family_index observed, do_pointer observed with
  | true, PtrAbsent => [FamilyIndexPresent]
  | true, _ => [ConflictingMetadata]
  | false, PtrMatches => []
  | false, PtrAbsent => [PointerMissing]
  | false, pointer => [PointerInvalid pointer]
  end ++
  (if do_merge_store observed then [MergeStorePresent] else []) ++
  (ResidualPath <$> do_residual observed) ++
  (NotIndependent <$> do_dependencies observed).

(** [copy_request]. *)
Definition copy_request (request : InstallRequest) : CopyRequest :=
  mkCopyRequest (ir_source request) (ir_destination request) (ir_exclusions request) (ir_copy_mode request).

(** ** The sequence (admit.rs, install.rs) *)

Inductive Call : Type :=
| CallSnapshot (source : str) (r : result SourceSnapshot InstallPortError)
| CallObserve (destination : str) (r : result DestinationObservation InstallPortError)
| CallReread (r : result (option FamilyView) StoreError)
| CallPoll (cancelled : bool)
| CallApply (change : FamilyChange) (r : result AppliedChange StoreError)
| CallAllocate (destination : str) (r : result unit InstallPortError)
| CallCopy (request : CopyRequest) (r : result CopyReport CopyError)
| CallConstruct (request : ConstructionRequest) (r : result unit InstallPortError)
| CallGit (destination : str) (r : result GitInstallReport InstallPortError)
| CallRecord (destination : str) (r : result CopyRecordReceipt InstallPortError)
| CallPointer (name : MemberName) (destination : str) (r : result AppliedChange StoreError)
| CallRecheck (snapshot : SourceSnapshot) (r : result unit InstallPortError)
| CallRecapture (plan : ConfigurationPlan) (r : result ConfigurationReport InstallPortError)
| CallManifest (plan : ConfigurationPlan) (r : result ManifestReceipt InstallPortError).

Record Installing (W : Type) : Type := mkInstalling {
  in_world : W;
  in_progress : Progress;
  in_log : list Call;
}.
Arguments mkInstalling {W}.
Arguments in_world {W}.
Arguments in_progress {W}.
Arguments in_log {W}.

Section install.
Context {W : Type} {FS : FamilySession W} {IP : InstallPorts W} {TC : TreeCopier W} {CN : Cancellation W}.
Context (hazards_debug : list LayoutHazard -> str).

Abbreviation step_proc A := (proc (Installing W) A (InstallStep * InstallError)).

Definition make_call {A} (op : W -> W * A) (event : A -> Call) (st : Installing W) : Installing W * A :=
  let '(w, a) := op (in_world st) in (mkInstalling w (in_progress st) (in_log st ++ [event a]), a).

(** [attempt!]: the call's error is the step's. *)
Definition attempt {A E} (step : InstallStep) (wrap : E -> InstallError) (op : W -> W * result A E)
    (event : result A E -> Call) : step_proc A :=
  pmap_err (fun error => (step, wrap error)) (make_call op event).

(** [checkpoint!]. *)
Definition checkpoint (step : InstallStep) : step_proc unit := fun st =>
  let '(st', cancelled) := make_call is_cancelled CallPoll st in
  (st', if cancelled then Err (step, InCancelled) else Ok tt).

Definition progress (f : Progress -> Progress) : step_proc unit := fun st =>
  (mkInstalling (in_world st) (f (in_progress st)) (in_log st), Ok tt).

(** [admit]. *)
Definition admit_request (request : InstallRequest) : step_proc SourceSnapshot :=
  pcase (make_call (snapshot_source (ir_source request)) (CallSnapshot (ir_source request))) (fun snapshot =>
    let go (snapshot : option SourceSnapshot) (refusals : list InstallRefusal) : step_proc SourceSnapshot :=
      let! observed := attempt ObserveDestination InPort (observe_destination (ir_destination request))
                         (CallObserve (ir_destination request)) in
      let! current := attempt Reserve InStore session_reread CallReread in
      let refusals := refusals ++ destination_refusals request observed ++ family_refusals request current ++
        match snapshot with Some snapshot => source_refusals request snapshot | None => [] end in
      match snapshot with
      | None => pfail (InventorySource, InRefused refusals)
      | Some snapshot =>
          if bool_decide (length refusals = 0) then pret snapshot else pfail (Reserve, InRefused refusals)
      end in
    match snapshot with
    | Ok snapshot => go (Some snapshot) []
    | Err (IpLayout error) => go None [IrSourceLayout error]
    | Err error => pfail (InventorySource, InSource error)
    end).

(** Steps 2 to 4 of [install], past admission, in the order of the code. *)
Definition reserve (request : InstallRequest) : step_proc unit :=
  let change := Allocate (ir_name request) (install_row request) in
  do! checkpoint Reserve in
  do! attempt Reserve InStore (session_apply change) (CallApply change) in
  progress (did RowAllocated).

Definition allocate (request : InstallRequest) : step_proc unit :=
  do! attempt AllocateDestination InPort (allocate_destination (ir_destination request))
        (CallAllocate (ir_destination request)) in
  progress (did DestinationAllocated).

Definition build (request : InstallRequest) (snapshot : SourceSnapshot) : step_proc unit :=
  if copies_the_tree request then
    do! checkpoint CopyTree in
    let! report := attempt CopyTree InCopy (copy_tree (copy_request request)) (CallCopy (copy_request request)) in
    progress (fun p => did TreeCopied (p <| pg_copy := Some report |>))
  else
    let construction := mkConstructionRequest (ir_mode request) (ir_branch request) snapshot (ir_destination request) in
    do! checkpoint ConstructRepositories in
    do! attempt ConstructRepositories InPort (construct_repositories construction) (CallConstruct construction) in
    progress (did RepositoriesConstructed).

Definition install_git (request : InstallRequest) : step_proc unit :=
  let! git := attempt InstallDestinationGit InPort (install_destination_git (ir_destination request))
                (CallGit (ir_destination request)) in
  progress (fun p => did DestinationGitInstalled (p <| pg_git := Some git |>)).

Definition record_copied (request : InstallRequest) : step_proc unit :=
  let! receipt := attempt RecordCopy InPort (record_copy (ir_destination request)) (CallRecord (ir_destination request)) in
  progress (fun p => did CopyRecorded (p <| pg_record := Some receipt |>)).

Definition point (request : InstallRequest) : step_proc unit :=
  do! attempt InstallPointer InStore (session_install_pointer (ir_name request) (ir_destination request))
        (CallPointer (ir_name request) (ir_destination request)) in
  progress (did PointerInstalled).

Definition check_complete (request : InstallRequest) : step_proc unit :=
  let! observed := attempt CheckDestination InPort (observe_destination (ir_destination request))
                     (CallObserve (ir_destination request)) in
  let faults := completion_faults observed in
  if bool_decide (length faults = 0) then pret tt else pfail (CheckDestination, InIncomplete faults).

Definition configuration_plan (request : InstallRequest) (snapshot : SourceSnapshot) : ConfigurationPlan :=
  mkConfigurationPlan (ir_destination request) (ir_mode request) (ir_branch request) snapshot.

Definition recapture (request : InstallRequest) (plan : ConfigurationPlan) : step_proc unit :=
  let! configuration := attempt RecaptureConfiguration InPort (recapture_configuration plan) (CallRecapture plan) in
  do! progress (fun p => did ConfigurationInstalled (p <| pg_configuration := Some configuration |>)) in
  if negb (bool_decide (ir_mode request = Verbatim)) && negb (lock_recaptured configuration)
  then pfail (RecaptureConfiguration, InIncomplete [LockNotRecaptured]) else pret tt.

Definition publish_last (plan : ConfigurationPlan) : step_proc unit :=
  do! checkpoint PublishManifest in
  let! receipt := attempt PublishManifest InPort (publish_manifest plan) (CallManifest plan) in
  do! progress (did ManifestPublished) in
  if marker_regenerated receipt then pret tt
  else pfail (PublishManifest, InIncomplete [MarkerNotRegenerated]).

Definition mark_ready (request : InstallRequest) : step_proc unit :=
  let change := MarkReady (ir_name request) (ir_allocation request) in
  do! attempt StepMarkReady InStore (session_apply change) (CallApply change) in
  progress (did RowReady).

(** The sequence past admission. *)
Definition perform (request : InstallRequest) (snapshot : SourceSnapshot) : step_proc unit :=
  let plan := configuration_plan request snapshot in
  do! reserve request in
  do! allocate request in
  do! build request snapshot in
  do! install_git request in
  do! record_copied request in
  do! point request in
  do! check_complete request in
  do! attempt RecheckSource InSource (recheck_source snapshot) (CallRecheck snapshot) in
  do! recapture request plan in
  do! publish_last plan in
  mark_ready request.

(** [Progress::stop]. *)
Definition stop (request : InstallRequest) (step : InstallStep) (error : InstallError) (st : Installing W)
    : Installing W * InstallFailure :=
  let recorded := existsb (fun e => bool_decide (e = RowAllocated)) (effects (in_progress st)) in
  let ready := existsb (fun e => bool_decide (e = RowReady)) (effects (in_progress st)) in
  let st' :=
    if recorded && negb ready then
      let change := RecordError (ir_name request) (step_text step ++ lit ": " ++ install_error_text hazards_debug error) in
      let '(st', r) := make_call (session_apply change) (CallApply change) st in
      if is_ok r then mkInstalling (in_world st') (did ErrorRecorded (in_progress st')) (in_log st') else st'
    else st in
  (st', mkInstallFailure step error (effects (in_progress st'))).

(** [install], with the state and the log it leaves. *)
Definition install (request : InstallRequest) (w : W) : Installing W * result InstallReport InstallFailure :=
  let '(st, r) := (let! snapshot := admit_request request in perform request snapshot) (mkInstalling w no_progress []) in
  match r with
  | Ok _ => let p := in_progress st in
      (st, Ok (mkInstallReport (pg_copy p) (pg_git p) (pg_record p) (pg_configuration p) (effects p)))
  | Err (step, error) => let '(st', failure) := stop request step error st in (st', Err failure)
  end.

End install.
