(* ===== verification/InstallProofs.v ===== *)
(** What an installation does: the calls it makes are an initial piece of one
    script, stopped at the first call that does not let it go on; what it
    reports is a function of those calls; admission refuses for exactly the
    stated reasons; and the family index ends with the row ready, or as it
    was, or with the row incomplete. *)

From S2P Require Export WorkspaceInstall DemoFamily.

#[local] Set Default Proof Using "Type".

(** ** The script *)

(** What a call at a place of the script must be, and the stop it causes. *)
Definition Expect : Type := option (InstallStep * InstallError) -> Call -> Prop.

Definition expect {A E} (step : InstallStep) (wrap : E -> InstallError) (event : result A E -> Call)
    (check : A -> option InstallError) : Expect := fun o c =>
  exists r, c = event r /\
    o = match r with Ok a => (fun error => (step, error)) <$> check a | Err error => Some (step, wrap error) end.

Definition expect_poll (step : InstallStep) : Expect := fun o c =>
  exists cancelled, c = CallPoll cancelled /\ o = if (cancelled : bool) then Some (step, InCancelled) else None.

Definition unchecked {A} (_ : A) : option InstallError := None.

Definition incomplete (faults : list CompletionFault) : option InstallError :=
  match faults with [] => None | _ => Some (InIncomplete faults) end.

(** The calls past admission and before the row is marked ready, in order,
    each with its step, its arguments and what of its answer stops the
    installation. *)
Definition preparation (request : InstallRequest) (snapshot : SourceSnapshot) : list Expect :=
  let destination := ir_destination request in
  let plan := configuration_plan request snapshot in
  let reservation := Allocate (ir_name request) (install_row request) in
  let construction := mkConstructionRequest (ir_mode request) (ir_branch request) snapshot destination in
  [expect_poll Reserve;
   expect Reserve InStore (CallApply reservation) unchecked;
   expect AllocateDestination InPort (CallAllocate destination) unchecked] ++
  match ir_mode request with
  | Verbatim =>
      [expect_poll CopyTree;
       expect CopyTree InCopy (CallCopy (copy_request request)) unchecked]
  | Clean | BareMode =>
      [expect_poll ConstructRepositories;
       expect ConstructRepositories InPort (CallConstruct construction) unchecked]
  end ++
  [expect InstallDestinationGit InPort (CallGit destination) unchecked;
   expect RecordCopy InPort (CallRecord destination) unchecked;
   expect InstallPointer InStore (CallPointer (ir_name request) destination) unchecked;
   expect CheckDestination InPort (CallObserve destination) (fun observed => incomplete (completion_faults observed));
   expect RecheckSource InSource (CallRecheck snapshot) unchecked;
   expect RecaptureConfiguration InPort (CallRecapture plan) (fun configuration =>
     if bool_decide (ir_mode request = Verbatim) || lock_recaptured configuration then None
     else Some (InIncomplete [LockNotRecaptured]));
   expect_poll PublishManifest;
   expect PublishManifest InPort (CallManifest plan) (fun receipt =>
     if marker_regenerated receipt then None else Some (InIncomplete [MarkerNotRegenerated]))].

Definition publication (request : InstallRequest) : Expect :=
  expect StepMarkReady InStore (CallApply (MarkReady (ir_name request) (ir_allocation request))) unchecked.

Definition script (request : InstallRequest) (snapshot : SourceSnapshot) : list Expect :=
  preparation request snapshot ++ [publication request].

(** A log follows a script: every call is the expected one; it stops at the
    first call that does not let it go on, with that call's error, or at the
    script's end. *)
Inductive follows : list Expect -> list Call -> option (InstallStep * InstallError) -> Prop :=
| follows_end : follows [] [] None
| follows_stop (e : Expect) s c error : e (Some error) c -> follows (e :: s) [c] (Some error)
| follows_go (e : Expect) s c log o : e None c -> follows s log o -> follows (e :: s) (c :: log) o.

(** What the code's progress holds after a call. *)
Definition progress_after (p : Progress) (c : Call) : Progress :=
  match c with
  | CallApply (Allocate _ _) (Ok _) => did RowAllocated p
  | CallApply (RecordError _ _) (Ok _) => did ErrorRecorded p
  | CallApply (MarkReady _ _) (Ok _) => did RowReady p
  | CallAllocate _ (Ok _) => did DestinationAllocated p
  | CallCopy _ (Ok report) => did TreeCopied (p <| pg_copy := Some report |>)
  | CallConstruct _ (Ok _) => did RepositoriesConstructed p
  | CallGit _ (Ok git) => did DestinationGitInstalled (p <| pg_git := Some git |>)
  | CallRecord _ (Ok receipt) => did CopyRecorded (p <| pg_record := Some receipt |>)
  | CallPointer _ _ (Ok _) => did PointerInstalled p
  | CallRecapture _ (Ok configuration) =>
      did ConfigurationInstalled (p <| pg_configuration := Some configuration |>)
  | CallManifest _ (Ok _) => did ManifestPublished p
  | _ => p
  end.

Definition progress_of (log : list Call) : Progress := foldl progress_after no_progress log.

Definition stopped {A} (r : result A (InstallStep * InstallError)) : option (InstallStep * InstallError) :=
  match r with Ok _ => None | Err error => Some error end.

Lemma follows_app s1 s2 l1 l2 o :
  follows s1 l1 None -> follows s2 l2 o -> follows (s1 ++ s2) (l1 ++ l2) o.
Proof.
  intros H1 H2. remember None as n eqn:En. induction H1 as [|e s c error He|e s c log o' He H IH]; cbn [app]; [done..|].
  apply follows_go; [done|by apply IH].
Qed.

Lemma follows_early s1 s2 l error : follows s1 l (Some error) -> follows (s1 ++ s2) l (Some error).
Proof.
  intros H. remember (Some error) as o eqn:Eo. induction H as [|e s c error' He|e s c log o He H IH]; cbn [app]; [done| |].
  - by apply follows_stop.
  - apply follows_go; [done|by apply IH].
Qed.

(** ** The sequence follows its script *)

Section sequence.
Context {W : Type} {FS : FamilySession W} {IP : InstallPorts W} {TC : TreeCopier W} {CN : Cancellation W}.

Abbreviation step_proc A := (proc (Installing W) A (InstallStep * InstallError)).

(** A procedure that makes the calls of a script, with the progress they mean. *)
Definition scripted {A} (s : list Expect) (m : step_proc A) : Prop := forall st st' r,
  m st = (st', r) -> exists log, in_log st' = in_log st ++ log /\ follows s log (stopped r) /\
    in_progress st' = foldl progress_after (in_progress st) log.

Lemma scripted_bind {A B} s1 s2 (m : step_proc A) (k : A -> step_proc B) :
  scripted s1 m -> (forall a, scripted s2 (k a)) -> scripted (s1 ++ s2) (let! a := m in k a).
Proof.
  intros H1 H2 st st' r [(e & Hm & ->)|(a & st1 & Hm & Hk)]%pbind_inv.
  - destruct (H1 _ _ _ Hm) as (log & E & Hf & Hp). exists log. split_and!; [done| |done]. by apply follows_early.
  - destruct (H1 _ _ _ Hm) as (l1 & E1 & Hf1 & Hp1). destruct (H2 _ _ _ _ Hk) as (l2 & E2 & Hf2 & Hp2).
    exists (l1 ++ l2). rewrite E2, E1, app_assoc, foldl_app, <- Hp1. split_and!; [done|by apply follows_app|done].
Qed.

Lemma scripted_then {A B} e s (m : step_proc A) (k : A -> step_proc B) :
  scripted [e] m -> (forall a, scripted s (k a)) -> scripted (e :: s) (let! a := m in k a).
Proof. apply (scripted_bind [e] s). Qed.

(** One call with what the code does right after it: noting the progress and
    looking at the answer. *)
Lemma scripted_attempt {A E B} step (wrap : E -> InstallError) op (event : result A E -> Call)
    (check : A -> option InstallError) (k : A -> step_proc B) :
  (forall e p, progress_after p (event (Err e)) = p) ->
  (forall a st st' r, k a st = (st', r) ->
     in_log st' = in_log st /\ in_progress st' = progress_after (in_progress st) (event (Ok a)) /\
     stopped r = (fun error => (step, error)) <$> check a) ->
  scripted [expect step wrap event check] (let! a := attempt step wrap op event in k a).
Proof.
  intros Hno Hk st st' r. unfold attempt, pbind, pmap_err, make_call.
  destruct (op (in_world st)) as [w [a|e]]; cbn [map_err].
  - intros (El & Ep & Er)%Hk. exists [event (Ok a)]. split_and!; [done| |done]. rewrite Er.
    destruct (check a) as [error|] eqn:Ec; cbn.
    + apply follows_stop. exists (Ok a). by rewrite Ec.
    + apply follows_go; [|apply follows_end]. exists (Ok a). by rewrite Ec.
  - intros [= <- <-]. exists [event (Err e)]. cbn. rewrite Hno. split_and!; [done| |done].
    apply follows_stop. by exists (Err e).
Qed.

(** The same for a call with nothing after it. *)
Lemma scripted_attempt_only {A E} step (wrap : E -> InstallError) op (event : result A E -> Call) :
  (forall r p, progress_after p (event r) = p) -> scripted [expect step wrap event unchecked] (attempt step wrap op event).
Proof.
  intros Hno st st' r. unfold attempt, pmap_err, make_call. destruct (op (in_world st)) as [w r0].
  intros [= <- <-]. exists [event r0]. cbn. rewrite Hno. split_and!; [done| |done]. destruct r0 as [a|e]; cbn.
  - apply follows_go; [|apply follows_end]. by exists (Ok a).
  - apply follows_stop. by exists (Err e).
Qed.

Lemma scripted_checkpoint step : scripted [expect_poll step] (checkpoint step).
Proof.
  intros st st' r. unfold checkpoint, make_call. destruct (is_cancelled (in_world st)) as [w b].
  intros [= <- <-]. exists [CallPoll b]. cbn. split_and!; [done| |done]. destruct b.
  - apply follows_stop. by exists true.
  - apply follows_go; [by exists false|apply follows_end].
Qed.

(** The note of progress after a call, which ends no step. *)
Ltac noted := by intros ? ? ? ? [= <- <-].

Lemma perform_scripted request snapshot : scripted (script request snapshot) (perform request snapshot).
Proof.
  unfold perform, script, preparation. cbn zeta. rewrite <- !app_assoc.
  apply (scripted_bind [_; _]).
  { unfold reserve. apply scripted_then; [apply scripted_checkpoint|intros _]. apply scripted_attempt; [done|noted]. }
  intros _. apply scripted_then; [apply scripted_attempt; [done|noted]|intros _].
  apply scripted_bind.
  { unfold build, copies_the_tree. destruct (ir_mode request);
      (apply scripted_then; [apply scripted_checkpoint|intros _; apply scripted_attempt; [done|noted]]). }
  intros _. apply scripted_then; [apply scripted_attempt; [done|noted]|intros _].
  apply scripted_then; [apply scripted_attempt; [done|noted]|intros _].
  apply scripted_then; [apply scripted_attempt; [done|noted]|intros _].
  apply scripted_then; [apply scripted_attempt; [done|]|intros _].
  { intros observed st st' r. destruct (completion_faults observed); by intros [= <- <-]. }
  apply scripted_then; [by apply scripted_attempt_only; intros []|intros _].
  apply scripted_then; [apply scripted_attempt; [done|]|intros _].
  { intros configuration st st' r. unfold pbind, progress.
    destruct (bool_decide (ir_mode request = Verbatim)), (lock_recaptured configuration); by intros [= <- <-]. }
  apply (scripted_bind [_; _] [_]).
  { unfold publish_last. apply scripted_then; [apply scripted_checkpoint|intros _]. apply scripted_attempt; [done|].
    intros receipt st st' r. unfold pbind, progress. destruct (marker_regenerated receipt); by intros [= <- <-]. }
  intros _. apply scripted_attempt; [done|noted].
Qed.

(** ** Admission *)

(** Every refusal that what was read decides. *)
Definition all_refusals (request : InstallRequest) (snapshot : result SourceSnapshot LayoutError)
    (observed : DestinationObservation) (current : option FamilyView) : list InstallRefusal :=
  match snapshot with Err error => [IrSourceLayout error] | Ok _ => [] end ++
  destination_refusals request observed ++ family_refusals request current ++
  match snapshot with Ok snapshot => source_refusals request snapshot | Err _ => [] end.

Definition read_snapshot (r : result SourceSnapshot LayoutError) : result SourceSnapshot InstallPortError :=
  map_err IpLayout r.

(** The calls of an admission and what it concludes from them. *)
Inductive admission (request : InstallRequest)
    : list Call -> result SourceSnapshot (InstallStep * InstallError) -> Prop :=
| admission_unread error :
    (forall layout, error <> IpLayout layout) ->
    admission request [CallSnapshot (ir_source request) (Err error)] (Err (InventorySource, InSource error))
| admission_unobserved snapshot error :
    admission request
      [CallSnapshot (ir_source request) (read_snapshot snapshot); CallObserve (ir_destination request) (Err error)]
      (Err (ObserveDestination, InPort error))
| admission_unindexed snapshot observed error :
    admission request
      [CallSnapshot (ir_source request) (read_snapshot snapshot); CallObserve (ir_destination request) (Ok observed);
       CallReread (Err error)]
      (Err (Reserve, InStore error))
| admission_decided snapshot observed current :
    admission request
      [CallSnapshot (ir_source request) (read_snapshot snapshot); CallObserve (ir_destination request) (Ok observed);
       CallReread (Ok current)]
      (let refusals := all_refusals request snapshot observed current in
       match snapshot with
       | Err _ => Err (InventorySource, InRefused refusals)
       | Ok snapshot => if bool_decide (length refusals = 0) then Ok snapshot else Err (Reserve, InRefused refusals)
       end).

Lemma admit_calls request st st' r :
  admit_request request st = (st', r) ->
  exists log, in_log st' = in_log st ++ log /\ admission request log r /\
    in_progress st' = in_progress st.
Proof.
  unfold admit_request, pcase, make_call.
  destruct (snapshot_source (ir_source request) (in_world st)) as [w r0]. 
  assert (Hgo : forall snapshot : result SourceSnapshot LayoutError, r0 = read_snapshot snapshot ->
    (let! observed := attempt ObserveDestination InPort (observe_destination (ir_destination request))
                       (CallObserve (ir_destination request)) in
     let! current := attempt Reserve InStore session_reread CallReread in
     match snapshot with
     | Err _ => pfail (InventorySource, InRefused (all_refusals request snapshot observed current))
     | Ok s => if bool_decide (length (all_refusals request snapshot observed current) = 0) then pret s
               else pfail (Reserve, InRefused (all_refusals request snapshot observed current))
     end) (mkInstalling w (in_progress st) (in_log st ++ [CallSnapshot (ir_source request) r0])) = (st', r) ->
    exists log, in_log st' = in_log st ++ log /\ admission request log r /\ in_progress st' = in_progress st).
  { intros snapshot ->. unfold attempt, pbind, pmap_err, make_call. cbn [in_world in_progress in_log].
    destruct (observe_destination _ w) as [w1 [observed|e]]; cbn [map_err in_world in_progress in_log].
    2: { intros [= <- <-]. eexists. rewrite <- app_assoc. split_and!; [done|apply admission_unobserved|done]. }
    destruct (session_reread w1) as [w2 [current|e]]; cbn [map_err in_world in_progress in_log].
    2: { intros [= <- <-]. eexists. rewrite <- !app_assoc. split_and!; [done|apply admission_unindexed|done]. }
    intros Hr. exists [CallSnapshot (ir_source request) (read_snapshot snapshot);
      CallObserve (ir_destination request) (Ok observed); CallReread (Ok current)].
    pose proof (admission_decided request snapshot observed current) as Ha. cbn zeta in Ha.
    destruct snapshot as [s|e]; [case_bool_decide|]; injection Hr as <- <-; cbn [in_log in_progress];
      rewrite <- !app_assoc; by split_and!. }
  destruct r0 as [s|[e| | | | |]].
  { by apply (Hgo (Ok s)). }
  { by apply (Hgo (Err e)). }
  all: intros [= <- <-]; eexists; split_and!; [done|by apply admission_unread|done].
Qed.

(** ** The whole installation *)

(** The calls up to the stop, if any: an admission that stops, or one that
    passes and then the script. *)
Inductive installation (request : InstallRequest) : list Call -> option (InstallStep * InstallError) -> Prop :=
| installation_unadmitted log error :
    admission request log (Err error) -> installation request log (Some error)
| installation_performed admitted snapshot log o :
    admission request admitted (Ok snapshot) -> follows (script request snapshot) log o ->
    installation request (admitted ++ log) o.

(** A place of the script whose call does not mark the row ready. *)
Definition not_ready (e : Expect) : Prop := forall o c p,
  e o c -> RowReady ∈ effects (progress_after p c) -> RowReady ∈ effects p.

Lemma stopped_not_ready front last log error p :
  Forall not_ready front -> (forall c p, last (Some error) c -> effects (progress_after p c) = effects p) ->
  follows (front ++ [last]) log (Some error) -> RowReady ∈ effects (foldl progress_after p log) -> RowReady ∈ effects p.
Proof.
  intros Hf Hl. revert log p. induction Hf as [|e front He Hf IH]; cbn [app]; intros log p HF.
  - inversion HF as [|? ? ? ? He|? ? ? ? ? ? HF']; subst; [|inversion HF'; congruence]. cbn. by rewrite (Hl _ _ He).
  - inversion HF as [|? ? ? ? H|? ? ? ? ? H HF']; subst; cbn [foldl]; [by apply (He _ _ _ H)|].
    intros Hr%IH; [|done]. by apply (He _ _ _ H).
Qed.

Lemma preparation_not_ready request snapshot : Forall not_ready (preparation request snapshot).
Proof.
  unfold preparation. cbn zeta. rewrite !Forall_app. destruct (ir_mode request); split_and!;
    repeat first [apply Forall_nil_2|apply Forall_cons_2]; intros o c p (r & -> & _); destruct r; cbn; set_solver.
Qed.

(** A stopped installation has not marked its row ready. *)
Lemma stopped_installation request log error :
  installation request log (Some error) -> RowReady ∉ effects (progress_of log).
Proof.
  intros H HR. unfold progress_of in HR. inversion H as [log' error' Ha|admitted snapshot log' o Ha HF]; subst.
  - destruct Ha; cbn in HR; set_solver.
  - rewrite foldl_app in HR. eapply stopped_not_ready in HR; [|apply preparation_not_ready| |exact HF].
    + assert (foldl progress_after no_progress admitted = no_progress) as E by (by inversion Ha). rewrite E in HR. set_solver.
    + intros c p (r & -> & E). by destruct r.
Qed.

Context (hazards_debug : list LayoutHazard -> str).

(** The diagnostic of a stop, and when it is written. *)
Definition diagnostic (request : InstallRequest) (failure : InstallFailure) : FamilyChange :=
  RecordError (ir_name request)
    (step_text (if_step failure) ++ lit ": " ++ install_error_text hazards_debug (if_error failure)).

Definition diagnosed (request : InstallRequest) (failure : InstallFailure) (log diagnostics : list Call) : Prop :=
  if bool_decide (RowAllocated ∈ effects (progress_of log))
  then exists r, diagnostics = [CallApply (diagnostic request failure) r] else diagnostics = [].

Lemma body_calls request w st r :
  (let! snapshot := admit_request request in perform request snapshot) (mkInstalling w no_progress []) = (st, r) ->
  installation request (in_log st) (stopped r) /\ in_progress st = progress_of (in_log st).
Proof.
  intros [(e & Ha & ->)|(snapshot & st1 & Ha & Hp)]%pbind_inv.
  - destruct (admit_calls _ _ _ _ Ha) as (log & El & HA & Ep). cbn in El, Ep. rewrite El, Ep. split.
    + by apply installation_unadmitted.
    + by inversion HA.
  - destruct (admit_calls _ _ _ _ Ha) as (l1 & E1 & HA & Ep1). cbn in E1, Ep1.
    destruct (perform_scripted _ _ _ _ _ Hp) as (l2 & E2 & HF & Ep2). rewrite E2, E1. split.
    + by eapply installation_performed.
    + rewrite Ep2, Ep1. unfold progress_of. rewrite foldl_app. f_equal. by inversion HA.
Qed.

Lemma install_calls request w st r :
  install hazards_debug request w = (st, r) ->
  exists log diagnostics, in_log st = log ++ diagnostics /\
    in_progress st = progress_of (log ++ diagnostics) /\
    match r with
    | Ok report => installation request log None /\ diagnostics = [] /\
        let p := progress_of log in
        report = mkInstallReport (pg_copy p) (pg_git p) (pg_record p) (pg_configuration p) (effects p)
    | Err failure => installation request log (Some (if_step failure, if_error failure)) /\
        diagnosed request failure log diagnostics /\
        if_effects failure = effects (progress_of (log ++ diagnostics))
    end.
Proof.
  unfold install. destruct (pbind _ _ _) as [st0 r0] eqn:E. apply body_calls in E as [HI Ep].
  destruct r0 as [u|[step error]]; cbn [stopped] in HI.
  { intros [= <- <-]. exists (in_log st0), []. rewrite app_nil_r, Ep. by split_and!. }
  unfold stop, diagnosed. rewrite !existsb_member, Ep, (bool_decide_false _ (stopped_installation _ _ _ HI)).
  cbn [negb]. rewrite andb_true_r. case_bool_decide as Ha.
  - unfold make_call. destruct (session_apply _ _) as [w' r'] eqn:Es. intros [= <- <-].
    set (c := RecordError _ _) in *. exists (in_log st0), [CallApply c r'].
    unfold progress_of. rewrite foldl_app. fold (progress_of (in_log st0)). cbn [foldl if_step if_error].
    rewrite bool_decide_true by done. rewrite <- Ep. destruct r'; cbn [is_ok in_progress in_log]; split_and!; try done; by eexists.
  - intros [= <- <-]. exists (in_log st0), []. rewrite app_nil_r, Ep. split_and!; try done. by rewrite bool_decide_false.
Qed.
End sequence.

(** ** What the effects can be *)

Definition all_effects (request : InstallRequest) : list InstallEffect :=
  [RowAllocated; DestinationAllocated;
   match ir_mode request with Verbatim => TreeCopied | Clean | BareMode => RepositoriesConstructed end;
   DestinationGitInstalled; CopyRecorded; PointerInstalled; ConfigurationInstalled; ManifestPublished; RowReady].

(** Takes a followed script apart, a call at a time. *)
Ltac follow H :=
  let c := fresh "c" in let He := fresh "He" in let Hf := fresh "Hf" in
  inversion H as [|? ? c ? He|? ? c ? ? He Hf]; subst; clear H;
  let r := fresh "r" in let Ec := fresh "Ec" in let Eo := fresh "Eo" in
  destruct He as (r & Ec & Eo); rewrite Ec; clear Ec; destruct r; cbn in Eo; try discriminate Eo;
  try follow Hf.

Lemma script_effects request snapshot log o :
  follows (script request snapshot) log o ->
  effects (progress_of log) `prefix_of` all_effects request /\ (o = None -> effects (progress_of log) = all_effects request).
Proof.
  unfold script, preparation, publication, all_effects. intros H.
  destruct (ir_mode request); cbn zeta in H; cbn [app] in H; follow H.
  all: try match goal with Hf : follows [] _ _ |- _ => inversion Hf; subst end.
  all: (split; [by eexists|first [by intros [=]|done]]).
Qed.

Lemma unadmitted_unreserved request log error : admission request log (Err error) -> effects (progress_of log) = [].
Proof. by inversion 1. Qed.

Lemma installation_effects request log o :
  installation request log o ->
  effects (progress_of log) `prefix_of` all_effects request /\ (o = None -> effects (progress_of log) = all_effects request).
Proof.
  intros [l error Ha|l1 snapshot l2 o' Ha HF%script_effects].
  - split; [|done]. apply unadmitted_unreserved in Ha as ->. apply prefix_nil.
  - assert (E2 : progress_of (l1 ++ l2) = progress_of l2); [|by rewrite E2].
    unfold progress_of. rewrite foldl_app. f_equal. by inversion Ha.
Qed.

Lemma diagnosed_effects hazards_debug request failure log diagnostics :
  diagnosed hazards_debug request failure log diagnostics ->
  effects (progress_of (log ++ diagnostics)) =
  effects (progress_of log) ++ match diagnostics with [CallApply _ (Ok _)] => [ErrorRecorded] | _ => [] end.
Proof.
  unfold diagnosed, progress_of. rewrite foldl_app. fold (progress_of log). intros H.
  case_bool_decide; [destruct H as [[] ->]|subst]; cbn; by rewrite ?app_nil_r.
Qed.

(** ** What admission decides *)

(** A request that may be reserved, by what was read of the source, the
    destination and the family. *)
Record may_install (request : InstallRequest) (snapshot : SourceSnapshot) (observed : DestinationObservation)
    (current : option FamilyView) : Prop := {
  mi_destination : do_nonempty observed = false /\ do_is_workspace observed = false;
  mi_name : forall view, current = Some view -> bt_get (view_members view) (ir_name request) = None;
  mi_path : forall view n row, current = Some view -> bt_get (view_members view) n = Some row ->
    member_path_wf (row_at row) /\ relate (ir_path request) (row_at row) = Disjoint;
  mi_allocation : forall view, current = Some view -> ir_allocation request <> root_allocation (view_root view) /\
    forall n row, n <> ir_name request -> bt_get (view_members view) n = Some row -> row_allocation row <> ir_allocation request;
  mi_remotes : forall repo, repo ∈ ss_repositories snapshot -> name_str (ir_name request) ∉ cr_remotes repo;
  mi_merge : ir_mode request = Verbatim -> ss_open_gwz_merge snapshot = None;
  mi_root : ir_mode request <> Verbatim -> exists repo, repo ∈ ss_repositories snapshot /\ cr_key repo = RepoRoot;
  mi_branch : forall branch, ir_branch request = Some branch -> ir_mode request <> Verbatim /\
    forall repo, repo ∈ ss_repositories snapshot -> branch ∉ cr_branches repo;
}.

Lemma captured_true snapshot key :
  captured snapshot key = true <-> exists repo, repo ∈ ss_repositories snapshot /\ cr_key repo = key.
Proof. unfold captured. rewrite existsb_elem. by setoid_rewrite bool_decide_eq_true. Qed.

Lemma bind_nil {A B} (l : list A) (f : A -> list B) : l ≫= f = [] <-> forall x, x ∈ l -> f x = [].
Proof.
  induction l as [|a l IH]; cbn; [set_solver|]. rewrite app_nil, IH. split.
  - intros [Ha Hl] x [->|Hx]%elem_of_cons; [done|by apply Hl].
  - intros Hx. split; [apply Hx|intros x Hl; apply Hx]; set_solver.
Qed.

Lemma remotes_free request snapshot :
  match check_name_free_of_remotes (ir_name request)
      (ss_repositories snapshot ≫= fun repo => (fun remote => (repo_key_text (cr_key repo), remote)) <$> cr_remotes repo) with
  | Ok _ => forall repo, repo ∈ ss_repositories snapshot -> name_str (ir_name request) ∉ cr_remotes repo
  | Err collision => exists repo, repo ∈ ss_repositories snapshot /\ name_str (ir_name request) ∈ cr_remotes repo /\
      collision = mkRemoteNameCollision (name_str (ir_name request)) (repo_key_text (cr_key repo))
  end.
Proof.
  pose proof (check_name_free_of_remotes_spec (ir_name request)
    (ss_repositories snapshot ≫= fun repo => (fun remote => (repo_key_text (cr_key repo), remote)) <$> cr_remotes repo)) as H.
  destruct (check_name_free_of_remotes _ _) as [u|[n m]].
  - intros repo Hr Hn. apply (H (repo_key_text (cr_key repo)) (name_str (ir_name request))); [|done].
    apply list_elem_of_bind. exists repo. split; [|done]. apply list_elem_of_fmap. eauto.
  - cbn in H. destruct H as [-> (repo & (remote & [= -> <-] & Hn)%list_elem_of_fmap & Hr)%list_elem_of_bind].
    by exists repo.
Qed.

(** The source decides nothing against the request exactly when its
    conditions hold. *)
Lemma source_refusals_none request snapshot :
  source_refusals request snapshot = [] <->
  (forall repo, repo ∈ ss_repositories snapshot -> name_str (ir_name request) ∉ cr_remotes repo) /\
  (ir_mode request = Verbatim -> ss_open_gwz_merge snapshot = None) /\
  (ir_mode request <> Verbatim -> exists repo, repo ∈ ss_repositories snapshot /\ cr_key repo = RepoRoot) /\
  (forall branch, ir_branch request = Some branch -> ir_mode request <> Verbatim /\
    forall repo, repo ∈ ss_repositories snapshot -> branch ∉ cr_branches repo).
Proof.
  unfold source_refusals. cbn zeta. rewrite !app_nil. unfold copies_the_tree. rewrite <- (captured_true snapshot RepoRoot).
  pose proof (remotes_free request snapshot) as HR. repeat apply Morphisms_Prop.and_iff_morphism.
  - destruct (check_name_free_of_remotes _ _); [done|]. destruct HR as (repo & Hr & Hn & _). naive_solver.
  - case_bool_decide; [|naive_solver]. destruct (ss_open_gwz_merge snapshot); naive_solver.
  - case_bool_decide; cbn; [naive_solver|]. destruct (captured snapshot RepoRoot); naive_solver.
  - destruct (ir_branch request) as [b|]; [|naive_solver]. case_bool_decide as E; [naive_solver|].
    rewrite bind_nil. setoid_rewrite existsb_member. split.
    + intros H branch [= <-]. split; [done|]. intros repo Hr Hb. specialize (H repo Hr). by rewrite bool_decide_true in H.
    + intros H repo Hr. destruct (H b eq_refl) as [_ Hb]. by rewrite bool_decide_false by (by apply Hb).
Qed.

Lemma family_refusals_none request current :
  family_refusals request current = [] <->
  forall view, current = Some view ->
    check_name_available view (ir_name request) = Ok tt /\ check_path_available view (ir_path request) = Ok tt /\
    check_allocation_available view (ir_name request) (ir_allocation request) = Ok tt.
Proof.
  destruct current as [view|]; [|naive_solver]. cbn. rewrite !app_nil. split.
  - intros (H1 & H2 & H3 & _) v [= <-].
    destruct (check_name_available _ _) as [[]|], (check_path_available _ _) as [[]|], (check_allocation_available _ _ _) as [[]|]; done.
  - intros H. destruct (H view eq_refl) as (-> & -> & ->). done.
Qed.

Lemma install_row_at request : row_at (install_row request) = ir_path request.
Proof. unfold row_at, install_row. cbn. by destruct (ir_path request). Qed.

Lemma nothing_refused request snapshot observed current :
  all_refusals request (Ok snapshot) observed current = [] <-> may_install request snapshot observed current.
Proof.
  unfold all_refusals, destination_refusals. cbn [app]. rewrite !app_nil, source_refusals_none, family_refusals_none.
  setoid_rewrite check_name_available_ok. setoid_rewrite check_path_available_ok. setoid_rewrite check_allocation_available_ok.
  split.
  - intros ([H1 H2] & Hf & Hr & Hm & Hc & Hb). split; [|intros view E|intros view n row E Hg|intros view E|exact Hr|exact Hm|exact Hc|exact Hb].
    + by destruct (do_nonempty observed), (do_is_workspace observed).
    + by destruct (Hf view E).
    + destruct (Hf view E) as (_ & Hp & _). by apply (Hp n).
    + by destruct (Hf view E) as (_ & _ & Ha).
  - intros [[-> ->] Hn Hp Ha Hr Hm Hc Hb]. split_and!; try done. intros view E.
    split_and!; [by apply Hn|intros n r; by apply Hp|by apply Ha..].
Qed.

(** What a refusal says, of what was read. *)
Definition refusal_true (request : InstallRequest) (snapshot : result SourceSnapshot LayoutError)
    (observed : DestinationObservation) (current : option FamilyView) (r : InstallRefusal) : Prop :=
  match r with
  | IrFamily refusal => exists view, current = Some view /\
      (check_name_available view (ir_name request) = Err refusal \/ check_path_available view (ir_path request) = Err refusal \/
       check_allocation_available view (ir_name request) (ir_allocation request) = Err refusal)
  | IrSourceLayout error => snapshot = Err error
  | IrNameIsRemote collision => exists s repo, snapshot = Ok s /\ repo ∈ ss_repositories s /\
      name_str (ir_name request) ∈ cr_remotes repo /\
      collision = mkRemoteNameCollision (name_str (ir_name request)) (repo_key_text (cr_key repo))
  | IrDestinationNotEmpty destination => destination = ir_destination request /\ do_nonempty observed = true
  | IrDestinationIsWorkspace destination => destination = ir_destination request /\ do_is_workspace observed = true
  | IrSourceOpenMerge detail => ir_mode request = Verbatim /\ exists s, snapshot = Ok s /\ ss_open_gwz_merge s = Some detail
  | IrRootNotCaptured => ir_mode request <> Verbatim /\ exists s, snapshot = Ok s /\
      forall repo, repo ∈ ss_repositories s -> cr_key repo <> RepoRoot
  | IrBranchExists branch member => ir_branch request = Some branch /\ exists s repo, snapshot = Ok s /\
      repo ∈ ss_repositories s /\ cr_key repo = member /\ branch ∈ cr_branches repo
  | IrBranchNotSupported branch mode => ir_branch request = Some branch /\ mode = ir_mode request /\ mode = Verbatim
  end.

Lemma source_refusals_true request snapshot observed current :
  Forall (refusal_true request (Ok snapshot) observed current) (source_refusals request snapshot).
Proof.
  unfold source_refusals. cbn zeta. pose proof (remotes_free request snapshot) as HR. rewrite !Forall_app. split_and!.
  - destruct (check_name_free_of_remotes _ _) as [u|e]; [constructor|]. destruct HR as (repo & Hr & Hn & ->).
    repeat constructor. by exists snapshot, repo.
  - case_bool_decide; [|constructor]. destruct (ss_open_gwz_merge snapshot) eqn:E; repeat constructor; [done|by exists snapshot].
  - unfold copies_the_tree. case_bool_decide as E; cbn [negb andb]; [constructor|].
    destruct (captured snapshot RepoRoot) eqn:Ec; cbn [negb]; repeat constructor; [done|]. exists snapshot. split; [done|].
    intros repo Hr Hk. assert (captured snapshot RepoRoot = true) by (apply captured_true; eauto). congruence.
  - destruct (ir_branch request) as [b|] eqn:Eb; [|constructor]. unfold copies_the_tree. case_bool_decide as E.
    { repeat constructor; done. }
    apply Forall_forall. intros r (repo & Hr & Hin)%list_elem_of_bind. rewrite existsb_member in Hr.
    case_bool_decide; [|by apply not_elem_of_nil in Hr]. apply list_elem_of_singleton in Hr as ->. split; [done|].
    by exists snapshot, repo.
Qed.

Lemma refusals_true request snapshot observed current :
  Forall (refusal_true request snapshot observed current) (all_refusals request snapshot observed current).
Proof.
  unfold all_refusals. rewrite !Forall_app. split_and!.
  - destruct snapshot; repeat constructor.
  - unfold destination_refusals. apply Forall_app. split;
      [destruct (do_nonempty observed) eqn:E|destruct (do_is_workspace observed) eqn:E]; repeat constructor; done.
  - destruct current as [view|]; cbn; [|constructor]. rewrite !Forall_app. split_and!; [| | |constructor].
    + destruct (check_name_available _ _) eqn:E; repeat constructor. exists view. tauto.
    + destruct (check_path_available _ _) eqn:E; repeat constructor. exists view. tauto.
    + destruct (check_allocation_available _ _ _) eqn:E; repeat constructor. exists view. tauto.
  - destruct snapshot as [s|]; [apply source_refusals_true|constructor].
Qed.

(** The refused outcome, and the three readings it rests on. *)
Definition refused_with_reasons {A} (r : result A InstallFailure) : option (list InstallRefusal) :=
  match r with Err (mkInstallFailure _ (InRefused refusals) _) => Some refusals | _ => None end.

Definition readings (request : InstallRequest) (snapshot : result SourceSnapshot LayoutError)
    (observed : DestinationObservation) (current : option FamilyView) : list Call :=
  [CallSnapshot (ir_source request) (read_snapshot snapshot); CallObserve (ir_destination request) (Ok observed);
   CallReread (Ok current)].

Lemma script_never_refuses request snapshot log step refusals :
  ~ follows (script request snapshot) log (Some (step, InRefused refusals)).
Proof.
  assert (HF : Forall (fun e : Expect => forall c, ~ e (Some (step, InRefused refusals)) c) (script request snapshot)).
  { unfold script, preparation, publication, incomplete. cbn zeta. destruct (ir_mode request); cbn [app];
      repeat first [apply Forall_nil_2|apply Forall_cons_2]; intros c (r & _ & E); destruct r; cbn in E; try discriminate E;
      repeat case_match; discriminate E. }
  intros H. remember (Some (step, InRefused refusals)) as o eqn:Eo.
  induction H as [|e s c error He|e s c l o He H IH]; [done| |]; inversion HF; subst; naive_solver.
Qed.

(** ** The index *)

(** What the ports and the copier promise of the family index: it is the
    session's alone to write, and installing a pointer does not touch it. *)
Class InstallLaws (W : Type) {FS : FamilySession W} {SL : SessionLaws W} {IP : InstallPorts W} {TC : TreeCopier W}
    {CN : Cancellation W} : Type := {
  snapshot_index : forall p w, stored (snapshot_source p w).1 = stored w;
  observe_index : forall p w, stored (observe_destination p w).1 = stored w;
  allocate_index : forall p w, stored (allocate_destination p w).1 = stored w;
  construct_index : forall q w, stored (construct_repositories q w).1 = stored w;
  git_index : forall p w, stored (install_destination_git p w).1 = stored w;
  record_index : forall p w, stored (record_copy p w).1 = stored w;
  recheck_index : forall s w, stored (recheck_source s w).1 = stored w;
  recapture_index : forall p w, stored (recapture_configuration p w).1 = stored w;
  manifest_index : forall p w, stored (publish_manifest p w).1 = stored w;
  copy_index : forall q w, stored (copy_tree q w).1 = stored w;
  poll_index : forall w, stored (is_cancelled w).1 = stored w;
  pointer_index : forall n p w, stored (session_install_pointer n p w).1 = stored w;
}.

(** What a call may make of the index, and what a log of calls may. *)
Definition index_move (v : option FamilyView) (c : Call) (v' : option FamilyView) : Prop :=
  match c with
  | CallApply change (Ok _) => changed_index v change v'
  | CallApply change (Err _) => v' = v \/ changed_index v change v'
  | _ => v' = v
  end.

Inductive index_moves : option FamilyView -> list Call -> option FamilyView -> Prop :=
| moves_none v : index_moves v [] v
| moves_call v c v1 log v' : index_move v c v1 -> index_moves v1 log v' -> index_moves v (c :: log) v'.

Lemma index_moves_app v l1 v1 l2 v' : index_moves v l1 v1 -> index_moves v1 l2 v' -> index_moves v (l1 ++ l2) v'.
Proof. induction 1; cbn; [done|]. intros. eapply moves_call; [done|auto]. Qed.

Lemma index_moves_split v l1 l2 v' : index_moves v (l1 ++ l2) v' -> exists v1, index_moves v l1 v1 /\ index_moves v1 l2 v'.
Proof.
  revert v. induction l1 as [|c l1 IH]; cbn; intros v H; [exists v; split; [constructor|done]|].
  inversion H as [|? ? v1 ? ? Hc Hl]; subst. destruct (IH _ Hl) as (v2 & H1 & H2). exists v2. split; [by eapply moves_call|done].
Qed.

Section index.
Context {W : Type} {FS : FamilySession W} {SL : SessionLaws W} {IP : InstallPorts W} {TC : TreeCopier W}
  {CN : Cancellation W} {IL : InstallLaws W}.

(** A procedure whose calls account for what it makes of the index. *)
Definition tracked {A} (m : Installing W -> Installing W * A) : Prop := forall st st' r, m st = (st', r) ->
  exists log, in_log st' = in_log st ++ log /\ index_moves (stored (in_world st)) log (stored (in_world st')).

Lemma tracked_call {A} (op : W -> W * A) event :
  (forall w w' a, op w = (w', a) -> index_move (stored w) (event a) (stored w')) -> tracked (make_call op event).
Proof.
  intros Hop st st' a. unfold make_call. destruct (op (in_world st)) as [w b] eqn:E. intros [= <- <-].
  exists [event b]. split; [done|]. eapply moves_call; [by apply Hop|constructor].
Qed.

Lemma tracked_same {A} (op : W -> W * A) event :
  (forall w, stored (op w).1 = stored w) -> (forall v a, index_move v (event a) v) -> tracked (make_call op event).
Proof.
  intros Hs He. apply tracked_call. intros w w' a E. specialize (Hs w). rewrite E in Hs. cbn in Hs. rewrite Hs. apply He.
Qed.

Lemma tracked_apply change : change_spelled change -> tracked (make_call (session_apply change) (CallApply change)).
Proof.
  intros Hc. apply tracked_call. intros w w' [a|e] E; cbn.
  - by apply (apply_accepts _ _ _ _ Hc E).
  - by apply (apply_fails _ _ _ _ Hc E).
Qed.

Lemma tracked_reread : tracked (make_call session_reread CallReread).
Proof. apply tracked_call. intros w w' r E. by destruct (reread_reports _ _ _ E). Qed.

Lemma tracked_bind {A B E} (m : proc (Installing W) A E) (k : A -> proc (Installing W) B E) :
  tracked m -> (forall a, tracked (k a)) -> tracked (let! a := m in k a).
Proof.
  intros H1 H2 st st' r [(e & Hm & ->)|(a & st1 & Hm & Hk)]%pbind_inv; [by apply H1 in Hm|].
  destruct (H1 _ _ _ Hm) as (l1 & E1 & M1). destruct (H2 _ _ _ _ Hk) as (l2 & E2 & M2).
  exists (l1 ++ l2). rewrite E2, E1, app_assoc. split; [done|by eapply index_moves_app].
Qed.

Lemma tracked_case {A B E F} (m : proc (Installing W) A E) (k : result A E -> proc (Installing W) B F) :
  tracked m -> (forall a, tracked (k a)) -> tracked (pcase m k).
Proof.
  intros H1 H2 st st' r (a & st1 & Hm & Hk)%pcase_inv.
  destruct (H1 _ _ _ Hm) as (l1 & E1 & M1). destruct (H2 _ _ _ _ Hk) as (l2 & E2 & M2).
  exists (l1 ++ l2). rewrite E2, E1, app_assoc. split; [done|by eapply index_moves_app].
Qed.

Lemma tracked_attempt {A E} step wrap (op : W -> W * result A E) event :
  tracked (make_call op event) -> tracked (attempt step wrap op event).
Proof. intros H st st' r (r0 & Hm & ->)%pmap_err_inv. by apply H in Hm. Qed.

Lemma tracked_pure {A E} (r : result A E) : tracked (plift r).
Proof. intros st st' r' [= <- <-]. exists []. rewrite app_nil_r. split; [done|constructor]. Qed.

Lemma tracked_progress f : tracked (progress f).
Proof. intros st st' r' [= <- <-]. exists []. rewrite app_nil_r. split; [done|constructor]. Qed.

Lemma tracked_checkpoint step : tracked (checkpoint step).
Proof using IL.
  assert (H : tracked (make_call is_cancelled CallPoll)) by (apply tracked_same; [apply poll_index|done]).
  intros st st' r. unfold checkpoint. destruct (make_call _ _ st) as [st1 b] eqn:E. intros [= <- <-]. by apply H in E.
Qed.

Ltac tracked_tac := repeat first
  [ apply tracked_bind; [|intros ?] | apply tracked_attempt | apply tracked_checkpoint | apply tracked_progress
  | apply (tracked_pure (Ok _)) | apply (tracked_pure (Err _)) | apply tracked_reread | apply tracked_apply
  | apply tracked_same; [|done] ].

Lemma admit_tracked request : tracked (admit_request request).
Proof using IL.
  unfold admit_request. apply tracked_case; [apply tracked_same; [apply snapshot_index|done]|].
  intros [s|[]]; tracked_tac; try apply observe_index. case_bool_decide; tracked_tac.
Qed.

Lemma perform_tracked request snapshot :
  change_spelled (Allocate (ir_name request) (install_row request)) -> tracked (perform request snapshot).
Proof using IL.
  intros Hs. unfold perform, reserve, allocate, build, install_git, record_copied, point, check_complete, recapture,
    publish_last, mark_ready. tracked_tac; try done.
  - apply allocate_index.
  - destruct (copies_the_tree request); tracked_tac; [apply copy_index|apply construct_index].
  - apply git_index.
  - apply record_index.
  - apply pointer_index.
  - apply observe_index.
  - case_bool_decide; tracked_tac.
  - apply recheck_index.
  - apply recapture_index.
  - case_match; tracked_tac.
  - apply manifest_index.
  - case_match; tracked_tac.
Qed.

Lemma install_tracked hazards_debug request w st r :
  change_spelled (Allocate (ir_name request) (install_row request)) ->
  install hazards_debug request w = (st, r) -> index_moves (stored w) (in_log st) (stored (in_world st)).
Proof using IL.
  intros Hs. unfold install. destruct (pbind _ _ _) as [st0 r0] eqn:E.
  assert (H0 : tracked (let! snapshot := admit_request request in perform request snapshot)).
  { apply tracked_bind; [apply admit_tracked|]. intros s. by apply perform_tracked. }
  destruct (H0 _ _ _ E) as (log & El & M). cbn in El, M. subst log. destruct r0 as [u|[step error]].
  { by intros [= <- _]. }
  unfold stop. case_match; [|by intros [= <- _]]. destruct (make_call _ _ st0) as [st1 r1] eqn:Ec.
  assert (Hd : index_moves (stored w) (in_log st1) (stored (in_world st1))).
  { apply tracked_apply in Ec as (log & -> & M'); [|done]. by eapply index_moves_app. }
  intros [= <- _]. by destruct (is_ok r1).
Qed.
End index.

(** The calls that change the index, of a log. *)
Definition is_apply (c : Call) : bool := match c with CallApply _ _ => true | _ => false end.

Definition applies (log : list Call) : list Call := filter (fun c => is_apply c = true) log.

Lemma moves_applies v log v' : index_moves v log v' -> index_moves v (applies log) v'.
Proof.
  induction 1 as [v|v c v1 log v' Hc Hl IH]; [constructor|]. unfold applies. rewrite filter_cons.
  case_decide as E; [by eapply moves_call|]. assert (v1 = v) as -> by (by destruct c). exact IH.
Qed.

(** How far the index was taken: not at all, to a reservation that failed,
    to the reservation, or to the publication. *)
Inductive reached (request : InstallRequest) (log : list Call) : option (InstallStep * InstallError) -> Prop :=
| reached_nothing error : applies log = [] -> RowAllocated ∉ effects (progress_of log) -> reached request log (Some error)
| reached_failed_reservation e error :
    applies log = [CallApply (Allocate (ir_name request) (install_row request)) (Err e)] ->
    RowAllocated ∉ effects (progress_of log) -> reached request log (Some error)
| reached_reservation a error :
    applies log = [CallApply (Allocate (ir_name request) (install_row request)) (Ok a)] ->
    RowAllocated ∈ effects (progress_of log) -> reached request log (Some error)
| reached_publication a r o :
    applies log = [CallApply (Allocate (ir_name request) (install_row request)) (Ok a);
                   CallApply (MarkReady (ir_name request) (ir_allocation request)) r] ->
    RowAllocated ∈ effects (progress_of log) ->
    o = match r with Ok _ => None | Err e => Some (StepMarkReady, InStore e) end -> reached request log o.

Lemma script_reached request snapshot log o : follows (script request snapshot) log o -> reached request log o.
Proof.
  unfold script, preparation, publication. intros H.
  destruct (ir_mode request); cbn zeta in H; cbn [app] in H; follow H.
  all: try match goal with Hf : follows [] _ _ |- _ => inversion Hf; subst end.
  all: first
    [ by eapply reached_publication; [reflexivity|cbn; set_solver|]
    | by eapply reached_reservation; [reflexivity|cbn; set_solver]
    | by eapply reached_failed_reservation; [reflexivity|cbn; set_solver]
    | by eapply reached_nothing; [reflexivity|cbn; set_solver] ].
Qed.

Lemma installation_reached request log o : installation request log o -> reached request log o.
Proof.
  intros [l error Ha|l1 snapshot l2 o' Ha HF%script_reached].
  - apply reached_nothing; [by inversion Ha|]. inversion Ha; cbn; set_solver.
  - assert (E1 : applies l1 = []) by (by inversion Ha).
    assert (E2 : progress_of (l1 ++ l2) = progress_of l2).
    { unfold progress_of. rewrite foldl_app. f_equal. by inversion Ha. }
    assert (E3 : applies (l1 ++ l2) = applies l2) by (unfold applies in *; by rewrite filter_app, E1).
    destruct HF as [error E Hn|e error E Hn|a error E Hn|a r o2 E Hn Eo].
    + apply reached_nothing; congruence.
    + eapply reached_failed_reservation; [by rewrite E3|congruence].
    + eapply reached_reservation; [by rewrite E3|congruence].
    + eapply reached_publication; [by rewrite E3|congruence|done].
Qed.

(** The row's forms: reserved, with a diagnostic, ready. *)
Definition ready_row (request : InstallRequest) : MemberRow := set_last_error (set_state (install_row request) Ready) None.

(** The index [v] with the request's row in it, which it did not have. *)
Definition joined (request : InstallRequest) (v v' : option FamilyView) (row : MemberRow) : Prop :=
  exists view view', v = Some view /\ v' = Some view' /\ admissible view (ir_name request) (install_row request) /\
    updates view view' (ir_name request) (Some row).

Lemma updates_again v v1 v' name row row' :
  updates v v1 name (Some row) -> updates v1 v' name (Some row') -> updates v v' name (Some row').
Proof.
  intros (H1 & H2 & H3 & H4) (K1 & K2 & K3 & K4). split_and!; [congruence..|done|]. intros n Hn. by rewrite K4, H4.
Qed.

Lemma reservation_joins request v v' :
  (forall view, v = Some view -> view_wf view) ->
  changed_index v (Allocate (ir_name request) (install_row request)) v' -> joined request v v' (install_row request).
Proof.
  intros Hw. destruct v as [view|]; [|by intros [? _]]. intros (vc & [_ Hs]%accepted_step & ->); [|by apply Hw].
  inversion Hs as [? ? ? Had Hu| | | | |]; subst. by exists view, (vc_next vc).
Qed.

(** A later change of the row, from the reserved form. *)
Lemma row_moves request v v1 v' c row :
  (forall view, v = Some view -> view_wf view) -> joined request v v1 (install_row request) ->
  (forall view view', family_step view c view' -> bt_get (view_members view) (ir_name request) = Some (install_row request) ->
     updates view view' (ir_name request) (Some row) /\ c <> Disband) ->
  changed_index v1 c v' -> joined request v v' row.
Proof.
  intros Hw (view & view1 & -> & -> & Had & Hu) Hc (vc & Hv & E).
  assert (W1 : view_wf view1) by (eapply family_step_wf; [by apply Hw|by apply step_allocate]).
  apply accepted_step in Hv as [_ Hs]; [|done].
  destruct (Hc _ _ Hs) as [Hu' Hd]; [by apply Hu|]. exists view, (vc_next vc). split_and!; [done| |done|by eapply updates_again].
  by destruct c.
Qed.

Lemma diagnosis_joins request v v1 v' text :
  (forall view, v = Some view -> view_wf view) -> joined request v v1 (install_row request) ->
  changed_index v1 (RecordError (ir_name request) text) v' -> joined request v v' (set_last_error (install_row request) (Some text)).
Proof.
  intros Hw Hj. apply row_moves; [done..|]. intros view view' Hs Hg. inversion Hs; subst. split; [|done]. congruence.
Qed.

Lemma publication_joins request v v1 v' a :
  (forall view, v = Some view -> view_wf view) -> joined request v v1 (install_row request) ->
  changed_index v1 (MarkReady (ir_name request) a) v' -> joined request v v' (ready_row request).
Proof.
  intros Hw Hj. apply row_moves; [done..|]. intros view view' Hs Hg. inversion Hs; subst. split; [|done]. unfold ready_row. congruence.
Qed.

Lemma ready_not_diagnosed request v v1 v' text :
  (forall view, v = Some view -> view_wf view) -> joined request v v1 (ready_row request) ->
  (forall view, v1 = Some view -> view_wf view) -> ~ changed_index v1 (RecordError (ir_name request) text) v'.
Proof.
  intros Hw (view & view1 & -> & -> & _ & Hu) Hw1 (vc & [_ Hs]%accepted_step & _); [|by apply Hw1].
  inversion Hs as [|? row ? ? Hg Hst| | | |]; subst. destruct Hu as (_ & _ & Hg' & _). rewrite Hg in Hg'.
  injection Hg' as ->. done.
Qed.

(** Where a stopped installation can leave the index. *)
Definition left_behind (request : InstallRequest) (step : InstallStep) (text : str) (v v' : option FamilyView) : Prop :=
  v' = v \/ joined request v v' (install_row request) \/
  joined request v v' (set_last_error (install_row request) (Some text)) \/
  (step = StepMarkReady /\ joined request v v' (ready_row request)).

Section outcome.
Context (request : InstallRequest) (v v' : option FamilyView).
Hypothesis all_wf : forall log v1, index_moves v log v1 -> forall view, v1 = Some view -> view_wf view.

#[local] Set Default Proof Using "all_wf".

Lemma start_wf view : v = Some view -> view_wf view.
Proof. apply (all_wf [] v). constructor. Qed.

(** From the reserved row, a diagnostic or none. *)
Lemma diagnosed_left v1 step text diagnostics :
  joined request v v1 (install_row request) ->
  (diagnostics = [] \/ exists r, diagnostics = [CallApply (RecordError (ir_name request) text) r]) ->
  index_moves v1 diagnostics v' -> left_behind request step text v v'.
Proof.
  intros Hj [->|[r ->]] HM.
  - inversion HM; subst. right. by left.
  - inversion HM as [|? ? v2 ? ? Hc HN]; subst. inversion HN; subst. destruct r; cbn in Hc; [|destruct Hc as [->|Hc]].
    + right. right. left. eapply diagnosis_joins; [apply start_wf|exact Hj|exact Hc].
    + right. by left.
    + right. right. left. eapply diagnosis_joins; [apply start_wf|exact Hj|exact Hc].
Qed.

Lemma publication_left (log : list Call) v1 text diagnostics :
  index_moves v log v1 -> joined request v v1 (ready_row request) ->
  (diagnostics = [] \/ exists r, diagnostics = [CallApply (RecordError (ir_name request) text) r]) ->
  index_moves v1 diagnostics v' -> left_behind request StepMarkReady text v v'.
Proof.
  intros HL Hj [->|[r ->]] HM.
  - inversion HM; subst. right. right. by right.
  - inversion HM as [|? ? v2 ? ? Hc HN]; subst. inversion HN; subst.
    assert (Hn : ~ changed_index v1 (RecordError (ir_name request) text) v').
    { eapply ready_not_diagnosed; [apply start_wf|exact Hj|by eapply all_wf]. }
    destruct r; cbn in Hc; [done|destruct Hc as [->|Hc]; [|done]]. right. right. by right.
Qed.

Lemma outcome_ok log diagnostics :
  reached request log None -> index_moves v (log ++ diagnostics) v' -> diagnostics = [] ->
  joined request v v' (ready_row request).
Proof.
  intros HR HM ->. rewrite app_nil_r in HM. apply moves_applies in HM.
  inversion HR as [| | |a r o E _ Eo]; subst. rewrite E in HM. destruct r as [a2|]; [|done].
  inversion HM as [|? ? v1 ? ? Hc1 HM1]; subst. inversion HM1 as [|? ? v2 ? ? Hc2 HM2]; subst. inversion HM2; subst.
  eapply publication_joins; [apply start_wf| |exact Hc2]. eapply reservation_joins; [apply start_wf|exact Hc1].
Qed.

Lemma outcome_err log diagnostics step error text :
  reached request log (Some (step, error)) -> index_moves v (log ++ diagnostics) v' ->
  (if bool_decide (RowAllocated ∈ effects (progress_of log))
   then exists r, diagnostics = [CallApply (RecordError (ir_name request) text) r] else diagnostics = []) ->
  left_behind request step text v v'.
Proof.
  intros HR (v1 & HM%moves_applies & HD)%index_moves_split Hd.
  inversion HR as [err E Hn|e err E Hn|a err E Hn|a r o E Hn Eo]; subst; rewrite E in HM.
  - rewrite bool_decide_false in Hd by done. subst. inversion HM; subst. inversion HD; subst. by left.
  - rewrite bool_decide_false in Hd by done. subst. inversion HM as [|? ? v2 ? ? Hc HN]; subst. inversion HN; subst.
    inversion HD; subst. destruct Hc as [->|Hc]; [by left|]. right. left. by eapply reservation_joins; [apply start_wf|].
  - rewrite bool_decide_true in Hd by done. inversion HM as [|? ? v2 ? ? Hc HN]; subst. inversion HN; subst.
    eapply diagnosed_left; [by eapply reservation_joins; [apply start_wf|]|by right|done].
  - rewrite bool_decide_true in Hd by done. destruct r as [|e]; [done|]. injection Eo as -> ->.
    pose proof HM as HM0. inversion HM as [|? ? v2 ? ? Hc1 HM1]; subst. inversion HM1 as [|? ? v3 ? ? Hc2 HM2]; subst. inversion HM2; subst.
    assert (Hj : joined request v v2 (install_row request)) by (by eapply reservation_joins; [apply start_wf|]).
    destruct Hc2 as [->|Hc2]; [by eapply diagnosed_left; [exact Hj|right|]|].
    eapply publication_left; [exact HM0|by eapply publication_joins; [apply start_wf|exact Hj|exact Hc2]|by right|done].
Qed.

End outcome.

Section installed.
Context {W : Type} {FS : FamilySession W} {SL : SessionLaws W} {IP : InstallPorts W} {TC : TreeCopier W}
  {CN : Cancellation W} {IL : InstallLaws W}.

Lemma moves_wf (w : W) log v1 : index_moves (stored w) log v1 -> forall view, v1 = Some view -> view_wf view.
Proof.
  intros H. assert (H0 : forall view, stored w = Some view -> view_wf view) by (intros view; apply stored_valid).
  revert H0. generalize (stored w) H. clear. intros v. induction 1 as [v|v c v1 log v' Hc Hl IH]; [done|].
  intros H0. apply IH. assert (HC : forall ch, changed_index v ch v1 -> forall view, v1 = Some view -> view_wf view).
  { intros ch. destruct v as [view0|]; [|by intros [_ ->]]. intros (vc & [_ Hs]%accepted_step & ->) view E; [|by apply H0].
    assert (vc_next vc = view) as <- by (destruct ch; congruence). eapply family_step_wf; [by apply H0|done]. }
  destruct c as [| | | |change [a|e]| | | | | | | | |]; cbn in Hc; try (by subst); [by eapply HC|].
  destruct Hc as [->|Hc]; [done|by eapply HC].
Qed.

Lemma install_outcome hazards_debug request (w : W) st r :
  change_spelled (Allocate (ir_name request) (install_row request)) -> install hazards_debug request w = (st, r) ->
  match r with
  | Ok _ => joined request (stored w) (stored (in_world st)) (ready_row request)
  | Err failure => left_behind request (if_step failure)
      (step_text (if_step failure) ++ lit ": " ++ install_error_text hazards_debug (if_error failure))
      (stored w) (stored (in_world st))
  end.
Proof using IL.
  intros Hs Hi. pose proof (install_tracked _ _ _ _ _ Hs Hi) as HM.
  destruct (install_calls _ _ _ _ _ Hi) as (log & diagnostics & El & _ & Hr). rewrite El in HM.
  destruct r as [report|failure].
  - destruct Hr as (HI%installation_reached & Hd & _). eapply outcome_ok; [apply moves_wf|done..].
  - destruct Hr as (HI%installation_reached & Hd & _). eapply outcome_err; [apply moves_wf|exact HI|exact HM|exact Hd].
Qed.
End installed.

(** A refusal comes from admission, and the readings decide it. *)
Lemma admission_readings request log o snapshot observed current k :
  admission request log o -> log = readings request snapshot observed current ++ k ->
  k = [] /\ o = let refusals := all_refusals request snapshot observed current in
    match snapshot with
    | Err _ => Err (InventorySource, InRefused refusals)
    | Ok s => if bool_decide (length refusals = 0) then Ok s else Err (Reserve, InRefused refusals)
    end.
Proof.
  unfold readings. cbn [app]. intros [error Hl|s error|s obs error|s obs cur] E; try discriminate E.
  injection E as E1 -> -> <-. assert (s = snapshot) as -> by (destruct s, snapshot; cbn in E1; congruence). done.
Qed.

Lemma refusals_nonempty request snapshot observed current o :
  (let refusals := all_refusals request snapshot observed current in
   match snapshot with
   | Err _ => Err (InventorySource, InRefused refusals)
   | Ok s => if bool_decide (length refusals = 0) then Ok s else Err (Reserve, InRefused refusals)
   end) = Err o -> o.2 = InRefused (all_refusals request snapshot observed current) /\
     all_refusals request snapshot observed current <> [].
Proof.
  cbn zeta. destruct snapshot as [s|e]; [case_bool_decide as E; [done|]|]; intros [= <-]; (split; [done|]); [|done].
  intros H. by rewrite H in E.
Qed.

Lemma admission_refused request log step refusals :
  admission request log (Err (step, InRefused refusals)) -> exists snapshot observed current,
    log = readings request snapshot observed current /\ refusals = all_refusals request snapshot observed current /\
    all_refusals request snapshot observed current <> [].
Proof.
  intros H. remember (Err (step, InRefused refusals)) as o eqn:Eo. destruct H as [error Hl|s error|s obs error|s obs cur]; try done.
  apply refusals_nonempty in Eo as [[= ->] HN]. by exists s, obs, cur.
Qed.

Section decided.
Context {W : Type} {FS : FamilySession W} {IP : InstallPorts W} {TC : TreeCopier W} {CN : Cancellation W}.
Context (hazards_debug : list LayoutHazard -> str).

Lemma install_decided request (w : W) st r snapshot observed current :
  install hazards_debug request w = (st, r) -> readings request snapshot observed current `prefix_of` in_log st ->
  refused_with_reasons r = None <->
  match snapshot with Ok s => may_install request s observed current | Err _ => False end.
Proof.
  intros (log & diagnostics & El & _ & Hr)%install_calls [k Ek]. rewrite El in Ek.
  assert (HM : forall s, snapshot = Ok s -> may_install request s observed current <->
    all_refusals request snapshot observed current = []) by (intros s ->; symmetry; apply nothing_refused).
  assert (HA : forall log' k' o, admission request log' o -> log' = readings request snapshot observed current ++ k' ->
    stopped o = None -> match snapshot with Ok s => may_install request s observed current | Err _ => False end).
  { intros log' k' o Ha E Ho. destruct (admission_readings _ _ _ _ _ _ _ Ha E) as [_ ->]. destruct snapshot as [s|]; [|done].
    cbn in Ho. case_bool_decide as Hl; [|done]. apply HM; [done|]. by apply nil_length_inv. }
  assert (HP : forall admitted s l, admission request admitted (Ok s) -> log = admitted ++ l ->
    exists k', admitted = readings request snapshot observed current ++ k').
  { intros admitted s l Ha E. exists []. rewrite app_nil_r. inversion Ha as [| | |s' obs cur E1 E2]; subst.
    unfold readings in Ek. cbn in Ek. injection Ek as E3 -> -> _. rewrite E3. done. }
  destruct r as [report|failure].
  - destruct Hr as (HI & -> & _). inversion HI as [|admitted s l o Ha HF]; subst. split; [intros _|done].
    destruct (HP _ _ _ Ha eq_refl) as [k' E]. by eapply HA.
  - destruct Hr as (HI & Hd & _). inversion HI as [l error Ha|admitted s l o Ha HF]; subst.
    + unfold diagnosed in Hd. rewrite (unadmitted_unreserved _ _ _ Ha), bool_decide_false in Hd by set_solver.
      subst. rewrite app_nil_r in Ek. destruct (admission_readings _ _ _ _ _ _ _ Ha Ek) as [_ E].
      symmetry in E. apply refusals_nonempty in E as [E HN]. cbn in E. destruct failure as [step error eff]. cbn in E. subst. cbn.
      split; [done|]. destruct snapshot; [|done]. intros HI'%HM; [done|done].
    + destruct (HP _ _ _ Ha eq_refl) as [k' E]. split; [intros _; by eapply HA|]. intros _.
      destruct failure as [step [] eff]; try done. cbn in HF. by apply script_never_refuses in HF.
Qed.

Lemma install_refused request (w : W) st r refusals :
  install hazards_debug request w = (st, r) -> refused_with_reasons r = Some refusals ->
  exists snapshot observed current, in_log st = readings request snapshot observed current /\ in_progress st = no_progress /\
    refusals <> [] /\ Forall (refusal_true request snapshot observed current) refusals.
Proof.
  intros (log & diagnostics & El & Ep & Hr)%install_calls Hf. destruct r as [|[step [] eff]]; try done.
  cbn in Hf. injection Hf as ->. destruct Hr as (HI & Hd & _). cbn in HI.
  inversion HI as [l error Ha|admitted s l o Ha HF]; subst; [|by apply script_never_refuses in HF].
  unfold diagnosed in Hd. rewrite (unadmitted_unreserved _ _ _ Ha), bool_decide_false in Hd by set_solver. subst diagnostics.
  rewrite app_nil_r in El, Ep. destruct (admission_refused _ _ _ _ Ha) as (s & obs & cur & -> & -> & HN).
  exists s, obs, cur. rewrite El, Ep. split_and!; [done..|apply refusals_true].
Qed.
End decided.

(** ** A small installation *)

Definition demo_snapshot : SourceSnapshot := {|
  ss_repositories := [mkCapturedRepository RepoRoot
    {| info_path := lit "/home/u/ws"; info_git_dir := lit "/home/u/ws/.git"; info_common_dir := lit "/home/u/ws/.git";
       info_bare := false; info_object_format := Sha1; info_head := Unborn (lit "main") |} None [lit "main"] [lit "origin"]];
  ss_configuration_digest := lit "d";
  ss_open_gwz_merge := None;
|}.

(** The destination is complete once the row stands. *)
#[local] Instance demo_install_ports : InstallPorts DemoWorld := {|
  snapshot_source := fun _ w => (w, Ok demo_snapshot);
  observe_destination := fun _ w =>
    (w, Ok (if bool_decide (bt_get (view_members (demo_index w)) (demo_name "C") = None) then absent_destination
            else complete_destination));
  allocate_destination := fun _ w => (w, Ok tt);
  construct_repositories := fun _ w => (w, Ok tt);
  install_destination_git := fun _ w => (w, Ok (mkGitInstallReport []));
  record_copy := fun _ w => (w, Ok (mkCopyRecordReceipt 1 0 0));
  recheck_source := fun _ w => (w, Ok tt);
  recapture_configuration := fun _ w => (w, Ok (mkConfigurationReport true []));
  publish_manifest := fun _ w => (w, Ok (mkManifestReceipt true));
|}.

#[local] Instance demo_copier : TreeCopier DemoWorld :=
  {| copy_tree := fun q w => (w, Err (copy_refused (cq_source q) CopyUnimplemented (lit "no copier"))) |}.
#[local] Instance demo_never_cancelled : Cancellation DemoWorld := {| is_cancelled := fun w => (w, false) |}.

#[local] Instance demo_install_laws : InstallLaws DemoWorld.
Proof. by split. Qed.

Definition demo_install (mode : CloneMode) : InstallRequest := {|
  ir_name := demo_name "C"; ir_root := lit "/home/u/ws"; ir_source := lit "/home/u/ws"; ir_destination := lit "/home/u/ws-C";
  ir_path := mkMemberPath (lit "../ws-C"); ir_source_path := None; ir_allocation := mkAllocationId (lit "c1");
  ir_mode := mode; ir_branch := Some (lit "topic"); ir_exclusions := []; ir_copy_mode := Auto; ir_owner := None |}.

(** ** Claims *)


(** C34: admission refuses for exactly the stated reasons, before anything is
    written.  Once the source, the destination and the family were read, a
    run is refused exactly when the source's layout is unsupported or some
    condition of [may_install] fails (an occupied destination, a taken name,
    an overlapping path, a used allocation, a remote of that name, an open
    merge, a missing root, a branch that exists or a mode without branches);
    a refused run made only those three readings, has no effects, gives at
    least one refusal, and every refusal it gives is true of what was read. *)
Theorem admission_exact {W : Type} {FS : FamilySession W} {IP : InstallPorts W} {TC : TreeCopier W} {CN : Cancellation W}
    (hazards_debug : list LayoutHazard -> str) (request : InstallRequest) (w : W) :
  let '(st, r) := install hazards_debug request w in
  (forall snapshot observed current, readings request snapshot observed current `prefix_of` in_log st ->
     refused_with_reasons r = None <->
     match snapshot with Ok s => may_install request s observed current | Err _ => False end) /\
  (forall refusals, refused_with_reasons r = Some refusals -> exists snapshot observed current,
     in_log st = readings request snapshot observed current /\ in_progress st = no_progress /\ refusals <> [] /\
     Forall (refusal_true request snapshot observed current) refusals).
Proof.
  destruct (install hazards_debug request w) as [st r] eqn:E. split.
  - intros snapshot observed current. by apply (install_decided _ _ _ _ _ _ _ _ E).
  - intros refusals. by apply (install_refused _ _ _ _ _ _ E).
Qed.

(** Admission and the store agree.  On a valid index and a request whose
    row is well formed, admission has nothing against the family exactly when
    the model accepts the reservation the installation then asks of the
    store; so an admitted request is refused by the store only if the index
    changed in between. *)
Theorem admission_anticipates_store (request : InstallRequest) (view : FamilyView) :
  view_wf view -> row_wf (install_row request) ->
  family_refusals request (Some view) = [] <->
  exists vc, validate_transition view (Allocate (ir_name request) (install_row request)) = Ok vc.
Proof.
  intros Hw Hr. rewrite family_refusals_none. split.
  - intros H. destruct (H view eq_refl) as (Hn & Hp & Ha). eexists. apply step_accepted; [done|].
    apply step_allocate; [|by apply updates_insert]. apply allocate_checks; [done..|]. exists (row_at (install_row request)).
    split_and!; [by apply validate_row_path_ok; destruct Hr|by apply validate_source_path_ok; destruct Hr|done| |done].
    by rewrite install_row_at.
  - intros (vc & [_ Hs]%accepted_step) v [= <-]; [|done]. inversion Hs as [? ? ? Had _| | | | |]; subst.
    apply allocate_checks in Had as (p & [-> _]%validate_row_path_ok & _ & Hn & Hp & Ha); [|done..].
    split_and!; [done| |done]. by rewrite <- install_row_at.
Qed.

Lemma admission_anticipates_store_witness :
  family_refusals (demo_install Clean) (Some (demo_index demo_world)) = [] /\
  exists vc, validate_transition (demo_index demo_world) (Allocate (demo_name "C") (install_row (demo_install Clean))) = Ok vc.
Proof.
  assert (H : family_refusals (demo_install Clean) (Some (demo_index demo_world)) = []) by (vm_compute; reflexivity).
  split; [exact H|]. refine (proj1 (admission_anticipates_store (demo_install Clean) (demo_index demo_world) _ _) H).
  - apply history_wf.
  - split; [|left; reflexivity]. apply (validate_path_wf (lit "../ws-C")). vm_compute. reflexivity.
Defined.

(** C13: what an installation leaves in the index.  Over a session and ports
    that keep their contract, a success leaves the index it found with one
    row added, the request's own, ready; a failure leaves the index as it
    was, or that one row still [creating], with the step and the error it
    stopped at as its diagnostic or none, and only where marking the row
    ready itself failed after its write, the ready row. *)
Theorem install_index {W : Type} {FS : FamilySession W} {SL : SessionLaws W} {IP : InstallPorts W} {TC : TreeCopier W}
    {CN : Cancellation W} {IL : InstallLaws W} (hazards_debug : list LayoutHazard -> str) (request : InstallRequest) (w : W) :
  change_spelled (Allocate (ir_name request) (install_row request)) ->
  let '(st, r) := install hazards_debug request w in
  match r with
  | Ok _ => joined request (stored w) (stored (in_world st)) (ready_row request)
  | Err failure => left_behind request (if_step failure)
      (step_text (if_step failure) ++ lit ": " ++ install_error_text hazards_debug (if_error failure))
      (stored w) (stored (in_world st))
  end.
Proof. intros Hs. destruct (install hazards_debug request w) as [st r] eqn:E. by apply (install_outcome _ _ _ _ _ Hs E). Qed.

Lemma install_index_witness :
  let run := install (fun _ => []) (demo_install Clean) demo_world in
  is_ok run.2 = true /\
  joined (demo_install Clean) (stored demo_world) (stored (in_world run.1)) (ready_row (demo_install Clean)).
Proof.
  intros run. assert (H : is_ok run.2 = true) by (vm_compute; reflexivity). split; [exact H|].
  assert (Hs : change_spelled (Allocate (demo_name "C") (install_row (demo_install Clean)))).
  { split; [vm_compute; reflexivity|]. split; [vm_compute; reflexivity|done]. }
  pose proof (install_index (fun _ => []) (demo_install Clean) demo_world Hs) as HI. fold run in HI.
  destruct run as [st [report|failure]]; [exact HI|discriminate H].
Defined.
