(* ===== verification/LocalDisposal.v ===== *)
(** Keeping or removing one family member (src/crates/local-disposal/src):
    the waiver vocabulary, the request, the ports, the validation of the
    target, the inspection of the evidence and the ordered sequence [dispose]
    runs.  The session and the ports are interfaces over one shared state, so
    the theorems hold of every store, every observer and every remover.  The
    procedures carry, beside that state and the [effects] vector, a log of
    the calls they make: it stands for nothing in the code and only lets the
    theorems speak of what was called, with what answer and in which order. *)

From S2P Require Export FamilyStoreContract WorkDetector.

#[local] Set Default Proof Using "Type".

(** ** The hazard vocabulary (hazard.rs) *)

Inductive HazardWaiver : Type := OpenMerge | Dirty | UnpreservedHistory.

#[global] Instance HazardWaiver_eq_dec : EqDecision HazardWaiver.
Proof. solve_decision. Defined.

Definition waiver_rank (w : HazardWaiver) : N :=
  match w with OpenMerge => 0 | Dirty => 1 | UnpreservedHistory => 2 end.

#[global] Program Instance HazardWaiver_ord : OrdKey HazardWaiver :=
  {| key_ltb := fun a b => (waiver_rank a <? waiver_rank b)%N |}.
Next Obligation. intros k. apply N.ltb_irrefl. Qed.
Next Obligation. intros a b c. rewrite !N.ltb_lt. lia. Qed.
Next Obligation. by intros [] []. Qed.

Definition ALL_WAIVERS : list HazardWaiver := [OpenMerge; Dirty; UnpreservedHistory].

Definition waiver_as_str (w : HazardWaiver) : str :=
  match w with
  | OpenMerge => lit "open-merge"
  | Dirty => lit "dirty"
  | UnpreservedHistory => lit "unpreserved-history"
  end.

Definition waiver_parse (name : str) : option HazardWaiver :=
  head (filter (fun waiver => waiver_as_str waiver = name) ALL_WAIVERS).

Record UnknownHazard : Type := mkUnknownHazard { uh_name : str }.

Fixpoint parse_names (waivers : list HazardWaiver) (names : list str)
    : result (list HazardWaiver) UnknownHazard :=
  match names with
  | [] => Ok waivers
  | name :: rest =>
      match waiver_parse name with
      | None => Err (mkUnknownHazard name)
      | Some waiver =>
          if bool_decide (waiver ∈ waivers) then Err (mkUnknownHazard (name ++ lit " (repeated)"))
          else parse_names (waivers ++ [waiver]) rest
      end
  end.

(** [HazardWaiver::parse_all]. *)
Definition parse_all (names : list str) : result (list HazardWaiver) UnknownHazard :=
  parse_names [] names.

Record HazardFinding : Type := mkHazardFinding {
  hf_waiver : HazardWaiver;
  hf_repository : RepoKey;
  hf_hazards : list Hazard;
  hf_detail : option str;
}.

(** [HazardFinding::refuses]. *)
Definition finding_refuses (f : HazardFinding) : bool :=
  bool_decide (is_Some (hf_detail f)) ||
  existsb (fun hazard => provenance_refuses (hz_provenance hazard)) (hf_hazards f).

Inductive HazardCategory : Type := CatRegenerable | CatUnchangedCopy | CatChangedCopy | CatUnique.

#[global] Instance HazardCategory_eq_dec : EqDecision HazardCategory.
Proof. solve_decision. Defined.

Definition ALL_CATEGORIES : list HazardCategory :=
  [CatRegenerable; CatUnchangedCopy; CatChangedCopy; CatUnique].

Definition category_as_str (c : HazardCategory) : str :=
  match c with
  | CatRegenerable => lit "regenerable"
  | CatUnchangedCopy => lit "unchanged copy"
  | CatChangedCopy => lit "changed copy"
  | CatUnique => lit "unique to the lane"
  end.

Definition category_of (p : Provenance) : HazardCategory :=
  match p with
  | Regenerable => CatRegenerable
  | UnchangedCopy => CatUnchangedCopy
  | ChangedCopy => CatChangedCopy
  | Unique => CatUnique
  end.

Definition category_refuses (c : HazardCategory) : bool :=
  match c with
  | CatUnique | CatChangedCopy => true
  | CatUnchangedCopy | CatRegenerable => false
  end.

Record CategoryItem : Type := mkCategoryItem {
  ci_repository : RepoKey;
  ci_path : option BytePath;
  ci_detail : str;
}.

Record CategoryReport : Type := mkCategoryReport {
  cr_category : HazardCategory;
  cr_items : list CategoryItem;
}.

(** The closure [push] of [categorise]: the first report of the category. *)
Fixpoint push_item (reports : list CategoryReport) (category : HazardCategory) (item : CategoryItem)
    : list CategoryReport :=
  match reports with
  | [] => []
  | report :: rest =>
      if bool_decide (cr_category report = category)
      then {| cr_category := cr_category report; cr_items := cr_items report ++ [item] |} :: rest
      else report :: push_item rest category item
  end.

Definition categorise_finding (reports : list CategoryReport) (finding : HazardFinding)
    : list CategoryReport :=
  let reports :=
    match hf_detail finding with
    | Some detail => push_item reports CatUnique (mkCategoryItem (hf_repository finding) None detail)
    | None => reports
    end in
  foldl (fun reports hazard =>
           push_item reports (category_of (hz_provenance hazard))
             (mkCategoryItem (hf_repository finding) (hz_path hazard) (hz_detail hazard)))
    reports (hf_hazards finding).

Definition categorise (findings : list HazardFinding) : list CategoryReport :=
  foldl categorise_finding
    ((fun category => {| cr_category := category; cr_items := [] |}) <$> ALL_CATEGORIES) findings.

Definition required_waivers (findings : list HazardFinding) : list HazardWaiver :=
  filter (fun waiver =>
    existsb (fun finding => bool_decide (hf_waiver finding = waiver) && finding_refuses finding) findings
      = true) ALL_WAIVERS.

(** ** The request (policy.rs) *)

Inductive DisposePolicy : Type :=
| PolicyKeep
| PolicyDelete (waivers : list HazardWaiver).

Inductive PolicyError : Type :=
| PeUnknownHazard (error : UnknownHazard)
| PeKeepWithForce (names : list str).

Definition policy_parse (keep : bool) (force_hazards : list str) : result DisposePolicy PolicyError :=
  if keep then
    if bool_decide (force_hazards = []) then Ok PolicyKeep else Err (PeKeepWithForce force_hazards)
  else
    let? waivers := map_err PeUnknownHazard (parse_all force_hazards) in
    Ok (PolicyDelete waivers).

Record DisposeRequest : Type := mkDisposeRequest {
  rq_name : MemberName;
  rq_policy : DisposePolicy;
  rq_root : str;
  rq_cwd : str;
}.

(** ** Evidence and ports (ports.rs) *)

Record RepositoryEvidence : Type := mkRepositoryEvidence {
  re_key : RepoKey;
  re_info : RepositoryInfo;
  re_work : Observation WorkObservation;
  re_gwz : GwzEvidence;
  re_history : Observation ProtectedRoots;
}.

Record CopiedRepository : Type := mkCopiedRepository { cp_key : RepoKey; cp_baseline : CopyBaseline }.

Record CopyWitness : Type := mkCopyWitness { cw_repositories : list CopiedRepository }.

(** [CopyWitness::baseline]. *)
Definition witness_baseline (w : CopyWitness) (key : RepoKey) : option CopyBaseline :=
  cp_baseline <$> head (filter (fun r => cp_key r = key) (cw_repositories w)).

Record TargetEvidence : Type := mkTargetEvidence {
  te_target : TargetObservation;
  te_repositories : list RepositoryEvidence;
  te_copy : option CopyWitness;
  te_unknown : list UnknownReason;
}.

Record HistoryQuery : Type := mkHistoryQuery { hq_target : RepoKey; hq_protected : ProtectedRoots }.

Inductive HistoryAnswer : Type :=
| Preserved
| Unpreserved (detail : str)
| UnknownHistory (reasons : list UnknownReason).

Inductive PortError : Type :=
| PortEvidence (detail : str)
| PortRemoval (path detail : str)
| PortUnimplemented (operation : str).

Definition port_error_text (e : PortError) : str :=
  match e with
  | PortEvidence detail => lit "evidence: " ++ detail
  | PortRemoval path detail => path ++ lit ": " ++ detail
  | PortUnimplemented operation => operation ++ lit " is not implemented"
  end.

Record RemovalFailure : Type := mkRemovalFailure { rf_error : PortError; rf_remaining : list str }.

Class DisposalPorts (W : Type) : Type := {
  observe_target : str -> W -> W * result TargetEvidence PortError;
  port_check_history : HistoryQuery -> W -> W * HistoryAnswer;
  remove_directory : str -> W -> W * result unit RemovalFailure;
}.

(** ** Reports (report.rs) *)

Inductive DisposeEffect : Type :=
| EffPointerRemoved | EffRowDetached | EffRowDisposing | EffDirectoryRemoved | EffRowRemoved.

#[global] Instance DisposeEffect_eq_dec : EqDecision DisposeEffect.
Proof. solve_decision. Defined.

Inductive DisposeError : Type :=
| DeRefused (refusal : Refusal)
| DeRootImmutable
| DeTargetContainsCwd (target : str)
| DePathMismatch (expected observed : str)
| DeHazards (findings : list HazardFinding)
| DeUnknown (reasons : list UnknownReason)
| DeStore (error : StoreError)
| DePort (error : PortError)
| DeRemovalStopped (remaining : list str) (detail : str)
| DeUnimplemented.

Record DisposeReport : Type := mkDisposeReport {
  dr_effects : list DisposeEffect;
  dr_waived : list HazardFinding;
}.

Record DisposeFailure : Type := mkDisposeFailure {
  df_error : DisposeError;
  df_effects : list DisposeEffect;
}.

(** ** Texts of derived [Debug] the messages use *)

Definition work_kind_debug (k : WorkKind) : str :=
  match k with
  | Staged => lit "Staged"
  | Unstaged => lit "Unstaged"
  | Untracked => lit "Untracked"
  | Ignored => lit "Ignored"
  | Conflict => lit "Conflict"
  | ModeChange => lit "ModeChange"
  | LinkChange => lit "LinkChange"
  | Renamed => lit "Renamed"
  | Deleted => lit "Deleted"
  end.

Definition hazard_kind_debug (k : HazardKind) : str :=
  match k with
  | HzWork kind => lit "Work(" ++ work_kind_debug kind ++ lit ")"
  | HzSuppressed => lit "Suppressed"
  | HzOpenNativeOperation => lit "OpenNativeOperation"
  | HzOpenGwzMerge => lit "OpenGwzMerge"
  | HzOpenGwzStash => lit "OpenGwzStash"
  | HzUninterpretableEvidence => lit "UninterpretableEvidence"
  | HzNativeStash => lit "NativeStash"
  | HzOpenGwzRecord => lit "OpenGwzRecord"
  end.

Definition marker_debug (m : MarkerObservation) : str :=
  match m with
  | MarkMatches => lit "Matches"
  | MarkAbsent => lit "Absent"
  | MarkMismatch => lit "Mismatch"
  | MarkMalformed => lit "Malformed"
  end.

Definition list_state_debug (s : ListState) : str :=
  match s with
  | LReady => lit "Ready"
  | LIncomplete => lit "Incomplete"
  | LInterruptedDisposal => lit "InterruptedDisposal"
  | LMissing => lit "Missing"
  | LPointerRemoved => lit "PointerRemoved"
  | LMismatched => lit "Mismatched"
  | LMalformed => lit "Malformed"
  | LUnobserved => lit "Unobserved"
  end.

Definition describe (state : ListState) (observation : TargetObservation) : str :=
  match state, observation with
  | _, TargetMalformed detail => lit "its family metadata could not be decoded: " ++ detail
  | LPointerRemoved, _ =>
      lit "its family pointer is gone; an interrupted detach left the tree in place"
  | _, TargetPresent pointer marker =>
      lit "its family pointer or allocation marker does not belong to this row (pointer " ++
      pointer_debug pointer ++ lit ", marker " ++ marker_debug marker ++ lit ")"
  | state, TargetMissing => list_state_debug state ++ lit " for Missing"
  end.

(** ** Calls *)

Inductive Event : Type :=
| EvReread (answer : result (option FamilyView) StoreError)
| EvApply (change : FamilyChange) (answer : result AppliedChange StoreError)
| EvRemovePointer (name : MemberName) (answer : result AppliedChange StoreError)
| EvObserve (target : str) (answer : result TargetEvidence PortError)
| EvHistory (query : HistoryQuery) (answer : HistoryAnswer)
| EvRemove (target : str) (answer : result unit RemovalFailure).

(** The shared state, the [effects] vector of the run, and the log. *)
Record Run (W : Type) : Type := mkRun {
  run_world : W;
  run_effects : list DisposeEffect;
  run_log : list Event;
}.
Arguments mkRun {W}. Arguments run_world {W}. Arguments run_effects {W}. Arguments run_log {W}.

(** The validated target of one invocation (validate.rs). *)
Record Plan : Type := mkPlan { plan_row : MemberRow; plan_target : str }.

(** What [inspect] collects over the repositories. *)
Record Gathered : Type := mkGathered { g_unknown : list UnknownReason; g_findings : list HazardFinding }.

Definition member_path (name : MemberName) (path : str) : result MemberPath DisposeError :=
  map_err (fun error =>
    match error with
    | PathRootItself _ | PathContainsRoot _ _ => DeRootImmutable
    | PathNotNormalised path normalised => DeRefused (RefPathNotNormalised name path normalised)
    | other => DeRefused (InvalidRow name (path_error_text other))
    end) (validate_path path).

(** The overlap check against the other members, in name order. *)
Definition clear_of_member (name : MemberName) (row : MemberRow) (recorded : MemberPath)
    (other : MemberName * MemberRow) : result unit DisposeError :=
  let '(other_name, other) := other in
  if bool_decide (other_name = name) then Ok tt
  else
    let? other_path := member_path other_name (row_path other) in
    if overlaps (relate recorded other_path)
    then Err (DeRefused (NestedPath (row_path row) (row_path other)))
    else Ok tt.

(** [validate] past the reread of the index. *)
Definition validate_target (request : DisposeRequest) (view : FamilyView) : result Plan DisposeError :=
  let root := resolve (rq_root request) in
  match bt_get (view_members view) (rq_name request) with
  | None => Err (DeRefused (NotFound (rq_name request)))
  | Some row =>
      let? recorded := member_path (rq_name request) (row_path row) in
      let target := resolve (path_join (rq_root request) (path_str recorded)) in
      if path_eqb target root || path_starts_with root target then Err DeRootImmutable
      else if path_starts_with target root then Err (DeRefused (NestedPath (row_path row) ROOT_PATH))
      else if path_starts_with (resolve (rq_cwd request)) target then Err (DeTargetContainsCwd target)
      else
        check? for_each (clear_of_member (rq_name request) row recorded) (bt_entries (view_members view)) in
        Ok {| plan_row := row; plan_target := target |}
  end.

(** The first of a repository's three paths that leaves the target. *)
Definition outside (plan : Plan) (repository : RepositoryEvidence) : option (str * str) :=
  let info := re_info repository in
  head (filter (fun lp => path_starts_with (resolve lp.2) (plan_target plan) = false)
          [(lit "worktree", info_path info);
           (lit "git directory", info_git_dir info);
           (lit "object store", info_common_dir info)]).

Definition hazard_waiver (hazard : Hazard) : option HazardWaiver :=
  force_name (hz_kind hazard) ≫= waiver_parse.

(** One hazard of a report, grouped under its waiver or unknown. *)
Definition group_hazard (key : RepoKey) (acc : list UnknownReason * BTreeMap HazardWaiver (list Hazard))
    (hazard : Hazard) : list UnknownReason * BTreeMap HazardWaiver (list Hazard) :=
  let '(unknown, grouped) := acc in
  match hazard_waiver hazard with
  | Some waiver => (unknown, bt_insert grouped waiver (default [] (bt_get grouped waiver) ++ [hazard]))
  | None =>
      (unknown ++ [new_reason UkUnsupportedEvidence
         (quoted (repo_key_text key) ++ lit ": " ++ hazard_kind_debug (hz_kind hazard) ++
          lit " has no waiver (" ++ hz_detail hazard ++ lit ")")], grouped)
  end.

Definition repository_baseline (copy : option CopyWitness) (repository : RepositoryEvidence) : CopyBaseline :=
  default default_baseline (copy ≫= fun c => witness_baseline c (re_key repository)).

Definition repository_report (copy : option CopyWitness) (repository : RepositoryEvidence) : WorkReport :=
  classify_observed_work_against (re_work repository) (re_gwz repository)
    (repository_baseline copy repository).

(** The work half of one turn of [inspect]'s loop. *)
Definition inspect_work (plan : Plan) (copy : option CopyWitness) (g : Gathered)
    (repository : RepositoryEvidence) : result Gathered DisposeError :=
  match outside plan repository with
  | Some (label, path) =>
      Err (DePathMismatch (plan_target plan)
        (lit "the " ++ label ++ lit " of " ++ quoted (repo_key_text (re_key repository)) ++ lit " is " ++
         path ++ lit ", outside the deletion tree"))
  | None =>
      let report := repository_report copy repository in
      let unknown := g_unknown g ++
        (if bool_decide (wr_verdict report = VerdictUnknown) && bool_decide (wr_unknown report = []) then
           [new_reason UkUnimplemented
              (quoted (repo_key_text (re_key repository)) ++ lit ": an unknown verdict with no reason")]
         else []) ++ wr_unknown report in
      let '(unknown, grouped) :=
        foldl (group_hazard (re_key repository)) (unknown, bt_empty) (wr_hazards report) in
      Ok {| g_unknown := unknown;
            g_findings := g_findings g ++
              ((fun wh => {| hf_waiver := wh.1; hf_repository := re_key repository;
                             hf_hazards := wh.2; hf_detail := None |}) <$> bt_entries grouped) |}
  end.

(** The history port's answer to one repository. *)
Definition inspect_answer (key : RepoKey) (g : Gathered) (answer : HistoryAnswer) : Gathered :=
  match answer with
  | Preserved => g
  | Unpreserved detail =>
      {| g_unknown := g_unknown g;
         g_findings := g_findings g ++
           [{| hf_waiver := UnpreservedHistory; hf_repository := key; hf_hazards := [];
               hf_detail := Some detail |}] |}
  | UnknownHistory reasons => {| g_unknown := g_unknown g ++ reasons; g_findings := g_findings g |}
  end.

(** [inspect] past its loop. *)
Definition conclude_inspection (waivers : list HazardWaiver) (g : Gathered)
    : result (list HazardFinding) DisposeError :=
  if bool_decide (g_unknown g = []) then
    let waived := filter (fun f => hf_waiver f ∈ waivers) (g_findings g) in
    let unwaived := filter (fun f => ~ hf_waiver f ∈ waivers) (g_findings g) in
    if existsb finding_refuses unwaived then Err (DeHazards unwaived) else Ok waived
  else Err (DeUnknown (g_unknown g)).

Section disposal.
Context {W : Type} `{FamilySession W, DisposalPorts W}.

Abbreviation run_proc A := (proc (Run W) A DisposeError).

Definition call {A} (op : W -> W * A) (event : A -> Event) (st : Run W) : Run W * A :=
  let '(w, a) := op (run_world st) in
  (mkRun w (run_effects st) (run_log st ++ [event a]), a).

Definition push_effect (e : DisposeEffect) : run_proc unit :=
  fun st => (mkRun (run_world st) (run_effects st ++ [e]) (run_log st), Ok tt).

(** *** validate.rs *)

Definition validate (request : DisposeRequest) : run_proc Plan :=
  fun st =>
    if path_eqb (resolve (rq_root request)) (resolve (session_root (run_world st))) then
      (let! view := pmap_err DeStore (call session_reread EvReread) in
       match view with
       | None => pfail (DeStore (SeNoFamily (rq_root request)))
       | Some view => plift (validate_target request view)
       end) st
    else
      (st, Err (DePathMismatch (rq_root request)
         (lit "the family lock is held on " ++ session_root (run_world st) ++ lit ", not this root"))).

(** *** inspect.rs *)

Definition inspect_history (g : Gathered) (repository : RepositoryEvidence) : run_proc Gathered :=
  match re_history repository with
  | UnknownObs reasons => pret {| g_unknown := g_unknown g ++ reasons; g_findings := g_findings g |}
  | Known protected =>
      let query := {| hq_target := re_key repository; hq_protected := protected |} in
      fun st => let '(st', answer) := call (port_check_history query) (EvHistory query) st in
                (st', Ok (inspect_answer (re_key repository) g answer))
  end.

Fixpoint inspect_repositories (plan : Plan) (copy : option CopyWitness) (g : Gathered)
    (repositories : list RepositoryEvidence) : run_proc Gathered :=
  match repositories with
  | [] => pret g
  | repository :: rest =>
      let! g := plift (inspect_work plan copy g repository) in
      let! g := inspect_history g repository in
      inspect_repositories plan copy g rest
  end.

Definition inspect (plan : Plan) (evidence : TargetEvidence) (waivers : list HazardWaiver)
    : run_proc (list HazardFinding) :=
  if bool_decide (te_repositories evidence = []) then
    pfail (DeUnknown [new_reason UkUnsupportedLayout
      (lit "no repository was observed in " ++ plan_target plan ++
       lit "; the target is not a recognised clone")])
  else
    let! g := inspect_repositories plan (te_copy evidence) (mkGathered [] []) (te_repositories evidence) in
    plift (conclude_inspection waivers g).

(** *** run.rs *)

Definition detach (request : DisposeRequest) (reason : RemovalReason) : run_proc unit :=
  let! applied := pmap_err DeStore
    (call (session_remove_pointer (rq_name request)) (EvRemovePointer (rq_name request))) in
  do! (if existsb (fun e => match e with PointerRemoved _ => true | _ => false end) (ac_effects applied)
       then push_effect EffPointerRemoved else pret tt) in
  do! pmap_err DeStore
    (call (session_apply (RemoveRow (rq_name request) reason)) (EvApply (RemoveRow (rq_name request) reason))) in
  push_effect (match reason with Keep => EffRowDetached | Disposed | Stale => EffRowRemoved end).

(** Steps 3 to 5 of [run], past the observation: [waivers] were given.  The
    [debug_assert] of the incomplete arm holds ([incomplete_not_ready]). *)
Definition run_observed (request : DisposeRequest) (waivers : list HazardWaiver) (plan : Plan)
    (evidence : TargetEvidence) : run_proc (list HazardFinding) :=
  if negb (bool_decide (length (te_unknown evidence) = 0)) then pfail (DeUnknown (te_unknown evidence))
  else
    match classify_target (plan_row plan) (Some (te_target evidence)) with
    | LReady =>
        let! waived := inspect plan evidence waivers in
        do! pmap_err DeStore
          (call (session_apply (MarkDisposing (rq_name request) (row_allocation (plan_row plan))))
                (EvApply (MarkDisposing (rq_name request) (row_allocation (plan_row plan))))) in
        do! push_effect EffRowDisposing in
        do! pmap_err (fun failure => DeRemovalStopped (rf_remaining failure) (port_error_text (rf_error failure)))
          (call (remove_directory (plan_target plan)) (EvRemove (plan_target plan))) in
        do! push_effect EffDirectoryRemoved in
        do! detach request Disposed in
        pret waived
    | LMissing =>
        if bool_decide (te_repositories evidence = []) then
          do! detach request Stale in pret []
        else
          pfail (DePathMismatch (plan_target plan)
            (lit "the target is absent, yet " ++ show_N (N.of_nat (length (te_repositories evidence))) ++
             lit " repositor(y|ies) were observed in it"))
    | LIncomplete | LInterruptedDisposal =>
        pfail (DeRefused (WrongState (rq_name request) Ready (row_state (plan_row plan))))
    | state => pfail (DePathMismatch (plan_target plan) (describe state (te_target evidence)))
    end.

Definition run (request : DisposeRequest) : run_proc (list HazardFinding) :=
  let! waivers :=
    match rq_policy request with
    | PolicyKeep => pret None
    | PolicyDelete waivers =>
        if bool_decide (length (remove_dups waivers) = length waivers) then pret (Some waivers)
        else pfail (DeRefused (InvalidRow (rq_name request) (lit "repeated hazard waiver")))
    end in
  let! plan := validate request in
  match waivers with
  | None => do! detach request Keep in pret []
  | Some waivers =>
      let! evidence := pmap_err DePort (call (observe_target (plan_target plan)) (EvObserve (plan_target plan))) in
      run_observed request waivers plan evidence
  end.

(** [dispose], with the state and the log it leaves. *)
Definition dispose (request : DisposeRequest) (w : W)
    : Run W * result DisposeReport DisposeFailure :=
  let '(st, r) := run request (mkRun w [] []) in
  (st, match r with
       | Ok waived => Ok {| dr_effects := run_effects st; dr_waived := waived |}
       | Err error => Err {| df_error := error; df_effects := run_effects st |}
       end).

End disposal.

(** ** What the inspection requires *)

Definition history_query (repository : RepositoryEvidence) : option HistoryQuery :=
  match re_history repository with
  | Known protected => Some {| hq_target := re_key repository; hq_protected := protected |}
  | UnknownObs _ => None
  end.

(** The questions the loop asks, with their answers in order. *)
Definition history_log (repositories : list RepositoryEvidence) (answers : list HistoryAnswer) : list Event :=
  zip_with EvHistory (omap history_query repositories) answers.

Record cleared (waivers : list HazardWaiver) (plan : Plan) (copy : option CopyWitness)
    (repository : RepositoryEvidence) : Prop := {
  cl_inside : outside plan repository = None;
  cl_established : wr_unknown (repository_report copy repository) = [];
  cl_named : Forall (fun h => is_Some (hazard_waiver h)) (wr_hazards (repository_report copy repository));
  cl_waived : forall h, h ∈ wr_hazards (repository_report copy repository) ->
    provenance_refuses (hz_provenance h) = true -> exists w, hazard_waiver h = Some w /\ w ∈ waivers;
  cl_history : forall reasons, re_history repository = UnknownObs reasons -> reasons = [];
}.

(** The answers that let a removal pass. *)
Definition answer_passes (waivers : list HazardWaiver) (a : HistoryAnswer) : Prop :=
  match a with
  | Preserved => True
  | Unpreserved _ => UnpreservedHistory ∈ waivers
  | UnknownHistory reasons => reasons = []
  end.

(** What remains to pass of the findings gathered so far. *)
Definition passing (waivers : list HazardWaiver) (g : Gathered) : Prop :=
  g_unknown g = [] /\ Forall (fun f => finding_refuses f = true -> hf_waiver f ∈ waivers) (g_findings g).

Lemma conclude_passing waivers g :
  (exists waived, conclude_inspection waivers g = Ok waived) <-> passing waivers g.
Proof.
  unfold conclude_inspection, passing. destruct (decide (g_unknown g = [])) as [E|E].
  2: { rewrite bool_decide_false by done. split; [by intros [? [=]]|by intros [? _]]. }
  rewrite bool_decide_true by done. rewrite Forall_forall.
  destruct (existsb _ _) eqn:Ex; split.
  - by intros [? [=]].
  - apply existsb_elem in Ex as (f & [Hn Hf]%list_elem_of_filter & Hr). intros [_ Hp]. by destruct Hn; apply Hp.
  - intros _. split; [done|]. intros f Hf Hr. destruct (decide (hf_waiver f ∈ waivers)) as [|Hn]; [done|].
    apply not_true_iff_false in Ex. destruct Ex. apply existsb_elem. exists f.
    split; [by apply list_elem_of_filter|done].
  - eauto.
Qed.

Lemma group_spec key hs u gr :
  let r := foldl (group_hazard key) (u, gr) hs in
  (r.1 = [] <-> u = [] /\ Forall (fun h => is_Some (hazard_waiver h)) hs) /\
  forall w, default [] (bt_get r.2 w) =
    default [] (bt_get gr w) ++ filter (fun h => hazard_waiver h = Some w) hs.
Proof.
  cbv zeta. revert u gr. induction hs as [|h hs IH]; intros u gr.
  { cbn [foldl fst snd]. split; [|intros w; by rewrite filter_nil, app_nil_r].
    rewrite Forall_nil. tauto. }
  cbn [foldl]. unfold group_hazard at 2 4. rewrite Forall_cons.
  destruct (hazard_waiver h) as [w0|] eqn:E.
  - destruct (IH u (bt_insert gr w0 (default [] (bt_get gr w0) ++ [h]))) as [H1 H2].
    split; [rewrite H1; split; [intros []; split_and!; by eauto|tauto]|]. intros w. rewrite H2, filter_cons, E.
    destruct (decide (w = w0)) as [->|Hne].
    + rewrite bt_get_insert_eq, decide_True by done. cbn [from_option id]. by rewrite <- app_assoc.
    + rewrite bt_get_insert_ne by done. rewrite decide_False by congruence. done.
  - match goal with |- context [foldl _ (?u', gr) hs] => destruct (IH u' gr) as [H1 H2] end.
    split.
    + rewrite H1. split; [by intros [[_ [=]]%app_eq_nil _]|by intros (_ & [? [=]] & _)].
    + intros w. rewrite H2, filter_cons, E. by rewrite decide_False by congruence.
Qed.

Lemma grouped_waived (waivers : list HazardWaiver) key (grouped : BTreeMap HazardWaiver (list Hazard)) hazards :
  (forall h, h ∈ hazards -> is_Some (hazard_waiver h)) ->
  (forall w, default [] (bt_get grouped w) = filter (fun h => hazard_waiver h = Some w) hazards) ->
  (forall wh, wh ∈ bt_entries grouped ->
     finding_refuses {| hf_waiver := wh.1; hf_repository := key; hf_hazards := wh.2; hf_detail := None |} = true ->
     wh.1 ∈ waivers) <->
  (forall h, h ∈ hazards -> provenance_refuses (hz_provenance h) = true ->
     exists w, hazard_waiver h = Some w /\ w ∈ waivers).
Proof.
  intros Hs Hg. split.
  - intros H h Hh Hr. destruct (Hs h Hh) as [w Hw]. exists w. split; [done|].
    assert (Hin : h ∈ filter (fun h => hazard_waiver h = Some w) hazards) by by apply list_elem_of_filter.
    rewrite <- Hg in Hin. destruct (bt_get grouped w) as [hs|] eqn:E; [|by apply not_elem_of_nil in Hin].
    apply (H (w, hs)); [by apply bt_elem_get|]. apply existsb_elem. by exists h.
  - intros H [w hs] Hin Hf. apply bt_elem_get in Hin. apply existsb_elem in Hf as (h & Hh & Hr).
    cbn [hf_hazards snd] in Hh. specialize (Hg w). rewrite Hin in Hg. cbn [from_option id] in Hg.
    rewrite Hg in Hh. apply list_elem_of_filter in Hh as [Hw Hh].
    destruct (H h Hh Hr) as (w' & Hw' & Hin'). by simplify_eq.
Qed.

(** The guard against an unknown verdict without a reason never fires: a
    report of the classifier is unknown exactly with its reasons. *)
Lemma report_reasons copy repository :
  wr_verdict (repository_report copy repository) = VerdictUnknown <->
  wr_unknown (repository_report copy repository) <> [].
Proof.
  assert (HF : forall b, wr_verdict (finish b) = VerdictUnknown <-> wr_unknown (finish b) <> []).
  { intros b. destruct (finish_spec b) as (_ & V & _ & K). rewrite V.
    split; intros H E; apply H; [rewrite E in K|rewrite E in K].
    - symmetry in K. by apply fmap_nil_inv in K.
    - by apply fmap_nil_inv in K. }
  unfold repository_report, classify_observed_work_against.
  destruct (re_work repository); apply HF.
Qed.

Lemma work_passing waivers plan copy g repository g' :
  inspect_work plan copy g repository = Ok g' ->
  let report := repository_report copy repository in
  outside plan repository = None /\
  (passing waivers g' <->
   passing waivers g /\ wr_unknown report = [] /\
   Forall (fun h => is_Some (hazard_waiver h)) (wr_hazards report) /\
   (forall h, h ∈ wr_hazards report -> provenance_refuses (hz_provenance h) = true ->
      exists w, hazard_waiver h = Some w /\ w ∈ waivers)).
Proof.
  unfold inspect_work. destruct (outside plan repository) as [[]|]; [done|]. cbv zeta.
  set (report := repository_report copy repository).
  set (u0 := g_unknown g ++ _). intros H. split; [done|].
  destruct (group_spec (re_key repository) (wr_hazards report) u0 bt_empty) as [G1 G2].
  destruct (foldl _ _ _) as [u grouped]. cbn [fst snd] in G1, G2. injection H as <-.
  assert (Hu0 : u0 = [] <-> g_unknown g = [] /\ wr_unknown report = []).
  { unfold u0. split.
    - intros [-> [_ ->]%app_eq_nil]%app_eq_nil. done.
    - intros [-> E]. rewrite E, (bool_decide_false (_ = VerdictUnknown)); [done|].
      unfold report. rewrite report_reasons. fold report. rewrite E. auto. }
  unfold passing. cbn [g_unknown g_findings]. rewrite G1, Hu0, Forall_app, Forall_fmap.
  assert (HF : Forall (fun h => is_Some (hazard_waiver h)) (wr_hazards report) ->
    Forall ((fun f => finding_refuses f = true -> hf_waiver f ∈ waivers) ∘
            (fun wh => {| hf_waiver := wh.1; hf_repository := re_key repository;
                          hf_hazards := wh.2; hf_detail := None |})) (bt_entries grouped) <->
    (forall h, h ∈ wr_hazards report -> provenance_refuses (hz_provenance h) = true ->
      exists w, hazard_waiver h = Some w /\ w ∈ waivers)).
  2: { tauto. }
  intros Hs. rewrite Forall_forall in Hs. rewrite Forall_forall. apply grouped_waived; [done|].
  intros w. rewrite G2. by rewrite bt_get_empty.
Qed.

(** The answers the port gave, in order, to the repositories' questions. *)
Definition asked (W : Type) `{DisposalPorts W} (repositories : list RepositoryEvidence)
    (answers : list HistoryAnswer) : Prop :=
  Forall2 (fun query answer => exists w w' : W, port_check_history query w = (w', answer))
    (omap history_query repositories) answers.

Lemma history_log_app r1 r2 a1 a2 :
  length (omap history_query r1) = length a1 ->
  history_log (r1 ++ r2) (a1 ++ a2) = history_log r1 a1 ++ history_log r2 a2.
Proof. intros H. unfold history_log. rewrite omap_app. by apply zip_with_app. Qed.

Lemma asked_app W `{DisposalPorts W} r1 r2 a1 a2 :
  asked W r1 a1 -> asked W r2 a2 -> asked W (r1 ++ r2) (a1 ++ a2).
Proof. unfold asked. rewrite omap_app. apply Forall2_app. Qed.

Lemma answer_passing waivers key g answer :
  passing waivers (inspect_answer key g answer) <-> passing waivers g /\ answer_passes waivers answer.
Proof.
  unfold passing. destruct answer as [|detail|reasons]; cbn [inspect_answer g_unknown g_findings answer_passes].
  - tauto.
  - rewrite Forall_app, Forall_singleton. unfold finding_refuses at 2. cbn [hf_detail hf_waiver].
    rewrite bool_decide_true by eauto. cbn [orb]. tauto.
  - split; [intros [[-> ->]%app_eq_nil ?]; done|]. intros [[-> ?] ->]. done.
Qed.

Section disposal_proofs.
Context {W : Type} `{FamilySession W, DisposalPorts W}.
Implicit Types st : Run W.

Lemma call_log {A} (op : W -> W * A) ev st st' a :
  call op ev st = (st', a) -> run_effects st' = run_effects st /\ run_log st' = run_log st ++ [ev a].
Proof. unfold call. destruct (op (run_world st)). by intros [= <- <-]. Qed.

Lemma call_world {A} (op : W -> W * A) ev st st' a :
  call op ev st = (st', a) -> op (run_world st) = (run_world st', a).
Proof. unfold call. destruct (op (run_world st)). by intros [= <- <-]. Qed.

Lemma inspect_history_spec g repository st st' r :
  inspect_history g repository st = (st', r) ->
  run_effects st' = run_effects st /\
  exists g' answers, r = Ok g' /\ asked W [repository] answers /\
    run_log st' = run_log st ++ history_log [repository] answers /\
    forall waivers, passing waivers g' <->
      passing waivers g /\ (forall reasons, re_history repository = UnknownObs reasons -> reasons = []) /\
      Forall (answer_passes waivers) answers.
Proof.
  unfold inspect_history, asked, history_log. cbn [omap list_omap].
  assert (Hq : history_query repository =
    match re_history repository with
    | Known p => Some {| hq_target := re_key repository; hq_protected := p |}
    | UnknownObs _ => None
    end) by done.
  destruct (re_history repository) as [protected|reasons]; rewrite Hq.
  - destruct (call _ _ st) as [st1 answer] eqn:E. pose proof (call_world _ _ _ _ _ E) as Ew.
    apply call_log in E as [E1 E2]. intros [= <- <-].
    split; [done|]. eexists _, [answer]. split_and!; [done|repeat constructor; eauto|done|].
    intros waivers. rewrite answer_passing, Forall_singleton. naive_solver.
  - intros [= <- <-]. split; [done|]. eexists _, []. split_and!; [done|constructor|by rewrite app_nil_r|].
    intros waivers. unfold passing. cbn [g_unknown g_findings]. rewrite Forall_nil. split.
    + intros [[-> ->]%app_eq_nil ?]. naive_solver.
    + intros ([-> ?] & Hr & _). by rewrite (Hr _ eq_refl).
Qed.

Lemma inspect_repositories_spec plan copy repositories g st st' r :
  inspect_repositories plan copy g repositories st = (st', r) ->
  run_effects st' = run_effects st /\
  exists seen answers, seen `prefix_of` repositories /\ asked W seen answers /\
    run_log st' = run_log st ++ history_log seen answers /\
    match r with
    | Ok g' => seen = repositories /\ forall waivers,
        (passing waivers g' <->
         passing waivers g /\ Forall (cleared waivers plan copy) repositories /\
         Forall (answer_passes waivers) answers)
    | Err _ => exists repository, repository ∈ repositories /\ outside plan repository <> None
    end.
Proof.
  revert g st. induction repositories as [|repository rest IH]; intros g st; cbn [inspect_repositories].
  { intros [= <- <-]. split; [done|]. exists [], []. split_and!; [done|constructor|by rewrite app_nil_r|done|].
    intros waivers. rewrite !Forall_nil. tauto. }
  intros [(e & [= <- Hw] & ->)|(g1 & st1 & [= <- Hw] & H1)]%pbind_inv.
  { split; [done|]. exists [], []. split_and!; [apply prefix_nil|constructor|by rewrite app_nil_r|].
    exists repository. split; [left|]. unfold inspect_work in Hw.
    destruct (outside plan repository); [done|]. by destruct (foldl _ _ _). }
  apply pbind_inv in H1 as [(e & Hh & ->)|(g2 & st2 & Hh & Hr)].
  { apply inspect_history_spec in Hh as (_ & ? & ? & [=] & _). }
  apply inspect_history_spec in Hh as (E1 & g2' & a1 & [= <-] & A1 & L1 & P1).
  apply IH in Hr as (E2 & seen & a2 & Hp & A2 & L2 & P2).
  split; [congruence|]. exists (repository :: seen), (a1 ++ a2).
  split_and!; [by apply prefix_cons|by apply (asked_app W [repository])| |].
  { rewrite L2, L1, <- app_assoc. f_equal. symmetry. apply (history_log_app [repository]). by eapply Forall2_length. }
  destruct r as [g'|e].
  - destruct P2 as [-> P2]. split; [done|]. intros waivers. rewrite P2, P1.
    destruct (work_passing waivers _ _ _ _ _ Hw) as [Ho Wp]. rewrite Wp, Forall_cons, Forall_app.
    split.
    + intros (((? & ? & ? & ?) & ? & ?) & ? & ?). split_and!; done || by constructor.
    + intros (? & [[] ?] & ? & ?). split_and!; done.
  - destruct P2 as (x & Hx & Hout). exists x. split; [by right|done].
Qed.

Lemma inspect_spec plan evidence waivers st st' r :
  inspect plan evidence waivers st = (st', r) ->
  run_effects st' = run_effects st /\
  exists seen answers, seen `prefix_of` te_repositories evidence /\ asked W seen answers /\
    run_log st' = run_log st ++ history_log seen answers /\
    ((exists waived, r = Ok waived) <->
     te_repositories evidence <> [] /\ seen = te_repositories evidence /\
     Forall (cleared waivers plan (te_copy evidence)) (te_repositories evidence) /\
     Forall (answer_passes waivers) answers).
Proof.
  unfold inspect. destruct (decide (te_repositories evidence = [])) as [E|E].
  { rewrite bool_decide_true by done. intros [= <- <-]. split; [done|]. exists [], [].
    split_and!; [apply prefix_nil|constructor|by rewrite app_nil_r|]. naive_solver. }
  rewrite bool_decide_false by done. intros [(e & Hi & ->)|(g & st1 & Hi & [= -> <-])]%pbind_inv;
    apply inspect_repositories_spec in Hi as (E1 & seen & answers & Hp & A & L & P);
    (split; [done|]); exists seen, answers; (split_and!; [done..|]).
  - split; [by intros [? [=]]|]. intros (_ & _ & HF & _). destruct P as (x & Hx & Ho).
    rewrite Forall_forall in HF. by destruct (HF x Hx).
  - destruct P as [-> P]. rewrite conclude_passing, P. unfold passing. cbn [g_unknown g_findings].
    rewrite Forall_nil. tauto.
Qed.

(** *** The sequence *)

Definition effect_of (e : Event) : list DisposeEffect :=
  match e with
  | EvApply (MarkDisposing _ _) (Ok _) => [EffRowDisposing]
  | EvApply (RemoveRow _ Keep) (Ok _) => [EffRowDetached]
  | EvApply (RemoveRow _ _) (Ok _) => [EffRowRemoved]
  | EvRemovePointer _ (Ok a) =>
      if existsb (fun e => match e with PointerRemoved _ => true | _ => false end) (ac_effects a)
      then [EffPointerRemoved] else []
  | EvRemove _ (Ok _) => [EffDirectoryRemoved]
  | _ => []
  end.

Definition effects_of (log : list Event) : list DisposeEffect := log ≫= effect_of.

(** The calls of [detach]: the pointer first, the row only after it. *)
Inductive detaching (name : MemberName) (reason : RemovalReason) : list Event -> bool -> Prop :=
| detach_no_pointer e : detaching name reason [EvRemovePointer name (Err e)] false
| detach_no_row a e :
    detaching name reason [EvRemovePointer name (Ok a); EvApply (RemoveRow name reason) (Err e)] false
| detach_done a b :
    detaching name reason [EvRemovePointer name (Ok a); EvApply (RemoveRow name reason) (Ok b)] true.

Lemma detach_spec request reason st st' r :
  detach request reason st = (st', r) ->
  exists evs, detaching (rq_name request) reason evs (is_ok r) /\
    run_log st' = run_log st ++ evs /\ run_effects st' = run_effects st ++ effects_of evs.
Proof.
  unfold detach. intros [(e & Hp & ->)|(a & st1 & Hp & H1)]%pbind_inv;
    apply pmap_err_inv in Hp as ([a'|e'] & Hp & Er); simplify_eq/=;
    apply call_log in Hp as [E1 L1].
  { eexists. split_and!; [constructor|done|]. by rewrite app_nil_r. }
  apply pbind_inv in H1 as [(e & Hq & ->)|([] & st2 & Hq & H2)].
  { by destruct (existsb _ _) in Hq. }
  assert (L2 : run_log st2 = run_log st1 /\ run_effects st2 =
    run_effects st1 ++ effects_of [EvRemovePointer (rq_name request) (Ok a')]).
  { unfold effects_of. cbn [mbind list_bind effect_of]. destruct (existsb _ _) in Hq |- *;
      injection Hq as <-; by rewrite ?app_nil_r. }
  destruct L2 as [L2 E2].
  apply pbind_inv in H2 as [(e & Hr & ->)|(b & st3 & Hr & H3)];
    apply pmap_err_inv in Hr as ([b'|e'] & Hr & Er); simplify_eq/=; apply call_log in Hr as [E3 L3].
  - eexists. split_and!; [apply detach_no_row| |].
    + by rewrite L3, L2, L1, <- app_assoc.
    + rewrite E3, E2, E1. by destruct reason.
  - injection H3 as <- <-. eexists. split_and!; [apply detach_done| |]; cbn [run_log run_effects].
    + by rewrite L3, L2, L1, <- app_assoc.
    + rewrite E3, E2, E1, app_nil_r, <- app_assoc. by destruct reason.
Qed.

(** The calls of one removal, after the inspection. *)
Inductive removing (name : MemberName) (a : AllocationId) (target : str) : list Event -> bool -> Prop :=
| remove_unmarked e : removing name a target [EvApply (MarkDisposing name a) (Err e)] false
| remove_stopped b f :
    removing name a target [EvApply (MarkDisposing name a) (Ok b); EvRemove target (Err f)] false
| remove_detaching b evs ok :
    detaching name Disposed evs ok ->
    removing name a target (EvApply (MarkDisposing name a) (Ok b) :: EvRemove target (Ok tt) :: evs) ok.

Lemma effects_of_app l1 l2 : effects_of (l1 ++ l2) = effects_of l1 ++ effects_of l2.
Proof. apply bind_app. Qed.

Lemma history_no_effects seen answers : effects_of (history_log seen answers) = [].
Proof.
  unfold history_log. generalize (omap history_query seen) as qs. intros qs. revert answers.
  induction qs as [|q qs IH]; intros [|a answers]; [done..|]. apply IH.
Qed.

Lemma run_ready request waivers plan evidence st st' r :
  te_unknown evidence = [] ->
  classify_target (plan_row plan) (Some (te_target evidence)) = LReady ->
  run_observed request waivers plan evidence st = (st', r) ->
  exists seen answers, seen `prefix_of` te_repositories evidence /\ asked W seen answers /\
  let passes := te_repositories evidence <> [] /\ seen = te_repositories evidence /\
     Forall (cleared waivers plan (te_copy evidence)) (te_repositories evidence) /\
     Forall (answer_passes waivers) answers in
  exists evs, run_log st' = run_log st ++ history_log seen answers ++ evs /\
    run_effects st' = run_effects st ++ effects_of evs /\
    ((~ passes /\ evs = [] /\ is_ok r = false) \/
     (passes /\ removing (rq_name request) (row_allocation (plan_row plan)) (plan_target plan) evs (is_ok r))).
Proof.
  intros Hu Hc. unfold run_observed. rewrite Hc, Hu.
  rewrite bool_decide_true by done. cbn [negb].
  intros [(e & Hi & ->)|(waived & st1 & Hi & H1)]%pbind_inv;
    apply inspect_spec in Hi as (E1 & seen & answers & Hp & A & L1 & P);
    exists seen, answers; (split_and!; [done..|]); cbv zeta.
  { exists []. rewrite !app_nil_r. split_and!; [done..|]. left. rewrite <- P. split_and!; [by intros [? [=]]|done..]. }
  apply pbind_inv in H1 as [(e & Hm & ->)|(b & st2 & Hm & H2)];
    apply pmap_err_inv in Hm as ([b'|e'] & Hm & Er); simplify_eq/=; apply call_log in Hm as [E2 L2].
  { eexists. split_and!; [by rewrite L2, L1, <- app_assoc|by rewrite E2, E1, app_nil_r|].
    right. rewrite <- P. split; [eauto|constructor]. }
  apply pbind_inv in H2 as [(e & [=] & ->)|([] & st3 & [= <-] & H3)].
  apply pbind_inv in H3 as [(e & Hm & ->)|(u & st4 & Hm & H4)];
    apply pmap_err_inv in Hm as ([u'|e'] & Hm & Er); simplify_eq/=; apply call_log in Hm as [E4 L4];
    cbn [run_effects run_log] in E4, L4.
  { eexists. split_and!; [by rewrite L4, L2, L1, <- !app_assoc|by rewrite E4, E2, E1|].
    right. rewrite <- P. split; [eauto|constructor]. }
  apply pbind_inv in H4 as [(e & [=] & ->)|([] & st5 & [= <-] & H5)].
  apply then_ret_inv in H5 as (r' & Hd & <-). apply detach_spec in Hd as (evs & Hd & L5 & E5).
  cbn [run_effects run_log] in E5, L5. destruct u'.
  eexists. split_and!; [by rewrite L5, L4, L2, L1, <- !app_assoc| |].
  - rewrite E5, E4, E2, E1, <- !app_assoc. done.
  - right. rewrite <- P. split; [eauto|]. by constructor.
Qed.

Lemma validate_spec request st st' r :
  validate request st = (st', r) ->
  run_effects st' = run_effects st /\
  ((exists e, run_log st' = run_log st /\ r = Err e) \/
   (exists a e, run_log st' = run_log st ++ [EvReread a] /\ (forall view, a <> Ok (Some view)) /\ r = Err e) \/
   (exists view, run_log st' = run_log st ++ [EvReread (Ok (Some view))] /\ r = validate_target request view)).
Proof.
  unfold validate. destruct (path_eqb _ _); [|intros [= <- <-]; split; [done|left; eauto]].
  intros [(e & Hp & ->)|(a & st1 & Hp & H1)]%pbind_inv;
    apply pmap_err_inv in Hp as ([a'|e'] & Hp & Er); simplify_eq/=; apply call_log in Hp as [E1 L1].
  { split; [done|]. right; left. eauto 6. }
  destruct a' as [view|]; injection H1 as <- <-; (split; [done|]); right; [right|left]; eauto.
Qed.

Lemma remove_dups_full {A} `{EqDecision A} (l : list A) : length (remove_dups l) = length l -> NoDup l.
Proof.
  assert (Hle : forall l : list A, length (remove_dups l) <= length l).
  { intros l'. induction l' as [|x l' IH]; simpl; [done|]. destruct (decide_rel _ _ _); simpl; lia. }
  induction l as [|x l IH]; simpl; [constructor|]. specialize (Hle l).
  destruct (decide_rel elem_of x l) as [Hin|Hin]; simpl; [lia|]. intros [= E]. constructor; auto.
Qed.

(** Every sequence of calls a run can make, with whether it succeeds. *)
Inductive disposal (request : DisposeRequest) : list Event -> bool -> Prop :=
| disposal_early : disposal request [] false
| disposal_unread r :
    (forall view, r <> Ok (Some view)) -> disposal request [EvReread r] false
| disposal_invalid view e :
    validate_target request view = Err e -> disposal request [EvReread (Ok (Some view))] false
| disposal_keep view plan evs ok :
    rq_policy request = PolicyKeep -> validate_target request view = Ok plan ->
    detaching (rq_name request) Keep evs ok ->
    disposal request (EvReread (Ok (Some view)) :: evs) ok
| disposal_unobserved view plan waivers e :
    rq_policy request = PolicyDelete waivers -> validate_target request view = Ok plan ->
    disposal request [EvReread (Ok (Some view)); EvObserve (plan_target plan) (Err e)] false
| disposal_refused view plan waivers evidence :
    rq_policy request = PolicyDelete waivers -> validate_target request view = Ok plan ->
    (te_unknown evidence <> [] \/ classify_target (plan_row plan) (Some (te_target evidence)) <> LReady) ->
    disposal request [EvReread (Ok (Some view)); EvObserve (plan_target plan) (Ok evidence)] false
| disposal_stale view plan waivers evidence evs ok :
    rq_policy request = PolicyDelete waivers -> validate_target request view = Ok plan ->
    te_unknown evidence = [] -> te_target evidence = TargetMissing -> te_repositories evidence = [] ->
    detaching (rq_name request) Stale evs ok ->
    disposal request (EvReread (Ok (Some view)) :: EvObserve (plan_target plan) (Ok evidence) :: evs) ok
| disposal_uncleared view plan waivers evidence seen answers :
    rq_policy request = PolicyDelete waivers -> validate_target request view = Ok plan ->
    te_unknown evidence = [] -> classify_target (plan_row plan) (Some (te_target evidence)) = LReady ->
    seen `prefix_of` te_repositories evidence -> asked W seen answers ->
    ~ (te_repositories evidence <> [] /\ seen = te_repositories evidence /\
       Forall (cleared waivers plan (te_copy evidence)) (te_repositories evidence) /\
       Forall (answer_passes waivers) answers) ->
    disposal request (EvReread (Ok (Some view)) :: EvObserve (plan_target plan) (Ok evidence) ::
                      history_log seen answers) false
| disposal_removing view plan waivers evidence answers evs ok :
    rq_policy request = PolicyDelete waivers -> NoDup waivers -> validate_target request view = Ok plan ->
    te_unknown evidence = [] -> classify_target (plan_row plan) (Some (te_target evidence)) = LReady ->
    te_repositories evidence <> [] -> asked W (te_repositories evidence) answers ->
    Forall (cleared waivers plan (te_copy evidence)) (te_repositories evidence) ->
    Forall (answer_passes waivers) answers ->
    removing (rq_name request) (row_allocation (plan_row plan)) (plan_target plan) evs ok ->
    disposal request (EvReread (Ok (Some view)) :: EvObserve (plan_target plan) (Ok evidence) ::
                      history_log (te_repositories evidence) answers ++ evs) ok.

Lemma classify_missing row target :
  classify_target row (Some target) = LMissing <-> target = TargetMissing.
Proof. split; [|by intros ->]. destruct target as [p m| |d]; [|done..]. simpl. by destruct (row_state row), p, m. Qed.

Lemma run_observed_trace request waivers view plan evidence w st r :
  rq_policy request = PolicyDelete waivers -> NoDup waivers -> validate_target request view = Ok plan ->
  let pre := [EvReread (Ok (Some view)); EvObserve (plan_target plan) (Ok evidence)] in
  run_observed request waivers plan evidence (mkRun w [] pre) = (st, r) ->
  disposal request (run_log st) (is_ok r) /\ run_effects st = effects_of (run_log st).
Proof.
  intros Hp Hd Hv. cbv zeta. destruct (decide (te_unknown evidence = [])) as [Hu|Hu].
  2: { unfold run_observed. rewrite bool_decide_false by (by intros E%nil_length_inv). cbn [negb].
       intros [= <- <-]. split; [|done]. cbn [run_log is_ok]. eapply disposal_refused; eauto. }
  destruct (decide (classify_target (plan_row plan) (Some (te_target evidence)) = LReady)) as [Hc|Hc].
  { intros H1. apply run_ready in H1 as (seen & answers & Hs & Ha & evs & L & E & HP); [|done..].
    cbn [run_log run_effects] in L, E. rewrite E, L. split.
    - destruct HP as [(Hn & -> & ->)|((Hne & -> & Hcl & Hans) & Hrem)].
      + rewrite app_nil_r. eapply disposal_uncleared; eauto.
      + eapply disposal_removing; eauto.
    - rewrite !effects_of_app, history_no_effects. done. }
  unfold run_observed. rewrite Hu, bool_decide_true by done. cbn [negb].
  destruct (decide (classify_target (plan_row plan) (Some (te_target evidence)) = LMissing)) as [Hm|Hm].
  - rewrite Hm. destruct (decide (te_repositories evidence = [])) as [He|He].
    + rewrite bool_decide_true by done. intros H1.
      apply then_ret_inv in H1 as (r' & HD & <-). apply detach_spec in HD as (evs & Hdt & L & E).
      cbn [run_log run_effects] in L, E. rewrite L, E. split; [|done].
      apply classify_missing in Hm. eapply disposal_stale; eauto.
    + rewrite bool_decide_false by done. intros [= <- <-]. split; [|done]. eapply disposal_refused; eauto.
  - destruct (classify_target _ _) eqn:E; try done; intros [= <- <-]; (split; [|done]);
      eapply disposal_refused; eauto; right; congruence.
Qed.

Lemma run_trace request w st r :
  run request (mkRun w [] []) = (st, r) ->
  disposal request (run_log st) (is_ok r) /\ run_effects st = effects_of (run_log st).
Proof.
  unfold run. intros [(e & Hw & ->)|(waivers & st0 & Hw & H1)]%pbind_inv.
  { destruct (rq_policy request) as [|ws]; [done|]. destruct (bool_decide _); [done|].
    injection Hw as <- _. split; [constructor|done]. }
  assert (st0 = mkRun w [] [] /\
    match waivers with
    | None => rq_policy request = PolicyKeep
    | Some ws => rq_policy request = PolicyDelete ws /\ NoDup ws
    end) as [-> Hpol].
  { destruct (rq_policy request) as [|ws]; [by injection Hw as <- <-|].
    destruct (decide (length (remove_dups ws) = length ws)) as [Hl|Hl];
      [rewrite bool_decide_true in Hw by done|by rewrite bool_decide_false in Hw by done].
    injection Hw as <- <-. split_and!; [done..|]. by apply remove_dups_full. }
  apply pbind_inv in H1 as [(e & Hv & ->)|(plan & st1 & Hv & H2)].
  { apply validate_spec in Hv as (E & [(e' & L & _)|[(a & e' & L & Ha & _)|(view & L & Hr)]]);
      cbn [run_effects run_log] in E, L; rewrite E, L; (split; [|done]); cbn [is_ok app]; by econstructor. }
  apply validate_spec in Hv as (E & [(e' & L & [=])|[(a & e' & L & Ha & [=])|(view & L & Hr)]]).
  cbn [run_effects run_log app] in E, L. destruct waivers as [ws|].
  - destruct Hpol as [Hpol Hnd].
    apply pbind_inv in H2 as [(e & Ho & ->)|(evidence & st2 & Ho & H3)];
      apply pmap_err_inv in Ho as ([a'|e'] & Ho & Er); simplify_eq/=; apply call_log in Ho as [E2 L2].
    + rewrite E2, E, L2, L. split; [|done]. by eapply disposal_unobserved.
    + destruct st2 as [w2 eff2 log2]. cbn [run_effects run_log] in E2, L2. subst eff2 log2.
      rewrite E, L in H3. exact (run_observed_trace _ _ _ _ _ _ _ _ Hpol Hnd (eq_sym Hr) H3).
  - apply then_ret_inv in H2 as (r' & HD & <-). apply detach_spec in HD as (evs & Hdt & L2 & E2).
    rewrite L2, E2, L, E. split; [|done]. by eapply disposal_keep.
Qed.

End disposal_proofs.
