(* ===== verification/RemoveTree.v ===== *)
(** The recursive remover behind disposal's [remove_directory]
    (src/src/local_clone/adapters/removal.rs), on the file system of
    [FileSystem]: it touches nothing outside the validated target, never
    through a link, and removes all of it when no call fails. *)

From S2P Require Export LocalDisposal FileSystem.

#[local] Set Default Proof Using "Type".

Implicit Types (t : Tree) (l : loc) (d : Disk).

(** ** The remover *)

Definition failure (target path : str) (e : IoError) : RemovalFailure :=
  mkRemovalFailure (PortRemoval path (io_text e)) (target :: (if path_eqb path target then [] else [path])).

Section remover.
Context (cwd : loc) (fault : nat -> option Fault).

Definition remove_link (path : str) : proc Disk unit IoError := sys fault (fun t => unlink cwd t path).

(** An error is a failure, or [None] where the fuel ran out. *)
Fixpoint remove_contents (fuel : nat) (target directory : str) : proc Disk unit (option RemovalFailure) :=
  match fuel with
  | 0 => pfail None
  | S fuel =>
      let fails path e := Some (failure target path e) in
      let! names := pmap_err (fails directory) (look fault (fun t => read_dir cwd t directory)) in
      (fix each (names : list str) : proc Disk unit (option RemovalFailure) :=
         match names with
         | [] => pret tt
         | name :: rest =>
             let path := path_join directory name in
             let! node := pmap_err (fails path) (look fault (fun t => lstat cwd t path)) in
             do! match node with
                 | NLink _ => pmap_err (fails path) (remove_link path)
                 | NDir =>
                     do! remove_contents fuel target path in
                     pmap_err (fails path) (sys fault (fun t => rmdir cwd t path))
                 | _ => pmap_err (fails path) (sys fault (fun t => unlink cwd t path))
                 end in
             each rest
         end) names
  end.

Definition refused (target detail : str) : RemovalFailure :=
  mkRemovalFailure (PortRemoval target detail) [target].

Definition remove_tree (target : str) : proc Disk unit (option RemovalFailure) := fun d =>
  (let fails e := Some (failure target target e) in
   let! node := pmap_err fails (look fault (fun t => lstat cwd t target)) in
   match node with
   | NLink _ => pfail (Some (refused target (lit "the target is a symbolic link; the remover never follows one")))
   | NDir =>
       do! remove_contents (S (depth (tree d))) target target in
       pmap_err fails (sys fault (fun t => rmdir cwd t target))
   | _ => pfail (Some (refused target (lit "the target is not a directory")))
   end) d.

End remover.

(** ** Trees *)

(** Only entries strictly below [l] went. *)
Record removed_below l t t' : Prop := {
  rb_sub : t' ⊆ t;
  rb_wf : tree_wf t';
  rb_frame : forall l', ~ (exists k, k <> [] /\ l' = k ++ l) -> t' !! l' = t !! l';
}.

Lemma removed_below_refl l t : tree_wf t -> removed_below l t t.
Proof. by split. Qed.

Lemma removed_below_trans l t1 t2 t3 : removed_below l t1 t2 -> removed_below l t2 t3 -> removed_below l t1 t3.
Proof. intros [S1 _ F1] [S2 W2 F2]. split; [by etrans|done|]. intros l' Hl'. by rewrite F2, F1. Qed.

Lemma removed_below_up l n t t' : removed_below (n :: l) t t' -> removed_below l t t'.
Proof.
  intros [S W F]. split; [done..|]. intros l' Hl'. apply F. intros (k & Hk & ->). apply Hl'.
  exists (k ++ [n]). split; [by destruct k|]. by rewrite <- app_assoc.
Qed.

(** A leaf is removed. *)
Lemma removed_leaf l n t :
  tree_wf t -> (forall m, t !! (m :: n :: l) = None) -> removed_below l t (delete (n :: l) t).
Proof.
  intros Hwf Hleaf. split; [apply delete_subseteq| |].
  - intros m l' [node Hl']. apply lookup_delete_Some in Hl' as [Hne Hl'].
    pose proof (Hwf m l' (ex_intro _ _ Hl')) as Hd. destruct l' as [|x l']; [done|]. cbn [node_at] in Hd |- *.
    rewrite lookup_delete_ne; [done|]. intros [= <- <-]. by rewrite Hleaf in Hl'.
  - intros l' Hl'. rewrite lookup_delete_ne; [done|]. intros <-. apply Hl'. by exists [n].
Qed.

(** ** Confinement *)

Section confined.
Context (cwd : loc) (fault : nat -> option Fault) (target : str) (t0 : Tree).
Context (plain0 : names_plain t0).

(** The directory a path led to at the start. *)
Record at_start (p : str) (l : loc) : Prop := {
  as_canonical : canonical cwd t0 p = Ok l;
  as_dir : node_at t0 l = Some NDir;
}.

Lemma entry_now t p l n lx :
  t ⊆ t0 -> at_start p l -> plain_name n -> entry cwd t (path_join p n) = Ok lx -> lx = n :: l.
Proof.
  intros Hsub [Hc Hd] Hn He.
  apply (entry_grows _ _ t0) in He; [|by apply grows_subseteq|by apply child_names; [eapply canonical_nonempty|]].
  rewrite (entry_child _ _ _ _ _ Hc Hd Hn) in He. congruence.
Qed.

Lemma unlink_confined p l n d d' r :
  tree d ⊆ t0 -> tree_wf (tree d) -> at_start p l -> plain_name n ->
  sys fault (fun t => unlink cwd t (path_join p n)) d = (d', r) -> removed_below l (tree d) (tree d').
Proof.
  intros Hsub Hwf Hs Hn [[-> _]|(lx & He & -> & _ & node & Hx & Hnd)]%unlink_spec; [by apply removed_below_refl|].
  apply (entry_now _ _ _ _ _ Hsub Hs Hn) in He as ->. apply removed_leaf; [done|].
  apply not_dir_leaf; [done|]. congruence.
Qed.

Lemma rmdir_confined p l n d d' r :
  tree d ⊆ t0 -> tree_wf (tree d) -> at_start p l -> plain_name n ->
  sys fault (fun t => rmdir cwd t (path_join p n)) d = (d', r) -> removed_below l (tree d) (tree d').
Proof.
  intros Hsub Hwf Hs Hn [[-> _]|(lx & He & -> & _ & Hc & _)]%rmdir_spec; [by apply removed_below_refl|].
  apply (entry_now _ _ _ _ _ Hsub Hs Hn) in He as ->. apply removed_leaf; [done|]. intros m.
  apply eq_None_not_Some. rewrite <- children_elem, Hc. apply not_elem_of_nil.
Qed.

(** The loop over a directory's names. *)
Definition each_of (fuel : nat) (directory : str) :=
  fix each (names : list str) : proc Disk unit (option RemovalFailure) :=
    match names with
    | [] => pret tt
    | name :: rest =>
        let path := path_join directory name in
        let! node := pmap_err (fun e => Some (failure target path e)) (look fault (fun t => lstat cwd t path)) in
        do! match node with
            | NLink _ => pmap_err (fun e => Some (failure target path e)) (remove_link cwd fault path)
            | NDir =>
                do! remove_contents cwd fault fuel target path in
                pmap_err (fun e => Some (failure target path e)) (sys fault (fun t => rmdir cwd t path))
            | _ => pmap_err (fun e => Some (failure target path e)) (sys fault (fun t => unlink cwd t path))
            end in
        each rest
    end.

Definition confined (l : loc) (d : Disk) (out : Disk * result unit (option RemovalFailure)) : Prop :=
  removed_below l (tree d) (tree out.1) /\ out.2 <> Err None.

Lemma mapped_confined l d (m : proc Disk unit IoError) path :
  removed_below l (tree d) (tree (m d).1) -> confined l d (pmap_err (fun e => Some (failure target path e)) m d).
Proof. unfold confined, pmap_err. destruct (m d) as [d' [[]|e]]; cbn; intros H; (split; [exact H|done]). Qed.

Lemma bind_confined {A} l d (m : proc Disk A (option RemovalFailure)) k :
  tree_wf (tree d) -> removed_below l (tree d) (tree (m d).1) -> (m d).2 <> Err None ->
  (forall a d1, m d = (d1, Ok a) -> removed_below l (tree d) (tree d1) -> confined l d1 (k a d1)) ->
  confined l d (pbind m k d).
Proof.
  intros Hwf H1 H2 H3. unfold confined, pbind. destruct (m d) as [d1 [a|e]] eqn:E; cbn [fst snd] in *.
  - destruct (H3 a d1 eq_refl H1) as [H4 H5]. split; [by eapply removed_below_trans|done].
  - split; [done|]. intros [= ->]. done.
Qed.

Lemma looked_confined {A} l d (act : Tree -> result A IoKind) path :
  tree_wf (tree d) -> removed_below l (tree d) (tree (pmap_err (fun e => Some (failure target path e)) (look fault act) d).1) /\
  (pmap_err (fun e => Some (failure target path e)) (look fault act) d).2 <> Err None.
Proof.
  intros Hwf. unfold pmap_err. destruct (look fault act d) as [d' r] eqn:E. apply look_tree in E. cbn [fst snd].
  rewrite E. split; [by apply removed_below_refl|]. by destruct r.
Qed.

Lemma sub_after l t t' : t ⊆ t0 -> removed_below l t t' -> t' ⊆ t0 /\ tree_wf t'.
Proof. intros Hs [S W _]. split; [by etrans|done]. Qed.

Lemma start_child p l n t : t ⊆ t0 -> at_start p l -> plain_name n -> lstat cwd t (path_join p n) = Ok NDir ->
  at_start (path_join p n) (n :: l).
Proof.
  intros Hsub Hs Hn (lx & He & Hl)%rbind_ok. apply (entry_now _ _ _ _ _ Hsub Hs Hn) in He as ->.
  destruct (node_at t (n :: l)) as [node|] eqn:E; [|done]. injection Hl as ->.
  assert (E0 : t0 !! (n :: l) = Some NDir) by (by eapply lookup_weaken).
  destruct Hs as [Hc Hd]. split; [by apply canonical_child|done].
Qed.

Lemma each_confined fuel p l :
  at_start p l ->
  (forall p' l' d, tree d ⊆ t0 -> tree_wf (tree d) -> at_start p' l' -> depth t0 < fuel + length l' ->
     confined l' d (remove_contents cwd fault fuel target p' d)) ->
  depth t0 < S fuel + length l -> forall names d, Forall plain_name names -> tree d ⊆ t0 -> tree_wf (tree d) ->
  confined l d (each_of fuel p names d).
Proof.
  intros Hs IH Hfuel names. induction names as [|n names IHn]; intros d Hp Hsub Hwf.
  { split; [by apply removed_below_refl|done]. }
  apply Forall_cons in Hp as [Hn Hp]. cbn [each_of].
  destruct (looked_confined l d (fun t => lstat cwd t (path_join p n)) (path_join p n) Hwf) as [L1 L2].
  apply bind_confined; [done..|]. intros node d1 Hl B1. destruct (sub_after _ _ _ Hsub B1) as [S1 W1].
  apply pmap_err_inv in Hl as (r0 & Hl & Er). destruct r0 as [node'|]; [|done]. injection Er as <-.
  pose proof (look_tree _ _ _ _ _ Hl) as E1. apply look_ok in Hl. rewrite <- E1 in Hl.
  assert (HE : confined l d1 ((match node with
      | NLink _ => pmap_err (fun e => Some (failure target (path_join p n) e)) (remove_link cwd fault (path_join p n))
      | NDir => do! remove_contents cwd fault fuel target (path_join p n) in
          pmap_err (fun e => Some (failure target (path_join p n) e)) (sys fault (fun t => rmdir cwd t (path_join p n)))
      | _ => pmap_err (fun e => Some (failure target (path_join p n) e)) (sys fault (fun t => unlink cwd t (path_join p n)))
      end) d1)).
  { assert (HU : confined l d1 (pmap_err (fun e => Some (failure target (path_join p n) e))
      (sys fault (fun t => unlink cwd t (path_join p n))) d1)).
    { apply mapped_confined. destruct (sys fault _ d1) as [d2 r2] eqn:E2. by eapply unlink_confined. }
    destruct node; try exact HU. pose proof (start_child _ _ _ _ S1 Hs Hn Hl) as Hs'.
    destruct (IH _ _ d1 S1 W1 Hs') as [C1 C2]; [cbn [length]; lia|]. apply removed_below_up in C1.
    apply bind_confined; [done..|]. intros [] d2 _ B2. destruct (sub_after _ _ _ S1 B2) as [S2 W2].
    apply mapped_confined. destruct (sys fault _ d2) as [d3 r3] eqn:E3. by eapply rmdir_confined. }
  destruct HE as [E2 E3]. apply bind_confined; [done..|]. intros [] d2 _ B2.
  destruct (sub_after _ _ _ S1 B2) as [S2 W2]. by apply IHn.
Qed.

Lemma read_dir_children t p l names :
  t ⊆ t0 -> at_start p l -> read_dir cwd t p = Ok names -> names = children t l /\ Forall plain_name names.
Proof using plain0.
  intros Hsub [Hc _] (l' & Hl' & Hn)%rbind_ok. apply (canonical_grows _ _ t0) in Hl'; [|by apply grows_subseteq].
  assert (l' = l) as -> by congruence. destruct (node_at t l) as [[]|]; try done. injection Hn as <-.
  split; [done|]. apply Forall_forall. intros n [node Hn]%children_elem.
  apply (lookup_weaken _ _ _ _ Hn), plain0, Forall_cons in Hsub as [? _]. done.
Qed.

(** The remover changes nothing that is not strictly below its directory, and
    its fuel suffices. *)
Lemma contents_confined fuel : forall p l d,
  tree d ⊆ t0 -> tree_wf (tree d) -> at_start p l -> depth t0 < fuel + length l ->
  confined l d (remove_contents cwd fault fuel target p d).
Proof using plain0.
  induction fuel as [|fuel IH]; intros p l d Hsub Hwf Hs Hfuel.
  { exfalso. destruct Hs as [_ Hd]. destruct l as [|n l]; [cbn in Hfuel; lia|].
    apply depth_bound in Hd. cbn [length] in *. lia. }
  cbn [remove_contents]. destruct (looked_confined l d (fun t => read_dir cwd t p) p Hwf) as [L1 L2].
  apply bind_confined; [done..|]. intros names d1 Hr B1. destruct (sub_after _ _ _ Hsub B1) as [S1 W1].
  apply pmap_err_inv in Hr as (r0 & Hr & Er). destruct r0 as [names'|]; [|done]. injection Er as <-.
  pose proof (look_tree _ _ _ _ _ Hr) as E1. apply look_ok in Hr. rewrite <- E1 in Hr.
  destruct (read_dir_children _ _ _ _ S1 Hs Hr) as [_ Hp]. by apply (each_confined fuel p l).
Qed.

End confined.

(** Nothing is left under an entry that is gone. *)
Lemma gone_below t l : tree_wf t -> l <> [] -> t !! l = None -> forall l', l `suffix_of` l' -> t !! l' = None.
Proof.
  intros Hwf Hne Hl l' [k ->]. induction k as [|n k IH]; [done|]. cbn [app].
  apply not_dir_leaf; [done|]. rewrite node_at_lookup; [by rewrite IH|]. by destruct k.
Qed.

(** What a run of the remover leaves. *)
Record removal (cwd : loc) (target : str) (t t' : Tree) (ok : bool) : Prop := {
  rm_sub : t' ⊆ t;
  rm_wf : tree_wf t';
  rm_outside : forall l', (forall l, entry cwd t target = Ok l -> ~ l `suffix_of` l') -> t' !! l' = t !! l';
  rm_done : ok = true -> exists l, entry cwd t target = Ok l /\ t !! l = Some NDir /\
    forall l', l `suffix_of` l' -> t' !! l' = None;
  rm_stopped : ok = false -> forall l, entry cwd t target = Ok l -> t' !! l = t !! l;
}.

Lemma removal_none cwd target t : tree_wf t -> removal cwd target t t false.
Proof. by split. Qed.

Lemma removal_below cwd target t t' l :
  removed_below l t t' -> entry cwd t target = Ok l -> removal cwd target t t' false.
Proof.
  intros [S W F] He. split; [done..| |done|].
  - intros l' Hl'. apply F. intros (k & _ & ->). apply (Hl' l He). by exists k.
  - intros _ l' Hl'. assert (l' = l) as -> by congruence. apply F. intros (k & Hk & E).
    apply (f_equal length) in E. rewrite length_app in E. destruct k; [done|]. cbn [length] in E. lia.
Qed.

Lemma removal_whole cwd target t t' l :
  removed_below l t t' -> entry cwd t target = Ok l -> node_at t l = Some NDir -> l <> [] -> children t' l = [] ->
  removal cwd target t (delete l t') true.
Proof.
  intros HB He Hd Hne Hc. pose proof HB as [S W F].
  assert (Hleaf : forall m, t' !! (m :: l) = None).
  { intros m. apply eq_None_not_Some. rewrite <- children_elem, Hc. apply not_elem_of_nil. }
  destruct l as [|n l]; [done|]. pose proof (removed_leaf l n t' W Hleaf) as [S2 W2 F2].
  split; [by etrans|done| | |done].
  - intros l' Hl'. specialize (Hl' _ He). rewrite lookup_delete_ne by (intros <-; by apply Hl').
    apply F. intros (k & _ & ->). apply Hl'. by exists k.
  - intros _. exists (n :: l). split_and!; [done..|]. apply gone_below; [done..|]. apply lookup_delete_eq.
Qed.

Lemma remove_tree_spec cwd fault target d d' r :
  tree_wf (tree d) -> names_plain (tree d) -> remove_tree cwd fault target d = (d', r) ->
  r <> Err None /\ removal cwd target (tree d) (tree d') (is_ok r).
Proof.
  intros Hwf Hpl. unfold remove_tree.
  intros [(e & (r0 & Hl & Er)%pmap_err_inv & ->)|(node & d1 & (r0 & Hl & Er)%pmap_err_inv & H1)]%pbind_inv;
    pose proof (look_tree _ _ _ _ _ Hl) as E1.
  { rewrite E1. split; [by destruct r0; simplify_eq/=|by apply removal_none]. }
  destruct r0 as [node'|]; [|done]. injection Er as <-. apply look_ok, rbind_ok in Hl as (l & He & Hn).
  destruct node; try (injection H1 as <- <-; rewrite E1; split; [done|by apply removal_none]).
  destruct (node_at (tree d) l) as [node|] eqn:Ed; [|done]. injection Hn as ->.
  pose proof (contents_confined cwd fault target (tree d) Hpl (S (depth (tree d))) target l d1) as [C1 C2].
  { by rewrite E1. } { by rewrite E1. } { split; [by apply entry_dir_canonical|done]. } { lia. }
  rewrite E1 in C1. apply pbind_inv in H1 as [(e & H1 & ->)|([] & d2 & H1 & H2)]; rewrite H1 in C1, C2; cbn [fst snd] in C1, C2.
  { split; [done|]. by eapply removal_below. }
  apply pmap_err_inv in H2 as (r2 & H2 & ->). split; [by destruct r2|].
  apply rmdir_spec in H2 as [[-> Hr]|(lx & Hx & -> & -> & Hc & Hne)].
  - destruct r2; [done|]. by eapply removal_below.
  - apply (entry_sub _ (tree d)) in Hx; [|by destruct C1]. assert (lx = l) as -> by congruence. by apply removal_whole.
Qed.

(** ** Completeness without faults *)

Section complete.
Context (cwd : loc) (target : str) (t0 : Tree).
Context (plain0 : names_plain t0).

Abbreviation no_fault := (fun _ : nat => @None Fault).

Lemma canonical_rooted t p l : path_components p = rooted l -> solid t l -> node_at t l = Some NDir -> canonical cwd t p = Ok l.
Proof.
  intros Hc Hs Hd. unfold canonical. rewrite bool_decide_false by (by intros ->). rewrite Hc. by eapply walk_rooted.
Qed.

(** A directory reached by its own spelling in the tree as it is now. *)
Record here (t : Tree) (p : str) (l : loc) : Prop := {
  hr_path : path_components p = rooted l;
  hr_solid : solid t l;
  hr_dir : node_at t l = Some NDir;
}.

Lemma here_sub t p l : t ⊆ t0 -> here t p l -> at_start cwd t0 p l.
Proof.
  intros Hsub [Hp Hs Hd]. pose proof (grows_subseteq _ _ Hsub) as HG.
  split; [eapply canonical_grows; [exact HG|by apply canonical_rooted]|by eapply node_at_grows].
Qed.

Lemma here_after t t' p l : removed_below l t t' -> here t p l -> here t' p l.
Proof.
  intros [_ W F] [Hp Hs Hd]. assert (HF : forall k, k `suffix_of` l -> node_at t' k = node_at t k).
  { intros k [x Hx]. destruct k as [|n k]; [done|]. cbn [node_at]. apply F. intros (y & Hy & E). rewrite E in Hx.
    apply (f_equal length) in Hx. rewrite !length_app in Hx. destruct y; [done|]. cbn [length] in Hx. lia. }
  split; [done| |by rewrite HF].
  assert (HS : forall k, k `suffix_of` l -> solid t k -> solid t' k).
  { induction k as [|n k IH]; [done|]. intros Hk [H1 H2]. assert (Hk' : k `suffix_of` l).
    { destruct Hk as [x ->]. exists (x ++ [n]). by rewrite <- app_assoc. }
    split; [by rewrite HF|by apply IH]. }
  by apply HS.
Qed.

Lemma here_child t p l n : here t p l -> plain_name n -> t !! (n :: l) = Some NDir -> here t (path_join p n) (n :: l).
Proof.
  intros [Hp Hs Hd] Hn Hl. split; [|by split|done].
  rewrite child_components, Hp, rooted_cons; [done| |done]. intros ->. done.
Qed.

(** One entry of a directory is removed. *)
Definition gone_entry (n : str) (l : loc) t t' : Prop :=
  t' !! (n :: l) = None /\ forall l', ~ (n :: l) `suffix_of` l' -> t' !! l' = t !! l'.

Lemma unlink_here t p l n node :
  here t p l -> plain_name n -> t !! (n :: l) = Some node -> node <> NDir ->
  unlink cwd t (path_join p n) = (delete (n :: l) t, Ok tt).
Proof.
  intros [Hp Hs Hd] Hn Hl Hnd. unfold unlink.
  rewrite (entry_child cwd t p l n); [|by apply canonical_rooted|done..]. cbn [node_at]. rewrite Hl. by destruct node.
Qed.

Lemma rmdir_here t p l n :
  here t p l -> plain_name n -> t !! (n :: l) = Some NDir -> (forall m, t !! (m :: n :: l) = None) ->
  rmdir cwd t (path_join p n) = (delete (n :: l) t, Ok tt).
Proof.
  intros [Hp Hs Hd] Hn Hl Hc. unfold rmdir.
  rewrite (entry_child cwd t p l n); [|by apply canonical_rooted|done..]. cbn [node_at]. rewrite Hl.
  rewrite bool_decide_true; [done|]. split; [|done]. destruct (children t (n :: l)) as [|m ms] eqn:E; [done|].
  assert (Hm : m ∈ children t (n :: l)) by (rewrite E; left). apply children_elem in Hm as [? Hm]. by rewrite Hc in Hm.
Qed.

Lemma lstat_here t p l n node :
  here t p l -> plain_name n -> t !! (n :: l) = Some node -> lstat cwd t (path_join p n) = Ok node.
Proof.
  intros [Hp Hs Hd] Hn Hl. unfold lstat.
  rewrite (entry_child cwd t p l n); [|by apply canonical_rooted|done..]. cbn [rbind node_at]. by rewrite Hl.
Qed.

Lemma read_dir_here t p l : here t p l -> read_dir cwd t p = Ok (children t l).
Proof. intros [Hp Hs Hd]. unfold read_dir. rewrite (canonical_rooted t p l) by done. cbn [rbind]. by rewrite Hd. Qed.

(** The run succeeds and leaves the directory empty. *)
Definition empties (l : loc) (d : Disk) (out : Disk * result unit (option RemovalFailure)) : Prop :=
  out.2 = Ok tt /\ forall m, tree out.1 !! (m :: l) = None.

Lemma sys_still {A} (act : Tree -> Tree * result A IoKind) d t' a :
  act (tree d) = (t', Ok a) -> sys no_fault act d = (mkDisk t' (S (clock d)) (drawn d) (locked d), Ok a).
Proof. intros E. unfold sys. by rewrite E. Qed.

Definition tick (t : Tree) (d : Disk) : Disk := mkDisk t (S (clock d)) (drawn d) (locked d).

Lemma look_here {A} (act : Tree -> result A IoKind) d a :
  act (tree d) = Ok a -> look no_fault act d = (tick (tree d) d, Ok a).
Proof. intros E. unfold look. apply sys_still. by rewrite E. Qed.

(** Removing one entry of the directory, when its own contents can be. *)
Lemma entry_gone fuel p l n d :
  tree d ⊆ t0 -> tree_wf (tree d) -> here (tree d) p l -> plain_name n -> is_Some (tree d !! (n :: l)) ->
  depth t0 < S fuel + length l ->
  (forall p' l' d, tree d ⊆ t0 -> tree_wf (tree d) -> here (tree d) p' l' -> depth t0 < fuel + length l' ->
     empties l' d (remove_contents cwd no_fault fuel target p' d)) ->
  forall rest, exists d', each_of cwd no_fault target fuel p (n :: rest) d = each_of cwd no_fault target fuel p rest d' /\
    gone_entry n l (tree d) (tree d') /\ removed_below l (tree d) (tree d').
Proof using plain0.
  intros Hsub Hwf Hh Hn [node Hl] Hfuel IH rest. cbn [each_of]. unfold pbind at 1. unfold pmap_err at 1.
  rewrite (look_here _ _ node) by (by eapply lstat_here). cbn [map_err]. set (d1 := tick (tree d) d).
  assert (HD : forall t, gone_entry n l t (delete (n :: l) t)).
  { intros t. split; [apply lookup_delete_eq|]. intros l' Hl'. apply lookup_delete_ne. intros <-. by apply Hl'. }
  assert (HU : node <> NDir -> exists d', sys no_fault (fun t => unlink cwd t (path_join p n)) d1 = (d', Ok tt) /\
    gone_entry n l (tree d) (tree d') /\ removed_below l (tree d) (tree d')).
  { intros Hnd. exists (tick (delete (n :: l) (tree d)) d1). split_and!; [|apply HD|].
    - apply sys_still. by eapply unlink_here.
    - apply removed_leaf; [done|]. apply not_dir_leaf; [done|]. cbn [node_at]. congruence. }
  destruct node.
  - assert (Hh' : here (tree d1) (path_join p n) (n :: l)) by by apply here_child.
    destruct (IH (path_join p n) (n :: l) d1 Hsub Hwf Hh') as [E1 E2]; [cbn [length]; lia|].
    pose proof (contents_confined cwd no_fault target t0 plain0 fuel (path_join p n) (n :: l) d1 Hsub Hwf
      (here_sub _ _ _ Hsub Hh')) as [C1 _]; [cbn [length]; lia|].
    destruct (remove_contents cwd no_fault fuel target (path_join p n) d1) as [d2 r2] eqn:E.
    cbn [fst snd] in E1, E2, C1. subst r2.
    assert (H2 : tree d2 !! (n :: l) = Some NDir) by (apply (hr_dir _ _ _ (here_after _ _ _ _ C1 Hh'))).
    exists (tick (delete (n :: l) (tree d2)) d2). split_and!.
    + unfold pbind at 1 2. rewrite E. unfold pmap_err. erewrite sys_still; [done|].
      apply rmdir_here; [|done..]. eapply here_after; [eapply removed_below_up, C1|done].
    + destruct (HD (tree d2)) as [G1 G2]. split; [exact G1|]. intros l' Hl'. cbn [tick tree]. rewrite G2 by done.
      destruct C1 as [_ _ F]. apply F. intros (k & _ & ->). apply Hl'. by exists k.
    + eapply removed_below_trans; [eapply removed_below_up, C1|]. apply removed_leaf; [by destruct C1|done].
  - destruct HU as (d' & E & HG); [done|]. exists d'. split; [|done]. unfold pbind at 1, pmap_err. by rewrite E.
  - destruct HU as (d' & E & HG); [done|]. exists d'. split; [|done]. unfold pbind at 1, pmap_err, remove_link. by rewrite E.
  - destruct HU as (d' & E & HG); [done|]. exists d'. split; [|done]. unfold pbind at 1, pmap_err. by rewrite E.
Qed.

Lemma each_empties fuel p l :
  depth t0 < S fuel + length l ->
  (forall p' l' d, tree d ⊆ t0 -> tree_wf (tree d) -> here (tree d) p' l' -> depth t0 < fuel + length l' ->
     empties l' d (remove_contents cwd no_fault fuel target p' d)) ->
  forall names d, NoDup names -> (forall n, n ∈ names <-> is_Some (tree d !! (n :: l))) ->
  tree d ⊆ t0 -> tree_wf (tree d) -> here (tree d) p l -> empties l d (each_of cwd no_fault target fuel p names d).
Proof using plain0.
  intros Hfuel IH names. induction names as [|n names IHn]; intros d HN Hin Hsub Hwf Hh.
  { split; [done|]. intros m. apply eq_None_not_Some. rewrite <- Hin. apply not_elem_of_nil. }
  apply NoDup_cons in HN as [Hn HN]. assert (Hl : is_Some (tree d !! (n :: l))) by (apply Hin; left).
  assert (Hp : plain_name n).
  { destruct Hl as [node Hl]. apply (lookup_weaken _ _ _ _ Hl), plain0, Forall_cons in Hsub as [? _]. done. }
  destruct (entry_gone fuel p l n d Hsub Hwf Hh Hp Hl Hfuel IH names) as (d' & E & [G1 G2] & B). unfold empties. rewrite E.
  destruct (sub_after t0 _ _ _ Hsub B) as [S1 W1]. apply IHn; [done| |done..|by eapply here_after].
  intros m. destruct (decide (m = n)) as [->|Hne].
  - rewrite G1. split; [done|]. by intros [? ?].
  - rewrite G2; [rewrite <- Hin, elem_of_cons; naive_solver|]. intros [k Hk]. destruct k as [|x k]; [cbn [app] in Hk; congruence|].
    apply (f_equal length) in Hk. rewrite length_app in Hk. cbn [length] in Hk. lia.
Qed.

Lemma contents_empties fuel : forall p l d,
  tree d ⊆ t0 -> tree_wf (tree d) -> here (tree d) p l -> depth t0 < fuel + length l ->
  empties l d (remove_contents cwd no_fault fuel target p d).
Proof using plain0.
  induction fuel as [|fuel IH]; intros p l d Hsub Hwf Hh Hfuel.
  { exfalso. destruct (here_sub _ _ _ Hsub Hh) as [_ Hd]. destruct l as [|n l]; [cbn in Hfuel; lia|].
    apply depth_bound in Hd. cbn [length] in *. lia. }
  cbn [remove_contents]. unfold pbind at 1, pmap_err at 1. rewrite (look_here _ _ (children (tree d) l)) by (by apply read_dir_here).
  cbn [map_err]. apply (each_empties fuel p l); try done; [apply children_nodup|intros n; apply children_elem].
Qed.

End complete.

Lemma entry_here cwd t p n l : here t p (n :: l) -> entry cwd t p = Ok (n :: l).
Proof.
  intros [Hp [Hd Hs] _]. unfold entry. rewrite Hp, rooted_cons, last_snoc, removelast_snoc.
  rewrite (walk_rooted _ _ _ l NDir) by done. cbn [rbind]. by rewrite Hd.
Qed.

(** With no fault, a directory named by its own path is removed whole. *)
Lemma remove_tree_complete cwd target l d :
  tree_wf (tree d) -> names_plain (tree d) -> here (tree d) target l -> l <> [] ->
  (remove_tree cwd (fun _ => None) target d).2 = Ok tt.
Proof.
  intros Hwf Hpl Hh Hne. destruct l as [|n l]; [done|]. unfold remove_tree. unfold pbind at 1, pmap_err at 1.
  pose proof (entry_here cwd _ _ _ _ Hh) as He. pose proof Hh as [_ _ Hn].
  rewrite (look_here _ _ NDir) by (unfold lstat; rewrite He; cbn [rbind]; by rewrite Hn). cbn [map_err].
  set (d1 := tick (tree d) d). pose proof (contents_empties cwd target (tree d) Hpl (S (depth (tree d))) target (n :: l) d1) as [E1 E2];
    [done..|cbn [length]; lia|].
  pose proof (contents_confined cwd (fun _ => None) target (tree d) Hpl (S (depth (tree d))) target (n :: l) d1) as [C1 _];
    [done..|split; [by apply entry_dir_canonical|done]|cbn [length]; lia|].
  unfold pbind. destruct (remove_contents cwd _ (S (depth (tree d))) target target d1) as [d2 r2]. cbn [fst snd] in *. subst r2.
  pose proof (here_after _ _ _ _ C1 Hh) as Hh'. pose proof Hh' as [_ _ Hn'].
  unfold pmap_err. rewrite (sys_still _ d2 (delete (n :: l) (tree d2)) tt); [done|]. unfold rmdir.
  rewrite (entry_here cwd _ _ _ _ Hh'), Hn', bool_decide_true; [done|]. split; [|done].
  destruct (children (tree d2) (n :: l)) as [|m ms] eqn:E; [done|].
  assert (Hm : m ∈ children (tree d2) (n :: l)) by (rewrite E; left). apply children_elem in Hm as [? Hm]. by rewrite E2 in Hm.
Qed.

(** ** A tree with a link out of it *)

Definition removal_demo : Disk := mkDisk
  (<[ [lit "t"] := NDir ]> (<[ [lit "a"; lit "t"] := NDir ]> (<[ [lit "f"; lit "a"; lit "t"] := NFile [1%N] ]>
  (<[ [lit "out"; lit "t"] := NLink (lit "/keep") ]> (<[ [lit "keep"] := NDir ]>
  (<[ [lit "x"; lit "keep"] := NFile [2%N] ]> ∅)))))) 0 0 [].

Lemma removal_demo_wf : tree_wf (tree removal_demo).
Proof. apply tree_wf_entries. refine (bool_decide_unpack _ _). vm_compute. exact I. Qed.

Lemma removal_demo_plain : names_plain (tree removal_demo).
Proof. apply names_plain_entries. refine (bool_decide_unpack _ _). vm_compute. exact I. Qed.

(** ** Claims *)

(** C11: the remover is confined to its target.  Whatever calls fail and
    wherever links inside or on the way to the target lead, a run of
    [remove_tree] creates and rewrites nothing and removes only entries at or
    below the entry the target path named at the start; if it reports
    success that entry was a directory and nothing at or below it is left; if
    it stops, the target's own entry still stands.  Its recursion never runs
    out of fuel. *)
Theorem removal_confined (cwd : loc) (fault : nat -> option Fault) (target : str) (d : Disk) :
  tree_wf (tree d) -> names_plain (tree d) ->
  let '(d', r) := remove_tree cwd fault target d in
  r <> Err None /\ tree d' ⊆ tree d /\
  (forall l', (forall l, entry cwd (tree d) target = Ok l -> ~ l `suffix_of` l') -> tree d' !! l' = tree d !! l') /\
  (r = Ok tt -> exists l, entry cwd (tree d) target = Ok l /\ tree d !! l = Some NDir /\
     forall l', l `suffix_of` l' -> tree d' !! l' = None) /\
  (r <> Ok tt -> forall l, entry cwd (tree d) target = Ok l -> tree d' !! l = tree d !! l).
Proof.
  intros Hwf Hpl. destruct (remove_tree cwd fault target d) as [d' r] eqn:E.
  destruct (remove_tree_spec _ _ _ _ _ _ Hwf Hpl E) as [Hr [H1 _ H2 H3 H4]]. split_and!; try done.
  - intros ->. by apply H3.
  - intros Hn. apply H4. by destruct r as [[]|].
Qed.

Lemma removal_confined_witness :
  let '(d', r) := remove_tree [] (fun _ => None) (lit "/t") removal_demo in
  r = Ok tt /\ tree d' !! [lit "x"; lit "keep"] = Some (NFile [2%N]) /\
  exists l, entry [] (tree removal_demo) (lit "/t") = Ok l /\ forall l', l `suffix_of` l' -> tree d' !! l' = None.
Proof.
  pose proof (removal_confined [] (fun _ => None) (lit "/t") removal_demo removal_demo_wf removal_demo_plain) as H.
  assert (Hr : (remove_tree [] (fun _ => None) (lit "/t") removal_demo).2 = Ok tt) by (vm_compute; reflexivity).
  assert (Hk : tree (remove_tree [] (fun _ => None) (lit "/t") removal_demo).1 !! [lit "x"; lit "keep"] = Some (NFile [2%N]))
    by (vm_compute; reflexivity).
  destruct (remove_tree [] (fun _ => None) (lit "/t") removal_demo) as [d' r]. cbn [fst snd] in Hr, Hk.
  destruct H as (_ & _ & _ & H & _). destruct (H Hr) as (l & He & _ & Hg).
  split; [exact Hr|split; [exact Hk|exists l; split; [exact He|exact Hg]]].
Defined.

(** Without an I/O fault the remover removes its target whole.  For a
    directory named by its own resolved path, which is how disposal names a
    validated target, the run succeeds, and what is left is exactly the
    entries that were not at or below it. *)
Theorem removal_complete (cwd : loc) (target : str) (l : loc) (d : Disk) :
  tree_wf (tree d) -> names_plain (tree d) -> here (tree d) target l -> l <> [] ->
  let '(d', r) := remove_tree cwd (fun _ => None) target d in
  r = Ok tt /\ forall l', tree d' !! l' = if bool_decide (l `suffix_of` l') then None else tree d !! l'.
Proof.
  intros Hwf Hpl Hh Hne. pose proof (remove_tree_complete cwd target l d Hwf Hpl Hh Hne) as Hr.
  destruct (remove_tree cwd (fun _ => None) target d) as [d' r] eqn:E. cbn [snd] in Hr. subst r. split; [done|].
  destruct (remove_tree_spec _ _ _ _ _ _ Hwf Hpl E) as [_ [_ _ H2 H3 _]].
  destruct (H3 eq_refl) as (lx & Hx & _ & Hg). destruct l as [|n l]; [done|].
  rewrite (entry_here cwd _ _ _ _ Hh) in Hx. injection Hx as <-. intros l'. case_bool_decide as Hs; [by apply Hg|].
  apply H2. intros l0 Hl0. rewrite (entry_here cwd _ _ _ _ Hh) in Hl0. by injection Hl0 as <-.
Qed.

Lemma removal_complete_witness :
  (remove_tree [] (fun _ => None) (lit "/t") removal_demo).2 = Ok tt /\
  tree (remove_tree [] (fun _ => None) (lit "/t") removal_demo).1 !! [lit "x"; lit "keep"] = Some (NFile [2%N]).
Proof.
  assert (Hh : here (tree removal_demo) (lit "/t") [lit "t"]) by (split; [vm_compute; reflexivity|by split|reflexivity]).
  pose proof (removal_complete [] (lit "/t") [lit "t"] removal_demo removal_demo_wf removal_demo_plain Hh ltac:(discriminate)) as H.
  destruct (remove_tree [] (fun _ => None) (lit "/t") removal_demo) as [d' r]. destruct H as [Hr Hl].
  split; [exact Hr|]. cbn [fst]. rewrite Hl. vm_compute. reflexivity.
Defined.
