(* ===== verification/DisposalProofs.v ===== *)
(** What a disposal promises: where its target lies, what must hold before
    the directory is removed, what the reported effects mean and what is left
    of the index.  The claims are proved of every session and every port; the
    instances at the end run the sequence on a small family. *)

From S2P Require Export LocalDisposal DemoFamily.

#[local] Set Default Proof Using "Type".

(** ** The validated target *)

Lemma member_path_ok name path m :
  member_path name path = Ok m <-> validate_path path = Ok m.
Proof. apply map_err_ok. Qed.

Lemma overlaps_false r : overlaps r = false <-> r = FamilyPath.Disjoint.
Proof. by destruct r. Qed.

Record validated (request : DisposeRequest) (view : FamilyView) (plan : Plan) : Prop := {
  vd_row : bt_get (view_members view) (rq_name request) = Some (plan_row plan);
  vd_path : member_path_wf (row_at (plan_row plan));
  vd_target : plan_target plan = resolve (path_join (rq_root request) (row_path (plan_row plan)));
  vd_not_root : path_eqb (plan_target plan) (resolve (rq_root request)) = false;
  vd_not_above_root : path_starts_with (resolve (rq_root request)) (plan_target plan) = false;
  vd_not_in_root : path_starts_with (plan_target plan) (resolve (rq_root request)) = false;
  vd_not_above_cwd : path_starts_with (resolve (rq_cwd request)) (plan_target plan) = false;
  vd_others : forall name row, name <> rq_name request -> bt_get (view_members view) name = Some row ->
    member_path_wf (row_at row) /\ relate (row_at (plan_row plan)) (row_at row) = FamilyPath.Disjoint;
}.

Lemma validate_target_spec request view plan :
  validate_target request view = Ok plan -> validated request view plan.
Proof.
  unfold validate_target. destruct (bt_get _ _) as [row|] eqn:Hrow; [|done].
  intros H. apply rbind_ok in H as (recorded & Hrec & H). cbv zeta in H.
  apply member_path_ok, validate_path_wf in Hrec as [Hstr Hwf].
  assert (recorded = row_at row) as -> by (destruct recorded; unfold row_at; by f_equal).
  cbn [row_at path_str] in H.
  destruct (path_eqb _ _) eqn:H1; [done|]. destruct (path_starts_with (resolve (rq_root request)) _) eqn:H2; [done|].
  cbn [orb] in H. destruct (path_starts_with _ (resolve (rq_root request))) eqn:H3; [done|].
  destruct (path_starts_with (resolve (rq_cwd request)) _) eqn:H4; [done|].
  apply rbind_ok in H as ([] & Hall & [= <-]). constructor; cbn [plan_row plan_target]; try done.
  intros name other Hne Hget. rewrite for_each_ok, Forall_forall in Hall.
  specialize (Hall (name, other) ltac:(by apply bt_elem_get)). unfold clear_of_member in Hall.
  rewrite bool_decide_false in Hall by done.
  apply rbind_ok in Hall as (p & Hp & Hov). apply member_path_ok, validate_path_wf in Hp as [Hs Hw].
  assert (p = row_at other) as -> by (destruct p; unfold row_at; by f_equal).
  split; [done|]. destruct (overlaps _) eqn:E; [done|]. by apply overlaps_false in E.
Qed.

Lemma member_relative m : member_path_wf m -> is_absolute (path_str m) = false.
Proof.
  intros (k & ords & Hk & _ & _ & E). destruct (shape_first k ords Hk) as (rest & E').
  by rewrite E, E'.
Qed.

(** The directory a member's recorded path names from a root. *)
Definition place (root : str) (row : MemberRow) : list str :=
  locate (directory root) (components (row_at row)).

Lemma validated_place request view plan :
  is_absolute (rq_root request) = true -> validated request view plan ->
  is_absolute (path_join (rq_root request) (row_path (plan_row plan))) = true /\
  directory (path_join (rq_root request) (row_path (plan_row plan))) = place (rq_root request) (plan_row plan).
Proof. intros Hr V. apply directory_join; [done|]. exact (member_relative _ (vd_path _ _ _ V)). Qed.

Definition apart (a b : list str) : Prop := ~ a `suffix_of` b /\ ~ b `suffix_of` a.

Lemma validated_clear request view plan :
  is_absolute (rq_root request) = true -> is_absolute (rq_cwd request) = true ->
  validated request view plan ->
  let t := place (rq_root request) (plan_row plan) in
  path_components (plan_target plan) = rooted t /\
  apart t (directory (rq_root request)) /\ ~ t `suffix_of` directory (rq_cwd request) /\
  forall name row, name <> rq_name request -> bt_get (view_members view) name = Some row ->
    shortest (directory (rq_root request)) (row_at (plan_row plan)) ->
    shortest (directory (rq_root request)) (row_at row) ->
    apart t (place (rq_root request) row).
Proof.
  intros Hr Hc V. cbv zeta. destruct (validated_place _ _ _ Hr V) as [Ha Hd].
  destruct (resolve_absolute _ Ha) as [Hcomp _]. rewrite <- (vd_target _ _ _ V), Hd in Hcomp.
  pose proof (vd_not_above_root _ _ _ V) as H1. pose proof (vd_not_in_root _ _ _ V) as H2.
  pose proof (vd_not_above_cwd _ _ _ V) as H3. rewrite (vd_target _ _ _ V) in H1, H2, H3.
  rewrite resolved_starts_with in H1, H2, H3 by done. rewrite Hd in H1, H2, H3.
  rewrite bool_decide_eq_false in H1, H2, H3.
  split_and!; [done|done..|]. intros name row Hne Hget Sa Sb.
  destruct (vd_others _ _ _ V name row Hne Hget) as [Hw Hdis].
  apply shortest_disjoint; [exact (vd_path _ _ _ V)|done..].
Qed.

(** ** What a removal needed *)

Section removal.
Context {W : Type} `{FamilySession W, DisposalPorts W}.

Lemma dispose_trace request (w : W) st r :
  dispose request w = (st, r) ->
  disposal request (run_log st) (is_ok r) /\
  match r with Ok report => dr_effects report | Err failure => df_effects failure end = effects_of (run_log st).
Proof.
  unfold dispose. destruct (run request _) as [st' r'] eqn:E. intros [= <- <-].
  apply run_trace in E as [T E]. destruct r'; done.
Qed.

Definition is_removal (e : Event) : bool := match e with EvRemove _ _ => true | _ => false end.

Lemma detaching_no_removal name reason evs ok :
  detaching name reason evs ok -> Forall (fun e => is_removal e = false) evs.
Proof. destruct 1; repeat constructor. Qed.

Lemma history_no_removal seen answers : Forall (fun e => is_removal e = false) (history_log seen answers).
Proof.
  unfold history_log. generalize (omap history_query seen) as qs. intros qs. revert answers.
  induction qs as [|q qs IH]; intros [|a answers]; simpl; constructor; [done|apply IH].
Qed.

(** The calls before and after the removal of one run. *)
Record authorised (request : DisposeRequest) (target : str) (before after : list Event)
    (view : FamilyView) (plan : Plan) (waivers : list HazardWaiver) (evidence : TargetEvidence)
    (answers : list HistoryAnswer) : Prop := {
  au_policy : rq_policy request = PolicyDelete waivers;
  au_valid : validated request view plan;
  au_target : target = plan_target plan;
  au_ready : row_state (plan_row plan) = Ready;
  au_observed : te_target evidence = TargetPresent PtrMatches MarkMatches;
  au_known : te_unknown evidence = [];
  au_inspected : te_repositories evidence <> [];
  au_asked : asked W (te_repositories evidence) answers;
  au_cleared : Forall (cleared waivers plan (te_copy evidence)) (te_repositories evidence);
  au_answered : Forall (answer_passes waivers) answers;
  au_before : exists b, before =
    EvReread (Ok (Some view)) :: EvObserve target (Ok evidence) ::
    history_log (te_repositories evidence) answers ++
    [EvApply (MarkDisposing (rq_name request) (row_allocation (plan_row plan))) (Ok b)];
  au_after : Forall (fun e => is_removal e = false) after;
}.

Lemma elem_removal (l : list Event) target answer :
  EvRemove target answer ∈ l -> ~ Forall (fun e => is_removal e = false) l.
Proof. intros Hin Hf. rewrite Forall_forall in Hf. by specialize (Hf _ Hin). Qed.

Lemma trace_removal request log ok target answer :
  disposal request log ok -> EvRemove target answer ∈ log ->
  exists before after view plan waivers evidence answers,
    log = before ++ EvRemove target answer :: after /\
    authorised request target before after view plan waivers evidence answers.
Proof.
  intros HT Hin. destruct HT; try (exfalso; apply elem_removal in Hin; apply Hin; clear Hin;
    repeat constructor; by eauto using detaching_no_removal, history_no_removal).
  match goal with H : classify_target _ _ = LReady |- _ => apply classify_target_ready in H as [Hst [= Ht]] end.
  match goal with H : validate_target _ _ = _ |- _ => apply validate_target_spec in H as V end.
  assert (HR : exists b after, evs =
      [EvApply (MarkDisposing (rq_name request) (row_allocation (plan_row plan))) (Ok b)] ++
      EvRemove target answer :: after /\ target = plan_target plan /\
      Forall (fun e => is_removal e = false) after).
  { rewrite !elem_of_cons, elem_of_app in Hin. destruct Hin as [[=]|[[=]|[Hin|Hin]]].
    { by apply elem_removal in Hin; destruct Hin; apply history_no_removal. }
    match goal with H : removing _ _ _ _ _ |- _ => destruct H as [e|b f|b evs ok Hd] end;
      rewrite !elem_of_cons in Hin.
    - destruct Hin as [[=]|Hin]; by apply not_elem_of_nil in Hin.
    - destruct Hin as [[=]|[[= -> ->]|Hin]]; [|by apply not_elem_of_nil in Hin].
      exists b, []. repeat constructor.
    - destruct Hin as [[=]|[[= -> ->]|Hin]].
      + exists b, evs. split_and!; [done..|]. by eapply detaching_no_removal.
      + apply elem_removal in Hin. destruct Hin. by eapply detaching_no_removal. }
  destruct HR as (b & after & -> & -> & Haft).
  eexists _, after, view, plan, waivers, evidence, answers. split.
  { rewrite app_assoc. rewrite !app_comm_cons. done. }
  constructor; try done. exists b. done.
Qed.

End removal.

(** ** What is left of the index *)

(** The documented behaviour of the ports, by the index: observing writes
    nothing, and the recursive removal of a tree that does not hold the root
    does not reach the root's files. *)
Class PortLaws (W : Type) `{SessionLaws W} `{DisposalPorts W} : Prop := {
  observe_keeps : forall t w w' r, observe_target t w = (w', r) ->
    stored w' = stored w /\ session_root w' = session_root w;
  history_keeps : forall q w w' a, port_check_history q w = (w', a) ->
    stored w' = stored w /\ session_root w' = session_root w;
  removal_keeps : forall t w w' r, remove_directory t w = (w', r) ->
    path_starts_with (resolve (session_root w)) t = false -> stored w' = stored w;
}.

Section index.
#[local] Set Default Proof Using "Type*".
Context {W : Type} {FS : FamilySession W} {SL : SessionLaws W} {DP : DisposalPorts W} {PL : PortLaws W}.
Implicit Types st : Run W.

Definition keeps (st st' : Run W) : Prop :=
  stored (run_world st') = stored (run_world st) /\
  session_root (run_world st') = session_root (run_world st).

Lemma keeps_trans st1 st2 st3 : keeps st1 st2 -> keeps st2 st3 -> keeps st1 st3.
Proof. intros [] []. split; congruence. Qed.

Lemma inspect_keeps plan evidence waivers st st' r :
  inspect plan evidence waivers st = (st', r) -> keeps st st'.
Proof.
  unfold inspect. destruct (bool_decide _); [by intros [= <- <-]|].
  assert (HL : forall repositories copy g st st' r,
    inspect_repositories plan copy g repositories st = (st', r) -> keeps st st').
  { clear - PL. induction repositories as [|x rest IH]; intros copy g st st' r; cbn [inspect_repositories].
    { by intros [= <- <-]. }
    intros [(e & [= <- _] & _)|(g1 & st1 & [= <- _] & H1)]%pbind_inv; [done|].
    assert (HH : forall st2 r2, inspect_history g1 x st = (st2, r2) -> keeps st st2).
    { unfold inspect_history. destruct (re_history x) as [p|]; [|by intros ?? [= <- <-]].
      intros st2 r2. destruct (call _ _ st) as [st3 a] eqn:Ec. intros [= <- <-].
      apply call_world, history_keeps in Ec. done. }
    apply pbind_inv in H1 as [(e & Hh & _)|(g2 & st2 & Hh & Hr)]; [by eapply HH|].
    eapply keeps_trans; [by eapply HH|by eapply IH]. }
  intros [(e & Hi & _)|(g & st1 & Hi & [= <- _])]%pbind_inv; by eapply HL.
Qed.

Lemma apply_call c st st' r :
  change_spelled c -> pmap_err DeStore (call (session_apply c) (EvApply c)) st = (st', r) ->
  session_root (run_world st') = session_root (run_world st) /\
  ((is_ok r = false /\ stored (run_world st') = stored (run_world st)) \/
   changed_index (stored (run_world st)) c (stored (run_world st'))).
Proof.
  intros Hs ([a|e] & Hc & ->)%pmap_err_inv; apply call_world in Hc; (split; [by eapply apply_root|]).
  - apply apply_accepts in Hc as [? _]; [by right|done].
  - apply apply_fails in Hc as [?|?]; [by left|by right|done].
Qed.

Lemma changed_step w c after :
  changed_index (stored w) c after -> c <> Disband ->
  exists v v', stored w = Some v /\ after = Some v' /\ family_step v c v'.
Proof.
  unfold changed_index. destruct (stored w) as [v|] eqn:E; [|by intros [-> _]].
  intros (vc & Hv & ->) Hd. exists v, (vc_next vc). split_and!; [done|by destruct c|].
  apply accepted_step; [|done]. by eapply stored_valid.
Qed.

Lemma detach_index request reason st st' r :
  detach request reason st = (st', r) ->
  (is_ok r = false /\ stored (run_world st') = stored (run_world st)) \/
  exists v v', stored (run_world st) = Some v /\ stored (run_world st') = Some v' /\
    family_step v (RemoveRow (rq_name request) reason) v'.
Proof.
  unfold detach. intros [(e & Hp & ->)|(a & st1 & Hp & H1)]%pbind_inv;
    apply pmap_err_inv in Hp as ([a'|e'] & Hp & Er); simplify_eq/=;
    apply call_world, remove_pointer_index in Hp as [E1 _]; [by left|].
  apply pbind_inv in H1 as [(e & Hq & ->)|([] & st2 & Hq & H2)]; [by destruct (existsb _ _) in Hq|].
  assert (E2 : run_world st2 = run_world st1) by (destruct (existsb _ _) in Hq; by injection Hq as <-).
  apply pbind_inv in H2 as [(e & Hr & ->)|(b & st3 & Hr & H3)]; apply apply_call in Hr as [_ Hr]; try done;
    rewrite E2 in Hr.
  - rewrite <- E1. destruct Hr as [Hr|Hr]; [by left|right]. by apply changed_step.
  - injection H3 as <- <-. cbn [run_world]. rewrite <- E1. destruct Hr as [[[=] _]|Hr]. right.
    by apply changed_step.
Qed.

Lemma updates_trans v1 v2 v3 name o o' : updates v1 v2 name o -> updates v2 v3 name o' -> updates v1 v3 name o'.
Proof.
  intros (? & ? & _ & H1) (? & ? & ? & H2). split_and!; [congruence..|].
  intros n Hn. by rewrite H2, H1.
Qed.

(** The named row is gone and nothing else changed. *)
Definition row_gone (name : MemberName) (before after : option FamilyView) : Prop :=
  exists v v' row, before = Some v /\ after = Some v' /\
    bt_get (view_members v) name = Some row /\ updates v v' name None.

(** The named row, which was ready, is marked and nothing else changed. *)
Definition row_marked (name : MemberName) (before after : option FamilyView) : Prop :=
  exists v v' row, before = Some v /\ after = Some v' /\
    bt_get (view_members v) name = Some row /\ row_state row = Ready /\
    updates v v' name (Some (set_state row Disposing)).

(** What a run may leave of the index, by its result. *)
Definition left_over (name : MemberName) (before after : option FamilyView) {A E} (r : result A E) : Prop :=
  row_gone name before after \/
  (is_ok r = false /\ (after = before \/ row_marked name before after)).

Lemma detach_left_over {A} request reason st st' (a : A) r :
  (do! detach request reason in pret a) st = (st', r) ->
  left_over (rq_name request) (stored (run_world st)) (stored (run_world st')) r.
Proof.
  intros (r' & Hd & Hr)%then_ret_inv. apply detach_index in Hd as [[Hn E]|(v & v' & E1 & E2 & Hs)].
  - right. split; [congruence|by left].
  - left. inversion Hs; subst. exists v, v'. eauto.
Qed.

Lemma marked_then_gone name before mid after :
  row_marked name before mid -> row_gone name mid after -> row_gone name before after.
Proof.
  intros (v & v1 & row & -> & -> & Hg & _ & Hu) (v2 & v' & row' & [= <-] & -> & _ & Hu').
  exists v, v', row. split_and!; [done..|]. by eapply updates_trans.
Qed.

Lemma marked_not_ready name before mid after :
  row_marked name before mid -> ~ row_marked name mid after.
Proof.
  intros (v & v1 & row & -> & -> & _ & _ & (_ & _ & Hg & _)) (v2 & v' & row' & [= <-] & _ & Hg' & Hr & _).
  rewrite Hg in Hg'. by simplify_eq/=.
Qed.

Lemma observed_index request waivers plan evidence st st' r :
  path_starts_with (resolve (session_root (run_world st))) (plan_target plan) = false ->
  run_observed request waivers plan evidence st = (st', r) ->
  left_over (rq_name request) (stored (run_world st)) (stored (run_world st')) r.
Proof.
  intros Hroot. unfold run_observed. destruct (negb _); [intros [= <- <-]; right; by auto|].
  destruct (classify_target _ _); try (intros [= <- <-]; right; by auto).
  2: { destruct (bool_decide _); [apply detach_left_over|intros [= <- <-]; right; by auto]. }
  intros [(e & Hi & ->)|(waived & st1 & Hi & H1)]%pbind_inv; apply inspect_keeps in Hi as [K1 R1].
  { right; by auto. }
  assert (HM : forall st2, changed_index (stored (run_world st1))
      (MarkDisposing (rq_name request) (row_allocation (plan_row plan))) (stored (run_world st2)) ->
      row_marked (rq_name request) (stored (run_world st)) (stored (run_world st2))).
  { intros st2 Hc. apply changed_step in Hc as (v & v' & E1 & E2 & Hs); [|done]. rewrite <- K1.
    inversion Hs as [| | |? row ? Hrow Hst Hup| |]; subst. exists v, v', row. done. }
  apply pbind_inv in H1 as [(e & Hm & ->)|(b & st2 & Hm & H2)]; apply apply_call in Hm as [R2 K2]; try done.
  { right. split; [done|]. destruct K2 as [[_ K2]|K2]; [left; congruence|right; by apply HM]. }
  destruct K2 as [[[=] _]|K2%HM].
  apply pbind_inv in H2 as [(e & [=] & ->)|([] & st3 & [= <-] & H3)].
  assert (HR : forall st4 r4, pmap_err (fun failure => DeRemovalStopped (rf_remaining failure) (port_error_text (rf_error failure)))
      (call (remove_directory (plan_target plan)) (EvRemove (plan_target plan)))
      (mkRun (run_world st2) (run_effects st2 ++ [EffRowDisposing]) (run_log st2)) = (st4, r4) ->
      stored (run_world st4) = stored (run_world st2)).
  { intros st4 r4 (r0 & Hc & _)%pmap_err_inv. apply call_world, removal_keeps in Hc; cbn [run_world] in *; [done|].
    by rewrite R2, R1. }
  apply pbind_inv in H3 as [(e & Hm & ->)|(u & st4 & Hm & H4)]; apply HR in Hm; rewrite <- Hm in K2.
  { right. auto. }
  apply pbind_inv in H4 as [(e & [=] & ->)|([] & st5 & [= <-] & H5)].
  apply detach_left_over in H5. cbn [run_world] in H5.
  destruct H5 as [Hg|[Hn [E|Hm2]]].
  - left. by eapply marked_then_gone.
  - right. split; [done|right]. by rewrite E.
  - by destruct (marked_not_ready _ _ _ _ K2 Hm2).
Qed.

Lemma run_index request st st' r :
  run request st = (st', r) ->
  left_over (rq_name request) (stored (run_world st)) (stored (run_world st')) r.
Proof.
  unfold run. intros [(e & Hw & ->)|(waivers & st0 & Hw & H1)]%pbind_inv.
  { destruct (rq_policy request) as [|ws]; [done|]. destruct (bool_decide _); [done|].
    injection Hw as <- _. right. by auto. }
  assert (st0 = st) as ->.
  { destruct (rq_policy request) as [|ws]; [|destruct (bool_decide _); [|done]]; by injection Hw as <- _. }
  assert (HV : forall st1 v, validate request st = (st1, v) -> keeps st st1 /\
    forall plan, v = Ok plan ->
      path_starts_with (resolve (session_root (run_world st))) (plan_target plan) = false).
  { intros st1 v. unfold validate. destruct (path_eqb _ _) eqn:Er; [|by intros [= <- <-]].
    apply bool_decide_eq_true in Er. unfold path_starts_with at 1. rewrite <- Er.
    intros [(e & Hp & ->)|(a & st2 & Hp & Hv)]%pbind_inv; apply pmap_err_inv in Hp as (r0 & Hp & Er0);
      apply call_world, reread_reports in Hp as (K & R & _); [by split|].
    destruct a as [view|]; injection Hv as <- <-; (split; [done|]); [|done].
    intros plan Hp. by apply validate_target_spec, vd_not_above_root in Hp. }
  apply pbind_inv in H1 as [(e & Hv & ->)|(plan & st1 & Hv & H2)]; apply HV in Hv as [[K1 R1] HT].
  { right. by auto. }
  specialize (HT plan eq_refl). rewrite <- R1 in HT. rewrite <- K1.
  destruct waivers as [ws|]; [|by eapply detach_left_over].
  apply pbind_inv in H2 as [(e & Ho & ->)|(evidence & st2 & Ho & H3)]; apply pmap_err_inv in Ho as (r0 & Ho & Er0);
    apply call_world, observe_keeps in Ho as [K2 R2]; rewrite <- K2.
  { right. by auto. }
  eapply observed_index; [|done]. by rewrite R2.
Qed.

End index.

(** ** A small family *)

(** A clean lane whose history the port answers for. *)
Definition demo_repository (history : Observation ProtectedRoots) : RepositoryEvidence :=
  {| re_key := RepoRoot;
     re_info := {| info_path := lit "/home/u/ws-A"; info_git_dir := lit "/home/u/ws-A/.git";
                   info_common_dir := lit "/home/u/ws-A/.git"; info_bare := false;
                   info_object_format := Sha1; info_head := Unborn (lit "main") |};
     re_work := Known {| wo_entries := []; wo_suppressed := []; wo_sparse_absent := [];
                         wo_native_operation := None; wo_stash_entries := 0; wo_unknown := [] |};
     re_gwz := {| ge_merge := EvidenceNone; ge_stash := EvidenceNone; ge_other := [] |};
     re_history := history |}.

Definition demo_evidence : TargetEvidence :=
  {| te_target := TargetPresent PtrMatches MarkMatches;
     te_repositories := [demo_repository (Known {| pr_roots := []; pr_unknown := [] |})];
     te_copy := None; te_unknown := [] |}.

Definition demo_ports (answer : HistoryAnswer) : DisposalPorts DemoWorld := {|
  observe_target := fun _ w => (w, Ok demo_evidence);
  port_check_history := fun _ w => (w, answer);
  remove_directory := fun t w => (mkDemoWorld (dw_changes w) (dw_removed w ++ [t]), Ok tt);
|}.

Lemma demo_port_laws answer : @PortLaws DemoWorld demo_session demo_laws (demo_ports answer).
Proof. split; [by intros t w w' r [= <- _]|by intros q w w' a [= <- _]|by intros t w w' r [= <- _] _]. Qed.

Definition demo_request (policy : DisposePolicy) : DisposeRequest :=
  {| rq_name := demo_name "A"; rq_policy := policy; rq_root := lit "/home/u/ws"; rq_cwd := lit "/home/u" |}.

(** ** Claims *)





(** The inspection passes exactly when there is a repository, every
    repository is cleared and every history answer passes.  No waiver
    replaces an established inventory: a repository whose work has a reason
    to be unknown, or whose history is unknown for a stated reason, is
    refused under every list of waivers.  An unknown answer that states no
    reason passes. *)
Theorem inspection_exact {W : Type} `{FamilySession W, DisposalPorts W} (plan : Plan) (evidence : TargetEvidence)
    (waivers : list HazardWaiver) (st st' : Run W) (r : result (list HazardFinding) DisposeError)
    (Hrun : inspect plan evidence waivers st = (st', r)) :
  exists seen answers, seen `prefix_of` te_repositories evidence /\ asked W seen answers /\
    run_log st' = run_log st ++ history_log seen answers /\
    ((exists waived, r = Ok waived) <->
     te_repositories evidence <> [] /\ seen = te_repositories evidence /\
     Forall (cleared waivers plan (te_copy evidence)) (te_repositories evidence) /\
     Forall (answer_passes waivers) answers).
Proof. by apply inspect_spec in Hrun as [_ Hrun]. Qed.

Lemma inspection_exact_witness :
  let _ := demo_ports (UnknownHistory []) in
  exists seen answers, seen `prefix_of` te_repositories demo_evidence /\ asked DemoWorld seen answers /\
    ((exists waived, Ok [] = Ok waived :> result (list HazardFinding) DisposeError) <->
     te_repositories demo_evidence <> [] /\ seen = te_repositories demo_evidence /\
     Forall (cleared [] (mkPlan (demo_row "../ws-A" "." "a1" Ready) (lit "/home/u/ws-A")) None)
       (te_repositories demo_evidence) /\
     Forall (answer_passes []) answers).
Proof.
  intros P.
  destruct (@inspection_exact DemoWorld demo_session P (mkPlan (demo_row "../ws-A" "." "a1" Ready) (lit "/home/u/ws-A"))
    demo_evidence [] (mkRun demo_world [] [])
    (mkRun demo_world [] [EvHistory (mkHistoryQuery RepoRoot {| pr_roots := []; pr_unknown := [] |}) (UnknownHistory [])])
    (Ok []) ltac:(vm_compute; reflexivity)) as (seen & answers & H1 & H2 & _ & H3).
  exists seen, answers. split; [exact H1|]. split; [exact H2|exact H3].
Defined.

(** The three shapes of a success. *)
Definition success_effects (policy : DisposePolicy) (effects : list DisposeEffect) : Prop :=
  exists pointer, (pointer = [] \/ pointer = [EffPointerRemoved]) /\
  match policy with
  | PolicyKeep => effects = pointer ++ [EffRowDetached]
  | PolicyDelete _ =>
      effects = pointer ++ [EffRowRemoved] \/
      effects = [EffRowDisposing; EffDirectoryRemoved] ++ pointer ++ [EffRowRemoved]
  end.

(** Whether an event is one keeping a member may cause. *)
Definition keeping (e : Event) : bool :=
  match e with
  | EvReread _ | EvRemovePointer _ _ | EvApply (RemoveRow _ Keep) _ => true
  | _ => false
  end.

Lemma detaching_effects name reason evs :
  detaching name reason evs true ->
  exists pointer, (pointer = [] \/ pointer = [EffPointerRemoved]) /\
    effects_of evs = pointer ++ [match reason with Keep => EffRowDetached | _ => EffRowRemoved end].
Proof.
  inversion 1 as [| |a b]; subst. exists (effect_of (EvRemovePointer name (Ok a))). split.
  - simpl. destruct (existsb _ _); auto.
  - unfold effects_of. rewrite !bind_cons. by destruct reason.
Qed.

Lemma detaching_keeps name evs ok : detaching name Keep evs ok -> Forall (fun e => keeping e = true) evs.
Proof. destruct 1; repeat constructor. Qed.

Lemma effects_of_cons e log : effects_of (e :: log) = effect_of e ++ effects_of log.
Proof. done. Qed.

Lemma disposal_success {W : Type} `{DisposalPorts W} request log :
  disposal (W:=W) request log true -> success_effects (rq_policy request) (effects_of log).
Proof.
  inversion 1; subst; unfold success_effects.
  - match goal with H : detaching _ _ _ _ |- _ => apply detaching_effects in H as (p & Hp & E) end.
    exists p. split; [done|]. match goal with H : rq_policy _ = _ |- _ => rewrite H end. exact E.
  - match goal with H : detaching _ _ _ _ |- _ => apply detaching_effects in H as (p & Hp & E) end.
    exists p. split; [done|]. match goal with H : rq_policy _ = _ |- _ => rewrite H end. by left.
  - match goal with H : removing _ _ _ _ _ |- _ => inversion H as [| |b evs' ok Hd]; subst end.
    apply detaching_effects in Hd as (p & Hp & E). exists p. split; [done|].
    match goal with H : rq_policy _ = _ |- _ => rewrite H end. right.
    rewrite !effects_of_cons, effects_of_app, history_no_effects, !effects_of_cons, E. done.
Qed.

(** The effects a run reports, on success and on failure, are exactly the
    calls of its log that succeeded and changed something, in their order; a
    success reports one of three sequences — keep: pointer, row detached; a
    stale row: pointer, row removed; a removal: row disposing, directory
    removed, pointer, row removed — and keeping a member calls nothing but
    the session's reread, pointer removal and row removal. *)
Theorem disposal_effects {W : Type} `{FamilySession W, DisposalPorts W} (request : DisposeRequest) (w : W)
    (st : Run W) (r : result DisposeReport DisposeFailure) (Hrun : dispose request w = (st, r)) :
  match r with
  | Ok report => dr_effects report = effects_of (run_log st) /\
      success_effects (rq_policy request) (dr_effects report)
  | Err failure => df_effects failure = effects_of (run_log st)
  end /\
  (rq_policy request = PolicyKeep -> Forall (fun e => keeping e = true) (run_log st)).
Proof.
  apply dispose_trace in Hrun as [HT HE]. split.
  - destruct r; [|done]. split; [done|]. rewrite HE. by apply disposal_success.
  - intros Hk. destruct HT; try congruence; repeat constructor. by eapply detaching_keeps.
Qed.

Lemma disposal_effects_witness :
  let _ := demo_ports Preserved in
  (dispose (demo_request (PolicyDelete [])) demo_world).2 =
    Ok {| dr_effects := [EffRowDisposing; EffDirectoryRemoved; EffPointerRemoved; EffRowRemoved]; dr_waived := [] |} /\
  Forall (fun e => keeping e = true) (run_log (dispose (demo_request PolicyKeep) demo_world).1).
Proof.
  intros P. split; [vm_compute; reflexivity|].
  exact (proj2 (@disposal_effects DemoWorld demo_session P (demo_request PolicyKeep) demo_world _ _
                  (surjective_pairing _)) eq_refl).
Defined.

(** C30: over a session and ports that keep their contract, a successful run
    removes exactly the named row from the index, whichever way it ended; a
    failed one leaves the index as it was, or with that one row, which was
    ready, marked disposing, or without it. *)
Theorem disposal_index {W : Type} `{FamilySession W} `{!SessionLaws W} `{DisposalPorts W} `{!PortLaws W}
    (request : DisposeRequest) (w : W) (st : Run W) (r : result DisposeReport DisposeFailure)
    (Hrun : dispose request w = (st, r)) :
  left_over (rq_name request) (stored w) (stored (run_world st)) r.
Proof.
  unfold dispose in Hrun. destruct (run request _) as [st' r'] eqn:E. injection Hrun as <- <-.
  apply run_index in E. by destruct r'.
Qed.

Lemma disposal_index_witness :
  row_gone (demo_name "A") (stored demo_world)
    (stored (run_world (@dispose _ demo_session (demo_ports Preserved) (demo_request (PolicyDelete [])) demo_world).1)).
Proof.
  assert (E : (@dispose _ demo_session (demo_ports Preserved) (demo_request (PolicyDelete [])) demo_world).2 =
    Ok {| dr_effects := [EffRowDisposing; EffDirectoryRemoved; EffPointerRemoved; EffRowRemoved]; dr_waived := [] |})
    by (vm_compute; reflexivity).
  destruct (@disposal_index DemoWorld demo_session demo_laws (demo_ports Preserved) (demo_port_laws Preserved)
    (demo_request (PolicyDelete [])) demo_world _ _ (surjective_pairing _)) as [HL|[Hn _]]; [exact HL|].
  rewrite E in Hn. discriminate Hn.
Defined.

(** A validated target that holds another member's directory: the overlap
    check compares the recorded spellings, and a path that climbs further
    than it needs and comes back down is not nested with the short one. *)
Lemma overlap_unnoticed :
  let row path a := demo_row path "." a Ready in
  let view := {| view_family_id := mkFamilyId (lit "fam"); view_root := mkRootEntry (mkAllocationId (lit "r"));
                 view_members := bt_insert (bt_insert bt_empty (demo_name "A") (row "../ws-A" "a1"))
                                   (demo_name "B") (row "../../u/ws-A/inner" "b1") |} in
  validate_view view = Ok tt /\
  validate_target (demo_request PolicyKeep) view = Ok (mkPlan (row "../ws-A" "a1") (lit "/home/u/ws-A")) /\
  place (lit "/home/u/ws") (row "../../u/ws-A/inner" "b1") = lit "inner" :: place (lit "/home/u/ws") (row "../ws-A" "a1").
Proof. cbv zeta. split_and!; vm_compute; reflexivity. Qed.
