(* ===== verification/DisposalAdapter.v ===== *)
(** Core's side of a disposal (src/src/local_clone/adapters/disposal.rs): the
    witnesses of a deletion, the history port over the history check, one
    call per witness store, and the removal of GWZ's own structure from the
    observed work.  The repository inspector, the object readers and the
    manifest reader are parameters: they read files.  The composition with
    the disposal says what survives a removal. *)

From S2P Require Export DisposalProofs HistoryWalk.

#[local] Set Default Proof Using "Type".

Definition RUNTIME_DIR : str := lit ".gwz".
Definition WORKSPACE_DIR : str := lit "gwz.conf".

(** The fields of [CoreDisposalPorts] the history port reads. *)
Record CorePorts : Type := mkCorePorts {
  cp_root : str;
  cp_view : FamilyView;
  cp_name : MemberName;
}.

Definition layout_unknown_kind (e : LayoutError) : UnknownKind :=
  match e with
  | LayoutUnsupported _ _ | LayoutNotARepository _ => UkUnsupportedLayout
  | LayoutReadFailed _ _ => UkUnreadable
  | LayoutUnimplemented _ => UkUnimplemented
  end.

Definition witness_policy (ports : CorePorts) : WitnessPolicy :=
  match row_mode <$> bt_get (view_members (cp_view ports)) (cp_name ports) with
  | Some Verbatim => IdenticalCopy
  | _ => Durable
  end.

(** The surviving workspaces: the root's, then every other ready member's. *)
Definition surviving_workspaces (ports : CorePorts) : list (str * str) :=
  (ROOT_NAME, cp_root ports) ::
  ((fun e => (name_str e.1, path_join (cp_root ports) (row_path e.2))) <$>
     filter (fun e => e.1 <> cp_name ports /\ row_state e.2 = Ready) (bt_entries (view_members (cp_view ports)))).

Section core.
(** [read_manifest]: the members of a workspace's manifest as id and path. *)
Context (read_manifest : str -> option (list (str * str))).
Context (inspect_layout : str -> result RepositoryInfo LayoutError).
Context (open_reader : RepositoryInfo -> ObjectReader).
Context (sizes : Sizes) (hazards_debug : list LayoutHazard -> str) (source_debug : RootSource -> str).

(** [CoreDisposalPorts::witnesses]. *)
Definition witness_path (target : RepoKey) (workspace : str) : option str :=
  match target with
  | RepoRoot => Some workspace
  | RepoMember id =>
      members ← read_manifest workspace;
      (fun m => path_join workspace m.2) <$> head (filter (fun m => m.1 = id) members)
  end.

Definition witnesses (ports : CorePorts) (target : RepoKey) : list (str * str) :=
  omap (fun lw => pair lw.1 <$> witness_path target lw.2) (surviving_workspaces ports).

(** The loop of [check_history] over the witnesses. *)
Fixpoint check_witnesses (fuel : nat) (query : HistoryQuery) (policy : WitnessPolicy)
    (uncovered : list ProtectedRoot) (unknown : list UnknownReason) (remaining : list (str * str))
    : option (list ProtectedRoot * list UnknownReason) :=
  match remaining with
  | [] => Some (uncovered, unknown)
  | (label, path) :: rest =>
      if bool_decide (length uncovered = 0) then Some (uncovered, unknown)
      else
        match inspect_layout path with
        | Err error =>
            check_witnesses fuel query policy uncovered
              (unknown ++ [new_reason UkUnreadable
                 (lit "witness " ++ quoted label ++ lit " at " ++ path ++ lit ": " ++
                  layout_error_text hazards_debug error)]) rest
        | Ok info =>
            let witness := {| wit_repository := hq_target query;
                              wit_label := label ++ lit " (" ++ path ++ lit ")" |} in
            match check_history_under sizes (open_reader info) (fun _ => false) default_history_limits
                    fuel (hq_protected query) [witness] policy with
            | None => None
            | Some (Verified _) => check_witnesses fuel query policy [] unknown rest
            | Some (HistoryCheck.Unpreserved items) =>
                let missing := (fun item => pr_oid (ui_root item)) <$> items in
                check_witnesses fuel query policy (filter (fun root => pr_oid root ∈ missing) uncovered)
                  unknown rest
            | Some (HistoryUnknown reasons) =>
                check_witnesses fuel query policy uncovered (unknown ++ reasons) rest
            end
        end
  end.

Definition root_text (root : ProtectedRoot) : str := source_debug (pr_source root) ++ lit " " ++ to_hex (pr_oid root).

Definition joined (parts : list str) : str := match parts with
  | [] => []
  | p :: rest => foldl (fun acc q => acc ++ lit ", " ++ q) p rest
  end.

(** [CoreDisposalPorts::check_history]. *)
Definition core_check_history (fuel : nat) (ports : CorePorts) (query : HistoryQuery) : option HistoryAnswer :=
  if negb (roots_complete (hq_protected query)) then
    Some (UnknownHistory (pr_unknown (hq_protected query)))
  else
    let found := witnesses ports (hq_target query) in
    if bool_decide (length found = 0) then
      Some (LocalDisposal.Unpreserved
        (lit "no surviving family repository is paired with " ++ repo_key_text (hq_target query)))
    else
      match check_witnesses fuel query (witness_policy ports) (pr_roots (hq_protected query)) [] found with
      | None => None
      | Some (uncovered, unknown) =>
          Some (
            if bool_decide (length uncovered = 0) then Preserved
            else if negb (bool_decide (length unknown = 0)) then UnknownHistory unknown
            else LocalDisposal.Unpreserved
              (show_N (N.of_nat (length uncovered)) ++ lit " protected root(s) of " ++
               repo_key_text (hq_target query) ++
               lit " are preserved whole in no surviving family repository: " ++
               joined (root_text <$> uncovered)))
      end.

End core.

(** ** Structure that is not work *)

Record IncludedRepository : Type := mkIncludedRepository {
  ir_key : RepoKey;
  ir_relative : str;
  ir_path : str;
  ir_bare : bool;
}.

(** [Path::strip_prefix] by components, [None] where it fails. *)
Fixpoint strip_components (base cs : list Component) : option (list Component) :=
  match base, cs with
  | [], _ => Some cs
  | b :: base, c :: cs => if bool_decide (b = c) then strip_components base cs else None
  | _ :: _, [] => None
  end.

Definition structural_paths (repository : IncludedRepository) (all : list IncludedRepository) : list str :=
  (if bool_decide (ir_key repository = RepoRoot)
   then [RUNTIME_DIR; path_join WORKSPACE_DIR (lit ".tmp")] else []) ++
  omap (fun other =>
    if path_eqb (ir_relative other) (ir_relative repository) then None
    else
      match strip_components (path_components (ir_relative repository)) (path_components (ir_relative other)) with
      | Some ((_ :: _) as below) => Some (path_text below)
      | _ => None
      end) all.

(** The bytes of a structural path, its components joined with slashes. *)
Definition structural_bytes (path : str) : list N :=
  utf8 (join_with c_slash ((fun c => match c with
    | RootDir => [c_slash] | CurDir => dot | ParentDir => dotdot | Normal n => n end) <$> path_components path)).

(** [path] is [prefix] or beneath it. *)
Definition at_or_below (prefix path : list N) : bool :=
  match strip_prefix prefix path with
  | Some [] => true
  | Some (c :: _) => (c =? c_slash)%N
  | None => false
  end.

Definition strip_trailing_slash (path : BytePath) : BytePath :=
  if ends_with (N.eqb c_slash) path then removelast path else path.

Definition strip_structural_work (work : Observation WorkObservation) (structural : list str)
    : Observation WorkObservation :=
  match work with
  | UnknownObs _ => work
  | Known known =>
      let structural := structural_bytes <$> structural in
      Known {| wo_entries := filter (fun entry =>
                 existsb (fun prefix => at_or_below prefix (strip_trailing_slash (we_path entry))) structural
                   = false) (wo_entries known);
               wo_suppressed := wo_suppressed known; wo_sparse_absent := wo_sparse_absent known;
               wo_native_operation := wo_native_operation known; wo_stash_entries := wo_stash_entries known;
               wo_unknown := wo_unknown known |}
  end.

(** ** What the history port's answers mean *)

Section answers.
Context (inspect_layout : str -> result RepositoryInfo LayoutError).
Context (open_reader : RepositoryInfo -> ObjectReader).
Context (sizes : Sizes) (hazards_debug : list LayoutHazard -> str) (source_debug : RootSource -> str).

Abbreviation check_witnesses' := (check_witnesses inspect_layout open_reader sizes hazards_debug).

(** A root one witness store keeps whole. *)
Definition kept_at (policy : WitnessPolicy) (root : ProtectedRoot) (path : str) : Prop :=
  exists info, inspect_layout path = Ok info /\
    kept (open_reader info) default_history_limits policy root.

(** A readable store that does not. *)
Definition not_kept_at (policy : WitnessPolicy) (root : ProtectedRoot) (path : str) : Prop :=
  exists info, inspect_layout path = Ok info /\
    ~ kept (open_reader info) default_history_limits policy root.

Lemma kept_oid reader limits policy r1 r2 :
  pr_oid r1 = pr_oid r2 -> kept reader limits policy r1 -> kept reader limits policy r2.
Proof. unfold kept. by intros ->. Qed.

(** What the loop knows of the roots it was given. *)
Definition sorted_out (policy : WitnessPolicy) (paths : list (str * str)) (uncovered uncovered' : list ProtectedRoot)
    (unknown unknown' : list UnknownReason) : Prop :=
  (forall root, root ∈ uncovered -> root ∈ uncovered' \/ exists lp, lp ∈ paths /\ kept_at policy root lp.2) /\
  (forall root, root ∈ uncovered' -> root ∈ uncovered) /\
  (unknown' = [] -> unknown = [] /\
     (uncovered' <> [] -> forall root lp, root ∈ uncovered' -> lp ∈ paths -> not_kept_at policy root lp.2)).

Lemma check_witnesses_spec fuel query policy paths uncovered unknown uncovered' unknown' :
  (forall path info, inspect_layout path = Ok info -> acyclic (open_reader info) default_history_limits) ->
  (forall root, root ∈ uncovered -> root ∈ pr_roots (hq_protected query)) ->
  check_witnesses' fuel query policy uncovered unknown paths = Some (uncovered', unknown') ->
  sorted_out policy paths uncovered uncovered' unknown unknown'.
Proof.
  intros Hac. revert uncovered unknown. induction paths as [|[label path] rest IH]; intros uncovered unknown Hin.
  { intros [= <- <-]. split_and!; [by left|done|]. intros ->. split; [done|]. intros _ root lp _ Hlp.
    by apply not_elem_of_nil in Hlp. }
  cbn [check_witnesses]. destruct (decide (uncovered = [])) as [->|Hne].
  { rewrite bool_decide_true by done. intros [= <- <-]. split_and!; [by left|done|]. by intros ->. }
  rewrite bool_decide_false by (by intros E%nil_length_inv).
  destruct (inspect_layout path) as [info|error] eqn:Hl.
  2: { intros (S1 & S2 & S3)%IH; [|done]. split_and!.
       - intros root Hr. destruct (S1 root Hr) as [|(lp & Hlp & Hk)]; [by left|right]. exists lp. split; [by right|done].
       - done.
       - intros E. destruct (S3 E) as [[_ [=]]%app_eq_nil _]. }
  destruct (check_history_under _ _ _ _ _ _ _ _) as [outcome|] eqn:Hc; [|done].
  apply history_outcome in Hc; [|by eapply Hac].
  destruct outcome as [coverage|items|reasons]; cbn [history_says] in Hc.
  - intros (S1 & S2 & S3)%IH; [|by intros ? ?%not_elem_of_nil]. split_and!.
    + intros root Hr. right. exists (label, path). split; [left|]. exists info. split; [done|].
      by apply (proj1 Hc root), Hin.
    + intros root Hr. by apply S2, not_elem_of_nil in Hr.
    + intros E. destruct (S3 E) as [-> _]. split; [done|]. intros _ root lp Hr.
      by apply S2, not_elem_of_nil in Hr.
  - destruct Hc as (_ & Hsplit & Hitems & _).
    intros (S1 & S2 & S3)%IH; [|intros root [_ Hr]%list_elem_of_filter; by apply Hin]. split_and!.
    + intros root Hr. destruct (Hsplit root (Hin root Hr)) as [Hi|[_ Hk]].
      * destruct (S1 root) as [|(lp & Hlp & Hk)]; [|by left|right; exists lp; split; [by right|done]].
        apply list_elem_of_filter. split; [|done]. apply list_elem_of_fmap in Hi as (u & -> & Hu).
        by apply (list_elem_of_fmap_2 (fun item => pr_oid (ui_root item))).
      * right. exists (label, path). split; [left|]. by exists info.
    + intros root Hr. apply S2, list_elem_of_filter in Hr. tauto.
    + intros E. destruct (S3 E) as [-> S4]. split; [done|]. intros Hne' root lp Hr Hlp.
      apply elem_of_cons in Hlp as [->|Hlp]; [|by apply S4]. exists info. split; [done|]. intros Hk.
      apply S2, list_elem_of_filter in Hr as [(u & Hu & Hui)%list_elem_of_fmap _].
      destruct (Hitems u Hui) as [_ [|Hn]]; [done|]. apply Hn. by eapply kept_oid.
  - intros (S1 & S2 & S3)%IH; [|done]. split_and!.
    + intros root Hr. destruct (S1 root Hr) as [|(lp & Hlp & Hk)]; [by left|right]. exists lp. split; [by right|done].
    + done.
    + intros E. destruct (S3 E) as [[_ ->]%app_eq_nil _]. done.
Qed.

Context (read_manifest : str -> option (list (str * str))).

(** What each answer of the port says of the protected roots. *)
Definition answer_says (ports : CorePorts) (query : HistoryQuery) (answer : HistoryAnswer) : Prop :=
  let policy := witness_policy ports in
  let paths := witnesses read_manifest ports (hq_target query) in
  match answer with
  | Preserved => pr_unknown (hq_protected query) = [] /\ paths <> [] /\
      forall root, root ∈ pr_roots (hq_protected query) ->
        exists lp, lp ∈ paths /\ kept_at policy root lp.2
  | LocalDisposal.Unpreserved _ => pr_unknown (hq_protected query) = [] /\
      (paths = [] \/ exists root, root ∈ pr_roots (hq_protected query) /\
         forall lp, lp ∈ paths -> not_kept_at policy root lp.2)
  | UnknownHistory reasons => reasons <> []
  end.

Lemma core_answer fuel ports query answer :
  (forall path info, inspect_layout path = Ok info -> acyclic (open_reader info) default_history_limits) ->
  core_check_history read_manifest inspect_layout open_reader sizes hazards_debug source_debug fuel ports query
    = Some answer ->
  answer_says ports query answer.
Proof.
  intros Hac. unfold core_check_history, answer_says, roots_complete.
  destruct (pr_unknown (hq_protected query)) as [|u us] eqn:Hu; cbn [negb]; [|by intros [= <-]].
  set (paths := witnesses _ _ _). destruct (decide (paths = [])) as [Hp|Hp].
  { rewrite bool_decide_true by (by rewrite Hp). intros [= <-]. split; [done|by left]. }
  rewrite bool_decide_false by (by intros E%nil_length_inv).
  destruct (check_witnesses _ _ _ _ _ _ _ _ _ _) as [[uncovered unknown]|] eqn:Hc; [|done].
  apply check_witnesses_spec in Hc as (S1 & S2 & S3); [|done|done].
  destruct (decide (uncovered = [])) as [->|Hne].
  { rewrite bool_decide_true by done. intros [= <-]. split_and!; [done..|]. intros root Hr.
    destruct (S1 root Hr) as [?%not_elem_of_nil|?]; done. }
  rewrite bool_decide_false by (by intros E%nil_length_inv).
  destruct (decide (unknown = [])) as [->|Hk].
  - rewrite bool_decide_true by done. cbn [negb]. intros [= <-]. split; [done|right].
    destruct (S3 eq_refl) as [_ S4]. destruct uncovered as [|root rest]; [done|].
    exists root. split; [apply S2; left|]. intros lp Hlp. apply S4; [done|left|done].
  - rewrite bool_decide_false by (by intros E%nil_length_inv). cbn [negb]. by intros [= <-].
Qed.

(** Every readable store is finite, and the fuel covers it. *)
Definition fuel_covers (fuel : nat) : Prop :=
  forall path info, inspect_layout path = Ok info ->
    exists objects, store_holds (open_reader info) default_history_limits objects /\
      store_size (open_reader info) default_history_limits objects <= fuel.

Lemma check_witnesses_ends fuel query policy paths uncovered unknown :
  fuel_covers fuel -> exists r, check_witnesses' fuel query policy uncovered unknown paths = Some r.
Proof.
  intros Hf. revert uncovered unknown. induction paths as [|[label path] rest IH]; intros uncovered unknown; [eauto|].
  cbn [check_witnesses]. destruct (bool_decide _); [eauto|].
  destruct (inspect_layout path) as [info|error] eqn:Hl; [|apply IH].
  destruct (Hf path info Hl) as (objects & Hh & Hs).
  match goal with |- context [check_history_under _ _ ?c _ _ ?p ?w ?q] =>
    destruct (checks_end sizes (open_reader info) c default_history_limits objects p w q Hh) as [[o Ho] _] end.
  rewrite Ho by done. destruct o; apply IH.
Qed.

Lemma core_history_ends fuel ports query :
  fuel_covers fuel ->
  exists answer, core_check_history read_manifest inspect_layout open_reader sizes hazards_debug source_debug
    fuel ports query = Some answer.
Proof.
  intros Hf. unfold core_check_history. destruct (negb _); [eauto|]. cbv zeta. destruct (bool_decide _); [eauto|].
  destruct (check_witnesses_ends fuel query (witness_policy ports) (witnesses read_manifest ports (hq_target query))
    (pr_roots (hq_protected query)) [] Hf) as [[uncovered unknown] ->]. eauto.
Qed.

End answers.

(** ** Composition with the disposal *)

Lemma asked_known {W} `{DisposalPorts W} repositories answers repository protected :
  asked W repositories answers -> repository ∈ repositories -> re_history repository = Known protected ->
  exists answer (w w' : W), answer ∈ answers /\
    port_check_history {| hq_target := re_key repository; hq_protected := protected |} w = (w', answer).
Proof.
  unfold asked. revert answers. induction repositories as [|x rest IH]; intros answers HF Hin Hk.
  { by apply not_elem_of_nil in Hin. }
  apply elem_of_cons in Hin as [->|Hin].
  - cbn [omap list_omap] in HF. unfold history_query in HF at 1. rewrite Hk in HF.
    apply Forall2_cons_inv_l in HF as (a & rest' & (w & w' & Hc) & _ & ->).
    exists a, w, w'. split; [left|done].
  - cbn [omap list_omap] in HF. destruct (history_query x).
    + apply Forall2_cons_inv_l in HF as (a & rest' & _ & HF & ->).
      destruct (IH rest' HF Hin Hk) as (a' & w & w' & Ha & Hc). exists a', w, w'. split; [by right|done].
    + by apply IH.
Qed.

(** A workspace a deletion of [name] leaves: the root's or another ready
    member's. *)
Definition left_standing (ports : CorePorts) (name : MemberName) (workspace : str) : Prop :=
  workspace = cp_root ports \/
  exists other row, other <> name /\ bt_get (view_members (cp_view ports)) other = Some row /\
    row_state row = Ready /\ workspace = path_join (cp_root ports) (row_path row).

Lemma witness_workspace read_manifest ports key lp :
  lp ∈ witnesses read_manifest ports key ->
  exists workspace, witness_path read_manifest key workspace = Some lp.2 /\
    left_standing ports (cp_name ports) workspace.
Proof.
  unfold witnesses. intros ([l ws] & Hin & Hp)%list_elem_of_omap. cbn [fst snd] in Hp.
  destruct (witness_path _ _ ws) as [p|] eqn:Hw; [|done]. injection Hp as <-. exists ws. split; [done|].
  apply elem_of_cons in Hin as [[= -> ->]|Hin]; [by left|right].
  apply list_elem_of_fmap in Hin as ([name row] & [= -> ->] & [[Hn Hs] Hin]%list_elem_of_filter).
  exists name, row. split_and!; [done|by apply bt_elem_get|done..].
Qed.

Section survival.
Context (read_manifest : str -> option (list (str * str))).
Context (inspect_layout : str -> result RepositoryInfo LayoutError).
Context (open_reader : RepositoryInfo -> ObjectReader).
Context (sizes : Sizes) (hazards_debug : list LayoutHazard -> str) (source_debug : RootSource -> str).

(** The ports of [W] answer history questions as core's adapter does. *)
Definition answers_as_core (W : Type) `{DisposalPorts W} (fuel : nat) (ports : CorePorts) : Prop :=
  forall query (w w' : W) answer, port_check_history query w = (w', answer) ->
    core_check_history read_manifest inspect_layout open_reader sizes hazards_debug source_debug
      fuel ports query = Some answer.

(** A root kept whole in the object store of one repository that a deletion
    of [name] leaves standing, the one paired with [key]. *)
Definition survives (ports : CorePorts) (name : MemberName) (key : RepoKey) (root : ProtectedRoot) : Prop :=
  exists workspace path, left_standing ports name workspace /\
    witness_path read_manifest key workspace = Some path /\
    kept_at inspect_layout open_reader (witness_policy ports) root path.

Lemma cleared_survives (W : Type) `{DisposalPorts W} fuel ports waivers repositories answers repository protected :
  (forall path info, inspect_layout path = Ok info -> acyclic (open_reader info) default_history_limits) ->
  answers_as_core W fuel ports ->
  asked W repositories answers -> Forall (answer_passes waivers) answers ->
  UnpreservedHistory ∉ waivers -> repository ∈ repositories -> re_history repository = Known protected ->
  pr_unknown protected = [] /\ forall root, root ∈ pr_roots protected ->
    survives ports (cp_name ports) (re_key repository) root.
Proof.
  intros Hac Hcore Hask Hpass Hw Hin Hk.
  destruct (asked_known _ _ _ _ Hask Hin Hk) as (answer & w & w' & Ha & Hc).
  rewrite Forall_forall in Hpass. specialize (Hpass _ Ha). apply Hcore, core_answer in Hc; [|done].
  unfold answer_says in Hc. cbn [hq_protected hq_target] in Hc.
  destruct answer; cbn [answer_passes] in Hpass; [|done|by destruct Hc].
  destruct Hc as (Hu & _ & Hr). split; [done|]. intros root Hroot.
  destruct (Hr root Hroot) as (lp & Hlp & Hkept). apply witness_workspace in Hlp as (ws & Hp & Hs).
  by exists ws, lp.2.
Qed.

End survival.

(** ** A small family whose root keeps the lane's history *)

Definition demo_core : CorePorts := mkCorePorts (lit "/home/u/ws") (demo_index demo_world) (demo_name "A").

Definition demo_info (path : str) : result RepositoryInfo LayoutError := Ok (re_info (demo_repository (UnknownObs []))).

Definition demo_core_history : HistoryQuery -> option HistoryAnswer :=
  core_check_history (fun _ => None) demo_info (fun _ => demo_reader) demo_sizes (fun _ => []) (fun _ => []) 20 demo_core.

Definition demo_core_ports : DisposalPorts DemoWorld := {|
  observe_target := fun _ w =>
    (w, Ok {| te_target := TargetPresent PtrMatches MarkMatches;
              te_repositories := [demo_repository (Known {| pr_roots := [demo_root 2]; pr_unknown := [] |})];
              te_copy := None; te_unknown := [] |});
  port_check_history := fun q w => (w, default (UnknownHistory []) (demo_core_history q));
  remove_directory := fun t w => (mkDemoWorld (dw_changes w) (dw_removed w ++ [t]), Ok tt);
|}.

Lemma demo_fuel : fuel_covers demo_info (fun _ => demo_reader) 20.
Proof. intros path info _. exists [demo_oid 1; demo_oid 2; demo_oid 3]. split; [apply demo_holds|vm_compute; lia]. Qed.

Lemma demo_answers_as_core :
  let _ := demo_core_ports in
  answers_as_core (fun _ => None) demo_info (fun _ => demo_reader) demo_sizes (fun _ => []) (fun _ => [])
    DemoWorld 20 demo_core.
Proof.
  intros P query w w' answer [= _ <-].
  destruct (core_history_ends demo_info (fun _ => demo_reader) demo_sizes (fun _ => []) (fun _ => [])
    (fun _ => None) 20 demo_core query demo_fuel) as [a Ha].
  unfold demo_core_history. rewrite Ha. done.
Qed.

(** ** Claims *)

(** The history port's answers mean what they say, on stores without
    cycles: preserved only where the inventory is complete and every
    protected root is kept whole, with a certifying root reaching it, in the
    object store of one surviving repository (never completed from two);
    unpreserved only where some root is kept whole in none of the surviving
    repositories, all of which were read; unknown only with a reason.  On
    finite stores the port always answers. *)
Theorem history_answers_exact (read_manifest : str -> option (list (str * str)))
    (inspect_layout : str -> result RepositoryInfo LayoutError) (open_reader : RepositoryInfo -> ObjectReader)
    (sizes : Sizes) (hazards_debug : list LayoutHazard -> str) (source_debug : RootSource -> str)
    (fuel : nat) (ports : CorePorts) (query : HistoryQuery)
    (Hacyclic : forall path info, inspect_layout path = Ok info ->
       acyclic (open_reader info) default_history_limits)
    (Hfuel : fuel_covers inspect_layout open_reader fuel) :
  exists answer,
    core_check_history read_manifest inspect_layout open_reader sizes hazards_debug source_debug fuel ports query
      = Some answer /\
    answer_says inspect_layout open_reader read_manifest ports query answer.
Proof.
  destruct (core_history_ends inspect_layout open_reader sizes hazards_debug source_debug read_manifest
    fuel ports query Hfuel) as [answer Ha].
  exists answer. split; [done|]. by eapply core_answer.
Qed.

Lemma history_answers_exact_witness :
  exists answer,
    demo_core_history {| hq_target := RepoRoot; hq_protected := {| pr_roots := [demo_root 3]; pr_unknown := [] |} |}
      = Some answer /\
    answer_says demo_info (fun _ => demo_reader) (fun _ => None) demo_core
      {| hq_target := RepoRoot; hq_protected := {| pr_roots := [demo_root 3]; pr_unknown := [] |} |} answer.
Proof.
  exact (history_answers_exact (fun _ => None) demo_info (fun _ => demo_reader) demo_sizes (fun _ => []) (fun _ => [])
    20 demo_core _ (fun _ _ _ => demo_acyclic) demo_fuel).
Defined.

(** C6: deletion loses no history unasked.  When a run over core's history
    port removes a directory and the request does not waive unpreserved
    history, then every protected root of every repository whose inventory
    the observation established is kept whole in the object store of one
    surviving repository: the root's, or a ready member's other than the one
    deleted. *)
Theorem history_survives_removal {W : Type} `{FamilySession W, DisposalPorts W}
    (read_manifest : str -> option (list (str * str)))
    (inspect_layout : str -> result RepositoryInfo LayoutError) (open_reader : RepositoryInfo -> ObjectReader)
    (sizes : Sizes) (hazards_debug : list LayoutHazard -> str) (source_debug : RootSource -> str)
    (fuel : nat) (ports : CorePorts) (request : DisposeRequest) (waivers : list HazardWaiver) (w : W) (st : Run W)
    (r : result DisposeReport DisposeFailure) (target : str) (answer : result unit RemovalFailure)
    (Hacyclic : forall path info, inspect_layout path = Ok info ->
       acyclic (open_reader info) default_history_limits)
    (Hcore : answers_as_core read_manifest inspect_layout open_reader sizes hazards_debug source_debug W fuel ports)
    (Hname : cp_name ports = rq_name request)
    (Hpolicy : rq_policy request = PolicyDelete waivers) (Hforce : UnpreservedHistory ∉ waivers)
    (Hrun : dispose request w = (st, r)) (Hrem : EvRemove target answer ∈ run_log st) :
  exists evidence, EvObserve target (Ok evidence) ∈ run_log st /\ te_repositories evidence <> [] /\
    forall repository protected root, repository ∈ te_repositories evidence ->
      re_history repository = Known protected -> root ∈ pr_roots protected ->
      pr_unknown protected = [] /\
      survives read_manifest inspect_layout open_reader ports (rq_name request) (re_key repository) root.
Proof.
  apply dispose_trace in Hrun as [HT _].
  apply (trace_removal _ _ _ _ _ HT) in Hrem as (before & after & view & plan & ws & evidence & answers & -> & A).
  destruct (au_before _ _ _ _ _ _ _ _ _ A) as [b ->].
  assert (ws = waivers) as -> by (pose proof (au_policy _ _ _ _ _ _ _ _ _ A); congruence).
  exists evidence. split_and!; [right; left|exact (au_inspected _ _ _ _ _ _ _ _ _ A)|].
  intros repository protected root Hin Hk Hroot.
  destruct (cleared_survives _ _ _ _ _ _ W fuel ports waivers _ answers repository protected Hacyclic Hcore
    (au_asked _ _ _ _ _ _ _ _ _ A) (au_answered _ _ _ _ _ _ _ _ _ A) Hforce Hin Hk) as [Hu Hs].
  split; [done|]. rewrite <- Hname. by apply Hs.
Qed.

Lemma history_survives_removal_witness :
  exists evidence : TargetEvidence, te_repositories evidence <> [] /\
    forall repository protected root, repository ∈ te_repositories evidence ->
      re_history repository = Known protected -> root ∈ pr_roots protected ->
      pr_unknown protected = [] /\
      survives (fun _ => None) demo_info (fun _ => demo_reader) demo_core (demo_name "A") (re_key repository) root.
Proof.
  destruct (@history_survives_removal DemoWorld demo_session demo_core_ports (fun _ => None) demo_info
    (fun _ => demo_reader) demo_sizes (fun _ => []) (fun _ => []) 20 demo_core (demo_request (PolicyDelete [])) []
    demo_world _ _ (lit "/home/u/ws-A") (Ok tt) (fun _ _ _ => demo_acyclic) demo_answers_as_core eq_refl eq_refl
    (not_elem_of_nil _) (surjective_pairing _)) as (evidence & _ & H1 & H2).
  - apply (list_elem_of_lookup_2 _ 4). vm_compute. reflexivity.
  - exists evidence. split; [exact H1|exact H2].
Defined.
