(* ===== verification/CommitLog.v ===== *)
(** The entries of a workspace's commit log and how commits of several
    repositories become one entry (src/src/operation/commit_log/mod.rs and
    coalesce.rs), with the marker a workspace commit writes into its messages
    (src/src/workspace_ops/handle_commit.rs). *)

From S2P Require Export RepoContract.

#[local] Set Default Proof Using "Type".

Abbreviation bytes := (list N).

(** ** Entries *)

Inductive ArtifactSourceKind : Type := SourceGit | SourceArchive | SourcePackage | SourceLocal | SourceGenerated.

#[global] Instance ArtifactSourceKind_eq_dec : EqDecision ArtifactSourceKind.
Proof. solve_decision. Defined.

Record CommitLogTarget : Type := mkCommitLogTarget {
  ct_member_id : str;
  ct_member_path : str;
  ct_source_kind : ArtifactSourceKind;
}.

Record CommitLogTime : Type := mkCommitLogTime { tm_seconds : Z; tm_offset_minutes : Z }.

Record CommitLogIdentity : Type := mkCommitLogIdentity {
  id_name : bytes;
  id_email : bytes;
  id_time : CommitLogTime;
}.

Record CommitLogEntry : Type := mkCommitLogEntry {
  en_target : CommitLogTarget;
  en_commit_id : str;
  en_parent_ids : list str;
  en_author : CommitLogIdentity;
  en_committer : CommitLogIdentity;
  en_message : bytes;
  en_message_encoding : option bytes;
}.

#[global] Instance CommitLogEntry_eq_dec : EqDecision CommitLogEntry.
Proof.
  assert (EqDecision CommitLogTarget) by solve_decision. assert (EqDecision CommitLogTime) by solve_decision.
  assert (EqDecision CommitLogIdentity) by solve_decision. solve_decision.
Defined.

Inductive CommitLogDegradationKind : Type :=
| UnsupportedSourceKind
| RepositoryUnreadable
| UnbornHead
| RevisionUnresolved
| SnapshotEntryMissing
| LockEntryMissing
| HistoryUnreadable.

Record CommitLogDegradation : Type := mkCommitLogDegradation {
  dg_target : CommitLogTarget;
  dg_kind : CommitLogDegradationKind;
  dg_operand : option str;
  dg_detail : str;
}.

Inductive CommitLogEvent : Type :=
| LogEntry (entry : CommitLogEntry)
| LogDegradation (record : CommitLogDegradation).

Definition member_of (e : CommitLogEntry) : str := ct_member_id (en_target e).
Definition committed_at (e : CommitLogEntry) : Z := tm_seconds (id_time (en_committer e)).
Definition authored_at (e : CommitLogEntry) : Z := tm_seconds (id_time (en_author e)).

(** ** Markers in messages *)

Definition c_newline : N := 10.

Definition GWZ_COMMIT_ID : bytes := lit "GWZ-Commit-ID".
Definition GWZ_COMMIT_ID_LINE : bytes := lit "GWZ-Commit-ID: ".
Definition GWZ_WORKSPACE_ID_LINE : bytes := lit "GWZ-Workspace-ID: ".
Definition GWZ_ORIGIN_URL_HASH_LINE : bytes := lit "GWZ-Origin-URL-Hash: sha256:".

Definition eq_ignore_ascii_case (a b : bytes) : bool := bool_decide (to_ascii_lowercase <$> a = to_ascii_lowercase <$> b).

Definition marker_shaped_claim (line : bytes) : bool :=
  let n := length GWZ_COMMIT_ID in
  (n <=? length line) && eq_ignore_ascii_case (take n line) GWZ_COMMIT_ID &&
  match line !! n with
  | Some byte => (byte =? 58)%N || (byte =? 61)%N || (byte =? 32)%N || (byte =? 9)%N
  | None => true
  end.

Definition is_lower_hex (byte : N) : bool := is_ascii_digit byte || ((97 <=? byte) && (byte <=? 102))%N.

Definition byte_at (value : bytes) (i : nat) : N := nth i value 0%N.

Definition canonical_uuid_v7 (value : bytes) : bool :=
  (length value =? 36) && (byte_at value 8 =? 45)%N && (byte_at value 13 =? 45)%N && (byte_at value 14 =? 55)%N &&
  (byte_at value 18 =? 45)%N &&
  ((byte_at value 19 =? 56)%N || (byte_at value 19 =? 57)%N || (byte_at value 19 =? 97)%N || (byte_at value 19 =? 98)%N) &&
  (byte_at value 23 =? 45)%N &&
  forallb (fun '(index, byte) => existsb (Nat.eqb index) [8; 13; 18; 23] || is_lower_hex byte) (zip (seq 0 (length value)) value).

Definition valid_origin_url_hash (line : bytes) : bool :=
  match strip_prefix GWZ_ORIGIN_URL_HASH_LINE line with
  | Some hash => (length hash =? 64) && forallb is_lower_hex hash
  | None => false
  end.

Inductive MarkerIdentity : Type := Unmarked | MarkerKey (marker : str) | UnusableMarker.

#[global] Instance MarkerIdentity_eq_dec : EqDecision MarkerIdentity.
Proof. solve_decision. Defined.

(** The position of the last empty line's two line ends. *)
Fixpoint rposition_blank (message : bytes) : option nat :=
  match message with
  | [] => None
  | a :: rest =>
      match rposition_blank rest with
      | Some i => Some (S i)
      | None => match rest with b :: _ => if ((a =? c_newline) && (b =? c_newline))%N then Some 0 else None | [] => None end
      end
  end.

(** [strip_suffix] of a line end, or the text itself. *)
Definition without_newline (s : bytes) : bytes :=
  if ends_with (N.eqb c_newline) s then removelast s else s.

Definition marker_identity (message : bytes) : MarkerIdentity :=
  match List.filter marker_shaped_claim (split_on c_newline message) with
  | [] => Unmarked
  | _ :: _ :: _ => UnusableMarker
  | [claim] =>
      match rposition_blank message with
      | None => UnusableMarker
      | Some boundary =>
          match split_on c_newline (without_newline (drop (boundary + 2) message)) with
          | commit_line :: workspace_line :: rest =>
              if negb (bool_decide (commit_line = claim)) then UnusableMarker
              else
                match strip_prefix GWZ_COMMIT_ID_LINE commit_line, strip_prefix GWZ_WORKSPACE_ID_LINE workspace_line with
                | Some marker, Some workspace_id =>
                    if negb (canonical_uuid_v7 marker) || bool_decide (workspace_id = []) then UnusableMarker
                    else
                      match rest with
                      | [] => MarkerKey marker
                      | [origin_line] => if valid_origin_url_hash origin_line then MarkerKey marker else UnusableMarker
                      | _ => UnusableMarker
                      end
                | _, _ => UnusableMarker
                end
          | _ => UnusableMarker
          end
      end
  end.

(** ** Groups *)

Inductive CommitLogProvenance : Type := NoProvenance | Heuristic | Marker (marker : str) | MarkerInvalid.

Record CommitLogGroup : Type := mkCommitLogGroup {
  gr_entries : list CommitLogEntry;
  gr_provenance : CommitLogProvenance;
  gr_ordering : Z;
}.

(** The newest of a list of times; the code asks only of entries there are. *)
Definition newest (times : list Z) : Z := match times with [] => 0%Z | t :: times => foldl Z.max t times end.

Definition finished_group (entries : list CommitLogEntry) (provenance : CommitLogProvenance) : CommitLogGroup :=
  mkCommitLogGroup entries provenance (newest (committed_at <$> entries)).

Inductive PendingKind : Type := PendingMarker (marker : str) | PendingUnmarked | PendingOpaque.

(** [PendingGroup] of coalesce.rs. *)
Record Gathered : Type := mkGathered { ga_entries : list CommitLogEntry; ga_kind : PendingKind }.

Definition marker_key (g : Gathered) : option str := match ga_kind g with PendingMarker marker => Some marker | _ => None end.

Definition accepts_repository (g : Gathered) (entry : CommitLogEntry) : bool :=
  forallb (fun sibling => negb (bool_decide (member_of sibling = member_of entry))) (ga_entries g).

Definition HEURISTIC_WINDOW_SECONDS : Z := 10.

(** The loop that keeps the oldest and the newest time. *)
Definition oldest_newest (times : list Z) (candidate : Z) : Z * Z :=
  foldl (fun '(oldest, newest) t => (Z.min oldest t, Z.max newest t)) (candidate, candidate) times.

Definition within_window (times : list Z) (candidate : Z) : bool :=
  let '(oldest, newest) := oldest_newest times candidate in
  (Z.abs (newest - oldest) <=? HEURISTIC_WINDOW_SECONDS)%Z.

Definition accepts_heuristic (g : Gathered) (entry : CommitLogEntry) : bool :=
  match ga_kind g, ga_entries g with
  | PendingUnmarked, first :: _ =>
      accepts_repository g entry && bool_decide (en_message first = en_message entry) &&
      bool_decide (id_name (en_author first) = id_name (en_author entry)) &&
      bool_decide (id_email (en_author first) = id_email (en_author entry)) &&
      within_window (committed_at <$> ga_entries g) (committed_at entry) &&
      within_window (authored_at <$> ga_entries g) (authored_at entry)
  | _, _ => false
  end.

Definition finish (g : Gathered) : CommitLogGroup :=
  finished_group (ga_entries g)
    (match ga_kind g with
     | PendingMarker marker => Marker marker
     | PendingUnmarked => if 1 <? length (ga_entries g) then Heuristic else NoProvenance
     | PendingOpaque => MarkerInvalid
     end).

(** [groups.iter_mut().find(accepts)]: the entry joins the first group that
    accepts it. *)
Fixpoint push_first (accepts : Gathered -> bool) (entry : CommitLogEntry) (groups : list Gathered) : option (list Gathered) :=
  match groups with
  | [] => None
  | g :: groups =>
      if accepts g then Some (mkGathered (ga_entries g ++ [entry]) (ga_kind g) :: groups)
      else (fun groups => g :: groups) <$> push_first accepts entry groups
  end.

Definition gather_entry (groups : list Gathered) (entry : CommitLogEntry) : list Gathered :=
  match marker_identity (en_message entry) with
  | MarkerKey marker =>
      default (groups ++ [mkGathered [entry] (PendingMarker marker)])
        (push_first (fun g => bool_decide (marker_key g = Some marker) && accepts_repository g entry) entry groups)
  | Unmarked =>
      default (groups ++ [mkGathered [entry] PendingUnmarked]) (push_first (fun g => accepts_heuristic g entry) entry groups)
  | UnusableMarker => groups ++ [mkGathered [entry] PendingOpaque]
  end.

Definition assemble_commit_log_groups (entries : list CommitLogEntry) (coalesce : bool) : list CommitLogGroup :=
  if coalesce then finish <$> foldl gather_entry [] entries
  else (fun entry =>
          finished_group [entry]
            (match marker_identity (en_message entry) with UnusableMarker => MarkerInvalid | Unmarked | MarkerKey _ => NoProvenance end)) <$> entries.

(** ** The marker a commit writes (handle_commit.rs) *)

(** What the message takes of the context. *)
Record CommitMarkerContext : Type := mkCommitMarkerContext {
  cm_gwz_commit_id : str;
  cm_workspace_id : str;
  cm_origin_url_hash : option str;
}.

(** [trim_end_matches('\n')]. *)
Fixpoint drop_newlines (s : str) : str :=
  match s with x :: rest => if (x =? c_newline)%N then drop_newlines rest else s | [] => [] end.
Definition trim_end_newlines (s : str) : str := reverse (drop_newlines (reverse s)).

Definition commit_message (c : CommitMarkerContext) (message : str) : str :=
  trim_end_newlines message ++ [c_newline; c_newline] ++ lit "GWZ-Commit-ID: " ++ cm_gwz_commit_id c ++
  [c_newline] ++ lit "GWZ-Workspace-ID: " ++ cm_workspace_id c ++
  match cm_origin_url_hash c with Some hash => [c_newline] ++ lit "GWZ-Origin-URL-Hash: " ++ hash | None => [] end.

(** A byte as [{:02x}] prints it. *)
Definition hex_byte (b : N) : str := [hex_digit (b / 16); hex_digit (b mod 16)].

(** [root_origin_url_hash] of the root's remotes, with the digest a
    parameter. *)
Definition root_origin_url_hash (sha256 : bytes -> bytes) (remotes : list (str * option str)) : option str :=
  remote ← find (fun remote => bool_decide (remote.1 = lit "origin")) remotes;
  url ← remote.2;
  Some (lit "sha256:" ++ (sha256 (utf8 (trim_end_newlines url)) ≫= hex_byte)).

(** The groups of bytes that the id's text separates with dashes. *)
Definition format_uuid (bytes : list N) : str :=
  let field a n := take n (drop a bytes) ≫= hex_byte in
  field 0 4 ++ [45%N] ++ field 4 2 ++ [45%N] ++ field 6 2 ++ [45%N] ++ field 8 2 ++ [45%N] ++ field 10 6.

(** [new_uuid_v7], from the milliseconds of the clock and sixteen random
    bytes. *)
Definition uuid_bytes (timestamp : N) (random : list N) : list N :=
  ((fun shift => (N.shiftr timestamp shift) mod 256)%N <$> [40; 32; 24; 16; 8; 0]%N) ++
  [N.lor (N.land (byte_at random 6) 15) 112; byte_at random 7; N.lor (N.land (byte_at random 8) 63) 128] ++ drop 9 random.

Definition new_uuid_v7 (timestamp : N) (random : list N) : result str str :=
  if (281474976710655 <? timestamp)%N then Err (lit "current time exceeds UUIDv7 timestamp range")
  else Ok (format_uuid (uuid_bytes timestamp random)).

(** ** What a group holds *)

Lemma oldest_newest_spec times c :
  let '(oldest, newest) := oldest_newest times c in
  oldest ∈ c :: times /\ newest ∈ c :: times /\ Forall (fun t => (oldest <= t <= newest)%Z) (c :: times).
Proof.
  unfold oldest_newest. induction times as [|t times IH] using rev_ind; cbn [foldl].
  { split_and!; [by left..|]. constructor; [lia|done]. }
  rewrite foldl_snoc. destruct (foldl _ _ times) as [o n]. destruct IH as (Ho & Hn & Hall).
  rewrite app_comm_cons. split_and!.
  - rewrite elem_of_app. destruct (Z.min_spec o t) as [[_ ->]|[_ ->]]; [by left|right; by left].
  - rewrite elem_of_app. destruct (Z.max_spec n t) as [[_ ->]|[_ ->]]; [right; by left|by left].
  - rewrite Forall_app, Forall_singleton. split; [|lia]. eapply Forall_impl; [exact Hall|]. cbn beta. lia.
Qed.

(** All times are within a window of each other. *)
Definition close (window : Z) (times : list Z) : Prop := forall a b, a ∈ times -> b ∈ times -> (Z.abs (a - b) <= window)%Z.

Lemma close_spread window times c :
  close window (c :: times) <-> let '(oldest, newest) := oldest_newest times c in (Z.abs (newest - oldest) <= window)%Z.
Proof.
  pose proof (oldest_newest_spec times c) as H. destruct (oldest_newest times c) as [o n]. destruct H as (Ho & Hn & Hall).
  split; [intros H; by apply H|]. intros H a b Ha Hb. rewrite Forall_forall in Hall.
  pose proof (Hall a Ha). pose proof (Hall b Hb). lia.
Qed.

Lemma close_perm window times times' : times ≡ₚ times' -> close window times -> close window times'.
Proof. intros Hp H a b. rewrite <- Hp. apply H. Qed.

Lemma within_window_spec times c : within_window times c = true <-> close HEURISTIC_WINDOW_SECONDS (c :: times).
Proof. unfold within_window. rewrite close_spread. destruct (oldest_newest times c). by rewrite Z.leb_le. Qed.

(** Two commits that read as one made in two repositories. *)
Definition look_alike (a b : CommitLogEntry) : Prop :=
  en_message a = en_message b /\ id_name (en_author a) = id_name (en_author b) /\ id_email (en_author a) = id_email (en_author b).

Definition of_kind (kind : PendingKind) (entries : list CommitLogEntry) : Prop :=
  match kind with
  | PendingMarker marker => Forall (fun e => marker_identity (en_message e) = MarkerKey marker) entries
  | PendingUnmarked =>
      Forall (fun e => marker_identity (en_message e) = Unmarked) entries /\
      (forall a b, a ∈ entries -> b ∈ entries -> look_alike a b) /\
      close HEURISTIC_WINDOW_SECONDS (committed_at <$> entries) /\ close HEURISTIC_WINDOW_SECONDS (authored_at <$> entries)
  | PendingOpaque => exists e, entries = [e] /\ marker_identity (en_message e) = UnusableMarker
  end.

Definition gathered_ok (g : Gathered) : Prop :=
  ga_entries g <> [] /\ NoDup (member_of <$> ga_entries g) /\ of_kind (ga_kind g) (ga_entries g).

Lemma close_one window t : (0 <= window)%Z -> close window [t].
Proof. intros Hw a b Ha%list_elem_of_singleton Hb%list_elem_of_singleton. subst. lia. Qed.

Lemma accepts_repository_spec g entry : accepts_repository g entry = true <-> member_of entry ∉ member_of <$> ga_entries g.
Proof.
  unfold accepts_repository. rewrite forallb_forall, list_elem_of_fmap. split.
  - intros H (e & E & He%list_elem_of_In). specialize (H e He). by rewrite bool_decide_true in H.
  - intros H e He. apply negb_true_iff, bool_decide_eq_false. intros E. apply H. exists e. split; [done|by apply list_elem_of_In].
Qed.

Lemma snoc_members entries entry :
  NoDup (member_of <$> entries) -> member_of entry ∉ member_of <$> entries -> NoDup (member_of <$> entries ++ [entry]).
Proof. intros H1 H2. rewrite fmap_app. cbn. apply NoDup_app. split_and!; [done| |apply NoDup_singleton]. set_solver. Qed.

Lemma gathered_ok_push g entry :
  gathered_ok g -> accepts_repository g entry = true ->
  match ga_kind g with
  | PendingMarker marker => marker_identity (en_message entry) = MarkerKey marker
  | PendingUnmarked => marker_identity (en_message entry) = Unmarked /\ accepts_heuristic g entry = true
  | PendingOpaque => False
  end ->
  gathered_ok (mkGathered (ga_entries g ++ [entry]) (ga_kind g)).
Proof.
  intros (Hne & Hnd & Hk) Hr%accepts_repository_spec H. split_and!; cbn [ga_entries ga_kind].
  - by destruct (ga_entries g).
  - by apply snoc_members.
  - unfold accepts_heuristic in H. destruct g as [entries [marker| |]]; cbn [ga_kind ga_entries of_kind] in *; [|clear Hr|done].
    { rewrite Forall_app, Forall_singleton. done. }
    destruct Hk as (Hu & Hl & Hc & Ha). destruct H as [Hm H]. destruct entries as [|first entries]; [done|].
    rewrite !andb_true_iff, !bool_decide_eq_true, !within_window_spec in H. destruct H as (((((_ & E1) & E2) & E3) & Wc) & Wa).
    split_and!; [by rewrite Forall_app, Forall_singleton| |rewrite fmap_app..].
    + assert (Hf : forall a, a ∈ (first :: entries) ++ [entry] -> look_alike first a).
      { intros a Hin. apply elem_of_app in Hin as [Hin|Hin]; [apply Hl; [by left|done]|]. apply list_elem_of_singleton in Hin as ->. done. }
      intros a b (A1 & A2 & A3)%Hf (B1 & B2 & B3)%Hf. unfold look_alike. split_and!; congruence.
    + eapply close_perm; [|exact Wc]. cbn [fmap list_fmap]. by rewrite (Permutation_app_comm _ [committed_at entry]).
    + eapply close_perm; [|exact Wa]. cbn [fmap list_fmap]. by rewrite (Permutation_app_comm _ [authored_at entry]).
Qed.

Lemma gathered_ok_new entry kind :
  match kind with
  | PendingMarker marker => marker_identity (en_message entry) = MarkerKey marker
  | PendingUnmarked => marker_identity (en_message entry) = Unmarked
  | PendingOpaque => marker_identity (en_message entry) = UnusableMarker
  end -> gathered_ok (mkGathered [entry] kind).
Proof.
  intros H. split_and!; [done|apply NoDup_singleton|]. destruct kind; cbn [of_kind ga_entries ga_kind].
  - by rewrite Forall_singleton.
  - split_and!; [by rewrite Forall_singleton| |by apply close_one..].
    intros a b H1%list_elem_of_singleton H2%list_elem_of_singleton. by subst.
  - by exists entry.
Qed.

Lemma push_first_ok accepts entry groups groups' :
  push_first accepts entry groups = Some groups' -> Forall gathered_ok groups ->
  (forall g, gathered_ok g -> accepts g = true -> gathered_ok (mkGathered (ga_entries g ++ [entry]) (ga_kind g))) ->
  Forall gathered_ok groups'.
Proof.
  intros H Hall Hpush. revert groups' H. induction Hall as [|g groups Hg Hall IH]; intros groups'; cbn [push_first]; [done|].
  destruct (accepts g) eqn:E.
  - intros [= <-]. constructor; [by apply Hpush|done].
  - intros (groups1 & H & ->)%fmap_Some. constructor; [done|]. by apply IH.
Qed.

Lemma gather_entry_ok groups entry : Forall gathered_ok groups -> Forall gathered_ok (gather_entry groups entry).
Proof.
  intros Hall. unfold gather_entry. destruct (marker_identity (en_message entry)) as [|marker|] eqn:Em.
  - destruct (push_first _ entry groups) as [groups'|] eqn:E; cbn [default].
    + eapply push_first_ok; [exact E|done|]. intros g Hg Ha. pose proof Ha as Ha'. unfold accepts_heuristic in Ha'.
      destruct (ga_kind g) eqn:Ek; try done. destruct (ga_entries g) eqn:Ee; [done|]. rewrite <- Ek, <- Ee.
      apply gathered_ok_push; [done| |by rewrite Ek]. rewrite !andb_true_iff in Ha'. tauto.
    + apply Forall_app. split; [done|]. apply Forall_singleton, gathered_ok_new. done.
  - destruct (push_first _ entry groups) as [groups'|] eqn:E; cbn [default].
    + eapply push_first_ok; [exact E|done|]. intros g Hg [Hk%bool_decide_eq_true Ha]%andb_true_iff.
      apply gathered_ok_push; [done|done|]. unfold marker_key in Hk. destruct (ga_kind g); [|done..]. congruence.
    + apply Forall_app. split; [done|]. apply Forall_singleton, gathered_ok_new. done.
  - apply Forall_app. split; [done|]. apply Forall_singleton, gathered_ok_new. done.
Qed.

Lemma gather_ok entries : Forall gathered_ok (foldl gather_entry [] entries).
Proof.
  induction entries as [|entry entries IH] using rev_ind; [done|]. rewrite foldl_snoc. by apply gather_entry_ok.
Qed.

(** Adding an entry to one group makes it longer, or makes two groups. *)
Lemma push_first_length accepts entry groups groups' : push_first accepts entry groups = Some groups' -> length groups' = length groups.
Proof.
  revert groups'. induction groups as [|g groups IH]; intros groups'; cbn [push_first]; [done|].
  destruct (accepts g); [by intros [= <-]|]. intros (groups1 & H & ->)%fmap_Some. cbn [length]. f_equal. by apply IH.
Qed.

Lemma gather_entry_length groups entry : length groups <= length (gather_entry groups entry).
Proof.
  assert (Hnew : forall g, length groups <= length (groups ++ [g])) by (intros g; rewrite length_app; lia).
  unfold gather_entry. destruct (marker_identity _); [| |apply Hnew];
    (destruct (push_first _ entry groups) eqn:E; cbn [default from_option id]; [by rewrite (push_first_length _ _ _ _ E)|apply Hnew]).
Qed.

Lemma gather_length entries groups : length groups <= length (foldl gather_entry groups entries).
Proof.
  revert groups. induction entries as [|entry entries IH]; intros groups; [done|]. cbn [foldl].
  pose proof (gather_entry_length groups entry). pose proof (IH (gather_entry groups entry)). lia.
Qed.

Lemma gather_entry_one g entry :
  gather_entry [g] entry = [mkGathered (ga_entries g ++ [entry]) (ga_kind g)] \/ 2 <= length (gather_entry [g] entry).
Proof.
  unfold gather_entry. destruct (marker_identity _); cbn [push_first]; try (destruct (_ : bool)); cbn; auto.
Qed.

Lemma gather_one entries g g' : foldl gather_entry [g] entries = [g'] -> ga_entries g' = ga_entries g ++ entries.
Proof.
  revert g. induction entries as [|entry entries IH]; intros g; cbn [foldl].
  { intros [= ->]. by rewrite app_nil_r. }
  destruct (gather_entry_one g entry) as [->|H].
  - intros ->%IH. cbn [ga_entries]. by rewrite <- app_assoc.
  - intros E. pose proof (gather_length entries (gather_entry [g] entry)) as Hl. rewrite E in Hl. cbn in Hl. lia.
Qed.

Lemma gather_first entry : exists kind, gather_entry [] entry = [mkGathered [entry] kind].
Proof. unfold gather_entry. destruct (marker_identity _); cbn; eauto. Qed.

(** Entries that assemble to one group are that group's, in their order. *)
Lemma assemble_single entries g : assemble_commit_log_groups entries true = [g] ->
  exists gathered, gathered_ok gathered /\ ga_entries gathered = entries /\ g = finish gathered.
Proof.
  unfold assemble_commit_log_groups. intros H. pose proof (gather_ok entries) as Hok.
  destruct (foldl gather_entry [] entries) as [|gathered [|]] eqn:E; try done. cbn [fmap list_fmap] in H. injection H as H. subst g.
  exists gathered. rewrite Forall_singleton in Hok. split; [done|split; [|done]].
  destruct entries as [|entry entries]; [done|]. cbn [foldl] in E. destruct (gather_first entry) as [kind Ek]. rewrite Ek in E.
  by apply gather_one in E.
Qed.

Lemma newest_max times : times <> [] -> newest times ∈ times /\ Forall (fun t => (t <= newest times)%Z) times.
Proof.
  intros Hne. destruct times as [|t times]; [done|]. cbn [newest]. clear Hne.
  induction times as [|u times IH] using rev_ind; cbn [foldl]; [split; [by left|by rewrite Forall_singleton]|].
  rewrite foldl_snoc, app_comm_cons. destruct IH as [H1 H2]. split.
  - rewrite elem_of_app. destruct (Z.max_spec (foldl Z.max t times) u) as [[_ ->]|[_ ->]]; [right; by left|by left].
  - rewrite Forall_app, Forall_singleton. split; [|lia]. eapply Forall_impl; [exact H2|]. cbn beta. lia.
Qed.

(** *** Coherent groups *)

(** What a group's provenance says of its entries: they come from different
    repositories, carry one marker or look alike within a few seconds, and
    the group is ordered by its newest entry. *)
Definition coherent (g : CommitLogGroup) : Prop :=
  gr_entries g <> [] /\ NoDup (member_of <$> gr_entries g) /\
  (exists e, e ∈ gr_entries g /\ gr_ordering g = committed_at e) /\
  (forall e, e ∈ gr_entries g -> (committed_at e <= gr_ordering g)%Z) /\
  match gr_provenance g with
  | Marker marker => of_kind (PendingMarker marker) (gr_entries g)
  | Heuristic => 1 < length (gr_entries g) /\ of_kind PendingUnmarked (gr_entries g)
  | NoProvenance => exists e, gr_entries g = [e] /\ marker_identity (en_message e) <> UnusableMarker
  | MarkerInvalid => of_kind PendingOpaque (gr_entries g)
  end.

Lemma finished_ordering entries provenance : entries <> [] ->
  (exists e, e ∈ entries /\ gr_ordering (finished_group entries provenance) = committed_at e) /\
  (forall e, e ∈ entries -> (committed_at e <= gr_ordering (finished_group entries provenance))%Z).
Proof.
  intros Hne. destruct (newest_max (committed_at <$> entries)) as [(e & E & He)%list_elem_of_fmap H2]; [by destruct entries|].
  split; [by exists e|]. rewrite Forall_fmap, Forall_forall in H2. exact H2.
Qed.

Lemma finish_coherent g : gathered_ok g -> coherent (finish g).
Proof.
  intros (Hne & Hnd & Hk). destruct (finished_ordering (ga_entries g)
    (match ga_kind g with PendingMarker marker => Marker marker | PendingUnmarked => if 1 <? length (ga_entries g) then Heuristic else NoProvenance | PendingOpaque => MarkerInvalid end) Hne) as [H1 H2].
  unfold coherent, finish in *. cbn [gr_entries gr_provenance finished_group] in *. split_and!; [done..|].
  destruct (ga_kind g); [done| |done]. destruct (Nat.ltb_spec 1 (length (ga_entries g))) as [Hl|Hl]; [done|].
  destruct Hk as [Hu _]. destruct (ga_entries g) as [|e [|]]; cbn [length] in Hl; [done| |lia].
  exists e. rewrite Forall_singleton in Hu. split; [done|]. by rewrite Hu.
Qed.

Lemma assemble_alone entry coalesce : exists g, assemble_commit_log_groups [entry] coalesce = [g] /\ gr_entries g = [entry] /\ coherent g.
Proof.
  destruct coalesce.
  - destruct (gather_first entry) as [kind E]. unfold assemble_commit_log_groups. cbn [foldl]. rewrite E. cbn.
    eexists. split_and!; [done|done|]. apply finish_coherent. pose proof (gather_ok [entry]) as H. cbn [foldl] in H. rewrite E in H. by rewrite Forall_singleton in H.
  - cbn. eexists. split_and!; [done|done|]. destruct (finished_ordering [entry]
      (match marker_identity (en_message entry) with UnusableMarker => MarkerInvalid | Unmarked | MarkerKey _ => NoProvenance end) ltac:(done)) as [H1 H2].
    split_and!; [done|apply NoDup_singleton|done|done|]. cbn [gr_provenance gr_entries finished_group].
    destruct (marker_identity (en_message entry)) eqn:E; cbn [of_kind]; exists entry; split; congruence.
Qed.
