(* ===== verification/CommitMarker.v ===== *)
(** What a workspace commit writes into its messages is what the log reads
    back: the marker of handle_commit.rs against [marker_identity]. *)

From S2P Require Export CommitLog.

#[local] Set Default Proof Using "Type".

(** ** Bytes of texts *)

Lemma utf8_app a b : utf8 (a ++ b) = utf8 a ++ utf8 b.
Proof. unfold utf8. by rewrite fmap_app, join_app. Qed.

Lemma utf8_char_newline c : c_newline ∈ utf8_char c -> c = c_newline.
Proof.
  unfold utf8_char, c_newline. destruct (c <? 128)%N; [by intros ->%list_elem_of_singleton|].
  intros Hin. exfalso. revert Hin.
  repeat case_match; rewrite !elem_of_cons, elem_of_nil; intros Hin; repeat (destruct Hin as [Hin|Hin]; [|try done]);
    match type of Hin with _ = (_ + ?q)%N => revert Hin; generalize q; lia end.
Qed.

Lemma utf8_clean s : c_newline ∉ s -> c_newline ∉ utf8 s.
Proof.
  intros Hs H. apply list_elem_of_join in H as (l & Hl & (c & -> & Hc)%list_elem_of_fmap). by apply utf8_char_newline in Hl as ->.
Qed.

Lemma utf8_nonempty s : s <> [] -> utf8 s <> [].
Proof.
  destruct s as [|c s]; [done|]. intros _ E. change (utf8 (c :: s)) with (utf8_char c ++ utf8 s) in E.
  apply app_nil in E as [E _]. revert E. unfold utf8_char. by repeat case_match.
Qed.

Lemma split_on_middle c a s : split_on c (a ++ c :: s) = split_on c a ++ split_on c s.
Proof.
  induction a as [|x a IH]; cbn [app split_on].
  - destruct (split_on_cons_eq c s) as (p & ps & ->). by rewrite N.eqb_refl.
  - rewrite IH. destruct (split_on_cons_eq c a) as (p & ps & ->). cbn [app]. by destruct (x =? c)%N.
Qed.

Lemma strip_prefix_app p s : strip_prefix p (p ++ s) = Some s.
Proof. induction p as [|x p IH]; cbn [app strip_prefix]; [by destruct s|]. by rewrite N.eqb_refl. Qed.

Lemma ends_with_clean c p s : c ∉ s -> s <> [] -> ends_with (N.eqb c) (p ++ s) = false.
Proof.
  intros Hs Hne. destruct (snoc_inv s) as [->|(s' & x & ->)]; [done|]. unfold ends_with.
  rewrite app_assoc, reverse_snoc. cbn [starts_with]. apply N.eqb_neq. set_solver.
Qed.

(** ** Empty lines *)

Definition clean_line (p : bytes) : Prop := (c_newline ∉ p) /\ p <> [].

Lemma blank_after a s i : rposition_blank s = Some i -> rposition_blank (a ++ s) = Some (length a + i).
Proof. intros H. induction a as [|x a IH]; cbn [app length rposition_blank]; [done|]. by rewrite IH. Qed.

Lemma blank_clean_cons p s : c_newline ∉ p -> p <> [] -> rposition_blank s = None -> rposition_blank (p ++ s) = None.
Proof.
  intros Hp Hne Hs. induction p as [|x p IH]; [done|]. apply not_elem_of_cons in Hp as [Hx Hp]. cbn [app rposition_blank].
  assert (rposition_blank (p ++ s) = None) as ->.
  { destruct p as [|y p]; [done|]. by apply IH. }
  rewrite (proj2 (N.eqb_neq x c_newline)) by congruence. by destruct (p ++ s).
Qed.

Lemma blank_newline_cons s : rposition_blank s = None -> starts_with (N.eqb c_newline) s = false -> rposition_blank (c_newline :: s) = None.
Proof.
  intros Hs Hh. cbn [rposition_blank]. rewrite Hs. destruct s as [|b s]; [done|]. cbn [starts_with] in Hh. rewrite N.eqb_sym in Hh. by rewrite Hh, andb_false_r.
Qed.

Lemma starts_clean p s : c_newline ∉ p -> p <> [] -> starts_with (N.eqb c_newline) (p ++ s) = false.
Proof. destruct p as [|x p]; [done|]. intros H _. cbn [app starts_with]. apply N.eqb_neq. set_solver. Qed.

Lemma blank_lines lines : lines <> [] -> Forall clean_line lines ->
  rposition_blank (join_with c_newline lines) = None /\ starts_with (N.eqb c_newline) (join_with c_newline lines) = false.
Proof.
  intros Hne H. induction H as [|p lines [Hp Hpe] Hall IH]; [done|]. destruct lines as [|q lines].
  - cbn [join_with]. rewrite <- (app_nil_r p). split; [by apply blank_clean_cons|by apply starts_clean].
  - change (join_with c_newline (p :: q :: lines)) with (p ++ c_newline :: join_with c_newline (q :: lines)).
    destruct (IH ltac:(done)) as [H1 H2]. split; [|by apply starts_clean]. apply blank_clean_cons; [done|done|]. by apply blank_newline_cons.
Qed.

Lemma blank_block a lines : lines <> [] -> Forall clean_line lines ->
  rposition_blank (a ++ c_newline :: c_newline :: join_with c_newline lines) = Some (length a).
Proof.
  intros Hne Hall. destruct (blank_lines lines Hne Hall) as [H1 H2]. rewrite <- (Nat.add_0_r (length a)). apply blank_after.
  pose proof (blank_newline_cons _ H1 H2) as H3. cbn [rposition_blank] in *. by rewrite H3.
Qed.

Lemma block_unterminated lines : lines <> [] -> Forall clean_line lines ->
  without_newline (join_with c_newline lines) = join_with c_newline lines.
Proof.
  intros Hne Hall. unfold without_newline. assert (ends_with (N.eqb c_newline) (join_with c_newline lines) = false) as ->; [|done].
  induction Hall as [|p lines [Hp Hpe] Hall IH]; [done|]. destruct lines as [|q lines].
  - cbn [join_with]. by apply (ends_with_clean _ []).
  - change (join_with c_newline (p :: q :: lines)) with (p ++ c_newline :: join_with c_newline (q :: lines)).
    specialize (IH ltac:(done)). destruct (snoc_inv (join_with c_newline (q :: lines))) as [E|(s & x & E)]; rewrite E in IH |- *.
    + exfalso. apply Forall_cons in Hall as [[_ Hq] _]. destruct lines; cbn [join_with] in E; [done|by apply app_nil in E as [? _]].
    + unfold ends_with in *. rewrite app_comm_cons, app_assoc, !reverse_snoc in *. done.
Qed.

(** ** The block of a marker *)

Definition marker_lines (id workspace : bytes) (hash : option bytes) : list bytes :=
  [GWZ_COMMIT_ID_LINE ++ id; GWZ_WORKSPACE_ID_LINE ++ workspace] ++
  match hash with Some hash => [lit "GWZ-Origin-URL-Hash: " ++ hash] | None => [] end.

Lemma commit_message_bytes c message :
  utf8 (commit_message c message) =
  utf8 (trim_end_newlines message) ++ c_newline :: c_newline ::
    join_with c_newline (marker_lines (utf8 (cm_gwz_commit_id c)) (utf8 (cm_workspace_id c)) (utf8 <$> cm_origin_url_hash c)).
Proof.
  unfold commit_message, marker_lines.
  assert (E : utf8 (match cm_origin_url_hash c with Some hash => [c_newline] ++ lit "GWZ-Origin-URL-Hash: " ++ hash | None => [] end) =
    match utf8 <$> cm_origin_url_hash c with Some hash => c_newline :: lit "GWZ-Origin-URL-Hash: " ++ hash | None => [] end).
  { destruct (cm_origin_url_hash c); [|done]. by rewrite !utf8_app. }
  rewrite !utf8_app, E. f_equal.
  change (utf8 [c_newline; c_newline]) with [c_newline; c_newline]. change (utf8 [c_newline]) with [c_newline].
  change (utf8 (lit "GWZ-Commit-ID: ")) with GWZ_COMMIT_ID_LINE. change (utf8 (lit "GWZ-Workspace-ID: ")) with GWZ_WORKSPACE_ID_LINE.
  destruct (utf8 <$> cm_origin_url_hash c); cbn [app join_with]; by rewrite ?app_nil_r, <- ?app_assoc.
Qed.

(** A hash as [root_origin_url_hash] writes it. *)
Definition origin_hash_ok (hash : bytes) : Prop :=
  exists digits, hash = lit "sha256:" ++ digits /\ length digits = 64 /\ forallb is_lower_hex digits = true.

Lemma lower_hex_clean digits : forallb is_lower_hex digits = true -> c_newline ∉ digits.
Proof. intros H Hin%list_elem_of_In. rewrite forallb_forall in H. by apply H in Hin. Qed.

Lemma uuid_chars id c : canonical_uuid_v7 id = true -> c ∈ id -> c = 45%N \/ is_lower_hex c = true.
Proof.
  unfold canonical_uuid_v7. rewrite !andb_true_iff. intros (((((((Hl & H8) & H13) & _) & H18) & _) & H23) & H) [i Hi]%list_elem_of_lookup.
  assert (Hz : In (i, c) (zip (seq 0 (length id)) id)).
  { apply list_elem_of_In, list_elem_of_lookup. exists i. rewrite lookup_zip_with. rewrite lookup_seq_lt by by apply lookup_lt_Some in Hi.
    cbn. by rewrite Hi. }
  rewrite forallb_forall in H. apply H in Hz. rewrite orb_true_iff in Hz. destruct Hz as [Hz|Hz]; [left|by right].
  rewrite existsb_exists in Hz. destruct Hz as (k & Hk & ->%Nat.eqb_eq).
  assert (Hb : byte_at id k = c) by (unfold byte_at; by apply nth_lookup_Some).
  apply N.eqb_eq in H8, H13, H18, H23. cbn [In] in Hk. repeat destruct Hk as [<-|Hk]; try done; congruence.
Qed.

Lemma uuid_clean id : canonical_uuid_v7 id = true -> c_newline ∉ id.
Proof. intros H Hin. by destruct (uuid_chars id _ H Hin). Qed.

Lemma marker_lines_clean id workspace hash :
  canonical_uuid_v7 id = true -> c_newline ∉ workspace -> (forall h, hash = Some h -> origin_hash_ok h) ->
  Forall clean_line (marker_lines id workspace hash).
Proof.
  assert (Hpre : forall p s : bytes, c_newline ∉ p -> p <> [] -> c_newline ∉ s -> clean_line (p ++ s)).
  { intros p s H1 H2 H3. split; [set_solver|by destruct p]. }
  assert (Hc : forall p : bytes, forallb (fun x => negb (x =? c_newline)%N) p = true -> c_newline ∉ p).
  { intros p H Hin%list_elem_of_In. rewrite forallb_forall in H. apply H in Hin. by rewrite N.eqb_refl in Hin. }
  intros Hid%uuid_clean Hw Hh. unfold marker_lines. apply Forall_app. split.
  { repeat constructor; apply Hpre; try done; by apply Hc. }
  destruct hash as [hash|]; [|done]. destruct (Hh hash eq_refl) as (digits & -> & _ & Hd). apply Forall_singleton.
  rewrite app_assoc. apply Hpre; [by apply Hc|done|by apply lower_hex_clean].
Qed.

(** Of the lines a commit adds only the first reads as a claim. *)
Lemma claims_of_lines id workspace hash :
  List.filter marker_shaped_claim (marker_lines id workspace hash) = [GWZ_COMMIT_ID_LINE ++ id].
Proof. by destruct hash. Qed.

Lemma block_read id workspace hash :
  canonical_uuid_v7 id = true -> workspace <> [] -> (forall h, hash = Some h -> origin_hash_ok h) ->
  match marker_lines id workspace hash with
  | commit_line :: workspace_line :: rest =>
      strip_prefix GWZ_COMMIT_ID_LINE commit_line = Some id /\ strip_prefix GWZ_WORKSPACE_ID_LINE workspace_line = Some workspace /\
      (rest = [] \/ exists origin, rest = [origin] /\ valid_origin_url_hash origin = true)
  | _ => False
  end.
Proof.
  intros Hid Hw Hh. unfold marker_lines. cbn [app]. rewrite !strip_prefix_app. split_and!; [done|done|].
  destruct hash as [hash|]; [|by left]. right. eexists. split; [done|]. destruct (Hh hash eq_refl) as (digits & -> & Hl & Hd).
  unfold valid_origin_url_hash. change (lit "GWZ-Origin-URL-Hash: " ++ lit "sha256:" ++ digits) with (GWZ_ORIGIN_URL_HASH_LINE ++ digits).
  rewrite strip_prefix_app, Hl, Hd. done.
Qed.

Lemma marker_read_back message id workspace hash :
  canonical_uuid_v7 id = true -> workspace <> [] -> c_newline ∉ workspace -> (forall h, hash = Some h -> origin_hash_ok h) ->
  marker_identity (message ++ c_newline :: c_newline :: join_with c_newline (marker_lines id workspace hash)) =
  if existsb marker_shaped_claim (split_on c_newline message) then UnusableMarker else MarkerKey id.
Proof.
  intros Hid Hw Hwc Hh. pose proof (marker_lines_clean id workspace hash Hid Hwc Hh) as Hclean.
  assert (Hne : marker_lines id workspace hash <> []) by done.
  unfold marker_identity. rewrite split_on_middle.
  pose proof (split_on_middle c_newline [] (join_with c_newline (marker_lines id workspace hash))) as E. cbn [app] in E. rewrite E. clear E.
  change (split_on c_newline []) with [[] : bytes]. cbn [app].
  rewrite split_join; [|done|eapply Forall_impl; [exact Hclean|by intros p [? _]]].
  rewrite List.filter_app. change (List.filter marker_shaped_claim ([] :: ?l)) with (List.filter marker_shaped_claim l).
  rewrite claims_of_lines. rewrite blank_block by done.
  destruct (existsb marker_shaped_claim (split_on c_newline message)) eqn:Ec.
  - apply existsb_elem in Ec as (line & Hin & Hline).
    destruct (List.filter marker_shaped_claim (split_on c_newline message)) as [|claim claims] eqn:Ef.
    + exfalso. assert (Hf : In line (List.filter marker_shaped_claim (split_on c_newline message))).
      { apply List.filter_In. split; [by apply list_elem_of_In|done]. }
      by rewrite Ef in Hf.
    + cbn [app]. by destruct claims.
  - assert (List.filter marker_shaped_claim (split_on c_newline message) = []) as ->.
    { destruct (List.filter _ _) as [|claim claims] eqn:Ef; [done|]. exfalso.
      assert (Hf : In claim (List.filter marker_shaped_claim (split_on c_newline message))) by (rewrite Ef; by left).
      apply List.filter_In in Hf as [H1 H2]. apply not_true_iff_false in Ec. apply Ec. apply existsb_exists. eauto. }
    cbn [app]. rewrite drop_app_ge by lia. replace (length message + 2 - length message) with 2 by lia. cbn [drop].
    rewrite drop_0, block_unterminated by done. rewrite split_join; [|done|eapply Forall_impl; [exact Hclean|by intros p [? _]]].
    pose proof (block_read id workspace hash Hid Hw Hh) as Hr.
    destruct (marker_lines id workspace hash) as [|commit_line [|workspace_line rest]] eqn:El; try done.
    assert (commit_line = GWZ_COMMIT_ID_LINE ++ id) as ->.
    { apply (inj Some). change (Some (GWZ_COMMIT_ID_LINE ++ id)) with (head (marker_lines id workspace hash)). by rewrite El. }
    rewrite bool_decide_true by done. cbn [negb]. destruct Hr as (-> & -> & Hrest). rewrite Hid, bool_decide_false by done. cbn [negb orb].
    destruct Hrest as [->|(origin & -> & ->)]; done.
Qed.

(** ** Identifiers *)

(** A property of all numbers below a bound, by evaluation. *)
Lemma all_below (P : N -> bool) bound : forallb P (N.of_nat <$> seq 0 bound) = true -> forall n, (n < N.of_nat bound)%N -> P n = true.
Proof.
  intros H n Hn. rewrite forallb_forall in H. apply H, list_elem_of_In, list_elem_of_fmap. exists (N.to_nat n).
  split; [lia|]. apply elem_of_seq. lia.
Qed.

Lemma hex_digit_lower n : (n < 16)%N -> is_lower_hex (hex_digit n) = true.
Proof.
  by apply (all_below (fun n => is_lower_hex (hex_digit n)) 16).
Qed.

Definition is_byte (b : N) : Prop := (b < 256)%N.

Lemma hex_byte_lower b : is_byte b -> forallb is_lower_hex (hex_byte b) = true.
Proof.
  unfold is_byte. intros Hb. cbn [hex_byte forallb]. rewrite !hex_digit_lower; [done|apply N.mod_lt; lia|apply N.Div0.div_lt_upper_bound; lia].
Qed.

Lemma hex_bytes_lower bs : Forall is_byte bs -> forallb is_lower_hex (bs ≫= hex_byte) = true /\ length (bs ≫= hex_byte) = 2 * length bs.
Proof.
  induction 1 as [|b bs Hb Hall [IH1 IH2]]; [done|]. cbn [mbind list_bind]. rewrite forallb_app, hex_byte_lower, IH1 by done.
  rewrite length_app, IH2. split; [done|]. cbn. lia.
Qed.

Lemma version_byte b : is_byte b -> is_byte (N.lor (N.land b 15) 112) /\ hex_digit (N.lor (N.land b 15) 112 / 16) = 55%N.
Proof.
  intros Hb. pose proof (all_below (fun b => (N.lor (N.land b 15) 112 <? 256)%N && (hex_digit (N.lor (N.land b 15) 112 / 16) =? 55)%N) 256) as H.
  apply H in Hb; [|by vm_compute]. by apply andb_true_iff in Hb as [?%N.ltb_lt ?%N.eqb_eq].
Qed.

Lemma variant_byte b : is_byte b ->
  is_byte (N.lor (N.land b 63) 128) /\ hex_digit (N.lor (N.land b 63) 128 / 16) ∈ [56; 57; 97; 98]%N.
Proof.
  intros Hb. pose proof (all_below (fun b => (N.lor (N.land b 63) 128 <? 256)%N &&
    bool_decide (hex_digit (N.lor (N.land b 63) 128 / 16) ∈ [56; 57; 97; 98]%N)) 256) as H.
  apply H in Hb; [|by vm_compute]. by apply andb_true_iff in Hb as [?%N.ltb_lt ?%bool_decide_eq_true].
Qed.

Lemma canonical_of_bytes bs :
  length bs = 16 -> Forall is_byte bs -> hex_digit (byte_at bs 6 / 16) = 55%N -> hex_digit (byte_at bs 8 / 16) ∈ [56; 57; 97; 98]%N ->
  canonical_uuid_v7 (format_uuid bs) = true.
Proof.
  intros Hl Hall H6 H8. do 16 (destruct bs as [|? bs]; [done|]). destruct bs; [|done].
  rewrite !Forall_cons in Hall. destruct_and!.
  repeat match goal with H : is_byte ?b |- _ =>
    apply hex_byte_lower in H; cbn [hex_byte forallb] in H; rewrite !andb_true_iff in H; destruct H as (? & ? & _) end.
  cbn [byte_at nth] in H6, H8. rewrite !elem_of_cons in H8.
  cbn -[hex_digit is_lower_hex N.div N.modulo N.eqb canonical_uuid_v7]. unfold canonical_uuid_v7.
  cbn -[hex_digit is_lower_hex N.div N.modulo N.eqb]. rewrite H6.
  repeat match goal with H : is_lower_hex _ = true |- _ => rewrite H; clear H end.
  destruct H8 as [->|[->|[->|[->|[]%elem_of_nil]]]]; done.
Qed.

Lemma uuid_canonical timestamp random id :
  length random = 16 -> Forall is_byte random -> new_uuid_v7 timestamp random = Ok id -> canonical_uuid_v7 id = true.
Proof.
  intros Hl Hall. unfold new_uuid_v7. destruct (281474976710655 <? timestamp)%N; [done|]. intros [= <-].
  assert (Hb : forall i, is_byte (byte_at random i)).
  { intros i. unfold byte_at. destruct (nth_lookup_or_length random i 0%N) as [H|H]; [|rewrite nth_overflow by lia; unfold is_byte; lia].
    rewrite Forall_lookup in Hall. by eapply Hall. }
  destruct (version_byte _ (Hb 6)) as [V1 V2]. destruct (variant_byte _ (Hb 8)) as [W1 W2].
  apply canonical_of_bytes; unfold uuid_bytes.
  - rewrite !length_app, length_drop, Hl. done.
  - rewrite !Forall_app. split; [|split].
    + apply Forall_fmap, Forall_true. intros shift. apply N.mod_lt. lia.
    + repeat constructor; [exact V1|exact (Hb 7)|exact W1].
    + by apply Forall_drop.
  - exact V2.
  - exact W2.
Qed.

Lemma lower_hex_ascii c : is_lower_hex c = true -> (c < 128)%N.
Proof. unfold is_lower_hex, is_ascii_digit. rewrite orb_true_iff, !andb_true_iff, !N.leb_le. lia. Qed.

Lemma uuid_ascii id : canonical_uuid_v7 id = true -> utf8 id = id.
Proof. intros H. apply utf8_ascii. intros c Hc. destruct (uuid_chars id c H Hc) as [->|?]; [done|by apply lower_hex_ascii]. Qed.

Lemma origin_hash_written sha256 remotes hash :
  (forall x, length (sha256 x) = 32 /\ Forall is_byte (sha256 x)) ->
  root_origin_url_hash sha256 remotes = Some hash -> utf8 hash = hash /\ origin_hash_ok hash.
Proof.
  intros Hsha. unfold root_origin_url_hash. intros (remote & _ & (url & _ & E)%bind_Some)%bind_Some.
  assert (hash = lit "sha256:" ++ (sha256 (utf8 (trim_end_newlines url)) ≫= hex_byte)) as -> by congruence. clear E.
  destruct (Hsha (utf8 (trim_end_newlines url))) as [Hl Hall]. destruct (hex_bytes_lower _ Hall) as [Hd Hdl].
  split.
  { apply utf8_ascii. intros c [Hc|Hc]%elem_of_app.
    - assert (H : Forall (fun c => (c < 128)%N) (lit "sha256:")) by (by apply (bool_decide_unpack _)). rewrite Forall_forall in H. by apply H.
    - apply lower_hex_ascii. rewrite forallb_forall in Hd. by apply Hd, list_elem_of_In. }
  eexists. split_and!; [done|by rewrite Hdl, Hl|done].
Qed.

(** C23: the log reads back the marker a workspace commit wrote: for any
    message, clock, random bytes, workspace id of one line and remotes, the
    id in the commit is recognised as the marker's key, exactly unless a
    line of the message itself already looks like a claim, in which case
    the marker is refused as unusable and never misread. *)
Theorem commit_marker_read_back sha256 timestamp random remotes workspace id message :
  (forall x, length (sha256 x) = 32 /\ Forall is_byte (sha256 x)) ->
  length random = 16 -> Forall is_byte random -> new_uuid_v7 timestamp random = Ok id ->
  workspace <> [] -> c_newline ∉ workspace ->
  marker_identity (utf8 (commit_message (mkCommitMarkerContext id workspace (root_origin_url_hash sha256 remotes)) message)) =
  if existsb marker_shaped_claim (split_on c_newline (utf8 (trim_end_newlines message))) then UnusableMarker else MarkerKey id.
Proof.
  intros Hsha Hl Hr Hid Hw Hwc. pose proof (uuid_canonical _ _ _ Hl Hr Hid) as Hc. rewrite commit_message_bytes.
  cbn [cm_gwz_commit_id cm_workspace_id cm_origin_url_hash]. rewrite (uuid_ascii id Hc).
  apply marker_read_back; [done|by apply utf8_nonempty|by apply utf8_clean|].
  intros h (hash & E & ->)%fmap_Some. destruct (origin_hash_written _ _ _ Hsha E) as [-> Hok]. exact Hok.
Qed.

Lemma commit_marker_read_back_witness :
  marker_identity (utf8 (commit_message (mkCommitMarkerContext (lit "018bcfe5-6800-7000-8000-000000000000") (lit "ws_1")
    (root_origin_url_hash (fun _ => replicate 32 171%N) [(lit "origin", Some (lit "https://example.org/r"))])) (lit "Fix it"))) =
  MarkerKey (lit "018bcfe5-6800-7000-8000-000000000000").
Proof.
  refine (commit_marker_read_back (fun _ => replicate 32 171%N) 1700000000000 (replicate 16 0%N) _ _ _ (lit "Fix it") _ _ _ _ _ _).
  - intros x. split; [done|]. by apply (bool_decide_unpack _).
  - done.
  - by apply (bool_decide_unpack _).
  - by vm_compute.
  - done.
  - by apply (bool_decide_unpack _).
Defined.
