(* ===== verification/LogMerge.v ===== *)
(** Merging the histories of a workspace's repositories into one log
    (src/src/operation/commit_log/merge.rs).

    Each repository's history is read by a thread of its own that answers one
    pull with one event, so the merge sees the events of each source in
    order; a cursor holds those that its thread has not sent.  What the merge
    emits is a list of events.  [None] stands for a failed [expect] and for a
    loop out of fuel; neither happens. *)

From S2P Require Export CommitLog.
From stdpp Require Export gmap.

#[local] Set Default Proof Using "Type".

Definition GROUP_CLOSURE_PATIENCE_ENTRIES : nat := 64.
Definition COALESCING_WINDOW_SECONDS : Z := 60.
Definition DEFAULT_MAX_ENTRIES : nat := 50.

Record CommitLogMergeOptions : Type := mkCommitLogMergeOptions {
  mo_coalesce : bool;
  mo_max_entries : option nat;
  mo_jobs : nat;
}.

Definition merge_options (coalesce : bool) (max_entries : option nat) (jobs : nat) : CommitLogMergeOptions :=
  mkCommitLogMergeOptions coalesce max_entries (Nat.max jobs 1).

Inductive CommitLogMergedEvent : Type :=
| MergedGroup (group : CommitLogGroup)
| MergedDegradation (record : CommitLogDegradation).

Abbreviation Events := (list CommitLogMergedEvent).

(** ** Order *)

(** [Ord] of strings, and [Ordering::then_with]. *)
Definition lex_compare (a b : str) : comparison := if lex_ltb a b then Lt else if lex_ltb b a then Gt else Eq.
Definition then_with (c d : comparison) : comparison := match c with Eq => d | _ => c end.

(** [Iterator::min_by]: the first of the least. *)
Definition min_by {A} (compare : A -> A -> comparison) (l : list A) : option A :=
  match l with
  | [] => None
  | x :: l => Some (foldl (fun x y => match compare x y with Gt => y | _ => x end) x l)
  end.

Definition compare_entries (left right : CommitLogEntry) : comparison :=
  then_with (committed_at right ?= committed_at left)%Z
    (then_with (lex_compare (member_of left) (member_of right)) (lex_compare (en_commit_id left) (en_commit_id right))).

Definition compare_pairs (left right : str * str) : comparison :=
  then_with (lex_compare left.1 right.1) (lex_compare left.2 right.2).

(** The least member and commit of a group; a group always has an entry. *)
Definition group_tiebreak (g : CommitLogGroup) : str * str :=
  default ([], []) (min_by compare_pairs ((fun e => (member_of e, en_commit_id e)) <$> gr_entries g)).

Definition compare_groups (left right : CommitLogGroup) : comparison :=
  then_with (gr_ordering right ?= gr_ordering left)%Z (compare_pairs (group_tiebreak left) (group_tiebreak right)).

(** ** Cursors *)

Record CursorState : Type := mkCursorState {
  cu_source : list CommitLogEvent;
  cu_head : option CommitLogEntry;
  cu_done : bool;
  cu_oldest_seen : option Z;
  cu_recent_yields : list N;
}.

Definition cursor_over (source : list CommitLogEvent) : CursorState := mkCursorState source None false None [].

(** The turns of [receive_head]'s loop; a degradation is emitted and the next
    event pulled. *)
Fixpoint receive_from (source : list CommitLogEvent) (c : CursorState) (yield_serial : N) : CursorState * N * Events :=
  match source with
  | [] => (mkCursorState [] (cu_head c) true (cu_oldest_seen c) (cu_recent_yields c), yield_serial, [])
  | LogEntry entry :: rest =>
      let serial := saturating_add yield_serial 1 in
      let seen := match cu_oldest_seen c with Some seen => Z.min seen (committed_at entry) | None => committed_at entry end in
      let recent := cu_recent_yields c ++ [serial] in
      (mkCursorState rest (Some entry) (cu_done c) (Some seen)
         (if GROUP_CLOSURE_PATIENCE_ENTRIES <? length recent then tail recent else recent), serial, [])
  | LogDegradation record :: rest =>
      let '(c, serial, out) := receive_from rest c yield_serial in (c, serial, MergedDegradation record :: out)
  end.

Definition receive_head (c : CursorState) (yield_serial : N) : CursorState * N * Events :=
  if cu_done c then (c, yield_serial, []) else receive_from (cu_source c) c yield_serial.

Definition advance_cursor := receive_head.

Fixpoint prime_cursors (cursors : list CursorState) (yield_serial : N) : list CursorState * N * Events :=
  match cursors with
  | [] => ([], yield_serial, [])
  | c :: cursors =>
      let '(c, serial, out) := receive_head c yield_serial in
      let '(cursors, serial, out') := prime_cursors cursors serial in
      (c :: cursors, serial, out ++ out')
  end.

Definition with_heads (cursors : list CursorState) : list (nat * CommitLogEntry) :=
  omap (fun '(index, c) => (fun e => (index, e)) <$> cu_head c) (zip (seq 0 (length cursors)) cursors).

Definition next_cursor (cursors : list CursorState) : option nat :=
  fst <$> min_by (fun l r => compare_entries l.2 r.2) (with_heads cursors).

(** ** Pending groups *)

Record PendingGroup : Type := mkPendingGroup {
  pg_id : N;
  pg_group : CommitLogGroup;
  pg_sealed : bool;
  pg_repositories : gset nat;
  pg_predecessors : gset N;
  pg_opened_at_yield : N;
}.

#[global] Instance PendingGroup_settable : Settable PendingGroup := fun g =>
  mkPendingGroup (pg_id g) (pg_group g) (pg_sealed g) (pg_repositories g) (pg_predecessors g) (pg_opened_at_yield g).

Record MergeState : Type := mkMergeState {
  ms_pending : list PendingGroup;
  ms_last_group_by_cursor : list (option N);
  ms_next_group_id : N;
}.

Definition merge_state_new (cursor_count : nat) : MergeState := mkMergeState [] (replicate cursor_count None) 0.

Definition is_pending (groups : list PendingGroup) (id : N) : bool := existsb (fun g => (pg_id g =? id)%N) groups.

Definition pending_predecessor (s : MergeState) (cursor : nat) : option N :=
  id ← mjoin (ms_last_group_by_cursor s !! cursor); if is_pending (ms_pending s) id then Some id else None.

Definition find_group (groups : list PendingGroup) (id : N) : option PendingGroup := find (fun g => (pg_id g =? id)%N) groups.

(** The search of [group_depends_on]: the frontier is a stack. *)
Fixpoint depends_loop (fuel : nat) (groups : list PendingGroup) (ancestor : N) (frontier : list N) (seen : gset N) : option bool :=
  match frontier with
  | [] => Some false
  | id :: frontier =>
      match fuel with
      | 0 => None
      | S fuel =>
          if bool_decide (id ∈ seen) then depends_loop fuel groups ancestor frontier seen
          else
            match find_group groups id with
            | None => depends_loop fuel groups ancestor frontier ({[id]} ∪ seen)
            | Some g =>
                if bool_decide (ancestor ∈ pg_predecessors g) then Some true
                else depends_loop fuel groups ancestor (reverse (elements (pg_predecessors g)) ++ frontier) ({[id]} ∪ seen)
            end
      end
  end.

(** Each step takes an id off the stack; each group puts its predecessors on
    it once. *)
Definition depends_fuel (groups : list PendingGroup) : nat := S (sum_list_with (fun g => size (pg_predecessors g)) groups).

Definition group_depends_on (groups : list PendingGroup) (group ancestor : N) : bool :=
  default false (depends_loop (depends_fuel groups) groups ancestor [group] ∅).

Definition group_is_blocked (groups : list PendingGroup) (g : PendingGroup) : bool :=
  existsb (fun other => bool_decide (pg_id other ∈ pg_predecessors g)) groups.

Definition join_group (g : CommitLogGroup) (entry : CommitLogEntry) : option CommitLogGroup :=
  let '(oldest, newest) := oldest_newest (committed_at <$> gr_entries g) (committed_at entry) in
  if (COALESCING_WINDOW_SECONDS <? Z.abs (newest - oldest))%Z then None
  else
    match assemble_commit_log_groups (gr_entries g ++ [entry]) true with
    | [joined] => if length (gr_entries joined) =? length (gr_entries g) + 1 then Some joined else None
    | _ => None
    end.

(** The first pending group, with its place, that the entry may join. *)
Fixpoint find_candidate (all : list PendingGroup) (predecessor : option N) (entry : CommitLogEntry) (index : nat)
    (groups : list PendingGroup) : option (nat * CommitLogGroup) :=
  match groups with
  | [] => None
  | g :: groups =>
      let skip := pg_sealed g || match predecessor with Some p => group_depends_on all p (pg_id g) | None => false end in
      match (if skip then None else join_group (pg_group g) entry) with
      | Some joined => Some (index, joined)
      | None => find_candidate all predecessor entry (S index) groups
      end
  end.

Definition try_join (s : MergeState) (cursor : nat) (entry : CommitLogEntry) : option MergeState :=
  let predecessor := pending_predecessor s cursor in
  '(index, joined) ← find_candidate (ms_pending s) predecessor entry 0 (ms_pending s);
  g ← ms_pending s !! index;
  Some (mkMergeState
    (<[index := g <| pg_group := joined |> <| pg_repositories := {[cursor]} ∪ pg_repositories g |>
                  <| pg_predecessors := match predecessor with Some p => {[p]} ∪ pg_predecessors g | None => pg_predecessors g end |>]>
       (ms_pending s))
    (<[cursor := Some (pg_id g)]> (ms_last_group_by_cursor s))
    (ms_next_group_id s)).

(** [admit]; the one group of one entry is its last. *)
Definition admit_entry (s : MergeState) (cursor : nat) (entry : CommitLogEntry) (yield_serial : N) : option MergeState :=
  match try_join s cursor entry with
  | Some s => Some s
  | None =>
      let id := ms_next_group_id s in
      group ← last (assemble_commit_log_groups [entry] true);
      Some (mkMergeState
        (ms_pending s ++
           [mkPendingGroup id group false {[cursor]}
              (match pending_predecessor s cursor with Some p => {[p]} | None => ∅ end) yield_serial])
        (<[cursor := Some id]> (ms_last_group_by_cursor s))
        (id + 1)%N)
  end.

(** The loop of [absorb_seen_siblings] from the cursor [index] on. *)
Fixpoint absorb_seen_siblings (index : nat) (cursors : list CursorState) (s : MergeState) : list CursorState * MergeState :=
  match cursors with
  | [] => ([], s)
  | c :: cursors =>
      let '(c, s) := match cu_head c with
        | None => (c, s)
        | Some entry =>
            match try_join s index entry with
            | Some s => (mkCursorState (cu_source c) None (cu_done c) (cu_oldest_seen c) (cu_recent_yields c), s)
            | None => (c, s)
            end
        end in
      let '(cursors, s) := absorb_seen_siblings (S index) cursors s in (c :: cursors, s)
  end.

(** *** Closing groups *)

Definition i64_min : Z := - 2 ^ 63.

(** [i64::saturating_sub] of the window. *)
Definition group_closure_threshold (g : PendingGroup) : Z := Z.max i64_min (gr_ordering (pg_group g) - COALESCING_WINDOW_SECONDS).

Definition cursor_closes_group (g : PendingGroup) (index : nat) (c : CursorState) : bool :=
  bool_decide (index ∈ pg_repositories g) || cu_done c ||
  match cu_oldest_seen c with Some seen => (seen <? group_closure_threshold g)%Z | None => false end ||
  ((length (cu_recent_yields c) =? GROUP_CLOSURE_PATIENCE_ENTRIES) &&
   match head (cu_recent_yields c) with Some serial => (pg_opened_at_yield g <? serial)%N | None => false end).

Definition seal_groups (groups : list PendingGroup) (cursors : list CursorState) : list PendingGroup :=
  (fun g => if pg_sealed g then g
            else g <| pg_sealed := forallb (fun '(index, c) => cursor_closes_group g index c) (zip (seq 0 (length cursors)) cursors) |>) <$> groups.

Definition group_blocks_sealed_output (groups : list PendingGroup) (candidate : PendingGroup) : bool :=
  negb (pg_sealed candidate) && negb (group_is_blocked groups candidate) &&
  existsb (fun g => pg_sealed g && group_depends_on groups (pg_id g) (pg_id candidate)) groups.

Definition oldest_group_blocking_sealed_output (groups : list PendingGroup) : option PendingGroup :=
  min_by (fun l r => compare_groups (pg_group l) (pg_group r)) (List.filter (group_blocks_sealed_output groups) groups).

Definition closure_progress_cursor (groups : list PendingGroup) (cursors : list CursorState) : option nat :=
  g ← oldest_group_blocking_sealed_output groups;
  fst <$> min_by (fun l r => compare_entries l.2 r.2)
    (List.filter (fun '(index, _) => match cursors !! index with Some c => negb (cursor_closes_group g index c) | None => false end)
       (with_heads cursors)).

(** *** Emitting groups *)

Definition limit_reached (max_entries : option nat) (emitted : nat) : bool :=
  match max_entries with Some limit => limit <=? emitted | None => false end.

(** The place of the least group that satisfies [ready]. *)
Definition least_group (ready : PendingGroup -> bool) (groups : list PendingGroup) : option (nat * PendingGroup) :=
  min_by (fun l r => compare_groups (pg_group l.2) (pg_group r.2))
    (List.filter (fun p => ready p.2) (zip (seq 0 (length groups)) groups)).

Fixpoint emit_ready_groups (fuel : nat) (groups : list PendingGroup) (max_entries : option nat) (emitted : nat) :
    option (list PendingGroup * nat * Events * bool) :=
  if limit_reached max_entries emitted then Some (groups, emitted, [], true)
  else
    match least_group (fun g => pg_sealed g && negb (group_is_blocked groups g)) groups with
    | None => Some (groups, emitted, [], false)
    | Some (index, g) =>
        match fuel with
        | 0 => None
        | S fuel =>
            '(groups, emitted, out, stopped) ← emit_ready_groups fuel (delete index groups) max_entries (S emitted);
            Some (groups, emitted, MergedGroup (pg_group g) :: out, stopped)
        end
    end.

Fixpoint emit_forced_groups (fuel : nat) (groups : list PendingGroup) (max_entries : option nat) (emitted : nat) :
    option (list PendingGroup * nat * Events) :=
  if (length groups =? 0) || limit_reached max_entries emitted then Some (groups, emitted, [])
  else
    '(index, g) ← least_group (fun g => negb (group_is_blocked groups g)) groups;
    match fuel with
    | 0 => None
    | S fuel =>
        '(groups, emitted, out) ← emit_forced_groups fuel (delete index groups) max_entries (S emitted);
        Some (groups, emitted, MergedGroup (pg_group g) :: out)
    end.

Definition buffered_entry_count (groups : list PendingGroup) : nat := sum_list_with (fun g => length (gr_entries (pg_group g))) groups.

(** ** The merge *)

Record Merge : Type := mkMerge {
  mg_cursors : list CursorState;
  mg_state : MergeState;
  mg_emitted : nat;
  mg_max_buffered : nat;
  mg_serial : N;
  mg_out : Events;
}.

#[global] Instance Merge_settable : Settable Merge := fun m =>
  mkMerge (mg_cursors m) (mg_state m) (mg_emitted m) (mg_max_buffered m) (mg_serial m) (mg_out m).

#[global] Instance MergeState_settable : Settable MergeState := fun s =>
  mkMergeState (ms_pending s) (ms_last_group_by_cursor s) (ms_next_group_id s).

Definition with_pending (s : MergeState) (groups : list PendingGroup) : MergeState := s <| ms_pending := groups |>.

Definition note_buffered (m : Merge) : Merge :=
  m <| mg_max_buffered := Nat.max (mg_max_buffered m) (buffered_entry_count (ms_pending (mg_state m))) |>.

(** [emit_forced_groups] on the pending groups, the last of a merge. *)
Definition force (max_entries : option nat) (m : Merge) : option Merge :=
  let groups := ms_pending (mg_state m) in
  '(groups, emitted, out) ← emit_forced_groups (length groups) groups max_entries (mg_emitted m);
  Some (m <| mg_state := with_pending (mg_state m) groups |> <| mg_emitted := emitted |> <| mg_out := mg_out m ++ out |>).

Definition advance (index : nat) (m : Merge) : option Merge :=
  c ← mg_cursors m !! index;
  let '(c, serial, out) := advance_cursor c (mg_serial m) in
  Some (m <| mg_cursors := <[index := c]> (mg_cursors m) |> <| mg_serial := serial |> <| mg_out := mg_out m ++ out |>).

(** [cursors[index].head.take()]. *)
Definition take_head (index : nat) (m : Merge) : option (CommitLogEntry * Merge) :=
  c ← mg_cursors m !! index;
  entry ← cu_head c;
  Some (entry, m <| mg_cursors := <[index := mkCursorState (cu_source c) None (cu_done c) (cu_oldest_seen c) (cu_recent_yields c)]> (mg_cursors m) |>).

(** Whether the merge goes on, [inl], or returned, [inr]. *)
Abbreviation Turn := (Merge + Merge)%type.

(** The entry of a cursor when groups are not coalesced. *)
Definition emit_alone (options : CommitLogMergeOptions) (index : nat) (entry : CommitLogEntry) (m : Merge) : option Turn :=
  group ← last (assemble_commit_log_groups [entry] false);
  let m := m <| mg_out := mg_out m ++ [MergedGroup group] |> <| mg_emitted := S (mg_emitted m) |> in
  if limit_reached (mo_max_entries options) (mg_emitted m) then Some (inr m)
  else inl <$> advance index m.

(** The entry of a cursor when they are. *)
Definition gather_turn (options : CommitLogMergeOptions) (index : nat) (entry : CommitLogEntry) (m : Merge) : option Turn :=
  state ← admit_entry (mg_state m) index entry (mg_serial m);
  let m := note_buffered (m <| mg_state := state |>) in
  let remaining := match mo_max_entries options with Some limit => limit - mg_emitted m | None => 0 end in
  if bool_decide (is_Some (mo_max_entries options)) && negb (remaining =? 0) && (remaining <=? length (ms_pending (mg_state m))) then
    let '(cursors, state) := absorb_seen_siblings 0 (mg_cursors m) (mg_state m) in
    let m := note_buffered (m <| mg_cursors := cursors |> <| mg_state := state |>) in
    inr <$> force (mo_max_entries options) m
  else inl <$> advance index m.

(** One turn of the loop of [merge_cursors]. *)
Definition merge_turn (options : CommitLogMergeOptions) (m : Merge) : option Turn :=
  let groups := seal_groups (ms_pending (mg_state m)) (mg_cursors m) in
  '(groups, emitted, out, stopped) ← emit_ready_groups (length groups) groups (mo_max_entries options) (mg_emitted m);
  let m := m <| mg_state := with_pending (mg_state m) groups |> <| mg_emitted := emitted |> <| mg_out := mg_out m ++ out |> in
  if (stopped : bool) then Some (inr m)
  else
    match (match closure_progress_cursor groups (mg_cursors m) with Some index => Some index | None => next_cursor (mg_cursors m) end) with
    | None => inr <$> force (mo_max_entries options) m
    | Some index =>
        '(entry, m) ← take_head index m;
        if mo_coalesce options then gather_turn options index entry m else emit_alone options index entry m
    end.

Fixpoint merge_cursors (fuel : nat) (options : CommitLogMergeOptions) (m : Merge) : option Merge :=
  match fuel with
  | 0 => None
  | S fuel =>
      turn ← merge_turn options m;
      match turn with inl m => merge_cursors fuel options m | inr m => Some m end
  end.

Definition entries_of (source : list CommitLogEvent) : list CommitLogEntry :=
  omap (fun event => match event with LogEntry entry => Some entry | LogDegradation _ => None end) source.

(** Every turn but the last takes an entry. *)
Definition merge_fuel (sources : list (list CommitLogEvent)) : nat := S (length (sources ≫= entries_of)).

Definition stream_sources (sources : list (list CommitLogEvent)) (options : CommitLogMergeOptions) : option Merge :=
  let '(cursors, serial, out) := prime_cursors (cursor_over <$> sources) 0 in
  merge_cursors (merge_fuel sources) options (mkMerge cursors (merge_state_new (length cursors)) 0 0 serial out).
