(* ===== verification/LogGraph.v ===== *)
(** The pending groups of a log merge as a graph: what the dependency search
    answers, that no group waits for itself, and how each repository's entries
    are queued through the groups. *)

From S2P Require Export LogMerge.

#[local] Set Default Proof Using "Type".

(** ** Choosing the least *)

Lemma min_by_elem {A} (compare : A -> A -> comparison) l x : min_by compare l = Some x -> x ∈ l.
Proof.
  destruct l as [|y l]; [done|]. cbn [min_by]. intros [= <-]. induction l as [|z l IH] using rev_ind; [by left|].
  rewrite foldl_snoc, app_comm_cons, elem_of_app. destruct (compare _ z); [by left..|right; by left].
Qed.

Lemma min_by_none {A} (compare : A -> A -> comparison) l : min_by compare l = None <-> l = [].
Proof. by destruct l. Qed.

Lemma lookup_enumerated {A} (l : list A) i x : (i, x) ∈ zip (seq 0 (length l)) l <-> l !! i = Some x.
Proof.
  rewrite list_elem_of_lookup. split.
  - intros [k Hk]. rewrite lookup_zip_with in Hk. apply bind_Some in Hk as (j & (-> & _)%lookup_seq & (y & Hy & [= <- <-])%bind_Some). done.
  - intros H. exists i. rewrite lookup_zip_with. rewrite lookup_seq_lt by by apply lookup_lt_Some in H. cbn. by rewrite H.
Qed.

Lemma with_heads_spec cursors i e : (i, e) ∈ with_heads cursors <-> exists c, cursors !! i = Some c /\ cu_head c = Some e.
Proof.
  unfold with_heads. rewrite list_elem_of_omap. split.
  - intros ([j c] & Hin%lookup_enumerated & (e' & He & [= <- <-])%fmap_Some). eauto.
  - intros (c & Hc & He). exists (i, c). split; [by apply lookup_enumerated|]. by rewrite He.
Qed.

Lemma least_group_spec ready groups i g : least_group ready groups = Some (i, g) -> groups !! i = Some g /\ ready g = true.
Proof.
  unfold least_group. intros H%min_by_elem. apply list_elem_of_In, List.filter_In in H as [H1 H2]. split; [|done].
  by apply lookup_enumerated, list_elem_of_In.
Qed.

Lemma least_group_none ready groups : least_group ready groups = None -> Forall (fun g => ready g = false) groups.
Proof.
  unfold least_group. rewrite min_by_none. intros H. rewrite Forall_lookup. intros i g Hg. destruct (ready g) eqn:E; [|done].
  assert (Hin : In (i, g) (List.filter (fun p => ready p.2) (zip (seq 0 (length groups)) groups))).
  { apply List.filter_In. split; [by apply list_elem_of_In, lookup_enumerated|done]. }
  by rewrite H in Hin.
Qed.

(** ** The graph *)

(** A group without its bookkeeping: its entries and its predecessors. *)
Abbreviation Node := (CommitLogGroup * gset N)%type.

Definition node_of (g : PendingGroup) : N * Node := (pg_id g, (pg_group g, pg_predecessors g)).
Definition graph_of (groups : list PendingGroup) : gmap N Node := list_to_map (node_of <$> groups).

(** Ids are unique. *)
Definition distinct (groups : list PendingGroup) : Prop := NoDup (pg_id <$> groups).

Lemma node_keys groups : (node_of <$> groups).*1 = pg_id <$> groups.
Proof. by rewrite <- list_fmap_compose. Qed.

Lemma graph_lookup groups x n : distinct groups -> graph_of groups !! x = Some n <-> exists g, g ∈ groups /\ node_of g = (x, n).
Proof.
  intros Hd. unfold graph_of. rewrite <- elem_of_list_to_map; [|by rewrite node_keys]. rewrite list_elem_of_fmap. split.
  - intros (g & E & Hg). by exists g.
  - intros (g & Hg & E). by exists g.
Qed.

Lemma graph_lookup_elem groups g : distinct groups -> g ∈ groups -> graph_of groups !! pg_id g = Some (pg_group g, pg_predecessors g).
Proof. intros Hd Hg. apply graph_lookup; [done|]. by exists g. Qed.

Lemma graph_some groups x : is_Some (graph_of groups !! x) <-> x ∈ pg_id <$> groups.
Proof.
  unfold graph_of. rewrite <- elem_of_dom, dom_list_to_map_L, elem_of_list_to_set, node_keys. done.
Qed.

Lemma is_pending_spec groups x : is_pending groups x = true <-> is_Some (graph_of groups !! x).
Proof.
  rewrite graph_some. unfold is_pending. rewrite existsb_elem, list_elem_of_fmap. split.
  - intros (g & Hg & E%N.eqb_eq). by exists g.
  - intros (g & -> & Hg). exists g. split; [done|by apply N.eqb_eq].
Qed.

Lemma find_group_spec groups x g : find_group groups x = Some g -> g ∈ groups /\ pg_id g = x.
Proof. unfold find_group. intros [H1 H2]%find_some. split; [by apply list_elem_of_In|by apply N.eqb_eq]. Qed.

Lemma find_group_none groups x : find_group groups x = None -> graph_of groups !! x = None.
Proof.
  intros H. apply eq_None_not_Some. rewrite graph_some, list_elem_of_fmap. intros (g & -> & Hg).
  unfold find_group in H. apply list_elem_of_In in Hg. eapply find_none in H; [|exact Hg]. by rewrite N.eqb_refl in H.
Qed.

(** [x] waits for [y]. *)
Definition dep (G : gmap N Node) (x y : N) : Prop := exists n, G !! x = Some n /\ y ∈ n.2.

Definition acyclic (G : gmap N Node) : Prop := forall x, ~ tc (dep G) x x.

(** ** The search *)

Definition unseen_predecessors (groups : list PendingGroup) (seen : gset N) : nat :=
  sum_list_with (fun g => if decide (pg_id g ∈ seen) then 0 else size (pg_predecessors g)) groups.

Lemma unseen_more groups x seen : unseen_predecessors groups ({[x]} ∪ seen) <= unseen_predecessors groups seen.
Proof.
  unfold unseen_predecessors. induction groups as [|g groups IH]; cbn [sum_list_with]; [done|].
  repeat case_decide; try lia; set_solver.
Qed.

Lemma unseen_visit groups seen g : g ∈ groups -> pg_id g ∉ seen ->
  unseen_predecessors groups ({[pg_id g]} ∪ seen) + size (pg_predecessors g) <= unseen_predecessors groups seen.
Proof.
  intros Hg Hs. induction groups as [|h groups IH]; [by apply elem_of_nil in Hg|]. unfold unseen_predecessors in *. cbn [sum_list_with].
  apply elem_of_cons in Hg as [<-|Hg].
  - pose proof (unseen_more groups (pg_id g) seen) as Hm. unfold unseen_predecessors in Hm.
    rewrite decide_True by set_solver. rewrite decide_False by done. lia.
  - specialize (IH Hg). repeat case_decide; try lia; set_solver.
Qed.

Section search.
Context (groups : list PendingGroup) (Hd : distinct groups) (a : N).
Abbreviation G := (graph_of groups).

(** What was visited does not wait for [a] directly, and all it waits for was
    visited or is still to be. *)
Definition visited (seen : gset N) (frontier : list N) : Prop :=
  forall x n, x ∈ seen -> G !! x = Some n -> (a ∉ n.2) /\ forall y, y ∈ n.2 -> y ∈ seen \/ y ∈ frontier.

Lemma visited_escape seen frontier x : visited seen frontier -> x ∈ seen -> tc (dep G) x a -> exists z, z ∈ frontier /\ tc (dep G) z a.
Proof using Type.
  intros Hv Hx Ht. remember a as a' eqn:Ea in Ht. induction Ht as [x y (n & Hn & Hy)|x y z (n & Hn & Hy) Ht IH]; subst.
  - by destruct (Hv x n Hx Hn).
  - destruct (Hv x n Hx Hn) as [_ H]. destruct (H y Hy) as [Hs|Hf]; [by apply IH|]. eauto.
Qed.

Lemma depends_loop_spec fuel frontier seen :
  length frontier + unseen_predecessors groups seen <= fuel -> visited seen frontier ->
  exists b, depends_loop fuel groups a frontier seen = Some b /\ (b = true <-> exists x, x ∈ frontier /\ tc (dep G) x a).
Proof using Hd.
  revert frontier seen. induction fuel as [|fuel IH]; intros [|id frontier] seen Hf Hv; cbn [depends_loop length] in *; try lia.
  1-2: exists false; split; [done|]; split; [done|]; intros (x & []%elem_of_nil & _).
  assert (Hsplit : (exists x, x ∈ id :: frontier /\ tc (dep G) x a) <-> tc (dep G) id a \/ exists x, x ∈ frontier /\ tc (dep G) x a).
  { split; [intros (x & [->|Hx]%elem_of_cons & Ht); eauto|intros [Ht|(x & Hx & Ht)]; [exists id|exists x]; (split; [set_solver|done])]. }
  setoid_rewrite Hsplit. clear Hsplit. case_bool_decide as Hseen.
  - assert (Hv' : visited seen frontier).
    { intros x n Hx Hn. destruct (Hv x n Hx Hn) as [H1 H2]. split; [done|]. intros y Hy. destruct (H2 y Hy) as [?|[->|?]%elem_of_cons]; auto. }
    destruct (IH frontier seen) as (b & E & Hb); [lia|done|]. exists b. split; [done|]. rewrite Hb. split; [by right|].
    intros [Ht|H]; [by eapply visited_escape|done].
  - destruct (find_group groups id) as [g|] eqn:Eg.
    + apply find_group_spec in Eg as [Hg <-]. pose proof (graph_lookup_elem groups g Hd Hg) as Hl. case_bool_decide as Ha.
      { exists true. split; [done|]. split; [|done]. intros _. left. apply tc_once. by eexists. }
      destruct (IH (reverse (elements (pg_predecessors g)) ++ frontier) ({[pg_id g]} ∪ seen)) as (b & E & Hb).
      * rewrite length_app, length_reverse. pose proof (unseen_visit groups seen g Hg Hseen). unfold size, set_size in *. cbn in *. lia.
      * intros x n [->%elem_of_singleton|Hx]%elem_of_union Hn.
        -- rewrite Hl in Hn. injection Hn as <-. split; [done|]. intros y Hy. right. apply elem_of_app. left. by rewrite elem_of_reverse, elem_of_elements.
        -- destruct (Hv x n Hx Hn) as [H1 H2]. split; [done|]. intros y Hy. destruct (H2 y Hy) as [?|[->|?]%elem_of_cons]; set_solver.
      * exists b. split; [done|]. rewrite Hb. split.
        -- intros (x & [Hx|Hx]%elem_of_app & Ht); [left|right; eauto]. rewrite elem_of_reverse, elem_of_elements in Hx. eapply tc_l; [by eexists|done].
        -- intros [Ht|(x & Hx & Ht)]; [|exists x; set_solver]. inversion Ht as [? ? (n & Hn & Hy)|? y ? (n & Hn & Hy) Ht']; subst; rewrite Hl in Hn; injection Hn as <-; [done|].
           exists y. split; [|done]. apply elem_of_app. left. by rewrite elem_of_reverse, elem_of_elements.
    + apply find_group_none in Eg. destruct (IH frontier ({[id]} ∪ seen)) as (b & E & Hb).
      * pose proof (unseen_more groups id seen). lia.
      * intros x n [->%elem_of_singleton|Hx]%elem_of_union Hn; [congruence|].
        destruct (Hv x n Hx Hn) as [H1 H2]. split; [done|]. intros y Hy. destruct (H2 y Hy) as [?|[->|?]%elem_of_cons]; set_solver.
      * exists b. split; [done|]. rewrite Hb. split; [by right|]. intros [Ht|H]; [|done].
        exfalso. inversion Ht as [? ? (n & Hn & _)|? y ? (n & Hn & _) _]; congruence.
Qed.

(** The search answers whether one group waits for another, directly or
    through others. *)
Lemma group_depends_on_spec group : group_depends_on groups group a = true <-> tc (dep G) group a.
Proof using Hd.
  unfold group_depends_on, depends_fuel. destruct (depends_loop_spec (S (sum_list_with (fun g => size (pg_predecessors g)) groups)) [group] ∅) as (b & -> & Hb).
  - cbn [length]. enough (unseen_predecessors groups ∅ <= sum_list_with (fun g => size (pg_predecessors g)) groups) by lia.
    unfold unseen_predecessors. induction groups as [|g gs IH]; cbn [sum_list_with]; [done|]. assert (distinct gs) by (by apply NoDup_cons in Hd as [_ ?]). case_decide; [set_solver|]. specialize (IH ltac:(done)). lia.
  - intros x n Hx. set_solver.
  - cbn [default from_option id]. rewrite Hb. split; [intros (x & ->%list_elem_of_singleton & ?); done|]. intros H. exists group. split; [by left|done].
Qed.

End search.

(** ** No group waits for itself *)

Lemma tc_mono {A} (R S : A -> A -> Prop) x y : (forall x y, R x y -> S x y) -> tc R x y -> tc S x y.
Proof. intros H. induction 1 as [x y Hxy|x y z Hxy _ IH]; [apply tc_once; auto|eapply tc_l; eauto]. Qed.

Lemma acyclic_sub G G' : (forall x y, dep G' x y -> dep G x y) -> acyclic G -> acyclic G'.
Proof. intros H Ha x Hx. apply (Ha x). by eapply tc_mono. Qed.

(** A path with one more edge is a path without it, or goes through it. *)
Lemma tc_with_edge {A} (R S : A -> A -> Prop) (g p x y : A) :
  (forall x y, S x y -> R x y \/ x = g /\ y = p) -> tc S x y -> tc R x y \/ rtc R x g /\ rtc R p y.
Proof.
  intros H. induction 1 as [x y Hxy|x y z Hxy _ IH].
  - destruct (H x y Hxy) as [?|[-> ->]]; [left; by apply tc_once|right; by split].
  - destruct (H x y Hxy) as [Hr|[-> ->]].
    + destruct IH as [IH|[IH1 IH2]]; [left; by eapply tc_l|right; split; [by eapply rtc_l|done]].
    + right. split; [done|]. destruct IH as [IH|[IH1 IH2]]; [by apply tc_rtc|done].
Qed.

Lemma acyclic_edge G G' g p :
  (forall x y, dep G' x y -> dep G x y \/ x = g /\ y = p) -> p <> g -> ~ tc (dep G) p g -> acyclic G -> acyclic G'.
Proof.
  intros H Hne Hp Ha x Hx. destruct (tc_with_edge _ _ g p x x H Hx) as [Ht|[H1 H2]]; [by apply (Ha x)|].
  assert (Hpg : rtc (dep G) p g) by (by transitivity x). apply rtc_tc in Hpg as [->|?]; auto.
Qed.

Lemma blocked_spec groups g : distinct groups ->
  group_is_blocked groups g = true <-> exists y, y ∈ pg_predecessors g /\ is_Some (graph_of groups !! y).
Proof.
  intros Hd. unfold group_is_blocked. rewrite existsb_elem. setoid_rewrite graph_some. setoid_rewrite list_elem_of_fmap. split.
  - intros (h & Hh & E%bool_decide_eq_true). eauto 6.
  - intros (y & Hy & h & -> & Hh). exists h. split; [done|]. by apply bool_decide_eq_true.
Qed.

(** The graph always has a group that waits for no other. *)
Lemma unblocked_exists groups : distinct groups -> acyclic (graph_of groups) -> groups <> [] ->
  exists g, g ∈ groups /\ group_is_blocked groups g = false.
Proof.
  intros Hd Ha Hne. pose (R := fun x y : N => tc (dep (graph_of groups)) y x).
  assert (Hdec : forall x y, Decision (R x y)).
  { intros x y. unfold R. destruct (group_depends_on groups y x) eqn:E; [left; by apply group_depends_on_spec|right].
    intros H%group_depends_on_spec; congruence. }
  assert (Htrans : Transitive R) by (intros x y z H1 H2; unfold R in *; by transitivity y).
  destruct (minimal_exists_elem_of R (dom (graph_of groups))) as (x & Hx & Hmin).
  { destruct groups as [|g gs]; [done|]. intros H. assert (Hin : pg_id g ∈ dom (graph_of (g :: gs))); [|set_solver].
    apply elem_of_dom, graph_some. by left. }
  apply elem_of_dom, graph_some, list_elem_of_fmap in Hx as (g & -> & Hg). exists g. split; [done|].
  apply not_true_iff_false. intros (y & Hy & Hs)%(blocked_spec groups g Hd).
  assert (Hyx : R y (pg_id g)). { apply tc_once. eexists. split; [by apply graph_lookup_elem|done]. }
  apply elem_of_dom in Hs. specialize (Hmin y Hs Hyx). apply (Ha y). by transitivity (pg_id g).
Qed.

(** ** The queue of a repository through the groups *)

Definition of_member (id : str) (entries : list CommitLogEntry) : list CommitLogEntry :=
  List.filter (fun e => bool_decide (member_of e = id)) entries.

Definition entry_in (G : gmap N Node) (id : str) (x : N) : list CommitLogEntry :=
  match G !! x with Some n => of_member id (gr_entries n.1) | None => [] end.

(** The groups of [w] hold the repository's pending entries, one each and in
    order; each waits for the one before. *)
Record waits (G : gmap N Node) (id : str) (w : list N) (last_group : option N) : Prop := {
  waits_nodup : NoDup w;
  waits_pending : forall x, x ∈ w -> is_Some (G !! x);
  waits_member : forall x n, G !! x = Some n -> (x ∈ w <-> id ∈ member_of <$> gr_entries n.1);
  waits_linked : forall k p q n, w !! k = Some p -> w !! S k = Some q -> G !! q = Some n -> p ∈ n.2;
  waits_last : match last w with Some x => last_group = Some x | None => forall x, last_group = Some x -> G !! x = None end;
}.

Definition waiting (G : gmap N Node) (id : str) (w : list N) : list CommitLogEntry := w ≫= entry_in G id.

Lemma of_member_app id a b : of_member id (a ++ b) = of_member id a ++ of_member id b.
Proof. apply List.filter_app. Qed.

Lemma of_member_none id entries : id ∉ member_of <$> entries -> of_member id entries = [].
Proof.
  induction entries as [|e entries IH]; [done|]. rewrite fmap_cons, not_elem_of_cons. intros [H1 H2]. unfold of_member in *. cbn [List.filter].
  rewrite bool_decide_false by congruence. by apply IH.
Qed.

Lemma waiting_ext G G' id w : (forall x, x ∈ w -> entry_in G' id x = entry_in G id x) -> waiting G' id w = waiting G id w.
Proof.
  unfold waiting. induction w as [|x w IH]; intros H; [done|]. cbn [mbind list_bind]. rewrite H by (by left). f_equal. apply IH. intros y Hy. apply H. by right.
Qed.

Lemma waits_empty id : waits ∅ id [] None.
Proof. split; [constructor|set_solver|intros x n; by rewrite lookup_empty|done|done]. Qed.

(** *** A group that waits for none leaves *)

Lemma waits_leave G id w last_group x n :
  waits G id w last_group -> G !! x = Some n -> (forall y, y ∈ n.2 -> G !! y = None) ->
  exists w', waits (delete x G) id w' last_group /\ waiting G id w = of_member id (gr_entries n.1) ++ waiting (delete x G) id w'.
Proof.
  intros [Hnd Hp Hm Hl Hlast] Hx Hfree.
  assert (Hother : forall w' : list N, x ∉ w' -> waiting (delete x G) id w' = waiting G id w').
  { intros w' Hw'. apply waiting_ext. intros y Hy. unfold entry_in. rewrite lookup_delete_ne; [done|]. by intros ->. }
  destruct (decide (x ∈ w)) as [Hin|Hin].
  - assert (Hhead : head w = Some x).
    { apply list_elem_of_lookup in Hin as [[|k] Hk]; [by destruct w|].
      assert (exists p, w !! k = Some p) as [p Hpk] by (apply lookup_lt_is_Some; apply lookup_lt_Some in Hk; lia).
      exfalso. pose proof (Hl k p x n Hpk Hk Hx) as He. apply Hfree in He.
      destruct (Hp p) as [m Hmm]; [by eapply list_elem_of_lookup_2|]. congruence. }
    destruct w as [|x' w']; [done|]. injection Hhead as ->. apply NoDup_cons in Hnd as [Hx' Hnd]. exists w'. split.
    + split.
      * done.
      * intros y Hy. rewrite lookup_delete_ne by (by intros ->). apply Hp. by right.
      * intros y m Hy. apply lookup_delete_Some in Hy as [Hne Hy]. rewrite <- (Hm y m Hy), elem_of_cons. split; [by right|]. intros [->|?]; done.
      * intros k p q m H1 H2 H3. apply lookup_delete_Some in H3 as [_ H3]. by apply (Hl (S k) p q m).
      * destruct w' as [|y w'].
        2:{ change (last (x :: y :: w')) with (last (y :: w')) in Hlast. destruct (last (y :: w')) eqn:E; [exact Hlast|by apply last_None in E]. }
        intros z Hz. cbn [last] in Hlast. rewrite Hz in Hlast. injection Hlast as ->. apply lookup_delete_eq.
    + rewrite Hother by done. unfold waiting. cbn [mbind list_bind]. unfold entry_in at 1. by rewrite Hx.
  - exists w. split.
    + split.
      * done.
      * intros y Hy. rewrite lookup_delete_ne by (by intros ->). by apply Hp.
      * intros y m Hy. apply lookup_delete_Some in Hy as [_ Hy]. by apply Hm.
      * intros k p q m H1 H2 H3. apply lookup_delete_Some in H3 as [_ H3]. by apply (Hl k p q m).
      * destruct (last w); [done|]. intros z Hz. apply lookup_delete_None. right. by apply Hlast.
    + rewrite Hother by done. rewrite of_member_none; [done|]. by rewrite <- (Hm x n Hx).
Qed.

(** *** An entry joins a group, old or new *)

Lemma waits_enter G id w last_group x n e :
  waits G id w last_group -> x ∉ w -> of_member id (gr_entries n.1) = [e] -> (forall p, last w = Some p -> p ∈ n.2) ->
  waits (<[x := n]> G) id (w ++ [x]) (Some x) /\ waiting (<[x := n]> G) id (w ++ [x]) = waiting G id w ++ [e].
Proof.
  intros [Hnd Hp Hm Hl Hlast] Hx He Hpred.
  assert (Hin : id ∈ member_of <$> gr_entries n.1).
  { destruct (decide (id ∈ member_of <$> gr_entries n.1)) as [?|H]; [done|]. apply of_member_none in H. congruence. }
  split.
  - split.
    + apply NoDup_app. split_and!; [done|set_solver|apply NoDup_singleton].
    + intros y Hy. apply elem_of_app in Hy as [Hy|Hy]; [|apply list_elem_of_singleton in Hy as ->; rewrite lookup_insert_eq; by eexists].
      rewrite lookup_insert_ne by (by intros ->). by apply Hp.
    + intros y m. rewrite lookup_insert_Some, elem_of_app, list_elem_of_singleton. intros [[-> ->]|[Hne Hy]].
      * split; [done|]. by right.
      * rewrite <- (Hm y m Hy). naive_solver.
    + intros k p q m H1 H2 H3. destruct (decide (S k < length w)) as [Hk|Hk].
      * rewrite lookup_app_l in H1 by lia. rewrite lookup_app_l in H2 by lia.
        rewrite lookup_insert_ne in H3 by (intros ->; apply Hx; by eapply list_elem_of_lookup_2). by apply (Hl k p q m).
      * assert (Hk' : S k = length w). { apply lookup_lt_Some in H2. rewrite length_app in H2. cbn in H2. lia. }
        rewrite Hk', list_lookup_middle in H2 by done. injection H2 as <-. rewrite lookup_insert_eq in H3. injection H3 as <-.
        apply Hpred. rewrite last_lookup, <- Hk'. cbn. rewrite lookup_app_l in H1 by lia. done.
    + by rewrite last_snoc.
  - unfold waiting. rewrite bind_app. f_equal.
    + apply waiting_ext. intros y Hy. unfold entry_in. rewrite lookup_insert_ne; [done|]. by intros ->.
    + cbn [mbind list_bind]. unfold entry_in. rewrite lookup_insert_eq, app_nil_r. exact He.
Qed.

Lemma waits_other G id w last_group x n :
  waits G id w last_group ->
  match G !! x with
  | Some m => m.2 ⊆ n.2 /\ of_member id (gr_entries n.1) = of_member id (gr_entries m.1) /\
              (id ∈ member_of <$> gr_entries n.1 <-> id ∈ member_of <$> gr_entries m.1)
  | None => (id ∉ member_of <$> gr_entries n.1) /\ last_group <> Some x
  end ->
  waits (<[x := n]> G) id w last_group /\ waiting (<[x := n]> G) id w = waiting G id w.
Proof.
  intros [Hnd Hp Hm Hl Hlast] Hx. split.
  - split.
    + done.
    + intros y Hy. destruct (decide (y = x)) as [->|Hne]; [rewrite lookup_insert_eq; by eexists|]. rewrite lookup_insert_ne by done. by apply Hp.
    + intros y k. rewrite lookup_insert_Some. intros [[<- <-]|[Hne Hy]]; [|by apply Hm].
      destruct (G !! x) as [m|] eqn:Ex; [destruct Hx as (_ & _ & ->); by apply Hm|].
      destruct Hx as [Hx _]. split; [|done]. intros Hw. apply Hp in Hw as [? ?]. congruence.
    + intros k p q m H1 H2. rewrite lookup_insert_Some. intros [[<- <-]|[Hne Hq]]; [|by apply (Hl k p q m)].
      destruct (G !! x) as [m|] eqn:Ex; [destruct Hx as (Hsub & _ & _); apply Hsub; by apply (Hl k p x m)|].
      exfalso. assert (Hw : x ∈ w) by (by eapply list_elem_of_lookup_2). apply Hp in Hw as [? ?]. congruence.
    + destruct (last w); [done|]. intros z Hz. pose proof (Hlast z Hz) as Hn. destruct (decide (z = x)) as [->|Hne].
      * rewrite Hn in Hx. by destruct Hx.
      * by rewrite lookup_insert_ne.
  - apply waiting_ext. intros y Hy. unfold entry_in. destruct (decide (y = x)) as [->|Hne]; [|by rewrite lookup_insert_ne].
    rewrite lookup_insert_eq. destruct (G !! x) as [m|] eqn:Ex; [by destruct Hx as (_ & -> & _)|]. apply Hp in Hy as [? ?]. congruence.
Qed.

(** ** Groups in their list *)

Lemma graph_seal groups cursors : graph_of (seal_groups groups cursors) = graph_of groups.
Proof.
  unfold graph_of, seal_groups. f_equal. rewrite <- list_fmap_compose. apply list_fmap_ext. intros _ g _. cbn. by destruct (pg_sealed g).
Qed.

Lemma ids_seal groups cursors : pg_id <$> seal_groups groups cursors = pg_id <$> groups.
Proof. unfold seal_groups. rewrite <- list_fmap_compose. apply list_fmap_ext. intros _ g _. cbn. by destruct (pg_sealed g). Qed.

Lemma graph_ext groups G : distinct groups ->
  (forall x n, (exists g, g ∈ groups /\ node_of g = (x, n)) <-> G !! x = Some n) -> graph_of groups = G.
Proof. intros Hd H. apply map_eq. intros x. apply option_eq. intros n. rewrite graph_lookup by done. apply H. Qed.

Lemma distinct_delete groups i g : distinct groups -> groups !! i = Some g ->
  distinct (delete i groups) /\ graph_of (delete i groups) = delete (pg_id g) (graph_of groups).
Proof.
  intros Hd Hi. destruct (list_elem_of_split_length groups i g Hi) as (l1 & l2 & -> & ->). rewrite delete_middle.
  assert (Hp : l1 ++ g :: l2 ≡ₚ g :: l1 ++ l2) by (symmetry; apply Permutation_middle).
  pose proof Hd as Hd'. unfold distinct in Hd'. rewrite Hp, fmap_cons, NoDup_cons in Hd'. destruct Hd' as [Hg Hd']. split; [done|].
  apply graph_ext; [done|]. intros x n. rewrite lookup_delete_Some, graph_lookup by done. setoid_rewrite Hp. setoid_rewrite elem_of_cons. split.
  - intros (h & Hh & E). split; [|eauto]. intros <-. injection E as E _. apply Hg. rewrite <- E. by apply list_elem_of_fmap_2.
  - intros [Hne (h & [->|Hh] & E)]; [|eauto]. by injection E as E _.
Qed.

Lemma distinct_insert groups i g h : distinct groups -> groups !! i = Some g -> pg_id h = pg_id g ->
  distinct (<[i := h]> groups) /\ graph_of (<[i := h]> groups) = <[pg_id g := (pg_group h, pg_predecessors h)]> (graph_of groups).
Proof.
  intros Hd Hi Eh. destruct (list_elem_of_split_length groups i g Hi) as (l1 & l2 & -> & ->). rewrite insert_app_r_alt, Nat.sub_diag by lia. cbn [insert list_insert].
  assert (Hp : forall k, l1 ++ k :: l2 ≡ₚ k :: l1 ++ l2) by (intros k; symmetry; apply Permutation_middle).
  pose proof Hd as Hd'. unfold distinct in Hd'. rewrite Hp, fmap_cons, NoDup_cons in Hd'. destruct Hd' as [Hg Hd'].
  assert (Hdh : distinct (l1 ++ h :: l2)). { unfold distinct. rewrite Hp, fmap_cons, NoDup_cons, Eh. done. }
  split; [done|]. apply graph_ext; [done|]. intros x n. rewrite lookup_insert_Some, graph_lookup by done. setoid_rewrite Hp. setoid_rewrite elem_of_cons. split.
  - intros (k & [->|Hk] & E).
    + left. unfold node_of in E. rewrite Eh in E. by injection E as <- <-.
    + right. split; [|eauto]. intros <-. injection E as E _. apply Hg. rewrite <- E. by apply list_elem_of_fmap_2.
  - intros [[<- <-]|[Hne (k & [->|Hk] & E)]]; [|by injection E as E _|eauto]. exists h. split; [by left|]. unfold node_of. by rewrite Eh.
Qed.

Lemma distinct_snoc groups h : distinct groups -> graph_of groups !! pg_id h = None ->
  distinct (groups ++ [h]) /\ graph_of (groups ++ [h]) = <[pg_id h := (pg_group h, pg_predecessors h)]> (graph_of groups).
Proof.
  intros Hd Hh. assert (Hn : pg_id h ∉ pg_id <$> groups) by (by rewrite <- graph_some, eq_None_not_Some in * ).
  assert (Hdh : distinct (groups ++ [h])).
  { unfold distinct. rewrite fmap_app. apply NoDup_app. split_and!; [done| |apply NoDup_singleton]. cbn. set_solver. }
  split; [done|]. apply graph_ext; [done|]. intros x n. rewrite lookup_insert_Some, graph_lookup by done.
  setoid_rewrite elem_of_app. setoid_rewrite list_elem_of_singleton. split.
  - intros (k & [Hk| ->] & E).
    + right. split; [|eauto]. intros <-. injection E as E _. apply Hn. rewrite <- E. by apply list_elem_of_fmap_2.
    + left. by injection E as <- <-.
  - intros [[<- <-]|[Hne (k & Hk & E)]]; eauto.
Qed.
