(* ===== verification/LogMergeProofs.v ===== *)
(** What a log merge promises: it ends, shows each repository's history in
    order and from its start, loses nothing unless the limit was reached, and
    every group it shows is coherent. *)

From S2P Require Export LogGraph.

#[local] Set Default Proof Using "Type".

(** ** What was emitted *)

Definition emitted_groups (out : Events) : list CommitLogGroup :=
  omap (fun event => match event with MergedGroup g => Some g | MergedDegradation _ => None end) out.
Definition emitted_records (out : Events) : list CommitLogDegradation :=
  omap (fun event => match event with MergedGroup _ => None | MergedDegradation d => Some d end) out.
Definition degradations_of (source : list CommitLogEvent) : list CommitLogDegradation :=
  omap (fun event => match event with LogEntry _ => None | LogDegradation d => Some d end) source.

Definition records_of (id : str) (records : list CommitLogDegradation) : list CommitLogDegradation :=
  List.filter (fun d => bool_decide (ct_member_id (dg_target d) = id)) records.

(** The entries and the degradations of one repository, as shown. *)
Definition shown (id : str) (out : Events) : list CommitLogEntry := of_member id (emitted_groups out ≫= gr_entries).
Definition noted (id : str) (out : Events) : list CommitLogDegradation := records_of id (emitted_records out).

Lemma shown_app id a b : shown id (a ++ b) = shown id a ++ shown id b.
Proof. unfold shown, emitted_groups. by rewrite omap_app, bind_app, of_member_app. Qed.

Lemma noted_app id a b : noted id (a ++ b) = noted id a ++ noted id b.
Proof. unfold noted, emitted_records, records_of. by rewrite omap_app, List.filter_app. Qed.

Lemma emitted_records_app a b : emitted_records (a ++ b) = emitted_records a ++ emitted_records b.
Proof. apply omap_app. Qed.

Lemma emitted_groups_app a b : emitted_groups (a ++ b) = emitted_groups a ++ emitted_groups b.
Proof. apply omap_app. Qed.

Section merging.
Context (ids : list str).

(** A group of the log: coherent, within the window, of the repositories
    that are read. *)
Definition good (g : CommitLogGroup) : Prop :=
  coherent g /\ close COALESCING_WINDOW_SECONDS (committed_at <$> gr_entries g) /\ Forall (fun e => member_of e ∈ ids) (gr_entries g).

Record groups_ok (groups : list PendingGroup) : Prop := {
  ok_distinct : distinct groups;
  ok_acyclic : acyclic (graph_of groups);
  ok_good : Forall (fun g => good (pg_group g)) groups;
}.

Definition queued (G : gmap N Node) (last_group : option N) (id : str) (q : list CommitLogEntry) : Prop :=
  exists w, waits G id w last_group /\ q = waiting G id w.

(** *** Sealing *)

Lemma seal_ok groups cursors : groups_ok groups -> groups_ok (seal_groups groups cursors).
Proof.
  intros [H1 H2 H3]. split.
  - unfold distinct. by rewrite ids_seal.
  - by rewrite graph_seal.
  - unfold seal_groups. rewrite Forall_fmap. eapply Forall_impl; [exact H3|]. intros g Hg. cbn. by destruct (pg_sealed g).
Qed.

(** *** Emission *)

Lemma leave_ok groups k g : groups_ok groups -> groups !! k = Some g -> group_is_blocked groups g = false ->
  groups_ok (delete k groups) /\
  forall id l q, queued (graph_of groups) l id q ->
    exists q', queued (graph_of (delete k groups)) l id q' /\ q = of_member id (gr_entries (pg_group g)) ++ q'.
Proof.
  intros [H1 H2 H3] Hk Hb. destruct (distinct_delete groups k g H1 Hk) as [Hd Eg].
  assert (Hg : graph_of groups !! pg_id g = Some (pg_group g, pg_predecessors g)).
  { apply graph_lookup_elem; [done|]. by eapply list_elem_of_lookup_2. }
  assert (Hfree : forall y, y ∈ pg_predecessors g -> graph_of groups !! y = None).
  { intros y Hy. apply eq_None_not_Some. intros Hs. apply not_true_iff_false in Hb. apply Hb. apply blocked_spec; [done|]. eauto. }
  rewrite Eg. split.
  - split; [done| |by apply Forall_delete]. rewrite Eg. eapply acyclic_sub; [|exact H2].
    intros x y (n & Hn & Hy). apply lookup_delete_Some in Hn as [_ Hn]. by exists n.
  - intros id l q (w & Hw & ->). destruct (waits_leave _ _ _ _ _ _ Hw Hg Hfree) as (w' & Hw' & E). eexists. split; [by exists w'|exact E].
Qed.

(** Groups that wait for none, emitted one after another while the limit
    allows. *)
Inductive emits (max_entries : option nat) : list PendingGroup -> nat -> Events -> list PendingGroup -> nat -> Prop :=
| emits_nil groups n : emits max_entries groups n [] groups n
| emits_one groups n k g out groups' n' :
    groups !! k = Some g -> group_is_blocked groups g = false -> limit_reached max_entries n = false ->
    emits max_entries (delete k groups) (S n) out groups' n' ->
    emits max_entries groups n (MergedGroup (pg_group g) :: out) groups' n'.

Lemma emits_ok max_entries groups n out groups' n' : emits max_entries groups n out groups' n' -> groups_ok groups ->
  groups_ok groups' /\ n' = n + length (emitted_groups out) /\ length groups = length (emitted_groups out) + length groups' /\
  emitted_records out = [] /\ Forall good (emitted_groups out) /\
  (forall g, g ∈ groups' -> g ∈ groups) /\
  (forall limit, max_entries = Some limit -> n <= limit -> n' <= limit) /\
  (forall id l q, queued (graph_of groups) l id q -> exists q', queued (graph_of groups') l id q' /\ q = shown id out ++ q').
Proof.
  induction 1 as [groups n|groups n k g out groups' n' Hk Hb Hlim _ IH]; intros Hok.
  - split_and!; [done|cbn; lia|done|done|by constructor|done|done|]. intros id l q Hq. by exists q.
  - destruct (leave_ok groups k g Hok Hk Hb) as [Hok' Hq]. destruct (IH Hok') as (I1 & I2 & I2' & I3 & I4 & I5 & I6 & I7).
    change (emitted_groups (MergedGroup (pg_group g) :: out)) with (pg_group g :: emitted_groups out). cbn [length].
    split_and!; [done|lia| |done| | | |].
    + rewrite length_delete in I2' by (by eexists). apply lookup_lt_Some in Hk. lia.
    + constructor; [|done]. destruct Hok as [_ _ H3]. rewrite Forall_lookup in H3. by eapply H3.
    + intros h Hh. apply I5 in Hh. destruct (list_elem_of_split_length groups k g Hk) as (l1 & l2 & -> & ->). rewrite delete_middle in Hh. set_solver.
    + intros limit -> Hn. apply (I6 limit eq_refl). cbn in Hlim. apply Nat.leb_gt in Hlim. lia.
    + intros id l q Hw. destruct (Hq id l q Hw) as (q1 & Hq1 & ->). destruct (I7 id l q1 Hq1) as (q2 & Hq2 & ->).
      exists q2. split; [done|]. change (MergedGroup (pg_group g) :: out) with ([MergedGroup (pg_group g)] ++ out). rewrite shown_app, app_assoc. do 2 f_equal.
      unfold shown. cbn. by rewrite app_nil_r.
Qed.

Lemma ready_emits fuel groups max_entries n : length groups <= fuel ->
  exists groups' n' out stopped, emit_ready_groups fuel groups max_entries n = Some (groups', n', out, stopped) /\
    emits max_entries groups n out groups' n' /\ stopped = limit_reached max_entries n'.
Proof.
  revert groups n. induction fuel as [|fuel IH]; intros groups n Hf; cbn [emit_ready_groups].
  all: destruct (limit_reached max_entries n) eqn:El; [by exists groups, n, [], true; split_and!; [|constructor|]|].
  all: destruct (least_group _ groups) as [[k g]|] eqn:Ek; [|by exists groups, n, [], false; split_and!; [|constructor|]].
  - apply least_group_spec in Ek as [Hk _]. apply lookup_lt_Some in Hk. lia.
  - apply least_group_spec in Ek as [Hk [_ Hb%negb_true_iff]%andb_true_iff]. pose proof (lookup_lt_Some _ _ _ Hk) as Hlt.
    destruct (IH (delete k groups) (S n)) as (groups' & n' & out & stopped & -> & He & ->); [rewrite length_delete by (by eexists); lia|].
    cbn. eexists _, _, _, _. split_and!; [done|by eapply emits_one|done].
Qed.

Lemma forced_emits fuel groups max_entries n : length groups <= fuel -> groups_ok groups ->
  exists groups' n' out, emit_forced_groups fuel groups max_entries n = Some (groups', n', out) /\
    emits max_entries groups n out groups' n' /\ (groups' = [] \/ limit_reached max_entries n' = true).
Proof.
  revert groups n. induction fuel as [|fuel IH]; intros groups n Hf Hok; cbn [emit_forced_groups].
  all: destruct (length groups =? 0) eqn:E0; cbn [orb];
    [apply Nat.eqb_eq in E0; destruct groups; [|done]; by exists [], n, []; split_and!; [|constructor|left]|].
  { apply Nat.eqb_neq in E0. lia. }
  destruct (limit_reached max_entries n) eqn:El; [by exists groups, n, []; split_and!; [|constructor|right]|].
  destruct (least_group _ groups) as [[k g]|] eqn:Ek; cbn.
  - apply least_group_spec in Ek as [Hk Hb%negb_true_iff]. pose proof (lookup_lt_Some _ _ _ Hk) as Hlt.
    destruct (leave_ok groups k g Hok Hk Hb) as [Hok' _].
    destruct (IH (delete k groups) (S n)) as (groups' & n' & out & -> & He & Hend); [rewrite length_delete by (by eexists); lia|done|].
    cbn. eexists _, _, _. split_and!; [done|by eapply emits_one|done].
  - apply least_group_none in Ek. destruct Hok as [H1 H2 _].
    destruct (unblocked_exists groups H1 H2) as (g & Hg & Hb); [by destruct groups|].
    rewrite Forall_forall in Ek. apply Ek in Hg. by rewrite Hb in Hg.
Qed.

(** *** Admission *)

Lemma tc_last {A} (R : A -> A -> Prop) x y : tc R x y -> exists z, R z y.
Proof. induction 1; eauto. Qed.

Lemma join_group_spec g e joined : join_group g e = Some joined ->
  gr_entries joined = gr_entries g ++ [e] /\ coherent joined /\ close COALESCING_WINDOW_SECONDS (committed_at <$> gr_entries joined).
Proof.
  unfold join_group. pose proof (close_spread COALESCING_WINDOW_SECONDS (committed_at <$> gr_entries g) (committed_at e)) as Hc.
  destruct (oldest_newest _ _) as [oldest newest]. destruct (Z.ltb_spec COALESCING_WINDOW_SECONDS (Z.abs (newest - oldest))) as [|Hw]; [done|].
  destruct (assemble_commit_log_groups _ true) as [|g' [|]] eqn:Ea; try done. destruct (_ =? _); [|done]. intros [= <-].
  destruct (assemble_single _ _ Ea) as (gathered & Hok & Ee & ->). cbn [finish finished_group gr_entries]. rewrite Ee.
  split_and!; [done|by apply finish_coherent|]. rewrite fmap_app. apply (close_perm _ (committed_at e :: (committed_at <$> gr_entries g))); [|by apply Hc].
  apply Permutation_cons_append.
Qed.

Lemma find_candidate_spec all predecessor e index groups k joined :
  find_candidate all predecessor e index groups = Some (k, joined) ->
  exists j g, k = index + j /\ groups !! j = Some g /\ pg_sealed g = false /\
    (forall p, predecessor = Some p -> group_depends_on all p (pg_id g) = false) /\ join_group (pg_group g) e = Some joined.
Proof.
  revert index. induction groups as [|g groups IH]; intros index; cbn [find_candidate]; [done|].
  destruct (pg_sealed g || _) eqn:Es.
  { intros (j & h & -> & Hj & H)%IH. exists (S j), h. split; [lia|]. by split. }
  apply orb_false_iff in Es as [Es Ep]. destruct (join_group (pg_group g) e) as [joined'|] eqn:E.
  - intros [= <- <-]. exists 0, g. split; [lia|]. split_and!; [done|done| |done]. by intros p ->.
  - intros (j & h & -> & Hj & H)%IH. exists (S j), h. split; [lia|]. by split.
Qed.

Record state_ok (s : MergeState) : Prop := {
  st_groups : groups_ok (ms_pending s);
  st_fresh : forall g, g ∈ ms_pending s -> (pg_id g < ms_next_group_id s)%N;
  st_last : forall j x, ms_last_group_by_cursor s !! j = Some (Some x) -> (x < ms_next_group_id s)%N;
  st_known : forall g y, g ∈ ms_pending s -> y ∈ pg_predecessors g -> (y < ms_next_group_id s)%N;
  st_length : length (ms_last_group_by_cursor s) = length ids;
}.

Definition last_of (s : MergeState) (i : nat) : option N := mjoin (ms_last_group_by_cursor s !! i).

(** The queue of cursor [i] in a state. *)
Definition in_queue (s : MergeState) (i : nat) (id : str) (q : list CommitLogEntry) : Prop :=
  queued (graph_of (ms_pending s)) (last_of s i) id q.

Lemma predecessor_last s i id w : waits (graph_of (ms_pending s)) id w (last_of s i) -> pending_predecessor s i = last w.
Proof.
  intros Hw. unfold pending_predecessor. fold (last_of s i). pose proof (waits_last _ _ _ _ Hw) as Hl. destruct (last w) as [x|] eqn:El.
  - rewrite Hl. cbn. assert (Hx : x ∈ w) by (by apply last_Some_elem_of). apply (waits_pending _ _ _ _ Hw) in Hx. apply is_pending_spec in Hx. by rewrite Hx.
  - destruct (last_of s i) as [x|]; [|done]. cbn. destruct (is_pending (ms_pending s) x) eqn:E; [|done].
    apply is_pending_spec in E as [n Hn]. by rewrite Hl in Hn.
Qed.

Lemma last_waiting_known s id w l p :
  (forall g, g ∈ ms_pending s -> (pg_id g < ms_next_group_id s)%N) -> waits (graph_of (ms_pending s)) id w l -> last w = Some p ->
  (p < ms_next_group_id s)%N.
Proof.
  intros Hfresh Hw Hp%last_Some_elem_of%(waits_pending _ _ _ _ Hw)%graph_some. apply list_elem_of_fmap in Hp as (k & -> & Hk). by apply Hfresh.
Qed.

Lemma of_member_own id es e : member_of e = id -> id ∉ member_of <$> es -> of_member id (es ++ [e]) = [e].
Proof. intros <- H. rewrite of_member_app, (of_member_none _ es H). unfold of_member. cbn. by rewrite bool_decide_true. Qed.

Lemma of_member_other id es e : member_of e <> id -> of_member id (es ++ [e]) = of_member id es.
Proof. intros H. rewrite of_member_app. unfold of_member at 2. cbn. by rewrite bool_decide_false, app_nil_r. Qed.

(** What follows of a state that took an entry of cursor [i]. *)
Definition took (s s' : MergeState) (i : nat) (e : CommitLogEntry) : Prop :=
  state_ok s' /\ (forall q, in_queue s i (member_of e) q -> in_queue s' i (member_of e) (q ++ [e])) /\
  (forall j id q, j <> i -> id <> member_of e -> in_queue s j id q -> in_queue s' j id q).

Lemma last_of_insert s i x j : i < length (ms_last_group_by_cursor s) ->
  mjoin (<[i := Some x]> (ms_last_group_by_cursor s) !! j) = if decide (j = i) then Some x else last_of s j.
Proof.
  intros Hi. destruct (decide (j = i)) as [->|Hne]; [by rewrite list_lookup_insert_eq|]. by rewrite list_lookup_insert_ne.
Qed.

(** A group [x] of cursor [i]'s entry was added to a state or replaced. *)
Lemma took_intro s groups next i e x n w :
  state_ok s -> i < length ids -> waits (graph_of (ms_pending s)) (member_of e) w (last_of s i) ->
  groups_ok groups -> graph_of groups = <[x := n]> (graph_of (ms_pending s)) ->
  (forall g, g ∈ groups -> (pg_id g < next)%N /\ forall y, y ∈ pg_predecessors g -> (y < next)%N) ->
  (x < next)%N -> (ms_next_group_id s <= next)%N ->
  x ∉ w -> of_member (member_of e) (gr_entries n.1) = [e] -> (forall p, last w = Some p -> p ∈ n.2) ->
  (forall j id, id <> member_of e -> match graph_of (ms_pending s) !! x with
     | Some m => m.2 ⊆ n.2 /\ of_member id (gr_entries n.1) = of_member id (gr_entries m.1) /\
                 (id ∈ member_of <$> gr_entries n.1 <-> id ∈ member_of <$> gr_entries m.1)
     | None => (id ∉ member_of <$> gr_entries n.1) /\ last_of s j <> Some x
     end) ->
  took s (mkMergeState groups (<[i := Some x]> (ms_last_group_by_cursor s)) next) i e.
Proof.
  intros [_ _ Hlastid _ Hlen] Hi Hw Hgs EG Hnew Hx Hle Hxw Hown Hpred Hother. unfold took, in_queue, last_of. cbn [ms_pending ms_last_group_by_cursor].
  rewrite EG. split_and!.
  - split; cbn; [done|intros g Hg; by apply Hnew| |intros g y Hg; by apply Hnew|by rewrite length_insert].
    intros m y Hm. apply list_lookup_insert_Some in Hm as [(-> & [= <-] & _)|[_ Hm%Hlastid]]; [done|lia].
  - intros q (w' & Hw' & ->). rewrite last_of_insert, decide_True by (done || by rewrite Hlen).
    destruct (waits_enter _ _ _ _ x n e Hw') as [W1 W2]; [|done| |by eexists].
    + intros Hin. destruct (waits_pending _ _ _ _ Hw' x Hin) as [m Hm]. apply Hxw. by rewrite (waits_member _ _ _ _ Hw _ _ Hm), <- (waits_member _ _ _ _ Hw' _ _ Hm).
    + intros p Hp. apply Hpred. by rewrite <- (predecessor_last s i _ w Hw), (predecessor_last s i _ w' Hw').
  - intros j id q Hne Hid (w' & Hw' & ->). rewrite last_of_insert, decide_False by (done || by rewrite Hlen).
    destruct (waits_other _ _ _ _ x n Hw' (Hother j id Hid)) as [W1 W2]. by eexists.
Qed.

Lemma try_join_took s i e s' q :
  state_ok s -> i < length ids -> member_of e ∈ ids -> in_queue s i (member_of e) q -> try_join s i e = Some s' -> took s s' i e.
Proof.
  intros Hok Hi Hids (w & Hw & _). unfold try_join. rewrite (predecessor_last s i _ w Hw).
  intros ([k joined] & (j & g & -> & Hj & _ & Hnodep & Hjoin)%find_candidate_spec & (g0 & Hg0 & [= <-])%bind_Some)%bind_Some.
  cbn [Nat.add] in Hg0 |- *. assert (g0 = g) as -> by congruence. clear Hg0.
  pose proof Hok as [[Hd Ha Hgood] Hfresh _ Hknown _]. destruct (join_group_spec _ _ _ Hjoin) as (Eent & Hcoh & Hclose).
  assert (Hin : g ∈ ms_pending s) by (by eapply list_elem_of_lookup_2). pose proof (graph_lookup_elem _ g Hd Hin) as Hg.
  assert (Hnew : member_of e ∉ member_of <$> gr_entries (pg_group g)).
  { destruct Hcoh as (_ & Hnd & _). rewrite Eent, fmap_app in Hnd. apply NoDup_app in Hnd as (_ & Hdis & _). intros H. apply (Hdis _ H). by left. }
  assert (Hgw : pg_id g ∉ w) by (by rewrite (waits_member _ _ _ _ Hw _ _ Hg)).
  set (preds := match last w with Some p => {[p]} ∪ pg_predecessors g | None => pg_predecessors g end).
  set (h := g <| pg_group := joined |> <| pg_repositories := {[i]} ∪ pg_repositories g |> <| pg_predecessors := preds |>).
  assert (Hpreds : forall y, y ∈ preds -> y ∈ pg_predecessors g \/ last w = Some y) by (unfold preds; destruct (last w); set_solver).
  destruct (distinct_insert (ms_pending s) j g h Hd Hj eq_refl) as [Hd' EG].
  assert (Hacyc : acyclic (<[pg_id g := (joined, preds)]> (graph_of (ms_pending s)))).
  { destruct (last w) as [p|] eqn:El.
    - apply (acyclic_edge (graph_of (ms_pending s)) _ (pg_id g) p); [| | |done].
      + intros x y (n & Hn & Hy). apply lookup_insert_Some in Hn as [[<- <-]|[Hne Hn]]; [|left; by exists n].
        destruct (Hpreds y Hy) as [Hy'|[= ->]]; [left; by eexists|by right].
      + intros ->. apply Hgw. by apply last_Some_elem_of.
      + rewrite <- group_depends_on_spec by done. by rewrite (Hnodep p eq_refl).
    - eapply acyclic_sub; [|exact Ha]. intros x y (n & Hn & Hy). apply lookup_insert_Some in Hn as [[<- <-]|[Hne Hn]]; by eexists. }
  apply (took_intro s (<[j := h]> (ms_pending s)) _ i e (pg_id g) (joined, preds) w); [done|done|done| |exact EG| |by apply Hfresh|done|done| | |].
  - split; [exact Hd'|by rewrite EG|]. apply Forall_insert; [done|]. rewrite Forall_lookup in Hgood. destruct (Hgood j g Hj) as (_ & _ & Hm).
    split_and!; [done|done|]. change (Forall (fun e => member_of e ∈ ids) (gr_entries joined)). by rewrite Eent, Forall_app, Forall_singleton.
  - intros h' [m Hm]%list_elem_of_lookup. apply list_lookup_insert_Some in Hm as [(-> & <- & _)|[_ Hm%list_elem_of_lookup_2]]; [|eauto].
    split; [by apply (Hfresh g)|]. intros y [Hy|Hy]%Hpreds; [by eapply Hknown|by eapply last_waiting_known].
  - cbn [fst]. rewrite Eent. by apply of_member_own.
  - intros p Hp. cbn. unfold preds. rewrite Hp. set_solver.
  - intros m id Hid. rewrite Hg. cbn [fst snd]. rewrite Eent. split_and!; [unfold preds; destruct (last w); set_solver|by apply of_member_other|].
    rewrite fmap_app, elem_of_app. change (member_of <$> [e]) with [member_of e]. rewrite list_elem_of_singleton. clear -Hid. naive_solver.
Qed.

Lemma admit_took s i e serial q :
  state_ok s -> i < length ids -> member_of e ∈ ids -> in_queue s i (member_of e) q ->
  exists s', admit_entry s i e serial = Some s' /\ took s s' i e.
Proof.
  intros Hok Hi Hids Hq. unfold admit_entry. destruct (try_join s i e) as [s'|] eqn:Ej.
  { exists s'. split; [done|by eapply try_join_took]. }
  destruct (assemble_alone e true) as (g & Eg & Ent & Hcoh). rewrite Eg. cbn [last mbind option_bind]. eexists. split; [done|].
  destruct Hq as (w & Hw & _). rewrite (predecessor_last s i _ w Hw). pose proof Hok as [[Hd Ha Hgood] Hfresh Hlastid Hknown _].
  set (x := ms_next_group_id s) in *. set (preds := match last w with Some p => {[p]} | None => ∅ end : gset N).
  set (h := mkPendingGroup x g false {[i]} preds serial).
  assert (Hpreds : forall y, y ∈ preds <-> last w = Some y) by (intros y; unfold preds; destruct (last w); set_solver).
  assert (Hnone : graph_of (ms_pending s) !! x = None).
  { apply eq_None_not_Some. intros (k & E & Hk%Hfresh)%graph_some%list_elem_of_fmap. unfold x in *. lia. }
  destruct (distinct_snoc (ms_pending s) h Hd Hnone) as [Hd' EG].
  assert (Hlastw : forall p, last w = Some p -> (p < x)%N) by (intros p Hp; by eapply last_waiting_known).
  assert (Hrel : forall y z, dep (<[x := (g, preds)]> (graph_of (ms_pending s))) y z -> dep (graph_of (ms_pending s)) y z \/ y = x /\ last w = Some z).
  { intros y z (n & Hn & Hz). apply lookup_insert_Some in Hn as [[<- <-]|[_ Hn]]; [right; split; [done|by apply Hpreds]|left; by exists n]. }
  assert (Hacyc : acyclic (<[x := (g, preds)]> (graph_of (ms_pending s)))).
  { destruct (last w) as [p|] eqn:El; [|eapply acyclic_sub; [|exact Ha]; intros y z H%Hrel; naive_solver].
    apply (acyclic_edge (graph_of (ms_pending s)) _ x p); [intros y z H%Hrel; naive_solver|specialize (Hlastw p eq_refl); lia| |done].
    intros (z & n & Hn & Hz)%tc_last. apply graph_lookup in Hn as (k & Hk & [= _ <-]); [|done]. specialize (Hknown k x Hk Hz). unfold x in Hknown. lia. }
  apply (took_intro s (ms_pending s ++ [h]) _ i e x (g, preds) w); [done|done|done| |exact EG| |unfold x; lia|unfold x; lia| | | |].
  - split; [exact Hd'|by rewrite EG|]. apply Forall_app. split; [done|]. apply Forall_singleton. change (good g). split_and!; [done| |].
    + rewrite Ent. by apply close_one.
    + by rewrite Ent, Forall_singleton.
  - intros k [Hk|Hk]%elem_of_app; [split; [specialize (Hfresh k Hk); unfold x in *; lia|intros y Hy; specialize (Hknown k y Hk Hy); unfold x in *; lia]|].
    apply list_elem_of_singleton in Hk as ->. split; [cbn; lia|]. intros y Hy%Hpreds%Hlastw. lia.
  - intros Hin%(waits_pending _ _ _ _ Hw). rewrite Hnone in Hin. by destruct Hin.
  - cbn [fst]. rewrite Ent. apply (of_member_own _ []); [done|set_solver].
  - intros p Hp. by apply Hpreds.
  - intros m id Hid. rewrite Hnone. cbn [fst]. rewrite Ent. split; [set_solver|]. intros E. unfold last_of in E.
    destruct (ms_last_group_by_cursor s !! m) as [l|] eqn:Em; [|done]. cbn in E. subst l. apply Hlastid in Em. unfold x in Em. lia.
Qed.

(** *** Cursors *)

Context (sources : list (list CommitLogEvent)).

(** What a cursor has yet to give. *)
Definition left_of (c : CursorState) : list CommitLogEntry := option_list (cu_head c) ++ entries_of (cu_source c).

(** A cursor between two turns: one without a head has nothing left. *)
Definition settled (c : CursorState) : Prop := (cu_head c = None -> cu_source c = []) /\ (cu_done c = true -> cu_source c = []).

Lemma receive_from_spec source c serial c' serial' out :
  receive_from source c serial = (c', serial', out) -> cu_head c = None -> cu_done c = false ->
  settled c' /\ emitted_groups out = [] /\ entries_of source = left_of c' /\
  degradations_of source = emitted_records out ++ degradations_of (cu_source c').
Proof.
  revert c' serial' out. induction source as [|[e|d] source IH]; intros c' serial' out; cbn [receive_from].
  - intros [= <- <- <-] Hh Hd. unfold left_of, settled. cbn. by rewrite Hh.
  - intros [= <- <- <-] Hh Hd. unfold left_of, settled. cbn. by rewrite Hd.
  - destruct (receive_from source c serial) as [[c1 s1] out1]. intros [= <- <- <-] Hh Hd.
    destruct (IH _ _ _ eq_refl Hh Hd) as (I1 & I2 & I3 & I4). split_and!; [done|done|done|].
    change (d :: degradations_of source = d :: (emitted_records out1 ++ degradations_of (cu_source c1))). by rewrite I4.
Qed.

Lemma receive_head_spec c serial c' serial' out :
  receive_head c serial = (c', serial', out) -> cu_head c = None -> (cu_done c = true -> cu_source c = []) ->
  settled c' /\ emitted_groups out = [] /\ entries_of (cu_source c) = left_of c' /\
  degradations_of (cu_source c) = emitted_records out ++ degradations_of (cu_source c').
Proof.
  unfold receive_head. intros H Hh Hd. destruct (cu_done c) eqn:Ed; [|by eapply receive_from_spec].
  injection H as <- <- <-. unfold left_of, settled. rewrite (Hd eq_refl), Hh. done.
Qed.

(** *** The merge *)

(** Every event of a source is about its repository. *)
Definition about (id : str) (event : CommitLogEvent) : Prop :=
  match event with LogEntry e => member_of e = id | LogDegradation d => ct_member_id (dg_target d) = id end.

Hypothesis Hids : NoDup ids.
Hypothesis Habout : Forall2 (fun id source => Forall (about id) source) ids sources.

Context (options : CommitLogMergeOptions).
Abbreviation limit := (mo_max_entries options).

(** How a source is divided: what was shown of it, what waits in groups, what
    its cursor has left. *)
Definition divided (m : Merge) (i : nat) (id : str) (source : list CommitLogEvent) : Prop :=
  exists c q, mg_cursors m !! i = Some c /\ in_queue (mg_state m) i id q /\
    entries_of source = shown id (mg_out m) ++ q ++ left_of c /\
    degradations_of source = noted id (mg_out m) ++ degradations_of (cu_source c).

Record merge_ok (m : Merge) : Prop := {
  mk_state : state_ok (mg_state m);
  mk_length : length (mg_cursors m) = length ids;
  mk_emitted : mg_emitted m = length (emitted_groups (mg_out m));
  mk_good : Forall good (emitted_groups (mg_out m));
  mk_records : Forall (fun d => ct_member_id (dg_target d) ∈ ids) (emitted_records (mg_out m));
  mk_limit : forall n, limit = Some n -> mg_emitted m <= n;
  mk_divided : forall i id source, ids !! i = Some id -> sources !! i = Some source -> divided m i id source;
}.

Lemma entry_about i id source e : ids !! i = Some id -> sources !! i = Some source -> e ∈ entries_of source -> member_of e = id.
Proof using Habout.
  intros Hi Hs He. pose proof (Forall2_lookup_lr _ _ _ _ _ _ Habout Hi Hs) as H.
  apply list_elem_of_omap in He as ([e'|] & Hin & [= ->]). rewrite Forall_forall in H. by apply (H _ Hin).
Qed.

Lemma record_about i id source d : ids !! i = Some id -> sources !! i = Some source -> d ∈ degradations_of source -> ct_member_id (dg_target d) = id.
Proof using Habout.
  intros Hi Hs He. pose proof (Forall2_lookup_lr _ _ _ _ _ _ Habout Hi Hs) as H.
  apply list_elem_of_omap in He as ([|d'] & Hin & [= ->]). rewrite Forall_forall in H. by apply (H _ Hin).
Qed.

Lemma records_of_all id records : Forall (fun d => ct_member_id (dg_target d) = id) records -> records_of id records = records.
Proof.
  induction 1 as [|d records Hd _ IH]; [done|]. unfold records_of in *. cbn [List.filter]. rewrite bool_decide_true by done. by rewrite IH.
Qed.

Lemma records_of_none id records : Forall (fun d => ct_member_id (dg_target d) <> id) records -> records_of id records = [].
Proof.
  induction 1 as [|d records Hd _ IH]; [done|]. unfold records_of in *. cbn [List.filter]. by rewrite bool_decide_false by done.
Qed.

Lemma other_member i j id id' : ids !! i = Some id -> ids !! j = Some id' -> j <> i -> id' <> id.
Proof using Hids. intros Hi Hj Hne ->. apply Hne. by eapply NoDup_lookup. Qed.

(** *** Absorbing the heads *)

Lemma try_join_length s i e s' : try_join s i e = Some s' -> length (ms_pending s') = length (ms_pending s).
Proof. unfold try_join. intros ([k joined] & _ & (g & _ & [= <-])%bind_Some)%bind_Some. apply length_insert. Qed.

Lemma absorb_ok index cs s cs' s' :
  absorb_seen_siblings index cs s = (cs', s') -> state_ok s -> index + length cs = length ids ->
  (forall j c e, cs !! j = Some c -> cu_head c = Some e -> ids !! (index + j) = Some (member_of e)) ->
  (forall i id, ids !! i = Some id -> exists q, in_queue s i id q) ->
  state_ok s' /\ length (ms_pending s') = length (ms_pending s) /\ length cs' = length cs /\
  (forall i id q, i < index -> ids !! i = Some id -> in_queue s i id q -> in_queue s' i id q) /\
  (forall j c id q, cs !! j = Some c -> ids !! (index + j) = Some id -> in_queue s (index + j) id q ->
     exists c' q', cs' !! j = Some c' /\ in_queue s' (index + j) id q' /\ q ++ left_of c = q' ++ left_of c' /\ cu_source c' = cu_source c).
Proof using Hids.
  revert index s cs' s'. induction cs as [|c cs IH]; intros index s cs' s'; cbn [absorb_seen_siblings].
  { intros [= <- <-] Hok _ _ _. split_and!; [done..|]. intros j c id q Hj. done. }
  destruct (match cu_head c with Some _ => _ | None => _ end) as [c1 s1] eqn:E1.
  destruct (absorb_seen_siblings (S index) cs s1) as [cs2 s2] eqn:E2. intros [= <- <-] Hok Hlen Hheads Hqs. cbn [length] in Hlen.
  assert (Hstep : state_ok s1 /\ length (ms_pending s1) = length (ms_pending s) /\ cu_source c1 = cu_source c /\
    (forall i id q, i <> index -> ids !! i = Some id -> in_queue s i id q -> in_queue s1 i id q) /\
    (forall id q, ids !! index = Some id -> in_queue s index id q -> exists q', in_queue s1 index id q' /\ q ++ left_of c = q' ++ left_of c1)).
  { destruct (cu_head c) as [e|] eqn:Eh; [|injection E1 as <- <-; split_and!; eauto].
    destruct (try_join s index e) as [s0|] eqn:Ej; injection E1 as <- <-; [|split_and!; eauto].
    pose proof (Hheads 0 c e eq_refl Eh) as Hid. rewrite Nat.add_0_r in Hid. destruct (Hqs index _ Hid) as [q Hq].
    destruct (try_join_took s index e s0 q Hok) as (T1 & T2 & T3); [lia|by eapply list_elem_of_lookup_2|done|done|].
    split_and!; [done|by eapply try_join_length|done| |].
    - intros i id q' Hne Hi. apply T3; [done|]. by eapply other_member.
    - intros id q' Hi Hq'. assert (id = member_of e) as -> by congruence. exists (q' ++ [e]). split; [by apply T2|].
      unfold left_of. rewrite Eh. cbn. by rewrite <- app_assoc. }
  destruct Hstep as (S1 & S2 & S3 & S4 & S5).
  destruct (IH (S index) s1 cs2 s2 E2 S1) as (I1 & I2 & I3 & I4 & I5).
  - lia.
  - intros j c' e Hj He. rewrite Nat.add_succ_comm. by apply (Hheads (S j) c').
  - intros i id Hi. destruct (Hqs i id Hi) as [q Hq]. destruct (decide (i = index)) as [->|Hne]; [|eauto]. destruct (S5 id q Hi Hq) as (q' & ? & _). eauto.
  - split_and!; [done|lia|cbn; lia| |].
    + intros i id q Hi Hid Hq. apply I4; [lia|done|]. apply S4; [lia|done|done].
    + intros [|j] c' id q Hj Hid Hq; cbn in Hj.
      * injection Hj as <-. rewrite Nat.add_0_r in *. destruct (S5 id q Hid Hq) as (q' & Hq' & E). exists c1, q'. split_and!; [done| |done|done]. apply I4; [lia|done|done].
      * rewrite <- Nat.add_succ_comm in *. apply (I5 j c' id q Hj Hid). apply S4; [lia|done|done].
Qed.

(** *** The parts of a turn *)

Lemma seal_state_ok s cursors : state_ok s -> state_ok (with_pending s (seal_groups (ms_pending s) cursors)).
Proof.
  intros [H1 H2 H3 H4 H5]. split; cbn; [by apply seal_ok| |done| |done].
  - intros g Hg. unfold seal_groups in Hg. apply list_elem_of_fmap in Hg as (h & -> & Hh). apply H2 in Hh. by destruct (pg_sealed h).
  - intros g y Hg Hy. unfold seal_groups in Hg. apply list_elem_of_fmap in Hg as (h & -> & Hh). apply (H4 h y Hh). by destruct (pg_sealed h).
Qed.

(** Sealing and emitting groups. *)
Definition emit_into (m : Merge) (groups : list PendingGroup) (n : nat) (out : Events) : Merge :=
  m <| mg_state := with_pending (mg_state m) groups |> <| mg_emitted := n |> <| mg_out := mg_out m ++ out |>.

Lemma emit_into_ok m groups0 groups n out :
  merge_ok m -> state_ok (with_pending (mg_state m) groups0) -> graph_of groups0 = graph_of (ms_pending (mg_state m)) ->
  emits limit groups0 (mg_emitted m) out groups n -> merge_ok (emit_into m groups n out).
Proof.
  intros [H1 H2 H3 H4 Hrec H5 H6] Hs0 EG He. destruct Hs0 as [S1 S2 S3 S4 S5].
  destruct (emits_ok _ _ _ _ _ _ He S1) as (E1 & E2 & _ & E3 & E4 & E5 & E6 & E7).
  assert (Eout : mg_out (emit_into m groups n out) = mg_out m ++ out) by done.
  split; rewrite ?Eout.
  - split; cbn; [done|intros g Hg; by apply S2, E5|done|intros g y Hg; by apply S4, E5|done].
  - done.
  - change (mg_emitted (emit_into m groups n out)) with n. rewrite emitted_groups_app, length_app. lia.
  - rewrite emitted_groups_app. by apply Forall_app.
  - by rewrite emitted_records_app, E3, app_nil_r.
  - intros k Hk. apply (E6 k Hk). by apply H5.
  - intros i id source Hi Hsrc. destruct (H6 i id source Hi Hsrc) as (c & q & Hc & Hq & Ee & Ed). unfold in_queue in Hq. rewrite <- EG in Hq.
    destruct (E7 id _ q Hq) as (q' & Hq' & ->). exists c, q'. rewrite Eout. split_and!; [done|done| |].
    + by rewrite Ee, shown_app, <- !app_assoc.
    + rewrite Ed, noted_app. unfold noted at 3. rewrite E3. cbn [records_of List.filter]. by rewrite app_nil_r.
Qed.

Lemma force_ok m : merge_ok m -> exists m', force limit m = Some m' /\ merge_ok m' /\ mg_cursors m' = mg_cursors m /\
  (ms_pending (mg_state m') = [] \/ limit = Some (mg_emitted m')) /\
  (forall k, limit = Some k -> k - mg_emitted m <= length (ms_pending (mg_state m)) -> limit = Some (mg_emitted m')).
Proof.
  intros Hok. pose proof Hok as [[S1 S2 S3 S4 S5] H2 H3 H4 _ H5 H6]. unfold force.
  destruct (forced_emits (length (ms_pending (mg_state m))) (ms_pending (mg_state m)) limit (mg_emitted m)) as (groups & n & out & -> & He & Hend); [done|done|].
  cbn. eexists. split; [done|]. assert (Hok' : merge_ok (emit_into m groups n out)).
  { apply (emit_into_ok m (ms_pending (mg_state m))); [done| |done|done]. by destruct (mg_state m). }
  split; [exact Hok'|]. split; [done|]. cbn. pose proof (mk_limit _ Hok') as Hlim. cbn in Hlim.
  destruct (emits_ok _ _ _ _ _ _ He S1) as (_ & E2 & E2' & _). split.
  - destruct Hend as [->|Hr]; [by left|right]. unfold limit_reached in Hr. destruct limit as [k|]; [|done]. apply Nat.leb_le in Hr. specialize (Hlim k eq_refl). f_equal. lia.
  - intros k Hk Hle. rewrite Hk in *. specialize (Hlim k eq_refl). f_equal. destruct Hend as [->|Hr]; [cbn in E2'; lia|]. cbn in Hr. apply Nat.leb_le in Hr. lia.
Qed.

Lemma note_buffered_ok m : merge_ok m -> merge_ok (note_buffered m).
Proof. destruct m. intros [H1 H2 H3 H4 H5 H6 H7]. by split. Qed.

Definition without_head (c : CursorState) : CursorState :=
  mkCursorState (cu_source c) None (cu_done c) (cu_oldest_seen c) (cu_recent_yields c).

Lemma left_without_head c e : cu_head c = Some e -> left_of c = e :: left_of (without_head c).
Proof. unfold left_of. by intros ->. Qed.

Lemma head_about m i c e : merge_ok m -> mg_cursors m !! i = Some c -> cu_head c = Some e -> ids !! i = Some (member_of e).
Proof using Hids Habout.
  intros [_ H2 _ _ _ _ H6] Hc He. assert (Hi : i < length ids) by (apply lookup_lt_Some in Hc; lia).
  destruct (lookup_lt_is_Some_2 ids i Hi) as [id Hid]. destruct (Forall2_lookup_l _ _ _ _ _ Habout Hid) as (source & Hs & _).
  destruct (H6 i id source Hid Hs) as (c' & q & Hc' & _ & E & _). assert (c' = c) as -> by congruence.
  rewrite Hid. f_equal. symmetry. eapply entry_about; [done|done|]. rewrite E, (left_without_head c e He). set_solver.
Qed.

(** The head of cursor [i] goes to a group. *)
Lemma gather_turn_ok m i c e s :
  merge_ok m -> mg_cursors m !! i = Some c -> cu_head c = Some e -> took (mg_state m) s i e ->
  merge_ok (m <| mg_cursors := <[i := without_head c]> (mg_cursors m) |> <| mg_state := s |>).
Proof using Hids Habout.
  intros Hok Hc He (T1 & T2 & T3). pose proof (head_about m i c e Hok Hc He) as Hid. destruct Hok as [H1 H2 H3 H4 Hrec H5 H6].
  split; cbn; [done|by rewrite length_insert|done..|].
  intros j id source Hj Hs. destruct (H6 j id source Hj Hs) as (c' & q & Hc' & Hq & Ee & Ed). destruct (decide (j = i)) as [->|Hne].
  - assert (c' = c) as -> by congruence. assert (id = member_of e) as -> by congruence. exists (without_head c), (q ++ [e]). split_and!.
    + cbn. rewrite list_lookup_insert_eq; [done|]. by eapply lookup_lt_Some.
    + by apply T2.
    + rewrite Ee, (left_without_head c e He). by rewrite <- (app_assoc q [e]).
    + done.
  - exists c', q. split_and!; [|apply T3; [done|by eapply other_member|done]|done|done]. cbn. by rewrite list_lookup_insert_ne.
Qed.

(** The head of cursor [i] goes out alone. *)
Lemma alone_ok m i c e g :
  merge_ok m -> ms_pending (mg_state m) = [] -> mg_cursors m !! i = Some c -> cu_head c = Some e ->
  limit_reached limit (mg_emitted m) = false -> gr_entries g = [e] -> good g ->
  merge_ok (m <| mg_cursors := <[i := without_head c]> (mg_cursors m) |> <| mg_out := mg_out m ++ [MergedGroup g] |> <| mg_emitted := S (mg_emitted m) |>).
Proof using Hids Habout.
  intros Hok Hp Hc He Hlim Eg Hg. pose proof (head_about m i c e Hok Hc He) as Hid. destruct Hok as [H1 H2 H3 H4 Hrec H5 H6].
  assert (Hshown : forall id, shown id [MergedGroup g] = of_member id [e]) by (intros id; unfold shown; cbn; by rewrite Eg).
  split; cbn [mg_state mg_cursors mg_emitted mg_out set_field]; [done|by rewrite length_insert| | | | |].
  - rewrite emitted_groups_app, length_app, H3. cbn. lia.
  - rewrite emitted_groups_app, Forall_app. split; [done|]. by apply Forall_singleton.
  - rewrite emitted_records_app. cbn. by rewrite app_nil_r.
  - intros k Hk. rewrite Hk in Hlim. cbn in Hlim. apply Nat.leb_gt in Hlim. lia.
  - intros j id source Hj Hs. destruct (H6 j id source Hj Hs) as (c' & q & Hc' & (w & Hw & ->) & Ee & Ed).
    assert (Ew : w = []).
    { destruct w as [|x w]; [done|]. destruct (waits_pending _ _ _ _ Hw x) as [n Hn]; [by left|]. by rewrite Hp in Hn. }
    rewrite Ew in *. change (waiting _ id []) with ([] : list CommitLogEntry) in Ee. cbn [app] in Ee.
    assert (Hnoted : degradations_of source = noted id (mg_out m ++ [MergedGroup g]) ++ degradations_of (cu_source c')).
    { rewrite Ed, noted_app. cbn. by rewrite app_nil_r. }
    destruct (decide (j = i)) as [->|Hne].
    + assert (c' = c) as -> by congruence. assert (id = member_of e) as -> by congruence. exists (without_head c), []. split_and!.
      * cbn. rewrite list_lookup_insert_eq; [done|]. by eapply lookup_lt_Some.
      * by exists [].
      * pose proof (of_member_own (member_of e) [] e eq_refl ltac:(set_solver)) as Eo. cbn [app] in Eo.
        cbn [mg_out]. rewrite shown_app, Hshown, Eo, <- app_assoc. by rewrite Ee, (left_without_head c e He).
      * done.
    + exists c', []. split_and!; [cbn; by rewrite list_lookup_insert_ne|by exists []| |done].
      pose proof (of_member_other id [] e) as Eo. cbn [app] in Eo. cbn [mg_out]. rewrite shown_app, Hshown, Eo, app_nil_r; [done|].
      intros E. by eapply (other_member i j).
Qed.

Definition left_total (m : Merge) : nat := sum_list_with (fun c => length (left_of c)) (mg_cursors m).

Definition ready (m : Merge) : Prop :=
  merge_ok m /\ Forall settled (mg_cursors m) /\ (mo_coalesce options = false -> ms_pending (mg_state m) = []).

Lemma advance_ok m i c :
  merge_ok m -> mg_cursors m !! i = Some c -> cu_head c = None -> (cu_done c = true -> cu_source c = []) ->
  (forall j c', j <> i -> mg_cursors m !! j = Some c' -> settled c') -> (mo_coalesce options = false -> ms_pending (mg_state m) = []) ->
  exists m', advance i m = Some m' /\ ready m' /\ left_total m' = left_total m.
Proof using Hids Habout.
  intros Hok Hc Hh Hd Hset Hpend. unfold advance. rewrite Hc. cbn [mbind option_bind].
  destruct (advance_cursor c (mg_serial m)) as [[c' serial] out] eqn:Ea. eexists. split; [done|].
  destruct (receive_head_spec _ _ _ _ _ Ea Hh Hd) as (R1 & R2 & R3 & R4).
  assert (Hleft : left_of c = left_of c') by (unfold left_of at 1; by rewrite Hh, <- R3).
  assert (Hlt : i < length (mg_cursors m)) by (by eapply lookup_lt_Some).
  split; [split_and!|].
  - destruct Hok as [H1 H2 H3 H4 Hrec H5 H6].
    assert (Hin : i < length ids) by lia. destruct (lookup_lt_is_Some_2 ids i Hin) as [idi Hidi].
    destruct (Forall2_lookup_l _ _ _ _ _ Habout Hidi) as (sourcei & Hsi & _).
    assert (Hout : Forall (fun d => ct_member_id (dg_target d) = idi) (emitted_records out)).
    { destruct (H6 i idi sourcei Hidi Hsi) as (ci & qi & Hci & _ & _ & Edi). assert (ci = c) as -> by congruence.
      apply Forall_forall. intros d Hin'. eapply record_about; [done|done|]. rewrite Edi, R4. set_solver. }
    split; cbn; [done|by rewrite length_insert|by rewrite emitted_groups_app, R2, app_nil_r..| |done|].
    { rewrite emitted_records_app, Forall_app. split; [done|]. eapply Forall_impl; [exact Hout|]. intros d ->. by eapply list_elem_of_lookup_2. }
    intros j id source Hj Hs. destruct (H6 j id source Hj Hs) as (c0 & q & Hc0 & Hq & Ee & Ed).
    assert (Hshown : shown id (mg_out m ++ out) = shown id (mg_out m)).
    { rewrite shown_app. unfold shown at 2. rewrite R2. cbn. by rewrite app_nil_r. }
    destruct (decide (j = i)) as [->|Hne].
    + assert (c0 = c) as -> by congruence. assert (idi = id) as -> by congruence. exists c', q. split_and!; [cbn; by rewrite list_lookup_insert_eq|done| |].
      * cbn [mg_out]. by rewrite Hshown, <- Hleft.
      * cbn [mg_out]. rewrite noted_app. unfold noted at 2. by rewrite (records_of_all id _ Hout), <- app_assoc, <- R4.
    + exists c0, q. split_and!; [cbn; by rewrite list_lookup_insert_ne|done| |].
      * cbn [mg_out]. by rewrite Hshown.
      * cbn [mg_out]. rewrite noted_app. unfold noted at 2. rewrite (records_of_none id), app_nil_r; [done|].
        eapply Forall_impl; [exact Hout|]. intros d -> E. by eapply (other_member i j).
  - cbn. rewrite Forall_lookup. intros j c0 Hj. apply list_lookup_insert_Some in Hj as [(-> & <- & _)|[Hne Hj]]; [done|]. by eapply Hset.
  - done.
  - unfold left_total. cbn. pose proof (sum_insert (fun c => length (left_of c)) (mg_cursors m) i c c' Hc) as E. cbn beta in E. rewrite Hleft in E. lia.
Qed.

(** How a merge ends: at the limit, or with nothing left. *)
Definition ended (m : Merge) : Prop :=
  limit = Some (mg_emitted m) \/
  ms_pending (mg_state m) = [] /\ Forall (fun c => left_of c = [] /\ cu_source c = []) (mg_cursors m).

Definition turned (m : Merge) (t : Turn) : Prop :=
  match t with inl m' => ready m' /\ S (left_total m') = left_total m | inr m' => merge_ok m' /\ ended m' end.

Lemma taken_settled m i c j c' : Forall settled (mg_cursors m) ->
  j <> i -> <[i := without_head c]> (mg_cursors m) !! j = Some c' -> settled c'.
Proof. intros H Hne. rewrite list_lookup_insert_ne by done. rewrite Forall_lookup in H. eauto. Qed.

Lemma left_taken m i c e : mg_cursors m !! i = Some c -> cu_head c = Some e ->
  S (sum_list_with (fun c => length (left_of c)) (<[i := without_head c]> (mg_cursors m))) = left_total m.
Proof.
  intros Hc He. unfold left_total. pose proof (sum_insert (fun c => length (left_of c)) (mg_cursors m) i c (without_head c) Hc) as E. cbn beta in E.
  rewrite (left_without_head c e He) in E. cbn [length] in E. lia.
Qed.

Lemma limit_at m n : merge_ok m -> limit_reached limit n = true -> n = mg_emitted m -> limit = Some (mg_emitted m).
Proof.
  intros Hok H ->. unfold limit_reached in H. pose proof (mk_limit _ Hok) as Hl. destruct limit as [k|]; [|done].
  apply Nat.leb_le in H. specialize (Hl k eq_refl). f_equal. lia.
Qed.

Lemma emit_alone_turned m i c e :
  ready m -> mo_coalesce options = false -> limit_reached limit (mg_emitted m) = false -> mg_cursors m !! i = Some c -> cu_head c = Some e ->
  exists t, emit_alone options i e (m <| mg_cursors := <[i := without_head c]> (mg_cursors m) |>) = Some t /\ turned m t.
Proof using Hids Habout.
  intros (Hok & Hset & Hpend) Hco Hlim Hc He. unfold emit_alone. destruct (assemble_alone e false) as (g & -> & Eg & Hcoh). cbn [last mbind option_bind].
  pose proof (head_about m i c e Hok Hc He) as Hid.
  assert (Hg : good g). { split_and!; [done|rewrite Eg; by apply close_one|]. rewrite Eg, Forall_singleton. by eapply list_elem_of_lookup_2. }
  pose proof (alone_ok m i c e g Hok (Hpend Hco) Hc He Hlim Eg Hg) as Hok'.
  match goal with |- context [limit_reached limit ?n] => destruct (limit_reached limit n) eqn:El end.
  - eexists. split; [done|]. unfold turned, ended. split; [exact Hok'|]. left. by eapply (limit_at _ _ Hok' El).
  - rewrite Forall_lookup in Hset. destruct (Hset i c Hc) as [_ Hdone].
    destruct (advance_ok _ i (without_head c) Hok') as (m' & Em & Hm' & Hl); [|done|done| |done|].
    + cbn. rewrite list_lookup_insert_eq; [done|]. by eapply lookup_lt_Some.
    + intros j c' Hne Hj. eapply (taken_settled m i c j c'); [by rewrite Forall_lookup|done|done].
    + exists (inl m'). split; [exact (f_equal (fmap inl) Em)|]. unfold turned. split; [done|]. rewrite Hl. by apply (left_taken m i c e).
Qed.

Lemma absorbed_ok m cs s :
  merge_ok m -> absorb_seen_siblings 0 (mg_cursors m) (mg_state m) = (cs, s) ->
  merge_ok (m <| mg_cursors := cs |> <| mg_state := s |>) /\ length (ms_pending s) = length (ms_pending (mg_state m)).
Proof using Hids Habout.
  intros Hok Ea. pose proof Hok as [H1 H2 H3 H4 Hrec H5 H6]. destruct (absorb_ok 0 _ _ _ _ Ea H1) as (A1 & A2 & A3 & _ & A5).
  - done.
  - intros j c e Hc He. by eapply head_about.
  - intros i id Hi. destruct (Forall2_lookup_l _ _ _ _ _ Habout Hi) as (source & Hs & _). destruct (H6 i id source Hi Hs) as (_ & q & _ & Hq & _). eauto.
  - split; [|done]. split; cbn; [done|lia|done..|]. intros i id source Hi Hs. destruct (H6 i id source Hi Hs) as (c & q & Hc & Hq & Ee & Ed).
    destruct (A5 i c id q Hc Hi Hq) as (c' & q' & Hc' & Hq' & El & Esrc). exists c', q'. split_and!; [done|done| |by rewrite Esrc].
    cbn [mg_out]. by rewrite <- El.
Qed.

Lemma gather_turn_turned m i c e :
  ready m -> mo_coalesce options = true -> limit_reached limit (mg_emitted m) = false -> mg_cursors m !! i = Some c -> cu_head c = Some e ->
  exists t, gather_turn options i e (m <| mg_cursors := <[i := without_head c]> (mg_cursors m) |>) = Some t /\ turned m t.
Proof using Hids Habout.
  intros (Hok & Hset & _) Hco Hlim Hc He. pose proof (head_about m i c e Hok Hc He) as Hid. pose proof Hok as [H1 H2 _ _ _ _ H6].
  destruct (Forall2_lookup_l _ _ _ _ _ Habout Hid) as (source & Hs & _). destruct (H6 i _ source Hid Hs) as (_ & q & _ & Hq & _).
  destruct (admit_took (mg_state m) i e (mg_serial m) q H1) as (s & Es & Htook); [by eapply lookup_lt_Some|by eapply list_elem_of_lookup_2|done|].
  pose proof (note_buffered_ok _ (gather_turn_ok m i c e s Hok Hc He Htook)) as Hok1.
  pose (m1 := note_buffered (m <| mg_cursors := <[i := without_head c]> (mg_cursors m) |> <| mg_state := s |>)). fold m1 in Hok1.
  pose (remaining := match limit with Some k => k - mg_emitted m1 | None => 0 end).
  assert (gather_turn options i e (m <| mg_cursors := <[i := without_head c]> (mg_cursors m) |>) =
    if bool_decide (is_Some limit) && negb (remaining =? 0) && (remaining <=? length (ms_pending (mg_state m1))) then
      let '(cursors, state) := absorb_seen_siblings 0 (mg_cursors m1) (mg_state m1) in
      inr <$> force limit (note_buffered (m1 <| mg_cursors := cursors |> <| mg_state := state |>))
    else inl <$> advance i m1) as ->.
  { unfold gather_turn. change (admit_entry _ i e _) with (admit_entry (mg_state m) i e (mg_serial m)). by rewrite Es. }
  destruct (_ && _ && _) eqn:Eb.
  - destruct (absorb_seen_siblings 0 (mg_cursors m1) (mg_state m1)) as [cs s'] eqn:Ea.
    destruct (absorbed_ok m1 cs s' Hok1 Ea) as [Hok2 Hlen]. apply note_buffered_ok in Hok2. destruct (force_ok _ Hok2) as (m' & Em & Hm' & _ & _ & Hend).
    exists (inr m'). split; [exact (f_equal (fmap inr) Em)|]. unfold turned, ended. split; [done|left].
    rewrite !andb_true_iff, bool_decide_eq_true, negb_true_iff, Nat.eqb_neq, Nat.leb_le in Eb. destruct Eb as [[[k Hk] _] Hle].
    unfold remaining in Hle. rewrite Hk in Hle. apply (Hend k Hk). cbn. rewrite Hlen. exact Hle.
  - rewrite Forall_lookup in Hset. destruct (Hset i c Hc) as [_ Hdone].
    destruct (advance_ok m1 i (without_head c) Hok1) as (m' & Em & Hm' & Hl); [|done|done| |by rewrite Hco|].
    + cbn. rewrite list_lookup_insert_eq; [done|]. by eapply lookup_lt_Some.
    + intros j c' Hne Hj. eapply (taken_settled m i c j c'); [by rewrite Forall_lookup|done|done].
    + exists (inl m'). split; [exact (f_equal (fmap inl) Em)|]. unfold turned. split; [done|]. rewrite Hl. by apply (left_taken m i c e).
Qed.

Lemma chosen_has_head groups cursors i :
  (match closure_progress_cursor groups cursors with Some index => Some index | None => next_cursor cursors end) = Some i ->
  exists c e, cursors !! i = Some c /\ cu_head c = Some e.
Proof.
  intros H. assert (exists e, (i, e) ∈ with_heads cursors) as (e & (c & Hc & He)%with_heads_spec); [|eauto].
  destruct (closure_progress_cursor groups cursors) as [j|] eqn:Ec.
  - injection H as ->. unfold closure_progress_cursor in Ec. apply bind_Some in Ec as (g & _ & ([j e] & Hm%min_by_elem & ->)%fmap_Some).
    apply list_elem_of_In, List.filter_In in Hm as [Hm _]. exists e. by apply list_elem_of_In.
  - unfold next_cursor in H. apply fmap_Some in H as ([j e] & Hm%min_by_elem & ->). by exists e.
Qed.

Lemma none_chosen groups cursors :
  (match closure_progress_cursor groups cursors with Some index => Some index | None => next_cursor cursors end) = None ->
  Forall (fun c => cu_head c = None) cursors.
Proof.
  intros H. destruct (closure_progress_cursor groups cursors); [done|]. unfold next_cursor in H. apply fmap_None, min_by_none in H.
  apply Forall_lookup. intros i c Hc. destruct (cu_head c) as [e|] eqn:He; [|done].
  assert (Hin : (i, e) ∈ with_heads cursors) by (apply with_heads_spec; eauto). rewrite H in Hin. by apply elem_of_nil in Hin.
Qed.

Lemma merge_turn_turned m : ready m -> exists t, merge_turn options m = Some t /\ turned m t.
Proof using Hids Habout.
  intros (Hok & Hset & Hpend). pose (groups0 := seal_groups (ms_pending (mg_state m)) (mg_cursors m)).
  destruct (ready_emits (length groups0) groups0 limit (mg_emitted m)) as (groups & n & out & stopped & Er & He & Estop); [done|].
  assert (Hs0 : state_ok (with_pending (mg_state m) groups0)) by (by apply seal_state_ok, mk_state).
  pose (m1 := emit_into m groups n out).
  assert (Hok1 : merge_ok m1) by (apply (emit_into_ok m groups0); [done|done|by apply graph_seal|done]).
  assert (Hready : ready m1).
  { split_and!; [done|done|]. intros Hco. destruct (emits_ok _ _ _ _ _ _ He (st_groups _ Hs0)) as (_ & _ & _ & _ & _ & Hsub & _).
    change (groups = []). destruct groups as [|g groups]; [done|]. exfalso. specialize (Hsub g (list_elem_of_here _ _)).
    unfold groups0 in Hsub. rewrite (Hpend Hco) in Hsub. by apply elem_of_nil in Hsub. }
  assert (Hsame : left_total m1 = left_total m) by done.
  assert (merge_turn options m =
    if stopped then Some (inr m1)
    else match (match closure_progress_cursor groups (mg_cursors m1) with Some index => Some index | None => next_cursor (mg_cursors m1) end) with
         | None => inr <$> force limit m1
         | Some index => '(entry, m) ← take_head index m1; if mo_coalesce options then gather_turn options index entry m else emit_alone options index entry m
         end) as ->.
  { unfold merge_turn. fold groups0. rewrite Er. done. }
  destruct stopped.
  - exists (inr m1). split; [done|]. unfold turned, ended. split; [done|left]. by apply (limit_at m1 n Hok1).
  - destruct (match closure_progress_cursor groups (mg_cursors m1) with Some _ => _ | None => _ end) as [i|] eqn:Ei.
    + destruct (chosen_has_head _ _ _ Ei) as (c & e & Hc & Hh). unfold take_head. rewrite Hc. cbn [mbind option_bind]. rewrite Hh. cbn [mbind option_bind].
      fold (without_head c).
      assert (Hlim : limit_reached limit (mg_emitted m1) = false) by done.
      destruct (mo_coalesce options) eqn:Hco; [destruct (gather_turn_turned m1 i c e) as (t & Et & Ht)|destruct (emit_alone_turned m1 i c e) as (t & Et & Ht)]; try done;
        (exists t; split; [exact Et|]; unfold turned in *; destruct t; [|done]; by rewrite <- Hsame).
    + pose proof (none_chosen _ _ Ei) as Hnone. destruct (force_ok m1 Hok1) as (m' & Em & Hm' & Hcur & Hend & _). exists (inr m'). rewrite Em. split; [done|].
      unfold turned, ended. split; [done|]. destruct Hend as [Hp|Hl]; [right|by left]. split; [done|]. rewrite Hcur. destruct Hready as (_ & Hset1 & _).
      rewrite Forall_forall in Hnone, Hset1 |- *. intros c Hc. destruct (Hset1 c Hc) as [Hsrc _]. rewrite (Hsrc (Hnone c Hc)).
      unfold left_of. by rewrite (Hnone c Hc), (Hsrc (Hnone c Hc)).
Qed.

Lemma merge_cursors_ends fuel m : ready m -> left_total m < fuel -> exists m', merge_cursors fuel options m = Some m' /\ merge_ok m' /\ ended m'.
Proof using Hids Habout.
  revert m. induction fuel as [|fuel IH]; intros m Hr Hf; [lia|]. cbn [merge_cursors]. destruct (merge_turn_turned m Hr) as ([m1|m1] & -> & Ht); cbn [mbind option_bind].
  - destruct Ht as [Hr1 Hl]. apply IH; [done|]. cbn in Hl. lia.
  - exists m1. by split.
Qed.

Lemma start_ok cursors out serial :
  length cursors = length ids -> Forall settled cursors -> emitted_groups out = [] ->
  Forall (fun d => ct_member_id (dg_target d) ∈ ids) (emitted_records out) ->
  (forall i id source, ids !! i = Some id -> sources !! i = Some source ->
     exists c, cursors !! i = Some c /\ entries_of source = left_of c /\ degradations_of source = noted id out ++ degradations_of (cu_source c)) ->
  ready (mkMerge cursors (merge_state_new (length cursors)) 0 0 serial out).
Proof.
  intros Hlen Hset Hout Hrec Hdiv. split_and!; [|done|done]. split; cbn [mg_state mg_cursors mg_emitted mg_out].
  - split; cbn.
    + split; [constructor| |constructor]. intros x Hx. inversion Hx as [? ? (n & Hn & _)|? ? ? (n & Hn & _) _];
        (apply graph_lookup in Hn as (g & Hg & _); [by apply elem_of_nil in Hg|constructor]).
    + intros g Hg. by apply elem_of_nil in Hg.
    + intros j x [Hj _]%lookup_replicate. done.
    + intros g y Hg. by apply elem_of_nil in Hg.
    + by rewrite length_replicate.
  - done.
  - by rewrite Hout.
  - by rewrite Hout.
  - done.
  - intros n Hn. lia.
  - intros i id source Hi Hs. destruct (Hdiv i id source Hi Hs) as (c & Hc & Ee & Ed). exists c, []. split_and!; [done| | |done].
    + exists []. split; [|done]. unfold last_of. cbn. rewrite lookup_replicate_2; [apply waits_empty|]. rewrite Hlen. by eapply lookup_lt_Some.
    + cbn [mg_out]. unfold shown. by rewrite Hout.
Qed.

End merging.

(** *** The whole merge *)

Lemma prime_spec ids sources cs serial serial' out :
  prime_cursors (cursor_over <$> sources) serial = (cs, serial', out) ->
  NoDup ids -> Forall2 (fun id source => Forall (about id) source) ids sources ->
  length cs = length sources /\ Forall settled cs /\ emitted_groups out = [] /\
  Forall (fun d => ct_member_id (dg_target d) ∈ ids) (emitted_records out) /\
  sum_list_with (fun c => length (left_of c)) cs = length (sources ≫= entries_of) /\
  (forall i id source, ids !! i = Some id -> sources !! i = Some source ->
     exists c, cs !! i = Some c /\ entries_of source = left_of c /\ degradations_of source = noted id out ++ degradations_of (cu_source c)).
Proof.
  intros Hp Hnd Hab. revert cs serial serial' out Hnd Hp. induction Hab as [|id source ids sources Hid Hab IH]; intros cs serial serial' out Hnd; cbn [fmap list_fmap prime_cursors].
  { intros [= <- <- <-]. split_and!; [done..|]. intros i id source Hi. done. }
  destruct (receive_head (cursor_over source) serial) as [[c s1] out1] eqn:Er.
  destruct (prime_cursors _ s1) as [[cs2 s2] out2] eqn:Ep. intros [= <- <- <-].
  destruct (receive_head_spec _ _ _ _ _ Er) as (R1 & R2 & R3 & R4); [done..|]. cbn [cursor_over cu_source] in R3, R4.
  apply NoDup_cons in Hnd as [Hfresh Hnd]. destruct (IH _ _ _ _ Hnd Ep) as (I1 & I2 & I3 & I4 & I5 & I6).
  assert (Hown : Forall (fun d => ct_member_id (dg_target d) = id) (emitted_records out1)).
  { apply Forall_forall. intros d Hd. assert (Hin : d ∈ degradations_of source) by (rewrite R4; set_solver).
    apply list_elem_of_omap in Hin as ([|d'] & Hin & [= ->]). rewrite Forall_forall in Hid. by apply (Hid _ Hin). }
  split_and!.
  - cbn. lia.
  - by constructor.
  - by rewrite emitted_groups_app, R2, I3.
  - unfold emitted_records in *. rewrite omap_app, Forall_app. split; [eapply Forall_impl; [exact Hown|]; set_solver|eapply Forall_impl; [exact I4|]; set_solver].
  - cbn [sum_list_with mbind list_bind]. rewrite length_app, I5, R3. done.
  - intros [|i] id' source' Hi Hs; cbn in Hi, Hs.
    + injection Hi as <-. injection Hs as <-. exists c. split_and!; [done|done|]. rewrite noted_app. unfold noted.
      rewrite (records_of_all _ _ Hown), (records_of_none id (emitted_records out2)), app_nil_r; [done|].
      eapply Forall_impl; [exact I4|]. intros d Hd E. apply Hfresh. by rewrite <- E.
    + destruct (I6 i id' source' Hi Hs) as (c' & Hc' & Ee & Ed). exists c'. split_and!; [done|done|]. rewrite noted_app. unfold noted at 1.
      rewrite (records_of_none id' (emitted_records out1)); [done|]. eapply Forall_impl; [exact Hown|]. intros d -> E. apply Hfresh. rewrite E. by eapply list_elem_of_lookup_2.
Qed.

Lemma stream_sources_ok ids sources options :
  NoDup ids -> Forall2 (fun id source => Forall (about id) source) ids sources ->
  exists m, stream_sources sources options = Some m /\ merge_ok ids sources options m /\ ended options m.
Proof.
  intros Hnd Hab. unfold stream_sources. destruct (prime_cursors _ 0) as [[cs serial] out] eqn:Ep.
  destruct (prime_spec ids sources cs 0 serial out Ep Hnd Hab) as (P1 & P2 & P3 & P4 & P5 & P6).
  assert (Hr : ready ids sources options (mkMerge cs (merge_state_new (length cs)) 0 0 serial out)).
  { apply start_ok; [|done..]. by rewrite P1, (Forall2_length _ _ _ Hab). }
  apply (merge_cursors_ends ids sources Hnd Hab options _ _ Hr). unfold left_total, merge_fuel. cbn [mg_cursors]. rewrite P5. lia.
Qed.

Lemma nothing_left options m ids sources i id source :
  merge_ok ids sources options m -> ended options m -> mo_max_entries options <> Some (length (emitted_groups (mg_out m))) ->
  ids !! i = Some id -> sources !! i = Some source ->
  shown id (mg_out m) = entries_of source /\ noted id (mg_out m) = degradations_of source.
Proof.
  intros [_ _ H3 _ _ _ H6] Hend Hlim Hi Hs. destruct Hend as [Hl|[Hp Hall]]; [congruence|].
  destruct (H6 i id source Hi Hs) as (c & q & Hc & (w & Hw & ->) & -> & ->). rewrite Forall_lookup in Hall. destruct (Hall i c Hc) as [-> ->].
  assert (w = []) as ->.
  { destruct w as [|x w]; [done|]. destruct (waits_pending _ _ _ _ Hw x) as [n Hn]; [by left|]. by rewrite Hp in Hn. }
  by rewrite !app_nil_r.
Qed.

(** C20: a log merge over any sources, one per repository, ends without a
    panic. What it shows of each repository is the start of that
    repository's history, in order and without gaps or repetitions, and
    likewise for its degradations; nothing else is shown; and unless the
    number of groups reached the limit, which it never passes, all of every
    history was shown. *)
Theorem log_merge_exact ids sources options :
  NoDup ids -> Forall2 (fun id source => Forall (about id) source) ids sources ->
  exists m, stream_sources sources options = Some m /\
  (forall i id source, ids !! i = Some id -> sources !! i = Some source ->
     shown id (mg_out m) `prefix_of` entries_of source /\ noted id (mg_out m) `prefix_of` degradations_of source /\
     (mo_max_entries options <> Some (length (emitted_groups (mg_out m))) ->
      shown id (mg_out m) = entries_of source /\ noted id (mg_out m) = degradations_of source)) /\
  Forall (fun e => member_of e ∈ ids) (emitted_groups (mg_out m) ≫= gr_entries) /\
  Forall (fun d => ct_member_id (dg_target d) ∈ ids) (emitted_records (mg_out m)) /\
  (forall n, mo_max_entries options = Some n -> length (emitted_groups (mg_out m)) <= n).
Proof.
  intros Hnd Hab. destruct (stream_sources_ok ids sources options Hnd Hab) as (m & Em & Hok & Hend). exists m. split; [done|]. split_and!.
  - intros i id source Hi Hs. destruct (mk_divided _ _ _ _ Hok i id source Hi Hs) as (c & q & _ & _ & Ee & Ed).
    split_and!; [rewrite Ee; by eexists|rewrite Ed; by eexists|]. intros Hlim. by eapply nothing_left.
  - apply Forall_bind. eapply Forall_impl; [exact (mk_good _ _ _ _ Hok)|]. by intros g (_ & _ & H).
  - exact (mk_records _ _ _ _ Hok).
  - intros n Hn. rewrite <- (mk_emitted _ _ _ _ Hok). by apply (mk_limit _ _ _ _ Hok).
Qed.

(** Two members; [b] has a commit that [a]'s marker-less twin joins. *)
Definition demo_entry (id commit : str) (seconds : Z) (message : bytes) : CommitLogEntry :=
  let who := mkCommitLogIdentity (lit "Ann") (lit "ann@example.org") (mkCommitLogTime seconds 0) in
  mkCommitLogEntry (mkCommitLogTarget id id SourceGit) commit [] who who message None.

Definition demo_sources : list (list CommitLogEvent) :=
  [[LogEntry (demo_entry (lit "a") (lit "a2") 200 (lit "two")); LogEntry (demo_entry (lit "a") (lit "a1") 100 (lit "one"))];
   [LogDegradation (mkCommitLogDegradation (mkCommitLogTarget (lit "b") (lit "b") SourceGit) HistoryUnreadable None (lit "gap"));
    LogEntry (demo_entry (lit "b") (lit "b1") 95 (lit "one"))]].

Lemma demo_about : Forall2 (fun id source => Forall (about id) source) [lit "a"; lit "b"] demo_sources.
Proof. repeat constructor. Defined.

Lemma log_merge_exact_witness :
  exists m, stream_sources demo_sources (merge_options true (Some 50) 4) = Some m /\
  shown (lit "a") (mg_out m) = entries_of (demo_sources !!! 0) /\ length (emitted_groups (mg_out m)) = 2.
Proof.
  destruct (log_merge_exact [lit "a"; lit "b"] demo_sources (merge_options true (Some 50) 4)) as (m & Em & H & _).
  - by apply (bool_decide_unpack _).
  - apply demo_about.
  - exists m. split; [exact Em|].
    assert (Hlen : length (emitted_groups (mg_out m)) = 2).
    { assert (E : stream_sources demo_sources (merge_options true (Some 50) 4) = Some m) by exact Em. revert E. clear. vm_compute. by intros [= <-]. }
    split; [|exact Hlen]. apply (H 0 (lit "a")); [done|done|]. rewrite Hlen. done.
Defined.

(** C21: every group a log merge shows is coherent: it is not empty and has at
    most one entry of each repository, all its commits were made within the
    coalescing window, it is placed by its newest, and its provenance is
    true of it: all entries carry the one marker named, or they have the
    same message and author within the heuristic window and no marker, or
    there is one entry. *)
Theorem log_groups_coherent ids sources options :
  NoDup ids -> Forall2 (fun id source => Forall (about id) source) ids sources ->
  exists m, stream_sources sources options = Some m /\
  Forall (fun g => coherent g /\ close COALESCING_WINDOW_SECONDS (committed_at <$> gr_entries g)) (emitted_groups (mg_out m)).
Proof.
  intros Hnd Hab. destruct (stream_sources_ok ids sources options Hnd Hab) as (m & Em & Hok & _). exists m. split; [done|].
  eapply Forall_impl; [exact (mk_good _ _ _ _ Hok)|]. by intros g (H1 & H2 & _).
Qed.

Lemma log_groups_coherent_witness :
  exists m, stream_sources demo_sources (merge_options true None 4) = Some m /\ Forall (fun g => coherent g) (emitted_groups (mg_out m)).
Proof.
  destruct (log_groups_coherent [lit "a"; lit "b"] demo_sources (merge_options true None 4)) as (m & Em & H).
  - by apply (bool_decide_unpack _).
  - apply demo_about.
  - exists m. split; [exact Em|]. eapply Forall_impl; [exact H|]. by intros g [? _].
Defined.
