(* ===== verification/LogOrder.v ===== *)
(** A log that is not coalesced is a merge of its histories by time. *)

From S2P Require Export LogMergeProofs.

#[local] Set Default Proof Using "Type".

(** ** The newest head *)

Lemma compare_entries_gt x y : compare_entries x y = Gt -> (committed_at x <= committed_at y)%Z.
Proof.
  unfold compare_entries, then_with. destruct (Z.compare_spec (committed_at y) (committed_at x)); [lia|done|lia].
Qed.

Lemma compare_entries_not_gt x y : compare_entries x y <> Gt -> (committed_at y <= committed_at x)%Z.
Proof.
  unfold compare_entries, then_with. destruct (Z.compare_spec (committed_at y) (committed_at x)); [lia|lia|done].
Qed.

Lemma min_by_newest (l : list (nat * CommitLogEntry)) x : min_by (fun l r => compare_entries l.2 r.2) l = Some x ->
  forall y, y ∈ l -> (committed_at y.2 <= committed_at x.2)%Z.
Proof.
  destruct l as [|z l]; [done|]. cbn [min_by]. intros [= <-]. induction l as [|u l IH] using rev_ind.
  { intros y ->%list_elem_of_singleton. done. }
  rewrite foldl_snoc, app_comm_cons. intros y [Hy|Hy]%elem_of_app.
  - specialize (IH y Hy). destruct (compare_entries _ u.2) eqn:E; [done|done|]. apply compare_entries_gt in E. lia.
  - apply list_elem_of_singleton in Hy as ->. destruct (compare_entries _ u.2) eqn:E; [apply compare_entries_not_gt; congruence..|done].
Qed.

(** ** Newest first *)

Definition newest_first (entries : list CommitLogEntry) : Prop := StronglySorted (fun a b => (committed_at b <= committed_at a)%Z) entries.

Lemma newest_first_head e entries : newest_first (e :: entries) -> newest_first entries /\ forall x, x ∈ entries -> (committed_at x <= committed_at e)%Z.
Proof. intros [H1 H2]%StronglySorted_inv. split; [done|]. by rewrite Forall_forall in H2. Qed.

Record in_order (m : Merge) : Prop := {
  io_shown : StronglySorted (fun g h => (gr_ordering h <= gr_ordering g)%Z) (emitted_groups (mg_out m));
  io_left : Forall (fun c => newest_first (left_of c)) (mg_cursors m);
  io_later : forall g c e, g ∈ emitted_groups (mg_out m) -> c ∈ mg_cursors m -> e ∈ left_of c -> (committed_at e <= gr_ordering g)%Z;
  io_settled : Forall settled (mg_cursors m);
  io_none : ms_pending (mg_state m) = [];
}.

Lemma next_cursor_newest cursors i c e : next_cursor cursors = Some i -> cursors !! i = Some c -> cu_head c = Some e ->
  Forall settled cursors -> Forall (fun c => newest_first (left_of c)) cursors ->
  forall c' e', c' ∈ cursors -> e' ∈ left_of c' -> (committed_at e' <= committed_at e)%Z.
Proof.
  unfold next_cursor. intros ([j e0] & Hm & ->)%fmap_Some Hc He Hset Hsort c' e' Hc' He'. cbn [fst] in Hc.
  pose proof (min_by_elem _ _ _ Hm) as (c0 & Hc0 & He0)%with_heads_spec. assert (c0 = c) as -> by congruence. assert (e0 = e) as -> by congruence.
  apply list_elem_of_lookup in Hc' as [k Hk]. rewrite Forall_lookup in Hset, Hsort. destruct (Hset k c' Hk) as [Hs _].
  destruct (cu_head c') as [h|] eqn:Eh; [|unfold left_of in He'; rewrite Eh, (Hs eq_refl) in He'; by apply elem_of_nil in He'].
  pose proof (min_by_newest _ _ Hm (k, h) (proj2 (with_heads_spec _ _ _) (ex_intro _ c' (conj Hk Eh)))) as Hle. cbn [snd] in Hle.
  specialize (Hsort k c' Hk). rewrite (left_without_head c' h Eh) in Hsort, He'. apply newest_first_head in Hsort as [_ Hmax].
  apply elem_of_cons in He' as [->|He']; [done|]. specialize (Hmax e' He'). lia.
Qed.

Lemma strongly_sorted_snoc {A} (R : A -> A -> Prop) l x : StronglySorted R l -> Forall (fun y => R y x) l -> StronglySorted R (l ++ [x]).
Proof.
  induction 1 as [|y l Hl IH Hy]; intros Hall; cbn [app]; [by repeat constructor|]. apply Forall_cons in Hall as [H1 H2]. constructor; [by apply IH|].
  apply Forall_app. split; [done|]. by apply Forall_singleton.
Qed.

(** A turn of a merge that is not coalesced. *)
Lemma plain_turn options m t : mo_coalesce options = false -> ms_pending (mg_state m) = [] -> merge_turn options m = Some t ->
  (exists m', t = inr m' /\ emitted_groups (mg_out m') = emitted_groups (mg_out m)) \/
  (exists i c e g, next_cursor (mg_cursors m) = Some i /\ mg_cursors m !! i = Some c /\ cu_head c = Some e /\ gr_ordering g = committed_at e /\
     let m1 := m <| mg_cursors := <[i := without_head c]> (mg_cursors m) |> <| mg_out := mg_out m ++ [MergedGroup g] |> <| mg_emitted := S (mg_emitted m) |> in
     t = inr m1 \/ exists m', advance i m1 = Some m' /\ t = inl m').
Proof.
  intros Hco Hp. destruct m as [cursors [pending lasts next] n buffered serial out]. cbn in Hp. subst pending. unfold merge_turn.
  cbn [mg_state ms_pending mg_cursors seal_groups fmap list_fmap length emit_ready_groups mg_emitted].
  destruct (limit_reached (mo_max_entries options) n); cbn [mbind option_bind].
  { intros [= <-]. left. eexists. split; [done|]. cbn. by rewrite app_nil_r. }
  change (least_group _ []) with (None : option (nat * PendingGroup)). cbn [mbind option_bind]. change (closure_progress_cursor [] _) with (None : option nat).
  change ((mkMerge cursors (mkMergeState [] lasts next) n buffered serial out) <| mg_state := _ |> <| mg_emitted := _ |> <| mg_out := _ |>)
    with (mkMerge cursors (mkMergeState [] lasts next) n buffered serial (out ++ [])).
  rewrite app_nil_r, Hco. cbn [mg_cursors]. destruct (next_cursor cursors) as [i|] eqn:En.
  - unfold take_head. cbn [mg_cursors]. destruct (cursors !! i) as [c|] eqn:Ec; [|done]. cbn [mbind option_bind].
    destruct (cu_head c) as [e|] eqn:Ee; [|done]. cbn [mbind option_bind].
    unfold emit_alone. destruct (assemble_alone e false) as (g & -> & Eg & Hcoh). cbn [last mbind option_bind]. intros H. right. exists i, c, e, g. split_and!; [done|done|done| |].
    { destruct Hcoh as (_ & _ & (e' & He' & ->) & _). rewrite Eg in He'. by apply list_elem_of_singleton in He' as ->. }
    destruct (limit_reached _ _); [injection H as <-; by left|]. right. apply fmap_Some in H as (m' & Em & ->). by exists m'.
  - unfold force. cbn. intros [= <-]. left. eexists. split; [done|]. cbn. by rewrite app_nil_r.
Qed.

(** The state with the entry of cursor [i] shown. *)
Lemma plain_step m i c e g :
  in_order m -> next_cursor (mg_cursors m) = Some i -> mg_cursors m !! i = Some c -> cu_head c = Some e -> gr_ordering g = committed_at e ->
  let m1 := m <| mg_cursors := <[i := without_head c]> (mg_cursors m) |> <| mg_out := mg_out m ++ [MergedGroup g] |> <| mg_emitted := S (mg_emitted m) |> in
  StronglySorted (fun g h => (gr_ordering h <= gr_ordering g)%Z) (emitted_groups (mg_out m1)) /\
  Forall (fun c => newest_first (left_of c)) (mg_cursors m1) /\
  (forall g c e, g ∈ emitted_groups (mg_out m1) -> c ∈ mg_cursors m1 -> e ∈ left_of c -> (committed_at e <= gr_ordering g)%Z).
Proof.
  intros [H1 H2 H3 H4 _] Hn Hc He Hg m1. pose proof (next_cursor_newest _ _ _ _ Hn Hc He H4 H2) as Hnew.
  assert (Hcin : c ∈ mg_cursors m) by (by eapply list_elem_of_lookup_2). pose proof (left_without_head c e He) as El.
  change (mg_out m1) with (mg_out m ++ [MergedGroup g]). rewrite emitted_groups_app. change (emitted_groups [MergedGroup g]) with [g].
  change (mg_cursors m1) with (<[i := without_head c]> (mg_cursors m)).
  assert (Hleft : forall c' x, c' ∈ <[i := without_head c]> (mg_cursors m) -> x ∈ left_of c' -> exists c0, c0 ∈ mg_cursors m /\ x ∈ left_of c0).
  { intros c' x [k Hk]%list_elem_of_lookup Hx. apply list_lookup_insert_Some in Hk as [(_ & <- & _)|[_ Hk]].
    - exists c. split; [done|]. rewrite El. by right.
    - exists c'. split; [by eapply list_elem_of_lookup_2|done]. }
  split_and!.
  - apply strongly_sorted_snoc; [done|]. apply Forall_forall. intros h Hh. rewrite Hg. apply (H3 h c e); [done|done|]. rewrite El. by left.
  - apply Forall_insert; [done|]. rewrite Forall_forall in H2. specialize (H2 c Hcin). rewrite El in H2. by apply newest_first_head in H2 as [? _].
  - intros h c' x Hh Hc' Hx. destruct (Hleft c' x Hc' Hx) as (c0 & Hc0 & Hx0). apply elem_of_app in Hh as [Hh|Hh]; [by eapply H3|].
    apply list_elem_of_singleton in Hh as ->. rewrite Hg. by eapply Hnew.
Qed.

Lemma advance_in_order m i c m' :
  advance i m = Some m' -> mg_cursors m !! i = Some c -> cu_head c = None -> (cu_done c = true -> cu_source c = []) ->
  (forall j c', j <> i -> mg_cursors m !! j = Some c' -> settled c') -> ms_pending (mg_state m) = [] ->
  StronglySorted (fun g h => (gr_ordering h <= gr_ordering g)%Z) (emitted_groups (mg_out m)) ->
  Forall (fun c => newest_first (left_of c)) (mg_cursors m) ->
  (forall g c e, g ∈ emitted_groups (mg_out m) -> c ∈ mg_cursors m -> e ∈ left_of c -> (committed_at e <= gr_ordering g)%Z) ->
  in_order m'.
Proof.
  intros Ha Hc Hh Hd Hset Hp H1 H2 H3. unfold advance in Ha. rewrite Hc in Ha. cbn [mbind option_bind] in Ha.
  destruct (advance_cursor c (mg_serial m)) as [[c' serial] out] eqn:Er. injection Ha as <-.
  destruct (receive_head_spec _ _ _ _ _ Er Hh Hd) as (R1 & R2 & R3 & _).
  assert (Hleft : left_of c = left_of c') by (unfold left_of at 1; by rewrite Hh, <- R3).
  assert (Hcin : c ∈ mg_cursors m) by (by eapply list_elem_of_lookup_2).
  match goal with |- in_order ?x => set (m' := x) end.
  assert (Eout : emitted_groups (mg_out m') = emitted_groups (mg_out m)) by (change (mg_out m') with (mg_out m ++ out); by rewrite emitted_groups_app, R2, app_nil_r).
  assert (Ecur : mg_cursors m' = <[i := c']> (mg_cursors m)) by done.
  split; rewrite ?Eout, ?Ecur.
  - done.
  - apply Forall_insert; [done|]. rewrite <- Hleft. rewrite Forall_forall in H2. by apply H2.
  - intros g c0 e Hg [k Hk]%list_elem_of_lookup He. apply list_lookup_insert_Some in Hk as [(_ & <- & _)|[_ Hk]].
    + rewrite <- Hleft in He. by eapply H3.
    + eapply H3; [done|by eapply list_elem_of_lookup_2|done].
  - rewrite Forall_lookup. intros k c0 Hk. apply list_lookup_insert_Some in Hk as [(_ & <- & _)|[Hne Hk]]; [done|]. by eapply (Hset k).
  - exact Hp.
Qed.

Lemma plain_merge_sorted fuel options m m' : mo_coalesce options = false -> in_order m -> merge_cursors fuel options m = Some m' ->
  StronglySorted (fun g h => (gr_ordering h <= gr_ordering g)%Z) (emitted_groups (mg_out m')).
Proof.
  intros Hco. revert m. induction fuel as [|fuel IH]; intros m Hio; cbn [merge_cursors]; [done|].
  destruct (merge_turn options m) as [t|] eqn:Et; [|done]. cbn [mbind option_bind].
  destruct (plain_turn options m t Hco (io_none _ Hio) Et) as [(m1 & -> & E)|(i & c & e & g & Hn & Hc & He & Hg & Ht)].
  { intros [= <-]. rewrite E. by apply io_shown. }
  destruct (plain_step m i c e g Hio Hn Hc He Hg) as (S1 & S2 & S3). destruct Ht as [->|(m2 & Ha & ->)]; [by intros [= <-]|].
  apply IH. destruct Hio as [_ _ _ Hset Hnone]. pose proof Hset as Hset'. rewrite Forall_lookup in Hset'. destruct (Hset' i c Hc) as [_ Hdone].
  eapply (advance_in_order _ i (without_head c) _ Ha); [|done|done| |done|done|done|done].
  - change (<[i := without_head c]> (mg_cursors m) !! i = Some (without_head c)). rewrite list_lookup_insert_eq; [done|]. by eapply lookup_lt_Some.
  - intros j c' Hne Hj. by eapply (taken_settled m i c j c').
Qed.

(** Without coalescing, histories that are newest first are merged newest
    first: one entry to a group, and no group is newer than one shown
    before it, whatever the limit. *)
Theorem log_newest_first ids sources limit jobs :
  NoDup ids -> Forall2 (fun id source => Forall (about id) source) ids sources ->
  Forall (fun source => newest_first (entries_of source)) sources ->
  exists m, stream_sources sources (merge_options false limit jobs) = Some m /\
  StronglySorted (fun g h => (gr_ordering h <= gr_ordering g)%Z) (emitted_groups (mg_out m)).
Proof.
  intros Hnd Hab Hsort. destruct (stream_sources_ok ids sources (merge_options false limit jobs) Hnd Hab) as (m & Em & _). exists m. split; [done|].
  unfold stream_sources in Em. destruct (prime_cursors _ 0) as [[cs serial] out] eqn:Ep.
  destruct (prime_spec ids sources cs 0 serial out Ep Hnd Hab) as (P1 & P2 & P3 & _ & _ & P6).
  eapply plain_merge_sorted; [|  |exact Em]; [done|]. split; cbn [mg_out mg_cursors]; rewrite ?P3; [constructor| | |done|done].
  - rewrite Forall_lookup. intros i c Hc. assert (Hi : i < length sources) by (apply lookup_lt_Some in Hc; lia).
    destruct (lookup_lt_is_Some_2 sources i Hi) as [source Hs]. destruct (Forall2_lookup_r _ _ _ _ _ Hab Hs) as (id & Hid & _).
    destruct (P6 i id source Hid Hs) as (c' & Hc' & E & _). assert (c' = c) as -> by congruence. rewrite <- E. rewrite Forall_lookup in Hsort. by eapply Hsort.
  - intros g c e Hg. by apply elem_of_nil in Hg.
Qed.

Lemma log_newest_first_witness :
  exists m, stream_sources demo_sources (merge_options false None 1) = Some m /\
  StronglySorted (fun g h => (gr_ordering h <= gr_ordering g)%Z) (emitted_groups (mg_out m)) /\ length (emitted_groups (mg_out m)) = 3.
Proof.
  destruct (log_newest_first [lit "a"; lit "b"] demo_sources None 1) as (m & Em & H).
  - by apply (bool_decide_unpack _).
  - apply demo_about.
  - repeat constructor; vm_compute; congruence.
  - exists m. split; [exact Em|]. split; [exact H|]. revert Em. clear. vm_compute. by intros [= <-].
Defined.
