(* ===== verification/LogAggregate.v ===== *)
(** The outcome of a log per repository and as a whole
    (src/src/operation/commit_log/aggregate.rs), collected while the merge
    emits, and the bound on concurrent reads (merge.rs). *)

From S2P Require Export BTreeMap LogOrder.

#[local] Set Default Proof Using "Type".

(** ** The collector *)

Inductive CommitLogMemberOutcomeKind : Type := OutcomeEmpty | OutcomeContributed | OutcomeDegraded | OutcomeFailed.

#[global] Instance outcome_kind_eq_dec : EqDecision CommitLogMemberOutcomeKind.
Proof. solve_decision. Defined.

Record CommitLogMemberOutcome : Type := mkCommitLogMemberOutcome {
  oc_target : CommitLogTarget;
  oc_kind : CommitLogMemberOutcomeKind;
}.

(** The statuses of a response that a log can have. *)
Inductive AggregateStatus : Type := AggregateOk | AggregatePartial | AggregateFailed.

Record CommitLogAggregate : Type := mkCommitLogAggregate {
  ag_outcomes : list CommitLogMemberOutcome;
  ag_status : AggregateStatus;
}.

Record CommitLogAggregateCollector : Type := mkCollector {
  co_outcomes : list CommitLogMemberOutcome;
  co_index : BTreeMap str nat;
  co_strict : bool;
  co_degradation_seen : bool;
}.

(** A target listed twice is found at its last place. *)
Definition collector_new (targets : list CommitLogTarget) (strict : bool) : CommitLogAggregateCollector :=
  mkCollector ((fun target => mkCommitLogMemberOutcome target OutcomeEmpty) <$> targets)
    (foldl (fun index '(place, target) => bt_insert index (ct_member_id target) place) bt_empty (zip (seq 0 (length targets)) targets))
    strict false.

Definition is_read_failure (kind : CommitLogDegradationKind) : bool :=
  match kind with UnsupportedSourceKind | RepositoryUnreadable | HistoryUnreadable => true | _ => false end.

(** [self.outcomes[self.index[id]]] with its kind replaced; an id that was not
    listed panics. *)
Definition update_outcome (c : CommitLogAggregateCollector) (id : str)
    (f : CommitLogMemberOutcomeKind -> CommitLogMemberOutcomeKind) : option CommitLogAggregateCollector :=
  place ← bt_get (co_index c) id;
  outcome ← co_outcomes c !! place;
  Some (mkCollector (<[place := mkCommitLogMemberOutcome (oc_target outcome) (f (oc_kind outcome))]> (co_outcomes c))
          (co_index c) (co_strict c) (co_degradation_seen c)).

Fixpoint observe_entries (entries : list CommitLogEntry) (c : CommitLogAggregateCollector) : option CommitLogAggregateCollector :=
  match entries with
  | [] => Some c
  | e :: entries =>
      c ← update_outcome c (member_of e) (fun kind => if bool_decide (kind = OutcomeEmpty) then OutcomeContributed else kind);
      observe_entries entries c
  end.

Definition observe_group (g : CommitLogGroup) := observe_entries (gr_entries g).

Definition observe_degradation (record : CommitLogDegradation) (c : CommitLogAggregateCollector) : option CommitLogAggregateCollector :=
  let kind := if is_read_failure (dg_kind record) then OutcomeFailed else OutcomeDegraded in
  update_outcome (mkCollector (co_outcomes c) (co_index c) (co_strict c) true) (ct_member_id (dg_target record))
    (fun old => if bool_decide (old = OutcomeFailed) then old else kind).

Definition finish_aggregate (c : CommitLogAggregateCollector) : CommitLogAggregate :=
  let any_failed := existsb (fun o => bool_decide (oc_kind o = OutcomeFailed)) (co_outcomes c) in
  let any_contributed := existsb (fun o => bool_decide (oc_kind o = OutcomeContributed)) (co_outcomes c) in
  mkCommitLogAggregate (co_outcomes c)
    (if co_strict c && co_degradation_seen c then AggregateFailed
     else if any_failed && any_contributed then AggregatePartial
     else if any_failed then AggregateFailed
     else AggregateOk).

Definition observe (event : CommitLogMergedEvent) : CommitLogAggregateCollector -> option CommitLogAggregateCollector :=
  match event with MergedGroup g => observe_group g | MergedDegradation record => observe_degradation record end.

Fixpoint observe_all (events : Events) (c : CommitLogAggregateCollector) : option CommitLogAggregateCollector :=
  match events with [] => Some c | event :: events => c ← observe event c; observe_all events c end.

(** [stream_request_histories]: what was emitted and the aggregate; the
    collector observes each event before it is passed on. *)
Definition stream_request_histories (targets : list CommitLogTarget) (sources : list (list CommitLogEvent))
    (options : CommitLogMergeOptions) (strict : bool) : option (Events * CommitLogAggregate) :=
  m ← stream_sources sources options;
  c ← observe_all (mg_out m) (collector_new targets strict);
  Some (mg_out m, finish_aggregate c).

(** ** What is collected *)

(** The outcome of a repository, from its degradations and entries. *)
Definition outcome_of (records : list CommitLogDegradation) (entries : list CommitLogEntry) : CommitLogMemberOutcomeKind :=
  if existsb (fun d => is_read_failure (dg_kind d)) records then OutcomeFailed
  else match records, entries with
       | _ :: _, _ => OutcomeDegraded
       | [], _ :: _ => OutcomeContributed
       | [], [] => OutcomeEmpty
       end.

Lemma outcome_entry records entries e :
  outcome_of records (entries ++ [e]) =
  let kind := outcome_of records entries in if bool_decide (kind = OutcomeEmpty) then OutcomeContributed else kind.
Proof. unfold outcome_of. destruct (existsb _ records); [done|]. destruct records; [|done]. by destruct entries. Qed.

Lemma outcome_record records entries d :
  outcome_of (records ++ [d]) entries =
  let old := outcome_of records entries in
  if bool_decide (old = OutcomeFailed) then old else if is_read_failure (dg_kind d) then OutcomeFailed else OutcomeDegraded.
Proof.
  unfold outcome_of. rewrite existsb_app. cbn. destruct (existsb _ records); [done|]. cbn. rewrite orb_false_r. destruct (is_read_failure (dg_kind d)); destruct records; try done; by destruct entries.
Qed.

Section collecting.
Context (targets : list CommitLogTarget) (strict : bool).
Hypothesis Hdistinct : NoDup (ct_member_id <$> targets).

Definition expected (records : list CommitLogDegradation) (entries : list CommitLogEntry) : list CommitLogMemberOutcome :=
  (fun target => let id := ct_member_id target in mkCommitLogMemberOutcome target (outcome_of (records_of id records) (of_member id entries))) <$> targets.

Definition collected (records : list CommitLogDegradation) (entries : list CommitLogEntry) : CommitLogAggregateCollector :=
  mkCollector (expected records entries) (co_index (collector_new targets strict)) strict (negb (length records =? 0)).

Lemma index_other (l : list (nat * CommitLogTarget)) index id : id ∉ (ct_member_id ∘ snd <$> l) ->
  bt_get (foldl (fun index '(place, target) => bt_insert index (ct_member_id target) place) index l) id = bt_get index id.
Proof.
  revert index. induction l as [|[place target] l IH]; intros index; [done|]. rewrite fmap_cons, not_elem_of_cons. intros [H1 H2]. cbn [foldl].
  rewrite IH by done. by apply bt_get_insert_ne.
Qed.

Lemma index_found (l : list (nat * CommitLogTarget)) index place target : NoDup (ct_member_id ∘ snd <$> l) -> (place, target) ∈ l ->
  bt_get (foldl (fun index '(place, target) => bt_insert index (ct_member_id target) place) index l) (ct_member_id target) = Some place.
Proof.
  revert index. induction l as [|[place' target'] l IH]; intros index; [by intros _ ?%elem_of_nil|]. rewrite fmap_cons, NoDup_cons. intros [H1 H2] Hin. cbn [foldl].
  apply elem_of_cons in Hin as [[= <- <-]|Hin]; [|by apply IH]. rewrite index_other by done. apply bt_get_insert_eq.
Qed.

Lemma index_spec i target : targets !! i = Some target -> bt_get (co_index (collector_new targets strict)) (ct_member_id target) = Some i.
Proof using Hdistinct.
  intros Hi. cbn [collector_new co_index]. apply index_found; [|by apply lookup_enumerated].
  rewrite list_fmap_compose. change (fmap snd) with (fmap (M := list) (@snd nat CommitLogTarget)). rewrite snd_zip by (by rewrite length_seq). done.
Qed.

Lemma fmap_update {A B} (f f' : A -> B) (l : list A) i x : l !! i = Some x -> (forall j y, l !! j = Some y -> j <> i -> f y = f' y) ->
  <[i := f' x]> (f <$> l) = f' <$> l.
Proof.
  intros Hi H. apply list_eq. intros j. destruct (decide (j = i)) as [->|Hne].
  - rewrite list_lookup_insert_eq by (rewrite length_fmap; by eapply lookup_lt_Some). rewrite list_lookup_fmap, Hi. done.
  - rewrite list_lookup_insert_ne by done. rewrite !list_lookup_fmap. destruct (l !! j) as [y|] eqn:E; [|done]. cbn. f_equal. by eapply H.
Qed.

Lemma update_collected c id f (outcome : CommitLogTarget -> CommitLogMemberOutcomeKind) (outcome' : CommitLogTarget -> CommitLogMemberOutcomeKind) :
  co_outcomes c = (fun t => mkCommitLogMemberOutcome t (outcome t)) <$> targets -> co_index c = co_index (collector_new targets strict) ->
  id ∈ ct_member_id <$> targets ->
  (forall t, t ∈ targets -> outcome' t = if bool_decide (ct_member_id t = id) then f (outcome t) else outcome t) ->
  update_outcome c id f = Some (mkCollector ((fun t => mkCommitLogMemberOutcome t (outcome' t)) <$> targets) (co_index c) (co_strict c) (co_degradation_seen c)).
Proof using Hdistinct.
  intros Eo Ei (target & -> & [i Hi]%list_elem_of_lookup)%list_elem_of_fmap Hf. unfold update_outcome. rewrite Ei, (index_spec i target Hi). cbn [mbind option_bind].
  rewrite Eo, list_lookup_fmap, Hi. cbn. do 2 f_equal.
  pose proof (Hf target (list_elem_of_lookup_2 _ _ _ Hi)) as Et. rewrite bool_decide_true in Et by done. rewrite <- Et.
  apply (fmap_update (fun t => mkCommitLogMemberOutcome t (outcome t)) (fun t => mkCommitLogMemberOutcome t (outcome' t)) targets i target Hi).
  intros j t Hj Hne. f_equal. rewrite (Hf t) by (by eapply list_elem_of_lookup_2). rewrite bool_decide_false; [done|]. intros E. apply Hne.
  apply (NoDup_lookup _ j i (ct_member_id t) Hdistinct); rewrite list_lookup_fmap; [by rewrite Hj|rewrite Hi]. cbn [fmap option_fmap option_map]. by rewrite E.
Qed.

Lemma observe_entry records entries e : member_of e ∈ ct_member_id <$> targets ->
  update_outcome (collected records entries) (member_of e) (fun kind => if bool_decide (kind = OutcomeEmpty) then OutcomeContributed else kind) =
  Some (collected records (entries ++ [e])).
Proof using Hdistinct.
  intros He. rewrite (update_collected (collected records entries) _ _
    (fun t => outcome_of (records_of (ct_member_id t) records) (of_member (ct_member_id t) entries))
    (fun t => outcome_of (records_of (ct_member_id t) records) (of_member (ct_member_id t) (entries ++ [e]))) eq_refl eq_refl He); [done|].
  intros t _. rewrite of_member_app. unfold of_member at 2. cbn [List.filter]. destruct (decide (member_of e = ct_member_id t)) as [E|E].
  - rewrite (bool_decide_true (member_of e = _)), (bool_decide_true (_ = member_of e)) by done. by rewrite outcome_entry.
  - rewrite (bool_decide_false (member_of e = _)), (bool_decide_false (_ = member_of e)) by congruence. by rewrite app_nil_r.
Qed.

Lemma observe_entries_collected records entries es : Forall (fun e => member_of e ∈ ct_member_id <$> targets) es ->
  observe_entries es (collected records entries) = Some (collected records (entries ++ es)).
Proof using Hdistinct.
  intros H. revert entries. induction H as [|e es He _ IH]; intros entries; cbn [observe_entries]; [by rewrite app_nil_r|].
  rewrite observe_entry by done. cbn [mbind option_bind]. rewrite IH. by rewrite <- app_assoc.
Qed.

Lemma observe_record_collected records entries d : ct_member_id (dg_target d) ∈ ct_member_id <$> targets ->
  observe_degradation d (collected records entries) = Some (collected (records ++ [d]) entries).
Proof using Hdistinct.
  intros Hd. unfold observe_degradation.
  rewrite (update_collected (mkCollector (expected records entries) (co_index (collector_new targets strict)) strict true) _ _
    (fun t => outcome_of (records_of (ct_member_id t) records) (of_member (ct_member_id t) entries))
    (fun t => outcome_of (records_of (ct_member_id t) (records ++ [d])) (of_member (ct_member_id t) entries)) eq_refl eq_refl Hd).
  - unfold collected, expected. cbn. by rewrite length_app, Nat.add_comm.
  - intros t _. unfold records_of at 1. rewrite List.filter_app. cbn [List.filter]. destruct (decide (ct_member_id (dg_target d) = ct_member_id t)) as [E|E].
    + rewrite (bool_decide_true (ct_member_id (dg_target d) = _)), (bool_decide_true (_ = ct_member_id (dg_target d))) by done. by rewrite outcome_record.
    + rewrite (bool_decide_false (ct_member_id (dg_target d) = _)), (bool_decide_false (_ = ct_member_id (dg_target d))) by congruence. by rewrite app_nil_r.
Qed.

(** Every event is about a listed repository. *)
Definition listed (event : CommitLogMergedEvent) : Prop :=
  match event with
  | MergedGroup g => Forall (fun e => member_of e ∈ ct_member_id <$> targets) (gr_entries g)
  | MergedDegradation d => ct_member_id (dg_target d) ∈ ct_member_id <$> targets
  end.

Lemma observe_all_collected events records entries : Forall listed events ->
  observe_all events (collected records entries) =
  Some (collected (records ++ emitted_records events) (entries ++ (emitted_groups events ≫= gr_entries))).
Proof using Hdistinct.
  intros H. revert records entries. induction H as [|event events He _ IH]; intros records entries; cbn [observe_all]; [by rewrite !app_nil_r|].
  destruct event as [g|d]; cbn [observe listed] in *.
  - unfold observe_group. rewrite observe_entries_collected by done. cbn [mbind option_bind]. rewrite IH, <- app_assoc. done.
  - rewrite observe_record_collected by done. cbn [mbind option_bind]. rewrite IH, <- app_assoc. done.
Qed.

End collecting.

Lemma collector_new_collected targets strict : collector_new targets strict = collected targets strict [] [].
Proof. done. Qed.

Lemma listed_emitted targets out :
  Forall (fun e => member_of e ∈ ct_member_id <$> targets) (emitted_groups out ≫= gr_entries) ->
  Forall (fun d => ct_member_id (dg_target d) ∈ ct_member_id <$> targets) (emitted_records out) -> Forall (listed targets) out.
Proof.
  induction out as [|event out IH]; intros He Hr; [constructor|]. destruct event as [g|d].
  - change (emitted_groups (MergedGroup g :: out) ≫= gr_entries) with (gr_entries g ++ (emitted_groups out ≫= gr_entries)) in He.
    apply Forall_app in He as [H1 H2]. constructor; [done|by apply IH].
  - change (emitted_records (MergedDegradation d :: out)) with (d :: emitted_records out) in Hr. apply Forall_cons in Hr as [H1 H2].
    constructor; [done|by apply IH].
Qed.

Lemma outcome_failed records entries : outcome_of records entries = OutcomeFailed <-> exists d, d ∈ records /\ is_read_failure (dg_kind d) = true.
Proof.
  rewrite <- existsb_elem. unfold outcome_of. destruct (existsb _ records); [done|]. split; [|done]. by destruct records, entries.
Qed.

Lemma elem_records_of id d records : d ∈ records_of id records <-> d ∈ records /\ ct_member_id (dg_target d) = id.
Proof. unfold records_of. rewrite list_elem_of_In, List.filter_In, <- list_elem_of_In, bool_decide_eq_true. done. Qed.

(** The status is [AggregateOk] when nothing failed to be read and, in strict
    mode, nothing was degraded. *)
Lemma status_ok targets strict records entries :
  Forall (fun d => ct_member_id (dg_target d) ∈ ct_member_id <$> targets) records ->
  ag_status (finish_aggregate (collected targets strict records entries)) = AggregateOk <->
  (forall d, d ∈ records -> is_read_failure (dg_kind d) = false) /\ (strict = true -> records = []).
Proof.
  intros Hl. assert (Hfailed : existsb (fun o => bool_decide (oc_kind o = OutcomeFailed)) (expected targets records entries) = existsb (fun d => is_read_failure (dg_kind d)) records).
  { apply eq_bool_prop_intro. rewrite !Is_true_true, !existsb_elem. split.
    - intros (o & (t & -> & _)%list_elem_of_fmap & (d & [Hd _]%elem_records_of & Hf)%bool_decide_eq_true%outcome_failed). eauto.
    - intros (d & Hd & Hf). rewrite Forall_forall in Hl. destruct (proj1 (list_elem_of_fmap _ _ _) (Hl d Hd)) as (t & Et & Ht). eexists. split; [apply list_elem_of_fmap; eauto|].
      apply bool_decide_eq_true, outcome_failed. exists d. split; [by apply elem_records_of|done]. }
  assert (Hnone : existsb (fun d => is_read_failure (dg_kind d)) records = false <-> forall d, d ∈ records -> is_read_failure (dg_kind d) = false).
  { rewrite <- not_true_iff_false, existsb_elem. split; [intros H d Hd; apply not_true_iff_false; eauto|intros H (d & Hd & E); by rewrite (H d Hd) in E]. }
  unfold finish_aggregate. cbn [ag_status collected co_strict co_degradation_seen co_outcomes]. rewrite Hfailed, <- Hnone.
  destruct strict, records; cbn [andb length Nat.eqb negb]; try (split; [done|]; by intros [_ H]; specialize (H eq_refl));
    destruct (existsb (fun d => is_read_failure (dg_kind d)) _); try destruct (existsb (fun o => bool_decide (oc_kind o = OutcomeContributed)) _); naive_solver.
Qed.

(** The stream ends, and what it collected is what it emitted. *)
Lemma stream_request_collected targets sources options strict :
  NoDup (ct_member_id <$> targets) -> Forall2 (fun t source => Forall (about (ct_member_id t)) source) targets sources ->
  exists m, stream_sources sources options = Some m /\ merge_ok (ct_member_id <$> targets) sources options m /\ ended options m /\
  stream_request_histories targets sources options strict =
  Some (mg_out m, finish_aggregate (collected targets strict (emitted_records (mg_out m)) (emitted_groups (mg_out m) ≫= gr_entries))).
Proof.
  intros Hnd Hab. assert (Hab' : Forall2 (fun id source => Forall (about id) source) (ct_member_id <$> targets) sources) by (by rewrite Forall2_fmap_l).
  destruct (stream_sources_ok _ sources options Hnd Hab') as (m & Em & Hok & Hend). exists m. split_and!; [done..|].
  unfold stream_request_histories. rewrite Em. cbn [mbind option_bind].
  assert (Hent : Forall (fun e => member_of e ∈ ct_member_id <$> targets) (emitted_groups (mg_out m) ≫= gr_entries)).
  { apply Forall_bind. eapply Forall_impl; [exact (mk_good _ _ _ _ Hok)|]. by intros g (_ & _ & H). }
  pose proof (listed_emitted targets (mg_out m) Hent (mk_records _ _ _ _ Hok)) as Hlisted. by rewrite collector_new_collected, observe_all_collected.
Qed.

(** C35: a log reports each repository's outcome exactly: failed when some of
    its history could not be read, else degraded when something else was
    noted, else contributed when it shows entries, else empty; when the
    limit was not reached this is the outcome of its whole history. The log
    as a whole is ok exactly when nothing failed and, in strict mode,
    nothing was degraded. *)
Theorem log_outcomes_exact targets sources options strict :
  NoDup (ct_member_id <$> targets) -> Forall2 (fun t source => Forall (about (ct_member_id t)) source) targets sources ->
  exists out aggregate, stream_request_histories targets sources options strict = Some (out, aggregate) /\
  (forall i t source, targets !! i = Some t -> sources !! i = Some source ->
     exists kind, ag_outcomes aggregate !! i = Some (mkCommitLogMemberOutcome t kind) /\
       kind = outcome_of (noted (ct_member_id t) out) (shown (ct_member_id t) out) /\
       (mo_max_entries options <> Some (length (emitted_groups out)) -> kind = outcome_of (degradations_of source) (entries_of source))) /\
  length (ag_outcomes aggregate) = length targets /\
  (ag_status aggregate = AggregateOk <->
   (forall d, d ∈ emitted_records out -> is_read_failure (dg_kind d) = false) /\ (strict = true -> emitted_records out = [])).
Proof.
  intros Hnd Hab. destruct (stream_request_collected targets sources options strict Hnd Hab) as (m & Em & Hok & Hend & E).
  eexists _, _. split; [exact E|]. split_and!.
  - intros i t source Ht Hs. eexists. split; [unfold finish_aggregate, collected, expected; cbn [ag_outcomes co_outcomes]; by rewrite list_lookup_fmap, Ht|].
    split; [done|]. intros Hlim. destruct (nothing_left options m _ sources i (ct_member_id t) source Hok Hend Hlim) as [E1 E2]; [by rewrite list_lookup_fmap, Ht|done|].
    unfold noted, shown in E1, E2. by rewrite E1, E2.
  - unfold finish_aggregate, collected, expected. cbn [ag_outcomes co_outcomes]. by rewrite length_fmap.
  - apply status_ok. exact (mk_records _ _ _ _ Hok).
Qed.

Definition demo_targets : list CommitLogTarget :=
  [mkCommitLogTarget (lit "a") (lit "a") SourceGit; mkCommitLogTarget (lit "b") (lit "b") SourceGit].

Lemma log_outcomes_exact_witness :
  exists out aggregate, stream_request_histories demo_targets demo_sources (merge_options true None 4) false = Some (out, aggregate) /\
  ag_outcomes aggregate !! 1 = Some (mkCommitLogMemberOutcome (mkCommitLogTarget (lit "b") (lit "b") SourceGit) OutcomeFailed).
Proof.
  destruct (log_outcomes_exact demo_targets demo_sources (merge_options true None 4) false) as (out & aggregate & E & H & _).
  - by apply (bool_decide_unpack _).
  - repeat constructor.
  - exists out, aggregate. split; [exact E|]. destruct (H 1 _ _ eq_refl eq_refl) as (kind & Ek & _ & Hk). rewrite Ek. rewrite (Hk ltac:(done)). done.
Defined.

(** ** Concurrent reads *)

Record ReadBudgetState : Type := mkReadBudgetState { rb_available : nat; rb_active : nat; rb_max_active : nat }.

Definition budget_new (limit : nat) : ReadBudgetState := mkReadBudgetState (Nat.max limit 1) 0 0.

(** [acquire] returns when a permit is available; until then it waits. *)
Definition budget_acquire (b : ReadBudgetState) : option ReadBudgetState :=
  match rb_available b with
  | 0 => None
  | S available => Some (mkReadBudgetState available (S (rb_active b)) (Nat.max (rb_max_active b) (S (rb_active b))))
  end.

(** The drop of a permit. *)
Definition budget_release (b : ReadBudgetState) : ReadBudgetState :=
  mkReadBudgetState (S (rb_available b)) (pred (rb_active b)) (rb_max_active b).

(** Any threads that acquire and release permits. *)
Inductive budget_step : ReadBudgetState -> ReadBudgetState -> Prop :=
| step_acquire b b' : budget_acquire b = Some b' -> budget_step b b'
| step_release b : 0 < rb_active b -> budget_step b (budget_release b).

(** However the readers interleave, never more than the limit read at once,
    and what is reported as the most is no more. *)
Lemma budget_bounded limit b : rtc budget_step (budget_new limit) b ->
  rb_active b + rb_available b = Nat.max limit 1 /\ rb_active b <= rb_max_active b <= Nat.max limit 1.
Proof.
  intros H. remember (budget_new limit) as b0 eqn:E. assert (Hinv : rb_active b0 + rb_available b0 = Nat.max limit 1 /\ rb_active b0 <= rb_max_active b0 <= Nat.max limit 1).
  { subst b0. cbn. lia. }
  clear E. induction H as [|b0 b1 b2 Hs _ IH]; [done|]. apply IH. destruct Hs as [b b' Ha|b Ha].
  - unfold budget_acquire in Ha. destruct (rb_available b) eqn:Ea; [done|]. injection Ha as <-. cbn. lia.
  - cbn. lia.
Qed.
