(* ===== verification/Utf8.v ===== *)
(** Decoding UTF-8 as Rust's standard library does: [str::from_utf8] and
    [String::from_utf8_lossy], the way byte strings of unknown origin become
    text. The decoder reads one maximal well-formed or ill-formed piece at a
    time; an ill-formed piece becomes one replacement character. *)

From S2P Require Export RustText.

#[local] Set Default Proof Using "Type".

Definition REPLACEMENT : N := 65533.

Definition within (a b x : N) : bool := ((a <=? x) && (x <=? b))%N.
Definition is_cont (b : N) : bool := within 128 191 b.

(** [core::str::utf8_char_width]. *)
Definition utf8_char_width (b : N) : nat :=
  if within 0 127 b then 1
  else if within 194 223 b then 2
  else if within 224 239 b then 3
  else if within 240 244 b then 4
  else 0.

(** The second byte a three-byte or four-byte lead admits: no overlong form, no
    surrogate, nothing past U+10FFFF. *)
Definition second_ok (b c : N) : bool :=
  if (b =? 224)%N then within 160 191 c
  else if (b =? 237)%N then within 128 159 c
  else if (b =? 240)%N then within 144 191 c
  else if (b =? 244)%N then within 128 143 c
  else is_cont c.

(** The first piece of a byte string and the rest: a character, or [None] for
    an ill-formed piece. *)
Definition next_char (s : list N) : option (option N * list N) :=
  match s with
  | [] => None
  | b :: s1 =>
      Some match utf8_char_width b with
      | 1 => (Some b, s1)
      | 2 =>
          match s1 with
          | c :: s2 => if is_cont c then (Some ((b - 192) * 64 + (c - 128))%N, s2) else (None, s1)
          | [] => (None, s1)
          end
      | 3 =>
          match s1 with
          | c :: s2 =>
              if second_ok b c then
                match s2 with
                | d :: s3 =>
                    if is_cont d then (Some (((b - 224) * 64 + (c - 128)) * 64 + (d - 128))%N, s3) else (None, s2)
                | [] => (None, s2)
                end
              else (None, s1)
          | [] => (None, s1)
          end
      | 4 =>
          match s1 with
          | c :: s2 =>
              if second_ok b c then
                match s2 with
                | d :: s3 =>
                    if is_cont d then
                      match s3 with
                      | e :: s4 =>
                          if is_cont e
                          then (Some ((((b - 240) * 64 + (c - 128)) * 64 + (d - 128)) * 64 + (e - 128))%N, s4)
                          else (None, s3)
                      | [] => (None, s3)
                      end
                    else (None, s2)
                | [] => (None, s2)
                end
              else (None, s1)
          | [] => (None, s1)
          end
      | _ => (None, s1)
      end
  end.

(** The pieces of a byte string; every piece takes a byte, so the length is
    fuel enough. *)
Fixpoint pieces (fuel : nat) (s : list N) : list (option N) :=
  match fuel, next_char s with
  | S fuel, Some (piece, rest) => piece :: pieces fuel rest
  | _, _ => []
  end.

Definition utf8_chunks (s : list N) : list (option N) := pieces (length s) s.

(** [str::from_utf8(..).is_ok()]. *)
Definition is_utf8 (s : list N) : bool := forallb (fun piece => bool_decide (is_Some piece)) (utf8_chunks s).

(** [String::from_utf8_lossy]. *)
Definition from_utf8_lossy (s : list N) : str := default REPLACEMENT <$> utf8_chunks s.

(** ** The decoder inverts the encoder *)

Lemma is_cont_spec b : is_cont b = true <-> (128 <= b <= 191)%N.
Proof. unfold is_cont, within. rewrite andb_true_iff, !N.leb_le. lia. Qed.

Lemma second_ok_cont b c : second_ok b c = true -> is_cont c = true.
Proof.
  rewrite is_cont_spec. unfold second_ok, is_cont, within. repeat case_match; rewrite andb_true_iff, !N.leb_le; lia.
Qed.

(** Decides the byte tests of a goal by the bounds in the context. *)
Ltac byte_tests :=
  unfold utf8_char_width, second_ok, is_cont, within in *;
  repeat match goal with
  | |- context [(?u <=? ?v)%N] => destruct (N.leb_spec u v); try (exfalso; lia); cbn [andb]
  | |- context [(?u =? ?v)%N] => destruct (N.eqb_spec u v); try (exfalso; lia)
  end.

Lemma next_char_utf8 c rest : is_scalar c = true -> next_char (utf8_char c ++ rest) = Some (Some c, rest).
Proof.
  intros Hc. assert ((c < 55296 \/ 57344 <= c <= 1114111)%N) as Hc'.
  { unfold is_scalar in Hc. rewrite orb_true_iff, andb_true_iff, N.ltb_lt, !N.leb_le in Hc. lia. }
  clear Hc. unfold utf8_char.
  replace (c / 4096)%N with (c / 64 / 64)%N by by rewrite N.Div0.div_div.
  replace (c / 262144)%N with (c / 64 / 64 / 64)%N by by rewrite !N.Div0.div_div.
  destruct (base64_digits c) as (x1 & x0 & -> & -> & ? & ?).
  destruct (base64_digits x1) as (x2 & r1 & -> & -> & ? & ?).
  destruct (base64_digits x2) as (x3 & r2 & -> & -> & ? & ?).
  destruct (N.ltb_spec c 128); [|destruct (N.ltb_spec c 2048); [|destruct (N.ltb_spec c 65536)]]; cbn [app next_char];
    byte_tests; do 3 f_equal; lia.
Qed.

Lemma next_char_shrinks s piece rest : next_char s = Some (piece, rest) -> length rest < length s.
Proof. intros H. unfold next_char in H. repeat case_match; simplify_eq; cbn [length]; lia. Qed.

Lemma digit64 q r : (r < 64)%N -> ((64 * q + r) / 64 = q /\ (64 * q + r) mod 64 = r)%N.
Proof.
  intros Hr. rewrite (N.mul_comm 64 q). split; [rewrite N.div_add_l by lia; rewrite N.div_small; lia|].
  rewrite N.add_comm, N.Div0.mod_add. by apply N.mod_small.
Qed.

(** Two bytes and up: the digits of the character are the payloads of the
    bytes. *)
Lemma utf8_char_digits c x1 x2 x3 r0 r1 r2 :
  c = (64 * x1 + r0)%N -> x1 = (64 * x2 + r1)%N -> x2 = (64 * x3 + r2)%N -> (r0 < 64)%N -> (r1 < 64)%N -> (r2 < 64)%N ->
  utf8_char c =
    if (c <? 128)%N then [c]
    else if (c <? 2048)%N then [192 + x1; 128 + r0]%N
    else if (c <? 65536)%N then [224 + x2; 128 + r1; 128 + r0]%N
    else [240 + x3; 128 + r2; 128 + r1; 128 + r0]%N.
Proof.
  intros -> -> -> H0 H1 H2. unfold utf8_char.
  replace (4096)%N with (64 * 64)%N by done. replace (262144)%N with (64 * 64 * 64)%N by done.
  rewrite <- !N.Div0.div_div.
  rewrite !(proj1 (digit64 _ r0 H0)), !(proj2 (digit64 _ r0 H0)), !(proj1 (digit64 _ r1 H1)), !(proj2 (digit64 _ r1 H1)).
  by rewrite !(proj1 (digit64 _ r2 H2)), !(proj2 (digit64 _ r2 H2)).
Qed.

Lemma width_bounds b :
  match utf8_char_width b with
  | 1 => (b <= 127)%N | 2 => (194 <= b <= 223)%N | 3 => (224 <= b <= 239)%N | 4 => (240 <= b <= 244)%N | _ => True
  end.
Proof. byte_tests; lia. Qed.

Lemma second_bounds b c :
  second_ok b c = true ->
  (128 <= c <= 191 /\ (b = 224 -> 160 <= c) /\ (b = 237 -> c <= 159) /\ (b = 240 -> 144 <= c) /\ (b = 244 -> c <= 143))%N.
Proof.
  unfold second_ok, is_cont, within.
  repeat match goal with |- context [(?u =? ?v)%N] => destruct (N.eqb_spec u v) end; rewrite andb_true_iff, !N.leb_le; lia.
Qed.

Lemma is_scalar_spec c : is_scalar c = true <-> (c < 55296 \/ 57344 <= c <= 1114111)%N.
Proof. unfold is_scalar. rewrite orb_true_iff, andb_true_iff, N.ltb_lt, !N.leb_le. lia. Qed.

(** Closes the case of one width: the character's digits are [x1], [x2], [x3]
    and the payloads given. *)
Ltac one_width c x1 x2 x3 r0 r1 r2 :=
  rewrite (utf8_char_digits c x1 x2 x3 r0 r1 r2) by lia; rewrite is_scalar_spec;
  repeat match goal with |- context [(?u <? ?v)%N] => destruct (N.ltb_spec u v); try (exfalso; lia) end;
  split; [lia|cbn [app]; repeat (apply (f_equal2 cons); [lia|]); done].

Lemma next_char_sound s c rest :
  next_char s = Some (Some c, rest) -> is_scalar c = true /\ s = utf8_char c ++ rest.
Proof.
  destruct s as [|b s1]; [done|]. cbn [next_char]. pose proof (width_bounds b) as Hw. intros H.
  destruct (utf8_char_width b) as [|[|[|[|[|?]]]]]; [simplify_eq| | | | |simplify_eq].
  - injection H as <- <-. rewrite is_scalar_spec. unfold utf8_char. destruct (N.ltb_spec b 128); [|lia]. split; [lia|done].
  - destruct s1 as [|x s2]; [simplify_eq|]. destruct (is_cont x) eqn:Ex; [|simplify_eq]. rewrite is_cont_spec in Ex.
    injection H as H <-. one_width c (b - 192)%N 0%N 0%N (x - 128)%N (b - 192)%N 0%N.
  - destruct s1 as [|x s2]; [simplify_eq|]. destruct (second_ok b x) eqn:Ex; [|simplify_eq]. apply second_bounds in Ex.
    destruct s2 as [|y s3]; [simplify_eq|]. destruct (is_cont y) eqn:Ey; [|simplify_eq]. rewrite is_cont_spec in Ey.
    injection H as H <-.
    one_width c ((b - 224) * 64 + (x - 128))%N (b - 224)%N 0%N (y - 128)%N (x - 128)%N (b - 224)%N.
  - destruct s1 as [|x s2]; [simplify_eq|]. destruct (second_ok b x) eqn:Ex; [|simplify_eq]. apply second_bounds in Ex.
    destruct s2 as [|y s3]; [simplify_eq|]. destruct (is_cont y) eqn:Ey; [|simplify_eq]. rewrite is_cont_spec in Ey.
    destruct s3 as [|z s4]; [simplify_eq|]. destruct (is_cont z) eqn:Ez; [|simplify_eq]. rewrite is_cont_spec in Ez.
    injection H as H <-.
    one_width c (((b - 240) * 64 + (x - 128)) * 64 + (y - 128))%N ((b - 240) * 64 + (x - 128))%N (b - 240)%N (z - 128)%N (y - 128)%N (x - 128)%N.
Qed.

Lemma pieces_fuel fuel s : length s <= fuel -> pieces fuel s = utf8_chunks s.
Proof.
  unfold utf8_chunks. revert s. induction fuel as [fuel IH] using lt_wf_ind. intros s Hl.
  destruct (next_char s) as [[piece rest]|] eqn:E.
  - pose proof (next_char_shrinks _ _ _ E). destruct fuel as [|fuel]; [lia|]. destruct (length s) as [|n] eqn:En; [lia|].
    cbn [pieces]. rewrite E. f_equal. rewrite (IH fuel) by lia. destruct (decide (n < S fuel)) as [|]; [|lia].
    symmetry. apply IH; lia.
  - destruct fuel, (length s); cbn [pieces]; by rewrite ?E.
Qed.

Lemma chunks_step s :
  utf8_chunks s = match next_char s with Some (piece, rest) => piece :: utf8_chunks rest | None => [] end.
Proof.
  rewrite <- (pieces_fuel (S (length s))) by lia. cbn [pieces]. destruct (next_char s) as [[piece rest]|] eqn:E; [|done].
  f_equal. apply pieces_fuel. pose proof (next_char_shrinks _ _ _ E). lia.
Qed.

(** Text survives: encoded characters are decoded to themselves. *)
Lemma chunks_utf8 t : Forall (fun c => is_scalar c = true) t -> utf8_chunks (utf8 t) = Some <$> t.
Proof.
  induction 1 as [|c t Hc Ht IH]; [done|]. rewrite chunks_step. unfold utf8. cbn [fmap list_fmap mjoin list_join].
  rewrite next_char_utf8 by done. f_equal. apply IH.
Qed.

Lemma chunks_sound s : is_utf8 s = true -> exists t, Forall (fun c => is_scalar c = true) t /\ s = utf8 t /\ utf8_chunks s = Some <$> t.
Proof.
  unfold is_utf8. induction s as [s IH] using (induction_ltof1 _ length). unfold ltof in IH. rewrite chunks_step.
  destruct (next_char s) as [[[c|] rest]|] eqn:E; cbn [forallb]; [|rewrite bool_decide_eq_false_2 by (by intros [? [=]]); done|].
  - intros [_ H]%andb_true_iff. destruct (next_char_sound _ _ _ E) as [Hc ->].
    destruct (IH rest) as (t & Ht & -> & Ec); [rewrite length_app; unfold utf8_char; repeat case_match; cbn [length]; lia|done|].
    exists (c :: t). split_and!; [by constructor|done|]. by rewrite Ec.
  - intros _. exists []. destruct s; [done|]. by cbn [next_char] in E.
Qed.

(** [from_utf8] accepts exactly the encodings of text. *)
Lemma is_utf8_spec s : is_utf8 s = true <-> exists t, Forall (fun c => is_scalar c = true) t /\ s = utf8 t.
Proof.
  split; [intros (t & Ht & Hs & _)%chunks_sound; by exists t|]. intros (t & Ht & ->). unfold is_utf8. rewrite chunks_utf8 by done.
  apply forallb_forall. intros x Hx. apply list_elem_of_In, list_elem_of_fmap in Hx as (c & -> & _). by apply bool_decide_eq_true_2.
Qed.

(** Text decoded without loss encodes to the bytes there were. *)
Lemma lossless s : is_utf8 s = true -> utf8 (from_utf8_lossy s) = s.
Proof.
  intros (t & Ht & -> & E)%chunks_sound. unfold from_utf8_lossy. rewrite E. f_equal. rewrite <- list_fmap_compose.
  apply list_fmap_id.
Qed.

(** What the decoder returns is text, whatever the bytes. *)
Lemma lossy_scalar s : Forall (fun c => is_scalar c = true) (from_utf8_lossy s).
Proof.
  unfold from_utf8_lossy. induction s as [s IH] using (induction_ltof1 _ length). unfold ltof in IH. rewrite chunks_step.
  destruct (next_char s) as [[piece rest]|] eqn:E; [|constructor]. cbn [fmap list_fmap]. constructor.
  - destruct piece as [c|]; [|done]. exact (proj1 (next_char_sound _ _ _ E)).
  - apply IH. exact (next_char_shrinks _ _ _ E).
Qed.
