(* ===== verification/LogSpool.v ===== *)
(** The spool a log's records are kept in until they are read
    (src/src/operation/commit_log/handler.rs): a temporary file of records,
    each behind its length in eight bytes, appended to while the log runs and
    read from any record boundary once it is sealed. How a record is encoded
    is the protocol's and a parameter here. *)

From S2P Require Export RustText.

#[local] Set Default Proof Using "Type".

Abbreviation bytes := (list N).

Inductive ErrorCode : Type := IoError | InternalError | InvalidRequest.

Record ModelError : Type := mkModelError { me_code : ErrorCode; me_message : str }.

Definition DEFAULT_READ_RECORDS : nat := 128.
Definition MAX_READ_RECORDS : nat := 1024.
Definition RECORD_PREFIX_BYTES : N := 8.

Record CommitLogReadRequest : Type := mkReadRequest { rq_cursor : option N; rq_max_records : option N }.

Inductive CommitLogReadState : Type := ReadData | ReadEof.

Record CommitLogReadResponse (R : Type) : Type := mkReadResponse {
  rr_records : list R;
  rr_next_cursor : N;
  rr_state : CommitLogReadState;
}.
Arguments mkReadResponse {R}.
Arguments rr_records {R}.
Arguments rr_next_cursor {R}.
Arguments rr_state {R}.

Record OutputSpool : Type := mkOutputSpool { sp_file : bytes; sp_length : N; sp_sealed : bool }.

Definition spool_new : OutputSpool := mkOutputSpool [] 0 false.

Definition spool_io_error (text : str) : ModelError := mkModelError IoError text.
Definition spool_decode_error (text : str) : ModelError :=
  mkModelError InternalError (lit "commit-log output spool is corrupt: " ++ text).
Definition corrupt_spool : ModelError := mkModelError InternalError (lit "commit-log output spool is corrupt").
Definition invalid_cursor (cursor : N) : ModelError :=
  mkModelError InvalidRequest (lit "invalid commit-log output cursor " ++ show_N cursor).

(** Bytes written at a position of a file, which grows where they pass its
    end. *)
Definition write_at (file : bytes) (position : nat) (data : bytes) : bytes :=
  take position file ++ replicate (position - length file) 0%N ++ data ++ drop (position + length data) file.

(** [seek] and [read_exact]. *)
Definition read_exact (file : bytes) (position count : N) : result bytes ModelError :=
  let data := take (N.to_nat count) (drop (N.to_nat position) file) in
  if length data =? N.to_nat count then Ok data else Err (spool_io_error (lit "failed to fill whole buffer")).

(** What a reader does: reads follow the cursors until the end is reported. *)
Fixpoint drain {R} (read : CommitLogReadRequest -> result (CommitLogReadResponse R) ModelError) (reads : nat) (max_records : option N)
    (cursor : option N) : result (list R) ModelError :=
  match reads with
  | 0 => Ok []
  | S reads =>
      let? response := read (mkReadRequest cursor max_records) in
      match rr_state response with
      | ReadEof => Ok (rr_records response)
      | ReadData => let? more := drain read reads max_records (Some (rr_next_cursor response)) in Ok (rr_records response ++ more)
      end
  end.

(** ** Operations *)

Section spool.
Context {R : Type} (encode : R -> bytes) (decode : bytes -> result R str).

Definition frame (record : R) : bytes :=
  to_be_bytes (N.to_nat RECORD_PREFIX_BYTES) (N.of_nat (length (encode record))) ++ encode record.

(** [append]: [io] says whether the file's calls fail, after how many bytes and
    with what error. *)
Definition append (io : option (nat * str)) (record : R) (sp : OutputSpool) : OutputSpool * result unit ModelError :=
  if sp_sealed sp then (sp, Err (mkModelError InternalError (lit "commit-log output spool is already sealed")))
  else
    let position := N.to_nat (sp_length sp) in
    match io with
    | Some (count, error) =>
        (mkOutputSpool (write_at (sp_file sp) position (take count (frame record))) (sp_length sp) false, Err (spool_io_error error))
    | None =>
        let file := write_at (sp_file sp) position (frame record) in
        match (value ← checked_add (sp_length sp) RECORD_PREFIX_BYTES; checked_add value (N.of_nat (length (encode record)))) with
        | Some value => (mkOutputSpool file value false, Ok tt)
        | None => (mkOutputSpool file (sp_length sp) false, Err (mkModelError InternalError (lit "commit-log spool length overflow")))
        end
    end.

(** [seal]: [io] is the error of the flush, when it fails. *)
Definition seal (io : option str) (sp : OutputSpool) : OutputSpool * result unit ModelError :=
  match io with
  | Some error => (sp, Err (spool_io_error error))
  | None => (mkOutputSpool (sp_file sp) (sp_length sp) true, Ok tt)
  end.

Definition read_length (sp : OutputSpool) (position : N) : result N ModelError :=
  if match checked_add position RECORD_PREFIX_BYTES with None => true | Some stop => (sp_length sp <? stop)%N end
  then Err corrupt_spool
  else let? data := read_exact (sp_file sp) position RECORD_PREFIX_BYTES in Ok (from_be_bytes data).

Definition within_spool (sp : OutputSpool) (stop : option N) : result N ModelError :=
  match stop with
  | Some value => if (value <=? sp_length sp)%N then Ok value else Err corrupt_spool
  | None => Err corrupt_spool
  end.

Definition skip_payload (sp : OutputSpool) (position : N) : result N ModelError :=
  let? payload_len := read_length sp position in
  within_spool sp (value ← checked_add position RECORD_PREFIX_BYTES; checked_add value payload_len).

(** [read_payload]: the payload and the position behind it. *)
Definition read_payload (sp : OutputSpool) (position : N) : result (bytes * N) ModelError :=
  let? payload_len := read_length sp position in
  match checked_add position RECORD_PREFIX_BYTES with
  | None => Err corrupt_spool
  | Some payload_start =>
      let? payload_end := within_spool sp (checked_add payload_start payload_len) in
      let? payload := read_exact (sp_file sp) payload_start payload_len in
      Ok (payload, payload_end)
  end.

(** The loop of [validate_cursor]. A payload skipped moves the position by at
    least eight, so the cursor itself is fuel enough. *)
Fixpoint seek_cursor (fuel : nat) (sp : OutputSpool) (cursor position : N) : result unit ModelError :=
  if (position <? cursor)%N then
    match fuel with
    | 0 => Err (invalid_cursor cursor)
    | S fuel =>
        let? position := skip_payload sp position in
        if (cursor <? position)%N then Err (invalid_cursor cursor) else seek_cursor fuel sp cursor position
    end
  else if (position =? cursor)%N then Ok tt else Err (invalid_cursor cursor).

Definition validate_cursor (sp : OutputSpool) (cursor : N) : result unit ModelError :=
  if (sp_length sp <? cursor)%N then Err (invalid_cursor cursor) else seek_cursor (N.to_nat cursor) sp cursor 0.

(** The loop of [read]: at most [limit] records. *)
Fixpoint read_records (limit : nat) (sp : OutputSpool) (position : N) : result (list R * N) ModelError :=
  match limit with
  | 0 => Ok ([], position)
  | S limit =>
      if (position <? sp_length sp)%N then
        let? got := read_payload sp position in
        let? record := map_err spool_decode_error (decode got.1) in
        let? more := read_records limit sp got.2 in
        Ok (record :: more.1, more.2)
      else Ok ([], position)
  end.

Definition read_limit (max_records : option N) : result nat ModelError :=
  let? limit :=
    match max_records with
    | None => Ok (N.of_nat DEFAULT_READ_RECORDS)
    | Some 0%N => Err (mkModelError InvalidRequest (lit "commit-log read max_records must be positive"))
    | Some value => Ok value
    end in
  if (N.of_nat MAX_READ_RECORDS <? limit)%N
  then Err (mkModelError InvalidRequest (lit "commit-log read max_records cannot exceed " ++ show_N (N.of_nat MAX_READ_RECORDS)))
  else Ok (N.to_nat limit).

Definition read (sp : OutputSpool) (request : CommitLogReadRequest) : result (CommitLogReadResponse R) ModelError :=
  if negb (sp_sealed sp) then Err (mkModelError InternalError (lit "commit-log output spool is not sealed"))
  else
    let? limit := read_limit (rq_max_records request) in
    let cursor := default 0%N (rq_cursor request) in
    check? validate_cursor sp cursor in
    if (cursor =? sp_length sp)%N then Ok (mkReadResponse [] cursor ReadEof)
    else
      let? got := read_records limit sp cursor in
      Ok (mkReadResponse got.1 got.2 ReadData).

(** ** A spool and the records it holds *)

Definition frames (records : list R) : bytes := records ≫= frame.
Definition offset (records : list R) (k : nat) : N := N.of_nat (length (frames (take k records))).

Record spooled (records : list R) (sp : OutputSpool) : Prop := mkSpooled {
  so_file : exists rest, sp_file sp = frames records ++ rest;
  so_length : sp_length sp = N.of_nat (length (frames records));
  so_bound : (sp_length sp <= u64_max)%N;
}.

Lemma frames_app a b : frames (a ++ b) = frames a ++ frames b.
Proof. apply bind_app. Qed.

Lemma frames_snoc records r : frames (records ++ [r]) = frames records ++ frame r.
Proof. rewrite frames_app. f_equal. unfold frames. cbn [mbind list_bind]. apply app_nil_r. Qed.

Lemma length_frame r : length (frame r) = 8 + length (encode r).
Proof. unfold frame. rewrite length_app, length_to_be_bytes. done. Qed.

Lemma spool_new_spooled : spooled [] spool_new.
Proof. split; [by exists []|done|done]. Qed.

Lemma write_at_end (a rest data : bytes) : exists rest', write_at (a ++ rest) (length a) data = a ++ data ++ rest'.
Proof.
  unfold write_at. rewrite take_app_length, length_app. replace (length a - (length a + length rest)) with 0 by lia. by eexists.
Qed.

(** An append that succeeds adds its record; one that fails, however far its
    write came, leaves what the spool holds. *)
Lemma append_spooled io r records sp sp' result : spooled records sp -> append io r sp = (sp', result) ->
  match result with Ok _ => spooled (records ++ [r]) sp' | Err _ => spooled records sp' end /\ sp_sealed sp' = sp_sealed sp.
Proof.
  intros [[rest Hf] Hl Hb] H. unfold append in H. destruct (sp_sealed sp) eqn:Es; [injection H as <- <-; by split; [split; eauto|]|].
  rewrite Hf, Hl, Nat2N.id in H. destruct io as [[count error]|].
  - destruct (write_at_end (frames records) rest (take count (frame r))) as [rest' E]. rewrite E in H. injection H as <- <-.
    split; [|done]. split; cbn [sp_file sp_length]; [by eexists|done|by rewrite <- Hl].
  - destruct (write_at_end (frames records) rest (frame r)) as [rest' E]. rewrite E in H.
    destruct (value ← _; checked_add value _) as [value|] eqn:Ec; injection H as <- <-; (split; [|done]);
      [|split; cbn [sp_file sp_length]; [by eexists|done|by rewrite <- Hl]].
    unfold checked_add in Ec. destruct (N.leb_spec (N.of_nat (length (frames records)) + RECORD_PREFIX_BYTES) usize_max); [|done].
    cbn [mbind option_bind] in Ec. case_match; [|done]. injection Ec as <-.
    split; cbn [sp_file sp_length]; rewrite ?frames_snoc; [exists rest'; by rewrite <- app_assoc| |by apply N.leb_le].
    rewrite length_app, length_frame. unfold RECORD_PREFIX_BYTES. lia.
Qed.
(** With room in the length, a write that succeeds is an append that does. *)
Lemma append_room r records sp : spooled records sp -> sp_sealed sp = false -> (N.of_nat (length (frames (records ++ [r]))) <= u64_max)%N ->
  exists sp', append None r sp = (sp', Ok tt).
Proof.
  intros [_ Hl _] Hs Hb. unfold append. rewrite Hs, Hl. rewrite frames_snoc, length_app, length_frame in Hb. unfold checked_add, usize_max, RECORD_PREFIX_BYTES.
  rewrite (proj2 (N.leb_le _ _)) by lia. cbn [mbind option_bind]. rewrite (proj2 (N.leb_le _ _)) by lia. by eexists.
Qed.

Lemma read_exact_at (a d b : bytes) : read_exact (a ++ d ++ b) (N.of_nat (length a)) (N.of_nat (length d)) = Ok d.
Proof. unfold read_exact. by rewrite !Nat2N.id, drop_app_length, take_app_length, Nat.eqb_refl. Qed.

Lemma offset_0 records : offset records 0 = 0%N.
Proof. done. Qed.

Lemma offset_end records k : length records <= k -> offset records k = N.of_nat (length (frames records)).
Proof. intros H. unfold offset. by rewrite take_ge. Qed.

Lemma offset_S records j r : records !! j = Some r -> offset records (S j) = (offset records j + 8 + N.of_nat (length (encode r)))%N.
Proof.
  intros H. unfold offset. rewrite (take_S_r _ _ r H), frames_snoc, length_app, length_frame. lia.
Qed.

Lemma offset_mono records j k : j <= k -> (offset records j <= offset records k)%N.
Proof.
  intros H. unfold offset. assert (take j records = take j (take k records)) as -> by (by rewrite take_take, Nat.min_l).
  rewrite <- (take_drop j (take k records)) at 2. rewrite frames_app, length_app. lia.
Qed.

Lemma offset_lt records j k : j < k -> j < length records -> (offset records j < offset records k)%N.
Proof.
  intros Hjk [r Hr]%lookup_lt_is_Some_2. pose proof (offset_S records j r Hr). pose proof (offset_mono records (S j) k Hjk). lia.
Qed.

Section reading.
Context (records : list R) (sp : OutputSpool) (Hsp : spooled records sp).

Lemma offset_within k : (offset records k <= sp_length sp <= u64_max)%N.
Proof using Hsp.
  destruct Hsp as [_ Hl Hb]. split; [|done]. rewrite Hl, <- (offset_end records (length records)) by done.
  destruct (decide (k <= length records)) as [|Hk]; [by apply offset_mono|]. by rewrite !offset_end by lia.
Qed.

(** What stands at the boundary before a record. *)
Lemma file_at j r : records !! j = Some r -> exists rest,
  sp_file sp = frames (take j records) ++ to_be_bytes 8 (N.of_nat (length (encode r))) ++ encode r ++ rest.
Proof using Hsp.
  intros Hr. destruct Hsp as [[rest Hf] _ _]. exists (frames (drop (S j) records) ++ rest).
  rewrite Hf, <- (take_drop_middle records j r Hr) at 1. rewrite frames_app, <- app_assoc. f_equal.
  change (frames (r :: drop (S j) records)) with (frame r ++ frames (drop (S j) records)). unfold frame. by rewrite <- !app_assoc.
Qed.

Lemma checked_offset j r : records !! j = Some r ->
  checked_add (offset records j) RECORD_PREFIX_BYTES = Some (offset records j + 8)%N /\
  checked_add (offset records j + 8) (N.of_nat (length (encode r))) = Some (offset records (S j)) /\
  (N.of_nat (length (encode r)) < 256 ^ N.of_nat 8)%N.
Proof using Hsp.
  intros Hr. pose proof (offset_S records j r Hr) as E. pose proof (offset_within (S j)) as H. unfold checked_add, usize_max, RECORD_PREFIX_BYTES.
  rewrite E in *. change (256 ^ N.of_nat 8)%N with (u64_max + 1)%N. rewrite !(proj2 (N.leb_le _ _)) by lia. split_and!; [done..|lia].
Qed.

Lemma read_length_at j r : records !! j = Some r -> read_length sp (offset records j) = Ok (N.of_nat (length (encode r))).
Proof using Hsp.
  intros Hr. destruct (checked_offset j r Hr) as (E1 & _ & Hlt). destruct (file_at j r Hr) as [rest Hf].
  unfold read_length. rewrite E1. pose proof (offset_S records j r Hr) as E. pose proof (offset_within (S j)) as H.
  rewrite (proj2 (N.ltb_ge _ _)) by lia. rewrite Hf.
  pose proof (read_exact_at (frames (take j records)) (to_be_bytes 8 (N.of_nat (length (encode r)))) (encode r ++ rest)) as Er.
  rewrite length_to_be_bytes in Er. change (N.of_nat 8) with RECORD_PREFIX_BYTES in Er. unfold offset. rewrite Er. cbn [rbind].
  by rewrite from_to_be_bytes.
Qed.

Lemma within_next j : within_spool sp (Some (offset records j)) = Ok (offset records j).
Proof using Hsp. cbn [within_spool]. by rewrite (proj2 (N.leb_le _ _)) by apply offset_within. Qed.

Lemma skip_at j r : records !! j = Some r -> skip_payload sp (offset records j) = Ok (offset records (S j)).
Proof using Hsp.
  intros Hr. destruct (checked_offset j r Hr) as (E1 & E2 & _). unfold skip_payload. rewrite (read_length_at j r Hr). cbn [rbind].
  rewrite E1. cbn [mbind option_bind]. rewrite E2. apply within_next.
Qed.

Lemma read_at j r : records !! j = Some r -> read_payload sp (offset records j) = Ok (encode r, offset records (S j)).
Proof using Hsp.
  intros Hr. destruct (checked_offset j r Hr) as (E1 & E2 & _). destruct (file_at j r Hr) as [rest Hf].
  unfold read_payload. rewrite (read_length_at j r Hr). cbn [rbind]. rewrite E1, E2, within_next. cbn [rbind].
  pose proof (read_exact_at (frames (take j records) ++ to_be_bytes 8 (N.of_nat (length (encode r)))) (encode r) rest) as Er.
  rewrite <- app_assoc, <- Hf, length_app, length_to_be_bytes in Er.
  replace (N.of_nat (length (frames (take j records)) + 8)) with (offset records j + 8)%N in Er by (unfold offset; lia).
  by rewrite Er.
Qed.

(** The search for a cursor finds the boundaries and nothing else. *)
Lemma seek_found fuel j k : j <= k <= length records -> N.to_nat (offset records k - offset records j) <= fuel ->
  seek_cursor fuel sp (offset records k) (offset records j) = Ok tt.
Proof using Hsp.
  revert j. induction fuel as [|fuel IH]; intros j Hj Hf; cbn [seek_cursor];
    (destruct (N.ltb_spec (offset records j) (offset records k)) as [Hlt|Hge];
      [|pose proof (offset_mono records j k ltac:(lia)); by rewrite (proj2 (N.eqb_eq _ _)) by lia]); [lia|].
  assert (j < k) as Hjk by (destruct (decide (j < k)); [done|]; replace k with j in Hlt by lia; lia).
  destruct (lookup_lt_is_Some_2 records j ltac:(lia)) as [r Hr]. rewrite (skip_at j r Hr). cbn [rbind].
  pose proof (offset_mono records (S j) k Hjk). rewrite (proj2 (N.ltb_ge _ _)) by lia.
  pose proof (offset_S records j r Hr). apply IH; lia.
Qed.

Lemma seek_refused fuel j cursor : (forall k, cursor <> offset records k) -> (offset records j < cursor <= sp_length sp)%N ->
  seek_cursor fuel sp cursor (offset records j) = Err (invalid_cursor cursor).
Proof using Hsp.
  intros Hno. revert j. induction fuel as [|fuel IH]; intros j Hj; cbn [seek_cursor]; rewrite (proj2 (N.ltb_lt _ _)) by lia; [done|].
  assert (j < length records) as Hl.
  { destruct (decide (j < length records)) as [|Hge]; [done|]. rewrite offset_end in Hj by lia. destruct Hsp as [_ Hl _]. lia. }
  destruct (lookup_lt_is_Some_2 records j Hl) as [r Hr]. rewrite (skip_at j r Hr). cbn [rbind].
  destruct (N.ltb_spec cursor (offset records (S j))) as [|Hge]; [done|]. apply IH. specialize (Hno (S j)). lia.
Qed.

Lemma validate_found k : k <= length records -> validate_cursor sp (offset records k) = Ok tt.
Proof using Hsp.
  intros Hk. unfold validate_cursor. pose proof (offset_within k). rewrite (proj2 (N.ltb_ge _ _)) by lia.
  apply (seek_found _ 0 k); [lia|]. rewrite offset_0. lia.
Qed.

Lemma validate_refused cursor : (forall k, cursor <> offset records k) -> validate_cursor sp cursor = Err (invalid_cursor cursor).
Proof using Hsp.
  intros Hno. unfold validate_cursor. destruct (N.ltb_spec (sp_length sp) cursor); [done|].
  apply (seek_refused _ 0); [done|]. specialize (Hno 0). rewrite offset_0 in *. lia.
Qed.

Context (decode_encode : forall r, decode (encode r) = Ok r).

Lemma read_records_at limit k : k <= length records ->
  read_records limit sp (offset records k) = Ok (take limit (drop k records), offset records (k + limit)).
Proof using Hsp decode_encode.
  revert k. induction limit as [|limit IH]; intros k Hk; cbn [read_records]; [by rewrite take_0, Nat.add_0_r|].
  destruct (records !! k) as [r|] eqn:Hr.
  - pose proof (lookup_lt_Some _ _ _ Hr). pose proof (offset_S records k r Hr). pose proof (offset_within (S k)).
    rewrite (proj2 (N.ltb_lt _ _)) by lia. rewrite (read_at k r Hr). cbn [rbind fst snd]. rewrite decode_encode. cbn [map_err rbind].
    rewrite IH by lia. cbn [rbind fst snd]. rewrite (drop_S _ r k Hr). cbn [take]. by rewrite Nat.add_succ_r.
  - apply lookup_ge_None in Hr. assert (offset records k = sp_length sp) as E by (rewrite offset_end by done; by destruct Hsp).
    rewrite (proj2 (N.ltb_ge _ _)) by lia. rewrite drop_ge by done. rewrite !offset_end by lia. done.
Qed.

(** A read of a sealed spool, on every cursor and limit. *)
Lemma read_exactly cursor max_records limit : sp_sealed sp = true -> read_limit max_records = Ok limit ->
  (forall k, k <= length records -> default 0%N cursor = offset records k ->
     read sp (mkReadRequest cursor max_records) =
     Ok (if k =? length records then mkReadResponse [] (offset records k) ReadEof
         else mkReadResponse (take limit (drop k records)) (offset records (k + limit)) ReadData)) /\
  ((forall k, default 0%N cursor <> offset records k) ->
     read sp (mkReadRequest cursor max_records) = Err (invalid_cursor (default 0%N cursor))).
Proof using Hsp decode_encode.
  intros Hs Hlim. unfold read. rewrite Hs. cbn [negb rq_cursor rq_max_records]. rewrite Hlim. cbn [rbind]. split.
  - intros k Hk ->. rewrite validate_found by done. cbn [rbind]. assert (sp_length sp = offset records (length records)) as El by (rewrite offset_end by done; by destruct Hsp).
    rewrite El. destruct (Nat.eqb_spec k (length records)) as [->|Hne]; [by rewrite N.eqb_refl|].
    pose proof (offset_lt records k (length records) ltac:(lia) ltac:(lia)). rewrite (proj2 (N.eqb_neq _ _)) by lia.
    by rewrite read_records_at.
  - intros Hno. by rewrite validate_refused.
Qed.

Lemma drain_from reads max_records limit cursor k : sp_sealed sp = true -> read_limit max_records = Ok limit -> 0 < limit -> k <= length records ->
  default 0%N cursor = offset records k -> length records - k < reads -> drain (read sp) reads max_records cursor = Ok (drop k records).
Proof using Hsp decode_encode.
  intros Hs Hlim Hpos. revert cursor k. induction reads as [|reads IH]; intros cursor k Hk Hc Hr; [lia|]. cbn [drain].
  rewrite (proj1 (read_exactly cursor max_records limit Hs Hlim) k Hk Hc). cbn [rbind].
  destruct (Nat.eqb_spec k (length records)) as [->|Hne]; cbn [rr_state rr_records rr_next_cursor]; [by rewrite drop_all|].
  destruct (decide (k + limit <= length records)) as [Hin|Hout].
  - rewrite (IH _ (k + limit)) by (done || lia). cbn [rbind]. by rewrite <- drop_drop, take_drop.
  - rewrite (IH _ (length records)); [|done|cbn; by rewrite !offset_end by lia|lia]. cbn [rbind]. rewrite drop_all, app_nil_r, take_ge; [done|].
    rewrite length_drop. lia.
Qed.
End reading.

Lemma read_limit_spec max_records limit : read_limit max_records = Ok limit -> 0 < limit <= MAX_READ_RECORDS.
Proof.
  unfold read_limit. destruct max_records as [[|p]|]; cbn [rbind]; [done| |].
  2: { change (Ok 128 = @Ok nat ModelError limit -> 0 < limit <= MAX_READ_RECORDS). intros H. assert (limit = 128) as -> by congruence. unfold MAX_READ_RECORDS. lia. }
  destruct (N.ltb_spec (N.of_nat MAX_READ_RECORDS) (N.pos p)); [done|]. intros E. assert (limit = N.to_nat (N.pos p)) as -> by congruence. lia.
Qed.
End spool.
