(* ===== verification/LogOutput.v ===== *)
(** A log request from its histories to the records its caller reads
    (src/src/operation/commit_log/handler.rs): how a group of commits becomes
    a record, the registry of spools, and the handler that merges, spools and
    seals. The requests' options are resolved as merge.rs and resolve_jobs.rs
    do. *)

From S2P Require Export LogAggregate Utf8 LogSpool.

#[local] Set Default Proof Using "Type".

(** ** Options *)

(** The fields of the protocol's options that the handler reads. *)
Record LogOptions : Type := mkLogOptions {
  lo_max_entries : option Z;
  lo_since : option str;
  lo_until : option str;
  lo_coalesce : option bool;
  lo_include_body : option bool;
}.

Definition DEFAULT_JOBS : nat := 100.

Definition resolve_jobs (requested : option Z) : nat :=
  match requested with
  | Some jobs => if (1 <=? jobs)%Z then Z.to_nat jobs else DEFAULT_JOBS
  | None => DEFAULT_JOBS
  end.

Definition effective_max_entries (options : option LogOptions) (has_explicit_range : bool) : option nat :=
  match options ≫= lo_max_entries with
  | Some max_entries => if (0 <? max_entries)%Z then Some (Z.to_nat max_entries) else None
  | None =>
      if has_explicit_range || match options with
         | Some options => bool_decide (is_Some (lo_since options)) || bool_decide (is_Some (lo_until options))
         | None => false
         end
      then None else Some DEFAULT_MAX_ENTRIES
  end.

Definition from_request (options : option LogOptions) (concurrency : option Z) (has_explicit_range : bool) : CommitLogMergeOptions :=
  merge_options (default true (options ≫= lo_coalesce)) (effective_max_entries options has_explicit_range) (resolve_jobs concurrency).

(** ** Records *)

Inductive LogMergeKind : Type := KindNone | KindMarker | KindHeuristic.

Inductive LogDegradationReason : Type :=
| ReasonRepositoryUnreadable
| ReasonRepositoryMissing
| ReasonUnborn
| ReasonRevisionUnresolved
| ReasonSnapshotEntryMissing
| ReasonLockEntryMissing
| ReasonUnsupportedSourceKind.

Record GitObjectIdentity : Type := mkGitObjectIdentity {
  gi_name : str;
  gi_email : str;
  gi_time_ms : option Z;
  gi_timezone_offset_minutes : option Z;
}.

Record LogEntryMember : Type := mkLogEntryMember {
  lm_member_id : str;
  lm_member_path : str;
  lm_source_kind : option ArtifactSourceKind;
  lm_commit : str;
  lm_parents : list str;
}.

Record LogMergeProvenance : Type := mkLogMergeProvenance { lp_kind : LogMergeKind; lp_gwz_commit_id : option str }.

Record LogEntryRecord : Type := mkLogEntryRecord {
  le_members : list LogEntryMember;
  le_provenance : LogMergeProvenance;
  le_author : GitObjectIdentity;
  le_committer : GitObjectIdentity;
  le_subject : str;
  le_body : option str;
  le_ordering_timestamp_ms : option Z;
  le_author_timestamp_seconds : Z;
  le_committer_timestamp_seconds : Z;
  le_ordering_timestamp_seconds : Z;
  le_lossy : option bool;
}.

Record LogDegradationRecord : Type := mkLogDegradationRecord {
  ld_member_id : str;
  ld_member_path : str;
  ld_source_kind : option ArtifactSourceKind;
  ld_reason : LogDegradationReason;
  ld_operand : option str;
  ld_message : option str;
}.

Inductive LogOutputRecordKind : Type := KindEntry | KindDegradation.

Record LogOutputRecord : Type := mkLogOutputRecord {
  lr_kind : LogOutputRecordKind;
  lr_entry : option LogEntryRecord;
  lr_degradation : option LogDegradationRecord;
}.

(** ** Projection *)

(** [slice::sort_by], which is stable. *)
Fixpoint insert_by {A} (compare : A -> A -> comparison) (x : A) (l : list A) : list A :=
  match l with
  | [] => [x]
  | y :: l => match compare x y with Gt => y :: insert_by compare x l | _ => x :: y :: l end
  end.
Definition sort_by {A} (compare : A -> A -> comparison) (l : list A) : list A := foldr (insert_by compare) [] l.

(** [i64::checked_mul]. *)
Definition milliseconds (seconds : Z) : option Z :=
  let product := (seconds * 1000)%Z in
  if ((- 2 ^ 63 <=? product) && (product <? 2 ^ 63))%Z then Some product else None.

Fixpoint split_message (message : bytes) : bytes * option bytes :=
  match message with
  | [] => ([], None)
  | b :: message =>
      if (b =? c_newline)%N then ([], Some message)
      else let '(subject, body) := split_message message in (b :: subject, body)
  end.

Definition project_identity (identity : CommitLogIdentity) : GitObjectIdentity :=
  mkGitObjectIdentity (from_utf8_lossy (id_name identity)) (from_utf8_lossy (id_email identity))
    (milliseconds (tm_seconds (id_time identity))) (Some (tm_offset_minutes (id_time identity))).

Definition project_provenance (provenance : CommitLogProvenance) : LogMergeProvenance :=
  match provenance with
  | NoProvenance => mkLogMergeProvenance KindNone None
  | Heuristic => mkLogMergeProvenance KindHeuristic None
  | Marker marker => mkLogMergeProvenance KindMarker (Some marker)
  | MarkerInvalid => mkLogMergeProvenance KindNone (Some (lit "marker-invalid"))
  end.

Definition project_member (entry : CommitLogEntry) : LogEntryMember :=
  mkLogEntryMember (member_of entry) (ct_member_path (en_target entry)) (Some (ct_source_kind (en_target entry)))
    (en_commit_id entry) (en_parent_ids entry).

Definition by_member (left right : CommitLogEntry) : comparison :=
  compare_pairs (member_of left, en_commit_id left) (member_of right, en_commit_id right).

Definition project_group (g : CommitLogGroup) (include_body : bool) : result LogEntryRecord ModelError :=
  let entries := sort_by by_member (gr_entries g) in
  match entries with
  | [] => Err (mkModelError InternalError (lit "commit-log group is empty"))
  | representative :: _ =>
      let '(subject_bytes, body_bytes) := split_message (en_message representative) in
      let lossy :=
        negb (is_utf8 subject_bytes)
        || include_body && match body_bytes with Some body => negb (is_utf8 body) | None => false end
        || negb (is_utf8 (id_name (en_author representative)))
        || negb (is_utf8 (id_email (en_author representative)))
        || negb (is_utf8 (id_name (en_committer representative)))
        || negb (is_utf8 (id_email (en_committer representative))) in
      Ok (mkLogEntryRecord (project_member <$> entries) (project_provenance (gr_provenance g))
            (project_identity (en_author representative)) (project_identity (en_committer representative))
            (from_utf8_lossy subject_bytes)
            (if include_body
             then body ← from_utf8_lossy <$> body_bytes; if bool_decide (body = []) then None else Some body
             else None)
            (milliseconds (gr_ordering g)) (authored_at representative) (committed_at representative) (gr_ordering g) (Some lossy))
  end.

Definition project_reason (kind : CommitLogDegradationKind) : LogDegradationReason :=
  match kind with
  | UnsupportedSourceKind => ReasonUnsupportedSourceKind
  | RepositoryUnreadable | HistoryUnreadable => ReasonRepositoryUnreadable
  | UnbornHead => ReasonUnborn
  | RevisionUnresolved => ReasonRevisionUnresolved
  | SnapshotEntryMissing => ReasonSnapshotEntryMissing
  | LockEntryMissing => ReasonLockEntryMissing
  end.

Definition project_degradation (record : CommitLogDegradation) : LogDegradationRecord :=
  mkLogDegradationRecord (ct_member_id (dg_target record)) (ct_member_path (dg_target record))
    (Some (ct_source_kind (dg_target record))) (project_reason (dg_kind record)) (dg_operand record) (Some (dg_detail record)).

Definition project_merged_event (event : CommitLogMergedEvent) (include_body : bool) : result LogOutputRecord ModelError :=
  match event with
  | MergedGroup g => let? entry := project_group g include_body in Ok (mkLogOutputRecord KindEntry (Some entry) None)
  | MergedDegradation record => Ok (mkLogOutputRecord KindDegradation None (Some (project_degradation record)))
  end.

(** ** The registry *)

Record CommitLogOutputRegistry : Type := mkRegistry { rg_logs : gmap str OutputSpool; rg_next_id : N }.

Definition registry_new : CommitLogOutputRegistry := mkRegistry ∅ 0.

(** [commitlog_{sequence:012}]. *)
Definition pad_left (width : nat) (s : str) : str := replicate (width - length s) 48%N ++ s.
Definition log_id_of (sequence : N) : str := lit "commitlog_" ++ pad_left 12 (show_N sequence).

(** [create]: [io] is the error of making the temporary file, when that
    fails. *)
Definition create (io : option str) (reg : CommitLogOutputRegistry) : CommitLogOutputRegistry * result (str * OutputSpool) ModelError :=
  match io with
  | Some error => (reg, Err (spool_io_error error))
  | None =>
      let sequence := (rg_next_id reg + 1)%N in
      let log_id := log_id_of sequence in
      (mkRegistry (<[log_id := spool_new]> (rg_logs reg)) sequence, Ok (log_id, spool_new))
  end.

Definition release (log_id : str) (reg : CommitLogOutputRegistry) : CommitLogOutputRegistry :=
  mkRegistry (delete log_id (rg_logs reg)) (rg_next_id reg).

(** The registry's entry is the spool itself: what is done to it is seen
    through the registry. *)
Definition with_spool (log_id : str) (sp : OutputSpool) (reg : CommitLogOutputRegistry) : CommitLogOutputRegistry :=
  mkRegistry (<[log_id := sp]> (rg_logs reg)) (rg_next_id reg).

Section handler.
Context (encode : LogOutputRecord -> bytes) (decode : bytes -> result LogOutputRecord str).

Definition registry_read (reg : CommitLogOutputRegistry) (log_id : str) (request : CommitLogReadRequest)
    : result (CommitLogReadResponse LogOutputRecord) ModelError :=
  match rg_logs reg !! log_id with
  | Some sp => read decode sp request
  | None => Err (mkModelError InvalidRequest (lit "unknown commit-log output log '" ++ log_id ++ lit "'"))
  end.

(** ** The handler *)

(** Which of a run's file calls fail. *)
Record SpoolFaults : Type := mkSpoolFaults {
  sf_create : option str;
  sf_append : nat -> option (nat * str);
  sf_seal : option str;
}.

Record CommitLogHistories : Type := mkHistories {
  hs_targets : list CommitLogTarget;
  hs_sources : list (list CommitLogEvent);
  hs_strict : bool;
  hs_explicit_range : bool;
}.

Record LogResponse : Type := mkLogResponse { lres_status : AggregateStatus; lres_log_id : str }.

(** The handler's closure over a run's events: it spools until something
    fails and then lets the events pass. *)
Fixpoint spool_events (faults : nat -> option (nat * str)) (n : nat) (include_body : bool) (events : Events) (sp : OutputSpool)
    : OutputSpool * option ModelError :=
  match events with
  | [] => (sp, None)
  | event :: events =>
      match project_merged_event event include_body with
      | Err error => (sp, Some error)
      | Ok record =>
          match append encode (faults n) record sp with
          | (sp, Ok _) => spool_events faults (S n) include_body events sp
          | (sp, Err error) => (sp, Some error)
          end
      end
  end.

(** [handle_log], given what opening the request's histories answered. [None]
    is a panic. *)
Definition handle_log (faults : SpoolFaults) (opened : result CommitLogHistories ModelError) (options : option LogOptions)
    (concurrency : option Z) (reg : CommitLogOutputRegistry) : option (CommitLogOutputRegistry * result LogResponse ModelError) :=
  match opened with
  | Err error => Some (reg, Err error)
  | Ok histories =>
      match create (sf_create faults) reg with
      | (reg, Err error) => Some (reg, Err error)
      | (reg, Ok (log_id, sp)) =>
          let include_body := default false (options ≫= lo_include_body) in
          '(events, aggregate) ← stream_request_histories (hs_targets histories) (hs_sources histories)
             (from_request options concurrency (hs_explicit_range histories)) (hs_strict histories);
          let '(sp, emission_error) := spool_events (sf_append faults) 0 include_body events sp in
          let reg := with_spool log_id sp reg in
          Some match emission_error with
          | Some error => (release log_id reg, Err error)
          | None =>
              match seal (sf_seal faults) sp with
              | (sp, Err error) => (release log_id (with_spool log_id sp reg), Err error)
              | (sp, Ok _) => (with_spool log_id sp reg, Ok (mkLogResponse (ag_status aggregate) log_id))
              end
          end
      end
  end.
End handler.
