(* ===== verification/LogOutputProofs.v ===== *)
(** What a log's records say and that its caller reads them all: the
    projection of a group loses nothing it does not flag, and a handled log
    is read back exactly, or leaves no trace. *)

From S2P Require Export LogOutput.

#[local] Set Default Proof Using "Type".

(** ** Sorting *)

Lemma insert_by_perm {A} (compare : A -> A -> comparison) x l : insert_by compare x l ≡ₚ x :: l.
Proof.
  induction l as [|y l IH]; [done|]. cbn [insert_by]. destruct (compare x y); [done|done|]. rewrite IH. constructor.
Qed.

Lemma sort_by_perm {A} (compare : A -> A -> comparison) l : sort_by compare l ≡ₚ l.
Proof. induction l as [|x l IH]; [done|]. cbn. by rewrite insert_by_perm, IH. Qed.

Lemma sort_by_sorted {A} (R : A -> A -> Prop) (compare : A -> A -> comparison) l : Transitive R ->
  (forall x y, match compare x y with Gt => R y x | _ => R x y end) -> StronglySorted R (sort_by compare l).
Proof.
  intros HT HR. induction l as [|x l IH]; [constructor|]. change (sort_by compare (x :: l)) with (insert_by compare x (sort_by compare l)).
  revert IH. generalize (sort_by compare l) as s.
  induction s as [|y s IHs]; intros Hs; cbn [insert_by]; [repeat constructor|].
  apply StronglySorted_inv in Hs as [Hs Hy]. pose proof (HR x y) as Hxy. destruct (compare x y).
  1,2: constructor; [by constructor|]; constructor; [done|]; eapply Forall_impl; [exact Hy|]; intros z; by apply HT.
  constructor; [by apply IHs|]. rewrite insert_by_perm. by constructor.
Qed.

(** Order of members, with ties. *)
Definition member_le (a b : CommitLogEntry) : Prop := lex_ltb (member_of b) (member_of a) = false.

Lemma by_member_le x y : match by_member x y with Gt => member_le y x | _ => member_le x y end.
Proof.
  unfold by_member, compare_pairs, lex_compare, member_le. cbn [fst snd].
  destruct (lex_ltb (member_of x) (member_of y)) eqn:E1; cbn [then_with].
  - destruct (lex_ltb (member_of y) (member_of x)) eqn:E2; [|done].
    pose proof (lex_ltb_trans _ _ _ E1 E2) as E. by rewrite lex_ltb_irrefl in E.
  - destruct (lex_ltb (member_of y) (member_of x)) eqn:E2; cbn [then_with]; [done|]. repeat case_match; done.
Qed.

#[global] Instance member_le_trans : Transitive member_le.
Proof.
  intros a b c Hab Hbc. unfold member_le in *. destruct (lex_ltb (member_of c) (member_of a)) eqn:E; [|done].
  destruct (lex_ltb (member_of a) (member_of b)) eqn:E1; [by rewrite (lex_ltb_trans _ _ _ E E1) in Hbc|].
  by rewrite (lex_ltb_total _ _ E1 Hab), Hbc in E.
Qed.

Definition member_lt (a b : CommitLogEntry) : Prop := lex_ltb (member_of a) (member_of b) = true.

Lemma sorted_strictly l : StronglySorted member_le l -> NoDup (member_of <$> l) -> StronglySorted member_lt l.
Proof.
  induction 1 as [|x l Hs IH Hx]; intros Hn; [constructor|]. cbn in Hn. apply NoDup_cons in Hn as [Hnx Hn]. constructor; [by apply IH|].
  apply Forall_forall. intros y Hy. rewrite Forall_forall in Hx. specialize (Hx y Hy). unfold member_le, member_lt in *.
  destruct (lex_ltb (member_of x) (member_of y)) eqn:E; [done|]. destruct Hnx. apply list_elem_of_fmap. exists y. split; [|done].
  by apply lex_ltb_total.
Qed.

Lemma sort_members l : NoDup (member_of <$> l) -> StronglySorted member_lt (sort_by by_member l).
Proof.
  intros Hn. apply sorted_strictly; [by apply sort_by_sorted; [apply _|apply by_member_le]|]. by rewrite sort_by_perm.
Qed.

(** ** Text *)

Lemma split_message_join message :
  message = match split_message message with (subject, Some body) => subject ++ c_newline :: body | (subject, None) => subject end.
Proof.
  induction message as [|b message IH]; [done|]. cbn [split_message]. destruct (N.eqb_spec b c_newline) as [->|]; [done|].
  destruct (split_message message) as [subject [body|]]; cbn [app]; by rewrite <- IH.
Qed.

Lemma project_provenance_inj p q : project_provenance p = project_provenance q -> p = q.
Proof. destruct p, q; intros [=]; by subst. Qed.

(** ** Records of groups *)

(** The byte strings a record shows as text. *)
Definition shown_texts (include_body : bool) (e : CommitLogEntry) : list bytes :=
  let '(subject, body) := split_message (en_message e) in
  [subject; id_name (en_author e); id_email (en_author e); id_name (en_committer e); id_email (en_committer e)]
  ++ (if include_body then option_list body else []).

(** What a record without loss says of the commit it was made from. *)
Definition tells (include_body : bool) (record : LogEntryRecord) (e : CommitLogEntry) : Prop :=
  utf8 (gi_name (le_author record)) = id_name (en_author e) /\ utf8 (gi_email (le_author record)) = id_email (en_author e) /\
  utf8 (gi_name (le_committer record)) = id_name (en_committer e) /\ utf8 (gi_email (le_committer record)) = id_email (en_committer e) /\
  exists rest, en_message e = utf8 (le_subject record) ++ rest /\
    (include_body = true ->
     match le_body record with Some body => rest = c_newline :: utf8 body | None => rest = [] \/ rest = [c_newline] end).

Lemma lossless_nil body : is_utf8 body = true -> from_utf8_lossy body = [] -> body = [].
Proof. intros H E. rewrite <- (lossless body H), E. done. Qed.

Lemma record_lossy g include_body rep entries record :
  sort_by by_member (gr_entries g) = rep :: entries -> project_group g include_body = Ok record ->
  le_lossy record = Some (negb (forallb is_utf8 (shown_texts include_body rep))) /\
  (forallb is_utf8 (shown_texts include_body rep) = true -> tells include_body record rep).
Proof.
  intros Es. unfold project_group, shown_texts, tells. rewrite Es. pose proof (split_message_join (en_message rep)) as Hj.
  destruct (split_message (en_message rep)) as [subject body]. intros H. injection H as <-. cbn [le_lossy le_author le_committer le_subject le_body project_identity gi_name gi_email]. split.
  - f_equal. rewrite forallb_app, negb_andb. cbn [forallb].
    destruct include_body, body; unfold option_list, option_rect; cbn [forallb andb orb]; repeat destruct (is_utf8 _); done.
  - rewrite forallb_app. cbn [forallb]. rewrite !andb_true_iff. intros [(H1 & H2 & H3 & H4 & H5 & _) Hb]. rewrite !lossless by done. split_and!; [done..|].
    destruct body as [body|].
    + exists (c_newline :: body). split; [done|]. intros ->. unfold option_list, option_rect in Hb; cbn [forallb] in Hb. rewrite andb_true_r in Hb.
      cbn [fmap option_fmap option_map mbind option_bind]. case_bool_decide as E; [right; by rewrite (lossless_nil body Hb E)|]. by rewrite lossless.
    + exists []. split; [by rewrite app_nil_r|]. intros ->. by left.
Qed.


Definition demo_group : CommitLogGroup :=
  finished_group [demo_entry (lit "b") (lit "b1") 95 (lit "one"); demo_entry (lit "a") (lit "a1") 100 (lit "one" ++ [c_newline; 233%N; 160%N])] Heuristic.


(** ** Names of logs *)

(** The number a run of digits spells. *)
Definition decimal (s : str) : N := foldl (fun acc c => acc * 10 + (c - 48))%N 0%N s.

Lemma decimal_zeros n s : decimal (replicate n 48%N ++ s) = decimal s.
Proof. unfold decimal. rewrite foldl_app. f_equal. induction n as [|n IH]; [done|]. exact IH. Qed.

Lemma pretty_char_digit x : (x < 10)%N -> Ascii.N_of_ascii (pretty_N_char x) = (48 + x)%N.
Proof. intros H. assert (x = 0 \/ x = 1 \/ x = 2 \/ x = 3 \/ x = 4 \/ x = 5 \/ x = 6 \/ x = 7 \/ x = 8 \/ x = 9)%N as Hx by lia.
  by repeat destruct Hx as [->|Hx]; subst.
Qed.

Lemma decimal_go x s : foldl (fun acc c => acc * 10 + (c - 48))%N 0%N (lit (pretty_N_go x s)) = foldl (fun acc c => acc * 10 + (c - 48))%N x (lit s).
Proof.
  revert s. induction (N.lt_wf_0 x) as [x _ IH]. intros s. destruct (decide (x = 0)%N) as [->|Hx]; [done|].
  rewrite pretty_N_go_step by lia. rewrite IH by (apply N.div_lt; lia). unfold lit at 1.
  cbn [String.list_ascii_of_string fmap list_fmap foldl]. rewrite pretty_char_digit by (by apply N.mod_lt). unfold lit. f_equal.
  rewrite (N.add_comm 48), N.add_sub, N.mul_comm. symmetry. apply N.div_mod'.
Qed.

Lemma decimal_show n : decimal (show_N n) = n.
Proof.
  unfold decimal, show_N, pretty, pretty_N. destruct (decide (n = 0)%N) as [->|]; [done|]. by rewrite decimal_go.
Qed.

Lemma log_id_inj a b : log_id_of a = log_id_of b -> a = b.
Proof.
  unfold log_id_of, pad_left. intros H%app_inv_head. apply (f_equal decimal) in H. by rewrite !decimal_zeros, !decimal_show in H.
Qed.

(** ** The handler *)

(** The registry holds logs it issued. *)
Definition registry_ok (reg : CommitLogOutputRegistry) : Prop :=
  forall id, is_Some (rg_logs reg !! id) -> exists n, (n <= rg_next_id reg)%N /\ id = log_id_of n.

Lemma fresh_log reg : registry_ok reg -> rg_logs reg !! log_id_of (rg_next_id reg + 1) = None.
Proof.
  intros H. apply eq_None_not_Some. intros (n & Hn & E%log_id_inj)%H. lia.
Qed.

Lemma drain_ext {R} (r1 r2 : CommitLogReadRequest -> result (CommitLogReadResponse R) ModelError) reads max_records cursor :
  (forall request, r1 request = r2 request) -> drain r1 reads max_records cursor = drain r2 reads max_records cursor.
Proof.
  intros E. revert cursor. induction reads as [|reads IH]; intros cursor; [done|]. cbn [drain]. rewrite E.
  destruct (r2 _) as [response|]; cbn [rbind]; [|done]. by rewrite IH.
Qed.

Definition faultless (faults : SpoolFaults) : Prop :=
  sf_create faults = None /\ (forall n, sf_append faults n = None) /\ sf_seal faults = None.

Section handler.
Context (encode : LogOutputRecord -> bytes) (decode : bytes -> result LogOutputRecord str).

Abbreviation projected include_body := (fun event record => project_merged_event event include_body = Ok record).

Lemma spool_events_spec faults include_body events records n earlier sp :
  Forall2 (projected include_body) events records -> spooled encode earlier sp -> sp_sealed sp = false ->
  exists sp' error, spool_events encode faults n include_body events sp = (sp', error) /\ sp_sealed sp' = false /\
  (error = None -> spooled encode (earlier ++ records) sp') /\
  ((forall n, faults n = None) -> (N.of_nat (length (frames encode (earlier ++ records))) <= u64_max)%N -> error = None).
Proof.
  intros Hp. revert n earlier sp. induction Hp as [|event record events records E Hp IH]; intros n earlier sp Hsp Hs; cbn [spool_events].
  - exists sp, None. rewrite app_nil_r. done.
  - rewrite E. destruct (append encode (faults n) record sp) as [sp1 answer] eqn:Ea.
    destruct (append_spooled encode _ _ _ _ _ _ Hsp Ea) as [Hsp1 Hs1]. rewrite Hs in Hs1. destruct answer as [[]|error].
    + destruct (IH (S n) (earlier ++ [record]) sp1 Hsp1 Hs1) as (sp2 & error & E2 & Hs2 & H1 & H2). rewrite <- app_assoc in H1, H2. by exists sp2, error.
    + exists sp1, (Some error). split_and!; [done..|]. intros Hf Hb. exfalso. rewrite Hf in Ea.
      assert (earlier ++ record :: records = (earlier ++ [record]) ++ records) as Er by by rewrite <- app_assoc.
      rewrite Er, frames_app, length_app in Hb. destruct (append_room encode record earlier sp Hsp Hs ltac:(lia)) as [sp2 E2]. congruence.
Qed.

(** Every event of a merge has a record. *)
Lemma projectable ids include_body out : Forall (good ids) (emitted_groups out) -> exists records, Forall2 (projected include_body) out records.
Proof.
  induction out as [|event out IH]; intros H; [by exists []|]. destruct event as [g|d].
  - change (emitted_groups (MergedGroup g :: out)) with (g :: emitted_groups out) in H. apply Forall_cons in H as [[[Hne _] _] H].
    destruct (IH H) as [records Hr]. destruct (project_merged_event (MergedGroup g) include_body) as [record|error] eqn:E.
    + by exists (record :: records); constructor.
    + exfalso. cbn [project_merged_event] in E. unfold project_group in E. pose proof (sort_by_perm by_member (gr_entries g)) as Hp.
      destruct (sort_by by_member (gr_entries g)); [by apply Permutation_nil_l in Hp|]. by destruct (split_message _).
  - destruct (IH H) as [records Hr]. eexists (_ :: records). by constructor.
Qed.

Lemma sealed_log reg id sp records : (forall r, decode (encode r) = Ok r) -> rg_logs reg !! id = Some sp -> spooled encode records sp -> sp_sealed sp = true ->
  (forall max_records limit, read_limit max_records = Ok limit ->
     drain (registry_read decode reg id) (S (length records)) max_records None = Ok records) /\
  (forall cursor max_records limit, read_limit max_records = Ok limit -> (forall k, cursor <> offset encode records k) ->
     registry_read decode reg id (mkReadRequest (Some cursor) max_records) = Err (invalid_cursor cursor)).
Proof.
  intros Hcodec Hid Hsp Hs. assert (forall request, registry_read decode reg id request = read decode sp request) as E.
  { intros request. unfold registry_read. by rewrite Hid. }
  split.
  - intros max_records limit Hl. rewrite (drain_ext _ _ _ _ _ E).
    rewrite (drain_from encode decode records sp Hsp Hcodec _ _ limit None 0); [done|done|done| |lia|done|lia].
    apply read_limit_spec in Hl. lia.
  - intros cursor max_records limit Hl Hno. rewrite E. by apply (read_exactly encode decode records sp Hsp Hcodec (Some cursor) max_records limit).
Qed.

Lemma created_ok reg log_id sp : log_id = log_id_of (rg_next_id reg + 1) -> registry_ok reg ->
  registry_ok (mkRegistry (<[log_id := sp]> (rg_logs reg)) (rg_next_id reg + 1)).
Proof.
  intros -> Hok id Hid. cbn [rg_logs rg_next_id] in *. destruct (decide (id = log_id_of (rg_next_id reg + 1))) as [->|Hne]; [exists (rg_next_id reg + 1)%N; split; [lia|done]|].
  rewrite lookup_insert_ne in Hid by congruence. destruct (Hok id Hid) as (n & Hn & ->). exists n. split; [lia|done].
Qed.

Lemma released_ok reg : registry_ok reg -> registry_ok (mkRegistry (rg_logs reg) (rg_next_id reg + 1)).
Proof. intros Hok id Hid. destruct (Hok id Hid) as (n & Hn & ->). exists n. split; [cbn; lia|done]. Qed.

(** C22: a log that is answered is read back exactly: whatever limit a reader
    sets, following the cursors from the start returns the record of every
    event of the merge, in order and once, and then the end; a cursor that is
    not between two records is refused. The log's name is new and no other
    log is touched. A log that fails leaves no log behind, and one whose file
    calls succeed does not fail. *)
Theorem log_output_exact faults histories options concurrency reg :
  (forall r, decode (encode r) = Ok r) -> registry_ok reg -> NoDup (ct_member_id <$> hs_targets histories) ->
  Forall2 (fun t source => Forall (about (ct_member_id t)) source) (hs_targets histories) (hs_sources histories) ->
  exists reg' answer out aggregate records,
  handle_log encode faults (Ok histories) options concurrency reg = Some (reg', answer) /\ registry_ok reg' /\
  stream_request_histories (hs_targets histories) (hs_sources histories) (from_request options concurrency (hs_explicit_range histories)) (hs_strict histories) = Some (out, aggregate) /\
  Forall2 (fun event record => project_merged_event event (default false (options ≫= lo_include_body)) = Ok record) out records /\
  match answer with
  | Ok response =>
      lres_status response = ag_status aggregate /\ rg_logs reg !! lres_log_id response = None /\
      (forall id, id <> lres_log_id response -> rg_logs reg' !! id = rg_logs reg !! id) /\
      (forall max_records limit, read_limit max_records = Ok limit ->
         drain (registry_read decode reg' (lres_log_id response)) (S (length records)) max_records None = Ok records) /\
      (forall cursor max_records limit, read_limit max_records = Ok limit -> (forall k, cursor <> offset encode records k) ->
         registry_read decode reg' (lres_log_id response) (mkReadRequest (Some cursor) max_records) = Err (invalid_cursor cursor))
  | Err _ => rg_logs reg' = rg_logs reg
  end /\
  (faultless faults -> (N.of_nat (length (frames encode records)) <= u64_max)%N -> exists response, answer = Ok response).
Proof.
  intros Hcodec Hreg Hnd Hab.
  destruct (stream_request_collected _ _ (from_request options concurrency (hs_explicit_range histories)) (hs_strict histories) Hnd Hab) as (m & _ & Hok & _ & E).
  destruct (projectable _ (default false (options ≫= lo_include_body)) (mg_out m) (mk_good _ _ _ _ Hok)) as [records Hr].
  unfold handle_log. destruct faults as [[error|] appends seals]; cbn [create sf_create sf_append sf_seal];
    [eexists reg, _, _, _, records; split_and!; [done|done|exact E|exact Hr|done|by intros [? _]]|].
  pose proof (fresh_log reg Hreg) as Hfresh. set (log_id := log_id_of (rg_next_id reg + 1)) in *.
  destruct (spool_events_spec appends _ _ _ 0 [] spool_new Hr (spool_new_spooled encode) eq_refl) as (sp & error & Es & Hs & H1 & H2). cbn [app] in H1, H2.
  rewrite E. cbn [mbind option_bind]. rewrite Es. destruct error as [error|].
  - eexists _, _, _, _, records. split_and!; [done| |reflexivity|exact Hr| |intros (_ & Hf & _) Hb; by specialize (H2 Hf Hb)].
    + unfold release, with_spool. cbn [rg_logs rg_next_id]. rewrite insert_insert_eq, delete_insert_id by done. by apply released_ok.
    + unfold release, with_spool. cbn [rg_logs rg_next_id]. by rewrite insert_insert_eq, delete_insert_id.
  - specialize (H1 eq_refl). destruct seals as [error|]; cbn [seal].
    + eexists _, _, _, _, records. split_and!; [done| |reflexivity|exact Hr| |by intros (_ & _ & ?)].
      * unfold release, with_spool. cbn [rg_logs rg_next_id]. rewrite !insert_insert_eq, delete_insert_id by done. by apply released_ok.
      * unfold release, with_spool. cbn [rg_logs rg_next_id]. by rewrite !insert_insert_eq, delete_insert_id.
    + eexists _, _, _, _, records. split_and!; [done| |reflexivity|exact Hr| |by intros _ _; eexists].
      * unfold with_spool. cbn [rg_logs rg_next_id]. rewrite !insert_insert_eq. by apply created_ok.
      * cbn [lres_status lres_log_id]. split_and!; [done|done| |..].
        -- intros id Hid. unfold with_spool. cbn [rg_logs]. rewrite !insert_insert_eq. by rewrite lookup_insert_ne.
        -- eapply sealed_log; [done|unfold with_spool; cbn [rg_logs]; by rewrite lookup_insert_eq|split; by destruct H1|done].
        -- eapply sealed_log; [done|unfold with_spool; cbn [rg_logs]; by rewrite lookup_insert_eq|split; by destruct H1|done].
Qed.
End handler.

(** ** A codec that meets the hypothesis *)

(** A prefix code: what was written is read and the rest is left. *)
Record Codec (A : Type) : Type := mkCodec {
  enc : A -> bytes;
  dec : bytes -> option (A * bytes);
  dec_enc : forall a rest, dec (enc a ++ rest) = Some (a, rest);
}.
Arguments enc {A}.
Arguments dec {A}.
Arguments dec_enc {A}.

Definition number_codec : Codec N.
Proof. by refine (mkCodec N (fun n => [n]) (fun b => match b with n :: b => Some (n, b) | [] => None end) _). Defined.

Definition pair_codec {A B} (a : Codec A) (b : Codec B) : Codec (A * B).
Proof.
  refine (mkCodec (A * B) (fun x => enc a x.1 ++ enc b x.2) (fun s => '(x, s) ← dec a s; '(y, s) ← dec b s; Some ((x, y), s)) _).
  intros [x y] rest. cbn [fst snd]. rewrite <- app_assoc, dec_enc. cbn [mbind option_bind]. by rewrite dec_enc.
Defined.

(** A type that embeds in one with a codec. *)
Definition via_codec {A B} (f : A -> B) (g : B -> A) (inverse : forall a, g (f a) = a) (b : Codec B) : Codec A.
Proof.
  refine (mkCodec A (fun a => enc b (f a)) (fun s => '(x, s) ← dec b s; Some (g x, s)) _).
  intros a rest. rewrite dec_enc. cbn [mbind option_bind]. by rewrite inverse.
Defined.

Fixpoint dec_many {A} (a : Codec A) (n : nat) (s : bytes) : option (list A * bytes) :=
  match n with 0 => Some ([], s) | S n => '(x, s) ← dec a s; '(l, s) ← dec_many a n s; Some (x :: l, s) end.

Lemma dec_many_enc {A} (a : Codec A) l rest : dec_many a (length l) ((l ≫= enc a) ++ rest) = Some (l, rest).
Proof.
  induction l as [|x l IH]; [done|]. cbn [length dec_many mbind list_bind]. rewrite <- app_assoc, dec_enc. cbn [mbind option_bind].
  change (list_bind _ _ (enc a) l) with (l ≫= enc a). by rewrite IH.
Qed.

Definition list_codec {A} (a : Codec A) : Codec (list A).
Proof.
  refine (mkCodec (list A) (fun l => N.of_nat (length l) :: (l ≫= enc a)) (fun s => match s with n :: s => dec_many a (N.to_nat n) s | [] => None end) _).
  intros l rest. cbn [app]. rewrite Nat2N.id. apply dec_many_enc.
Defined.

Definition option_codec {A} (a : Codec A) : Codec (option A).
Proof. by refine (via_codec option_list head _ (list_codec a)); intros []. Defined.

Definition integer_codec : Codec Z.
Proof.
  refine (via_codec (fun z => (Z.to_N z, Z.to_N (- z))) (fun p => (Z.of_N p.1 - Z.of_N p.2)%Z) _ (pair_codec number_codec number_codec)).
  intros z. cbn [fst snd]. lia.
Defined.

Definition text_codec : Codec str := list_codec number_codec.

Definition kind_codec : Codec ArtifactSourceKind.
Proof.
  by refine (via_codec (fun k => match k with SourceGit => 0 | SourceArchive => 1 | SourcePackage => 2 | SourceLocal => 3 | SourceGenerated => 4 end)%N
    (fun n => match n with 0 => SourceGit | 1 => SourceArchive | 2 => SourcePackage | 3 => SourceLocal | _ => SourceGenerated end)%N _ number_codec); intros [].
Defined.

Definition merge_kind_codec : Codec LogMergeKind.
Proof.
  by refine (via_codec (fun k => match k with KindNone => 0 | KindMarker => 1 | KindHeuristic => 2 end)%N
    (fun n => match n with 0 => KindNone | 1 => KindMarker | _ => KindHeuristic end)%N _ number_codec); intros [].
Defined.

Definition reason_codec : Codec LogDegradationReason.
Proof.
  by refine (via_codec (fun k => match k with ReasonRepositoryUnreadable => 0 | ReasonRepositoryMissing => 1 | ReasonUnborn => 2 | ReasonRevisionUnresolved => 3
      | ReasonSnapshotEntryMissing => 4 | ReasonLockEntryMissing => 5 | ReasonUnsupportedSourceKind => 6 end)%N
    (fun n => match n with 0 => ReasonRepositoryUnreadable | 1 => ReasonRepositoryMissing | 2 => ReasonUnborn | 3 => ReasonRevisionUnresolved
      | 4 => ReasonSnapshotEntryMissing | 5 => ReasonLockEntryMissing | _ => ReasonUnsupportedSourceKind end)%N _ number_codec); intros [].
Defined.

Definition identity_codec : Codec GitObjectIdentity.
Proof.
  by refine (via_codec (fun i => (gi_name i, (gi_email i, (gi_time_ms i, gi_timezone_offset_minutes i)))) (fun '(a, (b, (c, d))) => mkGitObjectIdentity a b c d) _
    (pair_codec text_codec (pair_codec text_codec (pair_codec (option_codec integer_codec) (option_codec integer_codec))))); intros [].
Defined.

Definition member_codec : Codec LogEntryMember.
Proof.
  by refine (via_codec (fun m => (lm_member_id m, (lm_member_path m, (lm_source_kind m, (lm_commit m, lm_parents m))))) (fun '(a, (b, (c, (d, e)))) => mkLogEntryMember a b c d e) _
    (pair_codec text_codec (pair_codec text_codec (pair_codec (option_codec kind_codec) (pair_codec text_codec (list_codec text_codec)))))); intros [].
Defined.

Definition provenance_codec : Codec LogMergeProvenance.
Proof.
  by refine (via_codec (fun p => (lp_kind p, lp_gwz_commit_id p)) (fun '(a, b) => mkLogMergeProvenance a b) _ (pair_codec merge_kind_codec (option_codec text_codec))); intros [].
Defined.

Definition flag_codec : Codec bool.
Proof. by refine (via_codec (fun b : bool => if b then 1 else 0)%N (fun n => n =? 1)%N _ number_codec); intros []. Defined.

Definition entry_codec : Codec LogEntryRecord.
Proof.
  by refine (via_codec
    (fun e => (le_members e, (le_provenance e, (le_author e, (le_committer e, (le_subject e, (le_body e, (le_ordering_timestamp_ms e,
       (le_author_timestamp_seconds e, (le_committer_timestamp_seconds e, (le_ordering_timestamp_seconds e, le_lossy e)))))))))))
    (fun '(a, (b, (c, (d, (e, (f, (g, (h, (i, (j, k)))))))))) => mkLogEntryRecord a b c d e f g h i j k) _
    (pair_codec (list_codec member_codec) (pair_codec provenance_codec (pair_codec identity_codec (pair_codec identity_codec (pair_codec text_codec
      (pair_codec (option_codec text_codec) (pair_codec (option_codec integer_codec) (pair_codec integer_codec (pair_codec integer_codec
        (pair_codec integer_codec (option_codec flag_codec)))))))))))); intros [].
Defined.

Definition degradation_codec : Codec LogDegradationRecord.
Proof.
  by refine (via_codec (fun d => (ld_member_id d, (ld_member_path d, (ld_source_kind d, (ld_reason d, (ld_operand d, ld_message d))))))
    (fun '(a, (b, (c, (d, (e, f))))) => mkLogDegradationRecord a b c d e f) _
    (pair_codec text_codec (pair_codec text_codec (pair_codec (option_codec kind_codec) (pair_codec reason_codec
      (pair_codec (option_codec text_codec) (option_codec text_codec))))))); intros [].
Defined.

Definition record_codec : Codec LogOutputRecord.
Proof.
  refine (via_codec (fun r => (match lr_kind r with KindEntry => true | KindDegradation => false end, (lr_entry r, lr_degradation r)))
    (fun '(a, (b, c)) => mkLogOutputRecord (if a then KindEntry else KindDegradation) b c) _
    (pair_codec flag_codec (pair_codec (option_codec entry_codec) (option_codec degradation_codec)))). by intros [[]].
Defined.

Definition demo_decode (s : bytes) : result LogOutputRecord str :=
  match dec record_codec s with Some (record, []) => Ok record | _ => Err (lit "no record") end.

Lemma demo_codec r : demo_decode (enc record_codec r) = Ok r.
Proof. unfold demo_decode. by rewrite <- (app_nil_r (enc _ r)), dec_enc. Qed.

Definition demo_histories : CommitLogHistories := mkHistories demo_targets demo_sources false false.

Lemma log_output_exact_witness : exists reg response records,
  handle_log (enc record_codec) (mkSpoolFaults None (fun _ => None) None) (Ok demo_histories) None None registry_new = Some (reg, Ok response) /\
  lres_log_id response = lit "commitlog_000000000001" /\ length records = 3 /\
  drain (registry_read demo_decode reg (lres_log_id response)) 4 (Some 2%N) None = Ok records.
Proof.
  destruct (log_output_exact (enc record_codec) demo_decode (mkSpoolFaults None (fun _ => None) None) demo_histories None None registry_new)
    as (reg & answer & out & aggregate & records & E & _ & Eo & Hr & Ha & Hok).
  - exact demo_codec.
  - intros id [sp Hid]. cbn in Hid. by rewrite lookup_empty in Hid.
  - by apply (bool_decide_unpack _).
  - repeat constructor.
  - assert (length records = 3) as Hlen.
    { rewrite <- (Forall2_length _ _ _ Hr). clear - Eo. revert Eo. vm_compute. by intros [= <- _]. }
    destruct answer as [response|error].
    + exists reg, response, records. destruct Ha as (_ & _ & _ & Hd & _). split_and!; [exact E| |exact Hlen|].
      * clear - E. assert (fmap snd (Some (reg, @Ok LogResponse ModelError response)) = fmap snd (Some (reg, @Ok LogResponse ModelError (mkLogResponse AggregatePartial (lit "commitlog_000000000001"))))) as E'.
        { rewrite <- E. vm_compute. done. }
        cbn in E'. by injection E' as ->.
      * rewrite Hlen in Hd. by apply (Hd (Some 2%N) 2).
    + exfalso. clear - E. assert (fmap snd (Some (reg, @Err LogResponse ModelError error)) = fmap snd (Some (reg, @Ok LogResponse ModelError (mkLogResponse AggregatePartial (lit "commitlog_000000000001"))))) as E'.
      { rewrite <- E. vm_compute. done. }
      cbn in E'. done.
Defined.
