(* ===== verification/SpawnGate.v ===== *)
(** The gate between child processes and launches that hand a child its own
    handles (src/src/git/spawn_gate.rs): a hold excludes every other hold of
    the gate and, where the process shares a kernel object, of every other
    gate on it; a polling launch goes before blocking holds, but only so
    often. Threads are activities of a step relation; a block under the
    state's mutex is one step, and waiting on the condition variable is
    sleeping until a notification, or for no reason, wakes. *)

From S2P Require Export Prelude.

#[local] Set Default Proof Using "Type".

(** ** The gate *)

Inductive GateFault : Type := NotCreated | ForeignOwner.

(** What a gate has beyond its in-process lock: nothing, the process's kernel
    object, or the reason there is none. *)
Inductive ProcessLock : Type := NoLock | KernelLock | LockFault (fault : GateFault).

Definition active (p : ProcessLock) : bool := match p with KernelLock => true | _ => false end.

Definition gate_fault (p : ProcessLock) : option GateFault := match p with LockFault fault => Some fault | _ => None end.

Record State : Type := mkState { held : bool; launches : nat; waiting_holds : nat; launch_streak : nat }.

Record Shared : Type := mkShared { gt_excludes : bool; gt_process : ProcessLock }.

Definition LAUNCHES_AHEAD : nat := 4.

Definition guards (g : Shared) : bool := gt_excludes g || active (gt_process g).

Definition state_new : State := mkState false 0 0 0.

(** [SpawnGate::process] where a spawn needs a window (Windows): [opened] is
    what opening the kernel object answered. *)
Definition process_gate (opened : result unit GateFault) : Shared :=
  let process := match opened with Ok _ => KernelLock | Err fault => LockFault fault end in
  mkShared (negb (active process)) process.

(** [SpawnGate::process] elsewhere, and [SpawnGate::ungated]. *)
Definition open_gate : Shared := mkShared false NoLock.

(** ** Blocks under the lock

    [None] is an arithmetic underflow. *)

Definition checked_pred (n : nat) : option nat := match n with 0 => None | S n => Some n end.

(** [hold]: entering, the loop's condition, and the admission behind it. *)
Definition hold_enter (s : State) : State := mkState (held s) (launches s) (S (waiting_holds s)) (launch_streak s).
Definition hold_defers (s : State) : bool := held s || (0 <? launches s) && (launch_streak s <? LAUNCHES_AHEAD).
Definition hold_admit (s : State) : option State :=
  waiting ← checked_pred (waiting_holds s); Some (mkState true (launches s) waiting 0).

(** [launching] and the drop of a [Launching]; the flag says whether every
    waiting hold is woken. *)
Definition launch_register (s : State) : State := mkState (held s) (S (launches s)) (waiting_holds s) (launch_streak s).
Definition launch_drop (s : State) : option (State * bool) :=
  n ← checked_pred (launches s); Some (mkState (held s) n (waiting_holds s) (launch_streak s), n =? 0).

(** [take] up to the kernel object: the state and whether the launch was
    contended, or the refusal. *)
Definition take_enter (launch : bool) (s : State) : option (State * bool) :=
  let contended := launch && (0 <? waiting_holds s) in
  if held s || contended && (LAUNCHES_AHEAD <=? launch_streak s) then None
  else Some (mkState true (launches s) (waiting_holds s) (if contended then S (launch_streak s) else launch_streak s), contended).

(** [take] when another gate has the kernel object. *)
Definition take_undo (s : State) : option State :=
  n ← checked_pred (launch_streak s); Some (mkState (held s) (launches s) (waiting_holds s) n).

Definition unlock (s : State) : State := mkState false (launches s) (waiting_holds s) (launch_streak s).

(** ** Threads *)

Inductive Release : Type := ReleaseNothing | ReleaseLocal | ReleaseProcess.

(** What a thread is at: waiting in [hold], woken or asleep; in [hold] or
    [take] with the in-process lock, before the kernel object; giving the
    lock back in [take] or in the drop of a hold; or having a hold. *)
Inductive Activity : Type :=
| Waiting (woken : bool)
| HoldTaken
| TakeTaken (contended : bool)
| TakeFailed (contended : bool)
| Unlocking
| Holding (release : Release).

Record GateSystem : Type := mkGateSystem { gs_gate : Shared; gs_state : State; gs_threads : list Activity; gs_launchings : nat }.

Definition wake_all (threads : list Activity) : list Activity :=
  (fun a => match a with Waiting _ => Waiting true | _ => a end) <$> threads.

(** [Condvar::notify_one]: some sleeper, when there is one. *)
Inductive notify_one : list Activity -> list Activity -> Prop :=
| notify_none threads : Waiting false ∉ threads -> notify_one threads threads
| notify_some threads i : threads !! i = Some (Waiting false) -> notify_one threads (<[i := Waiting true]> threads).

(** What a step is to an observer: a launch or a hold admitted by the
    in-process lock, a contended launch's admission taken back, a failed wait
    for the kernel object, or neither. *)
Inductive Note : Type := Quiet | LaunchIn | LaunchUndone | HoldIn | WaitFailed.

(** One step of one gate; [kernel] says whether the kernel object is free. *)
Inductive gate_step : bool -> GateSystem -> Note -> bool -> GateSystem -> Prop :=
| step_hold_open k g s ts n : guards g = false ->
    gate_step k (mkGateSystem g s ts n) Quiet k (mkGateSystem g s (ts ++ [Holding ReleaseNothing]) n)
| step_hold_enter k g s ts n : guards g = true ->
    gate_step k (mkGateSystem g s ts n) Quiet k (mkGateSystem g (hold_enter s) (ts ++ [Waiting true]) n)
| step_hold_sleep k g s ts n i : ts !! i = Some (Waiting true) -> hold_defers s = true ->
    gate_step k (mkGateSystem g s ts n) Quiet k (mkGateSystem g s (<[i := Waiting false]> ts) n)
| step_hold_spurious k g s ts n i : ts !! i = Some (Waiting false) ->
    gate_step k (mkGateSystem g s ts n) Quiet k (mkGateSystem g s (<[i := Waiting true]> ts) n)
| step_hold_admit k g s s' ts n i : ts !! i = Some (Waiting true) -> hold_defers s = false -> hold_admit s = Some s' ->
    gate_step k (mkGateSystem g s ts n) HoldIn k (mkGateSystem g s' (<[i := HoldTaken]> ts) n)
| step_hold_kernel g s ts n i : ts !! i = Some HoldTaken -> active (gt_process g) = true ->
    gate_step true (mkGateSystem g s ts n) Quiet false (mkGateSystem g s (<[i := Holding ReleaseProcess]> ts) n)
| step_hold_wait_failed k g s ts n i : ts !! i = Some HoldTaken -> active (gt_process g) = true ->
    gate_step k (mkGateSystem g s ts n) WaitFailed k (mkGateSystem g s (<[i := Holding ReleaseLocal]> ts) n)
| step_hold_local k g s ts n i : ts !! i = Some HoldTaken -> active (gt_process g) = false ->
    gate_step k (mkGateSystem g s ts n) Quiet k (mkGateSystem g s (<[i := Holding ReleaseLocal]> ts) n)
| step_launching k g s ts n :
    gate_step k (mkGateSystem g s ts n) Quiet k (mkGateSystem g (launch_register s) ts (S n))
| step_launch_drop k g s s' all ts n : launch_drop s = Some (s', all) ->
    gate_step k (mkGateSystem g s ts (S n)) Quiet k (mkGateSystem g s' (if all then wake_all ts else ts) n)
| step_take_open k g s ts n : guards g = false ->
    gate_step k (mkGateSystem g s ts n) Quiet k (mkGateSystem g s (ts ++ [Holding ReleaseNothing]) n)
| step_take_enter k g s s' ts n launch contended : guards g = true -> (launch = true -> 0 < n) -> take_enter launch s = Some (s', contended) ->
    gate_step k (mkGateSystem g s ts n) (if launch then LaunchIn else Quiet) k (mkGateSystem g s' (ts ++ [TakeTaken contended]) n)
| step_take_kernel g s ts n i contended : ts !! i = Some (TakeTaken contended) -> active (gt_process g) = true ->
    gate_step true (mkGateSystem g s ts n) Quiet false (mkGateSystem g s (<[i := Holding ReleaseProcess]> ts) n)
| step_take_local k g s ts n i contended : ts !! i = Some (TakeTaken contended) -> active (gt_process g) = false ->
    gate_step k (mkGateSystem g s ts n) Quiet k (mkGateSystem g s (<[i := Holding ReleaseLocal]> ts) n)
| step_take_busy k g s ts n i contended : ts !! i = Some (TakeTaken contended) -> active (gt_process g) = true ->
    gate_step k (mkGateSystem g s ts n) Quiet k (mkGateSystem g s (<[i := TakeFailed contended]> ts) n)
| step_take_undo k g s s' ts n i : ts !! i = Some (TakeFailed true) -> take_undo s = Some s' ->
    gate_step k (mkGateSystem g s ts n) LaunchUndone k (mkGateSystem g s' (<[i := Unlocking]> ts) n)
| step_take_back k g s ts n i : ts !! i = Some (TakeFailed false) ->
    gate_step k (mkGateSystem g s ts n) Quiet k (mkGateSystem g s (<[i := Unlocking]> ts) n)
| step_drop_open k g s ts n i : ts !! i = Some (Holding ReleaseNothing) ->
    gate_step k (mkGateSystem g s ts n) Quiet k (mkGateSystem g s (delete i ts) n)
| step_drop_local k g s ts ts' n i : ts !! i = Some (Holding ReleaseLocal) -> notify_one (delete i ts) ts' ->
    gate_step k (mkGateSystem g s ts n) Quiet k (mkGateSystem g (unlock s) ts' n)
| step_drop_kernel k g s ts n i : ts !! i = Some (Holding ReleaseProcess) ->
    gate_step k (mkGateSystem g s ts n) Quiet true (mkGateSystem g s (<[i := Unlocking]> ts) n)
| step_unlock k g s ts ts' n i : ts !! i = Some Unlocking -> notify_one (delete i ts) ts' ->
    gate_step k (mkGateSystem g s ts n) Quiet k (mkGateSystem g (unlock s) ts' n).

(** The gates of a process and whether the kernel object they share is
    free. *)
Record Process : Type := mkProcess { pr_kernel : bool; pr_gates : list GateSystem }.

Definition process_new (gates : list Shared) : Process :=
  mkProcess true ((fun g => mkGateSystem g state_new [] 0) <$> gates).

Inductive process_step : Process -> nat * Note -> Process -> Prop :=
| step_gate k k' gates i g g' note : gates !! i = Some g -> gate_step k g note k' g' ->
    process_step (mkProcess k gates) (i, note) (mkProcess k' (<[i := g']> gates)).

(** Executions, with what was observed. *)
Inductive run : Process -> list (nat * Note) -> Process -> Prop :=
| run_nil p : run p [] p
| run_snoc p notes p' note p'' : run p notes p' -> process_step p' note p'' -> run p (notes ++ [note]) p''.

(** ** Counting threads *)

Definition tally (f : Activity -> nat) (threads : list Activity) : nat := sum_list_with f threads.

Definition locks (a : Activity) : nat := match a with Waiting _ | Holding ReleaseNothing => 0 | _ => 1 end.
Definition waits (a : Activity) : nat := match a with Waiting _ => 1 | _ => 0 end.
Definition sleeps (a : Activity) : nat := match a with Waiting false => 1 | _ => 0 end.
Definition wakes (a : Activity) : nat := match a with Waiting true => 1 | _ => 0 end.
Definition kernels (a : Activity) : nat := match a with Holding ReleaseProcess => 1 | _ => 0 end.
Definition locals (a : Activity) : nat := match a with Holding ReleaseLocal => 1 | _ => 0 end.
Definition opens (a : Activity) : nat := match a with Holding ReleaseNothing => 1 | _ => 0 end.
(** Contended launches whose admission may still be taken back. *)
Definition owes (a : Activity) : nat := match a with TakeTaken true | TakeFailed true => 1 | _ => 0 end.

(** ** The invariant of a gate *)

Definition flag (b : bool) : nat := if b then 1 else 0.

Record gate_ok (g : GateSystem) : Prop := {
  go_lock : tally locks (gs_threads g) = flag (held (gs_state g));
  go_wait : tally waits (gs_threads g) = waiting_holds (gs_state g);
  go_launch : launches (gs_state g) = gs_launchings g;
  go_streak : launch_streak (gs_state g) <= LAUNCHES_AHEAD;
  go_owed : tally owes (gs_threads g) <= launch_streak (gs_state g);
  go_wake : held (gs_state g) = false -> 0 < tally sleeps (gs_threads g) ->
            0 < tally wakes (gs_threads g) \/ (0 < launches (gs_state g) /\ launch_streak (gs_state g) < LAUNCHES_AHEAD);
  go_open : if guards (gs_gate g) then tally opens (gs_threads g) = 0 else tally locks (gs_threads g) + tally waits (gs_threads g) = 0;
}.

(** A thread that waits for no lock is counted nowhere but where it is. *)
Lemma notify_tally f ts ts' : f (Waiting true) = f (Waiting false) -> notify_one ts ts' -> tally f ts' = tally f ts.
Proof. intros Hf [|threads i Hi]; [done|]. pose proof (sum_insert f threads i _ (Waiting true) Hi). unfold tally. lia. Qed.

Lemma tally_none ts a (f : Activity -> nat) : (forall b, 0 < f b -> b = a) -> a ∉ ts -> tally f ts = 0.
Proof.
  intros Hf Ha. induction ts as [|b ts IH]; [done|]. unfold tally in *. cbn. apply not_elem_of_cons in Ha as [Hb Ha].
  rewrite IH by done. destruct (f b) eqn:E; [done|]. destruct Hb. symmetry. apply Hf. lia.
Qed.

Lemma notify_wakes ts ts' : notify_one ts ts' -> 0 < tally sleeps ts' -> 0 < tally wakes ts'.
Proof.
  intros [threads Hn|threads i Hi] Hs.
  - rewrite (tally_none threads (Waiting false)) in Hs; [lia| |done]. intros [[]| | | | |[]]; cbn; intros; (done || lia).
  - apply lookup_lt_Some in Hi as Hl. pose proof (sum_elem wakes (<[i := Waiting true]> threads) i (Waiting true)) as H.
    rewrite list_lookup_insert_eq in H by done. unfold tally. specialize (H eq_refl). cbn in H. lia.
Qed.

Lemma wake_all_tally f ts : f (Waiting true) = f (Waiting false) -> tally f (wake_all ts) = tally f ts.
Proof.
  intros Hf. unfold tally, wake_all. induction ts as [|a ts IH]; [done|]. cbn. destruct a as [[]| | | | |]; rewrite ?Hf; by f_equal.
Qed.

Lemma wake_all_sleeps ts : tally sleeps (wake_all ts) = 0.
Proof. unfold tally, wake_all. induction ts as [|a ts IH]; [done|]. cbn. by destruct a. Qed.

(** Poses how the tallies change where the thread at a place changes. *)
Ltac tallies Hi b :=
  match type of Hi with ?ts !! ?i = Some ?a =>
    pose proof (sum_insert locks ts i a b Hi); pose proof (sum_insert waits ts i a b Hi); pose proof (sum_insert owes ts i a b Hi);
    pose proof (sum_insert sleeps ts i a b Hi); pose proof (sum_insert wakes ts i a b Hi); pose proof (sum_insert opens ts i a b Hi);
    pose proof (sum_insert kernels ts i a b Hi)
  end.

Ltac departs Hi :=
  match type of Hi with ?ts !! ?i = Some ?a =>
    pose proof (sum_delete locks ts i a Hi); pose proof (sum_delete waits ts i a Hi); pose proof (sum_delete owes ts i a Hi);
    pose proof (sum_delete sleeps ts i a Hi); pose proof (sum_delete wakes ts i a Hi); pose proof (sum_delete opens ts i a Hi);
    pose proof (sum_delete kernels ts i a Hi)
  end.

Lemma tally_snoc f ts a : tally f (ts ++ [a]) = tally f ts + f a.
Proof. unfold tally. rewrite sum_list_with_app. cbn. lia. Qed.

Lemma owes_locks ts : tally owes ts <= tally locks ts.
Proof. apply sum_le. intros [[]| |[]|[]| |[]]; cbn; lia. Qed.

(** Closes an invariant whose tallies are in the context. *)
Ltac settle_gate :=
  unfold hold_enter, launch_register, unlock; unfold tally in *;
  cbn [locks waits sleeps wakes kernels opens owes flag held launches waiting_holds launch_streak andb orb] in *;
  split; cbn [gs_gate gs_state gs_threads gs_launchings held launches waiting_holds launch_streak]; unfold tally;
  rewrite ?sum_list_with_app; cbn [sum_list_with locks waits sleeps wakes kernels opens owes flag];
  try match goal with
  | H : if guards ?g then _ else _ |- _ => destruct (guards g)
  end; try done; try lia;
  try (intros Hfree; try discriminate Hfree; match goal with H : _ = false -> _ |- _ => specialize (H Hfree) end; lia);
  try (match goal with H : ?h = false -> _ |- _ => destruct h; cbn [flag] in *; [lia|specialize (H eq_refl)] end; lia).

Lemma gate_step_ok k g note k' g' : gate_step k g note k' g' -> gate_ok g -> gate_ok g'.
Proof.
  intros Hstep [H1 H2 H3 H4 H5 H6 H7]. pose proof (owes_locks (gs_threads g)) as Howes.
  destruct Hstep as [k g s ts n Hg|k g s ts n Hg|k g s ts n i Hi Hd|k g s ts n i Hi|k g s s' ts n i Hi Hd Ha|g s ts n i Hi Hk|k g s ts n i Hi Hk|k g s ts n i Hi Hk
    |k g s ts n|k g s s' all ts n Hd|k g s ts n Hg|k g s s' ts n launch contended Hg Hn Ht|g s ts n i contended Hi Hk|k g s ts n i contended Hi Hk
    |k g s ts n i contended Hi Hk|k g s s' ts n i Hi Hu|k g s ts n i Hi|k g s ts n i Hi|k g s ts ts' n i Hi Hno|k g s ts n i Hi|k g s ts ts' n i Hi Hno];
    cbn [gs_gate gs_state gs_threads gs_launchings] in *; destruct s as [h l w q]; cbn [held launches waiting_holds launch_streak] in *.
  - settle_gate.
  - settle_gate.
  - tallies Hi (Waiting false). unfold hold_defers in Hd. cbn [held launches launch_streak] in Hd. settle_gate.
    all: intros ->; cbn [orb] in Hd; apply andb_true_iff in Hd as [?%Nat.ltb_lt ?%Nat.ltb_lt]; lia.
  - tallies Hi (Waiting true). settle_gate.
  - tallies Hi HoldTaken. unfold hold_defers in Hd. cbn [held launches launch_streak] in Hd. apply orb_false_iff in Hd as [-> Hd].
    destruct w as [|w]; [done|]. injection Ha as <-. settle_gate.
  - tallies Hi (Holding ReleaseProcess). settle_gate.
  - tallies Hi (Holding ReleaseLocal). settle_gate.
  - tallies Hi (Holding ReleaseLocal). settle_gate.
  - settle_gate.
  - destruct l as [|l]; [done|]. cbn in Hd. injection Hd as <- <-. destruct (Nat.eqb_spec l 0) as [->|Hl].
    + pose proof (wake_all_tally locks ts eq_refl). pose proof (wake_all_tally waits ts eq_refl). pose proof (wake_all_tally owes ts eq_refl).
      pose proof (wake_all_tally opens ts eq_refl). pose proof (wake_all_sleeps ts). settle_gate.
    + settle_gate.
  - settle_gate.
  - unfold take_enter in Ht. cbn [held launches waiting_holds launch_streak] in Ht. destruct h; [done|]. cbn [orb] in Ht.
    destruct (launch && (0 <? w)) eqn:Ec; [|injection Ht as <- <-; settle_gate].
    cbn [andb] in Ht. destruct (Nat.leb_spec LAUNCHES_AHEAD q); [done|]. injection Ht as <- <-. settle_gate.
  - destruct contended; tallies Hi (Holding ReleaseProcess); settle_gate.
  - destruct contended; tallies Hi (Holding ReleaseLocal); settle_gate.
  - destruct contended; [tallies Hi (TakeFailed true)|tallies Hi (TakeFailed false)]; settle_gate.
  - tallies Hi Unlocking. destruct q as [|q]; [done|]. injection Hu as <-. settle_gate.
  - tallies Hi Unlocking. settle_gate.
  - departs Hi. settle_gate.
  - departs Hi. pose proof (notify_tally locks _ _ eq_refl Hno). pose proof (notify_tally waits _ _ eq_refl Hno). pose proof (notify_tally owes _ _ eq_refl Hno).
    pose proof (notify_tally opens _ _ eq_refl Hno). pose proof (notify_wakes _ _ Hno). settle_gate.
  - tallies Hi Unlocking. settle_gate.
  - departs Hi. pose proof (notify_tally locks _ _ eq_refl Hno). pose proof (notify_tally waits _ _ eq_refl Hno). pose proof (notify_tally owes _ _ eq_refl Hno).
    pose proof (notify_tally opens _ _ eq_refl Hno). pose proof (notify_wakes _ _ Hno). settle_gate.
Qed.

(** The kernel object is taken by a hold and given back by its drop. *)
Lemma gate_step_kernel k g note k' g' : gate_step k g note k' g' -> tally kernels (gs_threads g) <= flag (negb k) ->
  tally kernels (gs_threads g') + flag k' = tally kernels (gs_threads g) + flag k.
Proof.
  intros Hstep Hk. destruct Hstep; cbn [gs_threads] in *; unfold tally in *; rewrite ?sum_list_with_app;
    repeat match goal with
    | Hi : ?ts !! ?i = Some ?a |- context [<[?i := ?b]> ?ts] => pose proof (sum_insert kernels ts i a b Hi); clear Hi
    | Hi : ?ts !! ?i = Some ?a |- context [delete ?i ?ts] => pose proof (sum_delete kernels ts i a Hi); clear Hi
    | Hi : ?ts !! ?i = Some ?a, Hn : notify_one (delete ?i ?ts) ?ts' |- _ =>
        pose proof (sum_delete kernels ts i a Hi); pose proof (notify_tally kernels _ _ eq_refl Hn); clear Hn
    end; unfold tally in *; cbn [sum_list_with kernels flag negb] in *; try lia.
  - destruct all; [|done]. pose proof (wake_all_tally kernels ts eq_refl). unfold tally in *. lia.
  - destruct k; cbn [negb flag] in *; lia.
Qed.

(** Without a failed wait, a hold of a gate on the kernel object has it. *)
Definition no_strays (g : GateSystem) : Prop := active (gt_process (gs_gate g)) = true -> tally locals (gs_threads g) = 0.

Lemma gate_step_strays k g note k' g' : gate_step k g note k' g' -> note <> WaitFailed -> no_strays g -> no_strays g'.
Proof.
  intros Hstep Hnote Hs Ha.
  destruct Hstep; cbn [gs_threads gs_gate] in *; try done; specialize (Hs Ha); cbn [gs_threads] in Hs; unfold tally in *; rewrite ?sum_list_with_app;
    repeat match goal with
    | Hi : ?ts !! ?i = Some ?a |- context [<[?i := ?b]> ?ts] => pose proof (sum_insert locals ts i a b Hi); clear Hi
    | Hi : ?ts !! ?i = Some ?a |- context [delete ?i ?ts] => pose proof (sum_delete locals ts i a Hi); clear Hi
    | Hi : ?ts !! ?i = Some ?a, Hn : notify_one (delete ?i ?ts) ?ts' |- _ =>
        pose proof (sum_delete locals ts i a Hi); pose proof (notify_tally locals _ _ eq_refl Hn); clear Hn
    end; unfold tally in *; cbn [sum_list_with locals] in *; try lia; try congruence.
  destruct all; [|done]. pose proof (wake_all_tally locals ts eq_refl). unfold tally in *. lia.
Qed.

(** ** The process *)

Record process_ok (p : Process) : Prop := {
  po_gates : Forall gate_ok (pr_gates p);
  po_kernel : sum_list_with (fun g => tally kernels (gs_threads g)) (pr_gates p) + flag (pr_kernel p) = 1;
}.

Lemma process_new_ok gates : process_ok (process_new gates).
Proof.
  split; cbn.
  - apply Forall_fmap, Forall_true. intros g. split; cbn; try done; [unfold LAUNCHES_AHEAD; lia|lia|by destruct (guards g)].
  - by induction gates as [|g gates IH].
Qed.

Lemma process_step_ok p note p' : process_step p note p' -> process_ok p -> process_ok p'.
Proof.
  intros [k k' gates i g g' n Hi Hstep] [Hok Hk]. cbn [pr_gates pr_kernel] in *. split; cbn [pr_gates pr_kernel].
  - apply Forall_insert; [done|]. eapply gate_step_ok; [done|]. by eapply (proj1 (Forall_lookup _ _)).
  - pose proof (sum_insert (fun g => tally kernels (gs_threads g)) gates i g g' Hi) as E. cbn beta in E.
    pose proof (sum_elem (fun g => tally kernels (gs_threads g)) gates i g Hi) as Hle. cbn beta in Hle.
    pose proof (gate_step_kernel _ _ _ _ _ Hstep) as Hs. destruct k; cbn [negb flag] in *; specialize (Hs ltac:(lia)); lia.
Qed.

Lemma run_ok p notes p' : run p notes p' -> process_ok p -> process_ok p'.
Proof. induction 1 as [|p notes p' note p'' Hr IH Hs]; [done|]. intros H. eapply process_step_ok; [done|]. by apply IH. Qed.

Lemma run_strays p notes p' : run p notes p' -> Forall (fun n => n.2 <> WaitFailed) notes -> Forall no_strays (pr_gates p) -> Forall no_strays (pr_gates p').
Proof.
  induction 1 as [|p notes p' note p'' Hr IH Hs]; [done|]. intros [Hn Hl]%Forall_app H. rewrite Forall_singleton in Hl. specialize (IH Hn H).
  destruct Hs as [k k' gates i g g' n Hi Hstep]. cbn [pr_gates snd] in *. apply Forall_insert; [done|]. eapply gate_step_strays; [done|done|].
  exact (proj1 (Forall_lookup _ _) IH i g Hi).
Qed.

Lemma two_locks g a b x y : gate_ok g -> gs_threads g !! a = Some x -> gs_threads g !! b = Some y -> locks x = 1 -> locks y = 1 -> a = b.
Proof.
  intros [H _ _ _ _ _ _] Ha Hb Hx Hy. destruct (decide (a = b)) as [|Hne]; [done|]. pose proof (sum_two locks _ _ _ _ _ Ha Hb Hne) as Hs.
  unfold tally in H. rewrite Hx, Hy in Hs. destruct (held (gs_state g)); cbn [flag] in H; lia.
Qed.

Lemma two_kernels p i j g h a b : process_ok p -> pr_gates p !! i = Some g -> pr_gates p !! j = Some h ->
  gs_threads g !! a = Some (Holding ReleaseProcess) -> gs_threads h !! b = Some (Holding ReleaseProcess) -> i = j /\ a = b.
Proof.
  intros [Hok Hk] Hi Hj Ha Hb. destruct (decide (i = j)) as [<-|Hne].
  - simplify_eq. split; [done|]. eapply (two_locks g); [by eapply (proj1 (Forall_lookup _ _))|done|done|done|done].
  - exfalso. pose proof (sum_two (fun g => tally kernels (gs_threads g)) _ _ _ _ _ Hi Hj Hne) as Hs. cbn beta in Hs.
    pose proof (sum_elem kernels _ _ _ Ha) as H1. pose proof (sum_elem kernels _ _ _ Hb) as H2. unfold tally in *. cbn [kernels] in *. lia.
Qed.

Lemma holds_kernel g r : gate_ok g -> no_strays g -> gt_process (gs_gate g) = KernelLock -> (exists a, gs_threads g !! a = Some (Holding r)) -> r = ReleaseProcess.
Proof.
  intros Hgo Hs Hk [a Ha]. assert (active (gt_process (gs_gate g)) = true) as Hact by (by rewrite Hk). specialize (Hs Hact).
  pose proof (go_open _ Hgo) as Ho. unfold guards in Ho. rewrite Hact, orb_true_r in Ho.
  pose proof (sum_elem opens _ _ _ Ha). pose proof (sum_elem locals _ _ _ Ha). unfold tally in *. destruct r; cbn [opens locals] in *; (done || lia).
Qed.

Lemma tally_pos f ts : 0 < tally f ts -> exists a t, ts !! a = Some t /\ 0 < f t.
Proof.
  unfold tally. induction ts as [|t ts IH]; cbn; [lia|]. intros H. destruct (decide (0 < f t)) as [|Hf]; [by exists 0, t|].
  destruct IH as (a & t' & Ha & Ht); [lia|]. by exists (S a), t'.
Qed.

Lemma gate_counts g : gate_ok g ->
  (held (gs_state g) = true <-> exists a t, gs_threads g !! a = Some t /\ locks t = 1) /\
  waiting_holds (gs_state g) = tally waits (gs_threads g) /\ launches (gs_state g) = gs_launchings g /\
  (Waiting true ∈ gs_threads g -> is_Some (hold_admit (gs_state g))) /\ (0 < gs_launchings g -> is_Some (launch_drop (gs_state g))) /\
  (TakeFailed true ∈ gs_threads g -> is_Some (take_undo (gs_state g))).
Proof.
  intros [H1 H2 H3 H4 H5 H6 H7]. split_and!; [split|done|done|..].
  - intros Hh. rewrite Hh in H1. destruct (tally_pos locks (gs_threads g)) as (a & t & Ha & Ht); [cbn in H1; lia|]. exists a, t. split; [done|].
    destruct t as [[]| | | | |[]]; cbn in *; lia.
  - intros (a & t & Ha & Ht). pose proof (sum_elem locks _ _ _ Ha) as Hs. unfold tally in H1. destruct (held (gs_state g)); [done|]. cbn in H1. lia.
  - intros [a Ha]%list_elem_of_lookup. pose proof (sum_elem waits _ _ _ Ha) as Hs. unfold tally in H2. cbn [waits] in Hs. unfold hold_admit, checked_pred.
    destruct (waiting_holds (gs_state g)); [lia|]. by eexists.
  - intros Hn. unfold launch_drop, checked_pred. destruct (launches (gs_state g)); [lia|]. by eexists.
  - intros [a Ha]%list_elem_of_lookup. pose proof (sum_elem owes _ _ _ Ha) as Hs. unfold tally in H5. cbn [owes] in Hs. unfold take_undo, checked_pred.
    destruct (launch_streak (gs_state g)); [lia|]. by eexists.
Qed.

(** C25: at every moment of every execution a guarding gate has at most one
    hold, and so have all gates on the process's kernel object together as
    long as no wait for it failed; a gate is marked held exactly while a hold
    exists or is being taken or given back, its counters count the waiting
    holds and the registered launches, and none of them underflows. *)
Theorem spawn_gate_exclusive gates notes p :
  run (process_new gates) notes p ->
  (forall i g a b r r', pr_gates p !! i = Some g -> guards (gs_gate g) = true ->
     gs_threads g !! a = Some (Holding r) -> gs_threads g !! b = Some (Holding r') -> a = b) /\
  (Forall (fun n => n.2 <> WaitFailed) notes -> forall i j g h a b r r', pr_gates p !! i = Some g -> pr_gates p !! j = Some h ->
     gt_process (gs_gate g) = KernelLock -> gt_process (gs_gate h) = KernelLock ->
     gs_threads g !! a = Some (Holding r) -> gs_threads h !! b = Some (Holding r') -> i = j /\ a = b) /\
  (forall i g, pr_gates p !! i = Some g ->
     (held (gs_state g) = true <-> exists a t, gs_threads g !! a = Some t /\ locks t = 1) /\
     waiting_holds (gs_state g) = tally waits (gs_threads g) /\ launches (gs_state g) = gs_launchings g /\
     (Waiting true ∈ gs_threads g -> is_Some (hold_admit (gs_state g))) /\ (0 < gs_launchings g -> is_Some (launch_drop (gs_state g))) /\
     (TakeFailed true ∈ gs_threads g -> is_Some (take_undo (gs_state g)))).
Proof.
  intros Hrun. pose proof (run_ok _ _ _ Hrun (process_new_ok gates)) as Hok. split_and!.
  - intros i g a b r r' Hi Hg Ha Hb. pose proof (proj1 (Forall_lookup _ _) (po_gates _ Hok) i g Hi) as Hgo. pose proof (go_open _ Hgo) as Ho. rewrite Hg in Ho.
    pose proof (sum_elem opens _ _ _ Ha) as H1. pose proof (sum_elem opens _ _ _ Hb) as H2. unfold tally in Ho.
    eapply (two_locks g); [done|done|done| |]; [destruct r|destruct r']; cbn [opens] in *; (done || lia).
  - intros Hn i j g h a b r r' Hi Hj Hg Hh Ha Hb.
    pose proof (run_strays _ _ _ Hrun Hn ltac:(apply Forall_fmap, Forall_true; done)) as Hs.
    assert (forall i g a r, pr_gates p !! i = Some g -> gt_process (gs_gate g) = KernelLock -> gs_threads g !! a = Some (Holding r) -> r = ReleaseProcess) as Hr.
    { intros i' g' a' r0 Hi' Hg' Ha'. apply (holds_kernel g'); [by eapply (proj1 (Forall_lookup _ _) (po_gates _ Hok))|exact (proj1 (Forall_lookup _ _) Hs i' g' Hi')|done|by eexists]. }
    eapply (two_kernels p); [done|exact Hi|exact Hj|by rewrite <- (Hr i g a r)|by rewrite <- (Hr j h b r')].
  - intros i g Hi. apply gate_counts. by eapply (proj1 (Forall_lookup _ _) (po_gates _ Hok)).
Qed.

(** ** Precedence *)

#[global] Instance Note_eq_dec : EqDecision Note.
Proof. solve_decision. Defined.

(** How often something was observed of a gate. *)
Definition observed (i : nat) (note : Note) (notes : list (nat * Note)) : nat :=
  sum_list_with (fun n => flag (bool_decide (n = (i, note)))) notes.

Lemma gate_step_streak k g note k' g' : gate_step k g note k' g' -> note <> HoldIn -> 0 < waiting_holds (gs_state g) ->
  waiting_holds (gs_state g) <= waiting_holds (gs_state g') /\
  launch_streak (gs_state g') + flag (bool_decide (note = LaunchUndone)) = launch_streak (gs_state g) + flag (bool_decide (note = LaunchIn)).
Proof.
  intros Hstep Hn Hw. destruct Hstep; cbn [gs_state] in *; try done; destruct s as [h l w q]; cbn [held launches waiting_holds launch_streak hold_enter launch_register unlock] in *;
    try (split; [lia|done]).
  - destruct l; [discriminate|]. match goal with H : launch_drop _ = _ |- _ => injection H as <- <- end. done.
  - match goal with H : take_enter _ _ = _ |- _ => unfold take_enter in H; cbn [held launches waiting_holds launch_streak] in H;
      rewrite (proj2 (Nat.ltb_lt 0 w) Hw), andb_true_r in H; destruct (h || launch && _); [discriminate H|]; injection H as <- <- end.
    destruct launch; (split; [done|]); cbn [waiting_holds launch_streak].
    + rewrite bool_decide_eq_false_2, bool_decide_eq_true_2 by done. cbn [flag]. lia.
    + done.
  - destruct q; [discriminate|]. match goal with H : take_undo _ = _ |- _ => injection H as <- end. (split; [done|]). 
    rewrite bool_decide_eq_true_2, bool_decide_eq_false_2 by done. cbn [flag launch_streak]. lia.
Qed.

Lemma run_streak p notes p' i g : run p notes p' -> pr_gates p !! i = Some g -> 0 < waiting_holds (gs_state g) -> (i, HoldIn) ∉ notes ->
  exists g', pr_gates p' !! i = Some g' /\ 0 < waiting_holds (gs_state g') /\
  launch_streak (gs_state g') + observed i LaunchUndone notes = launch_streak (gs_state g) + observed i LaunchIn notes.
Proof.
  intros Hr Hg Hw. revert Hg. induction Hr as [p|p notes p' note p'' Hr IH Hs]; intros Hg Hn; [by exists g|].
  apply not_elem_of_app in Hn as [Hn Hl]. destruct (IH Hg Hn) as (g' & Hg' & Hw' & E). unfold observed. rewrite !sum_list_with_app. cbn [sum_list_with].
  destruct Hs as [k k' gates j h h' note Hj Hstep]. cbn [pr_gates] in *. destruct (decide (j = i)) as [->|Hne].
  - simplify_eq. destruct (gate_step_streak _ _ _ _ _ Hstep) as [H1 H2]; [by intros ->; set_solver|done|].
    exists h'. rewrite list_lookup_insert_eq by (by eapply lookup_lt_Some). split_and!; [done|lia|]. unfold observed in E.
    replace (bool_decide ((i, note) = (i, LaunchUndone))) with (bool_decide (note = LaunchUndone)) by (apply bool_decide_ext; naive_solver).
    replace (bool_decide ((i, note) = (i, LaunchIn))) with (bool_decide (note = LaunchIn)) by (apply bool_decide_ext; naive_solver). lia.
  - exists g'. rewrite list_lookup_insert_ne by done. split_and!; [done|done|]. rewrite !bool_decide_eq_false_2 by naive_solver. cbn [flag]. unfold observed in E. lia.
Qed.

Lemma waits_split ts : tally waits ts = tally sleeps ts + tally wakes ts.
Proof. unfold tally. induction ts as [|a ts IH]; [done|]. cbn [sum_list_with]. rewrite IH. destruct a as [[]| | | | |]; cbn [waits sleeps wakes]; lia. Qed.

Lemma admissible p i g : process_ok p -> pr_gates p !! i = Some g -> 0 < waiting_holds (gs_state g) -> held (gs_state g) = false ->
  launches (gs_state g) = 0 \/ launch_streak (gs_state g) = LAUNCHES_AHEAD -> exists p', process_step p (i, HoldIn) p'.
Proof.
  intros Hok Hi Hw Hh Hfree. pose proof (proj1 (Forall_lookup _ _) (po_gates _ Hok) i g Hi) as [H1 H2 H3 H4 H5 H6 H7].
  assert (0 < tally wakes (gs_threads g)) as Hwake by (specialize (H6 Hh); pose proof (waits_split (gs_threads g)); lia).
  apply tally_pos in Hwake as (a & t & Ha & Ht). destruct t as [[]| | | | |]; cbn in Ht; try lia.
  destruct p as [k gates], g as [g [h l w q] ts n]. cbn in *. subst h. destruct w as [|w]; [lia|].
  eexists. eapply step_gate; [exact Hi|]. eapply step_hold_admit; [exact Ha| |done]. unfold hold_defers. cbn [held launches launch_streak orb].
  destruct Hfree as [-> | ->]; [done|]. by rewrite Nat.ltb_irrefl, andb_false_r.
Qed.


(** Two hosts on the kernel object: a hold of the first waits while a launch of
    it is registered, and the launch goes ahead. *)
Definition demo_gates : list Shared := [process_gate (Ok tt); process_gate (Ok tt)].

Definition demo_waiting : Process :=
  mkProcess true [mkGateSystem (process_gate (Ok tt)) (mkState false 1 1 0) [Waiting false] 1; mkGateSystem (process_gate (Ok tt)) state_new [] 0].

Definition demo_ahead : Process :=
  mkProcess false [mkGateSystem (process_gate (Ok tt)) (mkState true 1 1 1) [Waiting false; Holding ReleaseProcess] 1; mkGateSystem (process_gate (Ok tt)) state_new [] 0].

Lemma first_gate k k' g g' note rest : gate_step k g note k' g' -> process_step (mkProcess k (g :: rest)) (0, note) (mkProcess k' (g' :: rest)).
Proof. exact (step_gate k k' (g :: rest) 0 g g' note eq_refl). Qed.

Lemma demo_run_waiting : run (process_new demo_gates) [(0, Quiet); (0, Quiet); (0, Quiet)] demo_waiting.
Proof.
  apply (run_snoc _ [(0, Quiet); (0, Quiet)] (mkProcess true [mkGateSystem (process_gate (Ok tt)) (mkState false 1 1 0) [Waiting true] 1; mkGateSystem (process_gate (Ok tt)) state_new [] 0])).
  - apply (run_snoc _ [(0, Quiet)] (mkProcess true [mkGateSystem (process_gate (Ok tt)) (mkState false 1 0 0) [] 1; mkGateSystem (process_gate (Ok tt)) state_new [] 0])).
    + apply (run_snoc _ [] (process_new demo_gates)); [constructor|]. by apply first_gate, step_launching.
    + by apply first_gate, step_hold_enter.
  - by apply first_gate, (step_hold_sleep _ _ _ [Waiting true] _ 0).
Qed.

Lemma demo_run_ahead : run demo_waiting [(0, LaunchIn); (0, Quiet)] demo_ahead.
Proof.
  apply (run_snoc _ [(0, LaunchIn)] (mkProcess true [mkGateSystem (process_gate (Ok tt)) (mkState true 1 1 1) [Waiting false; TakeTaken true] 1; mkGateSystem (process_gate (Ok tt)) state_new [] 0])).
  - apply (run_snoc _ [] demo_waiting); [constructor|]. apply first_gate. by apply (step_take_enter _ _ _ _ [Waiting false] _ true true); [|lia|].
  - by apply first_gate, (step_take_kernel _ _ [Waiting false; TakeTaken true] _ 1 true).
Qed.

Lemma run_app p notes p' notes' p'' : run p notes p' -> run p' notes' p'' -> run p (notes ++ notes') p''.
Proof.
  intros H H'. induction H' as [|p' notes' q note q' Hr IH Hs]; [by rewrite app_nil_r|]. rewrite app_assoc. econstructor; [by apply IH|done].
Qed.

Lemma spawn_gate_exclusive_witness : is_Some (pr_gates demo_ahead !! 0) /\
  (forall j h b r, pr_gates demo_ahead !! j = Some h -> gt_process (gs_gate h) = KernelLock -> gs_threads h !! b = Some (Holding r) -> 0 = j /\ 1 = b).
Proof.
  split; [by eexists|].
  destruct (spawn_gate_exclusive demo_gates _ _ (run_app _ _ _ _ _ demo_run_waiting demo_run_ahead)) as (_ & H & _).
  intros j h b r Hj Hh Hb. refine (H _ 0 j _ h 1 b ReleaseProcess r eq_refl Hj eq_refl Hh eq_refl Hb). by repeat constructor.
Defined.

